(* ===== verification/_CoqProject ===== *)
-Q . S2P
Prelude.v
DirectedGraph.v
LockTable.v
WaitQueue.v
LockInv.v
LockSpec.v
LockRelease.v
LockManager.v
Transaction.v
TransactionInv.v
TransactionStep.v
Serializability.v
TransactionEdge.v
Marking.v
Trie.v
TrieSearch.v
TrieMain.v
WorkerPool.v
ListSet.v
ListMutex.v
ListCoarse.v
ListFine.v
ListOptimistic.v
QueueClient.v
GiantQueue.v
TicketQueue.v
LockClient.v
SpinLocks.v
CLHLock.v
Primes.v
PrimeCond.v
Snapshot.v
InnoMode.v
InnoSys.v
InnoQueue.v
InnoInv.v
InnoGrant.v
InnoBits.v
InnoView.v
InnoDeadlock.v
InnoSearch.v
InnoResolve.v
InnoRequest.v
InnoMove.v
InnoLocking.v
InnoJoin.v
InnoReach.v
InnoCarry.v
InnoInherit.v
InnoPages.v
InnoMain.v
InnoPhantom.v
InnoTable.v
InnoTableInv.v
InnoTableStep.v
InnoTableRemove.v
InnoTableEnd.v
InnoTableRequest.v
InnoTableDeadlock.v
InnoTableDrop.v
InnoTableMain.v
