(* ===== verification/Prelude.v ===== *)
(** * Verification of a collection of concurrent programs

    The repository has four projects and the exercises of a course on concurrent
    programming, in C++ with POSIX threads. Each program is a small system of its own.
    This file has what all models share; the others follow the programs.

    ** The programs and their models

    - Project 2 ([src/project2]) runs transactions on an array of records under strict
      two-phase locking with reader-writer locks and deadlock detection. A thread draws
      three records, reads the first, adds to the second, subtracts from the third and
      commits under the global mutex, or rolls back when its request for a lock would
      close a cycle of waiting threads. [DirectedGraph] is the wait-for graph
      ([directed_graph.cc]); [LockTable] the lock table ([rw_lock_table.cc]), whose
      methods are functions on a record with the state of the class, split at
      [pthread_cond_wait]; [Transaction] the threads ([transaction.cc], [main.cc]), with
      [thread_step] as the step function of one thread; [Marking] the log files and the
      program that checks them ([marking/main.cc]). [WaitQueue], [LockInv], [LockSpec],
      [LockRelease] prove the lock table against its invariant; [LockManager] is the
      contract between the lock table and the transactions; [TransactionInv] and
      [TransactionStep] prove the steps of the threads from the contract;
      [Serializability] and [TransactionEdge] have the theorems.
    - Project 1 ([src/project1]) keeps a set of words in a trie and prints for a query
      the stored words that occur in it, searched by 42 threads. [Trie] and [TrieSearch]
      are [trie.cc], [TrieMain] the command loop of [main.cc], [WorkerPool] the
      synchronisation of the threads; in [TrieMain] the searches of the threads for one
      query are taken one after another.
    - Project 3 ([src/project3]) is a wait-free atomic snapshot; [Snapshot] is
      [WFSnapshot.cc], [stamped_snap.cc] and the threads of [main.cc].
    - Project 4 ([src/project4]) is about the lock manager of a MariaDB server, of which
      the locks of InnoDB are modelled ([storage/innobase]). A transaction asks
      for a lock on a record of a page; if it conflicts with one ahead of it, it waits in
      the hash chain of the page, unless that closes a cycle of waiting transactions, of
      which one is then chosen as a victim. [InnoMode] has the modes, bitmaps and
      conflicts ([lock0priv.h], [lock0priv.ic]); [InnoSys] the lock system, the queues and
      how locks are granted and released; [InnoDeadlock] the class [DeadlockChecker];
      [InnoRequest] the class [RecLock] and the requests, all from [lock0lock.cc].
      [InnoQueue] has the lemmas on queues, [InnoInv] the invariant, the order in which
      locks block each other and how states evolve; [InnoGrant] and [InnoBits] prove
      granting, releasing and changes of a bitmap; [InnoSearch] and [InnoResolve] the
      search for deadlocks and their resolution; [InnoLocking], [InnoJoin] and
      [InnoReach] the requests. [InnoMove] has what happens to the locks when records
      are inserted, removed or moved and when pages are split, merged, copied or
      discarded; [InnoView] describes a queue by its requests, without the structs that
      hold them, [InnoCarry] and [InnoInherit] prove how requests are carried to other
      records and inherited by gaps, [InnoPages] the changes of pages. [InnoMain] has all
      operations as a transition system and its theorems, [InnoPhantom] those on moved
      and inherited locks. [InnoTable] has the locks on tables, from the same file: a
      queue per table, AUTO-INC locks that end with the statement, the vectors in which a
      transaction keeps its table locks, timeouts and the end of a transaction; lock
      structs are addresses in a heap, since the struct of an AUTO-INC lock is used again
      and a vector can outlive what it points to. [InnoTableInv] is the invariant,
      [InnoTableStep], [InnoTableRemove], [InnoTableEnd] and [InnoTableRequest] prove
      granting, removing, releasing and requesting, where the search for deadlocks is an
      argument with the contract [search_ok]; [InnoTableDeadlock] is that search, along
      table locks, and proves the contract; [InnoTableDrop] is the removal of the locks of a
      dropped table, and [InnoTableMain] has the transition system and its theorems.
    - Lab 11 ([src/lab11]) has four sorted linked lists with one mutex, with a mutex per
      node locked hand over hand, and with optimistic locking. [ListSet] and [ListMutex]
      are what they share, [ListCoarse], [ListFine] and [ListOptimistic] the lists with
      the threads that use them.
    - Lab 13 ([src/lab13]) has producers and consumers on a bounded queue, one with a
      mutex and one with tickets and no lock. [QueueClient] is the client, proved
      against the classes [QueueImpl] and [QueueLaws]; [GiantQueue] and [TicketQueue]
      are the instances.
    - Labs 10 and 2 ([src/lab10], [src/lab02]) count under different locks.
      [LockClient] is the client, proved against the classes [LockImpl] and
      [LockLaws]; [SpinLocks] and [CLHLock] have the instances. [SpinLocks] also has the
      counter of lab 10 with an atomic addition ([Module FetchAndAdd]) and the
      unprotected one of lab 1 ([Module Race]).
    - Labs 3, 4 and 7 ([src/lab03], [src/lab04], [src/lab07]) count primes with several
      threads: [Primes] and [PrimeCond].

    ** How the code is translated

    A function of the code is a function here, with the state it changes as an argument
    and result, in the error monad [res] below: a failing assert, an access out of
    bounds or to freed memory, a signed overflow and an uncaught exception are values
    [Err]. A concurrent program is a record of the shared variables and of a program
    counter with local variables for each thread; a step function runs one thread up to
    its next access to memory that others can change. What runs between lock and unlock
    of a mutex that protects all shared accesses is one step. Reachability is the
    reflexive transitive closure of all steps of all threads, so the theorems are about
    all interleavings. Fields that only the proofs use, such as the keys enqueued so far
    in [QueueClient], change no branch.

    Integers are [Z] with the range of their type: [wrap_i64] where the code expects
    signed sums to wrap around and tests for it (C++ leaves the overflow undefined, and the
    Makefile does not pass [-fwrapv]), [int_arith] where overflow is undefined, [to_int]
    for conversions. Memory is sequentially consistent, which the atomic builtins and
    mutexes give where they are used and which is an assumption for the polled flags,
    the optimistic list, the ticket queue and the snapshot. Numbers that the code fixes
    by a macro are arguments where the theorems hold for all of them. The values of
    [rand], the addresses of new memory and the input are arguments of the steps or of
    the initial state.

    ** What is proved

    - Project 2: every reachable state is serializable in the order of the commit ids,
      no assert fails, there is no deadlock, no lost wake-up and no data race on
      the records, an aborted transaction leaves no trace; the search for cycles is
      correct; which overflows the overflow tests find; the marking program decides
      serializability, and accepts the logs of every run. With fewer than three records
      the program does not get anywhere.
    - Project 1: what is printed is what the specification by sets of words says, except
      that deleting a word that is only the beginning of a stored word is undefined; the
      partition of the query loses nothing; without spurious wake-ups each search thread
      contributes exactly once per query, and the pool does not get stuck; a spurious
      wake-up breaks it.
    - Project 3: [scan] returns after a bounded number of collections; snapshots only
      have values that were written; they can be stale, and [collect] can read freed
      memory.
    - Project 4, with the locks of a page granted first come, first served, and without
      page reorganizations: in every reachable state each operation that can happen
      returns without a failing assertion, those on the state of query threads included; granted locks do not conflict; a lock waits only for a lock ahead of it;
      there is no cycle of waiting transactions, and the search for one is exact; the
      results of requests, insert checks and releases; all states are well formed. The
      requests for a record follow it to another page in their order, and a gap closed to
      inserts stays closed when records in it are inserted and removed. Three errors
      are exhibited: with the default scheduling by age, and when a page is reorganized, a
      deadlock goes undetected; and with scheduling by age two transactions can hold the
      same record exclusively. For table locks, under both scheduling algorithms: no
      operation fails, unless a deadlock victim of a request that is not scheduled by age
      has AUTO-INC locks, and then an assertion can fail; a lock waits exactly if a
      conflicting one is ahead of it; what a table and a transaction record about AUTO-INC
      locks is exact; the results of requests and of the end of a transaction. After a
      timeout the next request can succeed without a lock.
    - Lab 11: linearizability of the list with one mutex and the one locked hand over
      hand, absence of deadlock, memory safety, if the mutexes of the sentinels, which two
      of the programs do not initialise, start unlocked; for the optimistic list the effect of
      every operation, and a run in which the results are not those of a set; the use
      after free of the template.
    - Labs 13, 10 and 2: the clients are correct with every queue and lock of the
      sources: no failing step, the end can always be reached, and the result is exact.
      The ticket queue hands out keys in order.
    - Labs 3, 4 and 7: the primes are counted right; the wake-up of [prime_cond] can be
      lost.

    ** Bounds and fuel

    [get_cycle] has the number of nodes plus one as its depth, and a nested call marks a
    new node; the search loop of the coarse list has the number of nodes in memory; the
    loop of [IsPrime] has the root of its argument, the loop that counts primes the
    length of the range; [scan] has the number of threads plus one; printing a
    64-bit number has twenty digits. The search for a deadlock in InnoDB has a turn for
    each lock and transaction, because a transaction is searched only once; resolving
    deadlocks has a turn for each lock, because each turn removes one; [lock_release] has
    the number of locks of the transaction. For table locks, resolving deadlocks has a turn
    for each transaction, because each turn ends a wait, and releasing and dropping have
    the length of the vector, list or queue. The deadlock search of a table lock, which may
    come by a cycle that is not its own until it has made 1,000,000 steps, has 2^(20 + n)
    turns, where n is the number of lock structs, more than the steps times the locks to
    look at in between. The theorems show that these are never used up. Concurrent
    programs have no fuel; that they can end is a theorem of its own, by a measure that
    some step decreases. The 64-bit counter of marks of InnoDB
    is assumed not to wrap around, as a comment in [search] argues; a request is
    possible only while it has room for the marks of its searches.

    ** What is not modelled

    Printing of messages and the animation, parsing of command lines, freeing memory at
    the end of [main], creating and joining threads beyond the initial and final states,
    the timers and thread pools of boost (labs 6 and 7), the exercises with planted errors
    for debuggers (labs 3 and 5). Of the MariaDB server of project 4 everything but its
    record and table locks: predicate locks of spatial indexes, locks that are implicit in
    the transaction id of a record, the record locks of recovered transactions on a table
    that is dropped, waits that mix record and table locks, resizing the hash table, replication and Galera, and the pages themselves:
    the order of the records, which [page0page.ic] reads from the page, is an argument of
    the functions that walk along it. The transition system has all changes of pages but
    the reorganization, which breaks its invariant. The mutexes of the lock system and of
    the transactions are held throughout each operation, so that operations are atomic. *)
From stdpp Require Import base tactics numbers option list list_numbers gmap sets relations.
From Stdlib Require Import ZArith Lia.

(** * Outcomes of a C++ computation

    A modelled function either returns, or stops the program: a failing
    [assert], an access the language leaves undefined, an exception nobody
    catches, or (for the functions whose recursion is bounded by fuel) a
    recursion deeper than its fuel. *)

Inductive err : Type :=
| AssertFail
| UndefinedBehaviour
| UncaughtException
| OutOfFuel.

Inductive res (A : Type) : Type :=
| Ok (a : A)
| Err (e : err).
Arguments Ok {A} a.
Arguments Err {A} e.

#[global] Instance res_ret : MRet res := λ A, @Ok A.
#[global] Instance res_bind : MBind res := λ A B f m,
  match m with Ok a => f a | Err e => Err e end.

(** Methods that read and write an object thread its state explicitly. *)
Definition M (S A : Type) : Type := S → res (A * S).

#[global] Instance M_ret {S} : MRet (M S) := λ A a s, Ok (a, s).
#[global] Instance M_bind {S} : MBind (M S) := λ A B f m s,
  match m s with Ok (a, s') => f a s' | Err e => Err e end.

Definition fail {S A} (e : err) : M S A := λ _, Err e.
Definition gets {S A} (f : S → A) : M S A := λ s, Ok (f s, s).
Definition modify {S} (f : S → S) : M S unit := λ s, Ok (tt, f s).

(** [assert(b)]; the build defines no NDEBUG, so a failing assert aborts. *)
Definition assert_ {S} (b : bool) : M S unit :=
  if b then mret tt else fail AssertFail.

(** [v[i]] or [*p]: reading outside the object is undefined. *)
Definition deref {S A} (o : option A) : M S A :=
  match o with Some a => mret a | None => fail UndefinedBehaviour end.

(** A method of a member object, run on that member. *)
Definition zoom {S T A} (view : S → T) (put : T → S → S) (m : M T A) : M S A :=
  λ s, match m (view s) with
       | Ok (a, t) => Ok (a, put t s)
       | Err e => Err e
       end.

(** * Machine integers

    Unsigned arithmetic wraps modulo the width; the signed [long long] counters
    and records wrap in two's complement, which is what the overflow tests of
    the source look for. *)

Definition wrap_u32 (z : Z) : Z := z mod 2 ^ 32.
Definition wrap_u64 (z : Z) : Z := z mod 2 ^ 64.
Definition wrap_i64 (z : Z) : Z := (z + 2 ^ 63) mod 2 ^ 64 - 2 ^ 63.

(** The values of [int], the conversion of a wider integer to [int], and signed
    arithmetic on [int], whose overflow is undefined. *)
Definition INT_MIN : Z := -2147483648.
Definition INT_MAX : Z := 2147483647.

Definition to_int (z : Z) : Z := (z + 2 ^ 31) mod 2 ^ 32 - 2 ^ 31.

Definition int_arith (z : Z) : res Z :=
  if ((INT_MIN <=? z) && (z <=? INT_MAX))%Z then Ok z else Err UndefinedBehaviour.

Lemma to_int_id z : (INT_MIN ≤ z ≤ INT_MAX)%Z → to_int z = z.
Proof. unfold INT_MIN, INT_MAX, to_int. intros ?. rewrite Z.mod_small; lia. Qed.

Lemma int_arith_Ok z : (INT_MIN ≤ z ≤ INT_MAX)%Z → int_arith z = Ok z.
Proof. unfold int_arith. intros [H1 H2]. by rewrite (proj2 (Z.leb_le _ _) H1), (proj2 (Z.leb_le _ _) H2). Qed.

(** The values of [long long]. *)
Definition i64 (z : Z) : Prop := (- 2 ^ 63 ≤ z < 2 ^ 63)%Z.

Lemma wrap_i64_id v : i64 v → wrap_i64 v = v.
Proof. unfold i64, wrap_i64. intros ?. rewrite Z.mod_small; lia. Qed.

Lemma wrap_i64_range v : i64 (wrap_i64 v).
Proof. unfold i64, wrap_i64. assert (H := Z.mod_pos_bound (v + 2 ^ 63) (2 ^ 64)). lia. Qed.

Lemma wrap_i64_sub v x : wrap_i64 (wrap_i64 v - x) = wrap_i64 (v - x).
Proof.
  unfold wrap_i64. f_equal.
  replace ((v + 2 ^ 63) mod 2 ^ 64 - 2 ^ 63 - x + 2 ^ 63)%Z with ((v + 2 ^ 63) mod 2 ^ 64 - x)%Z by lia.
  rewrite Zminus_mod_idemp_l. f_equal. lia.
Qed.

Lemma wrap_i64_undo_add v x : i64 v → wrap_i64 (wrap_i64 (v + x) - x) = v.
Proof. intros Hv. rewrite wrap_i64_sub, Z.add_simpl_r. by apply wrap_i64_id. Qed.

Lemma wrap_i64_undo_sub v x : i64 v → wrap_i64 (wrap_i64 (v - x) + x) = v.
Proof.
  intros Hv. rewrite <- (Z.sub_opp_r _ x), wrap_i64_sub, Z.sub_opp_r, Z.sub_add. by apply wrap_i64_id.
Qed.

(** Running a sequence of steps, with the first step already evaluated. *)
Lemma bind_Ok {S A B} (m : M S A) (f : A → M S B) s a s' :
  m s = Ok (a, s') → (m ≫= f) s = f a s'.
Proof. intros H. unfold mbind, M_bind. by rewrite H. Qed.

Lemma assert_true {S B} b (f : unit → M S B) s :
  b = true → (assert_ b ≫= f) s = f tt s.
Proof. intros ->. done. Qed.

Lemma deref_Some {S A B} (o : option A) a (f : A → M S B) s :
  o = Some a → (deref o ≫= f) s = f a s.
Proof. intros ->. done. Qed.

Lemma zoom_Ok {S T A} (view : S → T) (put : T → S → S) (m : M T A) s a t :
  m (view s) = Ok (a, t) → zoom view put m s = Ok (a, put t s).
Proof. intros H. unfold zoom. by rewrite H. Qed.

(** * Arrays

    An index outside the array is [None]. *)
Definition array_get {A} (l : list A) (i : Z) : option A := if (i <? 0)%Z then None else l !! Z.to_nat i.
Definition array_set {A} (l : list A) (i : Z) (x : A) : list A := if (i <? 0)%Z then l else <[Z.to_nat i := x]> l.

Lemma array_get_Some {A} (l : list A) i : (0 ≤ i < Z.of_nat (length l))%Z → ∃ x, array_get l i = Some x.
Proof. intros Hi. unfold array_get. rewrite (proj2 (Z.ltb_ge _ _)) by lia. apply lookup_lt_is_Some. lia. Qed.

Lemma array_get_set_eq {A} (l : list A) i x : (0 ≤ i < Z.of_nat (length l))%Z → array_get (array_set l i x) i = Some x.
Proof. intros Hi. unfold array_get, array_set. rewrite (proj2 (Z.ltb_ge _ _)) by lia. apply list_lookup_insert_eq. lia. Qed.

Lemma array_get_set_ne {A} (l : list A) i j x : i ≠ j → array_get (array_set l i x) j = array_get l j.
Proof.
  intros Hne. unfold array_get, array_set. destruct (Z.ltb_spec j 0); [done|]. destruct (Z.ltb_spec i 0); [done|].
  apply list_lookup_insert_ne. lia.
Qed.

Lemma length_array_set {A} (l : list A) i x : length (array_set l i x) = length l.
Proof. unfold array_set. destruct (i <? 0)%Z; [done|]. apply length_insert. Qed.

(** * Sums over a list *)

Lemma sum_list_with_update {A} (f : A → nat) l i x y :
  l !! i = Some x → sum_list_with f (<[i := y]> l) + f x = sum_list_with f l + f y.
Proof.
  revert i. induction l as [|z l IH]; intros [|i] Hi; simplify_eq/=; [lia|]. specialize (IH i Hi). lia.
Qed.

Lemma sum_list_with_le {A} (f : A → nat) n l : Forall (λ x, f x ≤ n) l → sum_list_with f l ≤ length l * n.
Proof. induction 1; simpl; lia. Qed.

Lemma sum_list_with_lt {A} (f : A → nat) n l i x :
  Forall (λ x, f x ≤ n) l → l !! i = Some x → f x < n → sum_list_with f l < length l * n.
Proof.
  intros Hall. revert i. induction Hall as [|y l Hy Hall IH]; intros [|i] Hi Hx; simplify_eq/=.
  - apply sum_list_with_le in Hall. lia.
  - specialize (IH i Hi Hx). lia.
Qed.

Lemma sum_list_with_eq {A} (f : A → nat) n l : Forall (λ x, f x = n) l → sum_list_with f l = length l * n.
Proof. induction 1; simpl; lia. Qed.

(** * Reaching a state by steps that decrease a measure *)
Lemma rtc_reaches {A} (R : A → A → Prop) (inv goal : A → Prop) (m : A → nat) :
  (∀ x, inv x → goal x ∨ ∃ y, R x y ∧ inv y ∧ m y < m x) → ∀ x, inv x → ∃ y, rtc R x y ∧ goal y ∧ inv y.
Proof.
  intros Hstep x. remember (m x) as n eqn:Hn. revert x Hn.
  induction (lt_wf n) as [n _ IH]; intros x -> Hx. destruct (Hstep x Hx) as [Hg|(y & Hxy & Hy & Hm)].
  - exists x. split; [reflexivity|done].
  - destruct (IH _ Hm y eq_refl Hy) as (z & Hz & Hg). exists z. split; [by eapply rtc_l|done].
Qed.
