(* ===== verification/DirectedGraph.v ===== *)
(** The wait-for graph of project 2: [project2/include/directed_graph.h] and
    [project2/src/directed_graph.cc].

    The definitions translate the class; the lemmas after them show that
    [add_edge] and [remove_edge] change exactly one edge, that the depth first
    search of [get_cycle] terminates, and that it finds a cycle through its
    start node exactly when there is one. *)
From stdpp Require Import base tactics numbers option list list_numbers gmap sets relations.
From Stdlib Require Import ZArith Lia.
From S2P Require Import Prelude.

(** [typedef struct _dest_and_count]; every comparison operator of the struct
    looks at [dest] only, and [operator==] is the only one the class uses. *)
Record dest_and_count_t : Type := mk_dest_and_count {
  dest : nat;
  count : Z;
}.

#[global] Instance dest_and_count_eq_dec : EqDecision dest_and_count_t.
Proof. solve_decision. Defined.

Definition dac_eqb (lhs rhs : dest_and_count_t) : bool := dest lhs =? dest rhs.

Record directed_graph : Type := mk_graph {
  number_of_nodes : nat;
  nodes : list (list dest_and_count_t);
}.

Definition set_nodes (ns : list (list dest_and_count_t)) (g : directed_graph) : directed_graph :=
  mk_graph (number_of_nodes g) ns.

(** The constructor allocates one empty vector for each node. *)
Definition new_directed_graph (number_of_nodes : nat) : directed_graph :=
  mk_graph number_of_nodes (replicate number_of_nodes []).

Definition is_node_exist (g : directed_graph) (node_number : nat) : bool :=
  negb (number_of_nodes g <=? node_number).

(** The search loop shared by [add_edge] and [remove_edge]: the position of the
    first edge to [to_buf.dest], or the end of the vector. *)
Fixpoint find_dest (to_buf : dest_and_count_t) (es : list dest_and_count_t) : option nat :=
  match es with
  | [] => None
  | e :: es' => if dac_eqb e to_buf then Some 0 else S <$> find_dest to_buf es'
  end.

Definition add_edge (from to : nat) : M directed_graph bool :=
  assert_ (negb (from =? to)) ≫= λ _,
  let to_buf := mk_dest_and_count to 1 in
  gets id ≫= λ g,
  if negb (is_node_exist g from && is_node_exist g to) then mret false
  else
    deref (nodes g !! from) ≫= λ es,
    match find_dest to_buf es with
    | Some i =>
        assert_ false ≫= λ _,
        modify (set_nodes (<[from := alter (λ e, mk_dest_and_count (dest e) (count e + 1)) i es]> (nodes g))) ≫= λ _,
        mret true
    | None =>
        modify (set_nodes (<[from := es ++ [to_buf]]> (nodes g))) ≫= λ _,
        mret true
    end.

Definition remove_edge (from to : nat) : M directed_graph bool :=
  assert_ (negb (from =? to)) ≫= λ _,
  let to_buf := mk_dest_and_count to 1 in
  gets id ≫= λ g,
  if negb (is_node_exist g from && is_node_exist g to) then mret false
  else
    deref (nodes g !! from) ≫= λ es,
    match find_dest to_buf es with
    | Some i =>
        deref (es !! i) ≫= λ e,
        assert_ (negb (count e =? 0)%Z) ≫= λ _,
        (if (count e =? 1)%Z
         then modify (set_nodes (<[from := delete i es]> (nodes g)))
         else modify (set_nodes (<[from := alter (λ e, mk_dest_and_count (dest e) (count e - 1)) i es]> (nodes g)))) ≫= λ _,
        mret true
    | None => assert_ false ≫= λ _, mret false
    end.

(** The totals [show_all_edges] prints: distinct edges, and edges with their
    multiplicities. *)
Definition show_all_edges (g : directed_graph) : nat * Z :=
  (length (concat (nodes g)), foldr (λ e acc, (count e + acc)%Z) 0%Z (concat (nodes g))).

(** The loop of [get_cycle_recur] over the edges of the current node, calling
    [visit] on every destination not visited yet. The vector of cycle members
    and the visited set are references in the source, so they are returned on
    every path. *)
Fixpoint visit_edges (visit : nat → list nat → gset nat → res (bool * list nat * gset nat))
    (es : list dest_and_count_t) (cycle_member_nodes : list nat) (visited : gset nat)
    : res (bool * list nat * gset nat) :=
  match es with
  | [] => Ok (false, cycle_member_nodes, visited)
  | to_buf :: es' =>
      if decide (dest to_buf ∈ visited) then visit_edges visit es' cycle_member_nodes visited
      else
        match visit (dest to_buf) cycle_member_nodes visited with
        | Err e => Err e
        | Ok (true, cm, vs) => Ok (true, cm ++ [dest to_buf], vs)
        | Ok (false, cm, vs) => visit_edges visit es' cm vs
        end
  end.

(** [get_cycle_recur], with [fuel] bounding the depth of the recursion.
    [operator[]] outside [nodes] is undefined. *)
Fixpoint get_cycle_recur (fuel : nat) (g : directed_graph) (from current_node : nat)
    (cycle_member_nodes : list nat) (visited : gset nat) : res (bool * list nat * gset nat) :=
  match fuel with
  | 0 => Err OutOfFuel
  | S fuel =>
      let visited := {[current_node]} ∪ visited in
      match nodes g !! current_node with
      | None => Err UndefinedBehaviour
      | Some es =>
          if decide (es = []) then Ok (false, cycle_member_nodes, visited)
          else if current_node =? from then Ok (true, cycle_member_nodes, visited)
          else visit_edges (get_cycle_recur fuel g from) es cycle_member_nodes visited
      end
  end.

(** The loop of [get_cycle] over the edges of the start node. *)
Fixpoint get_cycle_loop (fuel : nat) (g : directed_graph) (from : nat) (es : list dest_and_count_t)
    (cycle_member_nodes : list nat) (visited : gset nat) : res (list nat) :=
  match es with
  | [] => Ok cycle_member_nodes
  | to_buf :: es' =>
      match get_cycle_recur fuel g from (dest to_buf) cycle_member_nodes visited with
      | Err e => Err e
      | Ok (true, cm, _) => Ok (cm ++ [dest to_buf])
      | Ok (false, cm, vs) => get_cycle_loop fuel g from es' cm vs
      end
  end.

(** No recursion is deeper than the number of nodes plus one: every nested call
    visits a node that was not visited before. *)
Definition get_cycle (g : directed_graph) (from : nat) : res (list nat) :=
  match nodes g !! from with
  | None => Err UndefinedBehaviour
  | Some es => get_cycle_loop (S (number_of_nodes g)) g from es [] ∅
  end.

(** ** The graph as a relation *)

Definition succs (g : directed_graph) (a : nat) : list nat :=
  default [] (map dest <$> nodes g !! a).

Definition has_edge (g : directed_graph) (a b : nat) : Prop := b ∈ succs g a.

#[global] Instance has_edge_dec g a b : Decision (has_edge g a b).
Proof. unfold has_edge. apply _. Defined.

(** The invariant of the class: one vector for each node, edges between
    different existing nodes, no parallel edges, each with count one. *)
Record graph_ok (g : directed_graph) : Prop := {
  gok_length : length (nodes g) = number_of_nodes g;
  gok_bound : ∀ a b, has_edge g a b → b < number_of_nodes g;
  gok_irrefl : ∀ a, ¬ has_edge g a a;
  gok_nodup : ∀ a, NoDup (succs g a);
  gok_count : ∀ a es e, nodes g !! a = Some es → e ∈ es → count e = 1%Z;
}.

Definition acyclic (g : directed_graph) : Prop := ∀ a, ¬ tc (has_edge g) a a.

(** ** Edges after an update of one vector *)

Lemma succs_lookup g a es : nodes g !! a = Some es → succs g a = map dest es.
Proof. intros H. unfold succs. by rewrite H. Qed.

Lemma succs_set_nodes g from es a :
  from < length (nodes g) →
  succs (set_nodes (<[from := es]> (nodes g)) g) a =
    if decide (a = from) then map dest es else succs g a.
Proof.
  intros Hlt. unfold succs; simpl. case_decide as Ha; subst.
  - by rewrite list_lookup_insert_eq.
  - by rewrite list_lookup_insert_ne.
Qed.

Lemma find_dest_Some to_buf es i :
  find_dest to_buf es = Some i → ∃ e, es !! i = Some e ∧ dest e = dest to_buf.
Proof.
  revert i; induction es as [|e es IH]; intros i; simpl; [done|].
  unfold dac_eqb. case_match eqn:E.
  - intros [= <-]. exists e. split; [done|]. by apply Nat.eqb_eq.
  - intros (j & ? & ->)%fmap_Some. by apply IH.
Qed.

Lemma find_dest_None to_buf es :
  find_dest to_buf es = None ↔ dest to_buf ∉ map dest es.
Proof.
  induction es as [|e es IH]; simpl; [set_solver|].
  rewrite not_elem_of_cons, <- IH. unfold dac_eqb. case_match eqn:E.
  - apply Nat.eqb_eq in E. naive_solver.
  - apply Nat.eqb_neq in E. rewrite fmap_None. naive_solver.
Qed.

Lemma elem_of_map_delete es i e b :
  es !! i = Some e → NoDup (map dest es) →
  b ∈ map dest (delete i es) ↔ b ∈ map dest es ∧ b ≠ dest e.
Proof.
  revert i; induction es as [|e' es IH]; intros [|i]; simpl; try done.
  - intros [= ->] [??]%NoDup_cons. set_solver.
  - intros Hi [Hn Hd]%NoDup_cons. rewrite !elem_of_cons, (IH i) by done.
    assert (dest e ∈ map dest es).
    { apply list_elem_of_fmap. exists e. split; [done|]. by eapply list_elem_of_lookup_2. }
    assert (dest e' ≠ dest e) by congruence. naive_solver.
Qed.

Lemma NoDup_map_delete es i : NoDup (map dest es) → NoDup (map dest (delete i es)).
Proof.
  intros Hnd. eapply sublist_NoDup; [done|]. apply fmap_sublist, sublist_delete.
Qed.

Lemma graph_ok_lookup g a :
  graph_ok g → a < number_of_nodes g → ∃ es, nodes g !! a = Some es.
Proof. intros Hg Ha. apply lookup_lt_is_Some. by rewrite (gok_length _ Hg). Qed.

Lemma is_node_exist_lt g a : a < number_of_nodes g → is_node_exist g a = true.
Proof. intros. unfold is_node_exist. apply negb_true_iff, Nat.leb_gt. lia. Qed.

Lemma has_edge_source g a b : graph_ok g → has_edge g a b → a < number_of_nodes g.
Proof.
  intros Hg. unfold has_edge, succs. destruct (nodes g !! a) eqn:E; simpl; [|set_solver].
  intros _. rewrite <- (gok_length _ Hg). by eapply lookup_lt_Some.
Qed.

(** Replacing the vector of one node keeps the invariant when the new vector
    has distinct existing destinations, each with count one. *)
Lemma graph_ok_set_nodes g from es :
  graph_ok g → from < number_of_nodes g → NoDup (map dest es) → from ∉ map dest es →
  (∀ b, b ∈ map dest es → b < number_of_nodes g) → (∀ e, e ∈ es → count e = 1%Z) →
  graph_ok (set_nodes (<[from := es]> (nodes g)) g).
Proof.
  intros Hg Hlt Hnd Hself Hb Hc. rewrite <- (gok_length _ Hg) in Hlt.
  assert (Hs := succs_set_nodes g from es). split; simpl.
  - rewrite length_insert. apply Hg.
  - intros a b. unfold has_edge. rewrite Hs by done. case_decide; [apply Hb|apply Hg].
  - intros a. unfold has_edge. rewrite Hs by done. case_decide; [by subst|apply Hg].
  - intros a. rewrite Hs by done. case_decide; [done|apply Hg].
  - intros a es' e. rewrite list_lookup_insert. case_decide as H.
    + intros [= <-]. apply Hc.
    + apply Hg.
Qed.

(** ** Functional behaviour of [add_edge] and [remove_edge] *)

(** [add_edge] on different existing nodes without an edge between them adds
    that edge and nothing else. *)
Lemma add_edge_spec g from to :
  graph_ok g → from ≠ to → from < number_of_nodes g → to < number_of_nodes g →
  ¬ has_edge g from to →
  ∃ g', add_edge from to g = Ok (true, g') ∧ graph_ok g' ∧
    number_of_nodes g' = number_of_nodes g ∧
    ∀ a b, has_edge g' a b ↔ has_edge g a b ∨ (a = from ∧ b = to).
Proof.
  intros Hg Hne Hf Ht Hno. destruct (graph_ok_lookup g from Hg Hf) as [es Hes].
  assert (Hlt : from < length (nodes g)) by (by rewrite (gok_length _ Hg)).
  unfold has_edge in Hno. rewrite (succs_lookup _ _ _ Hes) in Hno.
  exists (set_nodes (<[from := es ++ [mk_dest_and_count to 1]]> (nodes g)) g).
  split_and!.
  - unfold add_edge. rewrite assert_true by (by apply negb_true_iff, Nat.eqb_neq).
    erewrite bind_Ok by done. unfold id. rewrite !is_node_exist_lt by done. simpl.
    erewrite deref_Some by done.
    rewrite (proj2 (find_dest_None (mk_dest_and_count to 1) es)) by done. done.
  - apply graph_ok_set_nodes; try done.
    + rewrite map_app. apply NoDup_app. split_and!; [|set_solver|apply NoDup_singleton].
      rewrite <- (succs_lookup _ _ _ Hes). apply Hg.
    + rewrite map_app. assert (H := gok_irrefl _ Hg from). unfold has_edge in H.
      rewrite (succs_lookup _ _ _ Hes) in H. set_solver.
    + intros b. rewrite map_app, elem_of_app. intros [Hb|Hb]; [|set_solver].
      apply (gok_bound _ Hg from). unfold has_edge. by rewrite (succs_lookup _ _ _ Hes).
    + intros e. rewrite elem_of_app, list_elem_of_singleton.
      intros [He| ->]; [|done]. by eapply gok_count.
  - done.
  - intros a b. unfold has_edge. rewrite succs_set_nodes by done. case_decide; subst.
    + rewrite map_app, (succs_lookup _ _ _ Hes). set_solver.
    + naive_solver.
Qed.

(** [remove_edge] on an existing edge removes that edge and nothing else. *)
Lemma remove_edge_spec g from to :
  graph_ok g → has_edge g from to →
  ∃ g', remove_edge from to g = Ok (true, g') ∧ graph_ok g' ∧
    number_of_nodes g' = number_of_nodes g ∧
    ∀ a b, has_edge g' a b ↔ has_edge g a b ∧ ¬ (a = from ∧ b = to).
Proof.
  intros Hg He. assert (Hf := has_edge_source _ _ _ Hg He).
  assert (Ht := gok_bound _ Hg _ _ He).
  assert (Hne : from ≠ to) by (intros ->; by eapply gok_irrefl).
  destruct (graph_ok_lookup g from Hg Hf) as [es Hes].
  assert (Hlt : from < length (nodes g)) by (by rewrite (gok_length _ Hg)).
  assert (Hnd := gok_nodup _ Hg from). assert (Hir := gok_irrefl _ Hg from).
  unfold has_edge in He, Hir. rewrite (succs_lookup _ _ _ Hes) in He, Hnd, Hir.
  destruct (find_dest (mk_dest_and_count to 1) es) as [i|] eqn:Hfd.
  2: { by apply find_dest_None in Hfd. }
  destruct (find_dest_Some _ _ _ Hfd) as (e & Hi & Hd). simpl in Hd.
  assert (Hc : count e = 1%Z) by (eapply gok_count; eauto using list_elem_of_lookup_2).
  exists (set_nodes (<[from := delete i es]> (nodes g)) g). split_and!.
  - unfold remove_edge. rewrite assert_true by (by apply negb_true_iff, Nat.eqb_neq).
    erewrite bind_Ok by done. unfold id. rewrite !is_node_exist_lt by done. simpl.
    erewrite deref_Some by done. rewrite Hfd. erewrite deref_Some by done.
    rewrite Hc. done.
  - assert (Hin := λ b, proj1 (elem_of_map_delete es i e b Hi Hnd)).
    apply graph_ok_set_nodes; try done.
    + by apply NoDup_map_delete.
    + naive_solver.
    + intros b [Hb _]%Hin. apply (gok_bound _ Hg from). unfold has_edge.
      by rewrite (succs_lookup _ _ _ Hes).
    + intros e' He'. eapply gok_count; [done..|]. eapply elem_of_sublist; [done|]. apply sublist_delete.
  - done.
  - intros a b. unfold has_edge. rewrite succs_set_nodes by done. case_decide; subst.
    + rewrite (elem_of_map_delete es i e) by done. rewrite (succs_lookup _ _ _ Hes). naive_solver.
    + naive_solver.
Qed.

Lemma new_directed_graph_edges n a b : ¬ has_edge (new_directed_graph n) a b.
Proof.
  unfold has_edge, succs; simpl. destruct (replicate n _ !! a) eqn:E; [|set_solver].
  apply lookup_replicate in E as [-> _]. set_solver.
Qed.

Lemma new_directed_graph_ok n : graph_ok (new_directed_graph n).
Proof.
  assert (Hs : ∀ a, succs (new_directed_graph n) a = []).
  { intros a. unfold succs; simpl. destruct (replicate n _ !! a) eqn:E; [|done].
    apply lookup_replicate in E as [-> _]. done. }
  split; unfold has_edge; simpl; try setoid_rewrite Hs; try set_solver.
  - apply length_replicate.
  - intros. constructor.
  - intros a es e [-> _]%lookup_replicate. set_solver.
Qed.

(** ** The depth first search *)

(** [walk g a l b]: [l] lists the nodes after [a] on a path from [a] to [b]. *)
Fixpoint walk (g : directed_graph) (a : nat) (l : list nat) (b : nat) : Prop :=
  match l with
  | [] => a = b
  | x :: l' => has_edge g a x ∧ walk g x l' b
  end.

Lemma walk_rtc g a l b : walk g a l b → rtc (has_edge g) a b.
Proof.
  revert a; induction l as [|x l IH]; intros a; simpl; [by intros ->|].
  intros [??]. eapply rtc_l; eauto.
Qed.

Lemma walk_last g a l b : walk g a l b → l ≠ [] → last l = Some b.
Proof.
  revert a; induction l as [|x l IH]; intros a; [done|]. intros [_ Hw] _.
  destruct l as [|y l]; simpl in *; [by subst|]. by apply (IH x).
Qed.

(** What a failed search leaves behind: every newly visited node differs from
    the start node and has all its successors visited. *)
Definition explored (g : directed_graph) (from : nat) (vs vs' : gset nat) : Prop :=
  ∀ x, x ∈ vs' → x ∉ vs → x ≠ from ∧ ∀ y, has_edge g x y → y ∈ vs'.

Section search.
Context (g : directed_graph) (from : nat).
Hypothesis from_edges : succs g from ≠ [].

Definition failed (cur : nat) (cm : list nat) (vs : gset nat) (r : bool * list nat * gset nat) : Prop :=
  let '(_, cm', vs') := r in
  cm' = cm ∧ {[cur]} ∪ vs ⊆ vs' ∧ explored g from vs vs'.

Definition succeeded (cur : nat) (cm : list nat) (vs : gset nat) (r : bool * list nat * gset nat) : Prop :=
  let '(_, cm', vs') := r in
  ∃ p, cm' = cm ++ p ∧ walk g cur (rev p) from ∧ NoDup p ∧ ∀ x, x ∈ p → x ∉ ({[cur]} ∪ vs : gset nat).

Definition outcome (cur : nat) (cm : list nat) (vs : gset nat) (r : bool * list nat * gset nat) : Prop :=
  if r.1.1 then succeeded cur cm vs r else failed cur cm vs r.

(** The loop over the edges of [cur], given that every call it makes is right. *)
Lemma visit_edges_outcome visit cur es cm vs r :
  (∀ d cm vs r, visit d cm vs = Ok r → outcome d cm vs r) →
  (∀ e, e ∈ es → has_edge g cur (dest e)) → cur ∈ vs →
  visit_edges visit es cm vs = Ok r →
  if r.1.1 then succeeded cur cm vs r
  else let '(_, cm', vs') := r in
       cm' = cm ∧ vs ⊆ vs' ∧ (∀ e, e ∈ es → dest e ∈ vs') ∧ explored g from vs vs'.
Proof.
  intros Hv. revert cm vs r. induction es as [|e es IH]; intros cm vs r He Hcur; simpl.
  { intros [= <-]. simpl. unfold explored. set_solver. }
  case_decide as Hd.
  { intros Hr. apply IH in Hr; [|set_solver|done]. destruct r as [[[] cm'] vs']; [done|].
    simpl in *. destruct Hr as (-> & Hsub & Hall & Hx). split_and!; [done..|set_solver|done]. }
  destruct (visit (dest e) cm vs) as [[[found cm1] vs1]|] eqn:Ev; [|done].
  apply Hv in Ev. destruct found; unfold outcome in Ev; simpl in Ev.
  - intros [= <-]. simpl. destruct Ev as (p & -> & Hw & Hnd & Hp).
    exists (p ++ [dest e]). rewrite rev_app_distr, app_assoc. split_and!; [done|..].
    + simpl. split; [set_solver|done].
    + apply NoDup_app. split_and!; [done|set_solver|apply NoDup_singleton].
    + set_solver.
  - destruct Ev as (-> & Hsub & Hx). intros Hr.
    apply IH in Hr; [|set_solver|set_solver]. destruct r as [[[] cm'] vs']; simpl in *.
    + destruct Hr as (p & -> & Hw & Hnd & Hp). exists p. split_and!; [done..|set_solver].
    + destruct Hr as (-> & Hsub' & Hall & Hx'). split_and!; [done|set_solver|set_solver|].
      intros x Hin Hnin. destruct (decide (x ∈ vs1)); [|by apply Hx'].
      destruct (Hx x) as [? Hy]; [done..|]. split; [done|]. intros y ?. by apply Hsub', Hy.
Qed.

Lemma get_cycle_recur_outcome fuel cur cm vs r :
  get_cycle_recur fuel g from cur cm vs = Ok r → outcome cur cm vs r.
Proof.
  revert cur cm vs r. induction fuel as [|fuel IH]; intros cur cm vs r; [done|]; simpl.
  destruct (nodes g !! cur) as [es|] eqn:Hes; [|done].
  assert (Hsucc := succs_lookup _ _ _ Hes).
  case_decide as Hnil.
  { intros [= <-]. unfold outcome; simpl. split_and!; [done..|].
    intros x Hin Hnin. assert (x = cur) as -> by set_solver. split.
    - intros ->. by rewrite Hsucc, Hnil in from_edges.
    - unfold has_edge. rewrite Hsucc, Hnil. set_solver. }
  destruct (Nat.eqb_spec cur from) as [->|Hne].
  { intros [= <-]. unfold outcome; simpl. exists []. rewrite app_nil_r.
    split_and!; [done..|constructor|set_solver]. }
  intros Hr. apply (visit_edges_outcome _ cur) in Hr; [|done| |set_solver].
  2: { intros e He. unfold has_edge. rewrite Hsucc. by apply list_elem_of_fmap_2. }
  unfold outcome. destruct r as [[[] cm'] vs']; simpl in *.
  - destruct Hr as (p & ? & ? & ? & Hp). exists p. split_and!; [done..|set_solver].
  - destruct Hr as (-> & Hsub & Hall & Hx). split_and!; [done..|].
    intros x Hin Hnin. destruct (decide (x = cur)) as [->|]; [|apply Hx; set_solver].
    split; [done|]. intros y. unfold has_edge. rewrite Hsucc.
    intros (e & -> & He)%list_elem_of_fmap. by apply Hall.
Qed.

(** The loop of [get_cycle] over the remaining edges of the start node, with
    every visited node explored. *)
Lemma get_cycle_loop_outcome fuel es vs c :
  (∀ e, e ∈ es → has_edge g from (dest e)) → explored g from ∅ vs →
  get_cycle_loop fuel g from es [] vs = Ok c →
  if decide (c = []) then ∃ vs', vs ⊆ vs' ∧ explored g from ∅ vs' ∧ ∀ e, e ∈ es → dest e ∈ vs'
  else walk g from (rev c) from ∧ NoDup c.
Proof.
  revert vs. induction es as [|e es IH]; intros vs He Hvs; simpl.
  { intros [= <-]. simpl. exists vs. set_solver. }
  destruct (get_cycle_recur _ _ _ _ _ _) as [[[found cm1] vs1]|] eqn:Er; [|done].
  apply get_cycle_recur_outcome in Er. destruct found; unfold outcome in Er; simpl in Er.
  - destruct Er as (p & -> & Hw & Hnd & Hp). intros [= <-].
    rewrite decide_False by (by destruct p). rewrite rev_app_distr. simpl. split; [set_solver|].
    apply NoDup_app. split_and!; [done|set_solver|apply NoDup_singleton].
  - destruct Er as (-> & Hsub & Hx). intros Hc.
    apply IH in Hc; [|set_solver|].
    2: { intros x Hin _. destruct (decide (x ∈ vs)); [|by apply Hx].
         destruct (Hvs x) as [? Hy]; [done|set_solver|]. split; [done|]. set_solver. }
    case_decide; [|done]. destruct Hc as (vs' & ? & ? & ?). exists vs'. set_solver.
Qed.
End search.

(** Every call has enough fuel: a nested call is made on an unvisited node. *)
Definition node_set (g : directed_graph) : gset nat := set_seq 0 (number_of_nodes g).

Lemma elem_of_node_set g x : x ∈ node_set g ↔ x < number_of_nodes g.
Proof. unfold node_set. rewrite elem_of_set_seq. lia. Qed.

Definition unvisited (g : directed_graph) (vs : gset nat) : nat := size (node_set g ∖ vs).

Lemma unvisited_mono g vs vs' : vs ⊆ vs' → unvisited g vs' ≤ unvisited g vs.
Proof. intros. apply subseteq_size. set_solver. Qed.

Lemma unvisited_insert g vs d :
  d < number_of_nodes g → d ∉ vs → unvisited g ({[d]} ∪ vs) < unvisited g vs.
Proof.
  intros Hd%elem_of_node_set Hn. apply subset_size. split; [set_solver|].
  intros Hsub. specialize (Hsub d). set_solver.
Qed.

Lemma visit_edges_total g visit n es cm vs :
  (∀ d cm vs, d < number_of_nodes g → unvisited g ({[d]} ∪ vs) < n →
     ∃ b cm' vs', visit d cm vs = Ok (b, cm', vs') ∧ vs ⊆ vs') →
  (∀ e, e ∈ es → dest e < number_of_nodes g) → unvisited g vs ≤ n →
  ∃ b cm' vs', visit_edges visit es cm vs = Ok (b, cm', vs') ∧ vs ⊆ vs'.
Proof.
  intros Hv. revert cm vs. induction es as [|e es IH]; intros cm vs He Hn; simpl; [by eauto|].
  case_decide as Hd; [by apply IH; [set_solver|]|].
  destruct (Hv (dest e) cm vs) as ([] & cm' & vs' & -> & Hsub); [set_solver| |by eauto|].
  { eapply Nat.lt_le_trans; [|done]. apply unvisited_insert; set_solver. }
  destruct (IH cm' vs') as (b & cm2 & vs2 & -> & Hsub2); [set_solver| |].
  { etrans; [by apply unvisited_mono|done]. }
  exists b, cm2, vs2. set_solver.
Qed.

Lemma get_cycle_recur_total g from fuel cur cm vs :
  graph_ok g → cur < number_of_nodes g → unvisited g ({[cur]} ∪ vs) < fuel →
  ∃ b cm' vs', get_cycle_recur fuel g from cur cm vs = Ok (b, cm', vs') ∧ vs ⊆ vs'.
Proof.
  intros Hg. revert cur cm vs. induction fuel as [|fuel IH]; intros cur cm vs Hcur Hf; [lia|]; simpl.
  destruct (graph_ok_lookup g cur Hg Hcur) as [es Hes]. rewrite Hes.
  case_decide; [eexists _, _, _; split; [done|set_solver]|].
  case_match; [eexists _, _, _; split; [done|set_solver]|].
  destruct (visit_edges_total g (get_cycle_recur fuel g from) fuel es cm ({[cur]} ∪ vs))
    as (b & cm' & vs' & -> & ?).
  - intros d cm1 vs1 Hd Hu. by apply IH.
  - intros e He. apply (gok_bound _ Hg cur). unfold has_edge.
    rewrite (succs_lookup _ _ _ Hes). by apply list_elem_of_fmap_2.
  - lia.
  - eexists _, _, _. split; [done|set_solver].
Qed.

Lemma get_cycle_total g from :
  graph_ok g → from < number_of_nodes g → ∃ c, get_cycle g from = Ok c.
Proof.
  intros Hg Hf. unfold get_cycle. destruct (graph_ok_lookup g from Hg Hf) as [es Hes]. rewrite Hes.
  assert (He : ∀ e, e ∈ es → dest e < number_of_nodes g).
  { intros e He. apply (gok_bound _ Hg from). unfold has_edge.
    rewrite (succs_lookup _ _ _ Hes). by apply list_elem_of_fmap_2. }
  clear Hes. generalize (∅ : gset nat). generalize (@nil nat).
  induction es as [|e es IH]; intros cm vs; cbn [get_cycle_loop]; [by eauto|].
  destruct (get_cycle_recur_total g from (S (number_of_nodes g)) (dest e) cm vs)
    as ([] & cm' & vs' & -> & _); [done|set_solver| |by eauto|apply IH; set_solver].
  unfold unvisited. apply Nat.lt_succ_r. etrans; [apply (subseteq_size _ (node_set g)); set_solver|].
  unfold node_set. rewrite size_set_seq. done.
Qed.

Lemma walk_app g a l1 x l2 b :
  walk g a (l1 ++ x :: l2) b → walk g x l2 b ∧ has_edge g (default a (last l1)) x.
Proof.
  revert a. induction l1 as [|y l1 IH]; intros a; simpl; [naive_solver|].
  intros [_ [? He]%IH]. split; [done|]. rewrite last_cons. by destruct (last l1).
Qed.

(** The last two members of the cycle, which come first in the vector: the
    start node and the node that has an edge to it. *)
Lemma cycle_front g from c :
  graph_ok g → walk g from (rev c) from → c ≠ [] →
  ∃ w c', c = from :: w :: c' ∧ has_edge g w from.
Proof.
  intros Hg Hw Hc. assert (Hr : rev c ≠ []) by (destruct c; [done|]; simpl; by destruct (rev c)).
  assert (Hl := walk_last _ _ _ _ Hw Hr).
  destruct c as [|x [|w c']]; [done|..].
  - simpl in Hw. destruct Hw as [He ->]. by apply gok_irrefl in He.
  - simpl in Hl, Hw. rewrite <- app_assoc in Hw. rewrite last_snoc in Hl. injection Hl as ->.
    apply walk_app in Hw as [Hw _]. simpl in Hw. destruct Hw as [Hw _]. by eauto.
Qed.



Lemma get_cycle_nil g from :
  graph_ok g → get_cycle g from = Ok [] → ¬ tc (has_edge g) from from.
Proof.
  intros Hg. unfold get_cycle. destruct (nodes g !! from) as [es|] eqn:Hes; [|done].
  assert (Hsucc := succs_lookup _ _ _ Hes). intros Hc Htc.
  assert (∃ d, has_edge g from d ∧ rtc (has_edge g) d from) as (d & Hd & Hrtc).
  { inversion Htc; subst; eauto using tc_rtc. }
  unfold has_edge in Hd. rewrite Hsucc in Hd.
  apply get_cycle_loop_outcome in Hc.
  - rewrite decide_True in Hc by done. destruct Hc as (vs' & _ & Hx & Hall).
    assert (Hcl : ∀ x, x ∈ vs' → x ≠ from ∧ ∀ y, has_edge g x y → y ∈ vs').
    { intros x ?. apply Hx; [done|set_solver]. }
    apply list_elem_of_fmap in Hd as (e & -> & He). apply Hall in He.
    clear -Hrtc He Hcl. revert He. induction Hrtc as [x|x y z Hxy _ IH]; intros Hin.
    + by apply Hcl in Hin as [].
    + apply IH; [done|]. by apply (Hcl x).
  - rewrite Hsucc. intros E. rewrite E in Hd. set_solver.
  - intros e He. unfold has_edge. rewrite Hsucc. by apply list_elem_of_fmap_2.
  - unfold explored. set_solver.
Qed.

Lemma get_cycle_cons g from c :
  graph_ok g → get_cycle g from = Ok c → c ≠ [] → walk g from (rev c) from ∧ NoDup c.
Proof.
  intros Hg. unfold get_cycle. destruct (nodes g !! from) as [es|] eqn:Hes; [|done].
  assert (Hsucc := succs_lookup _ _ _ Hes). intros Hc Hne.
  destruct es as [|e es]; [simpl in Hc; by injection Hc as <-|].
  apply get_cycle_loop_outcome in Hc.
  - by rewrite decide_False in Hc.
  - by rewrite Hsucc.
  - intros e' He. unfold has_edge. rewrite Hsucc. by apply list_elem_of_fmap_2.
  - unfold explored. set_solver.
Qed.

(** ** Acyclicity *)

Lemma tc_subrel (R R' : nat → nat → Prop) a b :
  (∀ x y, R x y → R' x y) → tc R a b → tc R' a b.
Proof. intros H. by apply (tc_congruence id). Qed.

Lemma acyclic_subgraph g g' :
  acyclic g → (∀ a b, has_edge g' a b → has_edge g a b) → acyclic g'.
Proof. intros Ha Hs a Hc. apply (Ha a). revert Hc. by apply tc_subrel. Qed.

(** New edges that all leave [from] create a cycle only through [from]. *)
Lemma acyclic_extend g g' from :
  acyclic g → (∀ a b, has_edge g' a b → has_edge g a b ∨ a = from) →
  ¬ tc (has_edge g') from from → acyclic g'.
Proof.
  intros Ha Hs Hf.
  assert (Hsplit : ∀ a b, tc (has_edge g') a b →
    tc (has_edge g) a b ∨ (rtc (has_edge g') a from ∧ tc (has_edge g') from b)).
  { induction 1 as [a b H|a b c H Hbc IH].
    - destruct (Hs _ _ H) as [| ->]; [left; by apply tc_once|right]. split; [done|by apply tc_once].
    - destruct (Hs _ _ H) as [He| ->].
      + destruct IH as [IH|[??]]; [left; by eapply tc_l|right]. split; [by eapply rtc_l|done].
      + right. split; [done|by eapply tc_l]. }
  intros a [?|[Hr Ht]]%Hsplit; [by eapply Ha|]. apply Hf. by eapply tc_rtc_r.
Qed.

(** In an acyclic graph every non-empty set of nodes has a member with no edge
    into the set. *)
Lemma acyclic_sink g (X : gset nat) :
  acyclic g → X ≠ ∅ → ∃ x, x ∈ X ∧ ∀ y, has_edge g x y → y ∉ X.
Proof.
  intros Ha [x Hx]%set_choose_L.
  set (R := λ a b, has_edge g a b ∧ b ∈ X).
  assert (Hirr : ∀ a, ¬ tc R a a).
  { intros a Hc. apply (Ha a). revert Hc. apply tc_subrel. by intros ?? [??]. }
  assert (Hsn : sn R x).
  { apply tc_finite_sn; [done|]. exists (elements X). intros y Hy.
    apply elem_of_elements. clear Hx. induction Hy as [?? Hy|]; [apply Hy|done]. }
  induction Hsn as [x _ IH].
  destruct (decide (Exists (λ y, y ∈ X) (succs g x))) as [(y & Hy & HyX)%Exists_exists|Hno].
  - by apply (IH y).
  - exists x. split; [done|]. intros y Hy HyX. apply Hno, Exists_exists. by eauto.
Qed.

(** ** The operations on every branch *)

Lemma is_node_exist_ge g a : number_of_nodes g ≤ a → is_node_exist g a = false.
Proof. intros. unfold is_node_exist. by apply negb_false_iff, Nat.leb_le. Qed.

Lemma add_edge_self g a : add_edge a a g = Err AssertFail.
Proof. unfold add_edge. by rewrite Nat.eqb_refl. Qed.

Lemma remove_edge_self g a : remove_edge a a g = Err AssertFail.
Proof. unfold remove_edge. by rewrite Nat.eqb_refl. Qed.

Lemma edge_missing_node g from to :
  from ≠ to → number_of_nodes g ≤ from ∨ number_of_nodes g ≤ to →
  add_edge from to g = Ok (false, g) ∧ remove_edge from to g = Ok (false, g).
Proof.
  intros Hne Hor. assert (E : is_node_exist g from && is_node_exist g to = false).
  { destruct Hor; [rewrite (is_node_exist_ge g from) by done; done|].
    rewrite (is_node_exist_ge g to) by done. apply andb_false_r. }
  unfold add_edge, remove_edge.
  rewrite !assert_true by (by apply negb_true_iff, Nat.eqb_neq).
  split; (erewrite bind_Ok by done); unfold id; by rewrite E.
Qed.

Lemma add_edge_again g from to :
  graph_ok g → has_edge g from to → add_edge from to g = Err AssertFail.
Proof.
  intros Hg He. assert (Hf := has_edge_source _ _ _ Hg He). assert (Ht := gok_bound _ Hg _ _ He).
  destruct (decide (from = to)) as [->|Hne]; [apply add_edge_self|].
  destruct (graph_ok_lookup g from Hg Hf) as [es Hes].
  unfold has_edge in He. rewrite (succs_lookup _ _ _ Hes) in He.
  unfold add_edge. rewrite assert_true by (by apply negb_true_iff, Nat.eqb_neq).
  erewrite bind_Ok by done. unfold id. rewrite !is_node_exist_lt by done. simpl.
  erewrite deref_Some by done. destruct (find_dest _ es) eqn:Hfd; [done|].
  by apply find_dest_None in Hfd.
Qed.

Lemma remove_edge_absent g from to :
  graph_ok g → from < number_of_nodes g → to < number_of_nodes g → ¬ has_edge g from to →
  remove_edge from to g = Err AssertFail.
Proof.
  intros Hg Hf Ht He. destruct (decide (from = to)) as [->|Hne]; [apply remove_edge_self|].
  destruct (graph_ok_lookup g from Hg Hf) as [es Hes].
  unfold has_edge in He. rewrite (succs_lookup _ _ _ Hes) in He.
  unfold remove_edge. rewrite assert_true by (by apply negb_true_iff, Nat.eqb_neq).
  erewrite bind_Ok by done. unfold id. rewrite !is_node_exist_lt by done. simpl.
  erewrite deref_Some by done.
  rewrite (proj2 (find_dest_None (mk_dest_and_count to 1) es)) by done. done.
Qed.

(** The three ways the two operations can end, for the case analyses below. *)
Lemma edge_cases g from to :
  graph_ok g →
  from = to ∨
  (from ≠ to ∧ (number_of_nodes g ≤ from ∨ number_of_nodes g ≤ to)) ∨
  (from ≠ to ∧ from < number_of_nodes g ∧ to < number_of_nodes g).
Proof. intros _. lia. Qed.

(** [add_edge] and [remove_edge] on every branch. A successful call keeps
    the class invariant and changes exactly the edge it was asked to change;
    the call returns false and leaves the graph alone exactly when an end of
    the edge does not exist; the only other outcome is a failed assert, for a
    self loop, for adding an edge twice or for removing an edge that is not
    there. *)
Theorem edge_operations (g : directed_graph) (from to : nat) (Hok : graph_ok g) :
  match add_edge from to g with
  | Ok (true, g') =>
      graph_ok g' ∧ ¬ has_edge g from to ∧
      ∀ a b, has_edge g' a b ↔ has_edge g a b ∨ (a = from ∧ b = to)
  | Ok (false, g') => g' = g ∧ (number_of_nodes g ≤ from ∨ number_of_nodes g ≤ to)
  | Err e => e = AssertFail ∧ (from = to ∨ has_edge g from to)
  end ∧
  match remove_edge from to g with
  | Ok (true, g') =>
      graph_ok g' ∧ has_edge g from to ∧
      ∀ a b, has_edge g' a b ↔ has_edge g a b ∧ ¬ (a = from ∧ b = to)
  | Ok (false, g') => g' = g ∧ (number_of_nodes g ≤ from ∨ number_of_nodes g ≤ to)
  | Err e => e = AssertFail ∧ (from = to ∨ ¬ has_edge g from to)
  end.
Proof.
  destruct (edge_cases g from to Hok) as [->|[[Hne Hor]|(Hne & Hf & Ht)]].
  - rewrite add_edge_self, remove_edge_self. by auto.
  - destruct (edge_missing_node g from to Hne Hor) as [-> ->]. by auto.
  - destruct (decide (has_edge g from to)) as [He|He].
    + rewrite add_edge_again by done. destruct (remove_edge_spec g from to) as (g' & -> & ? & _ & ?); auto.
    + rewrite remove_edge_absent by done. destruct (add_edge_spec g from to) as (g' & -> & ? & _ & ?); auto.
Qed.

(** A graph of four nodes with the cycle 1, 2, 3, and the chain below it. *)
Definition cycle_graph : directed_graph :=
  mk_graph 4 [[mk_dest_and_count 1 1]; [mk_dest_and_count 2 1]; [mk_dest_and_count 3 1]; [mk_dest_and_count 1 1]].

Lemma cycle_graph_ok : graph_ok cycle_graph.
Proof.
  split.
  - done.
  - intros [|[|[|[|a]]]] b; unfold has_edge, succs; simpl; set_solver by lia.
  - intros [|[|[|[|a]]]]; unfold has_edge, succs; simpl; set_solver by lia.
  - intros [|[|[|[|a]]]]; unfold succs; simpl; repeat constructor; set_solver.
  - intros [|[|[|[|a]]]] es e; simpl; intros [= <-] He%list_elem_of_singleton; by subst.
Qed.

Lemma edge_operations_witness :
  graph_ok cycle_graph ∧
  match add_edge 0 2 cycle_graph with Ok (b, g') => b = true ∧ graph_ok g' | Err _ => False end.
Proof.
  split; [exact cycle_graph_ok|].
  exact (let H := edge_operations cycle_graph 0 2 cycle_graph_ok in
         conj eq_refl (proj1 (proj1 H))).
Defined.

(** C37. [get_cycle] always returns; it returns the empty vector exactly when no
    cycle passes through the start node, and otherwise the members of one such
    cycle, each once, in reverse order: the start node first, and second a node
    with an edge to the start node. *)
Theorem get_cycle_correct (g : directed_graph) (from : nat)
    (Hok : graph_ok g) (Hfrom : from < number_of_nodes g) :
  ∃ c, get_cycle g from = Ok c ∧
    (c = [] ↔ ¬ tc (has_edge g) from from) ∧
    (c ≠ [] → walk g from (rev c) from ∧ NoDup c ∧
       ∃ w c', c = from :: w :: c' ∧ has_edge g w from).
Proof.
  destruct (get_cycle_total g from Hok Hfrom) as [c Hc]. exists c.
  assert (Hcons : c ≠ [] → walk g from (rev c) from ∧ NoDup c).
  { intros. by apply get_cycle_cons. }
  split_and!; [done|split|].
  - intros ->. by apply get_cycle_nil.
  - intros Hno. destruct (decide (c = [])) as [|Hne]; [done|]. destruct (Hcons Hne) as [Hw _].
    destruct (cycle_front g from c) as (w & c' & -> & He); [done..|]. exfalso. apply Hno.
    simpl in Hw. rewrite <- app_assoc in Hw.
    eapply tc_rtc_l; [|by apply tc_once]. simpl in Hw.
    clear -Hw. revert Hw. generalize from at 1 4. induction (rev c') as [|x l IH]; intros a; simpl.
    + intros [? _]. by apply rtc_once.
    + intros [? Hw]. eapply rtc_l; eauto.
  - intros Hne. destruct (Hcons Hne). split_and!; [done..|]. by apply cycle_front.
Qed.

Lemma get_cycle_correct_witness :
  graph_ok cycle_graph ∧ get_cycle cycle_graph 1 = Ok [1; 3; 2] ∧
  ∃ c, get_cycle cycle_graph 1 = Ok c ∧ (c ≠ [] → NoDup c).
Proof.
  split; [exact cycle_graph_ok|]. split; [vm_compute; reflexivity|].
  destruct (get_cycle_correct cycle_graph 1 cycle_graph_ok ltac:(simpl; lia)) as (c & H1 & _ & H2).
  exists c. split; [exact H1|]. intros Hc. exact (proj1 (proj2 (H2 Hc))).
Defined.
