(* ===== verification/LockTable.v ===== *)
(** The lock table of project 2: [project2/include/rw_lock_table.h],
    [project2/src/rw_lock_table.cc] and the types of [project2/include/main.h]
    it uses.

    Every method runs with the global mutex held. A method that blocks releases
    the mutex inside [pthread_cond_wait]; such a method is modelled by two
    definitions, the part up to the wait ([rdlock], [wrlock]) and the part that
    runs after each wake-up ([rdlock_wakeup], [wrlock_wakeup]), which returns or
    waits again. *)
From stdpp Require Import base tactics numbers option list list_numbers gmap sets relations.
From Stdlib Require Import ZArith Lia.
From S2P Require Import Prelude DirectedGraph.

(** ** Types *)

Inductive phase_t : Type := INVALID | READ | FIRST_WRITE | SECOND_WRITE | COMMIT.

#[global] Instance phase_eq_dec : EqDecision phase_t.
Proof. solve_decision. Defined.

(** [wait_q_elem_t]: the fields [tid] and [current_phase]. *)
Record wait_q_elem_t : Type := mk_wait_q_elem {
  wq_tid : nat;
  wq_phase : phase_t;
}.

#[global] Instance wait_q_elem_eq_dec : EqDecision wait_q_elem_t.
Proof. solve_decision. Defined.

Inductive rw_lock_status_t : Type :=
| RW_INVALID
| RW_UNLOCK
| RW_READER_LOCK
| RW_WRITER_LOCK.

#[global] Instance rw_lock_status_eq_dec : EqDecision rw_lock_status_t.
Proof. solve_decision. Defined.

(** The members of class [rw_lock_table]. [cond_var] has one entry for each
    thread id: whether that thread is blocked in [pthread_cond_wait] on its own
    condition variable, the only thread that ever waits on it. *)
Record rw_lock_table : Type := mk_lock_table {
  table : list rw_lock_status_t;
  readers_count : list Z;
  record_wait_queues : list (list wait_q_elem_t);
  cond_var : list bool;
  wait_for_graph : directed_graph;
}.

(** What a locking method has done when it gives up the mutex or returns:
    [true], [false], or gone to sleep in [pthread_cond_wait]. *)
Inductive lock_result : Type := LOCKED | ABORTED | SLEEPING.

#[global] Instance lock_result_eq_dec : EqDecision lock_result.
Proof. solve_decision. Defined.

(** The constructor: [memset] writes [RW_UNLOCK] in every one-byte entry. *)
Definition new_rw_lock_table (R N : nat) : rw_lock_table :=
  mk_lock_table (replicate R RW_UNLOCK) (replicate R 0%Z) (replicate R [])
    (replicate N false) (new_directed_graph N).

(** ** Accessors *)

Notation LT := (M rw_lock_table).

Definition set_table (x : list rw_lock_status_t) (s : rw_lock_table) : rw_lock_table :=
  mk_lock_table x (readers_count s) (record_wait_queues s) (cond_var s) (wait_for_graph s).
Definition set_readers_count (x : list Z) (s : rw_lock_table) : rw_lock_table :=
  mk_lock_table (table s) x (record_wait_queues s) (cond_var s) (wait_for_graph s).
Definition set_queues (x : list (list wait_q_elem_t)) (s : rw_lock_table) : rw_lock_table :=
  mk_lock_table (table s) (readers_count s) x (cond_var s) (wait_for_graph s).
Definition set_cond_var (x : list bool) (s : rw_lock_table) : rw_lock_table :=
  mk_lock_table (table s) (readers_count s) (record_wait_queues s) x (wait_for_graph s).
Definition set_graph (x : directed_graph) (s : rw_lock_table) : rw_lock_table :=
  mk_lock_table (table s) (readers_count s) (record_wait_queues s) (cond_var s) x.

Definition read_table (record_id : nat) : LT rw_lock_status_t :=
  s ← gets id; deref (table s !! record_id).
Definition write_table (record_id : nat) (x : rw_lock_status_t) : LT unit :=
  _ ← read_table record_id; modify (λ s, set_table (<[record_id := x]> (table s)) s).

Definition read_count (record_id : nat) : LT Z :=
  s ← gets id; deref (readers_count s !! record_id).
Definition write_count (record_id : nat) (x : Z) : LT unit :=
  _ ← read_count record_id; modify (λ s, set_readers_count (<[record_id := x]> (readers_count s)) s).

Definition read_queue (record_id : nat) : LT (list wait_q_elem_t) :=
  s ← gets id; deref (record_wait_queues s !! record_id).
Definition write_queue (record_id : nat) (q : list wait_q_elem_t) : LT unit :=
  _ ← read_queue record_id; modify (λ s, set_queues (<[record_id := q]> (record_wait_queues s)) s).

Definition on_graph {A} (m : M directed_graph A) : LT A := zoom wait_for_graph set_graph m.

(** [pthread_cond_signal(&cond_var[tid])]: wakes the thread if it is asleep. *)
Definition pthread_cond_signal (tid : nat) : LT unit :=
  s ← gets id; _ ← deref (cond_var s !! tid);
  modify (λ s, set_cond_var (<[tid := false]> (cond_var s)) s).

(** The start of [pthread_cond_wait(&cond_var[tid], global_mutex)]. *)
Definition pthread_cond_wait (tid : nat) : LT unit :=
  s ← gets id; _ ← deref (cond_var s !! tid);
  modify (λ s, set_cond_var (<[tid := true]> (cond_var s)) s).

Definition is_read (e : wait_q_elem_t) : bool := bool_decide (wq_phase e = READ).

(** ** Searching a queue *)

Fixpoint find_ahead_writer_loop (tid : nat) (q : list wait_q_elem_t) (ahead_writer_tid : nat) : LT (bool * nat) :=
  match q with
  | [] => mret (false, ahead_writer_tid)
  | e :: q' =>
      if wq_tid e =? tid then mret (true, ahead_writer_tid)
      else
        _ ← assert_ (bool_decide (wq_phase e ≠ INVALID));
        find_ahead_writer_loop tid q' (if is_read e then ahead_writer_tid else wq_tid e)
  end.

Definition find_ahead_writer (tid record_id : nat) : LT nat :=
  q ← read_queue record_id;
  '(i_am_found, ahead_writer_tid) ← find_ahead_writer_loop tid q 0;
  _ ← assert_ i_am_found;
  _ ← assert_ (negb (tid =? ahead_writer_tid));
  mret ahead_writer_tid.

Fixpoint find_ahead_loop (tid : nat) (q : list wait_q_elem_t) (ahead_tid : nat) : LT (bool * nat) :=
  match q with
  | [] => mret (false, ahead_tid)
  | e :: q' =>
      if wq_tid e =? tid then mret (true, ahead_tid)
      else
        _ ← assert_ (bool_decide (wq_phase e ≠ INVALID));
        find_ahead_loop tid q' (wq_tid e)
  end.

Definition find_ahead_reader_or_writer (tid record_id : nat) : LT nat :=
  q ← read_queue record_id;
  '(i_am_found, ahead_tid) ← find_ahead_loop tid q 0;
  _ ← assert_ i_am_found;
  _ ← assert_ (negb (tid =? ahead_tid));
  mret ahead_tid.

(** ** Deadlock detection and abort *)

(** The result and the new contents of the caller's [cycle_member] vector. *)
Definition is_deadlock_exist (tid : nat) : LT (bool * list nat) := λ s,
  match get_cycle (wait_for_graph s) tid with
  | Err e => Err e
  | Ok cycle_member => Ok ((negb (length cycle_member =? 0), cycle_member), s)
  end.

(** Both abort functions call [get_cycle] again and wake the thread that waits
    for the victim, [cycle_member[1]]. *)
Definition signal_waiter (tid : nat) : LT unit :=
  '(_, cycle_member) ← is_deadlock_exist tid;
  _ ← assert_ (negb (length cycle_member =? 0));
  c0 ← deref (cycle_member !! 0);
  _ ← assert_ (c0 =? tid);
  c1 ← deref (cycle_member !! 1);
  pthread_cond_signal c1.

(** The first queue element from [begin()] with the given thread id. *)
Fixpoint find_tid (tid : nat) (q : list wait_q_elem_t) : nat :=
  match q with
  | [] => 0
  | e :: q' => if negb (wq_tid e =? tid) then S (find_tid tid q') else 0
  end.

(** The first writer of a stretch of the queue, in the order it is scanned. *)
Fixpoint find_writer (q : list wait_q_elem_t) : option wait_q_elem_t :=
  match q with
  | [] => None
  | e :: q' => if is_read e then find_writer q' else Some e
  end.

Definition rdlock_clear_abort (tid record_id : nat) : LT unit :=
  q ← read_queue record_id;
  _ ← assert_ (negb (length q =? 0));
  _ ← signal_waiter tid;
  let myself := find_tid tid q in
  _ ← assert_ (negb (myself =? length q));
  _ ← assert_ (myself =? length q - 1);
  (* [rbegin() + 1] up to [rend()] *)
  _ ← (match find_writer (drop 1 (rev q)) with
       | Some ahead_writer => _ ← on_graph (remove_edge tid (wq_tid ahead_writer)); mret tt
       | None => mret tt
       end);
  write_queue record_id (delete myself q).

(** The loops of [wrlock] and [wrlock_clear_abort] that walk back from the end
    of the queue over the readers next to it; [ahead] is the rest of the queue
    seen from there. *)
Fixpoint for_ahead_readers (f : nat → M directed_graph bool) (ahead : list wait_q_elem_t) : LT unit :=
  match ahead with
  | [] => mret tt
  | e :: ahead' =>
      if is_read e then _ ← on_graph (f (wq_tid e)); for_ahead_readers f ahead'
      else mret tt
  end.

Definition for_ahead (f : nat → M directed_graph bool) (ahead : list wait_q_elem_t) : LT unit :=
  e ← deref (head ahead);
  if is_read e then for_ahead_readers f ahead
  else _ ← on_graph (f (wq_tid e)); mret tt.

Definition wrlock_clear_abort (tid record_id : nat) : LT unit :=
  q ← read_queue record_id;
  _ ← assert_ (negb (length q =? 0));
  _ ← signal_waiter tid;
  myself ← deref (last q);
  _ ← assert_ (wq_tid myself =? tid);
  _ ← assert_ (2 <=? length q);
  _ ← for_ahead (remove_edge tid) (drop 1 (rev q));
  write_queue record_id (delete (length q - 1) q).

(** ** Acquiring *)

Definition rdlock_acquire (record_id : nat) : LT unit :=
  c ← read_count record_id;
  _ ← write_count record_id (wrap_u32 (c + 1));
  write_table record_id RW_READER_LOCK.

Definition rdlock (tid record_id : nat) (cycle_member : list nat) : LT (lock_result * list nat) :=
  q0 ← read_queue record_id;
  _ ← write_queue record_id (q0 ++ [mk_wait_q_elem tid READ]);
  q ← read_queue record_id;
  _ ← assert_ (1 <=? length q);
  if length q =? 1 then
    _ ← rdlock_acquire record_id; mret (LOCKED, cycle_member)
  else
    _ ← assert_ (1 <? length q);
    ahead_writer_tid ← find_ahead_writer tid record_id;
    if negb (ahead_writer_tid =? 0) then
      _ ← on_graph (add_edge tid ahead_writer_tid);
      '(deadlock, cycle_member) ← is_deadlock_exist tid;
      if (deadlock : bool) then
        _ ← rdlock_clear_abort tid record_id; mret (ABORTED, cycle_member)
      else
        _ ← pthread_cond_wait tid; mret (SLEEPING, cycle_member)
    else
      _ ← rdlock_acquire record_id; mret (LOCKED, cycle_member).

(** The [do ... while] condition after the wait, and what follows the loop. *)
Definition rdlock_wakeup (tid record_id : nat) : LT lock_result :=
  ahead ← find_ahead_writer tid record_id;
  if negb (ahead =? 0) then _ ← pthread_cond_wait tid; mret SLEEPING
  else _ ← rdlock_acquire record_id; mret LOCKED.

Definition wrlock_acquire (tid record_id : nat) : LT unit :=
  st ← read_table record_id;
  _ ← assert_ (bool_decide (st ≠ RW_INVALID));
  _ ← assert_ (bool_decide (st ≠ RW_WRITER_LOCK));
  c ← read_count record_id;
  _ ← assert_ (c =? 0)%Z;
  q ← read_queue record_id;
  top ← deref (q !! 0);
  _ ← assert_ (wq_tid top =? tid);
  write_table record_id RW_WRITER_LOCK.

Definition wrlock (tid : nat) (phase : phase_t) (record_id : nat) (cycle_member : list nat)
    : LT (lock_result * list nat) :=
  _ ← assert_ (bool_decide (phase = FIRST_WRITE ∨ phase = SECOND_WRITE));
  q0 ← read_queue record_id;
  _ ← write_queue record_id (q0 ++ [mk_wait_q_elem tid phase]);
  q ← read_queue record_id;
  top ← deref (q !! 0);
  if wq_tid top =? tid then
    _ ← wrlock_acquire tid record_id; mret (LOCKED, cycle_member)
  else
    _ ← assert_ (1 <? length q);
    myself ← deref (last q);
    _ ← assert_ (wq_tid myself =? tid);
    _ ← for_ahead (add_edge tid) (drop 1 (rev q));
    '(deadlock, cycle_member) ← is_deadlock_exist tid;
    if (deadlock : bool) then
      _ ← wrlock_clear_abort tid record_id; mret (ABORTED, cycle_member)
    else
      _ ← pthread_cond_wait tid; mret (SLEEPING, cycle_member).

Definition wrlock_wakeup (tid record_id : nat) : LT lock_result :=
  ahead ← find_ahead_reader_or_writer tid record_id;
  if negb (ahead =? 0) then _ ← pthread_cond_wait tid; mret SLEEPING
  else _ ← wrlock_acquire tid record_id; mret LOCKED.

(** ** Releasing *)

(** The search loop of [rd_unlock]: the position of the caller, every element
    up to it asserted to be a reader. *)
Fixpoint rd_unlock_find (tid : nat) (q : list wait_q_elem_t) : LT nat :=
  match q with
  | [] => mret 0
  | e :: q' =>
      _ ← assert_ (is_read e);
      if wq_tid e =? tid then mret 0 else i ← rd_unlock_find tid q'; mret (S i)
  end.

(** Find the writer behind the readers that follow, and remove its edge. *)
Definition rd_unlock_remove_edge (tid : nat) (followers : list wait_q_elem_t) : LT unit :=
  match find_writer followers with
  | Some follower => _ ← on_graph (remove_edge (wq_tid follower) tid); mret tt
  | None => mret tt
  end.

(** The branches of [rd_unlock] between the search and the final updates. *)
Definition rd_unlock_branches (tid record_id iter : nat) (q : list wait_q_elem_t) : LT unit :=
  if iter =? 0 then
    match q !! (iter + 1) with
    | None => write_table record_id RW_UNLOCK
    | Some follower =>
        if negb (is_read follower) then
          _ ← on_graph (remove_edge (wq_tid follower) tid);
          _ ← write_table record_id RW_UNLOCK;
          pthread_cond_signal (wq_tid follower)
        else rd_unlock_remove_edge tid (drop (iter + 2) q)
    end
  else
    match q !! (iter + 1) with
    | None => mret tt
    | Some follower =>
        if negb (is_read follower) then
          _ ← on_graph (remove_edge (wq_tid follower) tid); mret tt
        else rd_unlock_remove_edge tid (drop (iter + 2) q)
    end.

Definition rd_unlock (tid record_id : nat) : LT bool :=
  c ← read_count record_id;
  _ ← assert_ (0 <? c)%Z;
  q ← read_queue record_id;
  _ ← assert_ (0 <? length q);
  iter ← rd_unlock_find tid q;
  _ ← assert_ (negb (iter =? length q));
  _ ← rd_unlock_branches tid record_id iter q;
  _ ← write_count record_id (wrap_u32 (c - 1));
  _ ← write_queue record_id (delete iter q);
  mret true.

(** Removing the edge of one follower and waking it up. *)
Definition wake_follower (tid : nat) (follower : wait_q_elem_t) : LT unit :=
  _ ← on_graph (remove_edge (wq_tid follower) tid);
  pthread_cond_signal (wq_tid follower).

(** The [for] loop of [wr_unlock] over the readers behind the first one. *)
Fixpoint wake_readers (tid : nat) (followers : list wait_q_elem_t) : LT unit :=
  match followers with
  | [] => mret tt
  | follower :: rest =>
      if is_read follower then _ ← wake_follower tid follower; wake_readers tid rest
      else mret tt
  end.

(** The follower of the leaving writer is woken and, when it is a reader, the
    readers behind it. *)
Definition wake_followers (tid : nat) (followers : list wait_q_elem_t) : LT unit :=
  match followers with
  | follower :: rest =>
      _ ← wake_follower tid follower;
      if is_read follower then wake_readers tid rest else mret tt
  | [] => mret tt
  end.

Definition wr_unlock (tid record_id : nat) : LT bool :=
  q ← read_queue record_id;
  top ← deref (q !! 0);
  _ ← assert_ (wq_tid top =? tid);
  _ ← wake_followers tid (drop 1 q);
  _ ← write_queue record_id (delete 0 q);
  _ ← write_table record_id RW_UNLOCK;
  mret true.

Definition unlock (tid record_id : nat) : LT bool :=
  st ← read_table record_id;
  match st with
  | RW_READER_LOCK => _ ← rd_unlock tid record_id; mret true
  | RW_WRITER_LOCK => _ ← wr_unlock tid record_id; mret true
  | _ => _ ← assert_ false; mret true
  end.
