(* ===== verification/WaitQueue.v ===== *)
(** The wait-for relation a record's queue stands for.

    The comments of [rw_lock_table.cc] say who waits for whom: a reader waits
    for the nearest writer ahead of it; a writer waits for the thread right
    ahead of it and, when that is a reader, for every reader up to the next
    writer. [waits] states this on queue positions, and the lemmas say how it
    changes when a thread is appended to a queue and when a lock holder leaves
    it, and what the queue searches of [rw_lock_table.cc] find in terms of it. *)
From stdpp Require Import base tactics numbers option list list_numbers gmap sets relations.
From Stdlib Require Import ZArith Lia.
From S2P Require Import Prelude DirectedGraph LockTable.

(** [readers_between q i j]: every element strictly between the positions is a
    reader. *)
Definition readers_between (q : list wait_q_elem_t) (i j : nat) : Prop :=
  ∀ k x, i < k < j → q !! k = Some x → is_read x = true.

Definition waits (q : list wait_q_elem_t) (et eb : wait_q_elem_t) : Prop :=
  ∃ i j, i < j ∧ q !! i = Some eb ∧ q !! j = Some et ∧ readers_between q i j ∧
    if is_read et then is_read eb = false else is_read eb = true ∨ j = S i.

Definition waits_tid (q : list wait_q_elem_t) (a b : nat) : Prop :=
  ∃ et eb, waits q et eb ∧ wq_tid et = a ∧ wq_tid eb = b.

(** The elements a thread appended with the given kind would wait for. *)
Definition tail_waits (q : list wait_q_elem_t) (reader : bool) (eb : wait_q_elem_t) : Prop :=
  ∃ i, q !! i = Some eb ∧ readers_between q i (length q) ∧
    if reader then is_read eb = false else is_read eb = true ∨ length q = S i.

Definition tids (q : list wait_q_elem_t) : list nat := map wq_tid q.

Lemma tids_inj q i j e e' :
  NoDup (tids q) → q !! i = Some e → q !! j = Some e' → wq_tid e = wq_tid e' → i = j.
Proof.
  intros Hnd Hi Hj Heq. eapply (NoDup_lookup (tids q)); [done|..];
    unfold tids; apply list_lookup_fmap_Some; eauto.
Qed.

Lemma elem_of_tids q t : t ∈ tids q ↔ ∃ i e, q !! i = Some e ∧ wq_tid e = t.
Proof.
  unfold tids. rewrite list_elem_of_fmap. split.
  - intros (e & -> & (i & ?)%list_elem_of_lookup). eauto.
  - intros (i & e & ? & <-). exists e. split; [done|]. by eapply list_elem_of_lookup_2.
Qed.

Lemma NoDup_tids q : NoDup (tids q) → NoDup q.
Proof. apply NoDup_fmap_1. Qed.

(** ** Appending *)

Lemma readers_between_app q q' i j :
  j ≤ length q → readers_between (q ++ q') i j ↔ readers_between q i j.
Proof.
  intros Hj. unfold readers_between. split; intros H k x Hk Hx; eapply (H k); try done.
  - by apply lookup_app_l_Some.
  - by rewrite lookup_app_l in Hx by lia.
Qed.

Lemma waits_snoc q me et eb :
  waits (q ++ [me]) et eb ↔ waits q et eb ∨ (et = me ∧ tail_waits q (is_read me) eb).
Proof.
  split.
  - intros (i & j & Hij & Hi & Hj & Hb & Hc).
    assert (i < length q).
    { apply lookup_lt_Some in Hj. rewrite length_app in Hj. simpl in Hj. lia. }
    rewrite lookup_app_l in Hi by done.
    destruct (decide (j < length q)).
    + left. rewrite lookup_app_l in Hj by done. exists i, j. split_and!; try done.
      eapply readers_between_app; [|done]. lia.
    + right. assert (j = length q) as ->.
      { apply lookup_lt_Some in Hj. rewrite length_app in Hj. simpl in Hj. lia. }
      rewrite list_lookup_middle in Hj by done. injection Hj as <-. split; [done|].
      exists i. split_and!; try done. by eapply readers_between_app.
  - intros [(i & j & Hij & Hi & Hj & Hb & Hc)|(-> & i & Hi & Hb & Hc)].
    + exists i, j. assert (j < length q) by (by eapply lookup_lt_Some).
      split_and!; try done; [by apply lookup_app_l_Some..|]. apply readers_between_app; [lia|done].
    + exists i, (length q). assert (i < length q) by (by eapply lookup_lt_Some).
      split_and!; try done; [by apply lookup_app_l_Some|by apply list_lookup_middle|].
      by apply readers_between_app.
Qed.

(** ** Removing a lock holder *)

Lemma lookup_delete_cases (q : list wait_q_elem_t) p k :
  delete p q !! k = if decide (k < p) then q !! k else q !! S k.
Proof.
  case_decide; [by apply list_lookup_delete_lt|by apply list_lookup_delete_ge; lia].
Qed.

(** The thread at position [p] can leave when only readers are ahead of it and,
    if it is a writer, nobody is. *)
Definition at_front (q : list wait_q_elem_t) (p : nat) (x : wait_q_elem_t) : Prop :=
  q !! p = Some x ∧ (∀ k y, k < p → q !! k = Some y → is_read y = true) ∧
  (is_read x = true ∨ p = 0).

Lemma waits_delete q p x et eb :
  NoDup (tids q) → at_front q p x →
  waits (delete p q) et eb ↔ waits q et eb ∧ et ≠ x ∧ eb ≠ x.
Proof.
  intros Hnd (Hp & Hfront & Hx). split.
  - intros (i & j & Hij & Hi & Hj & Hb & Hc). rewrite lookup_delete_cases in Hi, Hj.
    set (f := λ k, if decide (k < p) then k else S k).
    assert (Hfi : q !! f i = Some eb) by (unfold f; destruct (decide (i < p)); done).
    assert (Hfj : q !! f j = Some et) by (unfold f; destruct (decide (j < p)); done).
    assert (f i ≠ p ∧ f j ≠ p) as [Hip Hjp] by (unfold f; do 2 case_decide; lia).
    split_and!.
    2: intros ->; by apply Hjp, (tids_inj q (f j) p x x).
    2: intros ->; by apply Hip, (tids_inj q (f i) p x x).
    exists (f i), (f j). split_and!; try done.
    + unfold f; do 2 case_decide; lia.
    + intros k y Hk Hy. destruct (decide (k = p)) as [->|].
      { simplify_eq. destruct Hx; [done|]. unfold f in Hk. do 2 case_decide; lia. }
      apply (Hb (if decide (k < p) then k else k - 1)).
      * unfold f in Hk. do 3 case_decide; lia.
      * rewrite lookup_delete_cases. destruct (decide (k < p)); [by rewrite decide_True|].
        rewrite decide_False by lia. by replace (S (k - 1)) with k by lia.
    + destruct (is_read et); [done|]. destruct Hc as [Hc|Hc]; [by left|].
      destruct (decide (i < p)); [left; by eapply Hfront|].
      right. unfold f. do 2 case_decide; lia.
  - intros ((i & j & Hij & Hi & Hj & Hb & Hc) & Het & Heb).
    assert (i ≠ p) by congruence. assert (j ≠ p) by congruence.
    set (f := λ k, if decide (k < p) then k else k - 1).
    assert (Hf : ∀ k, k ≠ p → delete p q !! f k = q !! k).
    { intros k Hk. rewrite lookup_delete_cases. unfold f.
      destruct (decide (k < p)); [by rewrite decide_True|].
      rewrite decide_False by lia. by replace (S (k - 1)) with k by lia. }
    exists (f i), (f j). rewrite !Hf by done. split_and!; try done.
    + unfold f; do 2 case_decide; lia.
    + intros k y Hk Hy. rewrite lookup_delete_cases in Hy. unfold f in Hk.
      eapply (Hb (if decide (k < p) then k else S k)); [|by case_decide].
      repeat case_decide; lia.
    + destruct (is_read et); [done|]. destruct Hc as [|Hc]; [by left|right].
      unfold f. do 2 case_decide; lia.
Qed.

(** ** The searches of the lock table *)

(** The outcome of a scan for the last writer before position [j]. *)
Definition all_readers_before (q : list wait_q_elem_t) (j : nat) : Prop :=
  ∀ k x, k < j → q !! k = Some x → is_read x = true.

Definition last_writer_before (q : list wait_q_elem_t) (j : nat) (x : wait_q_elem_t) : Prop :=
  ∃ i, i < j ∧ q !! i = Some x ∧ is_read x = false ∧ readers_between q i j.

Lemma find_ahead_writer_loop_spec tid q acc j e s :
  q !! j = Some e → wq_tid e = tid →
  (∀ k x, k < j → q !! k = Some x → wq_tid x ≠ tid ∧ wq_phase x ≠ INVALID) →
  (find_ahead_writer_loop tid q acc s = Ok ((true, acc), s) ∧ all_readers_before q j) ∨
  (∃ x, find_ahead_writer_loop tid q acc s = Ok ((true, wq_tid x), s) ∧ last_writer_before q j x).
Proof.
  intros Hj <-. revert acc j Hj. induction q as [|y q IH]; intros acc [|j] Hj Hk; [done..| |].
  - simpl in *. injection Hj as ->. rewrite Nat.eqb_refl. left. split; [done|]. intros ???. lia.
  - destruct (Hk 0 y) as [Hne Hinv]; [lia|done|]. simpl.
    rewrite (proj2 (Nat.eqb_neq _ _)) by done.
    rewrite assert_true by (by apply bool_decide_eq_true).
    destruct (IH (if is_read y then acc else wq_tid y) j Hj) as [[Hl Hr]|(x & Hl & i & Hi & Hx & Hw & Hb)].
    + intros k x Hlt Hx. apply (Hk (S k) x); [lia|done].
    + rewrite Hl. destruct (is_read y) eqn:Ey.
      * left. split; [done|]. intros [|k] x Hlt Hx; simpl in Hx; [by simplify_eq|]. eapply (Hr k); [lia|done].
      * right. exists y. split; [done|]. exists 0. split_and!; [lia|done|done|].
        intros [|k] x Hlt Hx; [lia|]. eapply (Hr k); [lia|done].
    + right. exists x. split; [done|]. exists (S i). split_and!; [lia|done|done|].
      intros [|k] z Hlt Hz; [lia|]. eapply (Hb k); [lia|done].
Qed.

Lemma find_ahead_loop_spec tid q acc j e s :
  q !! j = Some e → wq_tid e = tid →
  (∀ k x, k < j → q !! k = Some x → wq_tid x ≠ tid ∧ wq_phase x ≠ INVALID) →
  ∃ w, find_ahead_loop tid q acc s = Ok ((true, w), s) ∧
    if decide (j = 0) then w = acc else ∃ x, q !! (j - 1) = Some x ∧ w = wq_tid x.
Proof.
  intros Hj <-. revert acc j Hj. induction q as [|y q IH]; intros acc [|j] Hj Hk; [done..| |].
  - simpl in *. injection Hj as ->. rewrite Nat.eqb_refl. by exists acc.
  - destruct (Hk 0 y) as [Hne Hinv]; [lia|done|]. simpl.
    rewrite (proj2 (Nat.eqb_neq _ _)) by done.
    rewrite assert_true by (by apply bool_decide_eq_true).
    destruct (IH (wq_tid y) j Hj) as (w & Hl & Hw).
    { intros k x Hlt Hx. apply (Hk (S k) x); [lia|done]. }
    exists w. split; [done|]. rewrite Nat.sub_0_r. destruct j as [|j]; simpl in *.
    + exists y. done.
    + by rewrite Nat.sub_0_r in Hw.
Qed.

Lemma nearest_writer q j :
  all_readers_before q j ∨ ∃ x, last_writer_before q j x.
Proof.
  induction j as [|j [IH|(x & i & Hi & Hx & Hw & Hb)]].
  - left. intros ???. lia.
  - destruct (q !! j) as [y|] eqn:Hy.
    + destruct (is_read y) eqn:Ey.
      * left. intros k x Hk Hx. destruct (decide (k = j)); [congruence|]. eapply (IH k); [lia|done].
      * right. exists y, j. split_and!; [lia|done..|]. intros k x Hk. lia.
    + left. intros k x Hk Hx. destruct (decide (k = j)); [congruence|]. eapply (IH k); [lia|done].
  - right. destruct (q !! j) as [y|] eqn:Hy; [destruct (is_read y) eqn:Ey|].
    + exists x, i. split_and!; [lia|done..|]. intros k z Hk Hz.
      destruct (decide (k = j)); [congruence|]. eapply (Hb k); [lia|done].
    + exists y, j. split_and!; [lia|done..|]. intros k z Hk. lia.
    + exists x, i. split_and!; [lia|done..|]. intros k z Hk Hz.
      destruct (decide (k = j)); [congruence|]. eapply (Hb k); [lia|done].
Qed.

(** A queued thread waits for somebody exactly when the wait condition of its
    [do ... while] loop holds. *)
Definition must_wait (q : list wait_q_elem_t) (j : nat) (e : wait_q_elem_t) : Prop :=
  if is_read e then ∃ x, last_writer_before q j x else 0 < j.

Lemma waits_must_wait q j e :
  NoDup (tids q) → q !! j = Some e → (∃ b, waits_tid q (wq_tid e) b) ↔ must_wait q j e.
Proof.
  intros Hnd Hj. unfold must_wait. split.
  - intros (b & et & eb & (i & j' & Hij & Hi & Hj' & Hb & Hc) & Het & Heb).
    assert (j' = j) as -> by eauto using tids_inj. simplify_eq.
    destruct (is_read e); [|lia]. by exists eb, i.
  - intros Hm. destruct (is_read e) eqn:Ee.
    + destruct Hm as (x & i & Hi & Hx & Hw & Hb). exists (wq_tid x), e, x.
      split; [|done]. exists i, j. rewrite Ee. done.
    + destruct (q !! (j - 1)) as [x|] eqn:Hx.
      2: { apply lookup_ge_None in Hx. apply lookup_lt_Some in Hj. lia. }
      exists (wq_tid x), e, x. split; [|done]. exists (j - 1), j. rewrite Ee.
      split_and!; [lia|done..| |right; lia]. intros k y Hk. lia.
Qed.

Lemma find_writer_Some q x :
  find_writer q = Some x ↔ ∃ i, q !! i = Some x ∧ is_read x = false ∧ all_readers_before q i.
Proof.
  induction q as [|y q IH]; simpl; [naive_solver|]. destruct (is_read y) eqn:Ey.
  - rewrite IH. split.
    + intros (i & Hi & Hx & Hr). exists (S i). split_and!; [done..|].
      intros [|k] z Hk Hz; simpl in Hz; [congruence|]. eapply (Hr k); [lia|done].
    + intros ([|i] & Hi & Hx & Hr); simpl in Hi; [congruence|].
      exists i. split_and!; [done..|]. intros k z Hk Hz. apply (Hr (S k) z); [lia|done].
  - split.
    + intros [= <-]. exists 0. split_and!; [done..|]. intros k z Hk. lia.
    + intros ([|i] & Hi & Hx & Hr); simpl in Hi; [congruence|].
      rewrite (Hr 0 y) in Ey; [done|lia|done].
Qed.

Lemma find_writer_None q : find_writer q = None ↔ ∀ k x, q !! k = Some x → is_read x = true.
Proof.
  induction q as [|y q IH]; simpl; [naive_solver|]. destruct (is_read y) eqn:Ey.
  - rewrite IH. split.
    + intros H [|k] x Hx; simpl in Hx; [congruence|eauto].
    + intros H k x Hx. apply (H (S k) x Hx).
  - split; [done|]. intros H. by rewrite (H 0 y) in Ey.
Qed.

(** The readers a walk from the end of the queue passes. *)
Fixpoint leading_readers (q : list wait_q_elem_t) : list wait_q_elem_t :=
  match q with
  | [] => []
  | e :: q' => if is_read e then e :: leading_readers q' else []
  end.

Lemma elem_of_leading_readers q x :
  x ∈ leading_readers q ↔ ∃ i, q !! i = Some x ∧ is_read x = true ∧ all_readers_before q i.
Proof.
  induction q as [|y q IH]; simpl; [set_solver|]. destruct (is_read y) eqn:Ey.
  - rewrite elem_of_cons, IH. split.
    + intros [->|(i & Hi & Hx & Hr)].
      * exists 0. split_and!; [done..|]. intros k z Hk. lia.
      * exists (S i). split_and!; [done..|]. intros [|k] z Hk Hz; simpl in Hz; [congruence|].
        eapply (Hr k); [lia|done].
    + intros ([|i] & Hi & Hx & Hr); simpl in Hi; [left; congruence|right].
      exists i. split_and!; [done..|]. intros k z Hk Hz. apply (Hr (S k) z); [lia|done].
  - split; [set_solver|]. intros ([|i] & Hi & Hx & Hr); simpl in Hi; [congruence|].
    rewrite (Hr 0 y) in Ey; [done|lia|done].
Qed.

(** What a writer at the end of the queue waits for, seen from there. *)
Definition ahead_set (ahead : list wait_q_elem_t) : list wait_q_elem_t :=
  match ahead with
  | [] => []
  | e :: _ => if is_read e then leading_readers ahead else [e]
  end.

Lemma readers_between_snoc q x i :
  i < length q →
  readers_between (q ++ [x]) i (length (q ++ [x])) ↔ is_read x = true ∧ readers_between q i (length q).
Proof.
  intros Hi. rewrite length_app. simpl. split.
  - intros H. split.
    + apply (H (length q)); [lia|by apply list_lookup_middle].
    + intros k y Hk Hy. apply (H k); [lia|by apply lookup_app_l_Some].
  - intros [Hx H] k y Hk Hy. destruct (decide (k < length q)).
    + rewrite lookup_app_l in Hy by done. apply (H k); [lia|done].
    + replace k with (length q) in Hy by lia. rewrite list_lookup_middle in Hy by done. congruence.
Qed.

Lemma lookup_snoc_cases (q : list wait_q_elem_t) x i y :
  (q ++ [x]) !! i = Some y ↔ (i < length q ∧ q !! i = Some y) ∨ (i = length q ∧ y = x).
Proof.
  rewrite lookup_app_Some. split.
  - intros [H|[Hge H]]; [left; split; [by eapply lookup_lt_Some|done]|right].
    apply list_lookup_singleton_Some in H as [H ->]. split; [lia|done].
  - intros [[_ ?]|[-> ->]]; [by left|right]. by rewrite Nat.sub_diag.
Qed.

Lemma tail_waits_nil b eb : ¬ tail_waits [] b eb.
Proof. by intros (i & Hi & _). Qed.

Lemma tail_waits_snoc_read q x eb :
  tail_waits (q ++ [x]) true eb ↔ if is_read x then tail_waits q true eb else eb = x.
Proof.
  unfold tail_waits. split.
  - intros (i & Hi & Hb & Hw). apply lookup_snoc_cases in Hi as [[Hlt Hi]|[-> ->]].
    + apply readers_between_snoc in Hb as [-> Hb]; [|done]. eauto.
    + by rewrite Hw.
  - destruct (is_read x) eqn:Ex.
    + intros (i & Hi & Hb & Hw). assert (i < length q) by (by eapply lookup_lt_Some).
      exists i. split_and!; [by apply lookup_app_l_Some| |done]. by apply readers_between_snoc.
    + intros ->. exists (length q). split_and!; [by apply list_lookup_middle| |done].
      rewrite length_app; simpl. intros k y Hk. lia.
Qed.

Lemma tail_waits_snoc_write q x eb :
  tail_waits (q ++ [x]) false eb ↔
    eb = x ∨ (is_read x = true ∧ is_read eb = true ∧ ∃ i, q !! i = Some eb ∧ readers_between q i (length q)).
Proof.
  unfold tail_waits. split.
  - intros (i & Hi & Hb & Hw). apply lookup_snoc_cases in Hi as [[Hlt Hi]|[-> ->]]; [|by left].
    apply readers_between_snoc in Hb as [Hx Hb]; [|done]. right. split_and!; eauto.
    destruct Hw as [|Hw]; [done|]. rewrite length_app in Hw. simpl in Hw. lia.
  - intros [->|(Hx & Heb & i & Hi & Hb)].
    + exists (length q). split_and!; [by apply list_lookup_middle|..].
      * rewrite length_app; simpl. intros k y Hk. lia.
      * right. rewrite length_app; simpl. lia.
    + assert (i < length q) by (by eapply lookup_lt_Some).
      exists i. split_and!; [by apply lookup_app_l_Some| |by left]. by apply readers_between_snoc.
Qed.

Lemma tail_waits_find_writer q eb : tail_waits q true eb ↔ find_writer (rev q) = Some eb.
Proof.
  induction q as [|x q IH] using rev_ind.
  - split; [by intros ?%tail_waits_nil|done].
  - rewrite tail_waits_snoc_read, rev_app_distr. simpl.
    destruct (is_read x); [done|]. naive_solver.
Qed.

Lemma tail_readers_leading q eb :
  (is_read eb = true ∧ ∃ i, q !! i = Some eb ∧ readers_between q i (length q)) ↔
  eb ∈ leading_readers (rev q).
Proof.
  induction q as [|x q IH] using rev_ind.
  - simpl. split; [by intros (_ & i & Hi & _)|set_solver].
  - rewrite rev_app_distr. simpl. split.
    + intros (Heb & i & Hi & Hb). apply lookup_snoc_cases in Hi as [[Hlt Hi]|[-> ->]].
      * apply readers_between_snoc in Hb as [-> Hb]; [|done]. apply elem_of_cons. right. apply IH. eauto.
      * rewrite Heb. by left.
    + destruct (is_read x) eqn:Ex; [|set_solver]. intros [->|Hin]%elem_of_cons.
      * split; [done|]. exists (length q). split; [by apply list_lookup_middle|].
        rewrite length_app; simpl. intros k y Hk. lia.
      * apply IH in Hin as (Heb & i & Hi & Hb). assert (i < length q) by (by eapply lookup_lt_Some).
        split; [done|]. exists i. split; [by apply lookup_app_l_Some|]. by apply readers_between_snoc.
Qed.

Lemma tail_waits_ahead_set q eb : tail_waits q false eb ↔ eb ∈ ahead_set (rev q).
Proof.
  destruct q as [|x q _] using rev_ind.
  - simpl. split; [by intros ?%tail_waits_nil|set_solver].
  - rewrite tail_waits_snoc_write, rev_app_distr. simpl. destruct (is_read x).
    + rewrite tail_readers_leading, elem_of_cons. naive_solver.
    + set_solver.
Qed.

(** Whether the appended thread has to wait at all. *)
Lemma tail_waits_exists q b :
  (∃ eb, tail_waits q b eb) ↔
    if b then ∃ x, last_writer_before q (length q) x else q ≠ [].
Proof.
  destruct b.
  - unfold last_writer_before, tail_waits. split.
    + intros (eb & i & Hi & Hb & Hw). exists eb, i. split_and!; try done. by eapply lookup_lt_Some.
    + intros (x & i & _ & Hi & Hw & Hb). eauto.
  - split; [intros (eb & i & Hi & _) ->; done|].
    intros Hne. destruct q as [|x q _] using rev_ind; [done|].
    exists x. apply tail_waits_snoc_write. by left.
Qed.

(** ** Who waits for a thread at the front *)

Lemma waits_for_reader q p x et :
  NoDup (tids q) → q !! p = Some x → is_read x = true →
  waits q et x ↔ find_writer (drop (S p) q) = Some et.
Proof.
  intros Hnd Hp Hx. rewrite find_writer_Some. split.
  - intros (i & j & Hij & Hi & Hj & Hb & Hc). assert (i = p) as -> by eauto using tids_inj.
    exists (j - S p). rewrite lookup_drop. replace (S p + (j - S p)) with j by lia.
    destruct (is_read et) eqn:Et; [congruence|]. split_and!; [done..|].
    intros k y Hk. rewrite lookup_drop. apply Hb. lia.
  - intros (i & Hi & Ht & Hr). rewrite lookup_drop in Hi. exists p, (S p + i).
    rewrite Ht. split_and!; [lia|done|done| |by left].
    intros k y Hk Hy. apply (Hr (k - S p) y); [lia|]. rewrite lookup_drop.
    by replace (S p + (k - S p)) with k by lia.
Qed.

(** The threads [wr_unlock] wakes: the first follower and, when it is a reader,
    the readers right behind it. *)
Definition followers (q : list wait_q_elem_t) : list wait_q_elem_t :=
  match q with
  | [] => []
  | e :: q' => if is_read e then e :: leading_readers q' else [e]
  end.

Lemma waits_for_writer x q et :
  NoDup (tids (x :: q)) → is_read x = false →
  waits (x :: q) et x ↔ et ∈ followers q.
Proof.
  intros Hnd Hx.
  assert (Hw : waits (x :: q) et x ↔ ∃ j, q !! j = Some et ∧ all_readers_before q j ∧ (is_read et = true ∨ j = 0)).
  { split.
    - intros (i & j & Hij & Hi & Hj & Hb & Hc).
      assert (i = 0) as -> by (by eapply (tids_inj _ i 0)).
      destruct j as [|j]; [lia|]. exists j. split_and!; [done| |].
      + intros k y Hk Hy. apply (Hb (S k)); [lia|done].
      + destruct (is_read et); [by left|right]. destruct Hc; [congruence|lia].
    - intros (j & Hj & Hr & Hor). exists 0, (S j). split_and!; [lia|done|done| |].
      + intros [|k] y Hk Hy; [lia|]. apply (Hr k); [lia|done].
      + destruct (is_read et); [done|]. destruct Hor; [done|]. right. lia. }
  rewrite Hw. destruct q as [|e q]; simpl; [set_solver|].
  assert (Hl := elem_of_leading_readers (e :: q) et). simpl in Hl.
  destruct (is_read e) eqn:Ee; rewrite ?Hl.
  - split.
    + intros (j & Hj & Hr & [Ht| ->]); [by eauto|]. simpl in Hj. injection Hj as ->. by exists 0.
    + intros (j & Hj & Ht & Hr). eauto.
  - rewrite list_elem_of_singleton. split.
    + intros ([|j] & Hj & Hr & Hor); simpl in Hj; [congruence|].
      rewrite (Hr 0 e) in Ee; [done|lia|done].
    + intros ->. exists 0. split_and!; [done| |by right]. intros k y Hk. lia.
Qed.
