(* ===== verification/LockInv.v ===== *)
(** The invariant of the lock table and the behaviour of its methods.

    [hs] is the set of threads that hold the lock of each record, a ghost of
    the model. [record_ok] ties the status byte, the reader count and the queue
    of one record to its holders; [table_ok] adds that the wait-for graph is
    exactly the wait-for relation of the queues, that it has no cycle, that a
    thread waits for one record at a time, and that a sleeping thread really
    has to wait. Every method keeps [table_ok] and fails no assert. *)
From stdpp Require Import functions base tactics numbers option list list_numbers gmap sets relations.
From Stdlib Require Import ZArith Lia.
From S2P Require Import Prelude DirectedGraph LockTable WaitQueue.

(** ** The invariant *)

Definition lockable (ph : phase_t) : Prop := ph = READ ∨ ph = FIRST_WRITE ∨ ph = SECOND_WRITE.

Record record_ok (N : nat) (H : gset nat) (st : rw_lock_status_t) (c : Z) (q : list wait_q_elem_t) : Prop := {
  rok_nodup : NoDup (tids q);
  rok_elem : ∀ e, e ∈ q → 0 < wq_tid e < N ∧ lockable (wq_phase e);
  rok_held : ∀ t, t ∈ H → ∃ p e, at_front q p e ∧ wq_tid e = t;
  rok_status :
    match st with
    | RW_INVALID => False
    | RW_UNLOCK => H = ∅ ∧ c = 0%Z
    | RW_READER_LOCK => (∃ e, q !! 0 = Some e ∧ is_read e = true) ∧ c = Z.of_nat (size H)
    | RW_WRITER_LOCK => ∃ e, q !! 0 = Some e ∧ is_read e = false ∧ H = {[wq_tid e]} ∧ c = 0%Z
    end;
}.

Definition queue_edges (Q : list (list wait_q_elem_t)) (a b : nat) : Prop :=
  ∃ r q, Q !! r = Some q ∧ waits_tid q a b.

Record table_ok (R N : nat) (hs : nat → gset nat) (s : rw_lock_table) : Prop := {
  tok_threads : (Z.of_nat N ≤ 2 ^ 32)%Z;
  tok_len_table : length (table s) = R;
  tok_len_count : length (readers_count s) = R;
  tok_len_queues : length (record_wait_queues s) = R;
  tok_len_cond : length (cond_var s) = N;
  tok_nodes : number_of_nodes (wait_for_graph s) = N;
  tok_graph : graph_ok (wait_for_graph s);
  tok_acyclic : acyclic (wait_for_graph s);
  tok_record : ∀ r st c q,
    table s !! r = Some st → readers_count s !! r = Some c → record_wait_queues s !! r = Some q →
    record_ok N (hs r) st c q;
  tok_edges : ∀ a b, has_edge (wait_for_graph s) a b ↔ queue_edges (record_wait_queues s) a b;
  tok_one : ∀ a r q b r' q' b',
    record_wait_queues s !! r = Some q → waits_tid q a b →
    record_wait_queues s !! r' = Some q' → waits_tid q' a b' → r = r';
  tok_sleep : ∀ t, cond_var s !! t = Some true → ∃ b, queue_edges (record_wait_queues s) t b;
}.

(** ** One record *)

Lemma at_front_app q q' p e : at_front q p e → at_front (q ++ q') p e.
Proof.
  intros (Hp & Hr & Hor). assert (p < length q) by (by eapply lookup_lt_Some).
  split_and!; [by apply lookup_app_l_Some| |done].
  intros k y Hk Hy. rewrite lookup_app_l in Hy by lia. by eapply Hr.
Qed.

Lemma at_front_delete q p x p' e :
  NoDup (tids q) → at_front q p x → at_front q p' e → wq_tid e ≠ wq_tid x →
  ∃ p'', at_front (delete p q) p'' e.
Proof.
  intros Hnd (Hp & Hr & Hor) (Hp' & Hr' & Hor') Hne. assert (p ≠ p') by congruence.
  exists (if decide (p' < p) then p' else p' - 1). split_and!.
  - rewrite lookup_delete_cases. destruct (decide (p' < p)); [by rewrite decide_True|].
    rewrite decide_False by lia. by replace (S (p' - 1)) with p' by lia.
  - intros k y Hk Hy. rewrite lookup_delete_cases in Hy.
    destruct (decide (k < p)); [apply (Hr' k); [|done]|apply (Hr' (S k)); [|done]]; case_decide; lia.
  - destruct Hor' as [| ->]; [by left|right]. case_decide; lia.
Qed.

Section record.
Context (N : nat).

Lemma record_ok_append H st c q t ph :
  record_ok N H st c q → 0 < t < N → lockable ph → t ∉ tids q →
  record_ok N H st c (q ++ [mk_wait_q_elem t ph]).
Proof.
  intros [Hnd He Hh Hst] Ht Hph Hnin. split.
  - unfold tids. rewrite map_app. apply NoDup_app. split_and!; [done|set_solver|apply NoDup_singleton].
  - intros e. rewrite elem_of_app, list_elem_of_singleton. intros [| ->]; [by apply He|done].
  - intros t' (p & e & Hf & <-)%Hh. exists p, e. split; [by apply at_front_app|done].
  - destruct st; [done|done|..].
    + destruct Hst as [(e & H0 & Hr) ->]. split; [|done]. exists e. split; [by apply lookup_app_l_Some|done].
    + destruct Hst as (e & H0 & Hr). exists e. split; [by apply lookup_app_l_Some|done].
Qed.

Lemma held_elem H st c q t : record_ok N H st c q → t ∈ H → 0 < t < N.
Proof.
  intros Hok (p & e & (Hp & _) & <-)%(rok_held _ _ _ _ _ Hok).
  apply (rok_elem _ _ _ _ _ Hok). by eapply list_elem_of_lookup_2.
Qed.

Lemma held_size H st c q :
  (Z.of_nat N ≤ 2 ^ 32)%Z → record_ok N H st c q → (Z.of_nat (size H) < 2 ^ 32)%Z.
Proof.
  intros HN Hok. destruct (decide (H = ∅)) as [->|Hne]; [rewrite size_empty; lia|].
  assert (size H ≤ size (set_seq 1 (N - 1) : gset nat)) as Hle.
  { apply subseteq_size. intros t Ht. apply elem_of_set_seq. apply (held_elem _ _ _ _ _ Hok) in Ht. lia. }
  rewrite size_set_seq in Hle.
  apply set_choose_L in Hne as [t Ht]. apply (held_elem _ _ _ _ _ Hok) in Ht. lia.
Qed.

(** A thread behind readers only can take the read lock. *)
Lemma record_ok_read H st c q p e :
  (Z.of_nat N ≤ 2 ^ 32)%Z → record_ok N H st c q → q !! p = Some e → is_read e = true → all_readers_before q p → wq_tid e ∉ H →
  record_ok N ({[wq_tid e]} ∪ H) RW_READER_LOCK (wrap_u32 (c + 1)) q.
Proof.
  intros HN Hok Hp He Hr Hnin.
  assert (Hh' : ∀ t, t ∈ {[wq_tid e]} ∪ H → ∃ p e, at_front q p e ∧ wq_tid e = t).
  { intros t [->%elem_of_singleton|Ht]%elem_of_union; [|by apply (rok_held _ _ _ _ _ Hok)].
    exists p, e. split; [|done]. split_and!; [done|by apply Hr|by left]. }
  assert (Hc : c = Z.of_nat (size H)).
  { assert (Hst := rok_status _ _ _ _ _ Hok). destruct st; [done|..].
    - destruct Hst as [-> ->]. by rewrite size_empty.
    - by destruct Hst.
    - destruct Hst as (e' & H0 & He' & _). destruct p as [|p]; [congruence|].
      rewrite (Hr 0 e') in He'; [done|lia|done]. }
  assert (H0 : ∃ e, q !! 0 = Some e ∧ is_read e = true).
  { destruct p as [|p]; [by eauto|]. destruct (lookup_lt_is_Some_2 q 0) as [e0 He0].
    { apply lookup_lt_Some in Hp. lia. }
    exists e0. split; [done|]. apply (Hr 0); [lia|done]. }
  assert (Hok' : record_ok N ({[wq_tid e]} ∪ H) RW_READER_LOCK (Z.of_nat (size ({[wq_tid e]} ∪ H))) q).
  { split; [apply Hok..|done|by split]. }
  assert (Hsz := held_size _ _ _ _ HN Hok').
  rewrite size_union, size_singleton in Hsz by set_solver.
  replace (wrap_u32 (c + 1)) with (Z.of_nat (size ({[wq_tid e]} ∪ H))); [done|].
  rewrite size_union, size_singleton by set_solver. unfold wrap_u32. rewrite Z.mod_small; lia.
Qed.

(** The first thread of the queue can take the write lock, and then every
    assert of [wrlock] about the record holds. *)
Lemma record_free_for_writer H st c q e :
  record_ok N H st c q → q !! 0 = Some e → is_read e = false → wq_tid e ∉ H →
  st = RW_UNLOCK ∧ c = 0%Z ∧ H = ∅.
Proof.
  intros Hok H0 He Hnin. assert (Hst := rok_status _ _ _ _ _ Hok). destruct st; [done|naive_solver|..].
  - destruct Hst as [(e' & ? & ?) _]. congruence.
  - destruct Hst as (e' & ? & ? & -> & _). simplify_eq. set_solver.
Qed.

Lemma record_ok_write H st c q e :
  record_ok N H st c q → q !! 0 = Some e → is_read e = false → wq_tid e ∉ H →
  record_ok N {[wq_tid e]} RW_WRITER_LOCK c q.
Proof.
  intros Hok H0 He Hnin. destruct (record_free_for_writer _ _ _ _ _ Hok H0 He Hnin) as (-> & -> & ->).
  split; [apply Hok..| |].
  - intros t ->%elem_of_singleton. exists 0, e. split; [|done].
    split_and!; [done| |by right]. intros k y Hk. lia.
  - eauto.
Qed.

Lemma record_ok_leave H st c q p x st' c' :
  record_ok N H st c q → at_front q p x →
  match st' with
  | RW_INVALID => False
  | RW_UNLOCK => H ⊆ {[wq_tid x]} ∧ c' = 0%Z
  | RW_READER_LOCK => (∃ e, delete p q !! 0 = Some e ∧ is_read e = true) ∧ c' = Z.of_nat (size (H ∖ {[wq_tid x]}))
  | RW_WRITER_LOCK => False
  end →
  record_ok N (H ∖ {[wq_tid x]}) st' c' (delete p q).
Proof.
  intros Hok Hf Hst'. split.
  - eapply sublist_NoDup; [apply Hok|]. apply fmap_sublist, sublist_delete.
  - intros e He. apply (rok_elem _ _ _ _ _ Hok). eapply elem_of_sublist; [done|]. apply sublist_delete.
  - intros t [Ht Hne]%elem_of_difference.
    destruct (rok_held _ _ _ _ _ Hok t Ht) as (p' & e & Hf' & <-).
    destruct (at_front_delete q p x p' e) as [p'' ?]; [apply Hok|done..|set_solver|]. eauto.
  - destruct st'; [done|split; [set_solver|naive_solver]|done|done].
Qed.

(** A holder of a read lock leaves: the status [rd_unlock] writes is right. *)
Definition rd_unlock_status (q : list wait_q_elem_t) (p : nat) : rw_lock_status_t :=
  if decide (p = 0) then
    match q !! 1 with
    | None => RW_UNLOCK
    | Some follower => if is_read follower then RW_READER_LOCK else RW_UNLOCK
    end
  else RW_READER_LOCK.

Lemma record_ok_rd_unlock H c q p x :
  (Z.of_nat N ≤ 2 ^ 32)%Z → record_ok N H RW_READER_LOCK c q → at_front q p x → wq_tid x ∈ H →
  (0 < c)%Z ∧ record_ok N (H ∖ {[wq_tid x]}) (rd_unlock_status q p) (wrap_u32 (c - 1)) (delete p q).
Proof.
  intros HN Hok Hf Hin. destruct (rok_status _ _ _ _ _ Hok) as [(e0 & H0 & He0) ->].
  assert (Hsz := held_size _ _ _ _ HN Hok).
  assert (Hd : Z.of_nat (size (H ∖ {[wq_tid x]})) = (Z.of_nat (size H) - 1)%Z ∧ (0 < Z.of_nat (size H))%Z).
  { rewrite size_difference, size_singleton by set_solver.
    assert (size H ≠ 0); [|lia]. intros Hz%size_empty_inv. set_solver. }
  destruct Hd as [Hd Hpos]. split; [done|].
  replace (wrap_u32 (Z.of_nat (size H) - 1)) with (Z.of_nat (size (H ∖ {[wq_tid x]}))).
  2: { unfold wrap_u32. rewrite Z.mod_small; lia. }
  apply record_ok_leave with RW_READER_LOCK (Z.of_nat (size H)); [done|done|].
  assert (Hsame : ∀ t, t ∈ H → p = 0 → (∀ f, q !! 1 = Some f → is_read f = false) → t = wq_tid x).
  { intros t Ht -> Hno. destruct (rok_held _ _ _ _ _ Hok t Ht) as (p' & e & (Hp' & Hr' & Hor') & <-).
    destruct p' as [|[|p']]; [by destruct Hf as (? & _); simplify_eq|..].
    - apply Hno in Hp'. destruct Hor'; [congruence|done].
    - destruct (lookup_lt_is_Some_2 q 1) as [f Hf1]; [apply lookup_lt_Some in Hp'; lia|].
      assert (is_read f = true) by (by apply (Hr' 1 f); [lia|]). apply Hno in Hf1. congruence. }
  unfold rd_unlock_status. case_decide as Hp0.
  - subst p. destruct (q !! 1) as [f|] eqn:Hf1; [destruct (is_read f) eqn:Ef|].
    + split; [|done]. exists f. rewrite lookup_delete_cases. by rewrite decide_False by lia.
    + assert (HH : H ⊆ {[wq_tid x]}) by (intros t Ht; apply elem_of_singleton, Hsame; [done..|naive_solver]).
      split; [done|]. assert (H ∖ {[wq_tid x]} = ∅) as -> by set_solver. by rewrite size_empty.
    + assert (HH : H ⊆ {[wq_tid x]}) by (intros t Ht; apply elem_of_singleton, Hsame; [done..|naive_solver]).
      split; [done|]. assert (H ∖ {[wq_tid x]} = ∅) as -> by set_solver. by rewrite size_empty.
  - split; [|done]. exists e0. rewrite lookup_delete_cases. by rewrite decide_True by lia.
Qed.

Lemma record_ok_wr_unlock H c q x :
  record_ok N H RW_WRITER_LOCK c q → wq_tid x ∈ H → q !! 0 = Some x →
  record_ok N (H ∖ {[wq_tid x]}) RW_UNLOCK c (delete 0 q).
Proof.
  intros Hok Hin H0. destruct (rok_status _ _ _ _ _ Hok) as (e & He & Hr & -> & ->). simplify_eq.
  eapply record_ok_leave; [done| |done]. split_and!; [done| |by right]. intros k y Hk. lia.
Qed.

(** A holder does not wait. *)
Lemma held_not_waiting H st c q t b : record_ok N H st c q → t ∈ H → ¬ waits_tid q t b.
Proof.
  intros Hok Ht Hw. destruct (rok_held _ _ _ _ _ Hok t Ht) as (p & e & (Hp & Hr & Hor) & <-).
  assert (Hm : must_wait q p e) by (eapply waits_must_wait; [apply Hok|done|eauto]).
  unfold must_wait in Hm. destruct (is_read e) eqn:Ee; [|destruct Hor; [congruence|lia]].
  destruct Hm as (x & i & Hi & Hx & Hx' & _). rewrite (Hr i x) in Hx'; done.
Qed.
End record.

(** ** Running the accessors *)

Lemma run_read_table {A} r st (f : _ → LT A) s :
  table s !! r = Some st → (read_table r ≫= f) s = f st s.
Proof. intros H. apply bind_Ok. unfold read_table. erewrite bind_Ok by done. unfold id. by rewrite H. Qed.

Lemma run_read_count {A} r c (f : _ → LT A) s :
  readers_count s !! r = Some c → (read_count r ≫= f) s = f c s.
Proof. intros H. apply bind_Ok. unfold read_count. erewrite bind_Ok by done. unfold id. by rewrite H. Qed.

Lemma run_read_queue {A} r q (f : _ → LT A) s :
  record_wait_queues s !! r = Some q → (read_queue r ≫= f) s = f q s.
Proof. intros H. apply bind_Ok. unfold read_queue. erewrite bind_Ok by done. unfold id. by rewrite H. Qed.

Lemma write_table_Ok r st x s :
  table s !! r = Some st → write_table r x s = Ok (tt, set_table (<[r := x]> (table s)) s).
Proof. intros H. unfold write_table. by erewrite run_read_table by done. Qed.

Lemma write_count_Ok r c x s :
  readers_count s !! r = Some c → write_count r x s = Ok (tt, set_readers_count (<[r := x]> (readers_count s)) s).
Proof. intros H. unfold write_count. by erewrite run_read_count by done. Qed.

Lemma write_queue_Ok r q x s :
  record_wait_queues s !! r = Some q →
  write_queue r x s = Ok (tt, set_queues (<[r := x]> (record_wait_queues s)) s).
Proof. intros H. unfold write_queue. by erewrite run_read_queue by done. Qed.

Lemma cond_signal_Ok t s :
  t < length (cond_var s) → pthread_cond_signal t s = Ok (tt, set_cond_var (<[t := false]> (cond_var s)) s).
Proof.
  intros [b Hb]%lookup_lt_is_Some_2. unfold pthread_cond_signal. erewrite bind_Ok by done.
  unfold id. by erewrite deref_Some by done.
Qed.

Lemma cond_wait_Ok t s :
  t < length (cond_var s) → pthread_cond_wait t s = Ok (tt, set_cond_var (<[t := true]> (cond_var s)) s).
Proof.
  intros [b Hb]%lookup_lt_is_Some_2. unfold pthread_cond_wait. erewrite bind_Ok by done.
  unfold id. by erewrite deref_Some by done.
Qed.

Lemma on_graph_Ok {A} (m : M directed_graph A) a g s :
  m (wait_for_graph s) = Ok (a, g) → on_graph m s = Ok (a, set_graph g s).
Proof. apply zoom_Ok. Qed.

Lemma set_graph_id s : set_graph (wait_for_graph s) s = s.
Proof. by destruct s. Qed.

Lemma set_graph_set_graph g g' s : set_graph g (set_graph g' s) = set_graph g s.
Proof. done. Qed.

Create HintDb lock_table.
#[export] Hint Resolve write_table_Ok write_count_Ok write_queue_Ok cond_signal_Ok cond_wait_Ok
  on_graph_Ok : lock_table.
#[export] Hint Resolve list_lookup_insert_eq : lock_table.

(** ** The edge loops of [wrlock] and [wrlock_clear_abort] *)

Section edges.
Context (t : nat).

Lemma for_ahead_readers_add s ahead :
  let G := wait_for_graph s in
  graph_ok G → t < number_of_nodes G → NoDup (tids ahead) →
  (∀ e, e ∈ ahead → wq_tid e < number_of_nodes G ∧ wq_tid e ≠ t ∧ ¬ has_edge G t (wq_tid e)) →
  ∃ G', for_ahead_readers (add_edge t) ahead s = Ok (tt, set_graph G' s) ∧ graph_ok G' ∧
    number_of_nodes G' = number_of_nodes G ∧
    ∀ a b, has_edge G' a b ↔ has_edge G a b ∨ (a = t ∧ ∃ e, e ∈ leading_readers ahead ∧ wq_tid e = b).
Proof.
  revert s. induction ahead as [|e ahead IH]; intros s G Hg Ht Hnd He; simpl.
  { exists (wait_for_graph s). rewrite set_graph_id. split_and!; [done..|set_solver]. }
  destruct (is_read e).
  2: { exists (wait_for_graph s). rewrite set_graph_id. split_and!; [done..|set_solver]. }
  destruct (He e) as (Hlt & Hne & Hno); [set_solver|]. apply NoDup_cons in Hnd as [Hnin Hnd].
  destruct (add_edge_spec G t (wq_tid e)) as (G1 & Ha & Hg1 & Hn1 & He1); [done..|].
  erewrite bind_Ok by eauto with lock_table.
  destruct (IH (set_graph G1 s)) as (G2 & -> & Hg2 & Hn2 & He2); simpl in *.
  - done.
  - by rewrite Hn1.
  - done.
  - intros e' He'. rewrite Hn1, He1. destruct (He e') as (? & ? & ?); [set_solver|]. split_and!; [done..|].
    intros [|[_ Heq]]; [done|]. apply Hnin. rewrite <- Heq. by apply list_elem_of_fmap_2.
  - exists G2. split_and!; [done|done|congruence|]. intros a b. rewrite He2, He1. set_solver.
Qed.

Lemma for_ahead_add s ahead :
  let G := wait_for_graph s in
  graph_ok G → t < number_of_nodes G → NoDup (tids ahead) → ahead ≠ [] →
  (∀ e, e ∈ ahead → wq_tid e < number_of_nodes G ∧ wq_tid e ≠ t ∧ ¬ has_edge G t (wq_tid e)) →
  ∃ G', for_ahead (add_edge t) ahead s = Ok (tt, set_graph G' s) ∧ graph_ok G' ∧
    number_of_nodes G' = number_of_nodes G ∧
    ∀ a b, has_edge G' a b ↔ has_edge G a b ∨ (a = t ∧ ∃ e, e ∈ ahead_set ahead ∧ wq_tid e = b).
Proof.
  intros G Hg Ht Hnd Hne He. destruct ahead as [|e ahead]; [done|].
  unfold for_ahead. erewrite deref_Some by done. unfold ahead_set.
  destruct (is_read e) eqn:Ee; [by apply for_ahead_readers_add|].
  destruct (He e) as (Hlt & Hne' & Hno); [set_solver|].
  destruct (add_edge_spec G t (wq_tid e)) as (G1 & Ha & Hg1 & Hn1 & He1); [done..|].
  erewrite bind_Ok by eauto with lock_table. exists G1. split_and!; [done..|]. set_solver.
Qed.

Lemma for_ahead_readers_remove s ahead :
  let G := wait_for_graph s in
  graph_ok G → NoDup (tids ahead) → (∀ e, e ∈ leading_readers ahead → has_edge G t (wq_tid e)) →
  ∃ G', for_ahead_readers (remove_edge t) ahead s = Ok (tt, set_graph G' s) ∧ graph_ok G' ∧
    number_of_nodes G' = number_of_nodes G ∧
    ∀ a b, has_edge G' a b ↔ has_edge G a b ∧ ¬ (a = t ∧ ∃ e, e ∈ leading_readers ahead ∧ wq_tid e = b).
Proof.
  revert s. induction ahead as [|e ahead IH]; intros s G Hg Hnd He; simpl in *.
  { exists (wait_for_graph s). rewrite set_graph_id. split_and!; [done..|set_solver]. }
  destruct (is_read e).
  2: { exists (wait_for_graph s). rewrite set_graph_id. split_and!; [done..|set_solver]. }
  apply NoDup_cons in Hnd as [Hnin Hnd].
  destruct (remove_edge_spec G t (wq_tid e)) as (G1 & Ha & Hg1 & Hn1 & He1); [done|set_solver|].
  erewrite bind_Ok by eauto with lock_table.
  destruct (IH (set_graph G1 s)) as (G2 & -> & Hg2 & Hn2 & He2); simpl in *.
  - done.
  - done.
  - intros e' He'. apply He1. split; [set_solver|]. intros [_ Heq]. apply Hnin. rewrite <- Heq.
    apply list_elem_of_fmap_2. by apply elem_of_leading_readers in He' as (i & ?%list_elem_of_lookup_2 & _).
  - exists G2. split_and!; [done|done|congruence|]. intros a b. rewrite He2, He1. set_solver.
Qed.

Lemma for_ahead_remove s ahead :
  let G := wait_for_graph s in
  graph_ok G → NoDup (tids ahead) → ahead ≠ [] → (∀ e, e ∈ ahead_set ahead → has_edge G t (wq_tid e)) →
  ∃ G', for_ahead (remove_edge t) ahead s = Ok (tt, set_graph G' s) ∧ graph_ok G' ∧
    number_of_nodes G' = number_of_nodes G ∧
    ∀ a b, has_edge G' a b ↔ has_edge G a b ∧ ¬ (a = t ∧ ∃ e, e ∈ ahead_set ahead ∧ wq_tid e = b).
Proof.
  intros G Hg Hnd Hne He. destruct ahead as [|e ahead]; [done|].
  unfold for_ahead. erewrite deref_Some by done. unfold ahead_set in *.
  destruct (is_read e) eqn:Ee; [by apply for_ahead_readers_remove|].
  destruct (remove_edge_spec G t (wq_tid e)) as (G1 & Ha & Hg1 & Hn1 & He1); [done|set_solver|].
  erewrite bind_Ok by eauto with lock_table. exists G1. split_and!; [done..|]. set_solver.
Qed.
End edges.
