(* ===== verification/LockSpec.v ===== *)
(** Every method of the lock table keeps its invariant and fails no assert.

    The lemmas [rdlock_spec], [wrlock_spec], [rdlock_wakeup_spec],
    [wrlock_wakeup_spec] and [unlock_spec] are what the transactions rely on. *)
From stdpp Require Import functions base tactics numbers option list list_numbers gmap sets relations.
From Stdlib Require Import ZArith Lia.
From S2P Require Import Prelude DirectedGraph LockTable WaitQueue LockInv.

Section spec.
Context (R N : nat).

Notation table_ok := (table_ok R N).
Notation record_ok := (record_ok N).

(** ** The invariant after a change of one record *)

Lemma table_ok_lookup hs s r :
  table_ok hs s → r < R →
  ∃ st c q, table s !! r = Some st ∧ readers_count s !! r = Some c ∧ record_wait_queues s !! r = Some q ∧
    record_ok (hs r) st c q.
Proof.
  intros Hok Hr.
  destruct (lookup_lt_is_Some_2 (table s) r) as [st ?]; [by rewrite (tok_len_table _ _ _ _ Hok)|].
  destruct (lookup_lt_is_Some_2 (readers_count s) r) as [c ?]; [by rewrite (tok_len_count _ _ _ _ Hok)|].
  destruct (lookup_lt_is_Some_2 (record_wait_queues s) r) as [q ?]; [by rewrite (tok_len_queues _ _ _ _ Hok)|].
  exists st, c, q. split_and!; [done..|]. by eapply tok_record.
Qed.

Lemma queue_edges_insert Q r q q' a b :
  Q !! r = Some q →
  queue_edges (<[r := q']> Q) a b ↔ waits_tid q' a b ∨ ∃ r' q1, r' ≠ r ∧ Q !! r' = Some q1 ∧ waits_tid q1 a b.
Proof.
  intros Hq. unfold queue_edges. split.
  - intros (r' & q1 & H1 & Hw). destruct (decide (r' = r)) as [->|Hne].
    + rewrite list_lookup_insert_eq in H1 by (by eapply lookup_lt_Some). left. congruence.
    + rewrite list_lookup_insert_ne in H1 by done. right. eauto.
  - intros [Hw|(r' & q1 & Hne & H1 & Hw)].
    + exists r, q'. split; [|done]. apply list_lookup_insert_eq. by eapply lookup_lt_Some.
    + exists r', q1. split; [|done]. by rewrite list_lookup_insert_ne.
Qed.

Lemma table_ok_change hs s r st c q H' st' c' q' V' G' :
  table_ok hs s →
  table s !! r = Some st → readers_count s !! r = Some c → record_wait_queues s !! r = Some q →
  record_ok H' st' c' q' →
  graph_ok G' → number_of_nodes G' = N → acyclic G' →
  (∀ a b, has_edge G' a b ↔ queue_edges (<[r := q']> (record_wait_queues s)) a b) →
  (∀ a b, waits_tid q' a b →
     (∃ b', waits_tid q a b') ∨ ∀ b', ¬ queue_edges (record_wait_queues s) a b') →
  length V' = N →
  (∀ t, V' !! t = Some true → ∃ b, queue_edges (<[r := q']> (record_wait_queues s)) t b) →
  table_ok (<[r := H']> hs)
    (mk_lock_table (<[r := st']> (table s)) (<[r := c']> (readers_count s))
       (<[r := q']> (record_wait_queues s)) V' G').
Proof.
  intros Hok Hst Hc Hq Hrec Hg Hn Ha He Hone HV Hsl. split; simpl; try done.
  - apply Hok.
  - rewrite length_insert. apply Hok.
  - rewrite length_insert. apply Hok.
  - rewrite length_insert. apply Hok.
  - intros r' st1 c1 q1. destruct (decide (r' = r)) as [->|Hne].
    + rewrite !list_lookup_insert_eq by (by eapply lookup_lt_Some).
      intros [= <-] [= <-] [= <-]. by rewrite fn_lookup_insert.
    + rewrite !list_lookup_insert_ne, fn_lookup_insert_ne by done. by eapply tok_record.
  - assert (Hq' : ∀ r1 q1, <[r := q']> (record_wait_queues s) !! r1 = Some q1 →
             (r1 = r ∧ q1 = q') ∨ (r1 ≠ r ∧ record_wait_queues s !! r1 = Some q1)).
    { intros r1 q1 H1. destruct (decide (r1 = r)) as [->|Hne].
      - rewrite list_lookup_insert_eq in H1 by (by eapply lookup_lt_Some). left. split; congruence.
      - rewrite list_lookup_insert_ne in H1 by done. by right. }
    intros a r1 q1 b1 r2 q2 b2 [[-> ->]|[Hne1 H1]]%Hq' Hw1 [[-> ->]|[Hne2 H2]]%Hq' Hw2; [done|..].
    + destruct (Hone _ _ Hw1) as [[b' Hw]|Hno]; [by eapply (tok_one _ _ _ _ Hok a r q b')|].
      exfalso. apply (Hno b2). by exists r2, q2.
    + destruct (Hone _ _ Hw2) as [[b' Hw]|Hno]; [by eapply (tok_one _ _ _ _ Hok a r1 q1 b1 r q b')|].
      exfalso. apply (Hno b1). by exists r1, q1.
    + by eapply (tok_one _ _ _ _ Hok a r1 q1 b1 r2 q2 b2).
Qed.

(** The lock status and the reader count of one record. *)
Lemma table_ok_acquire hs s r st c q H' st' c' :
  table_ok hs s →
  table s !! r = Some st → readers_count s !! r = Some c → record_wait_queues s !! r = Some q →
  record_ok H' st' c' q →
  table_ok (<[r := H']> hs)
    (set_table (<[r := st']> (table s)) (set_readers_count (<[r := c']> (readers_count s)) s)).
Proof.
  intros Hok Hst Hc Hq Hrec.
  assert (HQ : <[r := q]> (record_wait_queues s) = record_wait_queues s) by (by apply list_insert_id).
  assert (H := table_ok_change hs s r st c q H' st' c' q (cond_var s) (wait_for_graph s) Hok Hst Hc Hq Hrec).
  rewrite HQ in H. apply H; try apply Hok. intros a b Hw. left. eauto.
Qed.

(** A graph with the same edges, and another set of sleeping threads. *)
Lemma table_ok_edges hs s V' G' :
  table_ok hs s → graph_ok G' → number_of_nodes G' = N →
  (∀ a b, has_edge G' a b ↔ has_edge (wait_for_graph s) a b) →
  length V' = N → (∀ t, V' !! t = Some true → ∃ b, queue_edges (record_wait_queues s) t b) →
  table_ok hs (set_graph G' (set_cond_var V' s)).
Proof.
  intros Hok Hg Hn He HV Hsl. split; simpl; try done; try apply Hok.
  - eapply acyclic_subgraph; [apply Hok|]. intros a b. by rewrite He.
  - intros a b. rewrite He. apply Hok.
Qed.

Lemma sleep_signal (P : nat → Prop) (V : list bool) t :
  (∀ u, V !! u = Some true → P u) → ∀ u, <[t := false]> V !! u = Some true → P u.
Proof.
  intros H u. rewrite list_lookup_insert. case_decide; [done|]. apply H.
Qed.

Lemma sleep_wait (P : nat → Prop) (V : list bool) t :
  (∀ u, V !! u = Some true → P u) → P t → ∀ u, <[t := true]> V !! u = Some true → P u.
Proof.
  intros H Ht u. rewrite list_lookup_insert. case_decide as Hu; [by destruct Hu; subst|]. apply H.
Qed.

Lemma table_ok_wait hs s t b :
  table_ok hs s → queue_edges (record_wait_queues s) t b →
  table_ok hs (set_cond_var (<[t := true]> (cond_var s)) s).
Proof.
  intros Hok Hb. rewrite <- (set_graph_id (set_cond_var _ s)). apply table_ok_edges; simpl; try done; try apply Hok.
  - rewrite length_insert. apply Hok.
  - apply sleep_wait; [apply Hok|eauto].
Qed.

(** ** Taking a granted lock *)

Lemma rdlock_acquire_spec hs s r q p e :
  table_ok hs s → r < R → record_wait_queues s !! r = Some q → q !! p = Some e → is_read e = true →
  all_readers_before q p → wq_tid e ∉ hs r →
  ∃ s', rdlock_acquire r s = Ok (tt, s') ∧ table_ok (<[r := {[wq_tid e]} ∪ hs r]> hs) s' ∧
    record_wait_queues s' = record_wait_queues s ∧ cond_var s' = cond_var s.
Proof.
  intros Hok Hr Hq Hp He Hall Hnin.
  destruct (table_ok_lookup hs s r Hok Hr) as (st & c & q0 & Hst & Hc & Hq0 & Hrec). simplify_eq.
  eexists. split_and!.
  - unfold rdlock_acquire. erewrite run_read_count by done.
    erewrite bind_Ok by eauto with lock_table. by apply (write_table_Ok r st).
  - apply (table_ok_acquire hs s r st c q _ RW_READER_LOCK (wrap_u32 (c + 1))); [done..|].
    eapply record_ok_read; eauto. apply Hok.
  - done.
  - done.
Qed.

Lemma wrlock_acquire_spec hs s r q e :
  table_ok hs s → r < R → record_wait_queues s !! r = Some q → q !! 0 = Some e → is_read e = false →
  wq_tid e ∉ hs r →
  ∃ s', wrlock_acquire (wq_tid e) r s = Ok (tt, s') ∧ table_ok (<[r := {[wq_tid e]}]> hs) s' ∧
    record_wait_queues s' = record_wait_queues s ∧ cond_var s' = cond_var s ∧ hs r = ∅.
Proof.
  intros Hok Hr Hq Hp He Hnin.
  destruct (table_ok_lookup hs s r Hok Hr) as (st & c & q0 & Hst & Hc & Hq0 & Hrec). simplify_eq.
  destruct (record_free_for_writer _ _ _ _ _ _ Hrec Hp He Hnin) as (-> & -> & Hh).
  eexists. split_and!.
  - unfold wrlock_acquire. erewrite run_read_table by done. rewrite !assert_true by done.
    erewrite run_read_count by done. rewrite assert_true by done.
    erewrite run_read_queue by done. erewrite deref_Some by done.
    rewrite assert_true by apply Nat.eqb_refl. by apply (write_table_Ok r RW_UNLOCK).
  - assert (H := table_ok_acquire hs s r _ _ q {[wq_tid e]} RW_WRITER_LOCK 0%Z Hok Hst Hc Hq).
    rewrite (list_insert_id (readers_count s)) in H by done. apply H. by eapply record_ok_write.
  - done.
  - done.
  - done.
Qed.

(** ** The queue searches *)

Lemma before_self H st c q p e :
  record_ok H st c q → q !! p = Some e →
  0 < wq_tid e < N ∧
  ∀ k x, k < p → q !! k = Some x → wq_tid x ≠ wq_tid e ∧ wq_phase x ≠ INVALID ∧ wq_tid x ≠ 0.
Proof.
  intros Hrec Hp. assert (He := rok_elem _ _ _ _ _ Hrec). split.
  - by apply He, (list_elem_of_lookup_2 _ p).
  - intros k x Hk Hx. destruct (He x) as [? Hph]; [by eapply list_elem_of_lookup_2|]. split_and!.
    + intros Heq. assert (k = p); [|lia]. eapply tids_inj; eauto. apply Hrec.
    + intros Hi. unfold lockable in Hph. rewrite Hi in Hph. naive_solver.
    + lia.
Qed.

Lemma find_ahead_writer_spec H st c s r q p e :
  record_ok H st c q → record_wait_queues s !! r = Some q → q !! p = Some e →
  (find_ahead_writer (wq_tid e) r s = Ok (0, s) ∧ all_readers_before q p) ∨
  (∃ x, find_ahead_writer (wq_tid e) r s = Ok (wq_tid x, s) ∧ wq_tid x ≠ 0 ∧ last_writer_before q p x).
Proof.
  intros Hrec Hq Hp. destruct (before_self H st c q p e Hrec Hp) as (Ht & Hb).
  unfold find_ahead_writer. erewrite run_read_queue by done.
  destruct (find_ahead_writer_loop_spec (wq_tid e) q 0 p e s) as [[Hl Hall]|(x & Hl & Hx)].
  - done.
  - done.
  - intros k x Hk Hx. destruct (Hb k x Hk Hx) as (? & ? & ?). done.
  - left. split; [|done]. erewrite bind_Ok by done; cbv beta iota.
    rewrite !assert_true; [done|apply negb_true_iff, Nat.eqb_neq; lia|done].
  - right. exists x. destruct Hx as (i & Hi & Hx & Hw & Hbt). destruct (Hb i x Hi Hx) as (Hne & _ & Hz).
    split_and!; [|done|by exists i]. erewrite bind_Ok by done; cbv beta iota.
    rewrite !assert_true; [done|by apply negb_true_iff, Nat.eqb_neq|done].
Qed.

Lemma find_ahead_spec H st c s r q p e :
  record_ok H st c q → record_wait_queues s !! r = Some q → q !! p = Some e →
  (find_ahead_reader_or_writer (wq_tid e) r s = Ok (0, s) ∧ p = 0) ∨
  (∃ w, find_ahead_reader_or_writer (wq_tid e) r s = Ok (w, s) ∧ w ≠ 0 ∧ 0 < p).
Proof.
  intros Hrec Hq Hp. destruct (before_self H st c q p e Hrec Hp) as (Ht & Hb).
  unfold find_ahead_reader_or_writer. erewrite run_read_queue by done.
  destruct (find_ahead_loop_spec (wq_tid e) q 0 p e s) as (w & Hl & Hw).
  - done.
  - done.
  - intros k x Hk Hx. destruct (Hb k x Hk Hx) as (? & ? & ?). done.
  - case_decide as Hp0.
    + left. split; [|done]. erewrite bind_Ok by done; cbv beta iota. subst w.
      rewrite !assert_true; [done|apply negb_true_iff, Nat.eqb_neq; lia|done].
    + right. destruct Hw as (x & Hx & ->). destruct (Hb (p - 1) x) as (Hne & _ & Hz); [lia|done|].
      exists (wq_tid x). split_and!; [|done|lia]. erewrite bind_Ok by done; cbv beta iota.
      rewrite !assert_true; [done|by apply negb_true_iff, Nat.eqb_neq|done].
Qed.

Lemma queue_record_ok hs s r q :
  table_ok hs s → record_wait_queues s !! r = Some q → ∃ st c,
    table s !! r = Some st ∧ readers_count s !! r = Some c ∧ record_ok (hs r) st c q.
Proof.
  intros Hok Hq. assert (r < R).
  { rewrite <- (tok_len_queues _ _ _ _ Hok). by eapply lookup_lt_Some. }
  destruct (table_ok_lookup hs s r) as (st & c & q0 & ? & ? & ? & ?); [done..|]. simplify_eq. eauto.
Qed.

Lemma must_wait_edge hs s r q p e :
  table_ok hs s → r < R → record_wait_queues s !! r = Some q → q !! p = Some e → must_wait q p e →
  ∃ b, queue_edges (record_wait_queues s) (wq_tid e) b.
Proof.
  intros Hok Hr Hq Hp Hm. destruct (queue_record_ok hs s r q Hok Hq) as (st & c & _ & _ & Hrec).
  apply waits_must_wait in Hm as [b Hb]; [|apply Hrec|done]. exists b. by exists r, q.
Qed.

(** ** Waking up

    What a locking method leaves behind: the lock is taken and the thread is
    one of its holders, or the thread sleeps and the holders are the same. *)

Definition granted (hs : nat → gset nat) (r t : nat) (res : lock_result) : nat → gset nat :=
  if decide (res = LOCKED) then <[r := {[t]} ∪ hs r]> hs else hs.

Lemma wait_again hs s r q p e :
  table_ok hs s → r < R → record_wait_queues s !! r = Some q → q !! p = Some e → must_wait q p e →
  ∃ s', pthread_cond_wait (wq_tid e) s = Ok (tt, s') ∧ table_ok hs s' ∧
    record_wait_queues s' = record_wait_queues s ∧ cond_var s' !! wq_tid e = Some true.
Proof.
  intros Hok Hr Hq Hp Hm. destruct (queue_record_ok hs s r q Hok Hq) as (st & c & _ & _ & Hrec).
  destruct (before_self _ _ _ q p e Hrec Hp) as ([_ Ht] & _).
  rewrite <- (tok_len_cond _ _ _ _ Hok) in Ht.
  destruct (must_wait_edge hs s r q p e) as [b Hb]; [done..|].
  eexists. split_and!; [by apply cond_wait_Ok|by eapply table_ok_wait|done|].
  simpl. by apply list_lookup_insert_eq.
Qed.

Lemma rdlock_wakeup_spec hs s r q p e :
  table_ok hs s → r < R → record_wait_queues s !! r = Some q → q !! p = Some e →
  is_read e = true → wq_tid e ∉ hs r →
  ∃ res s', rdlock_wakeup (wq_tid e) r s = Ok (res, s') ∧ res ≠ ABORTED ∧
    table_ok (granted hs r (wq_tid e) res) s' ∧ record_wait_queues s' = record_wait_queues s ∧
    (res = SLEEPING → cond_var s' !! wq_tid e = Some true) ∧ (res = LOCKED → cond_var s' = cond_var s).
Proof.
  intros Hok Hr Hq Hp He Hnin. unfold rdlock_wakeup, granted.
  destruct (queue_record_ok hs s r q Hok Hq) as (st & c & _ & _ & Hrec).
  destruct (find_ahead_writer_spec _ _ _ s r q p e Hrec) as [[Hl Hall]|(x & Hl & Hx & Hw)]; [done..| |];
    erewrite bind_Ok by done.
  - destruct (rdlock_acquire_spec hs s r q p e) as (s' & Ha & Hok' & HQ & HV); [done..|].
    exists LOCKED, s'. simpl. erewrite bind_Ok by done. done.
  - assert (Hm : must_wait q p e) by (unfold must_wait; rewrite He; by exists x).
    destruct (wait_again hs s r q p e) as (s' & Ha & Hok' & HQ & HV); [done..|].
    exists SLEEPING, s'. rewrite (proj2 (Nat.eqb_neq _ _)) by done. simpl. erewrite bind_Ok by done. done.
Qed.

Lemma wrlock_wakeup_spec hs s r q p e :
  table_ok hs s → r < R → record_wait_queues s !! r = Some q → q !! p = Some e →
  is_read e = false → wq_tid e ∉ hs r →
  ∃ res s', wrlock_wakeup (wq_tid e) r s = Ok (res, s') ∧ res ≠ ABORTED ∧
    table_ok (granted hs r (wq_tid e) res) s' ∧ record_wait_queues s' = record_wait_queues s ∧
    (res = SLEEPING → cond_var s' !! wq_tid e = Some true) ∧ (res = LOCKED → cond_var s' = cond_var s).
Proof.
  intros Hok Hr Hq Hp He Hnin. unfold wrlock_wakeup, granted.
  destruct (queue_record_ok hs s r q Hok Hq) as (st & c & _ & _ & Hrec).
  destruct (find_ahead_spec _ _ _ s r q p e Hrec) as [[Hl ->]|(w & Hl & Hw & Hpos)]; [done..| |];
    erewrite bind_Ok by done.
  - destruct (wrlock_acquire_spec hs s r q e) as (s' & Ha & Hok' & HQ & HV & Hh); [done..|].
    exists LOCKED, s'. simpl. erewrite bind_Ok by done. rewrite Hh, union_empty_r_L. done.
  - assert (Hm : must_wait q p e) by (unfold must_wait; by rewrite He).
    destruct (wait_again hs s r q p e) as (s' & Ha & Hok' & HQ & HV); [done..|].
    exists SLEEPING, s'. rewrite (proj2 (Nat.eqb_neq _ _)) by done. simpl. erewrite bind_Ok by done. done.
Qed.

(** ** Joining a queue *)

Lemma table_ok_ext hs hs' s : (∀ r, hs r = hs' r) → table_ok hs s → table_ok hs' s.
Proof.
  intros Heq [? ? ? ? ? ? ? ? Hrec ? ? ?]. split; try done.
  intros r st c q ???. rewrite <- Heq. by eapply Hrec.
Qed.

Lemma waits_tid_snoc q me a b :
  waits_tid (q ++ [me]) a b ↔
  waits_tid q a b ∨ (a = wq_tid me ∧ ∃ eb, tail_waits q (is_read me) eb ∧ wq_tid eb = b).
Proof.
  unfold waits_tid. setoid_rewrite waits_snoc. split.
  - intros (et & eb & [?|[-> ?]] & <- & <-); [left; eauto|right; eauto].
  - intros [(et & eb & ? & <- & <-)|(-> & eb & ? & <-)]; eauto 10.
Qed.

Lemma queue_edges_append Q r q me a b :
  Q !! r = Some q →
  queue_edges (<[r := q ++ [me]]> Q) a b ↔
  queue_edges Q a b ∨ (a = wq_tid me ∧ ∃ eb, tail_waits q (is_read me) eb ∧ wq_tid eb = b).
Proof.
  intros Hq. rewrite queue_edges_insert, waits_tid_snoc by done. split.
  - intros [[Hw|Hw]|(r' & q1 & _ & ? & ?)]; [left; by exists r, q|by right|left; by exists r', q1].
  - intros [(r' & q1 & H1 & Hw)|Hw]; [|by auto].
    destruct (decide (r' = r)) as [->|Hne]; [simplify_eq; by auto|right; eauto].
Qed.

(** A thread that waits nowhere joins the queue of [r], with its edges. *)
Lemma table_ok_append hs s r q me G' :
  table_ok hs s → record_wait_queues s !! r = Some q →
  0 < wq_tid me < N → lockable (wq_phase me) → wq_tid me ∉ tids q →
  (∀ b, ¬ queue_edges (record_wait_queues s) (wq_tid me) b) →
  graph_ok G' → number_of_nodes G' = N →
  (∀ a b, has_edge G' a b ↔ has_edge (wait_for_graph s) a b ∨
     (a = wq_tid me ∧ ∃ eb, tail_waits q (is_read me) eb ∧ wq_tid eb = b)) →
  ¬ tc (has_edge G') (wq_tid me) (wq_tid me) →
  table_ok hs (set_graph G' (set_queues (<[r := q ++ [me]]> (record_wait_queues s)) s)).
Proof.
  intros Hok Hq Ht Hph Hnin Hno Hg Hn He Hcyc.
  destruct (queue_record_ok hs s r q Hok Hq) as (st & c & Hst & Hc & Hrec).
  apply table_ok_ext with (<[r := hs r]> hs).
  { intros r'. destruct (decide (r' = r)) as [->|]; [by rewrite fn_lookup_insert|by rewrite fn_lookup_insert_ne]. }
  assert (H := table_ok_change hs s r st c q (hs r) st c (q ++ [me]) (cond_var s) G' Hok Hst Hc Hq).
  rewrite (list_insert_id (table s)), (list_insert_id (readers_count s)) in H by done. apply H; try done.
  - destruct me. by apply record_ok_append.
  - eapply acyclic_extend; [apply Hok| |done]. intros a b. rewrite He. naive_solver.
  - intros a b. rewrite He, queue_edges_append, (tok_edges _ _ _ _ Hok) by done. done.
  - intros a b [Hw|[-> _]]%waits_tid_snoc; [left; eauto|by right].
  - apply Hok.
  - intros t [b Hb]%(tok_sleep _ _ _ _ Hok). exists b. apply queue_edges_append; auto.
Qed.

(** The victim of a deadlock leaves the queue as it found it. *)
Lemma table_ok_aborted hs s r q q' w G' :
  table_ok hs s → record_wait_queues s !! r = Some q → graph_ok G' → number_of_nodes G' = N →
  (∀ a b, has_edge G' a b ↔ has_edge (wait_for_graph s) a b) →
  table_ok hs (mk_lock_table (table s) (readers_count s) (<[r := q]> (<[r := q']> (record_wait_queues s)))
                 (<[w := false]> (cond_var s)) G').
Proof.
  intros Hok Hq Hg Hn He. rewrite list_insert_insert_eq, list_insert_id by done.
  apply (table_ok_edges hs s (<[w := false]> (cond_var s)) G'); try done.
  - etrans; [apply length_insert|apply Hok].
  - apply sleep_signal, Hok.
Qed.

Lemma signal_waiter_Ok s t c :
  graph_ok (wait_for_graph s) → number_of_nodes (wait_for_graph s) = length (cond_var s) →
  get_cycle (wait_for_graph s) t = Ok c → c ≠ [] →
  ∃ w, signal_waiter t s = Ok (tt, set_cond_var (<[w := false]> (cond_var s)) s).
Proof.
  intros Hg Hn Hc Hne. destruct (get_cycle_cons _ _ _ Hg Hc Hne) as [Hw _].
  destruct (cycle_front _ _ _ Hg Hw Hne) as (w & c' & -> & He). exists w.
  unfold signal_waiter. erewrite bind_Ok by (unfold is_deadlock_exist; by rewrite Hc). cbv beta iota.
  rewrite assert_true by done. erewrite deref_Some by done.
  rewrite assert_true by apply Nat.eqb_refl. erewrite deref_Some by done.
  apply cond_signal_Ok. rewrite <- Hn. by eapply has_edge_source.
Qed.

Lemma find_tid_last t ph q : t ∉ tids q → find_tid t (q ++ [mk_wait_q_elem t ph]) = length q.
Proof.
  induction q as [|e q IH]; simpl; intros Hnin; [by rewrite Nat.eqb_refl|].
  rewrite (proj2 (Nat.eqb_neq _ _)) by set_solver. simpl. f_equal. apply IH. set_solver.
Qed.

Lemma delete_last q (me : wait_q_elem_t) : delete (length q) (q ++ [me]) = q.
Proof. by rewrite delete_middle, app_nil_r. Qed.

Lemma not_queued_not_held hs s r q t :
  table_ok hs s → record_wait_queues s !! r = Some q → t ∉ tids q → t ∉ hs r.
Proof.
  intros Hok Hq Hnin Ht. destruct (queue_record_ok hs s r q Hok Hq) as (st & c & _ & _ & Hrec).
  destruct (rok_held _ _ _ _ _ Hrec t Ht) as (p & e & (Hp & _) & <-).
  apply Hnin, elem_of_tids. eauto.
Qed.

(** ** [rdlock] *)

Lemma rdlock_abort hs s r q t x G' c :
  table_ok hs s → record_wait_queues s !! r = Some q → t ∉ tids q →
  find_writer (rev q) = Some x → ¬ has_edge (wait_for_graph s) t (wq_tid x) →
  graph_ok G' → number_of_nodes G' = N →
  (∀ a b, has_edge G' a b ↔ has_edge (wait_for_graph s) a b ∨ (a = t ∧ b = wq_tid x)) →
  get_cycle G' t = Ok c → c ≠ [] →
  ∃ s', rdlock_clear_abort t r (set_graph G' (set_queues (<[r := q ++ [mk_wait_q_elem t READ]]> (record_wait_queues s)) s)) = Ok (tt, s') ∧
    table_ok hs s' ∧ record_wait_queues s' = record_wait_queues s.
Proof.
  intros Hok Hq Hnin Hx Hnew Hg Hn He Hc Hne. set (me := mk_wait_q_elem t READ).
  set (s2 := set_graph G' (set_queues (<[r := q ++ [me]]> (record_wait_queues s)) s)).
  assert (Hlt : r < length (record_wait_queues s)) by (by eapply lookup_lt_Some).
  assert (Hq2 : record_wait_queues s2 !! r = Some (q ++ [me])) by (by apply list_lookup_insert_eq).
  destruct (signal_waiter_Ok s2 t c) as [w Hw]; [done| |done..|].
  { simpl. rewrite Hn. symmetry. apply Hok. }
  destruct (remove_edge_spec G' t (wq_tid x)) as (G2 & Hr & Hg2 & Hn2 & He2); [done|by apply He; auto|].
  eexists. split_and!.
  - unfold rdlock_clear_abort. erewrite run_read_queue by done.
    rewrite assert_true by (rewrite length_app; simpl; by rewrite Nat.add_1_r).
    erewrite bind_Ok by done. unfold me. rewrite !find_tid_last by done.
    rewrite length_app; simpl. rewrite !assert_true.
    2: { apply Nat.eqb_eq. lia. }
    2: { apply negb_true_iff, Nat.eqb_neq. lia. }
    rewrite rev_app_distr. simpl. rewrite drop_0, Hx.
    erewrite bind_Ok by (erewrite bind_Ok by (by apply on_graph_Ok); done).
    fold me. rewrite delete_last. by apply (write_queue_Ok r (q ++ [me])).
  - apply (table_ok_aborted hs s r q (q ++ [me]) w G2); [done|done|done|congruence|].
    intros a b. rewrite He2, He. naive_solver.
  - simpl. by rewrite list_insert_insert_eq, list_insert_id.
Qed.

(** The thread joins the queue and takes the lock at once. *)
Lemma rdlock_free hs s r q t :
  let me := mk_wait_q_elem t READ in
  let s1 := set_queues (<[r := q ++ [me]]> (record_wait_queues s)) s in
  table_ok hs s → record_wait_queues s !! r = Some q → 0 < t < N → t ∉ tids q →
  (∀ b, ¬ queue_edges (record_wait_queues s) t b) →
  all_readers_before (q ++ [me]) (length q) →
  ∃ s', rdlock_acquire r s1 = Ok (tt, s') ∧ table_ok (<[r := {[t]} ∪ hs r]> hs) s' ∧
    record_wait_queues s' = record_wait_queues s1.
Proof.
  intros me s1 Hok Hq Ht Hnin Hno Hall.
  assert (Hlt : r < length (record_wait_queues s)) by (by eapply lookup_lt_Some).
  assert (Hok1 : table_ok hs s1).
  { rewrite <- (set_graph_id s1). apply table_ok_append; try done; [by left|apply Hok|apply Hok| |].
    - intros a b. split; [by left|]. intros [|(_ & eb & (i & Hi & Hb & Hw) & _)]; [done|].
      rewrite (Hall i eb) in Hw; [done|by eapply lookup_lt_Some|by apply lookup_app_l_Some].
    - apply Hok. }
  destruct (rdlock_acquire_spec hs s1 r (q ++ [me]) (length q) me) as (s' & ? & ? & ? & _); eauto.
  - by rewrite <- (tok_len_queues _ _ _ _ Hok).
  - by apply list_lookup_insert_eq.
  - by apply list_lookup_middle.
  - by apply (not_queued_not_held hs s r q).
Qed.

(** The thread joins the queue behind the writer [x]: it sleeps, or finds the
    deadlock and leaves. *)
Lemma rdlock_block hs s r q t x :
  let me := mk_wait_q_elem t READ in
  let s1 := set_queues (<[r := q ++ [me]]> (record_wait_queues s)) s in
  table_ok hs s → record_wait_queues s !! r = Some q → 0 < t < N → t ∉ tids q →
  (∀ b, ¬ queue_edges (record_wait_queues s) t b) →
  last_writer_before (q ++ [me]) (length q) x →
  ∃ res cm' s',
    (_ ← on_graph (add_edge t (wq_tid x));
     '(deadlock, cycle_member) ← is_deadlock_exist t;
     if (deadlock : bool) then _ ← rdlock_clear_abort t r; mret (ABORTED, cycle_member)
     else _ ← pthread_cond_wait t; mret (SLEEPING, cycle_member)) s1 = Ok ((res, cm'), s') ∧
    table_ok (granted hs r t res) s' ∧
    record_wait_queues s' =
      (if decide (res = ABORTED) then record_wait_queues s else record_wait_queues s1) ∧
    (res = SLEEPING → cond_var s' !! t = Some true).
Proof.
  intros me s1 Hok Hq Ht Hnin Hno (i & Hi & Hx & Hw & Hb).
  assert (Hlt : r < length (record_wait_queues s)) by (by eapply lookup_lt_Some).
  destruct (queue_record_ok hs s r q Hok Hq) as (st & c & Hst & Hc & Hrec).
  rewrite lookup_app_l in Hx by done. apply readers_between_app in Hb; [|done].
  assert (Hxf : find_writer (rev q) = Some x) by (apply tail_waits_find_writer; by exists i).
  assert (Hxq : x ∈ q) by (by eapply list_elem_of_lookup_2).
  assert (Hnew : ¬ has_edge (wait_for_graph s) t (wq_tid x)) by (rewrite (tok_edges _ _ _ _ Hok); apply Hno).
  destruct (add_edge_spec (wait_for_graph s) t (wq_tid x)) as (G1 & Ha & Hg1 & Hn1 & He1);
    rewrite ?(tok_nodes _ _ _ _ Hok) in *; [apply Hok| |lia|by apply (rok_elem _ _ _ _ _ Hrec)|done|].
  { intros ->. by apply Hnin, list_elem_of_fmap_2. }
  erewrite bind_Ok by (by apply on_graph_Ok).
  destruct (get_cycle_total G1 t) as [cyc Hcyc]; [done|lia|].
  erewrite bind_Ok by (unfold is_deadlock_exist; simpl; by rewrite Hcyc). cbv beta iota.
  destruct (decide (cyc = [])) as [->|Hne].
  - set (s2 := set_graph G1 s1). assert (Hok2 : table_ok hs s2).
    { apply table_ok_append; try done; [by left| |by apply get_cycle_nil].
      intros a b. rewrite He1. change (is_read me) with true.
      setoid_rewrite tail_waits_find_writer. rewrite Hxf. clear. naive_solver. }
    destruct (wait_again hs s2 r (q ++ [me]) (length q) me) as (s' & Hs' & Hok' & HQ & HV).
    + done.
    + by rewrite <- (tok_len_queues _ _ _ _ Hok).
    + by apply list_lookup_insert_eq.
    + by apply list_lookup_middle.
    + unfold must_wait. simpl. exists x, i. split_and!; [done|by apply lookup_app_l_Some|done|].
      by apply readers_between_app.
    + exists SLEEPING, [], s'. simpl. erewrite bind_Ok by done. split_and!; done.
  - destruct (rdlock_abort hs s r q t x G1 cyc) as (s' & Hs' & Hok' & HQ); [done..|].
    exists ABORTED, cyc, s'. destruct cyc as [|y cyc]; [done|]. simpl.
    erewrite bind_Ok by done. split_and!; done.
Qed.

Lemma rdlock_spec hs s r q t cm :
  table_ok hs s → record_wait_queues s !! r = Some q → 0 < t < N → t ∉ tids q →
  (∀ b, ¬ queue_edges (record_wait_queues s) t b) →
  ∃ res cm' s', rdlock t r cm s = Ok ((res, cm'), s') ∧ table_ok (granted hs r t res) s' ∧
    record_wait_queues s' =
      (if decide (res = ABORTED) then record_wait_queues s
       else <[r := q ++ [mk_wait_q_elem t READ]]> (record_wait_queues s)) ∧
    (res = SLEEPING → cond_var s' !! t = Some true).
Proof.
  intros Hok Hq Ht Hnin Hno. set (me := mk_wait_q_elem t READ).
  destruct (queue_record_ok hs s r q Hok Hq) as (st & c & Hst & Hc & Hrec).
  assert (Hrec' : record_ok (hs r) st c (q ++ [me])) by (apply record_ok_append; [done..|by left|done]).
  assert (Hlt : r < length (record_wait_queues s)) by (by eapply lookup_lt_Some).
  set (s1 := set_queues (<[r := q ++ [me]]> (record_wait_queues s)) s).
  assert (Hq1 : record_wait_queues s1 !! r = Some (q ++ [me])) by (by apply list_lookup_insert_eq).
  assert (Hme : (q ++ [me]) !! length q = Some me) by (by apply list_lookup_middle).
  assert (Hl : length (q ++ [me]) = S (length q)) by (rewrite length_app; simpl; lia).
  unfold rdlock. erewrite run_read_queue by done. erewrite bind_Ok by eauto with lock_table.
  erewrite run_read_queue by done. fold me; fold s1. rewrite Hl, assert_true by (apply Nat.leb_le; lia).
  destruct (Nat.eqb_spec (S (length q)) 1) as [H1|H1].
  { destruct (rdlock_free hs s r q t) as (s' & Ha & Hok' & HQ); [done..|intros k x Hk; lia|].
    exists LOCKED, cm, s'. erewrite bind_Ok by done. split_and!; done. }
  rewrite assert_true by (apply Nat.ltb_lt; lia).
  destruct (find_ahead_writer_spec _ _ _ s1 r _ _ me Hrec' Hq1 Hme) as [[Hf Hall]|(x & Hf & Hx0 & Hx)];
    erewrite bind_Ok by done.
  - destruct (rdlock_free hs s r q t) as (s' & Ha & Hok' & HQ); [done..|].
    exists LOCKED, cm, s'. simpl. erewrite bind_Ok by done. split_and!; done.
  - rewrite (proj2 (Nat.eqb_neq _ _)) by done. by apply (rdlock_block hs s r q t x).
Qed.

(** ** [wrlock] *)

Definition is_writer (ph : phase_t) : Prop := ph = FIRST_WRITE ∨ ph = SECOND_WRITE.

Lemma is_writer_lockable ph : is_writer ph → lockable ph.
Proof. unfold is_writer, lockable. tauto. Qed.

Lemma is_writer_not_read t ph : is_writer ph → is_read (mk_wait_q_elem t ph) = false.
Proof. by intros [-> | ->]. Qed.

Lemma ahead_set_subset ahead e : e ∈ ahead_set ahead → e ∈ ahead.
Proof.
  destruct ahead as [|x ahead]; [set_solver|]. unfold ahead_set. destruct (is_read x); [|set_solver].
  intros (i & ? & _)%elem_of_leading_readers. by eapply list_elem_of_lookup_2.
Qed.

Lemma NoDup_tids_rev q : NoDup (tids q) → NoDup (tids (rev q)).
Proof. unfold tids. rewrite map_rev. by rewrite <- (Permutation_rev (map wq_tid q)). Qed.

Lemma rev_snoc_tail q (me : wait_q_elem_t) : drop 1 (rev (q ++ [me])) = rev q.
Proof. by rewrite rev_app_distr. Qed.

Lemma rev_nonempty (q : list wait_q_elem_t) : q ≠ [] → rev q ≠ [].
Proof. destruct q; [done|]. simpl. by destruct (rev q). Qed.

Lemma wrlock_abort hs s r q t ph G' c :
  let me := mk_wait_q_elem t ph in
  table_ok hs s → record_wait_queues s !! r = Some q → t ∉ tids q → q ≠ [] →
  (∀ b, ¬ queue_edges (record_wait_queues s) t b) →
  graph_ok G' → number_of_nodes G' = N →
  (∀ a b, has_edge G' a b ↔ has_edge (wait_for_graph s) a b ∨
     (a = t ∧ ∃ e, e ∈ ahead_set (rev q) ∧ wq_tid e = b)) →
  get_cycle G' t = Ok c → c ≠ [] →
  ∃ s', wrlock_clear_abort t r (set_graph G' (set_queues (<[r := q ++ [me]]> (record_wait_queues s)) s)) = Ok (tt, s') ∧
    table_ok hs s' ∧ record_wait_queues s' = record_wait_queues s.
Proof.
  intros me Hok Hq Hnin Hqne Hno Hg Hn He Hc Hne.
  set (s2 := set_graph G' (set_queues (<[r := q ++ [me]]> (record_wait_queues s)) s)).
  destruct (queue_record_ok hs s r q Hok Hq) as (st & cnt & Hst & Hcnt & Hrec).
  assert (Hlt : r < length (record_wait_queues s)) by (by eapply lookup_lt_Some).
  assert (Hq2 : record_wait_queues s2 !! r = Some (q ++ [me])) by (by apply list_lookup_insert_eq).
  assert (Hl : length (q ++ [me]) = S (length q)) by (rewrite length_app; simpl; lia).
  destruct (signal_waiter_Ok s2 t c) as [w Hw]; [done| |done..|].
  { simpl. rewrite Hn. symmetry. apply Hok. }
  set (s3 := set_cond_var (<[w := false]> (cond_var s2)) s2) in *.
  destruct (for_ahead_remove t s3 (rev q)) as (G2 & Hr & Hg2 & Hn2 & He2); simpl in *.
  { done. }
  { apply NoDup_tids_rev, Hrec. }
  { by apply rev_nonempty. }
  { intros e Hin. apply He. right. eauto. }
  eexists. split_and!.
  - unfold wrlock_clear_abort. erewrite run_read_queue by done. rewrite Hl, assert_true by done.
    erewrite bind_Ok by done. rewrite last_snoc. erewrite deref_Some by done.
    rewrite assert_true by apply Nat.eqb_refl.
    rewrite assert_true by (apply Nat.leb_le; destruct q; [done|simpl; lia]).
    rewrite rev_snoc_tail. erewrite bind_Ok by done.
    simpl. rewrite Nat.sub_0_r, delete_last. by apply (write_queue_Ok r (q ++ [me])).
  - apply (table_ok_aborted hs s r q (q ++ [me]) w G2); [done|done|done|congruence|].
    intros a b. rewrite He2, He. split; [tauto|]. intros Hab. split; [by left|].
    intros [-> _]. apply (Hno b). by apply (tok_edges _ _ _ _ Hok).
  - simpl. by rewrite list_insert_insert_eq, list_insert_id.
Qed.

Lemma wrlock_free hs s r t ph :
  let me := mk_wait_q_elem t ph in
  let s1 := set_queues (<[r := [me]]> (record_wait_queues s)) s in
  table_ok hs s → record_wait_queues s !! r = Some [] → 0 < t < N → is_writer ph →
  (∀ b, ¬ queue_edges (record_wait_queues s) t b) →
  ∃ s', wrlock_acquire t r s1 = Ok (tt, s') ∧ table_ok (<[r := {[t]} ∪ hs r]> hs) s' ∧
    record_wait_queues s' = record_wait_queues s1 ∧ hs r = ∅.
Proof.
  intros me s1 Hok Hq Ht Hph Hno.
  assert (Hlt : r < length (record_wait_queues s)) by (by eapply lookup_lt_Some).
  assert (Hok1 : table_ok hs s1).
  { rewrite <- (set_graph_id s1). apply (table_ok_append hs s r [] me); try done; try apply Hok.
    - by apply is_writer_lockable.
    - set_solver.
    - intros a b. split; [by left|]. intros [|(_ & eb & ?%tail_waits_nil & _)]; done. }
  destruct (wrlock_acquire_spec hs s1 r [me] me) as (s' & ? & Hok' & ? & _ & Hh); try done.
  - by rewrite <- (tok_len_queues _ _ _ _ Hok).
  - by apply list_lookup_insert_eq.
  - by apply is_writer_not_read.
  - apply (not_queued_not_held hs s r []); [done..|set_solver].
  - exists s'. rewrite Hh, union_empty_r_L. done.
Qed.

Lemma wrlock_block hs s r q t ph :
  let me := mk_wait_q_elem t ph in
  let s1 := set_queues (<[r := q ++ [me]]> (record_wait_queues s)) s in
  table_ok hs s → record_wait_queues s !! r = Some q → 0 < t < N → t ∉ tids q → is_writer ph → q ≠ [] →
  (∀ b, ¬ queue_edges (record_wait_queues s) t b) →
  ∃ res cm' s',
    (_ ← for_ahead (add_edge t) (rev q);
     '(deadlock, cycle_member) ← is_deadlock_exist t;
     if (deadlock : bool) then _ ← wrlock_clear_abort t r; mret (ABORTED, cycle_member)
     else _ ← pthread_cond_wait t; mret (SLEEPING, cycle_member)) s1 = Ok ((res, cm'), s') ∧
    res ≠ LOCKED ∧ table_ok hs s' ∧
    record_wait_queues s' =
      (if decide (res = ABORTED) then record_wait_queues s else record_wait_queues s1) ∧
    (res = SLEEPING → cond_var s' !! t = Some true).
Proof.
  intros me s1 Hok Hq Ht Hnin Hph Hqne Hno.
  assert (Hlt : r < length (record_wait_queues s)) by (by eapply lookup_lt_Some).
  destruct (queue_record_ok hs s r q Hok Hq) as (st & c & Hst & Hc & Hrec).
  destruct (for_ahead_add t s1 (rev q)) as (G1 & Ha & Hg1 & Hn1 & He1); simpl;
    rewrite ?(tok_nodes _ _ _ _ Hok); [apply Hok|lia|apply NoDup_tids_rev, Hrec|by apply rev_nonempty| |].
  { intros e He. rewrite <- (Permutation_rev q) in He. split_and!.
    - by apply (rok_elem _ _ _ _ _ Hrec).
    - intros <-. by apply Hnin, list_elem_of_fmap_2.
    - rewrite (tok_edges _ _ _ _ Hok). apply Hno. }
  simpl in Hn1, He1. rewrite (tok_nodes _ _ _ _ Hok) in Hn1. erewrite bind_Ok by done.
  destruct (get_cycle_total G1 t) as [cyc Hcyc]; [done|lia|].
  erewrite bind_Ok by (unfold is_deadlock_exist; simpl; by rewrite Hcyc). cbv beta iota.
  destruct (decide (cyc = [])) as [->|Hne].
  - set (s2 := set_graph G1 s1). assert (Hok2 : table_ok hs s2).
    { apply table_ok_append; try done; [by apply is_writer_lockable| |by apply get_cycle_nil].
      intros a b. unfold me. rewrite He1, is_writer_not_read by done. by setoid_rewrite tail_waits_ahead_set. }
    destruct (wait_again hs s2 r (q ++ [me]) (length q) me) as (s' & Hs' & Hok' & HQ & HV).
    + done.
    + by rewrite <- (tok_len_queues _ _ _ _ Hok).
    + by apply list_lookup_insert_eq.
    + by apply list_lookup_middle.
    + unfold must_wait. unfold me. rewrite is_writer_not_read by done. destruct q; [done|]. simpl; lia.
    + exists SLEEPING, [], s'. simpl. erewrite bind_Ok by done. split_and!; done.
  - destruct (wrlock_abort hs s r q t ph G1 cyc) as (s' & Hs' & Hok' & HQ); [done..|].
    exists ABORTED, cyc, s'. destruct cyc as [|y cyc]; [done|]. simpl.
    erewrite bind_Ok by done. split_and!; done.
Qed.

Lemma wrlock_spec hs s r q t ph cm :
  table_ok hs s → record_wait_queues s !! r = Some q → 0 < t < N → t ∉ tids q → is_writer ph →
  (∀ b, ¬ queue_edges (record_wait_queues s) t b) →
  ∃ res cm' s', wrlock t ph r cm s = Ok ((res, cm'), s') ∧ table_ok (granted hs r t res) s' ∧
    record_wait_queues s' =
      (if decide (res = ABORTED) then record_wait_queues s
       else <[r := q ++ [mk_wait_q_elem t ph]]> (record_wait_queues s)) ∧
    (res = SLEEPING → cond_var s' !! t = Some true) ∧ (res = LOCKED → hs r = ∅).
Proof.
  intros Hok Hq Ht Hnin Hph Hno. set (me := mk_wait_q_elem t ph).
  assert (Hlt : r < length (record_wait_queues s)) by (by eapply lookup_lt_Some).
  set (s1 := set_queues (<[r := q ++ [me]]> (record_wait_queues s)) s).
  assert (Hq1 : record_wait_queues s1 !! r = Some (q ++ [me])) by (by apply list_lookup_insert_eq).
  unfold wrlock. rewrite assert_true by (by apply bool_decide_eq_true).
  erewrite run_read_queue by done. erewrite bind_Ok by eauto with lock_table.
  erewrite run_read_queue by done. fold me; fold s1.
  destruct q as [|e q]; (erewrite deref_Some by done).
  - simpl. rewrite Nat.eqb_refl.
    destruct (wrlock_free hs s r t ph) as (s' & Ha & Hok' & HQ & Hh); [done..|].
    exists LOCKED, cm, s'. erewrite bind_Ok by done. split_and!; done.
  - rewrite (proj2 (Nat.eqb_neq _ _)) by set_solver.
    rewrite assert_true by (apply Nat.ltb_lt; rewrite length_app; simpl; lia).
    rewrite last_snoc. erewrite deref_Some by done. rewrite assert_true by apply Nat.eqb_refl.
    rewrite rev_snoc_tail.
    destruct (wrlock_block hs s r (e :: q) t ph) as (res & cm' & s' & Hr & Hnl & Hok' & HQ & HV); [done..|].
    exists res, cm', s'. split_and!; [done| |done|done|done]. unfold granted. by rewrite decide_False.
Qed.
End spec.
