(* ===== verification/LockRelease.v ===== *)
(** Releasing a lock: [unlock], [rd_unlock] and [wr_unlock] of
    [project2/src/rw_lock_table.cc] keep the invariant of the lock table, fail
    no assert, and wake up every thread that no longer has to wait. *)
From stdpp Require Import functions base tactics numbers option list list_numbers gmap sets relations.
From Stdlib Require Import ZArith Lia.
From S2P Require Import Prelude DirectedGraph LockTable WaitQueue LockInv LockSpec.

Section release.
Context (R N : nat).

Notation table_ok := (table_ok R N).
Notation record_ok := (record_ok N).

Lemma waits_tid_delete q p x a b :
  NoDup (tids q) → at_front q p x →
  waits_tid (delete p q) a b ↔ waits_tid q a b ∧ a ≠ wq_tid x ∧ b ≠ wq_tid x.
Proof.
  intros Hnd Hf. assert (Hp : q !! p = Some x) by apply Hf.
  unfold waits_tid. setoid_rewrite waits_delete; [|done..]. split.
  - intros (et & eb & (Hw & Het & Heb) & <- & <-). destruct Hw as (i & j & Hij & Hi & Hj & Hc).
    split_and!; [exists et, eb; split; [by exists i, j|done]|..].
    + intros Heq. apply Het. assert (j = p) as -> by eauto using tids_inj. congruence.
    + intros Heq. apply Heb. assert (i = p) as -> by eauto using tids_inj. congruence.
  - intros ((et & eb & Hw & <- & <-) & Ha & Hb). exists et, eb. split_and!; [done|congruence..|done|done].
Qed.

Lemma queue_edges_leave hs s r q p x a b :
  table_ok hs s → record_wait_queues s !! r = Some q → at_front q p x → wq_tid x ∈ hs r →
  queue_edges (<[r := delete p q]> (record_wait_queues s)) a b ↔
  queue_edges (record_wait_queues s) a b ∧ ¬ (b = wq_tid x ∧ waits_tid q a b).
Proof.
  intros Hok Hq Hf Hin. destruct (queue_record_ok _ _ hs s r q Hok Hq) as (st & c & _ & _ & Hrec).
  rewrite queue_edges_insert, waits_tid_delete by (done || apply Hrec). split.
  - intros [(Hw & Ha & Hb)|(r' & q1 & Hne & H1 & Hw)].
    + split; [by exists r, q|naive_solver].
    + split; [by exists r', q1|]. intros [_ Hw']. apply Hne. symmetry.
      by eapply (tok_one _ _ _ _ Hok a r q b r' q1 b).
  - intros [(r' & q1 & H1 & Hw) Hn]. destruct (decide (r' = r)) as [->|Hne]; [left|right; eauto].
    simplify_eq. split_and!; [done| |by intros ->; apply Hn].
    intros ->. by eapply held_not_waiting.
Qed.

Lemma table_ok_leave hs s r st c q p x st' c' V' G' :
  table_ok hs s →
  table s !! r = Some st → readers_count s !! r = Some c → record_wait_queues s !! r = Some q →
  at_front q p x → wq_tid x ∈ hs r →
  record_ok (hs r ∖ {[wq_tid x]}) st' c' (delete p q) →
  graph_ok G' → number_of_nodes G' = N →
  (∀ a b, has_edge G' a b ↔ has_edge (wait_for_graph s) a b ∧ ¬ (b = wq_tid x ∧ waits_tid q a b)) →
  length V' = N →
  (∀ u, V' !! u = Some true →
     cond_var s !! u = Some true ∧ (waits_tid q u (wq_tid x) → ∃ b, b ≠ wq_tid x ∧ waits_tid q u b)) →
  table_ok (<[r := hs r ∖ {[wq_tid x]}]> hs)
    (mk_lock_table (<[r := st']> (table s)) (<[r := c']> (readers_count s))
       (<[r := delete p q]> (record_wait_queues s)) V' G').
Proof.
  intros Hok Hst Hc Hq Hf Hin Hrec' Hg Hn He HV Hsl.
  assert (Hqe := λ a b, queue_edges_leave hs s r q p x a b Hok Hq Hf Hin).
  assert (Hrec : record_ok (hs r) st c q) by (by eapply tok_record).
  eapply table_ok_change; eauto.
  - eapply acyclic_subgraph; [apply Hok|]. intros a b [? _]%He. done.
  - intros a b. rewrite He, Hqe, (tok_edges _ _ _ _ Hok). done.
  - intros a b Hw. apply (waits_tid_delete q p x) in Hw as [Hw _]; [|apply Hrec|done]. left. eauto.
  - intros u Hu. apply Hsl in Hu as [Hu Hor]. apply (tok_sleep _ _ _ _ Hok) in Hu as (b & r' & q1 & H1 & Hw).
    assert (Hqu : ∀ b', waits_tid q u b' → queue_edges (record_wait_queues s) u b') by (intros b' ?; by exists r, q).
    destruct (decide (r' = r)) as [->|Hne].
    + simplify_eq. destruct (decide (b = wq_tid x)) as [->|Hb].
      * destruct (Hor Hw) as (b' & Hb' & Hw'). exists b'. apply Hqe. split; [auto|naive_solver].
      * exists b. apply Hqe. split; [auto|naive_solver].
    + exists b. apply Hqe. split; [by exists r', q1|]. intros [_ Hw']. apply Hne. symmetry.
      by eapply (tok_one _ _ _ _ Hok u r q b r' q1 b).
Qed.

(** ** [rd_unlock] *)

Lemma rd_unlock_find_Ok q p x s :
  NoDup (tids q) → q !! p = Some x → all_readers_before q p → is_read x = true →
  rd_unlock_find (wq_tid x) q s = Ok (p, s).
Proof.
  revert p. induction q as [|e q IH]; intros [|p] Hnd Hp Hr Hx; [done..| |]; simpl in *.
  - injection Hp as ->. rewrite assert_true by done. by rewrite Nat.eqb_refl.
  - apply NoDup_cons in Hnd as [Hnin Hnd]. rewrite assert_true by (by apply (Hr 0 e); [lia|]).
    rewrite (proj2 (Nat.eqb_neq _ _)).
    2: { intros Heq. apply Hnin. rewrite Heq. apply elem_of_tids. eauto. }
    rewrite (bind_Ok _ _ s p s); [done|]. apply IH; try done.
    intros k y Hk Hy. apply (Hr (S k) y); [lia|done].
Qed.

(** A reader that leaves is waited for by the next writer only, and that writer
    also waits for the readers around it. *)
Lemma waits_tid_reader q p x a :
  NoDup (tids q) → q !! p = Some x → is_read x = true →
  waits_tid q a (wq_tid x) ↔ ∃ w, find_writer (drop (S p) q) = Some w ∧ wq_tid w = a.
Proof.
  intros Hnd Hp Hx. unfold waits_tid. split.
  - intros (et & eb & Hw & <- & Heq). exists et. split; [|done].
    assert (eb = x) as ->.
    { destruct Hw as (i & j & _ & Hi & _). assert (i = p) as -> by eauto using tids_inj. congruence. }
    by eapply waits_for_reader.
  - intros (w & Hw & <-). exists w, x. split_and!; [|done..]. by eapply waits_for_reader.
Qed.

Lemma waits_neighbour q p x k y u :
  NoDup (tids q) → q !! p = Some x → is_read x = true → waits_tid q u (wq_tid x) →
  q !! k = Some y → is_read y = true → (S k = p ∨ k = S p) → ∃ b, b ≠ wq_tid x ∧ waits_tid q u b.
Proof.
  intros Hnd Hp Hx Hu Hy Hry Hk. exists (wq_tid y). split.
  { intros Heq. assert (k = p); [by eauto using tids_inj|lia]. }
  apply (waits_tid_reader q p x u) in Hu as (w & Hw & <-); [|done..]. exists w, y. split; [|done].
  apply find_writer_Some in Hw as (j & Hj & Hwr & Hr). rewrite lookup_drop in Hj.
  assert (Hne : S p + j ≠ k) by (intros <-; congruence).
  exists k, (S p + j). rewrite Hwr. split_and!; [lia|done|done| |by left].
  intros i z Hi Hz. destruct (decide (i = p)) as [->|]; [congruence|].
  apply (Hr (i - S p) z); [lia|]. rewrite lookup_drop. by replace (S p + (i - S p)) with i by lia.
Qed.

Lemma rd_unlock_remove_edge_Ok s q p x :
  graph_ok (wait_for_graph s) → NoDup (tids q) → q !! p = Some x → is_read x = true →
  (∀ a, waits_tid q a (wq_tid x) → has_edge (wait_for_graph s) a (wq_tid x)) →
  ∃ G', rd_unlock_remove_edge (wq_tid x) (drop (S p) q) s = Ok (tt, set_graph G' s) ∧ graph_ok G' ∧
    number_of_nodes G' = number_of_nodes (wait_for_graph s) ∧
    ∀ a b, has_edge G' a b ↔ has_edge (wait_for_graph s) a b ∧ ¬ (b = wq_tid x ∧ waits_tid q a b).
Proof.
  intros Hg Hnd Hp Hx He. assert (Hw := λ a, waits_tid_reader q p x a Hnd Hp Hx).
  unfold rd_unlock_remove_edge. destruct (find_writer (drop (S p) q)) as [w|] eqn:Hf.
  - destruct (remove_edge_spec (wait_for_graph s) (wq_tid w) (wq_tid x)) as (G' & Hr & Hg' & Hn' & He'); [done| |].
    { apply He, Hw. eauto. }
    exists G'. erewrite bind_Ok by (by apply on_graph_Ok). split_and!; [done..|].
    intros a b. rewrite He'. split; intros [Hab Hn]; (split; [done|]).
    + intros [-> (w' & Hw' & <-)%Hw]. naive_solver.
    + intros [-> ->]. apply Hn. split; [done|]. apply Hw. eauto.
  - exists (wait_for_graph s). rewrite set_graph_id. split_and!; [done..|].
    intros a b. split; [|tauto]. intros Hab. split; [done|]. intros [-> (w' & Hw' & _)%Hw]. done.
Qed.

Lemma rd_unlock_branches_Ok hs s r c q p x :
  table_ok hs s → table s !! r = Some RW_READER_LOCK → readers_count s !! r = Some c →
  record_wait_queues s !! r = Some q → at_front q p x → is_read x = true →
  ∃ V' G', rd_unlock_branches (wq_tid x) r p q s =
      Ok (tt, mk_lock_table (<[r := rd_unlock_status q p]> (table s)) (readers_count s) (record_wait_queues s) V' G') ∧
    graph_ok G' ∧ number_of_nodes G' = N ∧
    (∀ a b, has_edge G' a b ↔ has_edge (wait_for_graph s) a b ∧ ¬ (b = wq_tid x ∧ waits_tid q a b)) ∧
    length V' = N ∧
    (∀ u, V' !! u = Some true →
       cond_var s !! u = Some true ∧ (waits_tid q u (wq_tid x) → ∃ b, b ≠ wq_tid x ∧ waits_tid q u b)).
Proof.
  intros Hok Hst Hc Hq (Hp & Hr & _) Hx.
  assert (Hrec : record_ok (hs r) RW_READER_LOCK c q) by (by eapply tok_record).
  assert (Hnd := rok_nodup _ _ _ _ _ Hrec).
  destruct (rd_unlock_remove_edge_Ok s q p x) as (G' & HG & Hg' & Hn' & He'); [apply Hok|done..| |].
  { intros a Hw. apply (tok_edges _ _ _ _ Hok). by exists r, q. }
  rewrite (tok_nodes _ _ _ _ Hok) in Hn'. assert (HV := tok_len_cond _ _ _ _ Hok).
  assert (Hdrop : drop (S p) q = match q !! (p + 1) with Some f => f :: drop (p + 2) q | None => [] end).
  { destruct (q !! (p + 1)) as [f|] eqn:Hf.
    - replace (S p) with (p + 1) by lia. rewrite (drop_S q f (p + 1)) by done. do 2 f_equal. lia.
    - apply lookup_ge_None in Hf. rewrite drop_ge by lia. done. }
  assert (Htid : <[r := RW_READER_LOCK]> (table s) = table s) by (by apply list_insert_id).
  rewrite Hdrop in HG. unfold rd_unlock_branches, rd_unlock_status. rewrite (Nat.add_1_r p) in *.
  destruct (Nat.eqb_spec p 0) as [->|Hp0].
  - rewrite decide_True by done. destruct (q !! 1) as [f|] eqn:Hf.
    + destruct (is_read f) eqn:Ef; simpl.
      * exists (cond_var s), G'. rewrite Htid.
        split_and!; [|done..| |]; [by unfold rd_unlock_remove_edge in *; simpl in HG; rewrite Ef in HG|done|].
        intros u Hu. split; [done|]. intros Hw. by apply (waits_neighbour q 0 x 1 f); auto.
      * exists (<[wq_tid f := false]> (cond_var s)), G'.
        assert (Hft : wq_tid f < length (cond_var s)).
        { rewrite HV. apply (rok_elem _ _ _ _ _ Hrec). by eapply list_elem_of_lookup_2. }
        split_and!; [|done..| |].
        -- unfold rd_unlock_remove_edge in HG. simpl in HG. rewrite Ef in HG.
           unfold mbind, M_bind in HG. unfold mbind, M_bind.
           destruct (on_graph (remove_edge (wq_tid f) (wq_tid x)) s) as [[b1 s1]|]; [|done].
           injection HG as ->. rewrite (write_table_Ok r RW_READER_LOCK) by done. by rewrite cond_signal_Ok.
        -- by rewrite length_insert.
        -- intros u. rewrite list_lookup_insert. case_decide as Hu; [done|]. intros Hu1. split; [done|].
           intros (w & Hw & <-)%(waits_tid_reader q 0 x); [|done..].
           rewrite Hdrop in Hw. simpl in Hw. rewrite Ef in Hw. injection Hw as ->. naive_solver.
    + exists (cond_var s), G'. split_and!; [|done..| |].
      * unfold rd_unlock_remove_edge in HG. simpl in HG. injection HG as HG.
        rewrite (write_table_Ok r RW_READER_LOCK) by done. rewrite HG. done.
      * done.
      * intros u Hu. split; [done|]. intros (w & Hw & <-)%(waits_tid_reader q 0 x); [|done..].
        rewrite Hdrop in Hw. done.
  - rewrite decide_False by done. exists (cond_var s), G'. rewrite Htid. split_and!; [|done..| |].
    + unfold rd_unlock_remove_edge in *. destruct (q !! S p) as [f|]; [|done].
      simpl in *. destruct (is_read f); done.
    + done.
    + intros u Hu. split; [done|]. intros Hw.
      destruct (lookup_lt_is_Some_2 q (p - 1)) as [y Hy]; [apply lookup_lt_Some in Hp; lia|].
      eapply (waits_neighbour q p x (p - 1) y); try done; [|lia]. apply (Hr (p - 1)); [lia|done].
Qed.

Lemma rd_unlock_spec hs s r q t :
  table_ok hs s → table s !! r = Some RW_READER_LOCK → record_wait_queues s !! r = Some q → t ∈ hs r →
  ∃ p x s', at_front q p x ∧ wq_tid x = t ∧ rd_unlock t r s = Ok (true, s') ∧
    table_ok (<[r := hs r ∖ {[t]}]> hs) s' ∧ record_wait_queues s' = <[r := delete p q]> (record_wait_queues s).
Proof.
  intros Hok Hst Hq Ht. destruct (queue_record_ok _ _ hs s r q Hok Hq) as (st & c & Hst' & Hc & Hrec).
  assert (st = RW_READER_LOCK) as -> by congruence.
  destruct (rok_held _ _ _ _ _ Hrec t Ht) as (p & x & Hf & <-). exists p, x.
  assert (Hx : is_read x = true).
  { destruct Hf as (Hp & _ & [| ->]); [done|]. destruct (rok_status _ _ _ _ _ Hrec) as [(e & ? & ?) _]. congruence. }
  assert (Hp : q !! p = Some x) by apply Hf. assert (p < length q) by (by eapply lookup_lt_Some).
  destruct (record_ok_rd_unlock N (hs r) c q p x) as [Hpos Hrec']; [apply Hok|done..|].
  destruct (rd_unlock_branches_Ok hs s r c q p x) as (V' & G' & Hb & Hg' & Hn' & He' & HV' & Hsl); [done..|].
  eexists. split_and!; [done|done| | |].
  - unfold rd_unlock. erewrite run_read_count by done. rewrite assert_true by (by apply Z.ltb_lt).
    erewrite run_read_queue by done. rewrite assert_true by (apply Nat.ltb_lt; lia).
    rewrite (bind_Ok _ _ _ _ _ (rd_unlock_find_Ok q p x s (rok_nodup _ _ _ _ _ Hrec) Hp (proj1 (proj2 Hf)) Hx)).
    rewrite assert_true by (apply negb_true_iff, Nat.eqb_neq; lia).
    rewrite (bind_Ok _ _ _ _ _ Hb).
    erewrite bind_Ok by (by apply (write_count_Ok r c)). by erewrite bind_Ok by (by apply (write_queue_Ok r q)).
  - by apply (table_ok_leave hs s r RW_READER_LOCK c q p x).
  - done.
Qed.

(** ** [wr_unlock] *)

(** After waking the threads [ws]: their edges to [t] are gone and none of them
    sleeps. *)
Definition woken (t : nat) (ws : list wait_q_elem_t) (s s' : rw_lock_table) : Prop :=
  ∃ V' G', s' = set_graph G' (set_cond_var V' s) ∧ graph_ok G' ∧
    number_of_nodes G' = number_of_nodes (wait_for_graph s) ∧ length V' = length (cond_var s) ∧
    (∀ a b, has_edge G' a b ↔ has_edge (wait_for_graph s) a b ∧ ¬ (b = t ∧ a ∈ tids ws)) ∧
    (∀ u, V' !! u = Some true → cond_var s !! u = Some true ∧ u ∉ tids ws).

Lemma woken_trans t ws ws' s s1 s2 :
  woken t ws s s1 → woken t ws' s1 s2 → woken t (ws ++ ws') s s2.
Proof.
  intros (V1 & G1 & -> & Hg1 & Hn1 & Hl1 & He1 & Hs1) (V2 & G2 & -> & Hg2 & Hn2 & Hl2 & He2 & Hs2).
  simpl in *. exists V2, G2. split_and!; [done|done|congruence|congruence|..].
  - intros a b. rewrite He2, He1. unfold tids. rewrite map_app, elem_of_app. tauto.
  - intros u [[? ?]%Hs1 ?]%Hs2. unfold tids. rewrite map_app, elem_of_app. tauto.
Qed.

Lemma wake_follower_Ok t s e :
  graph_ok (wait_for_graph s) → has_edge (wait_for_graph s) (wq_tid e) t → wq_tid e < length (cond_var s) →
  ∃ s', wake_follower t e s = Ok (tt, s') ∧ woken t [e] s s'.
Proof.
  intros Hg He Hlt. destruct (remove_edge_spec _ _ _ Hg He) as (G' & Hr & Hg' & Hn' & He').
  unfold wake_follower. erewrite bind_Ok by (by apply on_graph_Ok). eexists. split; [by apply cond_signal_Ok|].
  exists (<[wq_tid e := false]> (cond_var s)), G'. split_and!; [done..|apply length_insert| |].
  - intros a b. rewrite He'. set_solver.
  - intros u. rewrite list_lookup_insert. case_decide as Hu; [done|]. set_solver.
Qed.

Lemma wake_readers_Ok t s es :
  graph_ok (wait_for_graph s) → NoDup (tids es) →
  (∀ e, e ∈ leading_readers es → has_edge (wait_for_graph s) (wq_tid e) t ∧ wq_tid e < length (cond_var s)) →
  ∃ s', wake_readers t es s = Ok (tt, s') ∧ woken t (leading_readers es) s s'.
Proof.
  revert s. induction es as [|e es IH]; intros s Hg Hnd He; simpl in *.
  { exists s. split; [done|]. exists (cond_var s), (wait_for_graph s).
    split_and!; try done; [by destruct s|set_solver..]. }
  destruct (is_read e).
  2: { exists s. split; [done|]. exists (cond_var s), (wait_for_graph s).
       split_and!; try done; [by destruct s|set_solver..]. }
  apply NoDup_cons in Hnd as [Hnin Hnd].
  destruct (wake_follower_Ok t s e) as (s1 & H1 & Hw1); [done|apply He; by left..|].
  erewrite bind_Ok by done.
  destruct Hw1 as (V1 & G1 & -> & Hg1 & Hn1 & Hl1 & He1 & Hs1).
  destruct (IH (set_graph G1 (set_cond_var V1 s))) as (s2 & H2 & Hw2); simpl; [done|done| |].
  - intros e' He'. destruct (He e') as [Hed Hlt]; [by right|]. rewrite Hl1. split; [|done].
    apply He1. split; [done|]. intros [_ Hin]. apply Hnin. simpl in Hin.
    apply list_elem_of_singleton in Hin. rewrite <- Hin. apply elem_of_tids.
    apply elem_of_leading_readers in He' as (i & ? & _). eauto.
  - exists s2. split; [done|]. eapply (woken_trans t [e] _ s); [|done].
    by exists V1, G1.
Qed.

(** The statements of [wr_unlock] between the assert and the final updates. *)
Lemma wake_followers_Ok t s es :
  graph_ok (wait_for_graph s) → NoDup (tids es) →
  (∀ e, e ∈ followers es → has_edge (wait_for_graph s) (wq_tid e) t ∧ wq_tid e < length (cond_var s)) →
  ∃ s', wake_followers t es s = Ok (tt, s') ∧ woken t (followers es) s s'.
Proof.
  intros Hg Hnd He. destruct es as [|e es]; simpl in *.
  { exists s. split; [done|]. exists (cond_var s), (wait_for_graph s).
    split_and!; try done; [by destruct s|set_solver..]. }
  apply NoDup_cons in Hnd as [Hnin Hnd].
  destruct (wake_follower_Ok t s e) as (s1 & H1 & Hw1); [done|destruct (is_read e); apply He; by left..|].
  erewrite bind_Ok by done. destruct (is_read e); [|by eauto].
  assert (Hw := Hw1). destruct Hw1 as (V1 & G1 & -> & Hg1 & Hn1 & Hl1 & He1 & Hs1).
  destruct (wake_readers_Ok t (set_graph G1 (set_cond_var V1 s)) es) as (s2 & H2 & Hw2); simpl; [done|done| |].
  - intros e' He'. destruct (He e') as [Hed Hlt]; [by right|]. rewrite Hl1. split; [|done].
    apply He1. split; [done|]. intros [_ Hin]. apply Hnin. simpl in Hin.
    apply list_elem_of_singleton in Hin. rewrite <- Hin. apply elem_of_tids.
    apply elem_of_leading_readers in He' as (i & ? & _). eauto.
  - exists s2. split; [done|]. by eapply (woken_trans t [e] _ s).
Qed.

Lemma waits_tid_writer x q a :
  NoDup (tids (x :: q)) → is_read x = false →
  waits_tid (x :: q) a (wq_tid x) ↔ a ∈ tids (followers q).
Proof.
  intros Hnd Hx. unfold waits_tid, tids. rewrite list_elem_of_fmap. split.
  - intros (et & eb & Hw & <- & Heq). exists et. split; [done|].
    assert (eb = x) as ->.
    { destruct Hw as (i & j & _ & Hi & _). assert (i = 0) as -> by (by eapply (tids_inj (x :: q))).
      simpl in Hi. congruence. }
    by apply (waits_for_writer x q et).
  - intros (e & -> & He). exists e, x. split_and!; [|done..]. by apply waits_for_writer.
Qed.

Lemma wr_unlock_spec hs s r q t :
  table_ok hs s → table s !! r = Some RW_WRITER_LOCK → record_wait_queues s !! r = Some q → t ∈ hs r →
  ∃ p x s', at_front q p x ∧ wq_tid x = t ∧ wr_unlock t r s = Ok (true, s') ∧
    table_ok (<[r := hs r ∖ {[t]}]> hs) s' ∧ record_wait_queues s' = <[r := delete p q]> (record_wait_queues s).
Proof.
  intros Hok Hst Hq Ht. destruct (queue_record_ok _ _ hs s r q Hok Hq) as (st & c & Hst' & Hc & Hrec).
  assert (st = RW_WRITER_LOCK) as -> by congruence.
  destruct (rok_status _ _ _ _ _ Hrec) as (x & H0 & Hx & Hh & ->).
  assert (t = wq_tid x) as -> by set_solver. destruct q as [|x' q]; [done|]. simpl in H0. injection H0 as ->.
  assert (Hnd := rok_nodup _ _ _ _ _ Hrec). assert (Hfol := λ a, waits_tid_writer x q a Hnd Hx).
  assert (Hf : at_front (x :: q) 0 x) by (split_and!; [done|intros k y Hk; lia|by right]).
  exists 0, x. destruct (wake_followers_Ok (wq_tid x) s q) as (s1 & H1 & V' & G' & -> & Hg' & Hn' & Hl' & He' & Hs').
  { apply Hok. }
  { by apply NoDup_cons in Hnd as [_ ?]. }
  { intros e He. split.
    - apply (tok_edges _ _ _ _ Hok). exists r, (x :: q). split; [done|]. apply Hfol. by apply list_elem_of_fmap_2.
    - rewrite (tok_len_cond _ _ _ _ Hok). apply (rok_elem _ _ _ _ _ Hrec). right.
      apply (waits_for_writer x q) in He as (i & j & Hij & _ & Hj & _); [|done..].
      destruct j as [|j]; [lia|by eapply list_elem_of_lookup_2]. }
  rewrite (tok_nodes _ _ _ _ Hok) in Hn'. rewrite (tok_len_cond _ _ _ _ Hok) in Hl'.
  eexists. split_and!; [done|done| | |].
  - unfold wr_unlock. erewrite run_read_queue by done. erewrite deref_Some by done.
    rewrite assert_true by apply Nat.eqb_refl. simpl. rewrite drop_0. rewrite (bind_Ok _ _ _ _ _ H1).
    erewrite bind_Ok by (by apply (write_queue_Ok r (x :: q))).
    by erewrite bind_Ok by (by apply (write_table_Ok r RW_WRITER_LOCK)).
  - assert (Hl := table_ok_leave hs s r RW_WRITER_LOCK 0%Z (x :: q) 0 x RW_UNLOCK 0%Z V' G' Hok Hst Hc Hq Hf).
    rewrite (list_insert_id (readers_count s)) in Hl by done. apply Hl; try done.
    + by apply (record_ok_wr_unlock N).
    + intros a b. rewrite He'. split; intros [Hab Hn]; (split; [done|]); intros [-> Hw]; apply Hn;
        (split; [done|]); by apply Hfol.
    + intros u [Hu Hnin]%Hs'. split; [done|]. intros Hw%Hfol. done.
  - done.
Qed.

(** ** [unlock] *)

Lemma unlock_spec hs s r q t :
  table_ok hs s → record_wait_queues s !! r = Some q → t ∈ hs r →
  ∃ p x s', at_front q p x ∧ wq_tid x = t ∧ unlock t r s = Ok (true, s') ∧
    table_ok (<[r := hs r ∖ {[t]}]> hs) s' ∧ record_wait_queues s' = <[r := delete p q]> (record_wait_queues s).
Proof.
  intros Hok Hq Ht. destruct (queue_record_ok _ _ hs s r q Hok Hq) as (st & c & Hst & Hc & Hrec).
  assert (Hs := rok_status _ _ _ _ _ Hrec). unfold unlock. rewrite (run_read_table r st) by done.
  destruct st; [done|set_solver|..].
  - destruct (rd_unlock_spec hs s r q t) as (p & x & s' & ? & ? & Hu & ? & ?); [done..|].
    exists p, x, s'. by erewrite bind_Ok by done.
  - destruct (wr_unlock_spec hs s r q t) as (p & x & s' & ? & ? & Hu & ? & ?); [done..|].
    exists p, x, s'. by erewrite bind_Ok by done.
Qed.
End release.
