(* ===== verification/LockManager.v ===== *)
(** The contract of the lock table towards the transactions.

    The contract knows two things: which locks each thread has asked for and not
    given back ([ent], a finite map from records to the phase of the request),
    and which threads hold each record ([hs]). [locks_ok] says that a lock table
    implements such a pair. Each method of the lock table is a function on the
    pair: a request adds an entry unless it is refused, a granted request adds a
    holder, an unlock removes both. *)
From stdpp Require Import functions base tactics numbers option list list_numbers gmap sets relations.
From Stdlib Require Import ZArith Lia.
From S2P Require Import Prelude DirectedGraph LockTable WaitQueue LockInv LockSpec LockRelease.

Record locks_ok (R N : nat) (ent : nat → gmap nat phase_t) (hs : nat → gset nat) (lt : rw_lock_table) : Prop := {
  lok_table : table_ok R N hs lt;
  lok_queue : ∀ r q e, record_wait_queues lt !! r = Some q →
    e ∈ q ↔ ent (wq_tid e) !! r = Some (wq_phase e);
  lok_range : ∀ t r, is_Some (ent t !! r) → r < R;
  lok_held : ∀ t r, t ∈ hs r → is_Some (ent t !! r);
}.

(** The thread holds everything it has asked for. *)
Definition all_held (ent : nat → gmap nat phase_t) (hs : nat → gset nat) (t : nat) : Prop :=
  ∀ r, is_Some (ent t !! r) → t ∈ hs r.

Definition requested (ent : nat → gmap nat phase_t) (r t : nat) (ph : phase_t) (res : lock_result)
    : nat → gmap nat phase_t :=
  if decide (res = ABORTED) then ent else <[t := <[r := ph]> (ent t)]> ent.

Section manager.
Context (R N : nat).

Notation locks_ok := (locks_ok R N).

Lemma locks_ok_ext ent ent' hs hs' lt :
  (∀ t, ent t = ent' t) → (∀ r, hs r = hs' r) → locks_ok ent hs lt → locks_ok ent' hs' lt.
Proof.
  intros He Hh [Ht Hq Hr Hl]. split.
  - by eapply table_ok_ext.
  - intros r q e ?. rewrite <- He. by apply Hq.
  - intros t r. rewrite <- He. apply Hr.
  - intros t r. rewrite <- He, <- Hh. apply Hl.
Qed.

Lemma locks_ok_queue ent hs lt r :
  locks_ok ent hs lt → r < R → ∃ q, record_wait_queues lt !! r = Some q.
Proof.
  intros Hok Hr. apply lookup_lt_is_Some. by rewrite (tok_len_queues _ _ _ _ (lok_table _ _ _ _ _ Hok)).
Qed.

(** An entry of the contract is an element of the queue, and only that. *)
Lemma locks_ok_elem ent hs lt t r ph :
  locks_ok ent hs lt → ent t !! r = Some ph →
  ∃ q p, r < R ∧ record_wait_queues lt !! r = Some q ∧ q !! p = Some (mk_wait_q_elem t ph) ∧
    0 < t < N ∧ lockable ph.
Proof.
  intros Hok He. assert (Hr : r < R) by (eapply lok_range; eauto).
  destruct (locks_ok_queue ent hs lt r) as [q Hq]; [done..|].
  assert (Hin : mk_wait_q_elem t ph ∈ q) by (by apply (lok_queue _ _ _ _ _ Hok r q)).
  destruct (queue_record_ok _ _ hs lt r q (lok_table _ _ _ _ _ Hok) Hq) as (st & c & _ & _ & Hrec).
  destruct (rok_elem _ _ _ _ _ Hrec _ Hin) as [??].
  apply list_elem_of_lookup in Hin as [p Hp]. exists q, p. done.
Qed.

Lemma locks_ok_not_queued ent hs lt t r q :
  locks_ok ent hs lt → record_wait_queues lt !! r = Some q → ent t !! r = None → t ∉ tids q.
Proof.
  intros Hok Hq He (i & e & Hi & <-)%elem_of_tids.
  apply list_elem_of_lookup_2, (lok_queue _ _ _ _ _ Hok r q e Hq) in Hi. congruence.
Qed.

Lemma all_held_no_wait ent hs lt t b :
  locks_ok ent hs lt → all_held ent hs t → ¬ queue_edges (record_wait_queues lt) t b.
Proof.
  intros Hok Hall (r & q & Hq & Hw).
  destruct (queue_record_ok _ _ hs lt r q (lok_table _ _ _ _ _ Hok) Hq) as (st & c & _ & _ & Hrec).
  eapply held_not_waiting; [done| |done]. apply Hall.
  destruct Hw as (et & eb & (i & j & _ & _ & Hj & _) & <- & _).
  eexists. apply (lok_queue _ _ _ _ _ Hok r q); [done|]. by eapply list_elem_of_lookup_2.
Qed.

(** ** Requests *)

(** The queue contents and the entries after a request, from the lock table's
    own description of what it did. *)
Lemma locks_ok_request ent hs lt r q t ph res lt' :
  locks_ok ent hs lt → record_wait_queues lt !! r = Some q → ent t !! r = None →
  table_ok R N (granted hs r t res) lt' →
  record_wait_queues lt' =
    (if decide (res = ABORTED) then record_wait_queues lt
     else <[r := q ++ [mk_wait_q_elem t ph]]> (record_wait_queues lt)) →
  locks_ok (requested ent r t ph res) (granted hs r t res) lt'.
Proof.
  intros Hok Hq He Hok' HQ. unfold requested, granted in *.
  assert (Hr : r < R).
  { rewrite <- (tok_len_queues _ _ _ _ (lok_table _ _ _ _ _ Hok)). by eapply lookup_lt_Some. }
  destruct (decide (res = ABORTED)) as [->|Hna].
  { rewrite decide_False in * by done. split; [done|rewrite HQ; apply Hok|apply Hok|apply Hok]. }
  split; [done|..].
  - intros r' q' e Hq'. rewrite HQ in Hq'. destruct (decide (r' = r)) as [->|Hne].
    + rewrite list_lookup_insert_eq in Hq' by (by eapply lookup_lt_Some). injection Hq' as <-.
      rewrite elem_of_app, list_elem_of_singleton, (lok_queue _ _ _ _ _ Hok r q) by done.
      destruct (decide (wq_tid e = t)) as [<-|Hnt].
      * rewrite fn_lookup_insert, lookup_insert_eq, He. destruct e as [te pe]; simpl. naive_solver.
      * rewrite fn_lookup_insert_ne by done. split; [intros [| ->]; done|by left].
    + rewrite list_lookup_insert_ne in Hq' by done. rewrite (lok_queue _ _ _ _ _ Hok r' q') by done.
      destruct (decide (wq_tid e = t)) as [<-|Hnt].
      * by rewrite fn_lookup_insert, lookup_insert_ne.
      * by rewrite fn_lookup_insert_ne.
  - intros t' r'. destruct (decide (t' = t)) as [->|]; [|rewrite fn_lookup_insert_ne by done; apply Hok].
    rewrite fn_lookup_insert. destruct (decide (r' = r)) as [->|]; [done|].
    rewrite lookup_insert_ne by done. apply Hok.
  - intros t' r'. assert (Hh := lok_held _ _ _ _ _ Hok t' r').
    destruct (decide (t' = t)) as [->|Hnt].
    + rewrite fn_lookup_insert. destruct (decide (r' = r)) as [->|]; [by rewrite lookup_insert_eq|].
      rewrite lookup_insert_ne by done. case_decide; [|done]. by rewrite fn_lookup_insert_ne.
    + rewrite fn_lookup_insert_ne by done. case_decide; [|done].
      destruct (decide (r' = r)) as [->|]; [rewrite fn_lookup_insert; set_solver|by rewrite fn_lookup_insert_ne].
Qed.

Lemma request_read ent hs lt t r cm :
  locks_ok ent hs lt → r < R → 0 < t < N → ent t !! r = None → all_held ent hs t →
  ∃ res cm' lt', rdlock t r cm lt = Ok ((res, cm'), lt') ∧
    locks_ok (requested ent r t READ res) (granted hs r t res) lt' ∧
    (res = SLEEPING → cond_var lt' !! t = Some true).
Proof.
  intros Hok Hr Ht He Hall. destruct (locks_ok_queue ent hs lt r) as [q Hq]; [done..|].
  destruct (rdlock_spec R N hs lt r q t cm) as (res & cm' & lt' & Hrun & Hok' & HQ & Hs).
  { apply Hok. } { done. } { done. } { by eapply locks_ok_not_queued. } { intros b. by eapply all_held_no_wait. }
  exists res, cm', lt'. split_and!; [done| |done]. by eapply locks_ok_request.
Qed.

Lemma request_write ent hs lt t ph r cm :
  locks_ok ent hs lt → r < R → 0 < t < N → ent t !! r = None → all_held ent hs t → is_writer ph →
  ∃ res cm' lt', wrlock t ph r cm lt = Ok ((res, cm'), lt') ∧
    locks_ok (requested ent r t ph res) (granted hs r t res) lt' ∧
    (res = SLEEPING → cond_var lt' !! t = Some true).
Proof.
  intros Hok Hr Ht He Hall Hph. destruct (locks_ok_queue ent hs lt r) as [q Hq]; [done..|].
  destruct (wrlock_spec R N hs lt r q t ph cm) as (res & cm' & lt' & Hrun & Hok' & HQ & Hs & _).
  { apply Hok. } { done. } { done. } { by eapply locks_ok_not_queued. } { done. } { intros b. by eapply all_held_no_wait. }
  exists res, cm', lt'. split_and!; [done| |done]. by eapply locks_ok_request.
Qed.

(** ** Wake-ups *)

Lemma locks_ok_granted ent hs lt r t res lt' :
  locks_ok ent hs lt → is_Some (ent t !! r) → table_ok R N (granted hs r t res) lt' →
  record_wait_queues lt' = record_wait_queues lt →
  locks_ok ent (granted hs r t res) lt'.
Proof.
  intros Hok He Hok' HQ. split; [done|rewrite HQ; apply Hok|apply Hok|].
  intros t' r'. unfold granted. case_decide; [|apply Hok].
  destruct (decide (r' = r)) as [->|]; [|rewrite fn_lookup_insert_ne by done; apply Hok].
  rewrite fn_lookup_insert. intros [->%elem_of_singleton|Hin]%elem_of_union; [done|by apply Hok].
Qed.

Lemma wakeup_read ent hs lt t r :
  locks_ok ent hs lt → ent t !! r = Some READ → t ∉ hs r →
  ∃ res lt', rdlock_wakeup t r lt = Ok (res, lt') ∧ res ≠ ABORTED ∧
    locks_ok ent (granted hs r t res) lt' ∧ (res = LOCKED → cond_var lt' = cond_var lt).
Proof.
  intros Hok He Hn. destruct (locks_ok_elem ent hs lt t r READ) as (q & p & Hr & Hq & Hp & Ht & _); [done..|].
  destruct (rdlock_wakeup_spec R N hs lt r q p (mk_wait_q_elem t READ)) as (res & lt' & Hrun & Hna & Hok' & HQ & _ & Hs);
    [apply Hok|done..|].
  exists res, lt'. split_and!; [done|done|by eapply locks_ok_granted; eauto|done].
Qed.

Lemma wakeup_write ent hs lt t r ph :
  locks_ok ent hs lt → ent t !! r = Some ph → is_writer ph → t ∉ hs r →
  ∃ res lt', wrlock_wakeup t r lt = Ok (res, lt') ∧ res ≠ ABORTED ∧
    locks_ok ent (granted hs r t res) lt' ∧ (res = LOCKED → cond_var lt' = cond_var lt).
Proof.
  intros Hok He Hph Hn. destruct (locks_ok_elem ent hs lt t r ph) as (q & p & Hr & Hq & Hp & Ht & _); [done..|].
  destruct (wrlock_wakeup_spec R N hs lt r q p (mk_wait_q_elem t ph)) as (res & lt' & Hrun & Hna & Hok' & HQ & _ & Hs);
    [apply Hok|done..| |done|]; [by destruct Hph as [-> | ->]|].
  exists res, lt'. split_and!; [done|done|by eapply locks_ok_granted; eauto|done].
Qed.

(** ** Release *)

Lemma locks_ok_phase ent hs lt r q p e :
  locks_ok ent hs lt → record_wait_queues lt !! r = Some q → q !! p = Some e →
  ent (wq_tid e) !! r = Some (wq_phase e).
Proof. intros Hok Hq Hp. apply (lok_queue _ _ _ _ _ Hok r q); [done|]. by eapply list_elem_of_lookup_2. Qed.

Lemma elem_of_delete_queue q p x e :
  NoDup (tids q) → q !! p = Some x → e ∈ delete p q ↔ e ∈ q ∧ wq_tid e ≠ wq_tid x.
Proof.
  intros Hnd Hp. assert (Hperm : q ≡ₚ x :: delete p q) by (by apply delete_Permutation).
  assert (Hnd' : NoDup (tids (x :: delete p q))).
  { unfold tids in *. by rewrite <- Hperm. }
  apply NoDup_cons in Hnd' as [Hnin _].
  assert (Hq : e ∈ q ↔ e = x ∨ e ∈ delete p q) by (by rewrite Hperm at 1; rewrite elem_of_cons).
  rewrite Hq. split.
  - intros He. split; [by right|]. intros Heq. apply Hnin. rewrite <- Heq. by apply list_elem_of_fmap_2.
  - intros [[->|?] ?]; done.
Qed.

Lemma release ent hs lt t r :
  locks_ok ent hs lt → t ∈ hs r →
  ∃ lt', unlock t r lt = Ok (true, lt') ∧
    locks_ok (<[t := delete r (ent t)]> ent) (<[r := hs r ∖ {[t]}]> hs) lt'.
Proof.
  intros Hok Ht. destruct (lok_held _ _ _ _ _ Hok t r Ht) as [ph He].
  destruct (locks_ok_elem ent hs lt t r ph) as (q & _ & Hr & Hq & _); [done..|].
  destruct (unlock_spec R N hs lt r q t) as (p & x & lt' & (Hp & _) & <- & Hrun & Hok' & HQ); [apply Hok|done..|].
  exists lt'. split; [done|].
  destruct (queue_record_ok _ _ hs lt r q (lok_table _ _ _ _ _ Hok) Hq) as (st & c & _ & _ & Hrec).
  assert (Hd := λ e, elem_of_delete_queue q p x e (rok_nodup _ _ _ _ _ Hrec) Hp).
  split; [done|..].
  - intros r' q' e Hq'. rewrite HQ in Hq'. destruct (decide (r' = r)) as [->|Hne].
    + rewrite list_lookup_insert_eq in Hq' by (by eapply lookup_lt_Some). injection Hq' as <-.
      rewrite Hd, (lok_queue _ _ _ _ _ Hok r q) by done.
      destruct (decide (wq_tid e = wq_tid x)) as [->|Hnt].
      * rewrite fn_lookup_insert, lookup_delete_eq. naive_solver.
      * rewrite fn_lookup_insert_ne by done. naive_solver.
    + rewrite list_lookup_insert_ne in Hq' by done. rewrite (lok_queue _ _ _ _ _ Hok r' q') by done.
      destruct (decide (wq_tid e = wq_tid x)) as [->|Hnt].
      * by rewrite fn_lookup_insert, lookup_delete_ne.
      * by rewrite fn_lookup_insert_ne.
  - intros t' r'. destruct (decide (t' = wq_tid x)) as [->|]; [|rewrite fn_lookup_insert_ne by done; apply Hok].
    rewrite fn_lookup_insert. destruct (decide (r' = r)) as [->|]; [by rewrite lookup_delete_eq; intros []|].
    rewrite lookup_delete_ne by done. apply Hok.
  - intros t' r'. assert (Hh := lok_held _ _ _ _ _ Hok t' r').
    destruct (decide (r' = r)) as [->|].
    + rewrite fn_lookup_insert, elem_of_difference, elem_of_singleton. intros [Hin Hne].
      rewrite fn_lookup_insert_ne by done. by apply Hh.
    + rewrite fn_lookup_insert_ne by done. intros Hin%Hh.
      destruct (decide (t' = wq_tid x)) as [->|]; [|by rewrite fn_lookup_insert_ne].
      by rewrite fn_lookup_insert, lookup_delete_ne.
Qed.

(** ** What holding a lock means *)

Lemma write_exclusive ent hs lt t r ph t' :
  locks_ok ent hs lt → ent t !! r = Some ph → ph ≠ READ → t ∈ hs r → t' ∈ hs r → t' = t.
Proof.
  intros Hok He Hph Ht Ht'. destruct (locks_ok_elem ent hs lt t r ph) as (q & _ & Hr & Hq & _); [done..|].
  destruct (queue_record_ok _ _ hs lt r q (lok_table _ _ _ _ _ Hok) Hq) as (st & c & _ & _ & Hrec).
  destruct (rok_held _ _ _ _ _ Hrec t Ht) as (p & e & (Hp & _ & Hor) & <-).
  assert (He' := locks_ok_phase ent hs lt r q p e Hok Hq Hp).
  assert (Hx : is_read e = false) by (apply bool_decide_eq_false; congruence).
  destruct Hor as [?| ->]; [congruence|]. assert (Hs := rok_status _ _ _ _ _ Hrec).
  destruct st; [done|set_solver|destruct Hs as [(e' & ? & ?) _]; congruence|].
  destruct Hs as (e' & ? & ? & Hh & _). simplify_eq. set_solver.
Qed.

Lemma asleep_waits ent hs lt t :
  locks_ok ent hs lt → cond_var lt !! t = Some true →
  ∃ r, is_Some (ent t !! r) ∧ t ∉ hs r.
Proof.
  intros Hok Hs. destruct (tok_sleep _ _ _ _ (lok_table _ _ _ _ _ Hok) t Hs) as (b & r & q & Hq & Hw).
  destruct (queue_record_ok _ _ hs lt r q (lok_table _ _ _ _ _ Hok) Hq) as (st & c & _ & _ & Hrec).
  exists r. split; [|intros ?; by eapply held_not_waiting].
  destruct Hw as (et & eb & (i & j & _ & _ & Hj & _) & <- & _). eexists. by eapply locks_ok_phase.
Qed.

(** A sleeping thread has an awake thread to wait for, directly or through
    others: some thread with an entry is not asleep. *)
Lemma someone_awake ent hs lt t :
  locks_ok ent hs lt → cond_var lt !! t = Some true →
  ∃ u r, is_Some (ent u !! r) ∧ cond_var lt !! u = Some false.
Proof.
  intros Hok Hs. assert (Htok := lok_table _ _ _ _ _ Hok).
  set (X := list_to_set (filter (λ u, cond_var lt !! u = Some true) (seq 0 N)) : gset nat).
  assert (HX : ∀ u, u ∈ X ↔ cond_var lt !! u = Some true).
  { intros u. unfold X. rewrite elem_of_list_to_set, list_elem_of_filter, elem_of_seq. split; [by intros []|].
    intros Hu. split; [done|]. rewrite <- (tok_len_cond _ _ _ _ Htok). apply lookup_lt_Some in Hu. lia. }
  destruct (acyclic_sink (wait_for_graph lt) X) as (x & Hx & Hsink); [apply Htok|set_solver|].
  destruct (tok_sleep _ _ _ _ Htok x) as [b Hb]; [by apply HX|].
  assert (Hnb : b ∉ X) by (by apply Hsink, (tok_edges _ _ _ _ Htok)).
  destruct Hb as (r & q & Hq & et & eb & (i & j & _ & Hi & _) & _ & <-).
  assert (He := locks_ok_phase ent hs lt r q i eb Hok Hq Hi). exists (wq_tid eb), r. split; [by eexists|].
  destruct (locks_ok_elem ent hs lt (wq_tid eb) r (wq_phase eb)) as (_ & _ & _ & _ & _ & Ht & _); [done..|].
  rewrite <- (tok_len_cond _ _ _ _ Htok) in Ht.
  destruct (lookup_lt_is_Some_2 (cond_var lt) (wq_tid eb)) as [[] Hc]; [lia| |done].
  by apply HX in Hc.
Qed.

(** ** The contract by thread

    The same contract with the holders listed by thread: [ho t] are the records
    thread [t] holds. This is the form the transactions use. *)

Definition locks_inv (en : nat → gmap nat phase_t) (ho : nat → gset nat) (lt : rw_lock_table) : Prop :=
  ∃ hs, locks_ok en hs lt ∧ ∀ t r, t ∈ hs r ↔ r ∈ ho t.

Lemma locks_inv_ext en en' ho ho' lt :
  (∀ t, en t = en' t) → (∀ t, ho t = ho' t) → locks_inv en ho lt → locks_inv en' ho' lt.
Proof.
  intros He Hh (hs & Hok & Heq). exists hs. split; [by eapply locks_ok_ext|]. intros t r. rewrite <- Hh. apply Heq.
Qed.

Definition held_after (ho : nat → gset nat) (r t : nat) (res : lock_result) : nat → gset nat :=
  if decide (res = LOCKED) then <[t := {[r]} ∪ ho t]> ho else ho.

Lemma granted_held_after hs ho r t res :
  (∀ t r, t ∈ hs r ↔ r ∈ ho t) → ∀ t' r', t' ∈ granted hs r t res r' ↔ r' ∈ held_after ho r t res t'.
Proof.
  intros Heq t' r'. unfold granted, held_after. case_decide; [|done].
  destruct (decide (r' = r)) as [->|], (decide (t' = t)) as [->|];
    rewrite ?fn_lookup_insert, ?fn_lookup_insert_ne by done; set_solver.
Qed.

Lemma dom_all_held en hs ho t :
  (∀ t r, t ∈ hs r ↔ r ∈ ho t) → dom (en t) ⊆ ho t → all_held en hs t.
Proof. intros Heq Hd r Hr. apply Heq, Hd. by apply elem_of_dom. Qed.

Lemma inv_request_read en ho lt t r cm :
  locks_inv en ho lt → r < R → 0 < t < N → en t !! r = None → dom (en t) ⊆ ho t →
  ∃ res cm' lt', rdlock t r cm lt = Ok ((res, cm'), lt') ∧
    locks_inv (requested en r t READ res) (held_after ho r t res) lt'.
Proof.
  intros (hs & Hok & Heq) Hr Ht He Hd.
  destruct (request_read en hs lt t r cm) as (res & cm' & lt' & Hrun & Hok' & _); [done..|by eapply dom_all_held|].
  exists res, cm', lt'. split; [done|]. eexists. split; [done|]. by apply granted_held_after.
Qed.

Lemma inv_request_write en ho lt t ph r cm :
  locks_inv en ho lt → r < R → 0 < t < N → en t !! r = None → dom (en t) ⊆ ho t → is_writer ph →
  ∃ res cm' lt', wrlock t ph r cm lt = Ok ((res, cm'), lt') ∧
    locks_inv (requested en r t ph res) (held_after ho r t res) lt'.
Proof.
  intros (hs & Hok & Heq) Hr Ht He Hd Hph.
  destruct (request_write en hs lt t ph r cm) as (res & cm' & lt' & Hrun & Hok' & _); [done..|by eapply dom_all_held|done|].
  exists res, cm', lt'. split; [done|]. eexists. split; [done|]. by apply granted_held_after.
Qed.

Lemma inv_wakeup_read en ho lt t r :
  locks_inv en ho lt → en t !! r = Some READ → r ∉ ho t →
  ∃ res lt', rdlock_wakeup t r lt = Ok (res, lt') ∧ res ≠ ABORTED ∧
    locks_inv en (held_after ho r t res) lt' ∧ (res = LOCKED → cond_var lt' = cond_var lt).
Proof.
  intros (hs & Hok & Heq) He Hn.
  destruct (wakeup_read en hs lt t r) as (res & lt' & Hrun & Hna & Hok' & Hcv); [done..|by rewrite Heq|].
  exists res, lt'. split_and!; [done..| |done]. eexists. split; [done|]. by apply granted_held_after.
Qed.

Lemma inv_wakeup_write en ho lt t r ph :
  locks_inv en ho lt → en t !! r = Some ph → is_writer ph → r ∉ ho t →
  ∃ res lt', wrlock_wakeup t r lt = Ok (res, lt') ∧ res ≠ ABORTED ∧
    locks_inv en (held_after ho r t res) lt' ∧ (res = LOCKED → cond_var lt' = cond_var lt).
Proof.
  intros (hs & Hok & Heq) He Hph Hn.
  destruct (wakeup_write en hs lt t r ph) as (res & lt' & Hrun & Hna & Hok' & Hcv); [done..|by rewrite Heq|].
  exists res, lt'. split_and!; [done..| |done]. eexists. split; [done|]. by apply granted_held_after.
Qed.

Lemma inv_release en ho lt t r :
  locks_inv en ho lt → r ∈ ho t →
  ∃ lt', unlock t r lt = Ok (true, lt') ∧
    locks_inv (<[t := delete r (en t)]> en) (<[t := ho t ∖ {[r]}]> ho) lt'.
Proof.
  intros (hs & Hok & Heq) Hr. destruct (release en hs lt t r) as (lt' & Hrun & Hok'); [done|by apply Heq|].
  exists lt'. split; [done|]. eexists. split; [done|]. intros t' r'.
  destruct (decide (r' = r)) as [->|], (decide (t' = t)) as [->|];
    rewrite ?fn_lookup_insert, ?fn_lookup_insert_ne by done; set_solver.
Qed.

Lemma inv_exclusive en ho lt t r ph t' :
  locks_inv en ho lt → en t !! r = Some ph → ph ≠ READ → r ∈ ho t → r ∈ ho t' → t' = t.
Proof.
  intros (hs & Hok & Heq) He Hph Ht Ht'. eapply write_exclusive; [done..| |]; by apply Heq.
Qed.

Lemma inv_asleep en ho lt t :
  locks_inv en ho lt → cond_var lt !! t = Some true → ∃ r, is_Some (en t !! r) ∧ r ∉ ho t.
Proof.
  intros (hs & Hok & Heq) Hs. destruct (asleep_waits en hs lt t) as (r & ? & Hn); [done..|].
  exists r. by rewrite <- Heq.
Qed.

Lemma inv_someone_awake en ho lt t :
  locks_inv en ho lt → cond_var lt !! t = Some true → ∃ u r, is_Some (en u !! r) ∧ cond_var lt !! u = Some false.
Proof. intros (hs & Hok & Heq). by eapply someone_awake. Qed.

(** The lock table the constructor builds. *)
Lemma new_lock_table_inv :
  (Z.of_nat N ≤ 2 ^ 32)%Z → locks_inv (λ _, ∅) (λ _, ∅) (new_rw_lock_table R N).
Proof.
  intros HN. assert (Hq : ∀ r q, replicate R [] !! r = Some q → q = @nil wait_q_elem_t).
  { intros r q Hq. by apply lookup_replicate in Hq as [? _]. }
  assert (Hqe : ∀ a b, ¬ queue_edges (replicate R []) a b).
  { intros a b (r & q & ->%Hq & et & eb & (i & j & _ & Hi & _) & _). by rewrite lookup_nil in Hi. }
  exists (λ _, ∅). split; [|set_solver]. split; simpl.
  - assert (He := new_directed_graph_edges N).
    split; simpl; rewrite ?length_replicate; try done.
    + apply new_directed_graph_ok.
    + intros a Ha. inversion Ha; by eapply He.
    + intros r st c q [-> _]%lookup_replicate [-> _]%lookup_replicate ->%Hq.
      split; [constructor|set_solver..|done].
    + intros a b. split; intros Hab; exfalso; [by eapply He|by eapply Hqe].
    + intros a r q b r' q' b' H1 Hw. exfalso. apply (Hqe a b). by exists r, q.
    + intros t [? _]%lookup_replicate. done.
  - intros r q e ->%Hq. rewrite lookup_empty. set_solver.
  - intros t r. rewrite lookup_empty. by intros [].
  - set_solver.
Qed.
End manager.
