(* ===== verification/Transaction.v ===== *)
(** The transactions of project 2: [project2/src/transaction.cc] and the set-up
    of [project2/src/main.cc].

    A thread is a program counter and its local variables; [thread_step] is one
    step of the body of [transaction]. A step is either a region that runs with
    the global mutex held, or one access to shared memory made without it, or
    local computation. [world_step] runs one step of one thread. The argument
    [rnd] is the value the next call of [rand] returns. *)
From stdpp Require Import functions base tactics numbers option list list_numbers gmap sets relations.
From Stdlib Require Import ZArith Lia.
From S2P Require Import Prelude DirectedGraph LockTable.

(** ** Data *)

(** [log_t]; [cycle_member] is a pointer to a local vector of [transaction],
    kept in [thread]. *)
Record log_t : Type := mk_log {
  log_tid : nat;
  current_phase : phase_t;
  is_done : bool;
  commit_id : Z;
  log_i : nat;
  log_j : nat;
  log_k : nat;
  value_of_i : Z;
  value_of_j : Z;
  value_of_k : Z;
}.

(** [memset(&log, 0, sizeof(log_t))] and the assignment of [log.tid]. *)
Definition new_log (tid : nat) : log_t := mk_log tid INVALID false 0 0 0 0 0 0 0.

Definition set_phase (ph : phase_t) (l : log_t) : log_t :=
  mk_log (log_tid l) ph (is_done l) (commit_id l) (log_i l) (log_j l) (log_k l) (value_of_i l) (value_of_j l) (value_of_k l).
Definition set_commit_id (c : Z) (l : log_t) : log_t :=
  mk_log (log_tid l) (current_phase l) (is_done l) c (log_i l) (log_j l) (log_k l) (value_of_i l) (value_of_j l) (value_of_k l).
Definition set_ids (i j k : nat) (l : log_t) : log_t :=
  mk_log (log_tid l) (current_phase l) (is_done l) (commit_id l) i j k (value_of_i l) (value_of_j l) (value_of_k l).
Definition set_values (vi vj vk : Z) (l : log_t) : log_t :=
  mk_log (log_tid l) (current_phase l) (is_done l) (commit_id l) (log_i l) (log_j l) (log_k l) vi vj vk.

(** A line of a thread's log file. *)
Record log_line : Type := mk_line {
  l_commit_id : Z;
  l_i : nat;
  l_j : nat;
  l_k : nat;
  l_value_of_i : Z;
  l_value_of_j : Z;
  l_value_of_k : Z;
}.

Definition line_of (l : log_t) : log_line :=
  mk_line (commit_id l) (log_i l) (log_j l) (log_k l) (value_of_i l) (value_of_j l) (value_of_k l).

(** Where a thread is in the body of [transaction]. *)
Inductive pc_t : Type :=
| LOOP_HEAD    (* while (global_execution_order <= E) *)
| CHOOSE_I | CHOOSE_J | CHOOSE_K
| READ_LOCK | READ_WAIT | READ_I
| FIRST_LOCK | FIRST_WAIT | OLD_J | LOAD_J | STORE_J
| SECOND_LOCK | SECOND_WAIT | OLD_K | LOAD_K | STORE_K
| COMMITTING
| FINISHED.

#[global] Instance pc_eq_dec : EqDecision pc_t.
Proof. solve_decision. Defined.

(** The local variables; [loaded] is the value loaded by the read half of a
    [+=] or [-=] on a record, and [log_file] the lines written so far. *)
Record thread : Type := mk_thread {
  pc : pc_t;
  tlog : log_t;
  cycle_member : list nat;
  old_value : Z;
  loaded : Z;
  log_file : list log_line;
}.

Definition goto (p : pc_t) (th : thread) : thread :=
  mk_thread p (tlog th) (cycle_member th) (old_value th) (loaded th) (log_file th).
Definition set_log (l : log_t) (th : thread) : thread :=
  mk_thread (pc th) l (cycle_member th) (old_value th) (loaded th) (log_file th).
Definition set_cycle (cm : list nat) (th : thread) : thread :=
  mk_thread (pc th) (tlog th) cm (old_value th) (loaded th) (log_file th).
Definition set_old (v : Z) (th : thread) : thread :=
  mk_thread (pc th) (tlog th) (cycle_member th) v (loaded th) (log_file th).
Definition set_loaded (v : Z) (th : thread) : thread :=
  mk_thread (pc th) (tlog th) (cycle_member th) (old_value th) v (log_file th).
Definition append_line (ln : log_line) (th : thread) : thread :=
  mk_thread (pc th) (tlog th) (cycle_member th) (old_value th) (loaded th) (log_file th ++ [ln]).

(** The global variables the threads share. *)
Record shared : Type := mk_shared {
  lock_table : rw_lock_table;
  records : list Z;
  global_execution_order : Z;
}.

Definition set_lock_table (lt : rw_lock_table) (s : shared) : shared :=
  mk_shared lt (records s) (global_execution_order s).
Definition set_records (l : list Z) (s : shared) : shared :=
  mk_shared (lock_table s) l (global_execution_order s).
Definition set_order (n : Z) (s : shared) : shared :=
  mk_shared (lock_table s) (records s) n.

Notation TX := (M shared).

Definition on_lock_table {A} (m : LT A) : TX A := zoom lock_table set_lock_table m.

Definition read_value (r : nat) : TX Z :=
  s ← gets id; deref (records s !! r).
Definition write_value (r : nat) (v : Z) : TX unit :=
  _ ← read_value r; modify (λ s, set_records (<[r := v]> (records s)) s).

(** ** Locking *)

Definition read_record (l : log_t) (cm : list nat) : TX (lock_result * list nat) :=
  on_lock_table (rdlock (log_tid l) (log_i l) cm).
Definition first_write_record (l : log_t) (cm : list nat) : TX (lock_result * list nat) :=
  on_lock_table (wrlock (log_tid l) FIRST_WRITE (log_j l) cm).
Definition second_write_record (l : log_t) (cm : list nat) : TX (lock_result * list nat) :=
  on_lock_table (wrlock (log_tid l) SECOND_WRITE (log_k l) cm).

Definition unlock_record (l : log_t) (r : nat) : TX unit :=
  _ ← on_lock_table (unlock (log_tid l) r); mret tt.

(** ** Rollback *)

Definition rollback_commit (l : log_t) : TX unit :=
  v ← read_value (log_k l); write_value (log_k l) (wrap_i64 (v + value_of_i l)).

Definition rollback_second_write (l : log_t) : TX unit :=
  _ ← (if decide (current_phase l = SECOND_WRITE) then mret tt else unlock_record l (log_k l));
  v ← read_value (log_j l);
  write_value (log_j l) (wrap_i64 (v - wrap_i64 (value_of_i l + 1))).

Definition rollback_first_write (l : log_t) : TX unit :=
  if decide (current_phase l = FIRST_WRITE) then mret tt else unlock_record l (log_j l).

Definition rollback_read (l : log_t) : TX unit :=
  if decide (current_phase l = READ) then mret tt else unlock_record l (log_i l).

(** The cases of the [switch] fall through. *)
Definition rollback (l : log_t) : TX unit :=
  match current_phase l with
  | COMMIT =>
      _ ← rollback_commit l; _ ← rollback_second_write l; _ ← rollback_first_write l; rollback_read l
  | SECOND_WRITE => _ ← rollback_second_write l; _ ← rollback_first_write l; rollback_read l
  | FIRST_WRITE => _ ← rollback_first_write l; rollback_read l
  | READ => rollback_read l
  | INVALID => assert_ false
  end.

Definition release_locks (l : log_t) : TX unit :=
  _ ← unlock_record l (log_i l);
  _ ← unlock_record l (log_j l);
  unlock_record l (log_k l).

(** ** The body of [transaction] *)

(** [rand() % R]. *)
Definition rand_mod (R rnd : nat) : TX nat :=
  if R =? 0 then fail UndefinedBehaviour else mret (rnd mod R).

(** What follows a call that acquires a lock: a refused request rolls back and
    continues with the next transaction. *)
Definition after_lock (th : thread) (wait_pc locked_pc : pc_t) (r : lock_result) : TX (option thread) :=
  match r with
  | LOCKED => mret (Some (goto locked_pc th))
  | SLEEPING => mret (Some (goto wait_pc th))
  | ABORTED => _ ← rollback (tlog th); mret (Some (goto LOOP_HEAD th))
  end.

(** The two overflow tests. They expect signed sums to wrap around, and the model does it;
    C++ leaves the overflow undefined, and the Makefile does not ask for [-fwrapv]. *)
Definition overflow_j (old target new : Z) : bool := ((0 <? old) && (0 <? target) && (new <? 0))%Z.
Definition overflow_k (old target new : Z) : bool := ((old <? 0) && (target <? 0) && (0 <? new))%Z.

(** The commit region. *)
Definition commit (E : Z) (th : thread) : TX (option thread) :=
  n ← gets global_execution_order;
  let n' := wrap_u64 (n + 1) in
  _ ← modify (set_order n');
  let th := set_log (set_commit_id n' (tlog th)) th in
  if (E <? n')%Z then
    _ ← rollback (tlog th); mret (Some (goto FINISHED th))
  else
    let th := append_line (line_of (tlog th)) th in
    _ ← release_locks (tlog th); mret (Some (goto LOOP_HEAD th)).

(** [None] is [exit(1)]. *)
Definition thread_step (R : nat) (E : Z) (rnd : nat) (th : thread) : TX (option thread) :=
  let l := tlog th in
  match pc th with
  | LOOP_HEAD =>
      n ← gets global_execution_order;
      mret (Some (goto (if (n <=? E)%Z then CHOOSE_I else FINISHED) th))
  | CHOOSE_I =>
      i ← rand_mod R rnd;
      mret (Some (goto CHOOSE_J (set_log (set_ids i 0 0 (new_log (log_tid l))) th)))
  | CHOOSE_J =>
      j ← rand_mod R rnd;
      let th := set_log (set_ids (log_i l) j (log_k l) l) th in
      mret (Some (if log_i l =? j then th else goto CHOOSE_K th))
  | CHOOSE_K =>
      k ← rand_mod R rnd;
      let l := set_ids (log_i l) (log_j l) k l in
      mret (Some (if (k =? log_i l) || (k =? log_j l) then set_log l th
                  else goto READ_LOCK (set_log (set_phase READ l) th)))
  | READ_LOCK =>
      '(r, cm) ← read_record l (cycle_member th);
      after_lock (set_cycle cm th) READ_WAIT READ_I r
  | READ_WAIT =>
      r ← on_lock_table (rdlock_wakeup (log_tid l) (log_i l));
      after_lock th READ_WAIT READ_I r
  | READ_I =>
      v ← read_value (log_i l);
      mret (Some (goto FIRST_LOCK (set_log (set_phase FIRST_WRITE (set_values v (value_of_j l) (value_of_k l) l)) th)))
  | FIRST_LOCK =>
      '(r, cm) ← first_write_record l (cycle_member th);
      after_lock (set_cycle cm th) FIRST_WAIT OLD_J r
  | FIRST_WAIT =>
      r ← on_lock_table (wrlock_wakeup (log_tid l) (log_j l));
      after_lock th FIRST_WAIT OLD_J r
  | OLD_J => v ← read_value (log_j l); mret (Some (goto LOAD_J (set_old v th)))
  | LOAD_J => v ← read_value (log_j l); mret (Some (goto STORE_J (set_loaded v th)))
  | STORE_J =>
      let target_value := wrap_i64 (value_of_i l + 1) in
      let v := wrap_i64 (loaded th + target_value) in
      _ ← write_value (log_j l) v;
      if overflow_j (old_value th) target_value v then mret None
      else mret (Some (goto SECOND_LOCK
                         (set_log (set_phase SECOND_WRITE (set_values (value_of_i l) v (value_of_k l) l)) th)))
  | SECOND_LOCK =>
      '(r, cm) ← second_write_record l (cycle_member th);
      after_lock (set_cycle cm th) SECOND_WAIT OLD_K r
  | SECOND_WAIT =>
      r ← on_lock_table (wrlock_wakeup (log_tid l) (log_k l));
      after_lock th SECOND_WAIT OLD_K r
  | OLD_K => v ← read_value (log_k l); mret (Some (goto LOAD_K (set_old v th)))
  | LOAD_K => v ← read_value (log_k l); mret (Some (goto STORE_K (set_loaded v th)))
  | STORE_K =>
      let target_value := wrap_i64 (- value_of_i l) in
      let v := wrap_i64 (loaded th - value_of_i l) in
      _ ← write_value (log_k l) v;
      if overflow_k (old_value th) target_value v then mret None
      else mret (Some (goto COMMITTING
                         (set_log (set_phase COMMIT (set_values (value_of_i l) (value_of_j l) v l)) th)))
  | COMMITTING => commit E th
  | FINISHED => mret (Some th)
  end.

(** ** The whole program *)

Record world : Type := mk_world {
  wshared : shared;
  threads : list thread;
  exited : bool;
}.

(** [initialize_global_variables] and the creation of the threads. Entry 0 of
    [threads] is the animation thread, which runs no transaction. *)
Definition new_thread (tid : nat) : thread :=
  mk_thread (if tid =? 0 then FINISHED else LOOP_HEAD) (new_log tid) [] 0 0 [].

Definition init_world (N R : nat) : world :=
  mk_world (mk_shared (new_rw_lock_table R N) (replicate R 100%Z) 0) (map new_thread (seq 0 N)) false.

(** One step of thread [tid]; [None] when it has none to make. *)
Definition world_step (R : nat) (E : Z) (tid rnd : nat) (w : world) : option (res world) :=
  if exited w then None else
  match threads w !! tid with
  | None => None
  | Some th =>
      if decide (pc th = FINISHED) then None else
      Some (match thread_step R E rnd th (wshared w) with
            | Ok (Some th', s) => Ok (mk_world s (<[tid := th']> (threads w)) false)
            | Ok (None, s) => Ok (mk_world s (threads w) true)
            | Err e => Err e
            end)
  end.

Inductive step (R : nat) (E : Z) : world → world → Prop :=
| step_thread w tid rnd w' : world_step R E tid rnd w = Some (Ok w') → step R E w w'.

Definition reachable (N R : nat) (E : Z) (w : world) : Prop := rtc (step R E) (init_world N R) w.

(** Running a schedule: a list of thread ids, each with its next random number. *)
Fixpoint run (R : nat) (E : Z) (schedule : list (nat * nat)) (w : world) : option world :=
  match schedule with
  | [] => Some w
  | (tid, rnd) :: schedule' =>
      match world_step R E tid rnd w with
      | Some (Ok w') => run R E schedule' w'
      | _ => None
      end
  end.

Lemma run_reachable N R E schedule w :
  run R E schedule (init_world N R) = Some w → reachable N R E w.
Proof.
  unfold reachable. generalize (init_world N R) as w0. induction schedule as [|[tid rnd] sch IH]; intros w0 Hr; simpl in Hr.
  - injection Hr as ->. done.
  - destruct (world_step R E tid rnd w0) as [[w1|]|] eqn:Hs; try done.
    eapply rtc_l; [by eapply step_thread|]. by apply IH.
Qed.

(** ** The overflow tests *)

Lemma overflow_j_exact old target :
  i64 old → i64 target →
  overflow_j old target (wrap_i64 (old + target)) = true ↔ (2 ^ 63 ≤ old + target)%Z.
Proof.
  unfold i64, overflow_j, wrap_i64. intros Ho Ht.
  rewrite !andb_true_iff, !Z.ltb_lt.
  destruct (decide (2 ^ 63 ≤ old + target)%Z) as [Hb|Hb].
  - replace ((old + target + 2 ^ 63) mod 2 ^ 64)%Z with (old + target - 2 ^ 63)%Z; [lia|].
    apply (Z.mod_unique _ _ 1); lia.
  - split; [|done]. intros [[? ?] Hn]. rewrite Z.mod_small in Hn; lia.
Qed.

Lemma overflow_k_exact old vi :
  i64 old → i64 vi → vi ≠ (- 2 ^ 63)%Z →
  overflow_k old (wrap_i64 (- vi)) (wrap_i64 (old - vi)) = true ↔ (old - vi < - 2 ^ 63)%Z.
Proof.
  unfold i64, overflow_k. intros Ho Hv Hne. rewrite (wrap_i64_id (- vi)) by (unfold i64; lia).
  unfold wrap_i64. rewrite !andb_true_iff, !Z.ltb_lt.
  destruct (decide (old - vi < - 2 ^ 63)%Z) as [Hb|Hb].
  - replace ((old - vi + 2 ^ 63) mod 2 ^ 64)%Z with (old - vi + 2 ^ 63 + 2 ^ 64)%Z; [lia|].
    apply (Z.mod_unique _ _ (-1)); lia.
  - split; [|done]. intros [[? ?] Hn]. rewrite Z.mod_small in Hn; lia.
Qed.

(** If signed sums wrap around: the test after the first write finds exactly the additions
    that exceed the largest [long long], unless [value_of_i] is that value, so that
    [value_of_i] + 1 has wrapped around already and the test never fires; the test after
    the second write finds exactly the subtractions below the smallest [long long], unless
    [value_of_i] is that value. *)
Lemma overflow_tests_exact old value_of_i :
  i64 old → i64 value_of_i →
  (let target := wrap_i64 (value_of_i + 1) in
   overflow_j old target (wrap_i64 (old + target)) = true ↔ (2 ^ 63 ≤ old + (value_of_i + 1))%Z ∧ value_of_i ≠ (2 ^ 63 - 1)%Z) ∧
  (value_of_i ≠ (- 2 ^ 63)%Z → overflow_k old (wrap_i64 (- value_of_i)) (wrap_i64 (old - value_of_i)) = true ↔ (old - value_of_i < - 2 ^ 63)%Z).
Proof.
  intros Ho Hx. split; [|intros; by apply overflow_k_exact]. cbv zeta. destruct (decide (value_of_i = 2 ^ 63 - 1)%Z) as [->|Hne].
  - change (wrap_i64 (2 ^ 63 - 1 + 1)) with (- 2 ^ 63)%Z. unfold overflow_j. rewrite !andb_true_iff, !Z.ltb_lt. lia.
  - rewrite (wrap_i64_id (value_of_i + 1)) by (unfold i64 in *; lia). rewrite overflow_j_exact by (done || (unfold i64 in *; lia)). tauto.
Qed.

(** The tests are not complete: the first write can wrap around below the
    smallest value, the second above the largest, and neither stops the program;
    and the second test stops it for a subtraction that does not wrap around. *)
Lemma overflow_tests_incomplete :
  (overflow_j (- 2 ^ 63) (wrap_i64 (-2 + 1)) (wrap_i64 (- 2 ^ 63 + wrap_i64 (-2 + 1))) = false ∧
   wrap_i64 (- 2 ^ 63 + wrap_i64 (-2 + 1)) ≠ (- 2 ^ 63 + (-2 + 1))%Z) ∧
  (overflow_k (2 ^ 63 - 1) (wrap_i64 1) (wrap_i64 (2 ^ 63 - 1 + 1)) = false ∧
   wrap_i64 (2 ^ 63 - 1 + 1) ≠ (2 ^ 63 - 1 + 1)%Z) ∧
  (overflow_k (-1) (wrap_i64 (- - 2 ^ 63)) (wrap_i64 (-1 - - 2 ^ 63)) = true ∧
   wrap_i64 (-1 - - 2 ^ 63) = (-1 - - 2 ^ 63)%Z).
Proof. vm_compute. repeat split; discriminate. Qed.
