(* ===== verification/TransactionInv.v ===== *)
(** The invariant of the running program.

    [serial] is the specification: a transaction executed alone. [world_ok]
    relates a state of the program to the serial execution of the transactions
    committed so far: [hist] is the list of their log lines in commit order and
    [db] the database that executing them one after the other produces. The
    locks each thread has asked for and holds follow from its program counter;
    the records differ from [db] only in the writes of running transactions,
    which hold the write locks. *)
From stdpp Require Import functions base tactics numbers option list list_numbers gmap sets relations.
From Stdlib Require Import ZArith Lia.
From S2P Require Import Prelude DirectedGraph LockTable WaitQueue LockInv LockSpec LockRelease LockManager Transaction.

(** ** The specification *)

(** On three distinct records: read [i], add its value plus one to [j], subtract
    it from [k]. *)
Definition serial (db : list Z) (i j k : nat) : option (list Z * (Z * Z * Z)) :=
  _ ← (if decide (i ≠ j ∧ i ≠ k ∧ j ≠ k) then Some tt else None);
  vi ← db !! i;
  oj ← db !! j;
  ok ← db !! k;
  let vj := wrap_i64 (oj + wrap_i64 (vi + 1)) in
  let vk := wrap_i64 (ok - vi) in
  Some (<[k := vk]> (<[j := vj]> db), (vi, vj, vk)).

(** A line is right for [db] when the serial transaction produces its values. *)
Definition replay_line (db : list Z) (ln : log_line) : option (list Z) :=
  '(db', vs) ← serial db (l_i ln) (l_j ln) (l_k ln);
  if decide (vs = (l_value_of_i ln, l_value_of_j ln, l_value_of_k ln)) then Some db' else None.

Fixpoint replay (db : list Z) (lines : list log_line) : option (list Z) :=
  match lines with
  | [] => Some db
  | ln :: lines' => db' ← replay_line db ln; replay db' lines'
  end.

Lemma replay_snoc db lines ln : replay db (lines ++ [ln]) = (db' ← replay db lines; replay_line db' ln).
Proof.
  revert db. induction lines as [|l lines IH]; intros db; simpl.
  - destruct (replay_line db ln); done.
  - destruct (replay_line db l); simpl; [apply IH|done].
Qed.

(** ** What a program counter implies *)

Definition queued (p : pc_t) : nat :=
  match p with
  | LOOP_HEAD | CHOOSE_I | CHOOSE_J | CHOOSE_K | READ_LOCK | FINISHED => 0
  | READ_WAIT | READ_I | FIRST_LOCK => 1
  | FIRST_WAIT | OLD_J | LOAD_J | STORE_J | SECOND_LOCK => 2
  | SECOND_WAIT | OLD_K | LOAD_K | STORE_K | COMMITTING => 3
  end.

Definition nheld (p : pc_t) : nat :=
  match p with
  | LOOP_HEAD | CHOOSE_I | CHOOSE_J | CHOOSE_K | READ_LOCK | READ_WAIT | FINISHED => 0
  | READ_I | FIRST_LOCK | FIRST_WAIT => 1
  | OLD_J | LOAD_J | STORE_J | SECOND_LOCK | SECOND_WAIT => 2
  | OLD_K | LOAD_K | STORE_K | COMMITTING => 3
  end.

Definition entries_n (n : nat) (l : log_t) : gmap nat phase_t :=
  match n with
  | 0 => ∅
  | 1 => <[log_i l := READ]> ∅
  | 2 => <[log_j l := FIRST_WRITE]> (<[log_i l := READ]> ∅)
  | _ => <[log_k l := SECOND_WRITE]> (<[log_j l := FIRST_WRITE]> (<[log_i l := READ]> ∅))
  end.

Definition holds_n (n : nat) (l : log_t) : gset nat :=
  match n with
  | 0 => ∅
  | 1 => {[log_i l]} ∪ ∅
  | 2 => {[log_j l]} ∪ ({[log_i l]} ∪ ∅)
  | _ => {[log_k l]} ∪ ({[log_j l]} ∪ ({[log_i l]} ∪ ∅))
  end.

Definition entries (th : thread) : gmap nat phase_t := entries_n (queued (pc th)) (tlog th).
Definition holds (th : thread) : gset nat := holds_n (nheld (pc th)) (tlog th).

Definition ent_of (ths : list thread) (t : nat) : gmap nat phase_t := from_option entries ∅ (ths !! t).
Definition holds_of (ths : list thread) (t : nat) : gset nat := from_option holds ∅ (ths !! t).

Definition in_transaction (p : pc_t) : bool :=
  match p with LOOP_HEAD | CHOOSE_I | CHOOSE_J | CHOOSE_K | FINISHED => false | _ => true end.

Definition phase_at (p : pc_t) : phase_t :=
  match p with
  | LOOP_HEAD | CHOOSE_I | CHOOSE_J | CHOOSE_K | FINISHED => INVALID
  | READ_LOCK | READ_WAIT | READ_I => READ
  | FIRST_LOCK | FIRST_WAIT | OLD_J | LOAD_J | STORE_J => FIRST_WRITE
  | SECOND_LOCK | SECOND_WAIT | OLD_K | LOAD_K | STORE_K => SECOND_WRITE
  | COMMITTING => COMMIT
  end.

Definition knows_i (p : pc_t) : bool :=
  match p with
  | FIRST_LOCK | FIRST_WAIT | OLD_J | LOAD_J | STORE_J
  | SECOND_LOCK | SECOND_WAIT | OLD_K | LOAD_K | STORE_K | COMMITTING => true
  | _ => false
  end.
Definition wrote_j (p : pc_t) : bool :=
  match p with SECOND_LOCK | SECOND_WAIT | OLD_K | LOAD_K | STORE_K | COMMITTING => true | _ => false end.
Definition wrote_k (p : pc_t) : bool :=
  match p with COMMITTING => true | _ => false end.

(** ** The invariant *)

Definition ids_ok (R : nat) (l : log_t) : Prop :=
  log_i l < R ∧ log_j l < R ∧ log_k l < R ∧ log_i l ≠ log_j l ∧ log_i l ≠ log_k l ∧ log_j l ≠ log_k l.

Record thread_ok (R : nat) (t : nat) (th : thread) : Prop := {
  thok_tid : log_tid (tlog th) = t;
  thok_zero : t = 0 → pc th = FINISHED;
  thok_choose : match pc th with
                | CHOOSE_J => log_i (tlog th) < R
                | CHOOSE_K => log_i (tlog th) < R ∧ log_j (tlog th) < R ∧ log_i (tlog th) ≠ log_j (tlog th)
                | _ => True
                end;
  thok_ids : in_transaction (pc th) = true → ids_ok R (tlog th) ∧ current_phase (tlog th) = phase_at (pc th);
}.

(** What a thread knows about the records. *)
Record claims (th : thread) (recs db : list Z) : Prop := {
  cl_i : knows_i (pc th) = true → db !! log_i (tlog th) = Some (value_of_i (tlog th));
  cl_load_j : pc th = STORE_J → recs !! log_j (tlog th) = Some (loaded th);
  cl_load_k : pc th = STORE_K → recs !! log_k (tlog th) = Some (loaded th);
  cl_j : wrote_j (pc th) = true → ∃ v, db !! log_j (tlog th) = Some v ∧
    recs !! log_j (tlog th) = Some (value_of_j (tlog th)) ∧
    value_of_j (tlog th) = wrap_i64 (v + wrap_i64 (value_of_i (tlog th) + 1));
  cl_k : wrote_k (pc th) = true → ∃ v, db !! log_k (tlog th) = Some v ∧
    recs !! log_k (tlog th) = Some (value_of_k (tlog th)) ∧
    value_of_k (tlog th) = wrap_i64 (v - value_of_i (tlog th));
}.

Definition dirty (th : thread) (r : nat) : Prop :=
  (wrote_j (pc th) = true ∧ r = log_j (tlog th)) ∨ (wrote_k (pc th) = true ∧ r = log_k (tlog th)).

Record data_ok (R : nat) (ths : list thread) (recs db : list Z) : Prop := {
  dok_len : length recs = R;
  dok_len_db : length db = R;
  dok_range : ∀ r v, db !! r = Some v → i64 v;
  dok_claims : ∀ t th, ths !! t = Some th → claims th recs db;
  dok_clean : ∀ r, (∀ t th, ths !! t = Some th → ¬ dirty th r) → recs !! r = db !! r;
}.

Definition count_finished (ths : list thread) : nat := length (filter (λ th, pc th = FINISHED) ths).

Record hist_ok (R : nat) (E : Z) (hist : list log_line) (db : list Z) (ths : list thread) (order : Z) : Prop := {
  hok_order : (0 ≤ order ≤ E + Z.of_nat (count_finished ths))%Z;
  hok_len : Z.of_nat (length hist) = Z.min order E;
  hok_ids : map l_commit_id hist = seqZ 1 (Z.of_nat (length hist));
  hok_replay : replay (replicate R 100%Z) hist = Some db;
  hok_files : hist ≡ₚ concat (map log_file ths);
}.

Record world_ok (R N : nat) (E : Z) (hist : list log_line) (db : list Z) (ths : list thread) (s : shared) : Prop := {
  wok_len : length ths = N;
  wok_threads : ∀ t th, ths !! t = Some th → thread_ok R t th;
  wok_locks : locks_inv R N (ent_of ths) (holds_of ths) (lock_table s);
  wok_data : data_ok R ths (records s) db;
  wok_hist : hist_ok R E hist db ths (global_execution_order s);
}.

(** ** Updating one thread *)

Lemma ent_of_insert ths t th th' u :
  ths !! t = Some th → ent_of (<[t := th']> ths) u = (<[t := entries th']> (ent_of ths) : nat → _) u.
Proof.
  intros Ht. unfold ent_of. destruct (decide (u = t)) as [->|].
  - rewrite list_lookup_insert_eq by (by eapply lookup_lt_Some). by rewrite fn_lookup_insert.
  - by rewrite list_lookup_insert_ne, fn_lookup_insert_ne.
Qed.

Lemma holds_of_insert ths t th th' u :
  ths !! t = Some th → holds_of (<[t := th']> ths) u = (<[t := holds th']> (holds_of ths) : nat → _) u.
Proof.
  intros Ht. unfold holds_of. destruct (decide (u = t)) as [->|].
  - rewrite list_lookup_insert_eq by (by eapply lookup_lt_Some). by rewrite fn_lookup_insert.
  - by rewrite list_lookup_insert_ne, fn_lookup_insert_ne.
Qed.

Lemma ent_of_lookup ths t th : ths !! t = Some th → ent_of ths t = entries th.
Proof. intros H. unfold ent_of. by rewrite H. Qed.
Lemma holds_of_lookup ths t th : ths !! t = Some th → holds_of ths t = holds th.
Proof. intros H. unfold holds_of. by rewrite H. Qed.

Lemma insert_thread_inv (P : nat → thread → Prop) (ths : list thread) t th th' :
  ths !! t = Some th → P t th' → (∀ u th0, u ≠ t → ths !! u = Some th0 → P u th0) →
  ∀ u th0, <[t := th']> ths !! u = Some th0 → P u th0.
Proof.
  intros Ht Hth' Hothers u th0. destruct (decide (u = t)) as [->|Hne].
  - rewrite list_lookup_insert_eq by (by eapply lookup_lt_Some). by intros [= <-].
  - rewrite list_lookup_insert_ne by done. by apply Hothers.
Qed.

Section inv.
Context (R N : nat) (E : Z).

Notation locks_inv := (locks_inv R N).
Notation data_ok := (data_ok R).
Notation world_ok := (world_ok R N E).
Notation hist_ok := (hist_ok R E).

Lemma locks_inv_same ths t th th' lt :
  locks_inv (ent_of ths) (holds_of ths) lt → ths !! t = Some th →
  entries th' = entries th → holds th' = holds th →
  locks_inv (<[t := entries th']> (ent_of ths)) (<[t := holds th']> (holds_of ths)) lt.
Proof.
  intros Hl Ht He Hh. eapply locks_inv_ext; [..|exact Hl]; intros u;
    (destruct (decide (u = t)) as [->|]; [rewrite fn_lookup_insert|by rewrite fn_lookup_insert_ne]).
  - rewrite He. by apply ent_of_lookup.
  - rewrite Hh. by apply holds_of_lookup.
Qed.

(** What a thread knows depends only on the records it holds. *)
Lemma claims_frame th recs db recs' db' :
  claims th recs db →
  (∀ r, r ∈ holds th → recs' !! r = recs !! r ∧ db' !! r = db !! r) → claims th recs' db'.
Proof.
  unfold holds. intros [Hi Hlj Hlk Hj Hk] Hf. split.
  - intros Hp. rewrite <- Hi by done. apply Hf. destruct (pc th); simpl in *; (done || set_solver).
  - intros Hp. rewrite <- Hlj by done. apply Hf. rewrite Hp; simpl. set_solver.
  - intros Hp. rewrite <- Hlk by done. apply Hf. rewrite Hp; simpl. set_solver.
  - intros Hp. destruct (Hj Hp) as (v & Hv & Hr & He). exists v.
    destruct (Hf (log_j (tlog th))) as [-> ->]; [|done]. destruct (pc th); simpl in *; (done || set_solver).
  - intros Hp. destruct (Hk Hp) as (v & Hv & Hr & He). exists v.
    destruct (Hf (log_k (tlog th))) as [-> ->]; [|done]. destruct (pc th); simpl in *; (done || set_solver).
Qed.

Lemma dirty_holds t th r :
  thread_ok R t th → dirty th r → r ∈ holds th ∧ ∃ ph, entries th !! r = Some ph ∧ ph ≠ READ.
Proof.
  intros Hok Hd. assert (Hin : in_transaction (pc th) = true).
  { by destruct Hd as [[Hd _]|[Hd _]]; destruct (pc th). }
  destruct (thok_ids _ _ _ Hok Hin) as [(_ & _ & _ & Hij & Hik & Hjk) _].
  unfold dirty, holds, entries in *. destruct Hd as [[Hw ->]|[Hw ->]].
  - split; [destruct (pc th); simpl in *; (done || set_solver)|]. exists FIRST_WRITE. split; [|done].
    destruct (pc th); simpl in *; try done; rewrite ?(lookup_insert_ne _ (log_k (tlog th))) by done; apply lookup_insert_eq.
  - split; [destruct (pc th); simpl in *; (done || set_solver)|]. exists SECOND_WRITE. split; [|done].
    destruct (pc th); simpl in *; try done; apply lookup_insert_eq.
Qed.

(** A record a thread holds for writing is held by no other thread. *)
Lemma write_held_alone hist db ths s t th r ph u th0 :
  world_ok hist db ths s → ths !! t = Some th → entries th !! r = Some ph → ph ≠ READ → r ∈ holds th →
  ths !! u = Some th0 → u ≠ t → r ∉ holds th0.
Proof.
  intros Hok Ht He Hph Hr Hu Hne Hr'. apply Hne. eapply inv_exclusive; [apply Hok|..].
  - by rewrite (ent_of_lookup ths t th).
  - done.
  - by rewrite (holds_of_lookup ths t th).
  - by rewrite (holds_of_lookup ths u th0).
Qed.

(** A record a thread holds and has not written has its committed value. *)
Lemma held_clean hist db ths s t th r :
  world_ok hist db ths s → ths !! t = Some th → r ∈ holds th → ¬ dirty th r → records s !! r = db !! r.
Proof.
  intros Hok Ht Hr Hd. eapply dok_clean; [apply Hok|]. intros u th0 Hu Hdu.
  destruct (decide (u = t)) as [->|Hne]; [by simplify_eq|].
  destruct (dirty_holds u th0 r) as (Hh & ph & Hp & Hnr); [by eapply wok_threads|done|].
  by eapply (write_held_alone hist db ths s u th0 r ph t th).
Qed.

Lemma data_ok_step ths t th th' recs db recs' db' :
  data_ok ths recs db → ths !! t = Some th → claims th' recs' db' →
  (∀ u th0 r, u ≠ t → ths !! u = Some th0 → r ∈ holds th0 → recs' !! r = recs !! r ∧ db' !! r = db !! r) →
  (∀ r, ¬ dirty th' r → recs' !! r = db' !! r ∨ (¬ dirty th r ∧ recs' !! r = recs !! r ∧ db' !! r = db !! r)) →
  length recs' = R → length db' = R → (∀ r v, db' !! r = Some v → i64 v) →
  data_ok (<[t := th']> ths) recs' db'.
Proof.
  intros [? ? ? Hc Hcl] Ht Hc' Hf Hd ? ? ?. split; [done..| |].
  - apply (insert_thread_inv (λ _ th, claims th recs' db') _ _ th); [done..|].
    intros u th0 Hne Hu. eapply claims_frame; [by eapply Hc|]. intros r Hr. by eapply Hf.
  - intros r Hnd. destruct (Hd r) as [?|(Hnd' & -> & ->)].
    { eapply (Hnd t). apply list_lookup_insert_eq. by eapply lookup_lt_Some. }
    { done. }
    apply Hcl. intros u th0 Hu. destruct (decide (u = t)) as [->|Hne]; [by simplify_eq|].
    apply (Hnd u). by rewrite list_lookup_insert_ne.
Qed.

Lemma data_ok_quiet ths t th th' recs db :
  data_ok ths recs db → ths !! t = Some th → claims th' recs db → (∀ r, dirty th r → dirty th' r) →
  data_ok (<[t := th']> ths) recs db.
Proof.
  intros Hok Ht Hc Hd. eapply data_ok_step; try done; try apply Hok.
  intros r Hn. right. split_and!; [|done..]. intros Hr. by apply Hn, Hd.
Qed.

(** ** The log files *)

Lemma count_finished_insert ths t th th' :
  ths !! t = Some th → pc th ≠ FINISHED →
  count_finished (<[t := th']> ths) = count_finished ths + (if decide (pc th' = FINISHED) then 1 else 0).
Proof.
  intros Ht Hp. unfold count_finished.
  rewrite insert_take_drop by (by eapply lookup_lt_Some). rewrite <- (take_drop_middle ths t th) at 3 by done.
  rewrite !filter_app, !length_app, !filter_cons. rewrite (decide_False (P := pc th = FINISHED)) by done.
  case_decide; simpl; lia.
Qed.

Lemma files_insert ths t th th' new :
  ths !! t = Some th → log_file th' = log_file th ++ new →
  concat (map log_file (<[t := th']> ths)) ≡ₚ concat (map log_file ths) ++ new.
Proof.
  intros Ht Hf.
  rewrite insert_take_drop by (by eapply lookup_lt_Some). rewrite <- (take_drop_middle ths t th) at 3 by done.
  rewrite !map_app, !concat_app. simpl. rewrite Hf, <- !app_assoc. do 2 f_equiv. apply Permutation_app_comm.
Qed.

Lemma count_finished_bound ths t th :
  ths !! t = Some th → pc th ≠ FINISHED → count_finished ths < length ths.
Proof.
  intros Ht Hp. rewrite <- (length_insert ths t (goto FINISHED th)).
  assert (H1 := count_finished_insert ths t th (goto FINISHED th) Ht Hp). simpl in H1.
  unfold count_finished in *.
  assert (H2 := length_filter (λ th, pc th = FINISHED) (<[t:=goto FINISHED th]> ths)). lia.
Qed.

Lemma hist_ok_same hist db ths order t th th' :
  hist_ok hist db ths order → ths !! t = Some th → pc th ≠ FINISHED → log_file th' = log_file th →
  hist_ok hist db (<[t := th']> ths) order.
Proof.
  intros [? ? ? ? Hf] Ht Hp Hl. split; try done.
  - rewrite (count_finished_insert ths t th) by done. lia.
  - rewrite Hf, (files_insert ths t th th' []); [by rewrite app_nil_r|done|by rewrite app_nil_r].
Qed.

(** A step of thread [t] that commits nothing keeps the invariant when it keeps
    the parts about the thread, the locks and the data. *)
Lemma world_ok_thread hist db ths s t th th' s' :
  world_ok hist db ths s → ths !! t = Some th → pc th ≠ FINISHED →
  log_file th' = log_file th → thread_ok R t th' →
  locks_inv (<[t := entries th']> (ent_of ths)) (<[t := holds th']> (holds_of ths)) (lock_table s') →
  data_ok (<[t := th']> ths) (records s') db →
  global_execution_order s' = global_execution_order s →
  world_ok hist db (<[t := th']> ths) s'.
Proof.
  intros Hok Ht Hp Hl Hth Hlk Hd Ho. split.
  - rewrite length_insert. apply Hok.
  - eapply insert_thread_inv; [done..|]. intros u th0 _. apply Hok.
  - eapply locks_inv_ext; [..|exact Hlk]; intros u; symmetry; [by eapply ent_of_insert|by eapply holds_of_insert].
  - done.
  - rewrite Ho. eapply hist_ok_same; [apply Hok|done..].
Qed.

(** The same when the data is not touched either. *)
Lemma world_ok_quiet hist db ths s t th th' lt' :
  world_ok hist db ths s → ths !! t = Some th → pc th ≠ FINISHED →
  log_file th' = log_file th → thread_ok R t th' →
  locks_inv (<[t := entries th']> (ent_of ths)) (<[t := holds th']> (holds_of ths)) lt' →
  claims th' (records s) db → (∀ r, dirty th r → dirty th' r) →
  world_ok hist db (<[t := th']> ths) (set_lock_table lt' s).
Proof.
  intros Hok Ht Hp Hl Hth Hlk Hc Hd. eapply world_ok_thread; try done.
  simpl. eapply data_ok_quiet; [apply Hok|done..].
Qed.

Lemma world_ok_local hist db ths s t th th' :
  world_ok hist db ths s → ths !! t = Some th → pc th ≠ FINISHED →
  log_file th' = log_file th → thread_ok R t th' → entries th' = entries th → holds th' = holds th →
  claims th' (records s) db → (∀ r, dirty th r → dirty th' r) →
  world_ok hist db (<[t := th']> ths) s.
Proof.
  intros Hok Ht Hp Hl Hth He Hh Hc Hd. destruct s as [lt rs n].
  apply (world_ok_quiet hist db ths (mk_shared lt rs n) t th th' lt); try done.
  eapply locks_inv_same; [apply Hok|done..].
Qed.

(** The outcome of a step of thread [t]. *)
Definition step_ok (ths : list thread) (s : shared) (t : nat) (out : res (option thread * shared)) : Prop :=
  match out with
  | Ok (Some th', s') => ∃ hist' db', world_ok hist' db' (<[t := th']> ths) s'
  | Ok (None, s') => global_execution_order s' = global_execution_order s
  | Err _ => False
  end.

Lemma live_tid hist db ths s t th :
  world_ok hist db ths s → ths !! t = Some th → pc th ≠ FINISHED → 0 < t < N.
Proof.
  intros Hok Ht Hp. assert (t < N) by (rewrite <- (wok_len _ _ _ _ _ _ _ Hok); by eapply lookup_lt_Some).
  destruct (decide (t = 0)); [|lia]. exfalso. apply Hp. by eapply thok_zero; [eapply wok_threads|].
Qed.
End inv.
