(* ===== verification/TransactionStep.v ===== *)
(** Every step of a transaction keeps the invariant and fails no assert. *)
From stdpp Require Import functions base tactics numbers option list list_numbers gmap sets relations.
From Stdlib Require Import ZArith Lia.
From S2P Require Import Prelude DirectedGraph LockTable WaitQueue LockInv LockSpec LockRelease LockManager Transaction TransactionInv.

(** ** Running the pieces *)

Lemma read_value_Ok {B} r v (f : Z → TX B) s :
  records s !! r = Some v → (read_value r ≫= f) s = f v s.
Proof. intros H. apply bind_Ok. unfold read_value. erewrite bind_Ok by done. simpl. by rewrite H. Qed.

Lemma write_value_Ok r v v0 s :
  records s !! r = Some v0 → write_value r v s = Ok (tt, set_records (<[r := v]> (records s)) s).
Proof. intros H. unfold write_value. by erewrite read_value_Ok. Qed.

Lemma on_lock_table_Ok {A} (m : LT A) s a lt :
  m (lock_table s) = Ok (a, lt) → on_lock_table m s = Ok (a, set_lock_table lt s).
Proof. intros H. by apply zoom_Ok. Qed.

(** The last lock taken is the first one a rollback gives back. *)
Definition nth_lock (n : nat) (l : log_t) : nat :=
  match n with 0 => log_i l | 1 => log_j l | _ => log_k l end.

Lemma entries_pop R n l : ids_ok R l → n < 3 → delete (nth_lock n l) (entries_n (S n) l) = entries_n n l.
Proof.
  intros (_ & _ & _ & Hij & Hik & Hjk) Hn. destruct n as [|[|[|]]]; simpl; [..|lia];
    rewrite delete_insert_id; try done; by rewrite ?lookup_insert_ne, lookup_empty.
Qed.

Lemma holds_pop R n l : ids_ok R l → n < 3 → holds_n (S n) l ∖ {[nth_lock n l]} = holds_n n l.
Proof.
  intros (_ & _ & _ & Hij & Hik & Hjk) Hn. destruct n as [|[|[|]]]; simpl; [..|lia]; set_solver.
Qed.

Lemma holds_top n l : n < 3 → nth_lock n l ∈ holds_n (S n) l.
Proof. destruct n as [|[|[|]]]; simpl; [..|lia]; set_solver. Qed.

Section running.
Context (R N : nat) (E : Z).

Notation locks_inv := (locks_inv R N).
Notation world_ok := (world_ok R N E).
Notation step_ok := (step_ok R N E).

Lemma unlock_record_Ok en ho t m h l r s :
  locks_inv (<[t := m]> en) (<[t := h]> ho) (lock_table s) → log_tid l = t → r ∈ h →
  ∃ lt', unlock_record l r s = Ok (tt, set_lock_table lt' s) ∧
    locks_inv (<[t := delete r m]> en) (<[t := h ∖ {[r]}]> ho) lt'.
Proof.
  intros Hl Ht Hr. destruct (inv_release R N _ _ _ t r Hl) as (lt' & Hrun & Hl'); [by rewrite fn_lookup_insert|].
  exists lt'. split.
  - unfold unlock_record. rewrite Ht. by erewrite bind_Ok by (by apply on_lock_table_Ok).
  - eapply locks_inv_ext; [..|exact Hl']; intros u; (destruct (decide (u = t)) as [->|];
      [by rewrite !fn_lookup_insert|by rewrite !fn_lookup_insert_ne]).
Qed.

(** The thread has asked for and holds the first [n] locks of the transaction. *)
Definition has_locks (n : nat) (en : nat → gmap nat phase_t) (ho : nat → gset nat) (t : nat) (l : log_t) (lt : rw_lock_table) : Prop :=
  locks_inv (<[t := entries_n n l]> en) (<[t := holds_n n l]> ho) lt.

Lemma unlock_last n en ho t l s :
  has_locks (S n) en ho t l (lock_table s) → log_tid l = t → ids_ok R l → n < 3 →
  ∃ lt', unlock_record l (nth_lock n l) s = Ok (tt, set_lock_table lt' s) ∧ has_locks n en ho t l lt'.
Proof.
  intros Hl Ht Hids Hn.
  destruct (unlock_record_Ok en ho t _ _ l (nth_lock n l) s Hl Ht) as (lt' & Hrun & Hl'); [by apply holds_top|].
  exists lt'. split; [done|]. unfold has_locks.
  by rewrite <- (entries_pop R), <- (holds_pop R).
Qed.

Lemma rollback_read_Ok en ho t l s :
  has_locks 1 en ho t l (lock_table s) → log_tid l = t → ids_ok R l → current_phase l ≠ READ →
  ∃ lt', rollback_read l s = Ok (tt, set_lock_table lt' s) ∧ has_locks 0 en ho t l lt'.
Proof.
  intros Hl Ht Hids Hph. unfold rollback_read. rewrite decide_False by done. by apply (unlock_last 0); [..|lia].
Qed.

Lemma rollback_first_Ok en ho t l s :
  has_locks 2 en ho t l (lock_table s) → log_tid l = t → ids_ok R l →
  current_phase l ≠ READ → current_phase l ≠ FIRST_WRITE →
  ∃ lt', (_ ← rollback_first_write l; rollback_read l) s = Ok (tt, set_lock_table lt' s) ∧ has_locks 0 en ho t l lt'.
Proof.
  intros Hl Ht Hids Hr Hf. unfold rollback_first_write. rewrite decide_False by done.
  destruct (unlock_last 1 en ho t l s) as (lt1 & H1 & Hl1); [done..|lia|].
  destruct (rollback_read_Ok en ho t l (set_lock_table lt1 s)) as (lt2 & H2 & Hl2); [done..|].
  exists lt2. split; [|done]. by erewrite bind_Ok by exact H1.
Qed.

Definition undo_j (l : log_t) (v : Z) : Z := wrap_i64 (v - wrap_i64 (value_of_i l + 1)).
Definition undo_k (l : log_t) (v : Z) : Z := wrap_i64 (v + value_of_i l).

Lemma rollback_second_tail l s vj en ho t :
  records s !! log_j l = Some vj → has_locks 2 en ho t l (lock_table s) → log_tid l = t → ids_ok R l →
  current_phase l ≠ READ → current_phase l ≠ FIRST_WRITE →
  ∃ lt', (_ ← (v ← read_value (log_j l); write_value (log_j l) (undo_j l v));
          _ ← rollback_first_write l; rollback_read l) s =
    Ok (tt, set_lock_table lt' (set_records (<[log_j l := undo_j l vj]> (records s)) s)) ∧
    has_locks 0 en ho t l lt'.
Proof.
  intros Hj Hl Ht Hids Hr Hf.
  erewrite bind_Ok by (erewrite read_value_Ok by done; by eapply write_value_Ok).
  by apply rollback_first_Ok.
Qed.

Lemma rollback_FIRST en ho t l s :
  has_locks 1 en ho t l (lock_table s) → log_tid l = t → ids_ok R l → current_phase l = FIRST_WRITE →
  ∃ lt', rollback l s = Ok (tt, set_lock_table lt' s) ∧ has_locks 0 en ho t l lt'.
Proof.
  intros Hl Ht Hids Hph. unfold rollback. rewrite Hph.
  rewrite (bind_Ok _ _ s tt s) by (unfold rollback_first_write; by rewrite decide_True).
  apply rollback_read_Ok; try done. congruence.
Qed.

Lemma rollback_SECOND en ho t l s vj :
  has_locks 2 en ho t l (lock_table s) → log_tid l = t → ids_ok R l → current_phase l = SECOND_WRITE →
  records s !! log_j l = Some vj →
  ∃ lt', rollback l s = Ok (tt, set_lock_table lt' (set_records (<[log_j l := undo_j l vj]> (records s)) s)) ∧
    has_locks 0 en ho t l lt'.
Proof.
  intros Hl Ht Hids Hph Hj. unfold rollback. rewrite Hph. unfold rollback_second_write at 1.
  rewrite decide_True by done. by eapply (rollback_second_tail l s); [..|congruence|congruence].
Qed.

Lemma rollback_COMMIT en ho t l s vj vk :
  has_locks 3 en ho t l (lock_table s) → log_tid l = t → ids_ok R l → current_phase l = COMMIT →
  records s !! log_j l = Some vj → records s !! log_k l = Some vk →
  ∃ lt', rollback l s =
    Ok (tt, set_lock_table lt' (set_records (<[log_j l := undo_j l vj]> (<[log_k l := undo_k l vk]> (records s))) s)) ∧
    has_locks 0 en ho t l lt'.
Proof.
  intros Hl Ht Hids Hph Hj Hk. unfold rollback. rewrite Hph.
  erewrite bind_Ok by (unfold rollback_commit; erewrite read_value_Ok by done; by eapply write_value_Ok).
  unfold rollback_second_write at 1. rewrite decide_False by congruence.
  set (s1 := set_records _ s).
  destruct (unlock_last 2 en ho t l s1) as (lt1 & H1 & Hl1); [done..|lia|].
  destruct (rollback_second_tail l (set_lock_table lt1 s1) vj en ho t) as (lt2 & H2 & Hl2); try done; try congruence.
  { simpl. rewrite list_lookup_insert_ne; [done|]. destruct Hids as (_ & _ & _ & _ & _ & ?). done. }
  exists lt2. split; [|done]. etrans; [|exact H2]. unfold mbind, M_bind. simpl in H1. by rewrite H1.
Qed.

(** [release_locks] gives back all three locks. *)
Lemma release_locks_Ok en ho t l s :
  has_locks 3 en ho t l (lock_table s) → log_tid l = t → ids_ok R l →
  ∃ lt', release_locks l s = Ok (tt, set_lock_table lt' s) ∧ has_locks 0 en ho t l lt'.
Proof.
  intros Hl Ht (_ & _ & _ & Hij & Hik & Hjk). unfold has_locks in *. simpl in *.
  destruct (unlock_record_Ok en ho t _ _ l (log_i l) s Hl Ht) as (lt1 & H1 & Hl1); [set_solver|].
  destruct (unlock_record_Ok en ho t _ _ l (log_j l) (set_lock_table lt1 s) Hl1 Ht) as (lt2 & H2 & Hl2); [set_solver|].
  destruct (unlock_record_Ok en ho t _ _ l (log_k l) (set_lock_table lt2 s) Hl2 Ht) as (lt3 & H3 & Hl3); [set_solver|].
  exists lt3. split.
  - unfold release_locks. erewrite bind_Ok by exact H1. by erewrite bind_Ok by exact H2.
  - eapply locks_inv_ext; [..|exact Hl3]; intros u;
      (destruct (decide (u = t)) as [->|]; [rewrite !fn_lookup_insert|by rewrite !fn_lookup_insert_ne]).
    + apply map_eq. intros r. rewrite lookup_empty.
      destruct (decide (r = log_k l)) as [->|]; [by rewrite lookup_delete_eq|rewrite lookup_delete_ne by done].
      destruct (decide (r = log_j l)) as [->|]; [by rewrite lookup_delete_eq|rewrite lookup_delete_ne by done].
      destruct (decide (r = log_i l)) as [->|]; [by rewrite lookup_delete_eq|rewrite lookup_delete_ne by done].
      by rewrite !lookup_insert_ne.
    + set_solver.
Qed.

(** ** Ending a transaction *)

Definition write_lock (th : thread) (r : nat) : Prop :=
  r ∈ holds th ∧ ∃ ph, entries th !! r = Some ph ∧ ph ≠ READ.

Lemma write_lock_j th : ids_ok R (tlog th) → 2 ≤ nheld (pc th) → write_lock th (log_j (tlog th)).
Proof.
  intros (_ & _ & _ & Hij & Hik & Hjk) Hn. unfold write_lock, holds, entries.
  split; [destruct (pc th); simpl in *; (lia || set_solver)|]. exists FIRST_WRITE. split; [|done].
  destruct (pc th); simpl in *; try lia; rewrite ?(lookup_insert_ne _ (log_k (tlog th))) by done; apply lookup_insert_eq.
Qed.

Lemma write_lock_k th : 3 ≤ nheld (pc th) → write_lock th (log_k (tlog th)).
Proof.
  intros Hn. unfold write_lock, holds, entries.
  split; [destruct (pc th); simpl in *; (lia || set_solver)|]. exists SECOND_WRITE. split; [|done].
  destruct (pc th); simpl in *; try lia; apply lookup_insert_eq.
Qed.

Lemma others_frame hist db ths s t th (l l' : list Z) :
  world_ok hist db ths s → ths !! t = Some th → (∀ r, l' !! r = l !! r ∨ write_lock th r) →
  ∀ u th0 r, u ≠ t → ths !! u = Some th0 → r ∈ holds th0 → l' !! r = l !! r.
Proof.
  intros Hok Ht Hl u th0 r Hne Hu Hr. destruct (Hl r) as [?|(Hh & ph & He & Hph)]; [done|].
  exfalso. by eapply (write_held_alone R N E hist db ths s t th r ph u th0).
Qed.

Instance dirty_dec th r : Decision (dirty th r).
Proof. unfold dirty. apply _. Defined.

Lemma data_ok_end hist db ths s t th th' recs' db' :
  world_ok hist db ths s → ths !! t = Some th → in_transaction (pc th') = false →
  (∀ r, dirty th r → recs' !! r = db' !! r) →
  (∀ r, ¬ dirty th r → recs' !! r = records s !! r ∧ db' !! r = db !! r) →
  length recs' = R → length db' = R → (∀ r v, db' !! r = Some v → i64 v) →
  data_ok R (<[t := th']> ths) recs' db'.
Proof.
  intros Hok Ht Hp Hd Hnd H1 H2 H3. assert (Hth := wok_threads _ _ _ _ _ _ _ Hok t th Ht).
  assert (Hw : ∀ r, (recs' !! r = records s !! r ∧ db' !! r = db !! r) ∨ write_lock th r).
  { intros r. destruct (decide (dirty th r)); [right; by eapply dirty_holds|left; by apply Hnd]. }
  eapply data_ok_step; [apply Hok|done|..]; try done.
  - split; intros Hx; by destruct (pc th').
  - intros u th0 r Hne Hu Hr. split; (eapply others_frame; [done|exact Ht| |done|exact Hu|done]).
    + intros r'. destruct (Hw r') as [[??]|]; auto.
    + intros r'. destruct (Hw r') as [[??]|]; auto.
  - intros r _. destruct (decide (dirty th r)) as [|Hn]; [left; by apply Hd|right]. split; [done|by apply Hnd].
Qed.

Lemma thread_ok_end t th th' :
  thread_ok R t th → t ≠ 0 → log_tid (tlog th') = log_tid (tlog th) →
  pc th' = LOOP_HEAD ∨ pc th' = FINISHED → thread_ok R t th'.
Proof.
  intros Hth Ht Hl Hp. split.
  - rewrite Hl. apply Hth.
  - done.
  - by destruct Hp as [-> | ->].
  - by destruct Hp as [-> | ->].
Qed.

Lemma world_has_locks hist db ths s t th :
  world_ok hist db ths s → ths !! t = Some th → queued (pc th) = nheld (pc th) →
  has_locks (nheld (pc th)) (ent_of ths) (holds_of ths) t (tlog th) (lock_table s).
Proof.
  intros Hok Ht Hq. unfold has_locks. rewrite <- Hq at 1.
  apply (locks_inv_same R N ths t th th); [apply Hok|done..].
Qed.

(** What rolling back leaves: the locks given back and the committed values. *)
Lemma rollback_world hist db ths s t th th' s' lt' recs' :
  world_ok hist db ths s → ths !! t = Some th → pc th ≠ FINISHED →
  log_tid (tlog th') = log_tid (tlog th) → pc th' = LOOP_HEAD ∨ pc th' = FINISHED → log_file th' = log_file th →
  s' = set_lock_table lt' (set_records recs' s) →
  has_locks 0 (ent_of ths) (holds_of ths) t (tlog th) lt' →
  (∀ r, dirty th r → recs' !! r = db !! r) → (∀ r, ¬ dirty th r → recs' !! r = records s !! r) →
  length recs' = R → world_ok hist db (<[t := th']> ths) s'.
Proof.
  intros Hok Ht Hp Htid Hp' Hlf -> Hl Hd Hnd Hlen.
  assert (Hth := wok_threads _ _ _ _ _ _ _ Hok t th Ht). assert (0 < t < N) by (by eapply live_tid).
  eapply world_ok_thread; try done.
  - eapply thread_ok_end; [done|lia|done..].
  - unfold entries, holds. by destruct Hp' as [-> | ->].
  - eapply data_ok_end; [done|done|by destruct Hp' as [-> | ->]|done|naive_solver|done|apply Hok|].
    eapply (dok_range _ _ _ _ (wok_data _ _ _ _ _ _ _ Hok)).
Qed.

Lemma set_records_id s : set_records (records s) s = s.
Proof. by destruct s. Qed.

Lemma undo_j_spec hist db ths s t th :
  world_ok hist db ths s → ths !! t = Some th → wrote_j (pc th) = true →
  ∃ vj, records s !! log_j (tlog th) = Some vj ∧ db !! log_j (tlog th) = Some (undo_j (tlog th) vj).
Proof.
  intros Hok Ht Hw. destruct (wok_data _ _ _ _ _ _ _ Hok) as [_ _ Hr Hc _].
  destruct (cl_j _ _ _ (Hc t th Ht) Hw) as (v & Hv & Hrec & Heq). exists (value_of_j (tlog th)).
  split; [done|]. rewrite Hv, Heq. unfold undo_j. rewrite wrap_i64_undo_add; [done|by eapply Hr].
Qed.

Lemma undo_k_spec hist db ths s t th :
  world_ok hist db ths s → ths !! t = Some th → wrote_k (pc th) = true →
  ∃ vk, records s !! log_k (tlog th) = Some vk ∧ db !! log_k (tlog th) = Some (undo_k (tlog th) vk).
Proof.
  intros Hok Ht Hw. destruct (wok_data _ _ _ _ _ _ _ Hok) as [_ _ Hr Hc _].
  destruct (cl_k _ _ _ (Hc t th Ht) Hw) as (v & Hv & Hrec & Heq). exists (value_of_k (tlog th)).
  split; [done|]. rewrite Hv, Heq. unfold undo_k. rewrite wrap_i64_undo_sub; [done|by eapply Hr].
Qed.

(** A refused request rolls the transaction back. *)
Lemma abort_ok hist db ths s t th th1 s0 :
  world_ok hist db ths s → ths !! t = Some th → pc th ∈ [READ_LOCK; FIRST_LOCK; SECOND_LOCK] →
  tlog th1 = tlog th → log_file th1 = log_file th →
  step_ok ths s0 t ((_ ← rollback (tlog th1); mret (Some (goto LOOP_HEAD th1))) s).
Proof.
  intros Hok Ht Hp Hl Hf. rewrite Hl. assert (Hth := wok_threads _ _ _ _ _ _ _ Hok t th Ht).
  assert (Hlk := world_has_locks hist db ths s t th Hok Ht).
  assert (Htid := thok_tid _ _ _ Hth). assert (Hlen := dok_len _ _ _ _ (wok_data _ _ _ _ _ _ _ Hok)).
  assert (Hdone : ∀ lt' recs', pc th ≠ FINISHED → has_locks 0 (ent_of ths) (holds_of ths) t (tlog th) lt' →
    (∀ r, dirty th r → recs' !! r = db !! r) → (∀ r, ¬ dirty th r → recs' !! r = records s !! r) →
    length recs' = R → world_ok hist db (<[t := goto LOOP_HEAD th1]> ths) (set_lock_table lt' (set_records recs' s))).
  { intros lt' recs' ?????. eapply rollback_world; try done; simpl; [by rewrite Hl|by left]. }
  apply elem_of_cons in Hp as [Hp|Hp]; [|apply elem_of_cons in Hp as [Hp|Hp%list_elem_of_singleton]];
    rewrite Hp in Hlk; destruct (thok_ids _ _ _ Hth) as [Hids Hph]; try (by rewrite Hp); rewrite Hp in Hph.
  - unfold rollback. rewrite Hph. erewrite bind_Ok by (unfold rollback_read; by rewrite decide_True).
    exists hist, db. assert (H := Hdone (lock_table s) (records s)). rewrite set_records_id in H.
    destruct s. apply H; try done; [congruence|by apply Hlk|unfold dirty; rewrite Hp; naive_solver].
  - destruct (rollback_FIRST (ent_of ths) (holds_of ths) t (tlog th) s) as (lt' & Hrun & Hl'); [by apply Hlk|done..|].
    erewrite bind_Ok by done. exists hist, db. rewrite <- (set_records_id s) at 1.
    apply Hdone; try done; [congruence|unfold dirty; rewrite Hp; naive_solver].
  - destruct (undo_j_spec hist db ths s t th) as (vj & Hj & Hu); [done..|by rewrite Hp|].
    destruct (rollback_SECOND (ent_of ths) (holds_of ths) t (tlog th) s vj) as (lt' & Hrun & Hl'); [by apply Hlk|done..|].
    erewrite bind_Ok by done. exists hist, db. apply Hdone; [congruence|done| | |by rewrite length_insert].
    + intros r [[_ ->]|[Hk _]]; [|by rewrite Hp in Hk].
      rewrite list_lookup_insert_eq by (by eapply lookup_lt_Some). done.
    + intros r Hn. rewrite list_lookup_insert_ne; [done|]. intros <-. apply Hn. left. by rewrite Hp.
Qed.

(** ** Lock requests and wake-ups *)

(** Between two such program counters a transaction only gains locks. *)
Definition same_stage (p q : pc_t) : bool :=
  in_transaction p && in_transaction q && bool_decide (phase_at p = phase_at q) &&
  eqb (knows_i p) (knows_i q) && eqb (wrote_j p) (wrote_j q) && eqb (wrote_k p) (wrote_k q) &&
  bool_decide (q ≠ STORE_J) && bool_decide (q ≠ STORE_K).

Lemma stage_ok t th th' recs db :
  thread_ok R t th → claims th recs db → same_stage (pc th) (pc th') = true → tlog th' = tlog th →
  thread_ok R t th' ∧ claims th' recs db ∧ (∀ r, dirty th r → dirty th' r).
Proof.
  intros [Htid Hz _ Hids] [Hi _ _ Hj Hk] Hs Hl. unfold same_stage in Hs.
  repeat (apply andb_true_iff in Hs as [Hs ?%Is_true_true_2]).
  repeat match goal with H : Is_true (eqb _ _) |- _ => apply Is_true_true_1, eqb_prop in H end.
  repeat match goal with H : Is_true (bool_decide _) |- _ => apply bool_decide_unpack in H end.
  repeat match goal with H : Is_true _ |- _ => apply Is_true_true_1 in H end.
  split_and!; [split|split|]; rewrite ?Hl; try done; try congruence.
  - intros ->. rewrite Hz in Hs by done. done.
  - destruct (pc th'); done.
  - intros _. destruct (Hids Hs). split; [done|congruence].
  - intros Hp. apply Hi. congruence.
  - intros Hp. apply Hj. congruence.
  - intros Hp. apply Hk. congruence.
  - unfold dirty. rewrite Hl. intros r [[? ->]|[? ->]]; [left|right]; split; congruence.
Qed.

Lemma world_ok_stage hist db ths s t th th' lt' :
  world_ok hist db ths s → ths !! t = Some th → same_stage (pc th) (pc th') = true →
  tlog th' = tlog th → log_file th' = log_file th →
  locks_inv (<[t := entries th']> (ent_of ths)) (<[t := holds th']> (holds_of ths)) lt' →
  world_ok hist db (<[t := th']> ths) (set_lock_table lt' s).
Proof.
  intros Hok Ht Hs Hl Hf Hlk.
  destruct (stage_ok t th th' (records s) db) as (Hth & Hc & Hd); [by eapply wok_threads| |done..|].
  { eapply dok_claims; [apply Hok|done]. }
  eapply world_ok_quiet; try done. intros Hp. by rewrite Hp in Hs.
Qed.

(** What follows a request of the next lock. *)
Lemma request_ok hist db ths s t th th1 w k r ph res lt' :
  world_ok hist db ths s → ths !! t = Some th → pc th ∈ [READ_LOCK; FIRST_LOCK; SECOND_LOCK] →
  same_stage (pc th) w = true → same_stage (pc th) k = true →
  tlog th1 = tlog th → log_file th1 = log_file th →
  entries (goto w th1) = <[r := ph]> (entries th) → holds (goto w th1) = holds th →
  entries (goto k th1) = <[r := ph]> (entries th) → holds (goto k th1) = {[r]} ∪ holds th →
  locks_inv (requested (ent_of ths) r t ph res) (held_after (holds_of ths) r t res) lt' →
  step_ok ths s t (after_lock th1 w k res (set_lock_table lt' s)).
Proof.
  intros Hok Ht Hp Hw Hk Hl Hf Hew Hhw Hek Hhk Hlk. unfold requested, held_after in Hlk.
  rewrite (ent_of_lookup ths t th), (holds_of_lookup ths t th) in Hlk by done.
  destruct res; simpl in Hlk |- *.
  - exists hist, db. apply (world_ok_stage hist db ths s t th); try done. by rewrite Hek, Hhk.
  - apply (abort_ok hist db ths (set_lock_table lt' s) t th); try done.
    destruct Hok as [? ? ? ? ?]. by split.
  - exists hist, db. apply (world_ok_stage hist db ths s t th); try done. rewrite Hew, Hhw.
    eapply locks_inv_ext; [..|exact Hlk]; intros u; [done|].
    destruct (decide (u = t)) as [->|]; [|by rewrite fn_lookup_insert_ne].
    rewrite fn_lookup_insert. by apply holds_of_lookup.
Qed.

(** What follows a wake-up. *)
Lemma woken_ok hist db ths s t th k r res lt' :
  world_ok hist db ths s → ths !! t = Some th → res ≠ ABORTED →
  same_stage (pc th) (pc th) = true → same_stage (pc th) k = true →
  entries (goto k th) = entries th → holds (goto k th) = {[r]} ∪ holds th →
  locks_inv (ent_of ths) (held_after (holds_of ths) r t res) lt' →
  step_ok ths s t (after_lock th (pc th) k res (set_lock_table lt' s)).
Proof.
  intros Hok Ht Hna Hw Hk He Hh Hlk. unfold held_after in Hlk.
  rewrite (holds_of_lookup ths t th) in Hlk by done.
  assert (Hen : ∀ u, ent_of ths u = (<[t := entries th]> (ent_of ths) : nat → _) u).
  { intros u. destruct (decide (u = t)) as [->|]; [|by rewrite fn_lookup_insert_ne].
    rewrite fn_lookup_insert. by apply ent_of_lookup. }
  destruct res; simpl in Hlk |- *; [|done|].
  - exists hist, db. apply (world_ok_stage hist db ths s t th); try done. rewrite He, Hh.
    by eapply locks_inv_ext; [..|exact Hlk].
  - exists hist, db. apply (world_ok_stage hist db ths s t th); try done.
    eapply locks_inv_ext; [exact Hen| |exact Hlk]. intros u.
    destruct (decide (u = t)) as [->|]; [|by rewrite fn_lookup_insert_ne].
    rewrite fn_lookup_insert. exact (holds_of_lookup ths t th Ht).
Qed.

(** ** Every step *)

Lemma lock_step_ok hist db ths s t th rnd :
  world_ok hist db ths s → ths !! t = Some th → pc th ∈ [READ_LOCK; FIRST_LOCK; SECOND_LOCK] →
  step_ok ths s t (thread_step R E rnd th s).
Proof.
  intros Hok Ht Hp. assert (Hth := wok_threads _ _ _ _ _ _ _ Hok t th Ht).
  assert (Hpc : pc th ≠ FINISHED) by (intros Hx; rewrite Hx in Hp; set_solver).
  assert (HtN : 0 < t < N) by (by eapply live_tid). assert (Htid := thok_tid _ _ _ Hth).
  destruct (thok_ids _ _ _ Hth) as [Hids Hph].
  { apply elem_of_cons in Hp as [->|Hp]; [done|]. by apply elem_of_cons in Hp as [->| ->%list_elem_of_singleton]. }
  assert (Hids' := Hids). destruct Hids' as (Hi & Hj & Hk & Hij & Hik & Hjk).
  assert (Hen := ent_of_lookup ths t th Ht). assert (Hho := holds_of_lookup ths t th Ht).
  assert (Hlk := wok_locks _ _ _ _ _ _ _ Hok). assert (Hp0 := Hp).
  apply elem_of_cons in Hp as [Hp|Hp]; [|apply elem_of_cons in Hp as [Hp|Hp%list_elem_of_singleton]];
    unfold thread_step; rewrite Hp; unfold read_record, first_write_record, second_write_record; rewrite Htid;
    unfold entries, holds in Hen, Hho; rewrite Hp in Hen, Hho; simpl in Hen, Hho.
  - destruct (inv_request_read R N _ _ _ t (log_i (tlog th)) (cycle_member th) Hlk) as (res & cm & lt' & Hrun & Hl');
      [done..|by rewrite Hen|by rewrite Hen, dom_empty_L|].
    erewrite bind_Ok by (by apply on_lock_table_Ok). cbv beta iota.
    eapply (request_ok hist db ths s t th); try done; rewrite ?Hp; try done;
      unfold entries, holds; by rewrite Hp.
  - destruct (inv_request_write R N _ _ _ t FIRST_WRITE (log_j (tlog th)) (cycle_member th) Hlk) as (res & cm & lt' & Hrun & Hl');
      [done..|by rewrite Hen, lookup_insert_ne|rewrite Hen, Hho; set_solver|by left|].
    erewrite bind_Ok by (by apply on_lock_table_Ok). cbv beta iota.
    eapply (request_ok hist db ths s t th); try done; rewrite ?Hp; try done;
      unfold entries, holds; by rewrite Hp.
  - destruct (inv_request_write R N _ _ _ t SECOND_WRITE (log_k (tlog th)) (cycle_member th) Hlk) as (res & cm & lt' & Hrun & Hl');
      [done..|by rewrite Hen, !lookup_insert_ne|rewrite Hen, Hho; set_solver|by right|].
    erewrite bind_Ok by (by apply on_lock_table_Ok). cbv beta iota.
    eapply (request_ok hist db ths s t th); try done; rewrite ?Hp; try done;
      unfold entries, holds; by rewrite Hp.
Qed.

Lemma wait_step_ok hist db ths s t th rnd :
  world_ok hist db ths s → ths !! t = Some th → pc th ∈ [READ_WAIT; FIRST_WAIT; SECOND_WAIT] →
  step_ok ths s t (thread_step R E rnd th s).
Proof.
  intros Hok Ht Hp. assert (Hth := wok_threads _ _ _ _ _ _ _ Hok t th Ht).
  assert (Htid := thok_tid _ _ _ Hth). destruct (thok_ids _ _ _ Hth) as [Hids Hph].
  { apply elem_of_cons in Hp as [->|Hp]; [done|]. by apply elem_of_cons in Hp as [->| ->%list_elem_of_singleton]. }
  destruct Hids as (Hi & Hj & Hk & Hij & Hik & Hjk).
  assert (Hen := ent_of_lookup ths t th Ht). assert (Hho := holds_of_lookup ths t th Ht).
  assert (Hlk := wok_locks _ _ _ _ _ _ _ Hok).
  apply elem_of_cons in Hp as [Hp|Hp]; [|apply elem_of_cons in Hp as [Hp|Hp%list_elem_of_singleton]];
    unfold thread_step; rewrite Hp; rewrite Htid;
    unfold entries, holds in Hen, Hho; rewrite Hp in Hen, Hho; simpl in Hen, Hho.
  - destruct (inv_wakeup_read R N _ _ _ t (log_i (tlog th)) Hlk) as (res & lt' & Hrun & Hna & Hl' & _);
      [by rewrite Hen, lookup_insert_eq|by rewrite Hho|].
    erewrite bind_Ok by (by apply on_lock_table_Ok). rewrite <- Hp.
    eapply woken_ok; try done; rewrite ?Hp; try done; unfold entries, holds; by rewrite Hp.
  - destruct (inv_wakeup_write R N _ _ _ t (log_j (tlog th)) FIRST_WRITE Hlk) as (res & lt' & Hrun & Hna & Hl' & _);
      [by rewrite Hen, lookup_insert_eq|by left|rewrite Hho; set_solver|].
    erewrite bind_Ok by (by apply on_lock_table_Ok). rewrite <- Hp.
    eapply woken_ok; try done; rewrite ?Hp; try done; unfold entries, holds; by rewrite Hp.
  - destruct (inv_wakeup_write R N _ _ _ t (log_k (tlog th)) SECOND_WRITE Hlk) as (res & lt' & Hrun & Hna & Hl' & _);
      [by rewrite Hen, lookup_insert_eq|by right|rewrite Hho; set_solver|].
    erewrite bind_Ok by (by apply on_lock_table_Ok). rewrite <- Hp.
    eapply woken_ok; try done; rewrite ?Hp; try done; unfold entries, holds; by rewrite Hp.
Qed.

(** Steps outside the locked part of a transaction. *)
Lemma idle_pc p :
  queued p = 0 → nheld p = 0 ∧ knows_i p = false ∧ wrote_j p = false ∧ wrote_k p = false ∧ p ≠ STORE_J ∧ p ≠ STORE_K.
Proof. by destruct p. Qed.

Lemma world_ok_idle hist db ths s t th th' :
  world_ok hist db ths s → ths !! t = Some th → pc th ≠ FINISHED → queued (pc th) = 0 → queued (pc th') = 0 →
  log_file th' = log_file th → thread_ok R t th' → world_ok hist db (<[t := th']> ths) s.
Proof.
  intros Hok Ht Hp Hq Hq' Hf Hth'.
  destruct (idle_pc _ Hq) as (Hn & Hi & Hj & Hk & _). destruct (idle_pc _ Hq') as (Hn' & Hi' & Hj' & Hk' & Hsj & Hsk).
  eapply world_ok_local; try done.
  - unfold entries. by rewrite Hq, Hq'.
  - unfold holds. by rewrite Hn, Hn'.
  - split; congruence.
  - intros r [[? _]|[? _]]; congruence.
Qed.

Lemma choose_step_ok hist db ths s t th rnd :
  0 < R → world_ok hist db ths s → ths !! t = Some th → pc th ∈ [LOOP_HEAD; CHOOSE_I; CHOOSE_J; CHOOSE_K] →
  step_ok ths s t (thread_step R E rnd th s).
Proof.
  intros HR Hok Ht Hp. assert (Hth := wok_threads _ _ _ _ _ _ _ Hok t th Ht).
  assert (Hmod : rnd mod R < R) by (apply Nat.mod_upper_bound; lia).
  assert (HR0 : (R =? 0) = false) by (apply Nat.eqb_neq; lia).
  assert (Hgo := λ th', world_ok_idle hist db ths s t th th' Hok Ht).
  destruct Hth as [Htid Hz Hch Hids].
  unfold thread_step, rand_mod. rewrite HR0. rewrite !elem_of_cons in Hp.
  destruct Hp as [Hp|[Hp|[Hp|[Hp|Hp%not_elem_of_nil]]]]; [..|done]; rewrite Hp in *; exists hist, db;
    assert (Hnz : t ≠ 0) by (intros Hx; by apply Hz in Hx).
  - destruct (global_execution_order s <=? E)%Z; (apply Hgo; [done..|]; by split).
  - apply Hgo; [done..|]. split; simpl; [done|done|done|done].
  - case_match eqn:Hij; simpl.
    + apply Hgo; simpl; [done..|by rewrite Hp|done|]. split; simpl; rewrite ?Hp; [done|done|done|done].
    + apply Nat.eqb_neq in Hij. apply Hgo; [done..|]. split; simpl; [done|done|done|done].
  - destruct Hch as (Hi & Hj & Hij). case_match eqn:Hk; simpl.
    + apply Hgo; simpl; [done..|by rewrite Hp|done|]. split; simpl; rewrite ?Hp; [done|done|done|done].
    + apply orb_false_iff in Hk as [?%Nat.eqb_neq ?%Nat.eqb_neq]. apply Hgo; [done..|].
      split; simpl; [done|done|done|]. intros _. split; [|done]. split_and!; simpl; (done || congruence).
Qed.

Lemma record_value hist db ths s r :
  world_ok hist db ths s → r < R → ∃ v, records s !! r = Some v.
Proof.
  intros Hok Hr. apply lookup_lt_is_Some. by rewrite (dok_len _ _ _ _ (wok_data _ _ _ _ _ _ _ Hok)).
Qed.

Lemma load_step_ok hist db ths s t th rnd :
  world_ok hist db ths s → ths !! t = Some th → pc th ∈ [READ_I; OLD_J; LOAD_J; OLD_K; LOAD_K] →
  step_ok ths s t (thread_step R E rnd th s).
Proof.
  intros Hok Ht Hp. assert (Hth := wok_threads _ _ _ _ _ _ _ Hok t th Ht).
  assert (Hc := dok_claims _ _ _ _ (wok_data _ _ _ _ _ _ _ Hok) t th Ht).
  assert (Hclean := λ r, held_clean R N E hist db ths s t th r Hok Ht).
  assert (Hgo := λ th', world_ok_local R N E hist db ths s t th th' Hok Ht).
  destruct Hth as [Htid Hz _ Hids]. destruct Hc as [Hi Hlj Hlk Hj Hk].
  unfold dirty, holds, entries, thread_step in *. rewrite !elem_of_cons in Hp.
  destruct Hp as [Hp|[Hp|[Hp|[Hp|[Hp|Hp%not_elem_of_nil]]]]]; [..|done]; rewrite Hp in *; simpl in *;
    (destruct Hids as [Hids Hph]; [done|]); assert (Hnz : t ≠ 0) by (intros Hx; by apply Hz in Hx);
    assert (Hids' := Hids); destruct Hids' as (Hir & Hjr & Hkr & _).
  - destruct (record_value hist db ths s (log_i (tlog th)) Hok Hir) as [v Hv].
    erewrite read_value_Ok by done. exists hist, db. apply Hgo; [done|done|by split|done|done| |naive_solver].
    split; simpl; try done. intros _. rewrite <- Hclean; [done|set_solver|naive_solver].
  - destruct (record_value hist db ths s (log_j (tlog th)) Hok Hjr) as [v Hv].
    erewrite read_value_Ok by done. exists hist, db. apply Hgo; [done|done|by split|done|done|by split|naive_solver].
  - destruct (record_value hist db ths s (log_j (tlog th)) Hok Hjr) as [v Hv].
    erewrite read_value_Ok by done. exists hist, db. apply Hgo; [done|done|by split|done|done|by split|naive_solver].
  - destruct (record_value hist db ths s (log_k (tlog th)) Hok Hkr) as [v Hv].
    erewrite read_value_Ok by done. exists hist, db. apply Hgo; [done|done|by split|done|done|by split|naive_solver].
  - destruct (record_value hist db ths s (log_k (tlog th)) Hok Hkr) as [v Hv].
    erewrite read_value_Ok by done. exists hist, db. apply Hgo; [done|done|by split|done|done|by split|naive_solver].
Qed.

(** Storing to a record held for writing. *)
Lemma store_world hist db ths s t th th' r v :
  world_ok hist db ths s → ths !! t = Some th → pc th ≠ FINISHED → write_lock th r →
  log_file th' = log_file th → thread_ok R t th' → entries th' = entries th → holds th' = holds th →
  claims th' (<[r := v]> (records s)) db → (∀ r', dirty th' r' ↔ dirty th r' ∨ r' = r) →
  world_ok hist db (<[t := th']> ths) (set_records (<[r := v]> (records s)) s).
Proof.
  intros Hok Ht Hp Hw Hf Hth' He Hh Hc Hd. eapply world_ok_thread; try done.
  - eapply locks_inv_same; [apply Hok|done..].
  - assert (Hne : ∀ r', <[r := v]> (records s) !! r' = records s !! r' ∨ write_lock th r').
    { intros r'. destruct (decide (r' = r)) as [->|]; [by right|left; by rewrite list_lookup_insert_ne]. }
    eapply data_ok_step; [apply Hok|done|exact Hc| | |simpl; rewrite length_insert; apply Hok|apply Hok|apply Hok].
    + intros u th0 r' Hu Hth0 Hr'. split; [|done]. by eapply (others_frame hist db ths s t th).
    + intros r'. rewrite Hd. intros Hn. right. simpl. rewrite list_lookup_insert_ne by naive_solver. naive_solver.
Qed.

Lemma store_step_ok hist db ths s t th rnd :
  world_ok hist db ths s → ths !! t = Some th → pc th ∈ [STORE_J; STORE_K] →
  step_ok ths s t (thread_step R E rnd th s).
Proof.
  intros Hok Ht Hp. assert (Hth := wok_threads _ _ _ _ _ _ _ Hok t th Ht).
  assert (Hc := dok_claims _ _ _ _ (wok_data _ _ _ _ _ _ _ Hok) t th Ht).
  assert (Hclean := λ r, held_clean R N E hist db ths s t th r Hok Ht).
  assert (Hgo := λ th' r v, store_world hist db ths s t th th' r v Hok Ht).
  assert (Hwj := write_lock_j th). assert (Hwk := write_lock_k th).
  destruct Hth as [Htid Hz _ Hids]. destruct Hc as [Hi Hlj Hlk Hj Hk].
  unfold dirty, holds, entries, thread_step in *. rewrite !elem_of_cons in Hp.
  destruct Hp as [Hp|[Hp|Hp%not_elem_of_nil]]; [..|done]; rewrite Hp in *; simpl in *;
    (destruct Hids as [Hids Hph]; [done|]); assert (Hnz : t ≠ 0) by (intros Hx; by apply Hz in Hx);
    assert (Hids' := Hids); destruct Hids' as (Hir & Hjr & Hkr & Hij & Hik & Hjk).
  - assert (Hl := Hlj eq_refl). assert (Hlt := lookup_lt_Some _ _ _ Hl).
    erewrite bind_Ok by (by eapply write_value_Ok). case_match; [done|]. exists hist, db.
    apply Hgo; [done|apply Hwj; [done|lia]|done|by split|done|done| |].
    + split; simpl; try done. intros _. exists (loaded th). split_and!; [|by apply list_lookup_insert_eq|done].
      rewrite <- Hclean; [done|set_solver|naive_solver].
    + simpl. naive_solver.
  - assert (Hl := Hlk eq_refl). assert (Hlt := lookup_lt_Some _ _ _ Hl).
    erewrite bind_Ok by (by eapply write_value_Ok). case_match; [done|]. exists hist, db.
    apply Hgo; [done|apply Hwk; lia|done|by split|done|done| |].
    + split; simpl; try done.
      * intros _. rewrite list_lookup_insert_ne by done. by apply Hj.
      * intros _. exists (loaded th). split_and!; [|by apply list_lookup_insert_eq|done].
        rewrite <- Hclean; [done|set_solver|naive_solver].
    + simpl. naive_solver.
Qed.

(** ** Committing *)

Lemma world_ok_hist hist db ths s hist' s' :
  world_ok hist db ths s → lock_table s' = lock_table s → records s' = records s →
  hist_ok R E hist' db ths (global_execution_order s') → world_ok hist' db ths s'.
Proof. intros [? ? ? ? _] Hl Hr ?. split; try done; [by rewrite Hl|by rewrite Hr]. Qed.

Lemma commit_order hist db ths s t th :
  (0 ≤ E)%Z → (E + Z.of_nat N < 2 ^ 64)%Z → world_ok hist db ths s → ths !! t = Some th → pc th ≠ FINISHED →
  wrap_u64 (global_execution_order s + 1) = (global_execution_order s + 1)%Z.
Proof.
  intros HE HEN Hok Ht Hp. assert (Hb := count_finished_bound ths t th Ht Hp).
  destruct (hok_order _ _ _ _ _ _ (wok_hist _ _ _ _ _ _ _ Hok)) as [? ?].
  rewrite (wok_len _ _ _ _ _ _ _ Hok) in Hb. unfold wrap_u64. apply Z.mod_small. lia.
Qed.

(** The commit id is too large: roll back and finish. *)
Lemma commit_late_ok hist db ths s t th :
  (0 ≤ E)%Z → world_ok hist db ths s → ths !! t = Some th → pc th = COMMITTING →
  let n := (global_execution_order s + 1)%Z in
  let th' := set_log (set_commit_id n (tlog th)) th in
  (E < n)%Z → step_ok ths s t ((_ ← rollback (tlog th'); mret (Some (goto FINISHED th'))) (set_order n s)).
Proof.
  intros HE Hok Ht Hp n th' Hn. assert (Hth := wok_threads _ _ _ _ _ _ _ Hok t th Ht).
  assert (Hlk := world_has_locks hist db ths s t th Hok Ht). rewrite Hp in Hlk.
  destruct (thok_ids _ _ _ Hth) as [Hids Hph]; [by rewrite Hp|]. rewrite Hp in Hph.
  destruct (undo_j_spec hist db ths s t th) as (vj & Hj & Huj); [done..|by rewrite Hp|].
  destruct (undo_k_spec hist db ths s t th) as (vk & Hk & Huk); [done..|by rewrite Hp|].
  destruct (rollback_COMMIT (ent_of ths) (holds_of ths) t (tlog th') (set_order n s) vj vk) as (lt' & Hrun & Hl');
    [by apply Hlk|apply Hth|done..|].
  erewrite bind_Ok by done. exists hist, db.
  assert (Hne : log_j (tlog th) ≠ log_k (tlog th)) by (by destruct Hids as (_ & _ & _ & _ & _ & ?)).
  set (recs' := <[log_j (tlog th) := undo_j (tlog th) vj]> (<[log_k (tlog th) := undo_k (tlog th) vk]> (records s))).
  assert (Hw : world_ok hist db (<[t := goto FINISHED th']> ths) (set_lock_table lt' (set_records recs' s))).
  { eapply (rollback_world hist db ths s t th _ _ lt' recs'); try done; [congruence|by right|..].
    - intros r [[_ ->]|[_ ->]]; unfold recs'.
      + rewrite list_lookup_insert_eq by (rewrite length_insert; by eapply lookup_lt_Some). done.
      + rewrite list_lookup_insert_ne, list_lookup_insert_eq by (done || by eapply lookup_lt_Some). done.
    - unfold dirty. rewrite Hp. intros r Hd. unfold recs'. rewrite !list_lookup_insert_ne; naive_solver.
    - unfold recs'. rewrite !length_insert. apply Hok. }
  eapply world_ok_hist; [exact Hw|done..|]. simpl.
  destruct (wok_hist _ _ _ _ _ _ _ Hok) as [Ho Hlen Hc Hr Hf]. split; try done.
  - rewrite (count_finished_insert ths t th), decide_True by (done || congruence). unfold n. lia.
  - unfold n in *. lia.
  - rewrite Hf, (files_insert ths t th _ []); [by rewrite app_nil_r|done|by rewrite app_nil_r].
Qed.

(** Committing is the serial transaction on the committed database. *)
Lemma commit_replay hist db ths s t th n :
  world_ok hist db ths s → ths !! t = Some th → pc th = COMMITTING →
  replay_line db (line_of (set_commit_id n (tlog th))) =
    Some (<[log_k (tlog th) := value_of_k (tlog th)]> (<[log_j (tlog th) := value_of_j (tlog th)]> db)).
Proof.
  intros Hok Ht Hp. destruct (dok_claims _ _ _ _ (wok_data _ _ _ _ _ _ _ Hok) t th Ht) as [Hi _ _ Hj Hk].
  rewrite Hp in *. assert (Hi' := Hi eq_refl).
  destruct (Hj eq_refl) as (oj & Hoj & _ & Hvj). destruct (Hk eq_refl) as (ok & Hok' & _ & Hvk).
  destruct (thok_ids _ _ _ (wok_threads _ _ _ _ _ _ _ Hok t th Ht)) as [(_ & _ & _ & Hids) _]; [by rewrite Hp|].
  unfold replay_line, serial, line_of. simpl. rewrite decide_True by done. simpl. rewrite Hi'. simpl. rewrite Hoj. simpl. rewrite Hok'. simpl.
  rewrite <- Hvj, <- Hvk. by rewrite decide_True.
Qed.

Lemma commit_hist hist db ths order t th th' ln db' :
  hist_ok R E hist db ths order → ths !! t = Some th → pc th ≠ FINISHED → (order + 1 ≤ E)%Z →
  l_commit_id ln = (order + 1)%Z → log_file th' = log_file th ++ [ln] → replay_line db ln = Some db' →
  hist_ok R E (hist ++ [ln]) db' (<[t := th']> ths) (order + 1).
Proof.
  intros [Ho Hlen Hc Hr Hf] Ht Hp Hn Hid Hlf Hln. split.
  - rewrite (count_finished_insert ths t th) by done. lia.
  - rewrite length_app. simpl. lia.
  - rewrite map_app, length_app, Hc. simpl. replace (Z.of_nat (length hist + 1)) with (Z.of_nat (length hist) + 1)%Z by lia.
    rewrite seqZ_app by lia. f_equal. unfold seqZ. simpl. f_equal. lia.
  - by rewrite replay_snoc, Hr.
  - rewrite (files_insert ths t th th' [ln]) by done. by rewrite <- Hf.
Qed.

Lemma commit_world hist db ths s t th n lt' :
  world_ok hist db ths s → ths !! t = Some th → pc th = COMMITTING → n = (global_execution_order s + 1)%Z → (n ≤ E)%Z →
  has_locks 0 (ent_of ths) (holds_of ths) t (tlog th) lt' →
  let l := set_commit_id n (tlog th) in
  ∃ hist' db', world_ok hist' db' (<[t := goto LOOP_HEAD (append_line (line_of l) (set_log l th))]> ths)
    (set_lock_table lt' (set_order n s)).
Proof.
  intros Hok Ht Hp -> Hn Hlk l. set (th' := goto LOOP_HEAD _). set (n := (global_execution_order s + 1)%Z) in *.
  assert (Hth := wok_threads _ _ _ _ _ _ _ Hok t th Ht).
  assert (Hpc : pc th ≠ FINISHED) by congruence. assert (HtN := live_tid _ _ _ _ _ _ _ _ _ Hok Ht Hpc).
  destruct (thok_ids _ _ _ Hth) as [Hids _]; [by rewrite Hp|]. destruct Hids as (_ & _ & _ & _ & _ & Hjk).
  destruct (dok_claims _ _ _ _ (wok_data _ _ _ _ _ _ _ Hok) t th Ht) as [_ _ _ Hj Hk]. rewrite Hp in Hj, Hk.
  destruct (Hj eq_refl) as (oj & Hoj & Hrj & Hvj). destruct (Hk eq_refl) as (ok & Hok' & Hrk & Hvk).
  destruct (wok_data _ _ _ _ _ _ _ Hok) as [Hlr Hldb Hrange _ _].
  set (db' := <[log_k (tlog th) := value_of_k (tlog th)]> (<[log_j (tlog th) := value_of_j (tlog th)]> db)).
  assert (Hk' : db' !! log_k (tlog th) = Some (value_of_k (tlog th))).
  { apply list_lookup_insert_eq. rewrite length_insert. by eapply lookup_lt_Some. }
  assert (Hj' : db' !! log_j (tlog th) = Some (value_of_j (tlog th))).
  { unfold db'. rewrite list_lookup_insert_ne by done. apply list_lookup_insert_eq. by eapply lookup_lt_Some. }
  assert (Hne : ∀ r, ¬ dirty th r → db' !! r = db !! r).
  { unfold dirty. rewrite Hp. intros r Hd. unfold db'. rewrite !list_lookup_insert_ne; naive_solver. }
  exists (hist ++ [line_of l]), db'. split.
  - rewrite length_insert. apply Hok.
  - eapply insert_thread_inv; [done| |intros u th0 _; apply Hok].
    eapply thread_ok_end; [done|lia|done|by left].
  - eapply locks_inv_ext; [..|exact Hlk]; intros u; symmetry; [by apply (ent_of_insert ths t th th')|by apply (holds_of_insert ths t th th')].
  - eapply data_ok_end; [done|done|done| | |done|unfold db'; by rewrite !length_insert|].
    + intros r [[_ ->]|[_ ->]]; simpl; congruence.
    + intros r Hd. by rewrite Hne.
    + intros r v Hv. destruct (decide (r = log_k (tlog th))) as [->|]; [rewrite Hk' in Hv; injection Hv as <-; rewrite Hvk; apply wrap_i64_range|].
      destruct (decide (r = log_j (tlog th))) as [->|]; [rewrite Hj' in Hv; injection Hv as <-; rewrite Hvj; apply wrap_i64_range|].
      apply (Hrange r). rewrite <- Hne; [done|]. unfold dirty. naive_solver.
  - apply (commit_hist hist db ths _ t th); [apply Hok|done..|]. by eapply commit_replay.
Qed.

Lemma commit_step_ok hist db ths s t th rnd :
  (0 ≤ E)%Z → (E + Z.of_nat N < 2 ^ 64)%Z → world_ok hist db ths s → ths !! t = Some th → pc th = COMMITTING →
  step_ok ths s t (thread_step R E rnd th s).
Proof.
  intros HE HEN Hok Ht Hp. unfold thread_step. rewrite Hp. unfold commit.
  assert (Hw := commit_order hist db ths s t th HE HEN Hok Ht ltac:(congruence)).
  erewrite bind_Ok by done. cbv zeta. rewrite Hw. erewrite bind_Ok by done.
  destruct (E <? global_execution_order s + 1)%Z eqn:Hn.
  - apply Z.ltb_lt in Hn. by eapply commit_late_ok.
  - apply Z.ltb_ge in Hn. assert (Hth := wok_threads _ _ _ _ _ _ _ Hok t th Ht).
    assert (Hlk := world_has_locks hist db ths s t th Hok Ht). rewrite Hp in Hlk.
    destruct (thok_ids _ _ _ Hth) as [Hids Hph]; [by rewrite Hp|].
    set (l := set_commit_id (global_execution_order s + 1) (tlog th)).
    destruct (release_locks_Ok (ent_of ths) (holds_of ths) t l (set_order (global_execution_order s + 1) s)) as (lt' & Hrun & Hl');
      [by apply Hlk|apply Hth|done|].
    erewrite bind_Ok by exact Hrun. by eapply commit_world.
Qed.

Theorem thread_step_ok hist db ths s t th rnd :
  0 < R → (0 ≤ E)%Z → (E + Z.of_nat N < 2 ^ 64)%Z →
  world_ok hist db ths s → ths !! t = Some th → pc th ≠ FINISHED →
  step_ok ths s t (thread_step R E rnd th s).
Proof.
  intros HR HE HEN Hok Ht Hp. destruct (pc th) eqn:Hpc; [..|done].
  all: first
    [ by eapply choose_step_ok; [..|rewrite Hpc; set_solver]
    | by eapply lock_step_ok; [..|rewrite Hpc; set_solver]
    | by eapply wait_step_ok; [..|rewrite Hpc; set_solver]
    | by eapply load_step_ok; [..|rewrite Hpc; set_solver]
    | by eapply store_step_ok; [..|rewrite Hpc; set_solver]
    | by eapply commit_step_ok ].
Qed.
End running.
