(* ===== verification/Serializability.v ===== *)
(** The theorems about project 2 as a whole: every reachable state of the
    transaction program. *)
From stdpp Require Import functions base tactics numbers option list list_numbers gmap sets relations.
From Stdlib Require Import ZArith Lia.
From S2P Require Import Prelude DirectedGraph LockTable WaitQueue LockInv LockSpec LockRelease LockManager Transaction TransactionInv TransactionStep.

(** The command line: [N - 1] threads, [R] records, at most [E] commits. The
    bounds keep the thread ids within the reader counters and
    [global_execution_order] within its 64 bits. *)
Record config_ok (N R : nat) (E : Z) : Prop := {
  cfg_R : 0 < R;
  cfg_E : (0 ≤ E)%Z;
  cfg_N : (Z.of_nat N ≤ 2 ^ 32)%Z;
  cfg_EN : (E + Z.of_nat N < 2 ^ 64)%Z;
}.

(** The accesses to the records a thread can make in its next step, and whether
    they write. The writes of a rollback are among them. *)
Definition accesses (th : thread) : list (nat * bool) :=
  let l := tlog th in
  match pc th with
  | READ_I => [(log_i l, false)]
  | OLD_J | LOAD_J => [(log_j l, false)]
  | STORE_J => [(log_j l, true)]
  | SECOND_LOCK => [(log_j l, false); (log_j l, true)]
  | OLD_K | LOAD_K => [(log_k l, false)]
  | STORE_K => [(log_k l, true)]
  | COMMITTING => [(log_k l, false); (log_k l, true); (log_j l, false); (log_j l, true)]
  | _ => []
  end.

(** [hist] lists the committed transactions: the lines of all log files, with
    commit ids 1, 2, 3, ... in this order, at most [E] of them; executing them
    one after the other on records that all contain 100 reads and writes exactly
    the logged values and leaves [db]. *)
Definition serial_log (R : nat) (E : Z) (w : world) (hist : list log_line) (db : list Z) : Prop :=
  hist ≡ₚ concat (map log_file (threads w)) ∧
  map l_commit_id hist = seqZ 1 (Z.of_nat (length hist)) ∧
  Z.of_nat (length hist) = Z.min (global_execution_order (wshared w)) E ∧
  replay (replicate R 100%Z) hist = Some db.

Definition all_finished (w : world) : Prop := ∀ t th, threads w !! t = Some th → pc th = FINISHED.

Definition asleep (w : world) (t : nat) : Prop := cond_var (lock_table (wshared w)) !! t = Some true.

(** ** The invariant holds in every reachable state *)

Lemma init_threads N t th : map new_thread (seq 0 N) !! t = Some th → th = new_thread t ∧ t < N.
Proof.
  intros H. apply list_lookup_fmap_Some in H as (x & -> & Hx).
  apply lookup_seq in Hx as [-> ?]. done.
Qed.

Lemma init_idle N t th :
  map new_thread (seq 0 N) !! t = Some th → queued (pc th) = 0 ∧ log_file th = [].
Proof. intros [-> _]%init_threads. by destruct t. Qed.

Lemma init_world_ok N R E :
  config_ok N R E → world_ok R N E [] (replicate R 100%Z) (threads (init_world N R)) (wshared (init_world N R)).
Proof.
  intros [HR HE HN HEN]. simpl. split.
  - by rewrite length_map, length_seq.
  - intros t th [-> ?]%init_threads. split; simpl; [done|by intros ->|by destruct t|by destruct t].
  - eapply locks_inv_ext; [..|by apply new_lock_table_inv]; intros t;
      [unfold ent_of, entries|unfold holds_of, holds]; (destruct (map new_thread (seq 0 N) !! t) as [th|] eqn:Ht; [|done]);
      apply init_idle in Ht as [Hq _]; simpl; [by rewrite Hq|]. by destruct (idle_pc _ Hq) as [-> _].
  - split; simpl; rewrite ?length_replicate; try done.
    + intros r v [-> _]%lookup_replicate. done.
    + intros t th [Hq _]%init_idle. destruct (idle_pc _ Hq) as (_ & ? & ? & ? & ? & ?). split; congruence.
  - split; simpl; [lia|lia|done|done|].
    assert (Hnil : ∀ l, (∀ th, th ∈ l → log_file th = []) → concat (map log_file l) = []).
    { induction l as [|th l IH]; intros Hl; [done|]. simpl. rewrite (Hl th), IH; [done|set_solver..]. }
    rewrite Hnil; [done|]. intros th [t Ht]%list_elem_of_lookup. by apply init_idle in Ht as [_ ?].
Qed.

(** A thread holds what it accesses, and does not write the record it reads. *)
Lemma accesses_held R t th r b :
  thread_ok R t th → (r, b) ∈ accesses th → r ∈ holds th ∧ (log_i (tlog th) = r → b = false).
Proof.
  intros Hth Ha. assert (Hin : in_transaction (pc th) = true).
  { unfold accesses in Ha. by destruct (pc th); try apply not_elem_of_nil in Ha. }
  destruct (thok_ids _ _ _ Hth Hin) as [(_ & _ & _ & Hij & Hik & Hjk) _].
  unfold accesses, holds in *. destruct (pc th); simpl; rewrite ?elem_of_cons in Ha; try set_solver.
Qed.

Section reach.
Context (N R : nat) (E : Z) (Hcfg : config_ok N R E).

Notation world_ok := (world_ok R N E).

(** A step of a live thread in a state that satisfies the invariant. *)
Lemma world_step_ok hist db w tid rnd out :
  exited w = false → world_ok hist db (threads w) (wshared w) → world_step R E tid rnd w = Some out →
  ∃ w', out = Ok w' ∧
    ((exited w' = false ∧ ∃ hist' db', world_ok hist' db' (threads w') (wshared w')) ∨
     (exited w' = true ∧ threads w' = threads w ∧
      global_execution_order (wshared w') = global_execution_order (wshared w))).
Proof.
  intros Hex Hok Hs. unfold world_step in Hs. rewrite Hex in Hs.
  destruct (threads w !! tid) as [th|] eqn:Ht; [|done]. case_decide as Hp; [done|]. injection Hs as <-.
  destruct Hcfg as [HR HE HN HEN].
  assert (Hstep := thread_step_ok R N E hist db (threads w) (wshared w) tid th rnd HR HE HEN Hok Ht Hp).
  unfold step_ok in Hstep. destruct (thread_step R E rnd th (wshared w)) as [[[th'|] s']|]; [..|done].
  - eexists. split; [done|]. left. done.
  - eexists. split; [done|]. right. done.
Qed.

Lemma reachable_ok w :
  reachable N R E w →
  ∃ hist db, hist_ok R E hist db (threads w) (global_execution_order (wshared w)) ∧
    (exited w = false → world_ok hist db (threads w) (wshared w)).
Proof.
  revert w. unfold reachable. apply rtc_ind_r.
  - exists [], (replicate R 100%Z). assert (Hi := init_world_ok N R E Hcfg). split; [apply Hi|done].
  - intros w1 w2 _ H12 (hist & db & Hh & Hok). inversion H12 as [? tid rnd ? Hs]; subst.
    assert (Hex : exited w1 = false) by (unfold world_step in Hs; by destruct (exited w1)).
    destruct (world_step_ok hist db w1 tid rnd (Ok w2)) as (w' & [= <-] & Hw'); [done|by apply Hok|done|].
    destruct Hw' as [(Hex' & hist' & db' & Hok')|(Hex' & Hth & Ho)].
    + exists hist', db'. split; [apply Hok'|done].
    + exists hist, db. split; [by rewrite Hth, Ho|congruence].
Qed.

Lemma reachable_live w :
  reachable N R E w → exited w = false → ∃ hist db, world_ok hist db (threads w) (wshared w).
Proof. intros (hist & db & _ & Hok)%reachable_ok Hex. eauto. Qed.

(** ** Locks and program counters *)

(** Every lock asked for is held, except at the program counters that wait. *)
Lemma waiting_entry t th r :
  thread_ok R t th → is_Some (entries th !! r) → r ∉ holds th →
  pc th ∈ [READ_WAIT; FIRST_WAIT; SECOND_WAIT] ∧ r = nth_lock (nheld (pc th)) (tlog th).
Proof.
  unfold entries, holds. intros Hth [ph He] Hr.
  destruct (pc th); simpl in *;
    repeat (rewrite lookup_insert_Some in He; destruct He as [[<- _]|[? He]]); try set_solver; by rewrite lookup_empty in He.
Qed.

(** A waiting thread that is awakened while it sleeps goes back to sleep. *)
Lemma asleep_step hist db ths s t th rnd :
  world_ok hist db ths s → ths !! t = Some th → cond_var (lock_table s) !! t = Some true →
  ∃ s', thread_step R E rnd th s = Ok (Some th, s').
Proof.
  intros Hok Ht Hs. assert (Hth := wok_threads _ _ _ _ _ _ _ Hok t th Ht).
  assert (Hlk := wok_locks _ _ _ _ _ _ _ Hok). assert (Htid := thok_tid _ _ _ Hth).
  assert (Hen := ent_of_lookup ths t th Ht). assert (Hho := holds_of_lookup ths t th Ht).
  destruct (inv_asleep R N _ _ _ t Hlk Hs) as (r & He & Hr). rewrite Hen in He. rewrite Hho in Hr.
  destruct (waiting_entry t th r Hth He Hr) as [Hp ->].
  assert (Hnolock : ∀ res lt', res ≠ ABORTED →
    locks_inv R N (ent_of ths) (held_after (holds_of ths) (nth_lock (nheld (pc th)) (tlog th)) t res) lt' →
    (res = LOCKED → cond_var lt' = cond_var (lock_table s)) → res = SLEEPING).
  { intros [] lt' Hna Hl' Hcv; [exfalso|done|done]. unfold held_after in Hl'. rewrite decide_True in Hl' by done.
    destruct (inv_asleep R N _ _ _ t Hl') as (r & He' & Hr'); [by rewrite Hcv|].
    rewrite fn_lookup_insert, Hho in Hr'. rewrite Hen in He'.
    destruct (waiting_entry t th r Hth He') as [_ ->]; set_solver. }
  assert (Hback : ∀ k s', after_lock th (pc th) k SLEEPING s' = Ok (Some th, s')) by (by destruct th).
  unfold thread_step. rewrite !elem_of_cons in Hp. unfold entries, holds in Hen, Hho, Hr.
  destruct Hp as [Hp|[Hp|[Hp|Hp%not_elem_of_nil]]]; [..|done]; rewrite Hp in Hback, Hen, Hho, Hnolock, Hr |- *;
    simpl in *; rewrite Htid.
  - destruct (inv_wakeup_read R N _ _ _ t (log_i (tlog th)) Hlk) as (res & lt' & Hrun & Hna & Hl' & Hcv);
      [by rewrite Hen, lookup_insert_eq|by rewrite Hho|].
    erewrite bind_Ok by (by apply on_lock_table_Ok). rewrite (Hnolock res lt') by done. eexists. exact (Hback LOOP_HEAD _).
  - destruct (inv_wakeup_write R N _ _ _ t (log_j (tlog th)) FIRST_WRITE Hlk) as (res & lt' & Hrun & Hna & Hl' & Hcv);
      [by rewrite Hen, lookup_insert_eq|by left|by rewrite Hho|].
    erewrite bind_Ok by (by apply on_lock_table_Ok). rewrite (Hnolock res lt') by done. eexists. exact (Hback LOOP_HEAD _).
  - destruct (inv_wakeup_write R N _ _ _ t (log_k (tlog th)) SECOND_WRITE Hlk) as (res & lt' & Hrun & Hna & Hl' & Hcv);
      [by rewrite Hen, lookup_insert_eq|by right|by rewrite Hho|].
    erewrite bind_Ok by (by apply on_lock_table_Ok). rewrite (Hnolock res lt') by done. eexists. exact (Hback LOOP_HEAD _).
Qed.

(** Two threads hold the same record only as readers. *)
Lemma holds_cases th r :
  r ∈ holds th →
  r = log_i (tlog th) ∨ (2 ≤ nheld (pc th) ∧ r = log_j (tlog th)) ∨ (3 ≤ nheld (pc th) ∧ r = log_k (tlog th)).
Proof.
  unfold holds. destruct (nheld (pc th)) as [|[|[|]]]; simpl; rewrite ?elem_of_union, ?elem_of_singleton, ?elem_of_empty;
    intuition lia.
Qed.

Lemma held_in_transaction p : 2 ≤ nheld p → in_transaction p = true.
Proof. destruct p; simpl; (done || lia). Qed.

Lemma shared_record hist db ths s t u th th' r :
  world_ok hist db ths s → ths !! t = Some th → ths !! u = Some th' → t ≠ u →
  r ∈ holds th → r ∈ holds th' → log_i (tlog th) = r.
Proof.
  intros Hok Ht Hu Hne Hr Hr'. assert (Hth := wok_threads _ _ _ _ _ _ _ Hok t th Ht).
  destruct (holds_cases th r Hr) as [->|Hw]; [done|exfalso].
  assert (Hwl : write_lock th r).
  { destruct Hw as [[Hn ->]|[Hn ->]]; [|by apply write_lock_k].
    eapply write_lock_j; [|done]. by apply (thok_ids R t), held_in_transaction. }
  destruct Hwl as (_ & ph & He & Hph). by eapply (write_held_alone R N E hist db ths s t th r ph u th').
Qed.

(** A thread that holds nothing is in no queue. *)
Lemma idle_not_queued hist db ths s t th r q :
  world_ok hist db ths s → ths !! t = Some th → queued (pc th) = 0 →
  record_wait_queues (lock_table s) !! r = Some q → t ∉ tids q.
Proof.
  intros Hok Ht Hq Hr. destruct (wok_locks _ _ _ _ _ _ _ Hok) as (hs & Hl & _).
  eapply locks_ok_not_queued; [done..|]. rewrite (ent_of_lookup ths t th) by done. unfold entries. by rewrite Hq.
Qed.
End reach.

(** ** Properties *)

(** C1. Every reachable state of the program is serializable: the transactions
    that have committed, taken in the order of their commit ids, read and wrote
    exactly the values a one-at-a-time execution of them does, and when every
    thread has finished the records are the result of that execution. *)
Theorem serializable N R E w :
  config_ok N R E → reachable N R E w →
  ∃ hist db, serial_log R E w hist db ∧ (exited w = false → all_finished w → records (wshared w) = db).
Proof.
  intros Hcfg Hr. destruct (reachable_ok N R E Hcfg w Hr) as (hist & db & [Ho Hlen Hids Hrep Hf] & Hok).
  exists hist, db. split; [done|]. intros Hex Hfin. apply list_eq. intros r.
  eapply dok_clean; [by apply Hok|]. intros t th Ht Hd. apply Hfin in Ht. unfold dirty in Hd. rewrite Ht in Hd.
  destruct Hd as [[? _]|[? _]]; done.
Qed.

(** C2. No step of any thread in any reachable state fails an assert, reads or
    writes outside an array, or recurses without end: every step there is has a
    result. *)
Theorem no_failure N R E w tid rnd out :
  config_ok N R E → reachable N R E w → world_step R E tid rnd w = Some out → ∃ w', out = Ok w'.
Proof.
  intros Hcfg Hr Hs.
  assert (Hex : exited w = false) by (unfold world_step in Hs; by destruct (exited w)).
  destruct (reachable_live N R E Hcfg w Hr Hex) as (hist & db & Hok).
  destruct (world_step_ok N R E Hcfg hist db w tid rnd out) as (w' & -> & _); eauto.
Qed.

(** C16. The program never deadlocks: while some thread has not finished, some
    thread that is not asleep has not finished, and can make a step whatever
    [rand] returns. *)
Theorem no_deadlock N R E w rnd :
  config_ok N R E → reachable N R E w → exited w = false → ¬ all_finished w →
  ∃ tid w', ¬ asleep w tid ∧ world_step R E tid rnd w = Some (Ok w').
Proof.
  intros Hcfg Hr Hex Hnf. destruct (reachable_live N R E Hcfg w Hr Hex) as (hist & db & Hok).
  assert (Hlive : ∃ t th, threads w !! t = Some th ∧ pc th ≠ FINISHED ∧ ¬ asleep w t).
  { destruct (decide (Exists (λ th, pc th ≠ FINISHED) (threads w))) as [He|He].
    2: { exfalso. apply Hnf. intros t th Ht. destruct (decide (pc th = FINISHED)); [done|].
         exfalso. apply He, Exists_exists. exists th. split; [by eapply list_elem_of_lookup_2|done]. }
    apply Exists_exists in He as (th & [t Ht]%list_elem_of_lookup & Hp).
    unfold asleep. destruct (decide (cond_var (lock_table (wshared w)) !! t = Some true)) as [Hs|]; [|eauto].
    destruct (inv_someone_awake R N _ _ _ t (wok_locks _ _ _ _ _ _ _ Hok) Hs) as (u & r & He & Hu).
    unfold ent_of in He. destruct (threads w !! u) as [th'|] eqn:Htu; [|by destruct He].
    exists u, th'. split_and!; [done| |congruence]. intros Hpu. unfold entries in He. simpl in He.
    rewrite Hpu in He. by destruct He. }
  destruct Hlive as (t & th & Ht & Hp & Hs).
  assert (Hstep : ∃ out, world_step R E t rnd w = Some out).
  { unfold world_step. rewrite Hex, Ht, decide_False by done. eauto. }
  destruct Hstep as [out Hout].
  destruct (world_step_ok N R E Hcfg hist db w t rnd out) as (w' & -> & _); eauto.
Qed.

(** Reader-writer exclusion: when two different threads hold the same
    record, it is the record both of them read. *)
Theorem locks_exclusive N R E w t u th th' r :
  config_ok N R E → reachable N R E w → exited w = false →
  threads w !! t = Some th → threads w !! u = Some th' → t ≠ u → r ∈ holds th → r ∈ holds th' →
  log_i (tlog th) = r ∧ log_i (tlog th') = r.
Proof.
  intros Hcfg Hr Hex Ht Hu Hne Hh Hh'. destruct (reachable_live N R E Hcfg w Hr Hex) as (hist & db & Hok).
  split; [by eapply (shared_record N R E hist db _ _ t u)|by eapply (shared_record N R E hist db _ _ u t)].
Qed.

(** C36. The accesses to the records that run outside the mutex, and those of
    the rollback and commit code, never race: two threads about to access the
    same record are both reading it. *)
Theorem data_race_free N R E w t u th th' r b b' :
  config_ok N R E → reachable N R E w → exited w = false →
  threads w !! t = Some th → threads w !! u = Some th' → t ≠ u →
  (r, b) ∈ accesses th → (r, b') ∈ accesses th' → b = false ∧ b' = false.
Proof.
  intros Hcfg Hr Hex Ht Hu Hne Ha Ha'. destruct (reachable_live N R E Hcfg w Hr Hex) as (hist & db & Hok).
  destruct (accesses_held R t th r b (wok_threads _ _ _ _ _ _ _ Hok t th Ht) Ha) as [Hh Hb].
  destruct (accesses_held R u th' r b' (wok_threads _ _ _ _ _ _ _ Hok u th' Hu) Ha') as [Hh' Hb'].
  split; [apply Hb|apply Hb'];
    [by eapply (shared_record N R E hist db _ _ t u)|by eapply (shared_record N R E hist db _ _ u t)].
Qed.

(** C33. No wake-up is lost: a thread is asleep only while it has to wait. Were
    it woken, the loop around [pthread_cond_wait] would put it back to sleep. *)
Theorem no_lost_wakeup N R E w t th rnd :
  config_ok N R E → reachable N R E w → exited w = false → threads w !! t = Some th → asleep w t →
  ∃ s, thread_step R E rnd th (wshared w) = Ok (Some th, s).
Proof.
  intros Hcfg Hr Hex Ht Hs. destruct (reachable_live N R E Hcfg w Hr Hex) as (hist & db & Hok).
  by eapply (asleep_step N R E).
Qed.

(** Transactions that have not committed leave no trace: a thread between
    two transactions is in no wait queue, and a record that no transaction
    holds has the value the committed transactions gave it. *)
Theorem uncommitted_no_trace N R E w :
  config_ok N R E → reachable N R E w → exited w = false →
  ∃ hist db, serial_log R E w hist db ∧
    (∀ t th r q, threads w !! t = Some th → in_transaction (pc th) = false →
       record_wait_queues (lock_table (wshared w)) !! r = Some q → t ∉ tids q) ∧
    (∀ r, (∀ t th, threads w !! t = Some th → r ∉ holds th) → records (wshared w) !! r = db !! r).
Proof.
  intros Hcfg Hr Hex. destruct (reachable_ok N R E Hcfg w Hr) as (hist & db & [Ho Hlen Hids Hrep Hf] & Hok).
  specialize (Hok Hex). exists hist, db. split_and!; [done|..].
  - intros t th r q Ht Hp. eapply idle_not_queued; [done..|]. by destruct (pc th).
  - intros r Hn. eapply dok_clean; [apply Hok|]. intros t th Ht Hd. apply (Hn t th Ht).
    by eapply dirty_holds; [eapply (wok_threads _ _ _ _ _ _ _ Hok)|].
Qed.

(** ** A run of the program

    Two threads, three records, two commits. Thread 1 reads record 0 and wants
    to write 1; thread 2 reads 1 and wants to write 0. *)

Definition prefix_schedule : list (nat * nat) :=
  [(1, 0); (1, 0); (1, 1); (1, 2); (1, 0); (1, 0);
   (2, 0); (2, 1); (2, 0); (2, 2); (2, 0); (2, 0); (1, 0)].

(** Thread 1 sleeps until thread 2 gives record 1 back. *)
Definition waiting_world : world :=
  Eval vm_compute in default (init_world 3 3) (run 3 2 prefix_schedule (init_world 3 3)).

Lemma waiting_world_run : run 3 2 prefix_schedule (init_world 3 3) = Some waiting_world.
Proof. vm_compute. reflexivity. Qed.

(** Thread 2 detects the deadlock and aborts; thread 1 commits; thread 2 tries
    again and commits; a third transaction is too late and rolls back. *)
Definition full_schedule : list (nat * nat) :=
  prefix_schedule ++ (2, 0) :: replicate 9 (1, 0) ++
  [(2, 0); (2, 1); (2, 0); (2, 2)] ++ replicate 11 (2, 0) ++
  [(1, 0); (1, 0); (1, 1); (1, 2)] ++ replicate 11 (1, 0) ++ [(2, 0)].

Definition final_world : world :=
  Eval vm_compute in default (init_world 3 3) (run 3 2 full_schedule (init_world 3 3)).

Lemma final_world_run : run 3 2 full_schedule (init_world 3 3) = Some final_world.
Proof. vm_compute. reflexivity. Qed.

(** Both threads read record 0 at the same time. *)
Definition readers_schedule : list (nat * nat) :=
  [(1, 0); (1, 0); (1, 1); (1, 2); (1, 0); (2, 0); (2, 0); (2, 2); (2, 1); (2, 0)].

Definition readers_world : world :=
  Eval vm_compute in default (init_world 3 3) (run 3 2 readers_schedule (init_world 3 3)).

Lemma readers_world_run : run 3 2 readers_schedule (init_world 3 3) = Some readers_world.
Proof. vm_compute. reflexivity. Qed.

Lemma sample_config : config_ok 3 3 2.
Proof. split; lia. Qed.

Lemma serializable_witness :
  ∃ hist db, serial_log 3 2 final_world hist db ∧
    (exited final_world = false → all_finished final_world → records (wshared final_world) = db).
Proof.
  apply (serializable 3 3 2); [apply sample_config|]. eapply run_reachable, final_world_run.
Defined.

Lemma no_failure_witness : ∃ w, world_step 3 2 2 0 waiting_world = Some (Ok w).
Proof.
  destruct (world_step 3 2 2 0 waiting_world) as [out|] eqn:Hs; [|vm_compute in Hs; discriminate Hs].
  destruct (no_failure 3 3 2 waiting_world 2 0 out sample_config (run_reachable _ _ _ _ _ waiting_world_run) Hs) as [w' ->].
  by exists w'.
Defined.

Lemma no_deadlock_witness :
  ∃ tid w', ¬ asleep waiting_world tid ∧ world_step 3 2 tid 0 waiting_world = Some (Ok w').
Proof.
  apply (no_deadlock 3 3 2); [apply sample_config|eapply run_reachable, waiting_world_run|reflexivity|].
  intros Hf. specialize (Hf 1). vm_compute in Hf. by specialize (Hf _ eq_refl).
Defined.

Lemma locks_exclusive_witness :
  ∃ th th', threads readers_world !! 1 = Some th ∧ threads readers_world !! 2 = Some th' ∧
    log_i (tlog th) = 0 ∧ log_i (tlog th') = 0.
Proof.
  eexists _, _. split; [vm_compute; reflexivity|]. split; [vm_compute; reflexivity|].
  apply (locks_exclusive 3 3 2 readers_world 1 2 _ _ 0);
    [apply sample_config|eapply run_reachable, readers_world_run|reflexivity|vm_compute; reflexivity|vm_compute; reflexivity|lia|..];
    unfold holds; simpl; set_solver.
Defined.

Lemma data_race_free_witness :
  ∃ th th', threads readers_world !! 1 = Some th ∧ threads readers_world !! 2 = Some th' ∧
    (0, false) ∈ accesses th ∧ (0, false) ∈ accesses th' ∧ (false = false ∧ false = false).
Proof.
  eexists _, _. split; [vm_compute; reflexivity|]. split; [vm_compute; reflexivity|].
  split; [vm_compute; left|]. split; [vm_compute; left|].
  apply (data_race_free 3 3 2 readers_world 1 2 (mk_thread READ_I (mk_log 1 READ false 0 0 1 2 0 0 0) [] 0 0 [])
           (mk_thread READ_I (mk_log 2 READ false 0 0 2 1 0 0 0) [] 0 0 []) 0);
    [apply sample_config|eapply run_reachable, readers_world_run|reflexivity|reflexivity|reflexivity|lia|vm_compute; left|vm_compute; left].
Defined.

Lemma no_lost_wakeup_witness :
  ∃ th s, threads waiting_world !! 1 = Some th ∧ thread_step 3 2 0 th (wshared waiting_world) = Ok (Some th, s).
Proof.
  destruct (threads waiting_world !! 1) as [th|] eqn:Ht; [|vm_compute in Ht; discriminate Ht].
  destruct (no_lost_wakeup 3 3 2 waiting_world 1 th 0) as [s Hs];
    [apply sample_config|eapply run_reachable, waiting_world_run|reflexivity|exact Ht|vm_compute; reflexivity|].
  by exists th, s.
Defined.

Lemma uncommitted_no_trace_witness :
  ∃ hist db, serial_log 3 2 waiting_world hist db ∧
    (∀ t th r q, threads waiting_world !! t = Some th → in_transaction (pc th) = false →
       record_wait_queues (lock_table (wshared waiting_world)) !! r = Some q → t ∉ tids q) ∧
    (∀ r, (∀ t th, threads waiting_world !! t = Some th → r ∉ holds th) → records (wshared waiting_world) !! r = db !! r).
Proof.
  apply (uncommitted_no_trace 3 3 2); [apply sample_config|eapply run_reachable, waiting_world_run|reflexivity].
Defined.
