(* ===== verification/TransactionEdge.v ===== *)
(** The transaction program with fewer than three records. *)
From stdpp Require Import functions base tactics numbers option list list_numbers gmap sets relations.
From Stdlib Require Import ZArith Lia.
From S2P Require Import Prelude DirectedGraph LockTable Transaction TransactionInv TransactionStep Serializability.

(** ** Fewer than three records *)

(** The thread is still choosing record ids, or has not started. *)
Definition choosing (R : nat) (th : thread) : Prop :=
  in_transaction (pc th) = false ∧ log_file th = [] ∧
  match pc th with
  | CHOOSE_J => log_i (tlog th) < R
  | CHOOSE_K => log_i (tlog th) < R ∧ log_j (tlog th) < R ∧ log_i (tlog th) ≠ log_j (tlog th)
  | _ => True
  end.

Lemma choosing_step R E rnd th s out :
  0 < R < 3 → choosing R th → pc th ≠ FINISHED → thread_step R E rnd th s = Ok out →
  ∃ th', out = (Some th', s) ∧ choosing R th'.
Proof.
  intros HR (Hp & Hf & Hc) Hnf Hs. assert (Hmod : rnd mod R < R) by (apply Nat.mod_upper_bound; lia).
  assert (HR0 : (R =? 0) = false) by (apply Nat.eqb_neq; lia).
  unfold thread_step, rand_mod in Hs. rewrite HR0 in Hs.
  destruct (pc th) eqn:Hpc; try done; injection Hs as <-; eexists; (split; [done|]).
  - unfold choosing; simpl. by destruct (global_execution_order s <=? E)%Z.
  - unfold choosing; simpl. done.
  - unfold choosing; simpl. destruct (log_i (tlog th) =? rnd mod R) eqn:Hij; simpl; rewrite ?Hpc; [done|].
    apply Nat.eqb_neq in Hij. done.
  - unfold choosing; simpl. destruct ((rnd mod R =? log_i (tlog th)) || (rnd mod R =? log_j (tlog th))) eqn:Hk; simpl.
    + rewrite Hpc. done.
    + exfalso. apply orb_false_iff in Hk as [?%Nat.eqb_neq ?%Nat.eqb_neq]. lia.
Qed.

(** With one or two records (which [main] accepts) no transaction ever takes
    a lock or commits: the loops that draw distinct record ids never end. *)
Theorem few_records_stuck N R E w t th :
  0 < R < 3 → reachable N R E w → threads w !! t = Some th →
  choosing R th ∧ global_execution_order (wshared w) = 0%Z.
Proof.
  intros HR Hr. assert (Hinv : (∀ t th, threads w !! t = Some th → choosing R th) ∧
    global_execution_order (wshared w) = 0%Z).
  2: { destruct Hinv as [Hc Ho]. intros Ht. split; [by eapply Hc|done]. }
  clear t th. revert w Hr. unfold reachable. apply rtc_ind_r.
  - split; [|done]. intros t th [-> _]%init_threads. by destruct t.
  - intros w1 w2 _ H12 [Hc Ho]. inversion H12 as [? tid rnd ? Hs]; subst. unfold world_step in Hs.
    destruct (exited w1); [done|]. destruct (threads w1 !! tid) as [th|] eqn:Ht; [|done].
    case_decide as Hp; [done|]. injection Hs as Hs.
    destruct (thread_step R E rnd th (wshared w1)) as [[o s']|] eqn:Hstep; [|done].
    destruct (choosing_step R E rnd th (wshared w1) (o, s')) as (th' & [= -> ->] & Hc'); [done|by eapply Hc|done|done|].
    injection Hs as <-. split; [|done]. simpl.
    apply (insert_thread_inv (λ _, choosing R) _ _ th); [done..|]. intros u th0 _. apply Hc.
Qed.

Lemma few_records_stuck_witness :
  choosing 2 (new_thread 1) ∧ global_execution_order (wshared (init_world 2 2)) = 0%Z.
Proof.
  apply (few_records_stuck 2 2 5 (init_world 2 2) 1 (new_thread 1)); [lia|apply rtc_refl|reflexivity].
Defined.
