(* ===== verification/Marking.v ===== *)
(** The log files and the program that checks them.

    [print_line] and [file_text] are what [transaction] writes to
    [thread<tid>.txt] ([project2/src/transaction.cc]); [mark] is the marking
    program [project2/marking/main.cc], which reads the files back, sorts the
    lines by commit id and executes the transactions again, one at a time. *)
From stdpp Require Import functions base tactics numbers option list list_numbers gmap sets relations sorting.
From Stdlib Require Import ZArith Lia Ascii.
From S2P Require Import Prelude DirectedGraph LockTable Transaction TransactionInv TransactionStep Serializability.

(** ** Numbers as text *)

Definition text := list ascii.

Definition digit (d : Z) : ascii := ascii_of_nat (48 + Z.to_nat d).
Definition digit_value (c : ascii) : Z := Z.of_nat (nat_of_ascii c) - 48.
Definition is_digit (c : ascii) : bool := ((0 <=? digit_value c) && (digit_value c <=? 9))%Z.

(** The decimal digits of [n], in front of [acc]; twenty digits are enough for
    64 bits. *)
Fixpoint print_digits (fuel : nat) (n : Z) (acc : text) : text :=
  match fuel with
  | 0 => acc
  | S fuel' =>
      let acc' := digit (n mod 10) :: acc in
      if (n <? 10)%Z then acc' else print_digits fuel' (n / 10) acc'
  end.

Definition print_Z (z : Z) : text :=
  if (z <? 0)%Z then ascii_of_nat 45 :: print_digits 20 (- z) [] else print_digits 20 z [].

Fixpoint read_digits (s : text) (acc : Z) : Z * text :=
  match s with
  | c :: s' => if is_digit c then read_digits s' (10 * acc + digit_value c) else (acc, s)
  | [] => (acc, [])
  end.

Definition is_space (c : ascii) : bool :=
  bool_decide (nat_of_ascii c = 32 ∨ (9 ≤ nat_of_ascii c ∧ nat_of_ascii c ≤ 13)).

Fixpoint skip_spaces (s : text) : text :=
  match s with
  | c :: s' => if is_space c then skip_spaces s' else s
  | [] => []
  end.

(** [std::stol]: white space, a sign, the longest run of digits. *)
Definition stol_digits (sign : Z) (s : text) : res Z :=
  match s with
  | c :: _ =>
      if is_digit c then
        let n := (sign * (read_digits s 0).1)%Z in
        if bool_decide (i64 n) then Ok n else Err UncaughtException
      else Err UncaughtException
  | [] => Err UncaughtException
  end.

Definition stol (s : text) : res Z :=
  match skip_spaces s with
  | c :: s' =>
      if nat_of_ascii c =? 45 then stol_digits (-1) s'
      else if nat_of_ascii c =? 43 then stol_digits 1 s'
      else stol_digits 1 (c :: s')
  | [] => Err UncaughtException
  end.

(** ** Writing the log *)

Definition space : ascii := ascii_of_nat 32.
Definition newline : ascii := ascii_of_nat 10.
Definition nul : ascii := ascii_of_nat 0.

Definition print_line (ln : log_line) : text :=
  print_Z (l_commit_id ln) ++ space :: print_Z (Z.of_nat (l_i ln)) ++ space :: print_Z (Z.of_nat (l_j ln)) ++
  space :: print_Z (Z.of_nat (l_k ln)) ++ space :: print_Z (l_value_of_i ln) ++ space :: print_Z (l_value_of_j ln) ++
  space :: print_Z (l_value_of_k ln).

Definition file_text (lines : list log_line) : text := concat (map (λ ln, print_line ln ++ [newline]) lines).

(** ** The marking program *)

(** [log_t] of [marking/main.h]. *)
Record mark_log : Type := mk_mark_log {
  m_commit_id : Z;
  m_i : Z;
  m_j : Z;
  m_k : Z;
  m_value_of_i : Z;
  m_value_of_j : Z;
  m_value_of_k : Z;
}.

#[global] Instance mark_log_eq_dec : EqDecision mark_log.
Proof. solve_decision. Defined.

(** [std::getline] until it fails. *)
Fixpoint getlines (s : text) (line_buffer : text) : list text :=
  match s with
  | [] => if bool_decide (line_buffer = []) then [] else [line_buffer]
  | c :: s' => if bool_decide (c = newline) then line_buffer :: getlines s' [] else getlines s' (line_buffer ++ [c])
  end.

(** [while ( *c != ' ')]: the token and what follows the space. Running off the
    end of the string is undefined. *)
Fixpoint next_token (s : text) : res (text * text) :=
  match s with
  | [] => Err UndefinedBehaviour
  | c :: s' =>
      if bool_decide (c = space) then Ok ([], s')
      else '(token, rest) ← next_token s'; Ok (c :: token, rest)
  end.

(** [while ( *c != '\0')]: at the end of the line it is the terminating zero that
    [std::string] keeps behind its characters, read through [end()], which the standard
    does not allow. *)
Fixpoint last_token (s : text) : text :=
  match s with
  | [] => []
  | c :: s' => if bool_decide (c = nul) then [] else c :: last_token s'
  end.

Definition parse_line (s : text) : res mark_log :=
  '(t1, s) ← next_token s; commit_id ← stol t1;
  '(t2, s) ← next_token s; i ← stol t2;
  '(t3, s) ← next_token s; j ← stol t3;
  '(t4, s) ← next_token s; k ← stol t4;
  '(t5, s) ← next_token s; value_of_i ← stol t5;
  '(t6, s) ← next_token s; value_of_j ← stol t6;
  value_of_k ← stol (last_token s);
  Ok (mk_mark_log (wrap_u64 commit_id) (wrap_u64 i) (wrap_u64 j) (wrap_u64 k) value_of_i value_of_j value_of_k).

Fixpoint parse_lines (lines : list text) : res (list mark_log) :=
  match lines with
  | [] => Ok []
  | s :: lines' => l ← parse_line s; ls ← parse_lines lines'; Ok (l :: ls)
  end.

(** [std::sort] by commit id. *)
Definition commit_le (a b : mark_log) : Prop := (m_commit_id a ≤ m_commit_id b)%Z.

#[global] Instance commit_le_dec : RelDecision commit_le.
Proof. unfold RelDecision, commit_le. apply _. Defined.

Definition sort_logs (logs : list mark_log) : list mark_log := merge_sort commit_le logs.

Definition max_id (m : Z) (l : mark_log) : Z := Z.max (Z.max (Z.max m (m_i l)) (m_j l)) (m_k l).

Definition max_record_number (logs : list mark_log) : Z :=
  foldl max_id 0%Z logs + 1.

(** Executing one transaction again: whether the log differs, and the records. *)
Definition mark_one (records : list Z) (log : mark_log) : res (bool * list Z) :=
  let get r l := match (l : list Z) !! Z.to_nat r with Some v => Ok v | None => Err UndefinedBehaviour end in
  value_of_i ← get (m_i log) records;
  old_j ← get (m_j log) records;
  let records := <[Z.to_nat (m_j log) := wrap_i64 (old_j + wrap_i64 (value_of_i + 1))]> records in
  value_of_j ← get (m_j log) records;
  old_k ← get (m_k log) records;
  let records := <[Z.to_nat (m_k log) := wrap_i64 (old_k - value_of_i)]> records in
  value_of_k ← get (m_k log) records;
  let log_again := mk_mark_log (m_commit_id log) (m_i log) (m_j log) (m_k log) value_of_i value_of_j value_of_k in
  Ok (negb (bool_decide (log_again = log)), records).

Fixpoint mark_loop (records : list Z) (logs : list mark_log) (wrong_found : bool) : res bool :=
  match logs with
  | [] => Ok wrong_found
  | log :: logs' =>
      '(wrong, records) ← mark_one records log;
      mark_loop records logs' (wrong_found || wrong)
  end.

(** [main] of the marking program; the argument is the contents of the files
    [thread1.txt], [thread2.txt], ... The result is [wrong_found]. *)
Definition mark (files : list text) : res bool :=
  logs ← parse_lines (concat (map (λ s, getlines s []) files));
  let logs := sort_logs logs in
  mark_loop (replicate (Z.to_nat (max_record_number logs)) 100%Z) logs false.

(** ** Printing and reading a number *)

Lemma digit_code d : (0 ≤ d < 10)%Z → nat_of_ascii (digit d) = 48 + Z.to_nat d.
Proof. intros Hd. unfold digit. apply nat_ascii_embedding. lia. Qed.

Lemma digit_value_digit d : (0 ≤ d < 10)%Z → digit_value (digit d) = d.
Proof. intros Hd. unfold digit_value. rewrite digit_code by done. lia. Qed.

Lemma is_digit_digit d : (0 ≤ d < 10)%Z → is_digit (digit d) = true.
Proof. intros Hd. unfold is_digit. rewrite digit_value_digit by done. apply andb_true_iff. rewrite !Z.leb_le. lia. Qed.

Lemma read_digits_digit d s a :
  (0 ≤ d < 10)%Z → read_digits (digit d :: s) a = read_digits s (10 * a + d)%Z.
Proof. intros Hd. cbn [read_digits]. by rewrite is_digit_digit, digit_value_digit by done. Qed.

Lemma print_digits_S f n s :
  print_digits (S f) n s =
    if (n <? 10)%Z then digit (n mod 10) :: s else print_digits f (n / 10) (digit (n mod 10) :: s).
Proof. done. Qed.

(** Reading the digits of [n] appends them to what was read before. *)
Lemma read_print_digits f n :
  (0 ≤ n < 10 ^ Z.of_nat f)%Z → 0 < f →
  ∃ p, ∀ s a, read_digits (print_digits f n s) a = read_digits s (a * p + n)%Z.
Proof.
  revert n. induction f as [|f IH]; intros n Hn Hf; [lia|].
  assert (Hm := Z.mod_pos_bound n 10 ltac:(lia)). assert (Hd := Z.div_mod n 10 ltac:(lia)).
  setoid_rewrite print_digits_S. destruct (n <? 10)%Z eqn:Hlt.
  - apply Z.ltb_lt in Hlt. exists 10%Z. intros s a. rewrite Z.mod_small by lia.
    rewrite read_digits_digit by lia. f_equal. lia.
  - apply Z.ltb_ge in Hlt. rewrite Nat2Z.inj_succ, Z.pow_succ_r in Hn by lia. destruct f as [|f].
    { change (10 ^ Z.of_nat 0)%Z with 1%Z in Hn. lia. }
    destruct (IH (n / 10)%Z) as [p Hp].
    { split; [apply Z.div_pos; lia|]. apply Z.div_lt_upper_bound; lia. }
    { lia. }
    exists (10 * p)%Z. intros s a. rewrite Hp, read_digits_digit by lia. f_equal. lia.
Qed.

Lemma print_digits_chars f n s c :
  (0 ≤ n)%Z → c ∈ print_digits f n s → is_digit c = true ∨ c ∈ s.
Proof.
  revert n s. induction f as [|f IH]; intros n s Hn Hc; [by right|]. rewrite print_digits_S in Hc.
  assert (Hm := Z.mod_pos_bound n 10 ltac:(lia)). assert (Hq := Z.div_pos n 10 ltac:(lia) ltac:(lia)).
  destruct (n <? 10)%Z.
  - apply elem_of_cons in Hc as [->|Hc]; [left; by apply is_digit_digit|by right].
  - destruct (IH _ _ Hq Hc) as [?|Hc']; [by left|].
    apply elem_of_cons in Hc' as [->|Hc']; [left; by apply is_digit_digit|by right].
Qed.

Lemma print_digits_head f n s :
  0 < f → (0 ≤ n)%Z → ∃ c s', print_digits f n s = c :: s' ∧ is_digit c = true.
Proof.
  revert n s. induction f as [|f IH]; intros n s Hf Hn; [lia|]. rewrite print_digits_S.
  assert (Hm := Z.mod_pos_bound n 10 ltac:(lia)). assert (Hq := Z.div_pos n 10 ltac:(lia) ltac:(lia)).
  destruct (n <? 10)%Z; [by eauto using is_digit_digit|]. destruct f as [|f]; [simpl; by eauto using is_digit_digit|].
  apply IH; [lia|done].
Qed.

Definition number_char (c : ascii) : bool := is_digit c || (nat_of_ascii c =? 45).

Lemma print_Z_chars z c : c ∈ print_Z z → number_char c = true.
Proof.
  unfold print_Z, number_char. case_match eqn:Hz; [apply Z.ltb_lt in Hz|apply Z.ltb_ge in Hz].
  - intros [->|Hc]%elem_of_cons; [done|].
    apply print_digits_chars in Hc as [-> |Hc%not_elem_of_nil]; [done..|lia].
  - intros Hc. apply print_digits_chars in Hc as [-> |Hc%not_elem_of_nil]; [done..|lia].
Qed.

Lemma number_char_code c : number_char c = true → 45 ≤ nat_of_ascii c ≤ 57.
Proof.
  unfold number_char, is_digit, digit_value. rewrite orb_true_iff, andb_true_iff, !Z.leb_le, Nat.eqb_eq. lia.
Qed.

Lemma number_char_ne c d : number_char c = true → nat_of_ascii d < 45 → c ≠ d.
Proof. intros Hc%number_char_code Hd ->. lia. Qed.

Lemma is_digit_code c : is_digit c = true → 48 ≤ nat_of_ascii c ≤ 57.
Proof. unfold is_digit, digit_value. rewrite andb_true_iff, !Z.leb_le. lia. Qed.

Lemma stol_digits_print sign n :
  (0 ≤ n < 10 ^ 20)%Z → i64 (sign * n) → stol_digits sign (print_digits 20 n []) = Ok (sign * n)%Z.
Proof.
  intros Hn Hi. destruct (read_print_digits 20 n) as [p Hp]; [done|lia|].
  destruct (print_digits_head 20 n []) as (c & s' & Heq & Hc); [lia..|].
  unfold stol_digits. specialize (Hp [] 0%Z). rewrite Heq in *. rewrite Hc, Hp. simpl.
  by rewrite bool_decide_eq_true_2.
Qed.

Lemma stol_print z : i64 z → stol (print_Z z) = Ok z.
Proof.
  intros Hz. unfold print_Z. assert (Hb : (2 ^ 63 < 10 ^ 20)%Z) by done. unfold i64 in Hz.
  case_match eqn:Hs; [apply Z.ltb_lt in Hs|apply Z.ltb_ge in Hs].
  - unfold stol. cbn [skip_spaces]. change (is_space (ascii_of_nat 45)) with false. cbv iota.
    change (nat_of_ascii (ascii_of_nat 45) =? 45) with true. cbv iota.
    rewrite stol_digits_print; [f_equal; lia|lia|unfold i64; lia].
  - assert (Hd := stol_digits_print 1 z). destruct (print_digits_head 20 z []) as (c & s' & Heq & Hc); [lia..|].
    rewrite Heq in *. apply is_digit_code in Hc. unfold stol. cbn [skip_spaces]. unfold is_space.
    rewrite bool_decide_eq_false_2 by lia. rewrite (proj2 (Nat.eqb_neq _ 45)), (proj2 (Nat.eqb_neq _ 43)) by lia.
    rewrite Hd; [f_equal; lia|lia|unfold i64; lia].
Qed.

(** ** Printing and reading a line *)

Lemma next_token_number s rest :
  (∀ c, c ∈ s → number_char c = true) → next_token (s ++ space :: rest) = Ok (s, rest).
Proof.
  induction s as [|c s IH]; intros Hs; simpl; [done|].
  rewrite bool_decide_eq_false_2 by (apply number_char_ne; [apply Hs; left|vm_compute; lia]).
  rewrite IH; [done|]. intros c' Hc'. apply Hs. by right.
Qed.

Lemma last_token_number s : (∀ c, c ∈ s → number_char c = true) → last_token s = s.
Proof.
  induction s as [|c s IH]; intros Hs; simpl; [done|].
  rewrite bool_decide_eq_false_2 by (apply number_char_ne; [apply Hs; left|vm_compute; lia]).
  rewrite IH; [done|]. intros c' Hc'. apply Hs. by right.
Qed.

Lemma next_token_print z rest : next_token (print_Z z ++ space :: rest) = Ok (print_Z z, rest).
Proof. apply next_token_number. apply print_Z_chars. Qed.

Definition mark_of (ln : log_line) : mark_log :=
  mk_mark_log (l_commit_id ln) (Z.of_nat (l_i ln)) (Z.of_nat (l_j ln)) (Z.of_nat (l_k ln))
    (l_value_of_i ln) (l_value_of_j ln) (l_value_of_k ln).

(** The numbers of a line fit the integers they are read into. *)
Definition line_fits (ln : log_line) : Prop :=
  (0 ≤ l_commit_id ln < 2 ^ 63)%Z ∧ (Z.of_nat (l_i ln) < 2 ^ 63)%Z ∧ (Z.of_nat (l_j ln) < 2 ^ 63)%Z ∧
  (Z.of_nat (l_k ln) < 2 ^ 63)%Z ∧ i64 (l_value_of_i ln) ∧ i64 (l_value_of_j ln) ∧ i64 (l_value_of_k ln).

Lemma parse_line_print ln : line_fits ln → parse_line (print_line ln) = Ok (mark_of ln).
Proof.
  intros (Hc & Hi & Hj & Hk & Hvi & Hvj & Hvk). unfold parse_line, print_line.
  do 6 (rewrite next_token_print; simpl; rewrite stol_print by (done || (unfold i64; lia)); simpl).
  rewrite last_token_number by apply print_Z_chars. rewrite stol_print by done. simpl.
  unfold mark_of, wrap_u64. by rewrite !Z.mod_small by lia.
Qed.

Lemma print_line_no_newline ln c : c ∈ print_line ln → c ≠ newline.
Proof.
  unfold print_line. intros Hc.
  assert (H : number_char c = true ∨ c = space).
  { repeat first [rewrite elem_of_app in Hc|rewrite elem_of_cons in Hc].
    destruct_or! Hc; try (by right); left; by eapply print_Z_chars. }
  destruct H as [H| ->]; [by apply number_char_ne; [|vm_compute; lia]|done].
Qed.

Lemma getlines_line s rest buf :
  (∀ c, c ∈ s → c ≠ newline) → getlines (s ++ newline :: rest) buf = (buf ++ s) :: getlines rest [].
Proof.
  revert buf. induction s as [|c s IH]; intros buf Hs; cbn [app getlines].
  - by rewrite bool_decide_eq_true_2, app_nil_r.
  - rewrite bool_decide_eq_false_2 by (apply Hs; left). rewrite IH by (intros c' ?; apply Hs; by right).
    by rewrite <- app_assoc.
Qed.

Lemma getlines_file lines : getlines (file_text lines) [] = map print_line lines.
Proof.
  unfold file_text. induction lines as [|ln lines IH]; cbn [map concat]; [done|].
  rewrite <- app_assoc. cbn [app]. rewrite getlines_line by apply print_line_no_newline. by rewrite IH.
Qed.

Lemma parse_lines_print lines :
  Forall line_fits lines → parse_lines (map print_line lines) = Ok (map mark_of lines).
Proof.
  induction 1 as [|ln lines Hln _ IH]; cbn [map parse_lines]; [done|]. rewrite parse_line_print by done. simpl. by rewrite IH.
Qed.

(** ** Executing the transactions again *)

Definition ids_below (m : nat) (ln : log_line) : Prop := l_i ln < m ∧ l_j ln < m ∧ l_k ln < m.
Definition ids_distinct (ln : log_line) : Prop := l_i ln ≠ l_j ln ∧ l_i ln ≠ l_k ln ∧ l_j ln ≠ l_k ln.

Lemma serial_Some db i j k vi oj ok :
  i ≠ j → i ≠ k → j ≠ k → db !! i = Some vi → db !! j = Some oj → db !! k = Some ok →
  serial db i j k =
    Some (<[k := wrap_i64 (ok - vi)]> (<[j := wrap_i64 (oj + wrap_i64 (vi + 1))]> db),
          (vi, wrap_i64 (oj + wrap_i64 (vi + 1)), wrap_i64 (ok - vi))).
Proof. intros ??? Hi Hj Hk. unfold serial. rewrite decide_True by done. simpl. rewrite Hi. simpl. rewrite Hj. simpl. by rewrite Hk. Qed.

Lemma serial_inv db i j k r :
  serial db i j k = Some r → (i ≠ j ∧ i ≠ k ∧ j ≠ k) ∧ ∃ vi oj ok,
    db !! i = Some vi ∧ db !! j = Some oj ∧ db !! k = Some ok ∧
    r = (<[k := wrap_i64 (ok - vi)]> (<[j := wrap_i64 (oj + wrap_i64 (vi + 1))]> db),
         (vi, wrap_i64 (oj + wrap_i64 (vi + 1)), wrap_i64 (ok - vi))).
Proof.
  unfold serial. case_decide; simpl; [|done]. intros Hs. split; [done|].
  destruct (db !! i) as [vi|], (db !! j) as [oj|], (db !! k) as [ok|]; simplify_eq/=. by exists vi, oj, ok.
Qed.

Lemma mark_one_serial recs ln :
  ids_below (length recs) ln → ids_distinct ln →
  ∃ recs' vs, serial recs (l_i ln) (l_j ln) (l_k ln) = Some (recs', vs) ∧ length recs' = length recs ∧
    mark_one recs (mark_of ln) =
      Ok (negb (bool_decide (vs = (l_value_of_i ln, l_value_of_j ln, l_value_of_k ln))), recs').
Proof.
  intros (Hi & Hj & Hk) (Hij & Hik & Hjk).
  destruct (lookup_lt_is_Some_2 recs (l_i ln)) as [vi Hvi]; [done|].
  destruct (lookup_lt_is_Some_2 recs (l_j ln)) as [oj Hoj]; [done|].
  destruct (lookup_lt_is_Some_2 recs (l_k ln)) as [ok Hok]; [done|].
  eexists _, _. split_and!; [by apply serial_Some|by rewrite !length_insert|].
  unfold mark_one. cbn [m_i m_j m_k mark_of m_commit_id]. rewrite !Nat2Z.id, Hvi. simpl. rewrite Hoj. simpl.
  rewrite list_lookup_insert_eq by done. simpl. rewrite list_lookup_insert_ne, Hok by done. simpl.
  rewrite list_lookup_insert_eq by (by rewrite length_insert). simpl. do 3 f_equal.
  apply bool_decide_ext. destruct ln as [lc li lj lk a b c]. unfold mark_of. simpl. split; congruence.
Qed.

(** The program finds something wrong exactly when the serial execution does
    not reproduce the lines. *)
Lemma mark_loop_replay recs lines b :
  Forall (ids_below (length recs)) lines → Forall ids_distinct lines →
  mark_loop recs (map mark_of lines) b = Ok (b || negb (bool_decide (is_Some (replay recs lines)))).
Proof.
  revert recs b. induction lines as [|ln lines IH]; intros recs b Hb Hd; cbn [map mark_loop replay].
  - rewrite bool_decide_eq_true_2 by eauto. by rewrite orb_false_r.
  - apply Forall_cons in Hb as [Hbl Hb], Hd as [Hdl Hd].
    destruct (mark_one_serial recs ln Hbl Hdl) as (recs' & vs & Hs & Hlen & ->). simpl.
    rewrite IH by (rewrite ?Hlen; done). unfold replay_line. rewrite Hs. simpl. case_decide as Hv.
    + rewrite (bool_decide_eq_true_2 (vs = _)) by done. simpl. by rewrite orb_false_r.
    + rewrite (bool_decide_eq_false_2 (vs = _)) by done. simpl. by rewrite !orb_true_r.
Qed.

(** Only the records the lines name matter. *)
Lemma replay_line_take m db ln :
  ids_below m ln → replay_line (take m db) ln = take m <$> replay_line db ln.
Proof.
  intros (Hi & Hj & Hk). unfold replay_line, serial. case_decide; simpl; [|done].
  rewrite !lookup_take_lt by done.
  destruct (db !! l_i ln), (db !! l_j ln), (db !! l_k ln); simpl; try done.
  case_decide; simpl; [|done]. by rewrite !take_insert_lt by done.
Qed.

Lemma replay_take m db lines :
  Forall (ids_below m) lines → replay (take m db) lines = take m <$> replay db lines.
Proof.
  intros Hf. revert db. induction Hf as [|ln lines Hln _ IH]; intros db; simpl; [done|].
  rewrite replay_line_take by done. destruct (replay_line db ln); simpl; [apply IH|done].
Qed.

Lemma replay_fits db lines db' :
  replay db lines = Some db' → (∀ r v, db !! r = Some v → i64 v) →
  Forall (λ ln, ids_below (length db) ln ∧ ids_distinct ln ∧
    i64 (l_value_of_i ln) ∧ i64 (l_value_of_j ln) ∧ i64 (l_value_of_k ln)) lines.
Proof.
  revert db. induction lines as [|ln lines IH]; intros db Hr Hv; [constructor|]. simpl in Hr.
  unfold replay_line in Hr. destruct (serial db _ _ _) as [[db1 vs]|] eqn:Hs; [|done]. simpl in Hr.
  case_decide as Hvs; [|done]. simpl in Hr.
  apply serial_inv in Hs as (Hd & vi & oj & ok & Hi & Hj & Hk & [= -> ->]). injection Hvs as Ea Eb Ec.
  constructor.
  - unfold ids_below, ids_distinct. rewrite <- Ea, <- Eb, <- Ec. split_and!; try apply Hd; try apply wrap_i64_range; try (by eapply lookup_lt_Some).
    by eapply Hv.
  - apply IH in Hr; [by rewrite !length_insert in Hr|].
    intros r v. rewrite !list_lookup_insert. repeat case_decide; intros; simplify_eq; try apply wrap_i64_range. by eapply Hv.
Qed.

(** ** The whole program *)

Lemma max_record_bound logs m :
  (m ≤ foldl max_id m logs)%Z ∧
  ∀ l, l ∈ logs → (m_i l ≤ foldl max_id m logs ∧
    m_j l ≤ foldl max_id m logs ∧
    m_k l ≤ foldl max_id m logs)%Z.
Proof.
  revert m. induction logs as [|l0 logs IH]; intros m; simpl; [split; [lia|set_solver]|].
  destruct (IH (max_id m l0)) as [H1 H2].
  unfold max_id in *. split; [lia|]. intros l [->|Hl]%elem_of_cons; [lia|by apply H2].
Qed.

Lemma max_record_least logs m B :
  (m < B)%Z → (∀ l, l ∈ logs → m_i l < B ∧ m_j l < B ∧ m_k l < B)%Z →
  (foldl max_id m logs < B)%Z.
Proof.
  revert m. induction logs as [|l0 logs IH]; intros m Hm Hl; simpl; [done|].
  apply IH; [|set_solver]. destruct (Hl l0) as (? & ? & ?); [by left|]. unfold max_id. lia.
Qed.

Lemma ids_below_max lines :
  Forall (ids_below (Z.to_nat (max_record_number (map mark_of lines)))) lines.
Proof.
  apply Forall_forall. intros ln Hln. destruct (max_record_bound (map mark_of lines) 0) as [H0 Hm].
  destruct (Hm (mark_of ln)) as (? & ? & ?); [by apply list_elem_of_fmap_2|].
  unfold ids_below, max_record_number. simpl in *. lia.
Qed.

Lemma sort_logs_lines lines :
  ∃ lines', sort_logs (map mark_of lines) = map mark_of lines' ∧ lines' ≡ₚ lines ∧
    StronglySorted (λ a b, l_commit_id a ≤ l_commit_id b)%Z lines'.
Proof.
  assert (Hp : map mark_of lines ≡ₚ sort_logs (map mark_of lines)) by (symmetry; apply merge_sort_Permutation).
  symmetry in Hp. apply Permutation_map_inv in Hp as (lines' & Heq & Hperm).
  exists lines'. split_and!; [done|by symmetry|].
  assert (Hs : StronglySorted commit_le (map mark_of lines')).
  { rewrite <- Heq. apply StronglySorted_merge_sort.
    - intros a b c. unfold commit_le. lia.
    - intros a b. unfold commit_le. lia. }
  clear Heq Hperm. induction lines' as [|a l IH]; [constructor|].
  apply StronglySorted_cons in Hs as [Ha Hs]. constructor; [by apply IH|].
  apply Forall_forall. intros b Hb. rewrite Forall_forall in Ha. by apply (Ha (mark_of b)), list_elem_of_fmap_2.
Qed.

(** What the program computes from files that hold the given lines. *)
Lemma mark_files files lines' :
  Forall line_fits (concat files) → sort_logs (map mark_of (concat files)) = map mark_of lines' →
  Forall ids_distinct lines' →
  mark (map file_text files) =
    Ok (negb (bool_decide (is_Some (replay (replicate (Z.to_nat (max_record_number (map mark_of lines'))) 100%Z) lines')))).
Proof.
  intros Hf Hs Hd. unfold mark. rewrite map_map.
  assert (Hg : concat (map (λ x, getlines (file_text x) []) files) = map print_line (concat files)).
  { clear. induction files as [|l files IH]; simpl; [done|]. by rewrite map_app, getlines_file, IH. }
  rewrite Hg, parse_lines_print by done. simpl. rewrite Hs. rewrite mark_loop_replay; [done| |done].
  rewrite length_replicate. apply ids_below_max.
Qed.

Lemma first_thread N R E w :
  0 < N → reachable N R E w → threads w !! 0 = Some (new_thread 0).
Proof.
  intros HN Hr. revert w Hr. unfold reachable. apply rtc_ind_r.
  - simpl. destruct N; [lia|done].
  - intros w1 w2 _ H12 H0. inversion H12 as [? tid rnd ? Hs]; subst. unfold world_step in Hs.
    destruct (exited w1); [done|]. destruct (threads w1 !! tid) as [th|] eqn:Ht; [|done].
    case_decide as Hp; [done|]. injection Hs as Hs.
    destruct (decide (tid = 0)) as [->|Hne]; [by simplify_eq|].
    destruct (thread_step _ _ _ _ _) as [[[th'|] s']|]; simplify_eq; simpl; [|done].
    by rewrite list_lookup_insert_ne.
Qed.

Lemma strongly_sorted_ids hist lo n :
  map l_commit_id hist = seqZ lo n → StronglySorted commit_le (map mark_of hist).
Proof.
  revert lo n. induction hist as [|ln hist IH]; intros lo n Hi; [constructor|].
  destruct (decide (0 < n)%Z) as [Hn|Hn]; [|by rewrite seqZ_nil in Hi by lia].
  rewrite seqZ_cons in Hi by done. simpl in Hi. injection Hi as Hln Hi. simpl.
  constructor; [by eapply IH|]. apply Forall_forall. intros x (y & -> & Hy)%list_elem_of_fmap.
  unfold commit_le. simpl. assert (Hin : l_commit_id y ∈ seqZ (Z.succ lo) (Z.pred n)).
  { rewrite <- Hi. by apply list_elem_of_fmap_2. }
  apply elem_of_seqZ in Hin. lia.
Qed.

(** Sorting the lines of the files gives the history back. *)
Lemma sort_history hist lines :
  hist ≡ₚ lines → map l_commit_id hist = seqZ 1 (Z.of_nat (length hist)) →
  sort_logs (map mark_of lines) = map mark_of hist.
Proof.
  intros Hp Hids. assert (Hnd : NoDup (map l_commit_id hist)) by (rewrite Hids; apply NoDup_seqZ).
  assert (Hperm : sort_logs (map mark_of lines) ≡ₚ map mark_of hist).
  { unfold sort_logs. rewrite merge_sort_Permutation. by rewrite Hp. }
  apply (StronglySorted_unique_strong commit_le); [|..|by eapply strongly_sorted_ids|done].
  - intros x y Hx Hy H1 H2. rewrite Hperm in Hx.
    apply list_elem_of_fmap in Hx as (a & -> & Ha), Hy as (b & -> & Hb).
    apply list_elem_of_lookup in Ha as [i Hi], Hb as [j Hj]. unfold commit_le in *. simpl in *.
    assert (i = j) as ->; [|congruence].
    eapply (NoDup_lookup (map l_commit_id hist)); [done|..]; apply list_lookup_fmap_Some; eexists; (split; [|done]); [done|lia].
  - apply StronglySorted_merge_sort; intros ?; unfold commit_le; intros; lia.
Qed.

Lemma replay_short m R lines db :
  Forall (ids_below m) lines → m ≤ R → replay (replicate R 100%Z) lines = Some db →
  is_Some (replay (replicate m 100%Z) lines).
Proof.
  intros Hf Hm Hr. replace (replicate m 100%Z) with (take m (replicate R 100%Z)) by (rewrite take_replicate; f_equal; lia).
  rewrite replay_take, Hr by done. by eexists.
Qed.

(** ** Properties *)

(** C39. What [transaction] writes to its log file, the marking program reads
    back: the same lines with the same numbers. *)
Theorem log_file_round_trip lines :
  Forall line_fits lines → parse_lines (getlines (file_text lines) []) = Ok (map mark_of lines).
Proof. intros Hf. rewrite getlines_file. by apply parse_lines_print. Qed.

Lemma log_file_round_trip_witness :
  parse_lines (getlines (file_text [mk_line 1 0 1 2 100 201 (-5)]) []) = Ok [mk_mark_log 1 0 1 2 100 201 (-5)].
Proof.
  apply (log_file_round_trip [mk_line 1 0 1 2 100 201 (-5)]).
  constructor; [|constructor]. repeat split; vm_compute; (reflexivity || discriminate).
Defined.

(** The array of the records has a size below 2^64 bytes. *)
Definition ids_allocatable (ln : log_line) : Prop := (Z.of_nat (l_i ln `max` l_j ln `max` l_k ln) < 2 ^ 61 - 1)%Z.

Lemma sorted_strict (lines : list log_line) :
  StronglySorted (λ a b, l_commit_id a ≤ l_commit_id b)%Z lines → NoDup (map l_commit_id lines) → StronglySorted (λ a b, l_commit_id a < l_commit_id b)%Z lines.
Proof.
  induction 1 as [|a l Hs IH Ha]; cbn [map]; [constructor|]. intros [Hn Hnd]%NoDup_cons. constructor; [by apply IH|]. rewrite Forall_forall in Ha |- *.
  intros b Hb. assert (l_commit_id a ≠ l_commit_id b) by (intros E; apply Hn; rewrite E; by apply list_elem_of_fmap_2). specialize (Ha b Hb). lia.
Qed.

(** C32. The marking program decides serializability: on log files whose lines have
    numbers that fit, different commit ids, and three different record numbers each,
    small enough for the size of the array of records not to wrap around, it reports
    an error exactly when executing the logged transactions one at a time in the order
    of their commit ids does not reproduce the logged values. Signed sums wrap around. *)
Theorem marking_decides files :
  Forall line_fits (concat files) → Forall ids_distinct (concat files) → Forall ids_allocatable (concat files) → NoDup (map l_commit_id (concat files)) →
  ∃ lines n, lines ≡ₚ concat files ∧ StronglySorted (λ a b, l_commit_id a < l_commit_id b)%Z lines ∧
    Forall (ids_below n) lines ∧ (Z.of_nat n * 8 < 2 ^ 64)%Z ∧
    mark (map file_text files) = Ok (negb (bool_decide (is_Some (replay (replicate n 100%Z) lines)))).
Proof.
  intros Hf Hd Ha Hnd. destruct (sort_logs_lines (concat files)) as (lines & Hs & Hp & Hss).
  exists lines, (Z.to_nat (max_record_number (map mark_of lines))).
  split_and!; [done|apply sorted_strict; [done|by rewrite Hp]|apply ids_below_max| |apply mark_files; [done..|by rewrite Hp]].
  unfold max_record_number. enough (foldl max_id 0 (map mark_of lines) < 2 ^ 61 - 1)%Z by lia. apply max_record_least; [lia|].
  intros l (ln & -> & Hln)%list_elem_of_fmap. rewrite Hp in Hln. rewrite Forall_forall in Ha. specialize (Ha ln Hln). unfold ids_allocatable in Ha. cbn. lia.
Qed.

Lemma marking_decides_witness :
  ∃ lines n, lines ≡ₚ concat [[mk_line 2 1 0 2 201 302 (-201)]; [mk_line 1 0 1 2 100 201 0]] ∧
    StronglySorted (λ a b, l_commit_id a < l_commit_id b)%Z lines ∧ Forall (ids_below n) lines ∧ (Z.of_nat n * 8 < 2 ^ 64)%Z ∧
    mark (map file_text [[mk_line 2 1 0 2 201 302 (-201)]; [mk_line 1 0 1 2 100 201 0]]) =
      Ok (negb (bool_decide (is_Some (replay (replicate n 100%Z) lines)))).
Proof.
  apply (marking_decides [[mk_line 2 1 0 2 201 302 (-201)]; [mk_line 1 0 1 2 100 201 0]]);
    [repeat constructor; vm_compute; (reflexivity || discriminate)..|]. apply (bool_decide_unpack _). by vm_compute.
Defined.

(** C31. The marking program accepts the log files of every run of the
    transaction program, whatever the threads did. *)
Theorem marking_accepts N R E w :
  config_ok N R E → 0 < N → (E < 2 ^ 63)%Z → (Z.of_nat R ≤ 2 ^ 63)%Z → reachable N R E w →
  mark (map (λ th, file_text (log_file th)) (tail (threads w))) = Ok false.
Proof.
  intros Hcfg HN HE HR Hr. destruct (reachable_ok N R E Hcfg w Hr) as (hist & db & [Ho Hlen Hids Hrep Hf] & _).
  assert (H0 := first_thread N R E w HN Hr). destruct (threads w) as [|th0 ths]; [done|]. injection H0 as ->.
  simpl in *. assert (Hfit := replay_fits _ _ _ Hrep). rewrite length_replicate in Hfit.
  assert (Hall : Forall (λ ln, (0 ≤ l_commit_id ln < 2 ^ 63)%Z) hist).
  { apply Forall_forall. intros ln Hln. assert (Hin : l_commit_id ln ∈ seqZ 1 (Z.of_nat (length hist))).
    { rewrite <- Hids. by apply list_elem_of_fmap_2. }
    apply elem_of_seqZ in Hin. lia. }
  specialize (Hfit ltac:(by intros r v [-> _]%lookup_replicate)). rewrite Forall_forall in Hfit, Hall.
  rewrite <- (map_map log_file file_text), (mark_files _ hist).
  - rewrite bool_decide_eq_true_2; [done|]. eapply replay_short; [apply ids_below_max| |done].
    assert (Hb := cfg_R _ _ _ Hcfg). unfold max_record_number.
    enough (Hlt : (foldl max_id 0 (map mark_of hist) < Z.of_nat R)%Z) by lia.
    apply max_record_least; [lia|].
    intros l (ln & -> & Hln)%list_elem_of_fmap. destruct (Hfit ln Hln) as ((? & ? & ?) & _). simpl. lia.
  - rewrite <- Hf. apply Forall_forall. intros ln Hln. destruct (Hfit ln Hln) as ((? & ? & ?) & _ & ? & ? & ?).
    unfold line_fits. split_and!; try done; try lia; by apply Hall.
  - by apply sort_history.
  - apply Forall_forall. intros ln Hln. by apply Hfit.
Qed.

Lemma marking_accepts_witness :
  mark (map (λ th, file_text (log_file th)) (tail (threads final_world))) = Ok false.
Proof.
  apply (marking_accepts 3 3 2); [apply sample_config|lia|lia|lia|]. eapply run_reachable, final_world_run.
Defined.
