(* ===== verification/Trie.v ===== *)
(** The trie of project 1: [project1/include/trie.h] and the functions of
    [project1/src/trie.cc] that change it.

    A pointer to a node is a value of type [trie], with [Null] for the null
    pointer; a node owns its children, so freeing a node and clearing the
    pointer to it replaces the value by [Null]. Characters are bytes; a
    character outside ['a'..'z'] indexes outside the array of children. *)
From stdpp Require Import functions base tactics numbers option list list_numbers gmap sets relations.
From Stdlib Require Import ZArith Lia Ascii.
From S2P Require Import Prelude.

(** ** Data *)

Definition ALPHA_NUM : nat := 26.

Definition word : Type := list ascii.

Inductive trie : Type :=
| Null
| Node (word_id : Z) (chars : list trie).

(** [*word_exploring_ptr - 'a'], when it is an index of the array. *)
Definition index (c : ascii) : option nat :=
  let n := nat_of_ascii c in
  if (97 <=? n) && (n <=? 122) then Some (n - 97) else None.

Definition is_null (t : trie) : bool := match t with Null => true | Node _ _ => false end.

(** [trie_node->chars[c - 'a']]. *)
Definition get_char (chars : list trie) (c : ascii) : res (nat * trie) :=
  match index c with
  | Some i => match chars !! i with Some t => Ok (i, t) | None => Err UndefinedBehaviour end
  | None => Err UndefinedBehaviour
  end.

(** ** Operations *)

(** [calloc] clears the node. *)
Definition create_trie_node : trie := Node 0 (replicate ALPHA_NUM Null).

(** The loop of [insert], from the node [trie_node]. *)
Fixpoint insert_loop (trie_node : trie) (w : word) (word_id : Z) : res trie :=
  match trie_node with
  | Null => Err UndefinedBehaviour
  | Node id chars =>
      match w with
      | [] => Ok (Node word_id chars)
      | c :: w' =>
          '(i, child) ← get_char chars c;
          child' ← insert_loop (if is_null child then create_trie_node else child) w' word_id;
          Ok (Node id (<[i := child']> chars))
      end
  end.

(** The new trie and the new value of [word_id_generator]. *)
Definition insert (trie_root : trie) (w : word) (word_id_generator : Z) : res (trie * Z) :=
  t ← insert_loop trie_root w word_id_generator;
  Ok (t, wrap_u32 (word_id_generator + 1)).

Definition child_exist (chars : list trie) : bool := existsb (λ t, negb (is_null t)) chars.

(** The result and the new value of [*trie_node]. At the end of the string the
    terminating zero is used as an index, which is outside the array. *)
Fixpoint erase (trie_node : trie) (w : word) : res (bool * trie) :=
  match trie_node with
  | Null => Ok (false, Null)
  | Node id chars =>
      match w with
      | [] =>
          if (id =? 0)%Z then Err UndefinedBehaviour
          else if negb (child_exist chars) then Ok (true, Null)
          else Ok (true, Node 0 chars)
      | c :: w' =>
          '(i, child) ← get_char chars c;
          '(erased, child') ← erase child w';
          let chars' := <[i := child']> chars in
          if (erased : bool) then
            if (id =? 0)%Z && negb (child_exist chars') then Ok (true, Null)
            else Ok (true, Node id chars')
          else Ok (false, Node id chars')
      end
  end.

(** [erase_all] visits every child; what it counts here is the calls of [free]. *)
Fixpoint erase_all (trie_node : trie) : trie * nat :=
  match trie_node with
  | Null => (Null, 0)
  | Node id chars => (Null, S (sum_list_with (λ t, (erase_all t).2) chars))
  end.

(** ** What a trie means *)

(** The id stored for a word, 0 when there is none. *)
Fixpoint find (t : trie) (w : word) : Z :=
  match w with
  | [] => match t with Null => 0 | Node id _ => id end
  | c :: w' =>
      match t with
      | Null => 0
      | Node _ chars => match index c with Some i => find (default Null (chars !! i)) w' | None => 0 end
      end
  end.

(** The node a word leads to. *)
Fixpoint node_at (t : trie) (w : word) : trie :=
  match w with
  | [] => t
  | c :: w' =>
      match t with
      | Null => Null
      | Node _ chars => match index c with Some i => node_at (default Null (chars !! i)) w' | None => Null end
      end
  end.

Definition lower (w : word) : Prop := Forall (λ c, is_Some (index c)) w.

(** A node that is worth keeping: it ends a word or has a child. *)
Definition live (t : trie) : Prop :=
  match t with Null => True | Node id chars => id ≠ 0%Z ∨ child_exist chars = true end.

Inductive trie_ok : trie → Prop :=
| trie_ok_null : trie_ok Null
| trie_ok_node id chars :
    length chars = ALPHA_NUM → Forall trie_ok chars → Forall live chars → trie_ok (Node id chars).

Fixpoint count_nodes (t : trie) : nat :=
  match t with Null => 0 | Node _ chars => S (sum_list_with count_nodes chars) end.

(** ** Basic lemmas *)

Lemma trie_nested_ind (P : trie → Prop) :
  P Null → (∀ id chars, Forall P chars → P (Node id chars)) → ∀ t, P t.
Proof.
  intros HN HNode. fix IH 1. intros [|id chars]; [done|]. apply HNode.
  induction chars as [|t chars IHc]; constructor; [apply IH|done].
Qed.

Lemma index_inj c c' i : index c = Some i → index c' = Some i → c = c'.
Proof.
  unfold index. intros H H'. repeat case_match; simplify_eq.
  rewrite <- (ascii_nat_embedding c), <- (ascii_nat_embedding c'). f_equal.
  rewrite !andb_true_iff, !Nat.leb_le in *. lia.
Qed.

Lemma index_lt c i : index c = Some i → i < ALPHA_NUM.
Proof. unfold index, ALPHA_NUM. intros H. case_match eqn:Hb; simplify_eq. rewrite andb_true_iff, !Nat.leb_le in Hb. lia. Qed.

Lemma get_char_Ok chars c :
  length chars = ALPHA_NUM → is_Some (index c) →
  ∃ i t, index c = Some i ∧ chars !! i = Some t ∧ get_char chars c = Ok (i, t).
Proof.
  intros Hl [i Hi]. assert (Hlt := index_lt c i Hi). rewrite <- Hl in Hlt.
  destruct (lookup_lt_is_Some_2 chars i Hlt) as [t Ht]. exists i, t. unfold get_char. by rewrite Hi, Ht.
Qed.

Lemma child_exist_true chars : child_exist chars = true ↔ ∃ i t, chars !! i = Some t ∧ t ≠ Null.
Proof.
  unfold child_exist. rewrite existsb_exists. split.
  - intros (t & Hin & Ht). apply list_elem_of_In, list_elem_of_lookup in Hin as [i Hi].
    exists i, t. split; [done|]. by intros ->.
  - intros (i & t & Hi & Ht). exists t. split; [|by destruct t].
    apply list_elem_of_In. by eapply list_elem_of_lookup_2.
Qed.

Lemma find_cons c w id chars i t :
  index c = Some i → chars !! i = Some t → find (Node id chars) (c :: w) = find t w.
Proof. intros Hi Ht. simpl. by rewrite Hi, Ht. Qed.

Lemma find_Null w : find Null w = 0%Z.
Proof. by destruct w. Qed.

Lemma trie_ok_new : trie_ok create_trie_node.
Proof.
  constructor; [apply length_replicate|..]; apply Forall_replicate; [constructor|done].
Qed.

Lemma find_new w : find create_trie_node w = 0%Z.
Proof.
  destruct w as [|c w]; [done|]. simpl. destruct (index c) as [i|]; [|done].
  destruct (_ !! i) as [t|] eqn:E; [|apply find_Null]. simpl.
  change (replicate ALPHA_NUM Null !! i = Some t) in E.
  apply lookup_replicate in E as [-> _]. apply find_Null.
Qed.

(** Replacing one child. *)
Lemma find_update id chars c i t' w' :
  index c = Some i → i < length chars →
  find (Node id (<[i := t']> chars)) w' =
    match w' with
    | [] => id
    | c' :: w'' => if decide (c' = c) then find t' w'' else find (Node id chars) w'
    end.
Proof.
  intros Hi Hlt. destruct w' as [|c' w'']; [done|]. simpl. case_decide as Hc.
  - subst. rewrite Hi. by rewrite list_lookup_insert_eq.
  - destruct (index c') as [i'|] eqn:Hi'; [|done].
    rewrite list_lookup_insert_ne; [done|]. intros ->. apply Hc. by eapply index_inj.
Qed.

Lemma trie_ok_update id id' chars i t :
  trie_ok (Node id chars) → trie_ok t → live t → trie_ok (Node id' (<[i := t]> chars)).
Proof.
  intros Hok Ht Hl. inversion Hok as [|? ? Hlen Hall Hlive]; subst. constructor.
  - by rewrite length_insert.
  - by apply Forall_insert.
  - by apply Forall_insert.
Qed.

Lemma child_exist_update chars i t : i < length chars → t ≠ Null → child_exist (<[i := t]> chars) = true.
Proof. intros Hi Ht. apply child_exist_true. exists i, t. split; [by apply list_lookup_insert_eq|done]. Qed.

(** ** [insert] *)

Lemma insert_loop_spec t w id :
  trie_ok t → t ≠ Null → lower w → id ≠ 0%Z →
  ∃ t', insert_loop t w id = Ok t' ∧ trie_ok t' ∧ t' ≠ Null ∧ live t' ∧
    ∀ w', find t' w' = if decide (w' = w) then id else find t w'.
Proof.
  revert t. induction w as [|c w IH]; intros t Hok Hn Hw Hid; (destruct t as [|id0 chars]; [done|]); simpl.
  - eexists. split_and!; [done|..]; [inversion Hok; by constructor|done|by left|].
    by intros [|c' w'].
  - apply Forall_cons in Hw as [Hc Hw]. assert (Hl : length chars = ALPHA_NUM) by (by inversion Hok).
    destruct (get_char_Ok chars c Hl Hc) as (i & t & Hi & Ht & ->). simpl.
    assert (Hlt : i < length chars) by (by eapply lookup_lt_Some).
    set (child := if is_null t then create_trie_node else t).
    assert (Hchild : trie_ok child ∧ child ≠ Null ∧ ∀ w', find child w' = find t w').
    { unfold child. destruct t as [|id1 chars1]; simpl.
      - split_and!; [apply trie_ok_new|done|]. intros w'. by rewrite find_new, find_Null.
      - split_and!; [|done|done]. inversion Hok as [|? ? _ Hall _]. by eapply Forall_lookup_1 in Hall. }
    destruct Hchild as (Hok1 & Hn1 & Hf1).
    destruct (IH child) as (t' & -> & Hok' & Hn' & Hlive & Hf); [done..|]. simpl.
    eexists. split_and!; [done|by eapply trie_ok_update|done|right; by apply child_exist_update|].
    intros w'. rewrite (find_update id0 chars c i) by done. destruct w' as [|c' w'']; [done|].
    case_decide as Hcc.
    + subst c'. rewrite Hf, Hf1. rewrite (find_cons c w'' id0 chars i t) by done.
      repeat case_decide; congruence.
    + rewrite decide_False by congruence. done.
Qed.

(** ** [erase] *)

(** Erasing a stored word. *)
Lemma erase_found t w :
  trie_ok t → lower w → find t w ≠ 0%Z →
  ∃ t', erase t w = Ok (true, t') ∧ trie_ok t' ∧ live t' ∧
    ∀ w', find t' w' = if decide (w' = w) then 0%Z else find t w'.
Proof.
  revert t. induction w as [|c w IH]; intros t Hok Hw Hf; (destruct t as [|id chars]; [done|]); simpl in *.
  - rewrite (proj2 (Z.eqb_neq id 0)) by done. destruct (child_exist chars) eqn:Hce; simpl.
    + eexists. split_and!; [done|inversion Hok; by constructor|by right|]. by intros [|c' w'].
    + exists Null. split_and!; [done|constructor|done|]. intros [|c' w']; simpl; [done|].
      destruct (index c') as [i|]; [|done]. destruct (chars !! i) as [t|] eqn:Ht; simpl; [|by rewrite find_Null].
      destruct t as [|id1 chars1]; [by rewrite find_Null|]. exfalso. rewrite (proj2 (child_exist_true chars)) in Hce; [done|]. eauto.
  - apply Forall_cons in Hw as [Hc Hw]. assert (Hl : length chars = ALPHA_NUM) by (by inversion Hok).
    destruct (get_char_Ok chars c Hl Hc) as (i & t & Hi & Ht & ->). simpl. rewrite Hi, Ht in Hf. simpl in Hf.
    assert (Hlt : i < length chars) by (by eapply lookup_lt_Some).
    destruct (IH t) as (t' & -> & Hok' & Hlive & Hf'); [|done|done|].
    { inversion Hok as [|? ? _ Hall _]. by eapply Forall_lookup_1 in Hall. }
    simpl. assert (Hfind : ∀ w', find (Node id (<[i := t']> chars)) w' =
        if decide (w' = c :: w) then 0%Z else find (Node id chars) w').
    { intros w'. rewrite (find_update id chars c i) by done. destruct w' as [|c' w'']; [done|].
      case_decide as Hcc; [|by rewrite decide_False by congruence]. subst c'. rewrite Hf'.
      rewrite (find_cons c w'' id chars i t) by done.
      repeat case_decide; congruence. }
    destruct ((id =? 0)%Z && negb (child_exist (<[i := t']> chars))) eqn:Hb.
    + apply andb_true_iff in Hb as [->%Z.eqb_eq Hce%negb_true_iff].
      exists Null. split_and!; [done|constructor|done|]. intros w'. rewrite <- Hfind, find_Null.
      destruct w' as [|c' w'']; [done|]. simpl. destruct (index c') as [i'|]; [|done].
      destruct (<[i := t']> chars !! i') as [t0|] eqn:Ht0; simpl; [|by rewrite find_Null].
      destruct t0; [by rewrite find_Null|]. exfalso. rewrite (proj2 (child_exist_true _)) in Hce; [done|]. eauto.
    + eexists. split_and!; [done|by eapply trie_ok_update| |exact Hfind]. simpl.
      apply andb_false_iff in Hb as [?%Z.eqb_neq|?%negb_false_iff]; auto.
Qed.

(** A word that leads nowhere: nothing happens. *)
Lemma erase_absent t w :
  trie_ok t → lower w → node_at t w = Null → erase t w = Ok (false, t).
Proof.
  revert t. induction w as [|c w IH]; intros t Hok Hw Hn; (destruct t as [|id chars]; [done|]); simpl in *; [done|].
  apply Forall_cons in Hw as [Hc Hw]. assert (Hl : length chars = ALPHA_NUM) by (by inversion Hok).
  destruct (get_char_Ok chars c Hl Hc) as (i & t & Hi & Ht & ->). simpl. rewrite Hi, Ht in Hn. simpl in Hn.
  rewrite IH; [|inversion Hok as [|? ? _ Hall _]; by eapply Forall_lookup_1 in Hall|done|done].
  simpl. by rewrite list_insert_id.
Qed.

(** A word that leads to a node which ends no word: the string is read past its
    end. *)
Lemma erase_inner t w :
  trie_ok t → lower w → node_at t w ≠ Null → find t w = 0%Z → erase t w = Err UndefinedBehaviour.
Proof.
  revert t. induction w as [|c w IH]; intros t Hok Hw Hn Hf; (destruct t as [|id chars]; [done|]); simpl in *.
  - by rewrite Hf.
  - apply Forall_cons in Hw as [Hc Hw]. assert (Hl : length chars = ALPHA_NUM) by (by inversion Hok).
    destruct (get_char_Ok chars c Hl Hc) as (i & t & Hi & Ht & ->). simpl. rewrite Hi, Ht in Hn, Hf. simpl in Hn, Hf.
    rewrite IH; [done| |done..]. inversion Hok as [|? ? _ Hall _]. by eapply Forall_lookup_1 in Hall.
Qed.

(** ** Nodes and words *)

Definition letter (i : nat) : ascii := ascii_of_nat (97 + i).

Lemma index_letter i : i < ALPHA_NUM → index (letter i) = Some i.
Proof.
  unfold ALPHA_NUM, index, letter. intros Hi. rewrite nat_ascii_embedding by lia.
  replace ((97 <=? 97 + i) && (97 + i <=? 122)) with true; [f_equal; lia|].
  symmetry. apply andb_true_iff. rewrite !Nat.leb_le. lia.
Qed.

(** Below every node that is worth keeping there is a word. *)
Lemma live_has_word t : trie_ok t → live t → t ≠ Null → ∃ w, lower w ∧ find t w ≠ 0%Z.
Proof.
  induction t as [|id chars IH] using trie_nested_ind; intros Hok Hl Hn; [done|].
  destruct (decide (id = 0%Z)) as [->|Hid]; [|exists []; split; [constructor|done]].
  destruct Hl as [?|(i & t & Hi & Ht)%child_exist_true]; [done|].
  inversion Hok as [|? ? Hlen Hall Hlive]; subst.
  assert (Hlt : i < ALPHA_NUM) by (rewrite <- Hlen; by eapply lookup_lt_Some).
  rewrite Forall_lookup in IH, Hall, Hlive.
  destruct (IH i t Hi (Hall i t Hi) (Hlive i t Hi) Ht) as (w & Hw & Hf).
  exists (letter i :: w). split; [constructor; [by rewrite index_letter|done]|].
  by rewrite (find_cons (letter i) w 0 chars i t) by (done || by apply index_letter).
Qed.

Lemma find_app t w w' : find t (w ++ w') = find (node_at t w) w'.
Proof.
  revert t. induction w as [|c w IH]; intros t; [done|]. simpl. destruct t as [|id chars]; [by rewrite find_Null|].
  destruct (index c); [apply IH|by rewrite find_Null].
Qed.

Lemma node_at_ok t w : trie_ok t → trie_ok (node_at t w) ∧ (w ≠ [] → live (node_at t w)).
Proof.
  revert t. induction w as [|c w IH]; intros t Hok; [done|]. simpl.
  destruct t as [|id chars]; [split; [constructor|done]|].
  destruct (index c) as [i|]; [|split; [constructor|done]].
  inversion Hok as [|? ? Hlen Hall Hlive]; subst. rewrite Forall_lookup in Hall, Hlive.
  destruct (chars !! i) as [t|] eqn:Ht; simpl.
  - destruct (IH t) as [H1 H2]; [by eapply Hall|]. split; [done|]. intros _.
    destruct w as [|c' w]; [by eapply Hlive|by apply H2].
  - destruct (IH Null) as [H1 H2]; [constructor|]. split; [done|]. intros _. by destruct w; [|apply H2].
Qed.

(** A node exists exactly for the prefixes of the stored words. *)
Lemma node_at_prefix t w :
  trie_ok t → w ≠ [] → node_at t w ≠ Null ↔ ∃ w', find t (w ++ w') ≠ 0%Z.
Proof.
  intros Hok Hw. destruct (node_at_ok t w Hok) as [Hok' Hl]. setoid_rewrite find_app. split.
  - intros Hn. destruct (live_has_word (node_at t w)) as (w' & _ & ?); eauto.
  - intros [w' Hf] Hn. rewrite Hn, find_Null in Hf. done.
Qed.

(** ** Erasing what was inserted *)

Lemma erase_insert_new w id :
  lower w → id ≠ 0%Z → ∃ t', insert_loop create_trie_node w id = Ok t' ∧ erase t' w = Ok (true, Null).
Proof.
  induction w as [|c w IH]; intros Hw Hid.
  - eexists. split; [done|]. simpl. by rewrite (proj2 (Z.eqb_neq id 0)).
  - apply Forall_cons in Hw as [Hc Hw]. destruct (IH Hw Hid) as (t' & Hi' & He).
    destruct (get_char_Ok (replicate ALPHA_NUM Null) c) as (i & t & Hi & Ht & Hg); [apply length_replicate|done|].
    assert (Hlt := index_lt c i Hi). assert (t = Null) as -> by (by apply lookup_replicate in Ht as [? _]).
    eexists. split; [unfold create_trie_node at 1; cbn [insert_loop]; rewrite Hg; cbn -[create_trie_node]; by rewrite Hi'|].
    cbn [erase]. unfold get_char. rewrite Hi, list_lookup_insert_eq by exact Hlt.
    cbn [mbind res_bind]. rewrite He. cbn [mbind res_bind]. by rewrite list_insert_insert_eq, list_insert_id.
Qed.

(** ** Properties *)

(** [insert] stores the word under the next id and changes no other word;
    it keeps the shape of the trie. *)
Theorem insert_correct t w g :
  trie_ok t → t ≠ Null → lower w → (0 < g < 2 ^ 32 - 1)%Z →
  ∃ t', insert t w g = Ok (t', g + 1)%Z ∧ trie_ok t' ∧ t' ≠ Null ∧
    ∀ w', find t' w' = if decide (w' = w) then g else find t w'.
Proof.
  intros Hok Hn Hw Hg. destruct (insert_loop_spec t w g) as (t' & Hi & Hok' & Hn' & _ & Hf); [done..|lia|].
  exists t'. split_and!; [|done..]. unfold insert. rewrite Hi. simpl. unfold wrap_u32. by rewrite Z.mod_small by lia.
Qed.

Lemma insert_correct_witness :
  ∃ t', insert create_trie_node [letter 0; letter 1] 1 = Ok (t', 1 + 1)%Z ∧ trie_ok t' ∧ t' ≠ Null ∧
    ∀ w', find t' w' = if decide (w' = [letter 0; letter 1]) then 1%Z else find create_trie_node w'.
Proof.
  apply (insert_correct create_trie_node); [apply trie_ok_new|done| |lia].
  repeat constructor; vm_compute; eexists; reflexivity.
Defined.

(** [erase] removes a stored word, changes no other word and keeps the shape
    of the trie, so no node is left without a word below it; a word that is no
    prefix of a stored word is left alone. *)
Theorem erase_correct t w :
  trie_ok t → lower w → w ≠ [] →
  (find t w ≠ 0%Z → ∃ t', erase t w = Ok (true, t') ∧ trie_ok t' ∧ live t' ∧
     ∀ w', find t' w' = if decide (w' = w) then 0%Z else find t w') ∧
  ((∀ w', find t (w ++ w') = 0%Z) → erase t w = Ok (false, t)).
Proof.
  intros Hok Hw Hne. split; [by apply erase_found|]. intros Hno. apply erase_absent; [done..|].
  destruct (decide (is_null (node_at t w) = true)) as [Hn|Hn]; [by destruct (node_at t w)|]. exfalso.
  assert (Hx : node_at t w ≠ Null) by (intros Hx; by rewrite Hx in Hn).
  apply (node_at_prefix t w Hok Hne) in Hx as [w' Hw']. by rewrite Hno in Hw'.
Qed.

Lemma erase_correct_witness :
  (∀ w', find create_trie_node ([letter 0] ++ w') = 0%Z) ∧
  erase create_trie_node [letter 0] = Ok (false, create_trie_node).
Proof.
  assert (Hno : ∀ w', find create_trie_node ([letter 0] ++ w') = 0%Z) by (intros w'; apply find_new).
  split; [exact Hno|]. refine (proj2 (erase_correct create_trie_node [letter 0] trie_ok_new _ _) Hno); [|done].
  repeat constructor; vm_compute; eexists; reflexivity.
Defined.

(** Erasing a word that is a proper prefix of a stored word and not stored
    itself reads outside the array of children: the terminating zero of the
    string is used as a letter. *)
Theorem erase_prefix_undefined t w w' :
  trie_ok t → lower w → w ≠ [] → find t w = 0%Z → find t (w ++ w') ≠ 0%Z → erase t w = Err UndefinedBehaviour.
Proof.
  intros Hok Hw Hne Hf Hf'. apply erase_inner; [done..| |done]. apply node_at_prefix; [done..|]. eauto.
Qed.

(** The trie that holds [ab] under the id 1. *)
Definition ab_trie : trie :=
  Eval vm_compute in match insert create_trie_node [letter 0; letter 1] 1 with Ok (t, _) => t | Err _ => Null end.

Lemma ab_trie_ok : trie_ok ab_trie.
Proof.
  destruct (insert_loop_spec create_trie_node [letter 0; letter 1] 1) as (t' & Hi & Hok & _);
    [apply trie_ok_new|done|repeat constructor; vm_compute; eexists; reflexivity|done|].
  vm_compute in Hi. injection Hi as <-. exact Hok.
Qed.

Lemma erase_prefix_undefined_witness : erase ab_trie [letter 0] = Err UndefinedBehaviour.
Proof.
  apply (erase_prefix_undefined ab_trie [letter 0] [letter 1]);
    [apply ab_trie_ok| |done|reflexivity|vm_compute; discriminate].
  repeat constructor; vm_compute; eexists; reflexivity.
Defined.

(** Inserting a new word and erasing it again gives back the same trie, node
    by node: nothing is leaked. *)
Theorem insert_erase_restores t w id :
  trie_ok t → live t → t ≠ Null → lower w → id ≠ 0%Z → find t w = 0%Z →
  ∃ t', insert_loop t w id = Ok t' ∧ erase t' w = Ok (true, t).
Proof.
  revert t. induction w as [|c w IH]; intros t Hok Hl Hn Hw Hid Hf; (destruct t as [|id0 chars]; [done|]).
  - simpl in Hf. subst. destruct Hl as [?|Hl]; [done|]. eexists. split; [done|]. simpl.
    by rewrite (proj2 (Z.eqb_neq id 0)), Hl.
  - apply Forall_cons in Hw as [Hc Hw]. inversion Hok as [|? ? Hlen Hall Hlive]; subst.
    destruct (get_char_Ok chars c Hlen Hc) as (i & t & Hi & Ht & Hg).
    assert (Hlt : i < length chars) by (by eapply lookup_lt_Some).
    assert (Hback : ∃ t', insert_loop (if is_null t then create_trie_node else t) w id = Ok t' ∧ erase t' w = Ok (true, t)).
    { rewrite Forall_lookup in Hall, Hlive. destruct t as [|id1 chars1]; simpl; [by apply erase_insert_new|].
      apply IH; [by eapply Hall|by eapply (Hlive i)|done|done|done|]. by rewrite <- Hf, (find_cons c w id0 chars i (Node id1 chars1)). }
    destruct Hback as (t' & Hins & He). eexists. split; [simpl; rewrite Hg; simpl; rewrite Hins; done|].
    cbn [erase]. unfold get_char. rewrite Hi, list_lookup_insert_eq by done. simpl. rewrite He. simpl.
    rewrite list_insert_insert_eq, list_insert_id by done.
    destruct Hl as [Hl|Hl]; [by rewrite (proj2 (Z.eqb_neq id0 0))|by rewrite Hl, andb_false_r].
Qed.

Lemma insert_erase_restores_witness :
  ∃ t', insert_loop ab_trie [letter 0; letter 2] 2 = Ok t' ∧ erase t' [letter 0; letter 2] = Ok (true, ab_trie).
Proof.
  apply (insert_erase_restores ab_trie [letter 0; letter 2] 2);
    [apply ab_trie_ok|by right|done| |lia|reflexivity].
  repeat constructor; vm_compute; eexists; reflexivity.
Defined.
