(* ===== verification/TrieSearch.v ===== *)
(** Searching a query for all stored words: [search_substring] and
    [search_all_patterns] of [project1/src/trie.cc].

    The query is split between the threads; each thread looks for words that
    start in its part. This file models what the threads compute and what is
    printed; how they are started and waited for is in [WorkerPool]. *)
From stdpp Require Import functions base tactics numbers option list list_numbers gmap sets relations sorting.
From Stdlib Require Import ZArith Lia Ascii.
From S2P Require Import Prelude Trie.

Definition THREAD_NUM : nat := 42.

(** [answer_t]; a location is an offset into the query. *)
Record answer_t : Type := mk_answer {
  substring_location : nat;
  answer_length : nat;
  answer_word_id : Z;
}.

#[global] Instance answer_eq_dec : EqDecision answer_t.
Proof. solve_decision. Defined.

(** ** One thread *)

(** The [while] loop: [trie_node] is the node reached after [len] characters, [s]
    the rest of the query. *)
Fixpoint search_walk (trie_node : trie) (loc len : nat) (s : word) : res (list answer_t) :=
  match s with
  | [] => Ok []
  | c :: s' =>
      match trie_node with
      | Null => Err UndefinedBehaviour
      | Node _ chars =>
          '(_, child) ← get_char chars c;
          match child with
          | Null => Ok []
          | Node id _ =>
              rest ← search_walk child loc (S len) s';
              Ok (if (id =? 0)%Z then rest else mk_answer loc (S len) id :: rest)
          end
      end
  end.

(** The [for] loop: [search_length] start locations, or fewer at the end of the
    query. *)
Fixpoint search_loop (trie_root : trie) (loc search_length : nat) (s : word) : res (list answer_t) :=
  match search_length with
  | 0 => Ok []
  | S n =>
      match s with
      | [] => Ok []
      | _ :: s' =>
          answers ← search_walk trie_root loc 0 s;
          rest ← search_loop trie_root (S loc) n s';
          Ok (answers ++ rest)
      end
  end.

(** What a thread appends to its [local_answers] for the arguments [loc] and
    [search_length]. *)
Definition search_substring (trie_root : trie) (query : word) (loc search_length : nat) : res (list answer_t) :=
  search_loop trie_root loc search_length (drop loc query).

(** ** All threads *)

(** The loop that prepares the thread arguments: the start location of each
    thread that is woken up. *)
Fixpoint make_args (threads substring_location iterations end_of_query : nat) : list nat :=
  match threads with
  | 0 => []
  | S k =>
      if substring_location <? end_of_query then
        substring_location :: make_args k (substring_location + iterations) iterations end_of_query
      else []
  end.

Fixpoint collect (f : nat → res (list answer_t)) (args : list nat) : res (list answer_t) :=
  match args with
  | [] => Ok []
  | a :: args' => l ← f a; ls ← collect f args'; Ok (l ++ ls)
  end.

(** The comparison of [std::sort], as an order. *)
Definition answer_le (lhs rhs : answer_t) : Prop :=
  substring_location lhs < substring_location rhs ∨
  (substring_location lhs = substring_location rhs ∧ answer_length lhs ≤ answer_length rhs).

#[global] Instance answer_le_dec : RelDecision answer_le.
Proof. unfold RelDecision, answer_le. apply _. Defined.

(** The characters a printed answer consists of. *)
Definition substring (query : word) (a : answer_t) : word :=
  take (answer_length a) (drop (substring_location a) query).

Definition bar : ascii := ascii_of_nat 124.
Definition endl : ascii := ascii_of_nat 10.
Definition minus_one : word := [ascii_of_nat 45; ascii_of_nat 49].

(** Printing the answers after the first. *)
Fixpoint print_rest (query : word) (printed : gset Z) (answers : list answer_t) : word :=
  match answers with
  | [] => []
  | a :: answers' =>
      if decide (answer_word_id a ∈ printed) then print_rest query printed answers'
      else bar :: substring query a ++ print_rest query ({[answer_word_id a]} ∪ printed) answers'
  end.

Definition print_answers (query : word) (global_answers : list answer_t) : word :=
  let size := wrap_u32 (Z.of_nat (length global_answers)) in
  match take (Z.to_nat size) global_answers with
  | [] => minus_one
  | a :: answers => substring query a ++ print_rest query {[answer_word_id a]} answers
  end ++ [endl].

(** The text that is printed for a query. *)
Definition search_all_patterns (trie_root : trie) (query : word) (query_length : nat) : res word :=
  if is_null trie_root then Ok []
  else
    let search_iteration_number := query_length / THREAD_NUM + 1 in
    let args := make_args THREAD_NUM 0 search_iteration_number query_length in
    global_answers ← collect (λ loc, search_substring trie_root query loc search_iteration_number) args;
    Ok (print_answers query (merge_sort answer_le global_answers)).

(** ** Specification *)

Definition prefixes (s : word) : list word := map (λ n, take n s) (seq 1 (length s)).

(** All substrings, by start and then by length. *)
Definition substrings (query : word) : list word :=
  concat (map (λ loc, prefixes (drop loc query)) (seq 0 (length query))).

(** The stored words found in the query; [stored w] is not 0 for a stored word. *)
Definition matches (stored : word → Z) (query : word) : list word :=
  filter (λ w, stored w ≠ 0%Z) (substrings query).

(** Each word once, where it occurs first. *)
Fixpoint first_occurrences (seen : list word) (l : list word) : list word :=
  match l with
  | [] => []
  | w :: l' => if decide (w ∈ seen) then first_occurrences seen l' else w :: first_occurrences (w :: seen) l'
  end.

Definition render (l : list word) : word :=
  match l with
  | [] => minus_one
  | w :: l' => w ++ concat (map (λ w, bar :: w) l')
  end ++ [endl].

(** No two words have the same id. *)
Definition ids_unique (t : trie) : Prop := ∀ w w', find t w ≠ 0%Z → find t w = find t w' → w = w'.

(** ** What a thread finds *)

(** The answers that start at [loc], after the prefix [p] of what starts there. *)
Fixpoint answers_from (f : word → Z) (loc : nat) (p s : word) : list answer_t :=
  match s with
  | [] => []
  | c :: s' =>
      let p' := p ++ [c] in
      (if (f p' =? 0)%Z then [] else [mk_answer loc (length p') (f p')]) ++ answers_from f loc p' s'
  end.

Fixpoint answers_n (f : word → Z) (loc n : nat) (s : word) : list answer_t :=
  match n, s with
  | S n', _ :: s' => answers_from f loc [] s ++ answers_n f (S loc) n' s'
  | _, _ => []
  end.

Lemma answers_from_none f loc p s :
  (∀ w, f (p ++ w) = 0%Z) → answers_from f loc p s = [].
Proof.
  revert p. induction s as [|c s IH]; intros p Hf; simpl; [done|].
  rewrite Hf. simpl. apply IH. intros w. rewrite <- app_assoc. apply Hf.
Qed.

Lemma search_walk_spec t p loc s :
  trie_ok t → node_at t p ≠ Null → lower s →
  search_walk (node_at t p) loc (length p) s = Ok (answers_from (find t) loc p s).
Proof.
  intros Hok. revert p. induction s as [|c s IH]; intros p Hn Hs; [done|].
  apply Forall_cons in Hs as [Hc Hs]. cbn [search_walk answers_from].
  destruct (node_at_ok t p Hok) as [Hokp _].
  assert (Hnode : node_at t (p ++ [c]) = node_at (node_at t p) [c]).
  { clear. revert t. induction p as [|a p IHp]; intros t; [done|]. simpl.
    destruct t as [|id chars]; [done|]. destruct (index a); [apply IHp|done]. }
  assert (Hfind : find t (p ++ [c]) = find (node_at t (p ++ [c])) []).
  { by rewrite <- find_app, app_nil_r. }
  destruct (node_at t p) as [|id chars] eqn:Hp; [done|]. inversion Hokp as [|? ? Hlen Hall Hlive]; subst.
  destruct (get_char_Ok chars c Hlen Hc) as (i & ch & Hi & Ht & ->). cbn [mbind res_bind].
  simpl in Hnode. rewrite Hi, Ht in Hnode. simpl in Hnode. rewrite Hnode in Hfind.
  destruct ch as [|id' chars'].
  - rewrite Hfind. simpl. f_equal. symmetry. apply answers_from_none. intros w. by rewrite find_app, Hnode, find_Null.
  - specialize (IH (p ++ [c])). rewrite Hnode in IH. rewrite length_app in IH. simpl in IH.
    replace (length p + 1) with (S (length p)) in IH by lia. rewrite IH by done. cbn [mbind res_bind].
    rewrite Hfind, length_app. simpl. replace (length p + 1) with (S (length p)) by lia. by destruct (id' =? 0)%Z.
Qed.

Lemma search_loop_spec t loc n s :
  trie_ok t → t ≠ Null → lower s → search_loop t loc n s = Ok (answers_n (find t) loc n s).
Proof.
  intros Hok Hn. revert loc s. induction n as [|n IH]; intros loc s Hs; [done|].
  destruct s as [|c s]; [done|]. cbn [search_loop answers_n].
  assert (Hw := search_walk_spec t [] loc (c :: s) Hok Hn Hs).
  change (node_at t []) with t in Hw. change (length []) with 0 in Hw. rewrite Hw. cbn [mbind res_bind].
  rewrite IH; [done|]. by apply Forall_cons in Hs as [_ ?].
Qed.

(** ** The parts of all threads together *)

Lemma answers_n_app f loc n m s :
  answers_n f loc (n + m) s = answers_n f loc n s ++ answers_n f (loc + n) m (drop n s).
Proof.
  revert loc s. induction n as [|n IH]; intros loc s; cbn [Nat.add answers_n]; [by rewrite Nat.add_0_r|].
  destruct s as [|c s]; [by destruct m|]. cbn [drop skipn]. rewrite IH, app_assoc. by replace (loc + S n) with (S loc + n) by lia.
Qed.

Lemma answers_n_nil f loc n : answers_n f loc n [] = [].
Proof. by destruct n. Qed.

Lemma answers_n_enough f loc n m s : length s ≤ n → n ≤ m → answers_n f loc m s = answers_n f loc n s.
Proof.
  intros Hl Hm. replace m with (n + (m - n)) by lia.
  by rewrite answers_n_app, drop_ge, answers_n_nil, app_nil_r.
Qed.

Lemma collect_args f g threads loc k len query :
  0 < k → len = length query →
  (∀ a, a ∈ make_args threads loc k len → g a = Ok (answers_n f a k (drop a query))) →
  collect g (make_args threads loc k len) = Ok (answers_n f loc (threads * k) (drop loc query)).
Proof.
  intros Hk ->. revert loc. induction threads as [|n IH]; intros loc Hg; simpl in *; [done|].
  destruct (loc <? length query) eqn:Hlt; simpl.
  - rewrite Hg by (by left). cbn [mbind res_bind]. rewrite IH by (intros a Ha; apply Hg; by right).
    cbn [mbind res_bind]. by rewrite answers_n_app, drop_drop.
  - apply Nat.ltb_ge in Hlt. by rewrite drop_ge, answers_n_nil.
Qed.

(** ** Sorting leaves the answers as they are *)

Lemma elem_of_answers_from f loc p s a :
  a ∈ answers_from f loc p s →
  ∃ n, 0 < n ≤ length s ∧ a = mk_answer loc (length p + n) (f (p ++ take n s)) ∧ f (p ++ take n s) ≠ 0%Z.
Proof.
  revert p. induction s as [|c s IH]; intros p; simpl; [by intros ?%not_elem_of_nil|].
  intros [Ha|Ha]%elem_of_app.
  - destruct (f (p ++ [c]) =? 0)%Z eqn:E; [by apply not_elem_of_nil in Ha|].
    apply list_elem_of_singleton in Ha as ->. apply Z.eqb_neq in E.
    exists 1. rewrite length_app. simpl. rewrite take_0. split_and!; [lia..|done|done].
  - apply IH in Ha as (n & Hn & -> & Hf). exists (S n). simpl. rewrite <- app_assoc in *. simpl in *.
    rewrite length_app. simpl. split_and!; [lia|lia| |done]. f_equal. lia.
Qed.

Lemma elem_of_answers_n f loc n s a :
  a ∈ answers_n f loc n s →
  ∃ d k, d < length s ∧ 0 < k ≤ length s - d ∧
    a = mk_answer (loc + d) k (f (take k (drop d s))) ∧ f (take k (drop d s)) ≠ 0%Z.
Proof.
  revert loc s. induction n as [|n IH]; intros loc s; [by intros ?%not_elem_of_nil|].
  destruct s as [|c s]; [by intros ?%not_elem_of_nil|]. cbn [answers_n]. intros [Ha|Ha]%elem_of_app.
  - apply elem_of_answers_from in Ha as (k & Hk & -> & Hf). exists 0, k. simpl in *.
    rewrite Nat.add_0_r. split_and!; [lia|lia|lia|done|done].
  - apply IH in Ha as (d & k & Hd & Hk & -> & Hf). exists (S d), k. simpl.
    split_and!; [lia|lia|lia| |done]. f_equal. lia.
Qed.

Lemma answers_from_sorted f loc p s : StronglySorted answer_le (answers_from f loc p s).
Proof.
  revert p. induction s as [|c s IH]; intros p; simpl; [constructor|].
  destruct (f (p ++ [c]) =? 0)%Z; simpl; [apply IH|]. constructor; [apply IH|].
  apply Forall_forall. intros a (n & Hn & -> & _)%elem_of_answers_from. right. simpl. rewrite !length_app. simpl. lia.
Qed.

Lemma answers_n_sorted f loc n s : StronglySorted answer_le (answers_n f loc n s).
Proof.
  revert loc s. induction n as [|n IH]; intros loc s; [constructor|]. destruct s as [|c s]; [constructor|].
  cbn [answers_n]. apply StronglySorted_app_2; [|apply answers_from_sorted|apply IH].
  intros a b (k & _ & -> & _)%elem_of_answers_from (d & k' & _ & _ & -> & _)%elem_of_answers_n.
  left. simpl. lia.
Qed.

Lemma sort_answers f loc n s : merge_sort answer_le (answers_n f loc n s) = answers_n f loc n s.
Proof.
  apply (StronglySorted_unique_strong answer_le); [| |apply answers_n_sorted|apply merge_sort_Permutation].
  - intros a b Ha Hb. rewrite merge_sort_Permutation in Ha.
    apply elem_of_answers_n in Ha as (d & k & _ & _ & -> & _). apply elem_of_answers_n in Hb as (d' & k' & _ & _ & -> & _).
    unfold answer_le. simpl. intros H1 H2. assert (d = d') as -> by lia. assert (k = k') as -> by lia. done.
  - apply StronglySorted_merge_sort.
    + intros a b c. unfold answer_le. lia.
    + intros a b. unfold answer_le. lia.
Qed.

(** ** The answers as words *)

Lemma words_from f query loc p s :
  drop loc query = p ++ s →
  map (substring query) (answers_from f loc p s) =
    filter (λ w, f w ≠ 0%Z) (map (λ n, p ++ take n s) (seq 1 (length s))).
Proof.
  revert p. induction s as [|c s IH]; intros p Hq; [done|]. cbn [answers_from length seq map].
  rewrite map_app, filter_cons, IH by (by rewrite Hq, <- app_assoc).
  rewrite <- (seq_shift (length s) 1), map_map. cbn [take firstn].
  assert (Hs : substring query (mk_answer loc (length (p ++ [c])) (f (p ++ [c]))) = p ++ [c]).
  { unfold substring. simpl. rewrite Hq. replace (p ++ c :: s) with ((p ++ [c]) ++ s) by (by rewrite <- app_assoc).
    by rewrite take_app_length. }
  assert (Hm : map (λ n, (p ++ [c]) ++ take n s) (seq 1 (length s)) = map (λ n, p ++ c :: take n s) (seq 1 (length s))).
  { apply map_ext. intros n. by rewrite <- app_assoc. }
  rewrite Hm. destruct (f (p ++ [c]) =? 0)%Z eqn:E; [apply Z.eqb_eq in E|apply Z.eqb_neq in E].
  - rewrite decide_False by (intros Hn; by apply Hn). done.
  - rewrite decide_True by done. cbn [map app]. by rewrite Hs.
Qed.

Lemma words_n f query loc s :
  drop loc query = s →
  map (substring query) (answers_n f loc (length s) s) =
    filter (λ w, f w ≠ 0%Z) (concat (map (λ l, prefixes (drop l query)) (seq loc (length s)))).
Proof.
  revert loc. induction s as [|c s IH]; intros loc Hq; [done|]. cbn [length answers_n seq map concat].
  rewrite map_app, filter_app. rewrite (words_from f query loc [] (c :: s)) by done. unfold prefixes at 1. rewrite Hq.
  f_equal. apply IH. by rewrite <- Nat.add_1_r, <- drop_drop, Hq.
Qed.

Lemma answers_n_words f query :
  map (substring query) (answers_n f 0 (length query) query) = matches f query.
Proof. unfold matches, substrings. by apply words_n. Qed.

Lemma length_answers_from f loc p s : length (answers_from f loc p s) ≤ length s.
Proof.
  revert p. induction s as [|c s IH]; intros p; simpl; [lia|]. rewrite length_app. specialize (IH (p ++ [c])).
  destruct (f (p ++ [c]) =? 0)%Z; simpl; lia.
Qed.

Lemma length_answers_n f loc n s : length (answers_n f loc n s) ≤ length s * length s.
Proof.
  revert loc s. induction n as [|n IH]; intros loc s; [simpl; lia|]. destruct s as [|c s]; [simpl; lia|].
  cbn [answers_n]. rewrite length_app. assert (H := length_answers_from f loc [] (c :: s)). specialize (IH (S loc) s).
  cbn [length] in *. nia.
Qed.

(** ** Printing *)

(** Printing each word id once prints each word once. *)
Lemma print_rest_spec f query printed seen answers :
  (∀ w w', f w ≠ 0%Z → f w = f w' → w = w') →
  (∀ a, a ∈ answers → f (substring query a) = answer_word_id a ∧ answer_word_id a ≠ 0%Z) →
  (∀ w, f w ≠ 0%Z → f w ∈ printed ↔ w ∈ seen) →
  print_rest query printed answers =
    concat (map (λ w, bar :: w) (first_occurrences seen (map (substring query) answers))).
Proof.
  intros Hinj. revert printed seen. induction answers as [|a answers IH]; intros printed seen Ha Hs; [done|].
  cbn [print_rest map first_occurrences]. destruct (Ha a) as [Hf Hn]; [by left|].
  assert (Hiff : answer_word_id a ∈ printed ↔ substring query a ∈ seen) by (rewrite <- Hf in Hn |- *; by apply Hs).
  assert (Ha' : ∀ a, a ∈ answers → f (substring query a) = answer_word_id a ∧ answer_word_id a ≠ 0%Z) by (intros a' ?; apply Ha; by right).
  destruct (decide (answer_word_id a ∈ printed)) as [Hp|Hp].
  - rewrite decide_True by (by apply Hiff). by apply IH.
  - rewrite decide_False by (by rewrite <- Hiff). cbn [map concat app]. do 2 f_equal. apply IH; [done|].
    intros w Hw. rewrite elem_of_union, elem_of_singleton, elem_of_cons, (Hs w Hw), <- Hf.
    split; (intros [Heq|]; [left|by right]); [by apply Hinj|by rewrite Heq].
Qed.

Lemma print_answers_spec f query answers :
  (∀ w w', f w ≠ 0%Z → f w = f w' → w = w') →
  (∀ a, a ∈ answers → f (substring query a) = answer_word_id a ∧ answer_word_id a ≠ 0%Z) →
  (Z.of_nat (length answers) < 2 ^ 32)%Z →
  print_answers query answers = render (first_occurrences [] (map (substring query) answers)).
Proof.
  intros Hinj Ha Hlen. unfold print_answers, wrap_u32. rewrite Z.mod_small, Nat2Z.id by lia.
  rewrite take_ge by lia. destruct answers as [|a answers]; [done|]. cbn [map first_occurrences].
  rewrite decide_False by (by intros ?%not_elem_of_nil). unfold render. f_equal. f_equal.
  destruct (Ha a) as [Hf Hn]; [by left|]. apply (print_rest_spec f); [done|intros a' ?; apply Ha; by right|].
  intros w Hw. rewrite elem_of_singleton, list_elem_of_singleton, <- Hf.
  split; [by apply Hinj|by intros ->].
Qed.

(** Everything before the printing. *)
Lemma collect_answers t query :
  trie_ok t → t ≠ Null → lower query →
  let k := length query / THREAD_NUM + 1 in
  collect (λ loc, search_substring t query loc k) (make_args THREAD_NUM 0 k (length query)) =
    Ok (answers_n (find t) 0 (length query) query).
Proof.
  intros Hok Hn Hq k.
  rewrite (collect_args (find t) _ THREAD_NUM 0 k (length query) query); [|lia|done|].
  - f_equal. apply answers_n_enough; [done|]. unfold k, THREAD_NUM.
    assert (H := Nat.div_mod (length query) 42). assert (H' := Nat.mod_upper_bound (length query) 42). lia.
  - intros a _. unfold search_substring. apply search_loop_spec; [done..|]. by apply Forall_drop.
Qed.

Lemma search_all_patterns_eq t query :
  trie_ok t → t ≠ Null → ids_unique t → lower query → (Z.of_nat (length query) < 2 ^ 16)%Z →
  search_all_patterns t query (length query) = Ok (render (first_occurrences [] (matches (find t) query))).
Proof.
  intros Hok Hn Hids Hq Hlen. unfold search_all_patterns. destruct (is_null t) eqn:Hnull; [by destruct t|].
  rewrite collect_answers by done. cbn [mbind res_bind]. rewrite sort_answers, <- answers_n_words. f_equal.
  apply (print_answers_spec (find t)); [done| |].
  - intros a (d & k & Hd & Hk & -> & Hf)%elem_of_answers_n. done.
  - assert (H := length_answers_n (find t) 0 (length query) query). nia.
Qed.

(** ** Which words are printed *)

Lemma elem_of_substrings query w : w ∈ substrings query ↔ w ≠ [] ∧ ∃ a b, query = a ++ w ++ b.
Proof.
  unfold substrings, prefixes. rewrite list_elem_of_In, in_concat. split.
  - intros (l & Hl & Hw). apply in_map_iff in Hl as (loc & <- & Hloc%in_seq).
    apply in_map_iff in Hw as (n & <- & Hn%in_seq). rewrite length_drop in Hn. split.
    + intros Hnil. apply (f_equal length) in Hnil. rewrite length_take, length_drop in Hnil. simpl in Hnil. lia.
    + exists (take loc query), (drop n (drop loc query)). by rewrite !take_drop.
  - intros (Hne & a & b & ->). exists (map (λ n, take n (drop (length a) (a ++ w ++ b))) (seq 1 (length (drop (length a) (a ++ w ++ b))))).
    rewrite drop_app_length. destruct w as [|c w]; [done|]. split.
    + apply in_map_iff. exists (length a). rewrite drop_app_length. split; [done|]. apply in_seq. rewrite !length_app. simpl. lia.
    + apply in_map_iff. exists (length (c :: w)). rewrite take_app_length. split; [done|].
      apply in_seq. rewrite length_app. simpl. lia.
Qed.

Lemma elem_of_first_occurrences seen l w :
  w ∈ first_occurrences seen l ↔ w ∈ l ∧ w ∉ seen.
Proof.
  revert seen. induction l as [|x l IH]; intros seen; simpl; [set_solver|].
  case_decide as Hx; [rewrite IH; set_solver|]. rewrite elem_of_cons, IH.
  destruct (decide (w = x)); set_solver.
Qed.

Lemma NoDup_first_occurrences seen l : NoDup (first_occurrences seen l).
Proof.
  revert seen. induction l as [|x l IH]; intros seen; simpl; [constructor|].
  case_decide as Hx; [apply IH|]. constructor; [|apply IH].
  rewrite elem_of_first_occurrences. intros [_ Hn]. apply Hn. by left.
Qed.

(** ** Properties *)

(** [search_all_patterns], with the query split between 42 threads, prints
    the result of the sequential search: the stored words that occur in the
    query, each once, by first occurrence and then by length. *)
Theorem search_correct t query :
  trie_ok t → t ≠ Null → ids_unique t → lower query → (Z.of_nat (length query) < 2 ^ 16)%Z →
  ∃ found, search_all_patterns t query (length query) = Ok (render found) ∧
    found = first_occurrences [] (matches (find t) query) ∧ NoDup found ∧
    ∀ w, w ∈ found ↔ find t w ≠ 0%Z ∧ w ≠ [] ∧ ∃ a b, query = a ++ w ++ b.
Proof.
  intros Hok Hn Hids Hq Hlen. eexists. split_and!; [by apply search_all_patterns_eq|done|apply NoDup_first_occurrences|].
  intros w. rewrite elem_of_first_occurrences. unfold matches. rewrite list_elem_of_filter, elem_of_substrings.
  split; [by intros [[? ?] _]|]. intros (? & ? & ?). split; [done|]. apply not_elem_of_nil.
Qed.

Lemma ab_trie_unique : ids_unique ab_trie.
Proof.
  destruct (insert_loop_spec create_trie_node [letter 0; letter 1] 1) as (t' & Hi & _ & _ & _ & Hf);
    [apply trie_ok_new|done|repeat constructor; vm_compute; eexists; reflexivity|done|].
  vm_compute in Hi. injection Hi as <-. fold ab_trie in Hf. intros w w'. rewrite !Hf, !find_new.
  repeat case_decide; congruence.
Qed.

Lemma search_correct_witness :
  ∃ found, search_all_patterns ab_trie [letter 2; letter 0; letter 1] 3 = Ok (render found) ∧
    found = first_occurrences [] (matches (find ab_trie) [letter 2; letter 0; letter 1]) ∧ NoDup found ∧
    ∀ w, w ∈ found ↔ find ab_trie w ≠ 0%Z ∧ w ≠ [] ∧ ∃ a b, [letter 2; letter 0; letter 1] = a ++ w ++ b.
Proof.
  apply (search_correct ab_trie [letter 2; letter 0; letter 1]);
    [apply ab_trie_ok|done|apply ab_trie_unique| |simpl; lia].
  repeat constructor; vm_compute; eexists; reflexivity.
Defined.

(** The parts of the query given to the threads cover it: together, in the
    order of the threads, they find exactly what one thread would find searching
    the whole query, already sorted. *)
Theorem partition_complete t query :
  trie_ok t → t ≠ Null → lower query →
  let k := length query / THREAD_NUM + 1 in
  ∃ answers, search_substring t query 0 (length query) = Ok answers ∧
    collect (λ loc, search_substring t query loc k) (make_args THREAD_NUM 0 k (length query)) = Ok answers ∧
    merge_sort answer_le answers = answers.
Proof.
  intros Hok Hn Hq k. exists (answers_n (find t) 0 (length query) query).
  split_and!; [|by apply collect_answers|apply sort_answers].
  unfold search_substring. rewrite drop_0. by apply search_loop_spec.
Qed.

Lemma partition_complete_witness :
  ∃ answers, search_substring ab_trie [letter 0; letter 1] 0 2 = Ok answers ∧
    collect (λ loc, search_substring ab_trie [letter 0; letter 1] loc 1) (make_args THREAD_NUM 0 1 2) = Ok answers ∧
    merge_sort answer_le answers = answers.
Proof.
  apply (partition_complete ab_trie [letter 0; letter 1]); [apply ab_trie_ok|done|].
  repeat constructor; vm_compute; eexists; reflexivity.
Defined.
