(* ===== verification/TrieMain.v ===== *)
(** The command loop of project 1, [project1/src/main.cc], and its
    specification: a set of words. The searches that the threads of a query do
    are taken one after another here; [WorkerPool] has the threads. *)
From stdpp Require Import functions base tactics numbers option list list_numbers gmap sets relations sorting.
From Stdlib Require Import ZArith Lia Ascii.
From S2P Require Import Prelude Trie TrieSearch.

(** ** The program *)

Record state : Type := mk_state {
  root : trie;
  word_id_generator : Z;
}.

Inductive command : Type :=
| Q (str_buffer : word)
| A (str_buffer : word)
| D (str_buffer : word).

(** One turn of the command loop: the new state and what is printed. *)
Definition run_command (s : state) (cmd : command) : res (state * word) :=
  match cmd with
  | Q w =>
      out ← search_all_patterns (root s) w (Z.to_nat (wrap_u32 (Z.of_nat (length w))));
      Ok (s, out)
  | A w =>
      '(t, g) ← insert (root s) w (word_id_generator s);
      Ok (mk_state t g, [])
  | D w =>
      '(_, t) ← erase (root s) w;
      Ok (mk_state (if is_null t then create_trie_node else t) (word_id_generator s), [])
  end.

Fixpoint run_commands (s : state) (cmds : list command) : res (state * list word) :=
  match cmds with
  | [] => Ok (s, [])
  | cmd :: cmds' =>
      '(s', out) ← run_command s cmd;
      '(s'', outs) ← run_commands s' cmds';
      Ok (s'', out :: outs)
  end.

(** Reading the initial words. *)
Fixpoint insert_all (s : state) (ws : list word) : res state :=
  match ws with
  | [] => Ok s
  | w :: ws' => '(t, g) ← insert (root s) w (word_id_generator s); insert_all (mk_state t g) ws'
  end.

Definition initial : state := mk_state create_trie_node 1.

(** From the initial words and the commands to the lines printed after [R]. *)
Definition project1_main (ws : list word) (cmds : list command) : res (list word) :=
  s ← insert_all initial ws;
  '(_, outs) ← run_commands s cmds;
  Ok outs.

(** ** The specification *)

Definition spec_command (S : gset word) (cmd : command) : gset word * word :=
  match cmd with
  | Q w => (S, render (first_occurrences [] (filter (λ w, w ∈ S) (substrings w))))
  | A w => ({[w]} ∪ S, [])
  | D w => (S ∖ {[w]}, [])
  end.

(** A word can be deleted if it is stored, or if it is not the beginning of a stored word.
    The assignment has a deletion of any word that is not stored ignored. *)
Definition deletable (S : gset word) (w : word) : bool :=
  bool_decide (w ∈ S) || bool_decide (w ≠ [] ∧ set_Forall (λ v, ¬ w `prefix_of` v) S).

(** What is printed; another deletion reads outside the array of children. *)
Fixpoint spec_commands (S : gset word) (cmds : list command) : res (list word) :=
  match cmds with
  | [] => Ok []
  | cmd :: cmds' =>
      if match cmd with D w => deletable S w | _ => true end
      then outs ← spec_commands (spec_command S cmd).1 cmds'; Ok ((spec_command S cmd).2 :: outs)
      else Err UndefinedBehaviour
  end.

(** Words of lower case letters, and queries below the size at which the number of answers
    could exceed 32 bits. *)
Definition well_formed (cmd : command) : Prop :=
  match cmd with
  | Q w => lower w ∧ (Z.of_nat (length w) < 2 ^ 16)%Z
  | A w | D w => lower w
  end.

(** ** Refinement *)

(** The state represents the set [S] after [n] insertions. *)
Record represents (s : state) (S : gset word) (n : nat) : Prop := {
  rep_ok : trie_ok (root s);
  rep_root : root s ≠ Null;
  rep_find : ∀ w, find (root s) w ≠ 0%Z ↔ w ∈ S;
  rep_range : ∀ w, (0 ≤ find (root s) w < word_id_generator s)%Z;
  rep_unique : ids_unique (root s);
  rep_generator : word_id_generator s = (1 + Z.of_nat n)%Z;
}.

Lemma initial_represents : represents initial ∅ 0.
Proof.
  split; simpl; try done.
  - apply trie_ok_new.
  - intros w. rewrite find_new. set_solver.
  - intros w. rewrite find_new. lia.
  - intros w w'. by rewrite find_new.
Qed.

Lemma insert_represents s S n w :
  represents s S n → lower w → (Z.of_nat n < 2 ^ 32 - 2)%Z →
  ∃ t, insert (root s) w (word_id_generator s) = Ok (t, word_id_generator s + 1)%Z ∧
    represents (mk_state t (word_id_generator s + 1)) ({[w]} ∪ S) (n + 1).
Proof.
  intros [Hok Hn Hf Hr Hu Hg] Hw Hlt.
  destruct (insert_loop_spec (root s) w (word_id_generator s)) as (t & Hi & Hok' & Hn' & _ & Hf'); [done..|lia|].
  exists t. split.
  - unfold insert. rewrite Hi. cbn [mbind res_bind]. unfold wrap_u32. by rewrite Z.mod_small by lia.
  - split; simpl; [done|done|..|lia].
    + intros w'. rewrite Hf', elem_of_union, elem_of_singleton. case_decide; [subst; split; [by left|lia]|].
      rewrite Hf. set_solver.
    + intros w'. rewrite Hf'. specialize (Hr w'). case_decide; lia.
    + intros w1 w2. rewrite !Hf'. assert (H1 := Hr w1). assert (H2 := Hr w2).
      repeat case_decide; subst; intros; [done|lia|lia|by apply Hu].
Qed.

Lemma erase_represents s S n w :
  represents s S n → lower w → deletable S w = true →
  ∃ b t, erase (root s) w = Ok (b, t) ∧
    represents (mk_state (if is_null t then create_trie_node else t) (word_id_generator s)) (S ∖ {[w]}) n.
Proof.
  intros [Hok Hn Hf Hr Hu Hg] Hw Hin. destruct (decide (w ∈ S)) as [Hws|Hws].
  - destruct (erase_found (root s) w) as (t & He & Hok' & _ & Hf'); [done..|by apply Hf|].
    exists true, t. split; [done|].
    assert (Hroot : ∃ t', (if is_null t then create_trie_node else t) = t' ∧ trie_ok t' ∧ t' ≠ Null ∧ ∀ w, find t' w = find t w).
    { destruct t; simpl; eexists; (split; [done|]); [|done]. split_and!; [apply trie_ok_new|done|].
      intros w0. by rewrite find_new, find_Null. }
    destruct Hroot as (t' & -> & Hok2 & Hn2 & Hf2). split; simpl; [done|done|..|done].
    + intros w'. rewrite Hf2, Hf', elem_of_difference, elem_of_singleton. case_decide; [subst; tauto|]. rewrite Hf. tauto.
    + intros w'. rewrite Hf2, Hf'. specialize (Hr w'). case_decide; lia.
    + intros w1 w2. rewrite !Hf2, !Hf'. repeat case_decide; intros; [congruence|congruence|congruence|by apply Hu].
  - apply orb_true_iff in Hin as [?%bool_decide_eq_true|[Hne Hno]%bool_decide_eq_true]; [done|]. exists false, (root s).
    assert (Hnull : node_at (root s) w = Null).
    { destruct (node_at (root s) w) as [|id chars] eqn:Hnode; [done|exfalso].
      destruct (proj1 (node_at_prefix (root s) w Hok Hne)) as [w' Hw']; [by rewrite Hnode|].
      apply Hf in Hw'. apply (Hno _ Hw'). by exists w'. }
    split; [by apply erase_absent|]. assert (is_null (root s) = false) as -> by (by destruct (root s)).
    split; simpl; try done. intros w'. rewrite Hf, elem_of_difference, elem_of_singleton.
    split; [|tauto]. intros ?. split; [done|]. by intros ->.
Qed.

Lemma query_represents s S n w :
  represents s S n → lower w → (Z.of_nat (length w) < 2 ^ 16)%Z →
  run_command s (Q w) = Ok (s, (spec_command S (Q w)).2).
Proof.
  intros [Hok Hn Hf Hr Hu Hg] Hw Hlen. simpl. unfold wrap_u32. rewrite Z.mod_small, Nat2Z.id by lia.
  rewrite search_all_patterns_eq by done. cbn [mbind res_bind]. unfold matches. do 4 f_equal.
  apply list_filter_iff. intros w'. apply Hf.
Qed.

(** The other deletions end at a node that holds no word. *)
Lemma erase_undefined s S n w :
  represents s S n → lower w → deletable S w = false → erase (root s) w = Err UndefinedBehaviour.
Proof.
  intros [Hok Hn Hf Hr Hu Hg] Hw [Hin%bool_decide_eq_false Hno%bool_decide_eq_false]%orb_false_iff.
  assert (Hz : find (root s) w = 0%Z) by (destruct (decide (find (root s) w = 0%Z)) as [|H]; [done|by apply Hf in H]).
  apply erase_inner; [done..| |done]. destruct w as [|c w]; [done|]. apply node_at_prefix; [done..|].
  destruct (decide (set_Exists (λ v, (c :: w) `prefix_of` v) S)) as [(v & Hv & [w' ->])|Hx]; [exists w'; by apply Hf|].
  destruct Hno. split; [done|]. intros v Hv Hp. apply Hx. by exists v.
Qed.

Lemma run_command_refine s S n cmd :
  represents s S n → well_formed cmd → (Z.of_nat n < 2 ^ 32 - 2)%Z → match cmd with D w => deletable S w | _ => true end = true →
  ∃ s' n', run_command s cmd = Ok (s', (spec_command S cmd).2) ∧
    represents s' (spec_command S cmd).1 n' ∧ n' ≤ n + 1.
Proof.
  intros Hrep Hl Hlt Hd. destruct cmd as [w|w|w].
  - destruct Hl as [Hw Hlen]. exists s, n. split_and!; [by eapply query_represents|done|lia].
  - destruct (insert_represents s S n w) as (t & Hi & Hrep'); [done..|].
    eexists _, (n + 1). split_and!; [simpl; by rewrite Hi|done|lia].
  - destruct (erase_represents s S n w) as (b & t & He & Hrep'); [done..|].
    eexists _, n. split_and!; [simpl; by rewrite He|done|lia].
Qed.

Lemma run_commands_refine s S n cmds :
  represents s S n → Forall well_formed cmds → (Z.of_nat (n + length cmds) < 2 ^ 32 - 2)%Z →
  ('(_, outs) ← run_commands s cmds; Ok outs) = spec_commands S cmds.
Proof.
  revert s S n. induction cmds as [|cmd cmds IH]; intros s S n Hrep Hl Hlt; simpl in *; [done|].
  apply Forall_cons in Hl as [Hl Hls]. destruct (match cmd with D w => deletable S w | _ => true end) eqn:Hd.
  - destruct (run_command_refine s S n cmd) as (s1 & n1 & -> & Hrep1 & Hn1); [done|done|lia|done|].
    cbn [mbind res_bind]. rewrite <-(IH s1 (spec_command S cmd).1 n1) by (done || lia). by destruct (run_commands s1 cmds) as [[]|].
  - destruct cmd as [w|w|w]; try done. cbn [run_command]. by rewrite (erase_undefined s S n w).
Qed.

Lemma insert_all_refine s S n ws :
  represents s S n → Forall lower ws → (Z.of_nat (n + length ws) < 2 ^ 32 - 2)%Z →
  ∃ s', insert_all s ws = Ok s' ∧ represents s' (list_to_set ws ∪ S) (n + length ws).
Proof.
  revert s S n. induction ws as [|w ws IH]; intros s S n Hrep Hw Hlt; simpl in *.
  - exists s. split; [done|]. by rewrite union_empty_l_L, Nat.add_0_r.
  - apply Forall_cons in Hw as [Hw Hws].
    destruct (insert_represents s S n w) as (t & -> & Hrep'); [done|done|lia|]. cbn [mbind res_bind].
    destruct (IH _ _ _ Hrep' Hws) as (s' & -> & Hrep''); [lia|]. exists s'. split; [done|].
    replace (n + Datatypes.S (length ws)) with (n + 1 + length ws) by lia.
    replace ({[w]} ∪ list_to_set ws ∪ S) with (list_to_set ws ∪ ({[w]} ∪ S)) by set_solver. done.
Qed.

(** ** Properties *)

(** C6. The program does what its specification says, for any sequence of additions,
    deletions and queries with words of lower case letters: every query prints the words of
    the current set that occur in it, in the order of the places where they start and of
    their lengths, each once; no step leaves an array or follows a null pointer, except that
    the deletion of a word that is not stored, but the beginning of a stored word (or empty),
    reads outside the array of children. The searches of a query are taken one after
    another. *)
Theorem project1_refines ws cmds :
  Forall lower ws → Forall well_formed cmds → (Z.of_nat (length ws + length cmds) < 2 ^ 32 - 2)%Z →
  project1_main ws cmds = spec_commands (list_to_set ws) cmds.
Proof.
  intros Hw Hl Hlt. unfold project1_main.
  destruct (insert_all_refine initial ∅ 0 ws initial_represents Hw) as (s & -> & Hrep); [simpl; lia|].
  cbn [mbind res_bind]. rewrite union_empty_r_L in Hrep. by apply (run_commands_refine s _ (length ws)).
Qed.

Lemma project1_refines_witness :
  project1_main [[letter 0; letter 1]] [Q [letter 2; letter 0; letter 1]; D [letter 0; letter 1]; Q [letter 0; letter 1]] =
    Ok [render [[letter 0; letter 1]]; []; render []] ∧
  project1_main [[letter 0; letter 1]] [D [letter 0]] = Err UndefinedBehaviour.
Proof.
  assert (Hl : ∀ l, Forall (λ i, i < ALPHA_NUM) l → lower (map letter l)).
  { intros l. induction 1; constructor; [rewrite index_letter by done; by eexists|done]. }
  assert (H3 : lower (map letter [2; 0; 1])) by (apply Hl; repeat constructor; unfold ALPHA_NUM; lia).
  assert (H2 : lower (map letter [0; 1])) by (apply Hl; repeat constructor; unfold ALPHA_NUM; lia).
  assert (H1 : lower (map letter [0])) by (apply Hl; repeat constructor; unfold ALPHA_NUM; lia).
  split; (rewrite project1_refines; [by vm_compute|by repeat constructor| |simpl; lia]); repeat constructor; try done; simpl; lia.
Defined.
