(* ===== verification/WorkerPool.v ===== *)
(** How the search threads of project 1 are started, given work, waited for and
    stopped: the synchronisation in [search_substring] and
    [search_all_patterns] of [project1/src/trie.cc] and in
    [project1/src/main.cc].

    What a thread computes is in [TrieSearch]; here a search is the number of
    the query (its round) it was made for. Each line that touches a shared
    variable is one step. A step of the main thread that locks the mutex of a
    thread, signals its condition variable and unlocks the mutex is atomic, and
    possible only when that thread does not hold the mutex. *)
From stdpp Require Import functions base tactics numbers option list list_numbers gmap sets relations.
From Stdlib Require Import ZArith Lia.
From S2P Require Import Prelude.

(** ** State *)

(** Where a search thread is. *)
Inductive worker_pc : Type :=
| W_None     (* not created yet *)
| W_Lock     (* before pthread_mutex_lock *)
| W_Flag     (* mutex held, before thread_is_sleep[tid] = true *)
| W_Cond     (* mutex held, before pthread_cond_wait *)
| W_Wait     (* in pthread_cond_wait *)
| W_Wake     (* signalled *)
| W_Search   (* before the test of [finished] and the search *)
| W_Exit.

#[global] Instance worker_pc_eq_dec : EqDecision worker_pc.
Proof. solve_decision. Defined.

(** [local_answers[tid]] is the list of the rounds searched for. *)
Record worker : Type := mk_worker {
  w_pc : worker_pc;
  thread_is_sleep : bool;
  thread_args : nat;
  local_answers : list nat;
}.

(** Where the main thread is; [n] is the number of threads that get a part of the
    query ([tid] after the first loop). *)
Inductive main_pc : Type :=
| M_Create (k : nat)
| M_Started (k : nat)      (* while (thread_is_sleep[i] == false) *)
| M_Idle
| M_Args (k n : nat)
| M_Clear (k n : nat)      (* thread_is_sleep[i] = false *)
| M_Signal (k n : nat)
| M_Poll (k n : nat)
| M_Collect (k n : nat)
| M_Finish (k : nat)
| M_Join (k : nat)
| M_Exit.

#[global] Instance main_pc_eq_dec : EqDecision main_pc.
Proof. solve_decision. Defined.

Record pool : Type := mk_pool {
  m_pc : main_pc;
  round : nat;
  finished : bool;
  global_answers : list nat;
  workers : list worker;
}.

Definition new_worker : worker := mk_worker W_None false 0 [].

Definition init_pool (T : nat) : pool := mk_pool (M_Create 0) 0 false [] (replicate T new_worker).

(** ** Steps *)

Definition set_w_pc (p : worker_pc) (w : worker) : worker :=
  mk_worker p (thread_is_sleep w) (thread_args w) (local_answers w).
Definition set_sleep (b : bool) (w : worker) : worker :=
  mk_worker (w_pc w) b (thread_args w) (local_answers w).
Definition set_args (r : nat) (w : worker) : worker :=
  mk_worker (w_pc w) (thread_is_sleep w) r (local_answers w).
Definition set_answers (l : list nat) (w : worker) : worker :=
  mk_worker (w_pc w) (thread_is_sleep w) (thread_args w) l.

(** A step of a search thread on its own; [None] while it waits. *)
Definition worker_step (finished : bool) (w : worker) : option worker :=
  match w_pc w with
  | W_None | W_Wait | W_Exit => None
  | W_Lock => Some (set_w_pc W_Flag w)
  | W_Flag => Some (set_w_pc W_Cond (set_sleep true w))
  | W_Cond => Some (set_w_pc W_Wait w)
  | W_Wake => Some (set_w_pc W_Search w)
  | W_Search =>
      if finished then Some (set_w_pc W_Exit w)
      else Some (set_w_pc W_Lock (set_answers (local_answers w ++ [thread_args w]) w))
  end.

(** [pthread_cond_signal] or [pthread_cond_broadcast] under the mutex. *)
Definition signal (w : worker) : option worker :=
  match w_pc w with
  | W_Flag | W_Cond => None
  | W_Wait => Some (set_w_pc W_Wake w)
  | _ => Some w
  end.

Definition goto_main (m : main_pc) (p : pool) : pool :=
  mk_pool m (round p) (finished p) (global_answers p) (workers p).

(** The main thread changes thread [k] and goes on at [m]. *)
Definition main_update (p : pool) (k : nat) (f : worker → option worker) (m : main_pc) : option pool :=
  w ← workers p !! k;
  w' ← f w;
  Some (mk_pool m (round p) (finished p) (global_answers p) (<[k := w']> (workers p))).

(** A step of the main thread. At [M_Idle] the input decides: [Some n] is a query
    that needs [n] threads, [None] the end of the input. *)
Definition main_step (input : option nat) (p : pool) : option pool :=
  let T := length (workers p) in
  match m_pc p with
  | M_Create k =>
      if k <? T then main_update p k (λ w, Some (set_w_pc W_Lock (set_sleep false w))) (M_Started k)
      else Some (goto_main M_Idle p)
  | M_Started k =>
      w ← workers p !! k;
      Some (if thread_is_sleep w then goto_main (M_Create (S k)) p else p)
  | M_Idle =>
      match input with
      | Some n =>
          if n <=? T then Some (mk_pool (M_Args 0 n) (S (round p)) (finished p) [] (workers p)) else None
      | None => Some (mk_pool (M_Finish 0) (round p) true (global_answers p) (workers p))
      end
  | M_Args k n =>
      if k <? n then main_update p k (λ w, Some (set_args (round p) w)) (M_Args (S k) n)
      else Some (goto_main (M_Clear 0 n) p)
  | M_Clear k n =>
      if k <? n then main_update p k (λ w, Some (set_sleep false w)) (M_Clear (S k) n)
      else Some (goto_main (M_Signal 0 n) p)
  | M_Signal k n =>
      if k <? n then main_update p k signal (M_Signal (S k) n)
      else Some (goto_main (M_Poll 0 n) p)
  | M_Poll k n =>
      if k <? n then
        w ← workers p !! k;
        Some (goto_main (if thread_is_sleep w then M_Poll (S k) n else M_Poll 0 n) p)
      else Some (goto_main (M_Collect 0 n) p)
  | M_Collect k n =>
      if k <? T then
        w ← workers p !! k;
        Some (mk_pool (M_Collect (S k) n) (round p) (finished p) (global_answers p ++ local_answers w)
                (<[k := set_answers [] w]> (workers p)))
      else Some (goto_main M_Idle p)
  | M_Finish k =>
      if k <? T then main_update p k signal (M_Finish (S k))
      else Some (goto_main (M_Join 0) p)
  | M_Join k =>
      if k <? T then
        w ← workers p !! k;
        if decide (w_pc w = W_Exit) then Some (goto_main (M_Join (S k)) p) else None
      else Some (goto_main M_Exit p)
  | M_Exit => None
  end.

(** [spurious] allows [pthread_cond_wait] to return without a signal. *)
Inductive pool_step (spurious : bool) : pool → pool → Prop :=
| step_main input p p' : main_step input p = Some p' → pool_step spurious p p'
| step_worker k w w' p :
    workers p !! k = Some w → worker_step (finished p) w = Some w' →
    pool_step spurious p (mk_pool (m_pc p) (round p) (finished p) (global_answers p) (<[k := w']> (workers p)))
| step_spurious k w p :
    spurious = true → workers p !! k = Some w → w_pc w = W_Wait →
    pool_step spurious p (mk_pool (m_pc p) (round p) (finished p) (global_answers p)
      (<[k := set_w_pc W_Wake w]> (workers p))).

(** ** The invariant *)

Definition parked (w : worker) (l : list nat) : Prop :=
  (w_pc w = W_Cond ∨ w_pc w = W_Wait) ∧ thread_is_sleep w = true ∧ local_answers w = l.
Definition armed (w : worker) (r : nat) : Prop :=
  (w_pc w = W_Cond ∨ w_pc w = W_Wait) ∧ thread_is_sleep w = false ∧ local_answers w = [] ∧ thread_args w = r.
Definition working (w : worker) (r : nat) : Prop :=
  thread_is_sleep w = false ∧ thread_args w = r ∧
  (((w_pc w = W_Wake ∨ w_pc w = W_Search) ∧ local_answers w = []) ∨
   ((w_pc w = W_Lock ∨ w_pc w = W_Flag) ∧ local_answers w = [r])).
Definition active (w : worker) (r : nat) : Prop := working w r ∨ parked w [r].
Definition starting (w : worker) : Prop :=
  local_answers w = [] ∧
  ((thread_is_sleep w = false ∧ (w_pc w = W_Lock ∨ w_pc w = W_Flag)) ∨ parked w []).
Definition stopping (w : worker) : Prop := w_pc w = W_Wake ∨ w_pc w = W_Search ∨ w_pc w = W_Exit.

Definition worker_ok (m : main_pc) (r i : nat) (w : worker) : Prop :=
  match m with
  | M_Create k => (i < k → parked w []) ∧ (k ≤ i → w = new_worker)
  | M_Started k => (i < k → parked w []) ∧ (i = k → starting w) ∧ (k < i → w = new_worker)
  | M_Idle => parked w []
  | M_Args k n => parked w [] ∧ (i < k → thread_args w = r)
  | M_Clear k n => (i < k → armed w r) ∧ (k ≤ i → parked w [] ∧ (i < n → thread_args w = r))
  | M_Signal k n => (i < k → active w r) ∧ (k ≤ i < n → armed w r) ∧ (n ≤ i → parked w [])
  | M_Poll k n => (i < k → parked w [r]) ∧ (k ≤ i < n → active w r) ∧ (n ≤ i → parked w [])
  | M_Collect k n => (i < k → parked w []) ∧ (k ≤ i < n → parked w [r]) ∧ (n ≤ i → parked w [])
  | M_Finish k => (i < k → stopping w) ∧ (k ≤ i → parked w [])
  | M_Join k => stopping w ∧ (i < k → w_pc w = W_Exit)
  | M_Exit => w_pc w = W_Exit
  end.

Definition main_ok (T : nat) (p : pool) : Prop :=
  match m_pc p with
  | M_Create k => k ≤ T ∧ finished p = false
  | M_Started k => k < T ∧ finished p = false
  | M_Idle => finished p = false
  | M_Args k n | M_Clear k n | M_Signal k n | M_Poll k n => k ≤ n ≤ T ∧ finished p = false ∧ global_answers p = []
  | M_Collect k n => k ≤ T ∧ n ≤ T ∧ finished p = false ∧ global_answers p = replicate (min k n) (round p)
  | M_Finish k | M_Join k => k ≤ T ∧ finished p = true
  | M_Exit => finished p = true
  end.

Record pool_ok (T : nat) (p : pool) : Prop := {
  pok_len : length (workers p) = T;
  pok_main : main_ok T p;
  pok_workers : ∀ i w, workers p !! i = Some w → worker_ok (m_pc p) (round p) i w;
}.

(** ** Steps of a search thread *)

Lemma parked_step fin w w' l : parked w l → worker_step fin w = Some w' → parked w' l.
Proof.
  unfold parked, worker_step. intros ([Hp|Hp] & Hs & Ha) H; rewrite Hp in H; [|done].
  injection H as <-. simpl. auto.
Qed.

Lemma armed_step fin w w' r : armed w r → worker_step fin w = Some w' → armed w' r.
Proof.
  unfold armed, worker_step. intros ([Hp|Hp] & Hs & Ha) H; rewrite Hp in H; [|done].
  injection H as <-. simpl. auto.
Qed.

Lemma active_step w w' r : active w r → worker_step false w = Some w' → active w' r.
Proof.
  intros [(Hs & Ha & [[[Hp|Hp] Hl]|[[Hp|Hp] Hl]])|Hpk] H; [..|right; by eapply parked_step];
    unfold worker_step in H; rewrite Hp in H; injection H as <-; unfold active, working, parked; simpl;
    rewrite ?Hl, ?Ha, ?Hs; intuition.
Qed.

Lemma starting_step fin w w' : starting w → worker_step fin w = Some w' → starting w'.
Proof.
  intros [Hl [[Hs [Hp|Hp]]|Hpk]] H.
  - unfold worker_step in H. rewrite Hp in H. injection H as <-. unfold starting. simpl. auto.
  - unfold worker_step in H. rewrite Hp in H. injection H as <-. unfold starting, parked. simpl. auto 6.
  - assert (Hpk' := parked_step fin w w' [] Hpk H). split; [apply Hpk'|by right].
Qed.

Lemma stopping_step w w' : stopping w → worker_step true w = Some w' → stopping w'.
Proof.
  unfold stopping, worker_step. intros [Hp|[Hp|Hp]] H; rewrite Hp in H; [..|done]; injection H as <-; simpl; auto.
Qed.

Definition ending (m : main_pc) : bool :=
  match m with M_Finish _ | M_Join _ | M_Exit => true | _ => false end.

Lemma main_ok_finished T p : main_ok T p → finished p = ending (m_pc p).
Proof. unfold main_ok, ending. destruct (m_pc p); naive_solver. Qed.

Lemma worker_step_args fin w w' : worker_step fin w = Some w' → thread_args w' = thread_args w.
Proof. unfold worker_step. intros H. repeat case_match; by simplify_eq. Qed.

Lemma worker_step_new fin w w' : w = new_worker → worker_step fin w = Some w' → w' = new_worker.
Proof. by intros ->. Qed.

Lemma worker_step_exit fin w w' : w_pc w = W_Exit → worker_step fin w = Some w' → w_pc w' = W_Exit.
Proof. intros Hp H. unfold worker_step in H. by rewrite Hp in H. Qed.

Create HintDb worker_pool.
#[export] Hint Resolve parked_step armed_step active_step starting_step stopping_step : worker_pool.
#[export] Hint Resolve worker_step_new worker_step_exit : worker_pool.

Lemma worker_step_ok m r i w w' :
  worker_ok m r i w → worker_step (ending m) w = Some w' → worker_ok m r i w'.
Proof.
  intros Hok Hs. assert (Ha := worker_step_args _ _ _ Hs).
  destruct m; simpl in *; rewrite ?Ha; decompose [and] Hok; split_and?; intros; eauto with worker_pool; intuition eauto with worker_pool.
Qed.

(** ** Steps of the main thread *)

Lemma pool_ok_update T p k w w' m' fin' g' :
  pool_ok T p → workers p !! k = Some w →
  main_ok T (mk_pool m' (round p) fin' g' (<[k := w']> (workers p))) →
  (worker_ok (m_pc p) (round p) k w → worker_ok m' (round p) k w') →
  (∀ i w0, i ≠ k → worker_ok (m_pc p) (round p) i w0 → worker_ok m' (round p) i w0) →
  pool_ok T (mk_pool m' (round p) fin' g' (<[k := w']> (workers p))).
Proof.
  intros [Hl Hm Hw] Hk Hm' Hk' Hne. split; simpl; [by rewrite length_insert|done|].
  intros i w0 Hi. destruct (decide (i = k)) as [->|Hik].
  - rewrite list_lookup_insert_eq in Hi by (by eapply lookup_lt_Some). injection Hi as <-. by apply Hk', Hw.
  - rewrite list_lookup_insert_ne in Hi by done. by apply Hne, Hw.
Qed.

Lemma pool_ok_goto T p m' r' fin' g' :
  pool_ok T p → main_ok T (mk_pool m' r' fin' g' (workers p)) →
  (∀ i w0, i < T → worker_ok (m_pc p) (round p) i w0 → worker_ok m' r' i w0) →
  pool_ok T (mk_pool m' r' fin' g' (workers p)).
Proof.
  intros [Hl Hm Hw] Hm' Hne. split; simpl; [done|done|]. intros i w0 Hi.
  apply Hne; [rewrite <- Hl; by eapply lookup_lt_Some|by apply Hw].
Qed.

Lemma main_update_inv p k f m' p' :
  main_update p k f m' = Some p' →
  ∃ w w', workers p !! k = Some w ∧ f w = Some w' ∧
    p' = mk_pool m' (round p) (finished p) (global_answers p) (<[k := w']> (workers p)).
Proof.
  unfold main_update. destruct (workers p !! k) as [w|]; [|done]. simpl. destruct (f w) as [w'|] eqn:Hf; [|done].
  simpl. intros [= <-]. eauto.
Qed.

Lemma signal_armed w w' r : armed w r → signal w = Some w' → active w' r.
Proof.
  unfold armed, signal. intros ([Hp|Hp] & Hs & Hl & Ha) H; rewrite Hp in H; [done|]. injection H as <-.
  left. unfold working. simpl. auto 6.
Qed.

Lemma signal_parked w w' l : parked w l → signal w = Some w' → stopping w'.
Proof.
  unfold parked, signal. intros ([Hp|Hp] & _) H; rewrite Hp in H; [done|]. injection H as <-. by left.
Qed.

Lemma parked_set_args w l r : parked w l → parked (set_args r w) l.
Proof. done. Qed.
Lemma parked_armed w r : parked w [] → thread_args w = r → armed (set_sleep false w) r.
Proof. intros (Hp & _ & Hl) Ha. by split_and!. Qed.
Lemma parked_collect w l : parked w l → parked (set_answers [] w) [].
Proof. intros (Hp & Hs & _). by split_and!. Qed.
Lemma active_asleep w r : active w r → thread_is_sleep w = true → parked w [r].
Proof. intros [[Hs _]|?] Hs'; [congruence|done]. Qed.
Lemma starting_asleep w : starting w → thread_is_sleep w = true → parked w [].
Proof. intros [_ [[Hs _]|?]] Hs'; [congruence|done]. Qed.

#[export] Hint Resolve signal_armed signal_parked parked_set_args parked_armed parked_collect active_asleep starting_asleep : worker_pool.

Lemma main_start_ok T p p' input :
  pool_ok T p → main_step input p = Some p' →
  match m_pc p with M_Create _ | M_Started _ | M_Idle => True | _ => False end → pool_ok T p'.
Proof.
  intros Hok Hs Hm. unfold main_step in Hs. rewrite (pok_len _ _ Hok) in Hs.
  assert (Hmain := pok_main _ _ Hok). unfold main_ok in Hmain.
  destruct (m_pc p) as [k|k| | | | | | | | |] eqn:Hpc; try done.
  - destruct (k <? T) eqn:Hk; [apply Nat.ltb_lt in Hk|apply Nat.ltb_ge in Hk].
    + apply main_update_inv in Hs as (w & w' & Hw & [= <-] & ->).
      apply (pool_ok_update T p k w); [done|done|..]; rewrite ?Hpc; simpl.
      * unfold main_ok. simpl. naive_solver lia.
      * intros [_ ->]; [|done]. split_and!; [lia|..|lia]. intros _. split; [done|]. left. auto.
      * intros i w0 Hne [H1 H2]. split_and!; [done|lia|]. intros ?. apply H2. lia.
    + injection Hs as <-. apply pool_ok_goto; [done|naive_solver|]. rewrite Hpc. simpl. intros i w0 Hi [H1 _]. apply H1. lia.
  - destruct (workers p !! k) as [w|] eqn:Hw; [|done]. simpl in Hs. injection Hs as <-.
    destruct (thread_is_sleep w) eqn:Hsl; [|done].
    assert (Hwk := pok_workers _ _ Hok k w Hw). rewrite Hpc in Hwk. destruct Hwk as (_ & Hst & _).
    split; simpl; [apply Hok|unfold main_ok; simpl; naive_solver lia|].
    intros i w0 Hi. assert (Hwi := pok_workers _ _ Hok i w0 Hi). rewrite Hpc in Hwi. destruct Hwi as (H1 & H2 & H3).
    split; [|intros; apply H3; lia]. intros Hlt. destruct (decide (i = k)) as [->|]; [|apply H1; lia].
    simplify_eq. eauto with worker_pool.
  - destruct input as [n|].
    + destruct (n <=? T) eqn:Hn; [|done]. apply Nat.leb_le in Hn. injection Hs as <-.
      apply pool_ok_goto; [done|unfold main_ok; simpl; split_and!; (lia || done)|]. rewrite Hpc. simpl. intros i w0 _ Hp.
      split; [done|lia].
    + injection Hs as <-. apply pool_ok_goto; [done|unfold main_ok; simpl; split; [lia|done]|].
      rewrite Hpc. simpl. intros i w0 _ Hp. split; [lia|done].
Qed.

Lemma main_round_ok T p p' input :
  pool_ok T p → main_step input p = Some p' →
  match m_pc p with M_Args _ _ | M_Clear _ _ | M_Signal _ _ => True | _ => False end → pool_ok T p'.
Proof.
  intros Hok Hs Hm. unfold main_step in Hs.
  assert (Hmain := pok_main _ _ Hok). unfold main_ok in Hmain.
  destruct (m_pc p) as [| | |k n|k n|k n| | | | |] eqn:Hpc; try done; destruct Hmain as (Hkn & Hfin & Hg);
    (destruct (k <? n) eqn:Hk; [apply Nat.ltb_lt in Hk|apply Nat.ltb_ge in Hk]).
  - apply main_update_inv in Hs as (w & w' & Hw & [= <-] & ->).
    apply (pool_ok_update T p k w); [done|done|unfold main_ok; simpl; split_and!; (done || lia)|..]; rewrite Hpc; simpl.
    + intros [Hp _]. split; [by apply parked_set_args|done].
    + intros i w0 Hne [Hp Ha]. split; [done|]. intros ?. apply Ha. lia.
  - injection Hs as <-. apply pool_ok_goto; [done|unfold main_ok; simpl; split_and!; (done || lia)|].
    rewrite Hpc. simpl. intros i w0 Hi [Hp Ha]. split; [lia|]. intros _. split; [done|]. intros ?. apply Ha. lia.
  - apply main_update_inv in Hs as (w & w' & Hw & [= <-] & ->).
    apply (pool_ok_update T p k w); [done|done|unfold main_ok; simpl; split_and!; (done || lia)|..]; rewrite Hpc; simpl.
    + intros [_ Hp]. destruct Hp as [Hp Ha]; [lia|]. split; [|lia]. intros _. eauto with worker_pool.
    + intros i w0 Hne [H1 H2]. split; intros ?; [apply H1; lia|apply H2; lia].
  - injection Hs as <-. apply pool_ok_goto; [done|unfold main_ok; simpl; split_and!; (done || lia)|].
    rewrite Hpc. simpl. intros i w0 Hi [H1 H2]. split_and!; intros ?; [lia|apply H1; lia|apply H2; lia].
  - apply main_update_inv in Hs as (w & w' & Hw & Hsig & ->).
    apply (pool_ok_update T p k w); [done|done|unfold main_ok; simpl; split_and!; (done || lia)|..]; rewrite Hpc; simpl.
    + intros (_ & Ha & _). split_and!; [|lia|lia]. intros _. eapply signal_armed; [apply Ha; lia|done].
    + intros i w0 Hne (H1 & H2 & H3). split_and!; intros ?; [apply H1; lia|apply H2; lia|by apply H3].
  - injection Hs as <-. apply pool_ok_goto; [done|unfold main_ok; simpl; split_and!; (done || lia)|].
    rewrite Hpc. simpl. intros i w0 Hi (H1 & H2 & H3). split_and!; intros ?; [lia|apply H1; lia|by apply H3].
Qed.

Lemma main_gather_ok T p p' input :
  pool_ok T p → main_step input p = Some p' →
  match m_pc p with M_Poll _ _ | M_Collect _ _ => True | _ => False end → pool_ok T p'.
Proof.
  intros Hok Hs Hm. unfold main_step in Hs. rewrite (pok_len _ _ Hok) in Hs.
  assert (Hmain := pok_main _ _ Hok). unfold main_ok in Hmain.
  destruct (m_pc p) as [| | | | | |k n|k n| | |] eqn:Hpc; try done.
  - destruct Hmain as (Hkn & Hfin & Hg). destruct (k <? n) eqn:Hk; [apply Nat.ltb_lt in Hk|apply Nat.ltb_ge in Hk].
    + destruct (workers p !! k) as [w|] eqn:Hw; [|done]. simpl in Hs. injection Hs as <-.
      assert (Hwk := pok_workers _ _ Hok k w Hw). rewrite Hpc in Hwk. destruct Hwk as (_ & Hact & _).
      destruct (thread_is_sleep w) eqn:Hsl.
      * split; simpl; [apply Hok|unfold main_ok; simpl; split_and!; (done || lia)|].
        intros i w0 Hi. assert (Hwi := pok_workers _ _ Hok i w0 Hi). rewrite Hpc in Hwi. destruct Hwi as (H1 & H2 & H3).
        split_and!; intros ?; [|apply H2; lia|by apply H3]. destruct (decide (i = k)) as [->|]; [|apply H1; lia].
        simplify_eq. apply active_asleep; [apply Hact; lia|done].
      * apply pool_ok_goto; [done|unfold main_ok; simpl; split_and!; (done || lia)|]. rewrite Hpc. simpl.
        intros i w0 Hi (H1 & H2 & H3). split_and!; intros ?; [lia| |by apply H3].
        destruct (decide (i < k)); [right; by apply H1|apply H2; lia].
    + injection Hs as <-. apply pool_ok_goto; [done|unfold main_ok; simpl; split_and!; (done || lia)|].
      rewrite Hpc. simpl. intros i w0 Hi (H1 & H2 & H3). split_and!; intros ?; [lia|apply H1; lia|by apply H3].
  - destruct Hmain as (HkT & HnT & Hfin & Hg). destruct (k <? T) eqn:Hk; [apply Nat.ltb_lt in Hk|apply Nat.ltb_ge in Hk].
    + destruct (workers p !! k) as [w|] eqn:Hw; [|done]. simpl in Hs. injection Hs as <-.
      assert (Hwk := pok_workers _ _ Hok k w Hw). rewrite Hpc in Hwk. destruct Hwk as (_ & H2 & H3).
      apply (pool_ok_update T p k w); [done|done| |..]; rewrite ?Hpc.
      * unfold main_ok. cbn -[min replicate]. split_and!; [lia|done|done|]. rewrite Hg. destruct (decide (k < n)).
        -- destruct H2 as (_ & _ & ->); [lia|]. rewrite !Nat.min_l by lia.
           by rewrite <-replicate_cons_app.
        -- destruct H3 as (_ & _ & ->); [lia|]. rewrite app_nil_r. by rewrite !Nat.min_r by lia.
      * simpl. intros (_ & H2' & H3'). assert (Hpk : parked (set_answers [] w) []).
        { destruct (decide (k < n)); [eapply parked_collect, H2'; lia|eapply parked_collect, H3'; lia]. }
        split_and!; intros ?; [done|lia|done].
      * simpl. intros i w0 Hne (H1 & H2' & H3'). split_and!; intros ?; [apply H1; lia|apply H2'; lia|by apply H3'].
    + injection Hs as <-. apply pool_ok_goto; [done|unfold main_ok; simpl; done|].
      rewrite Hpc. simpl. intros i w0 Hi (H1 & _). apply H1. lia.
Qed.

Lemma main_stop_ok T p p' input :
  pool_ok T p → main_step input p = Some p' →
  match m_pc p with M_Finish _ | M_Join _ => True | _ => False end → pool_ok T p'.
Proof.
  intros Hok Hs Hm. unfold main_step in Hs. rewrite (pok_len _ _ Hok) in Hs.
  assert (Hmain := pok_main _ _ Hok). unfold main_ok in Hmain.
  destruct (m_pc p) as [| | | | | | | |k|k|] eqn:Hpc; try done; destruct Hmain as (HkT & Hfin);
    (destruct (k <? T) eqn:Hk; [apply Nat.ltb_lt in Hk|apply Nat.ltb_ge in Hk]).
  - apply main_update_inv in Hs as (w & w' & Hw & Hsig & ->).
    apply (pool_ok_update T p k w); [done|done|unfold main_ok; simpl; split; (done || lia)|..]; rewrite Hpc; simpl.
    + intros (_ & Hp). split; [|lia]. intros _. eapply signal_parked; [by apply Hp|done].
    + intros i w0 Hne (H1 & H2). split; intros ?; [apply H1; lia|apply H2; lia].
  - injection Hs as <-. apply pool_ok_goto; [done|unfold main_ok; simpl; split; (done || lia)|].
    rewrite Hpc. simpl. intros i w0 Hi (H1 & _). split; [apply H1; lia|lia].
  - destruct (workers p !! k) as [w|] eqn:Hw; [|done]. simpl in Hs. case_decide as Hex; [|done]. injection Hs as <-.
    split; simpl; [apply Hok|unfold main_ok; simpl; split; (done || lia)|].
    intros i w0 Hi. assert (Hwi := pok_workers _ _ Hok i w0 Hi). rewrite Hpc in Hwi. destruct Hwi as (H1 & H2).
    split; [done|]. intros ?. destruct (decide (i = k)) as [->|]; [by simplify_eq|apply H2; lia].
  - injection Hs as <-. apply pool_ok_goto; [done|unfold main_ok; simpl; done|].
    rewrite Hpc. simpl. intros i w0 Hi (_ & H2). apply H2. lia.
Qed.

Lemma main_step_ok T p p' input : pool_ok T p → main_step input p = Some p' → pool_ok T p'.
Proof.
  intros Hok Hs. destruct (m_pc p) eqn:Hpc;
    first [apply (main_start_ok T p p' input Hok Hs); by rewrite Hpc|apply (main_round_ok T p p' input Hok Hs); by rewrite Hpc
          |apply (main_gather_ok T p p' input Hok Hs); by rewrite Hpc|apply (main_stop_ok T p p' input Hok Hs); by rewrite Hpc|idtac].
  unfold main_step in Hs. by rewrite Hpc in Hs.
Qed.

Lemma worker_move_ok T p k w w' :
  pool_ok T p → workers p !! k = Some w → worker_step (finished p) w = Some w' →
  pool_ok T (mk_pool (m_pc p) (round p) (finished p) (global_answers p) (<[k := w']> (workers p))).
Proof.
  intros Hok Hk Hs. apply (pool_ok_update T p k w); [done|done|apply Hok| |done].
  intros Hw. apply (worker_step_ok _ _ _ w); [done|].
  by rewrite <- (main_ok_finished T p) by apply Hok.
Qed.

Lemma init_pool_ok T : pool_ok T (init_pool T).
Proof.
  split; simpl; [by rewrite length_replicate|unfold main_ok; simpl; split; [lia|done]|].
  intros i w [-> _]%lookup_replicate. split; [lia|done].
Qed.

(** The states of the program with [T] threads when [pthread_cond_wait] returns only
    after a signal. *)
Definition reachable (T : nat) : pool → Prop := rtc (pool_step false) (init_pool T).

Lemma pool_steps_ok T p p' : pool_ok T p → rtc (pool_step false) p p' → pool_ok T p'.
Proof.
  intros Hok Hr. induction Hr as [|p p1 p2 Hs _ IH]; [done|]. apply IH. destruct Hs; [|by eapply worker_move_ok|done].
  by eapply main_step_ok.
Qed.

Lemma pool_reachable_ok T p : reachable T p → pool_ok T p.
Proof. apply pool_steps_ok, init_pool_ok. Qed.

(** ** Schedules *)

(** One choice of the scheduler: a step of the main thread, of a search thread, or a
    wake-up of a search thread without a signal. *)
Inductive choice : Type := Main (input : option nat) | Worker (k : nat) | Spurious (k : nat).

Definition run_choice (c : choice) (p : pool) : option pool :=
  match c with
  | Main input => main_step input p
  | Worker k => main_update p k (worker_step (finished p)) (m_pc p)
  | Spurious k => main_update p k (λ w, if decide (w_pc w = W_Wait) then Some (set_w_pc W_Wake w) else None) (m_pc p)
  end.

Fixpoint run_choices (cs : list choice) (p : pool) : option pool :=
  match cs with
  | [] => Some p
  | c :: cs => p' ← run_choice c p; run_choices cs p'
  end.

Definition is_spurious (c : choice) : bool := match c with Spurious _ => true | _ => false end.

Lemma run_choice_step c p p' : run_choice c p = Some p' → pool_step (is_spurious c) p p'.
Proof.
  destruct c as [input|k|k]; simpl; intros H; [by apply (step_main _ input)|..];
    apply main_update_inv in H as (w & w' & Hw & Hf & ->); [by apply (step_worker _ k w)|].
  case_decide; [|done]. injection Hf as <-. by apply (step_spurious _ k w).
Qed.

Lemma pool_step_spurious p p' b : pool_step b p p' → pool_step true p p'.
Proof. destruct 1; [by eapply step_main|by eapply step_worker|by eapply step_spurious]. Qed.

Lemma run_choices_spurious cs p p' : run_choices cs p = Some p' → rtc (pool_step true) p p'.
Proof.
  revert p. induction cs as [|c cs IH]; simpl; intros p H; [by injection H as <-|].
  destruct (run_choice c p) as [p1|] eqn:Hc; [|done]. simpl in H.
  eapply rtc_l; [eapply pool_step_spurious, run_choice_step, Hc|by apply IH].
Qed.

Lemma run_choices_reachable cs p p' :
  forallb (λ c, negb (is_spurious c)) cs = true → run_choices cs p = Some p' → rtc (pool_step false) p p'.
Proof.
  revert p. induction cs as [|c cs IH]; simpl; intros p Hc H; [by injection H as <-|].
  apply andb_true_iff in Hc as [Hc Hcs]. apply negb_true_iff in Hc.
  destruct (run_choice c p) as [p1|] eqn:Hp; [|done]. simpl in H.
  eapply rtc_l; [|by apply IH]. rewrite <- Hc. by apply run_choice_step.
Qed.

(** ** Progress *)

(** Steps a search thread can still make before it waits or ends. *)
Definition worker_rank (w : worker) : nat :=
  match w_pc w with
  | W_None | W_Wait | W_Exit => 0
  | W_Cond => 1 | W_Flag => 2 | W_Lock => 3 | W_Search => 4 | W_Wake => 5
  end.

Lemma worker_rank_step fin w : worker_rank w ≠ 0 → ∃ w', worker_step fin w = Some w' ∧ worker_rank w' < worker_rank w.
Proof.
  unfold worker_rank, worker_step. intros H.
  destruct (w_pc w) eqn:Hp; try done; try (destruct fin); eexists; (split; [reflexivity|]); simpl; lia.
Qed.

Definition quiet (p : pool) : Prop := ∀ k w, workers p !! k = Some w → worker_rank w = 0.

Definition rank (ws : list worker) : nat := sum_list (worker_rank <$> ws).

Lemma rank_insert ws k w w' :
  ws !! k = Some w → rank (<[k := w']> ws) + worker_rank w = rank ws + worker_rank w'.
Proof.
  unfold rank. revert k. induction ws as [|v ws IH]; intros [|k] H; simplify_eq/=; [lia|].
  specialize (IH k H). lia.
Qed.

(** The search threads can run until each of them waits or has ended. *)
Lemma settle p :
  ∃ p', rtc (pool_step false) p p' ∧ quiet p' ∧ m_pc p' = m_pc p ∧ round p' = round p.
Proof.
  remember (rank (workers p)) as n eqn:Hn. revert p Hn. induction n as [n IH] using lt_wf_ind. intros p ->.
  destruct (decide (Forall (λ w, worker_rank w = 0) (workers p))) as [Hq|Hq].
  - exists p. split_and!; [done| |done|done]. intros k w Hk. by eapply Forall_lookup_1 in Hq.
  - apply not_Forall_Exists in Hq; [|solve_decision]. apply Exists_exists in Hq as (w & [k Hk]%list_elem_of_lookup & Hw).
    destruct (worker_rank_step (finished p) w Hw) as (w' & Hs & Hr).
    assert (Hrk := rank_insert _ _ _ w' Hk).
    destruct (IH (rank (<[k := w']> (workers p))) ltac:(lia)
      (mk_pool (m_pc p) (round p) (finished p) (global_answers p) (<[k := w']> (workers p))) eq_refl) as (p' & Hp & Hq & Hm & Hro).
    exists p'. split_and!; [|done|done|done]. eapply rtc_l; [by apply (step_worker _ k w)|done].
Qed.

(** Steps of the main thread until it waits for a command, or has ended. *)
Definition main_rank (T : nat) (m : main_pc) : nat :=
  match m with
  | M_Idle | M_Exit => 0
  | M_Create k => 2 * (T - k) + 1
  | M_Started k => 2 * (T - k)
  | M_Args k n => (n - k) + 3 * (n + 1) + T + 2
  | M_Clear k n => (n - k) + 2 * (n + 1) + T + 2
  | M_Signal k n => (n - k) + (n + 1) + T + 2
  | M_Poll k n => (n - k) + T + 2
  | M_Collect k _ | M_Join k => (T - k) + 1
  | M_Finish k => (T - k) + T + 2
  end.

Lemma quiet_parked w l : parked w l → worker_rank w = 0 → w_pc w = W_Wait.
Proof. unfold worker_rank. intros [[Hp|Hp] _]; by rewrite Hp. Qed.
Lemma quiet_armed w r : armed w r → worker_rank w = 0 → w_pc w = W_Wait.
Proof. unfold worker_rank. intros [[Hp|Hp] _]; by rewrite Hp. Qed.
Lemma quiet_active w r : active w r → worker_rank w = 0 → thread_is_sleep w = true.
Proof.
  unfold worker_rank. intros [(_ & _ & [[[Hp|Hp] _]|[[Hp|Hp] _]])|(_ & ? & _)]; [rewrite Hp; done..|done].
Qed.
Lemma quiet_starting w : starting w → worker_rank w = 0 → thread_is_sleep w = true.
Proof. unfold worker_rank. intros [_ [[_ [Hp|Hp]]|(_ & ? & _)]]; [rewrite Hp; done..|done]. Qed.
Lemma quiet_stopping w : stopping w → worker_rank w = 0 → w_pc w = W_Exit.
Proof. unfold worker_rank. by intros [Hp|[Hp|Hp]]; rewrite Hp. Qed.

Definition waits (m : main_pc) : Prop := m = M_Idle ∨ m = M_Exit.

(** When all search threads wait, the main thread gets on. *)
Lemma main_progress T p :
  pool_ok T p → quiet p → ¬ waits (m_pc p) →
  ∃ p', main_step None p = Some p' ∧ main_rank T (m_pc p') < main_rank T (m_pc p) ∧
    round p' = round p ∧ ending (m_pc p') = ending (m_pc p).
Proof.
  intros Hok Hq Hnw. unfold waits in Hnw. unfold main_step, main_update. rewrite (pok_len _ _ Hok).
  assert (Hmain := pok_main _ _ Hok). unfold main_ok in Hmain.
  assert (Hlk : ∀ k, k < T → ∃ w, workers p !! k = Some w ∧ worker_ok (m_pc p) (round p) k w ∧ worker_rank w = 0).
  { intros k Hk. rewrite <- (pok_len _ _ Hok) in Hk. apply lookup_lt_is_Some in Hk as [w Hw].
    exists w. split_and!; [done|by apply (pok_workers _ _ Hok)|by eapply Hq]. }
  destruct (m_pc p) as [k|k| |k n|k n|k n|k n|k n|k|k|] eqn:Hpc; try tauto;
    try (match goal with |- context [?a <? ?b] => destruct (a <? b) eqn:Hk; [apply Nat.ltb_lt in Hk|apply Nat.ltb_ge in Hk] end);
    try (eexists; split; [reflexivity|]; simpl; split_and!; (done || lia));
    destruct (Hlk k ltac:(lia)) as (w & -> & Hw & Hr); simpl in *;
    try (eexists; split; [reflexivity|]; simpl; split_and!; (done || lia)).
  - rewrite (quiet_starting w) by (done || naive_solver).
    eexists; split; [reflexivity|]; simpl; split_and!; (done || lia).
  - unfold signal. rewrite (quiet_armed w (round p)) by (done || naive_solver). simpl.
    eexists; split; [reflexivity|]; simpl; split_and!; (done || lia).
  - rewrite (quiet_active w (round p)) by (done || naive_solver).
    eexists; split; [reflexivity|]; simpl; split_and!; (done || lia).
  - unfold signal. rewrite (quiet_parked w []) by (done || naive_solver). simpl.
    eexists; split; [reflexivity|]; simpl; split_and!; (done || lia).
  - rewrite decide_True by (apply quiet_stopping; naive_solver).
    eexists; split; [reflexivity|]; simpl; split_and!; (done || lia).
Qed.

Lemma pool_completes T p :
  pool_ok T p →
  ∃ p', rtc (pool_step false) p p' ∧ round p' = round p ∧ m_pc p' = if ending (m_pc p) then M_Exit else M_Idle.
Proof.
  remember (main_rank T (m_pc p)) as n eqn:Hn. revert p Hn. induction n as [n IH] using lt_wf_ind. intros p -> Hok.
  destruct (settle p) as (p1 & Hr1 & Hq1 & Hm1 & Hro1). assert (Hok1 := pool_steps_ok _ _ _ Hok Hr1).
  rewrite <- Hm1, <- Hro1 in *.
  destruct (decide (m_pc p1 = M_Idle)) as [Hi|Hi]; [exists p1; split_and!; [done..|by rewrite Hi]|].
  destruct (decide (m_pc p1 = M_Exit)) as [He|He]; [exists p1; split_and!; [done..|by rewrite He]|].
  destruct (main_progress T p1 Hok1 Hq1) as (p2 & Hs & Hlt & Hro & Hend); [by intros [?|?]|].
  destruct (IH _ Hlt p2 eq_refl (main_step_ok _ _ _ _ Hok1 Hs)) as (p3 & Hr3 & Hro3 & Hm3).
  exists p3. split_and!; [|congruence|by rewrite Hm3, Hend].
  etrans; [done|]. eapply rtc_l; [by apply (step_main _ None)|done].
Qed.

(** ** Properties *)

(** C20. If [pthread_cond_wait] returns only after a signal (without spurious wake-ups),
    then, when [search_all_patterns] has collected the answers of a query that it gave
    to [n] of the [T] threads, the answers are exactly one search of this query
    by each of these threads: no answer of an earlier query, none missing and
    none twice; and every thread is asleep with an empty answer vector. *)
Theorem round_collects T p n :
  reachable T p → m_pc p = M_Collect T n →
  global_answers p = replicate n (round p) ∧
  ∀ k w, workers p !! k = Some w → thread_is_sleep w = true ∧ local_answers w = [] ∧ (w_pc w = W_Cond ∨ w_pc w = W_Wait).
Proof.
  intros Hr Hpc. destruct (pool_reachable_ok _ _ Hr) as [Hl Hm Hw]. unfold main_ok in Hm. rewrite Hpc in *.
  destruct Hm as (_ & HnT & _ & Hg). split; [by rewrite Nat.min_r in Hg by lia|].
  intros k w Hk. destruct (Hw k w Hk) as [H _]. destruct H as (? & ? & ?); [|done].
  rewrite <- Hl. by eapply lookup_lt_Some.
Qed.

(** The main thread and the search threads never block each other: from every
    state, the main thread can arrive at the next command, or, after the end of
    the input, at the end of the program with all threads ended; the query being
    answered is finished and none is skipped. *)
Theorem rounds_complete T p :
  reachable T p →
  ∃ p', rtc (pool_step false) p p' ∧ round p' = round p ∧
    if ending (m_pc p) then m_pc p' = M_Exit ∧ Forall (λ w, w_pc w = W_Exit) (workers p') else m_pc p' = M_Idle.
Proof.
  intros Hok%pool_reachable_ok. destruct (pool_completes T p Hok) as (p' & Hr & Hro & Hm).
  exists p'. split_and!; [done..|]. destruct (ending (m_pc p)); [|done]. split; [done|].
  apply Forall_lookup_2. intros k w Hk. assert (H := pok_workers _ _ (pool_steps_ok _ _ _ Hok Hr) k w Hk).
  by rewrite Hm in H.
Qed.

(** A run with two threads up to the end of the first query, for one of them. *)
Definition sample_schedule : list choice :=
  [Main None; Worker 0; Worker 0; Worker 0; Main None; Main None; Worker 1; Worker 1; Worker 1; Main None; Main None;
   Main (Some 1); Main None; Main None; Main None; Main None; Main None; Main None; Main None;
   Worker 0; Worker 0; Worker 0; Worker 0; Main None; Main None; Main None; Main None].

Definition sample_pool : pool := Eval vm_compute in default (init_pool 2) (run_choices sample_schedule (init_pool 2)).

Lemma sample_pool_reachable : reachable 2 sample_pool.
Proof. by apply (run_choices_reachable sample_schedule). Qed.

Lemma round_collects_witness :
  m_pc sample_pool = M_Collect 2 1 ∧ global_answers sample_pool = [1].
Proof. split; [done|]. apply (round_collects 2 sample_pool 1 sample_pool_reachable). done. Defined.

Lemma rounds_complete_witness :
  ∃ p', rtc (pool_step false) sample_pool p' ∧ round p' = 1 ∧ m_pc p' = M_Idle.
Proof. apply (rounds_complete 2 sample_pool sample_pool_reachable). Defined.

(** If [pthread_cond_wait] may also return without a signal, as POSIX allows, a
    thread searches with whatever arguments it has and its answers go to the
    next query: [search_substring] does not test a condition after the wait. *)
Theorem spurious_wakeup_breaks :
  ∃ p, rtc (pool_step true) (init_pool 1) p ∧ m_pc p = M_Collect 1 1 ∧ round p = 1 ∧ global_answers p = [0; 1].
Proof.
  set (cs := [Main None; Worker 0; Worker 0; Worker 0; Main None; Main None; Spurious 0; Worker 0; Worker 0;
    Worker 0; Worker 0; Worker 0; Main (Some 1); Main None; Main None; Main None; Main None; Main None; Main None;
    Worker 0; Worker 0; Worker 0; Worker 0; Main None; Main None; Main None]).
  assert (Hrun : is_Some (run_choices cs (init_pool 1))) by (vm_compute; eauto).
  destruct Hrun as [p Hp]. exists p. split; [by apply (run_choices_spurious cs)|].
  vm_compute in Hp. by injection Hp as <-.
Qed.
