(* ===== verification/ListSet.v ===== *)
(** What the linked-list programs of [lab11] share: nodes in memory, the workload
    of a thread, the check of the final list in [main], the segments of a linked
    list, and the specification of a sorted list and of a set of keys. *)
From stdpp Require Import functions base tactics numbers option list list_numbers gmap sets relations sorting.
From Stdlib Require Import ZArith Lia Ascii.
From S2P Require Import Prelude.

(** ** Memory *)

(** A pointer to a node; [Uninit] is what [malloc] leaves in the field [next]. *)
Inductive ptr : Type := Uninit | NULL | Addr (a : nat).

#[global] Instance ptr_eq_dec : EqDecision ptr.
Proof. solve_decision. Defined.

#[global] Instance Addr_inj : Inj (=) (=) Addr.
Proof. by intros a b [= ->]. Qed.

Record Node : Type := mk_Node { key : Z; next : ptr }.

#[global] Instance Node_eq_dec : EqDecision Node.
Proof. solve_decision. Defined.

(** The allocated nodes; a freed one is no longer in the map. *)
Notation memory := (gmap nat Node).

(** [*p]; following a null, freed or uninitialised pointer is undefined. *)
Definition load (h : memory) (p : ptr) : res Node :=
  match p with
  | Addr a => match h !! a with Some n => Ok n | None => Err UndefinedBehaviour end
  | _ => Err UndefinedBehaviour
  end.

(** [p->next = q] *)
Definition store_next (h : memory) (p q : ptr) : res memory :=
  match p with
  | Addr a => match h !! a with Some n => Ok (<[a := mk_Node (key n) q]> h) | None => Err UndefinedBehaviour end
  | _ => Err UndefinedBehaviour
  end.

(** [free(p)] *)
Definition free (h : memory) (p : ptr) : res memory :=
  match p with
  | Addr a => match h !! a with Some _ => Ok (delete a h) | None => Err UndefinedBehaviour end
  | _ => Err UndefinedBehaviour
  end.

(** [list_init], with the addresses that [malloc] returns. *)
Definition list_init (head tail : nat) : memory :=
  <[tail := mk_Node INT_MAX NULL]> {[head := mk_Node INT_MIN (Addr tail)]}.

(** ** The workload and the final check *)

Record Work : Type := mk_Work { work_type : ascii; value : Z }.

#[global] Instance Work_eq_dec : EqDecision Work.
Proof. solve_decision. Defined.

(** The three kinds of work; any other character is skipped. *)
Inductive action : Type := Add (k : Z) | Remove (k : Z) | Contains (k : Z).

Definition action_of (w : Work) : option action :=
  if decide (work_type w = "A"%char) then Some (Add (value w))
  else if decide (work_type w = "R"%char) then Some (Remove (value w))
  else if decide (work_type w = "C"%char) then Some (Contains (value w))
  else None.

(** The loop of [main] that compares the list with the numbers of the result file. *)
Fixpoint check_result (h : memory) (tail it : ptr) (result : list Z) : res (bool * ptr) :=
  match result with
  | [] => Ok (true, it)
  | v :: result =>
      if decide (it = tail) then Ok (false, it)
      else n ← load h it;
           if decide (key n = v) then check_result h tail (next n) result else Ok (false, it)
  end.

Definition validate (h : memory) (head tail : ptr) (result : list Z) : res bool :=
  n ← load h head;
  '(is_valid, it) ← check_result h tail (next n) result;
  Ok (if decide (it = tail) then is_valid else false).

(** ** Specification *)

(** A sorted list with repetitions. *)
Fixpoint ins (k : Z) (l : list Z) : list Z :=
  match l with
  | [] => [k]
  | x :: l' => if (x <? k)%Z then x :: ins k l' else k :: l
  end.

Fixpoint del (k : Z) (l : list Z) : list Z :=
  match l with
  | [] => []
  | x :: l' => if (x <? k)%Z then x :: del k l' else if (x =? k)%Z then l' else l
  end.

Definition spec_list (l : list Z) (a : action) : list Z * bool :=
  match a with
  | Add k => (ins k l, true)
  | Remove k => (del k l, bool_decide (k ∈ l))
  | Contains k => (l, bool_decide (k ∈ l))
  end.

(** A set. *)
Definition spec_set (S : gset Z) (a : action) : gset Z * bool :=
  match a with
  | Add k => ({[k]} ∪ S, bool_decide (k ∉ S))
  | Remove k => (S ∖ {[k]}, bool_decide (k ∈ S))
  | Contains k => (S, bool_decide (k ∈ S))
  end.

(** The state after a sequence of actions, if all of them had the given results. *)
Fixpoint replay_actions {S} (spec : S → action → S * bool) (s : S) (log : list (nat * action * bool)) : option S :=
  match log with
  | [] => Some s
  | (_, a, b) :: log =>
      let '(s', b') := spec s a in
      if decide (b = b') then replay_actions spec s' log else None
  end.

Lemma replay_actions_snoc {S} (spec : S → action → S * bool) s log t a s' :
  replay_actions spec s log = Some s' →
  replay_actions spec s (log ++ [(t, a, snd (spec s' a))]) = Some (fst (spec s' a)).
Proof.
  revert s. induction log as [|[[t0 a0] b0] log IH]; simpl; intros s H.
  - injection H as <-. destruct (spec s a) as [s1 b1]. simpl. by rewrite decide_True.
  - destruct (spec s a0) as [s1 b1]. case_decide; [|done]. by apply IH.
Qed.

(** The actions that thread [t] has made. *)
Definition actions_of (t : nat) (log : list (nat * action * bool)) : list action :=
  (λ e, snd (fst e)) <$> filter (λ e, fst (fst e) = t) log.

Lemma actions_of_snoc t log u a b :
  actions_of t (log ++ [(u, a, b)]) = actions_of t log ++ (if decide (u = t) then [a] else []).
Proof.
  unfold actions_of. rewrite filter_app, fmap_app. f_equal. by rewrite filter_cons; simpl; case_decide.
Qed.

(** Values that do not meet the sentinels. *)
Definition in_range (k : Z) : Prop := (INT_MIN ≤ k < INT_MAX)%Z.

Definition action_key (a : action) : Z := match a with Add k | Remove k | Contains k => k end.

(** ** Segments of a linked list *)

(** [R a k q]: the node at [a] has the key [k] and the successor [q]. *)
Section segments.
  Context (R : nat → Z → ptr → Prop).

Fixpoint lseg (p : ptr) (L : list (nat * Z)) (q : ptr) : Prop :=
  match L with
  | [] => p = q
  | (a, k) :: L => p = Addr a ∧ ∃ nx, R a k nx ∧ lseg nx L q
  end.

Lemma lseg_app p L1 L2 q : lseg p (L1 ++ L2) q ↔ ∃ r, lseg p L1 r ∧ lseg r L2 q.
Proof.
  revert p. induction L1 as [|[a k] L1 IH]; intros p; simpl; [naive_solver|].
  setoid_rewrite IH. naive_solver.
Qed.

End segments.

Lemma lseg_mono (R R' : nat → Z → ptr → Prop) p L q :
  (∀ a k nx, (a, k) ∈ L → R a k nx → R' a k nx) → lseg R p L q → lseg R' p L q.
Proof.
  revert p. induction L as [|[a k] L IH]; intros p HR; simpl; [done|]. intros (-> & nx & H1 & H2). split; [done|].
  exists nx. split; [apply HR; [by left|done]|]. apply IH; [|done]. intros; apply HR; [by right|done].
Qed.

Lemma lseg_head R p a k L q : lseg R p ((a, k) :: L) q → p = Addr a.
Proof. by intros [? _]. Qed.

Lemma lseg_lookup R p L q i a k :
  lseg R p L q → L !! i = Some (a, k) → ∃ nx, R a k nx ∧ (∀ b kb, L !! S i = Some (b, kb) → nx = Addr b).
Proof.
  revert p i. induction L as [|[b kb] L IH]; intros p [|i]; simpl; [done..| |].
  - intros (-> & nx & HR & Hs) [= <- <-]. exists nx. split; [done|]. intros b' kb' Hb. destruct L as [|[c kc] L]; [done|].
    simpl in Hb. simplify_eq. by apply lseg_head in Hs.
  - intros (-> & nx & HR & Hs) Hi. by eapply IH.
Qed.

(** A new node between two neighbours. *)
Lemma lseg_insert R R' p q L1 a ka c kc L2 node k :
  lseg R p (L1 ++ (a, ka) :: (c, kc) :: L2) q → NoDup (L1 ++ (a, ka) :: (c, kc) :: L2).*1 →
  node ∉ (L1 ++ (a, ka) :: (c, kc) :: L2).*1 →
  (∀ b kb nx, b ≠ a → b ≠ node → R b kb nx → R' b kb nx) → R' a ka (Addr node) → R' node k (Addr c) →
  lseg R' p (L1 ++ (a, ka) :: (node, k) :: (c, kc) :: L2) q ∧ NoDup (L1 ++ (a, ka) :: (node, k) :: (c, kc) :: L2).*1.
Proof.
  rewrite !fmap_app, !fmap_cons. simpl. intros Hs Hnd Hn HR Ha Hnode.
  apply NoDup_app in Hnd as (Hnd1 & Hd & [Ha2 Hnd2]%NoDup_cons).
  assert (Hb : ∀ b kb, (b, kb) ∈ L1 ∨ (b, kb) ∈ (c, kc) :: L2 → b ≠ a ∧ b ≠ node).
  { intros b kb H. assert (b ∈ L1.*1 ∨ b ∈ ((c, kc) :: L2).*1) by (destruct H; [left|right]; by apply (list_elem_of_fmap_2 fst) in H).
    split; intros ->; [|apply Hn]; set_solver. }
  split.
  - apply lseg_app in Hs as (r & H1 & -> & nx & _ & H2). apply lseg_app. exists (Addr a). split.
    + revert H1. apply lseg_mono. intros b kb nx' Hin. apply HR; by eapply Hb; left.
    + split; [done|]. exists (Addr node). split; [done|]. split; [done|]. exists (Addr c). split; [done|].
      rewrite (lseg_head _ _ _ _ _ _ H2) in H2. revert H2. apply lseg_mono. intros b kb nx' Hin. apply HR; by eapply Hb; right.
  - apply NoDup_app. split_and!; [done|set_solver|]. rewrite !NoDup_cons in *. set_solver.
Qed.

(** A node taken out. *)
Lemma lseg_remove R R' p q L1 a ka c kc L2 :
  lseg R p (L1 ++ (a, ka) :: (c, kc) :: L2) q → NoDup (L1 ++ (a, ka) :: (c, kc) :: L2).*1 →
  (∀ b kb nx, b ≠ a → b ≠ c → R b kb nx → R' b kb nx) → (∀ nx, R c kc nx → R' a ka nx) →
  lseg R' p (L1 ++ (a, ka) :: L2) q ∧ NoDup (L1 ++ (a, ka) :: L2).*1.
Proof.
  rewrite !fmap_app, !fmap_cons. simpl. intros Hs Hnd HR Ha.
  apply NoDup_app in Hnd as (Hnd1 & Hd & [Ha2 [Hc2 Hnd2]%NoDup_cons]%NoDup_cons).
  assert (Hb : ∀ b kb, (b, kb) ∈ L1 ∨ (b, kb) ∈ L2 → b ≠ a ∧ b ≠ c).
  { intros b kb H. assert (b ∈ L1.*1 ∨ b ∈ L2.*1) by (destruct H; [left|right]; by apply (list_elem_of_fmap_2 fst) in H).
    split; intros ->; set_solver. }
  split.
  - apply lseg_app in Hs as (r & H1 & -> & nx & _ & -> & nx' & Hc & H2). apply lseg_app. exists (Addr a). split.
    + revert H1. apply lseg_mono. intros b kb nx0 Hin. apply HR; by eapply Hb; left.
    + split; [done|]. exists nx'. split; [by apply Ha|]. revert H2. apply lseg_mono. intros b kb nx0 Hin. apply HR; by eapply Hb; right.
  - apply NoDup_app. split_and!; [done|set_solver|]. rewrite NoDup_cons. set_solver.
Qed.

Lemma lseg_link R p L1 a k b kb L2 q : lseg R p (L1 ++ (a, k) :: (b, kb) :: L2) q → R a k (Addr b).
Proof. intros (r & _ & -> & nx & H & -> & _)%lseg_app. done. Qed.

(** ** Sorted lists *)

Lemma ins_split k l1 l2 :
  Forall (λ x, x < k)%Z l1 → Forall (λ x, k ≤ x)%Z l2 → ins k (l1 ++ l2) = l1 ++ k :: l2.
Proof.
  induction 1 as [|x l1 Hx _ IH]; intros H2; simpl.
  - destruct H2 as [|x l2 Hx _]; simpl; [done|]. by rewrite (proj2 (Z.ltb_ge _ _)) by lia.
  - rewrite (proj2 (Z.ltb_lt _ _)) by lia. by rewrite IH.
Qed.

Lemma del_split_found k l1 l2 : Forall (λ x, x < k)%Z l1 → del k (l1 ++ k :: l2) = l1 ++ l2.
Proof.
  induction 1 as [|x l1 Hx _ IH]; simpl.
  - by rewrite Z.ltb_irrefl, Z.eqb_refl.
  - rewrite (proj2 (Z.ltb_lt _ _)) by lia. by rewrite IH.
Qed.

Lemma del_split_absent k l1 l2 :
  Forall (λ x, x < k)%Z l1 → Forall (λ x, k < x)%Z l2 → del k (l1 ++ l2) = l1 ++ l2.
Proof.
  induction 1 as [|x l1 Hx _ IH]; intros H2; simpl.
  - destruct H2 as [|x l2 Hx _]; simpl; [done|].
    rewrite (proj2 (Z.ltb_ge _ _)) by lia. by rewrite (proj2 (Z.eqb_neq _ _)) by lia.
  - rewrite (proj2 (Z.ltb_lt _ _)) by lia. by rewrite IH.
Qed.

Lemma elem_of_split k l1 l2 :
  Forall (λ x, x < k)%Z l1 → Forall (λ x, k < x)%Z l2 → k ∉ l1 ++ l2.
Proof.
  intros H1 H2 [Hk|Hk]%elem_of_app; eapply Forall_forall in Hk; try eassumption; simpl in Hk; lia.
Qed.

Lemma sorted_insert (P : Z → Z → Prop) k l1 l2 :
  StronglySorted P (l1 ++ l2) → Forall (λ x, P x k) l1 → Forall (P k) l2 → StronglySorted P (l1 ++ k :: l2).
Proof.
  induction l1 as [|x l1 IH]; simpl; intros Hs H1 H2; [by constructor|].
  apply StronglySorted_cons in Hs as [Hx Hs]. apply Forall_cons in H1 as [H0 H1].
  constructor; [by apply IH|]. apply Forall_app in Hx as [Hx1 Hx2]. apply Forall_app. split; [done|by constructor].
Qed.

Lemma sorted_delete (P : Z → Z → Prop) l1 k l2 : StronglySorted P (l1 ++ k :: l2) → StronglySorted P (l1 ++ l2).
Proof.
  induction l1 as [|x l1 IH]; simpl; intros [Hx Hs]%StronglySorted_cons; [done|].
  constructor; [by apply IH|]. apply Forall_app in Hx as [Hx1 [_ Hx2]%Forall_cons]. by apply Forall_app.
Qed.

Lemma sorted_lt_le l : StronglySorted Z.lt l → StronglySorted Z.le l.
Proof.
  induction 1 as [|x l Hs IH Hx]; constructor; [done|]. eapply Forall_impl; [exact Hx|]. simpl. lia.
Qed.

(** ** Adding an element in the middle *)

Lemma elem_of_middle {A B} (f : A → B) p F1 x n F2 :
  p ∈ f <$> (F1 ++ x :: n :: F2) ↔ p = f n ∨ p ∈ f <$> (F1 ++ x :: F2).
Proof. rewrite !fmap_app, !fmap_cons. set_solver. Qed.

Lemma NoDup_middle {A B} (f : A → B) F1 x y F2 : NoDup (f <$> (F1 ++ x :: y :: F2)) → f y ∉ f <$> (F1 ++ x :: F2).
Proof.
  intros Hnd. assert (Hp : F1 ++ x :: y :: F2 ≡ₚ y :: F1 ++ x :: F2) by (rewrite (Permutation_swap y x), <- Permutation_middle; done).
  rewrite Hp in Hnd. by apply NoDup_cons in Hnd as [? _].
Qed.

Lemma spec_set_add (M L : list (nat * Z)) a k :
  k ∉ (M ++ L).*2 → spec_set (list_to_set (M ++ L).*2) (Add k) = (list_to_set (M ++ (a, k) :: L).*2, true).
Proof.
  intros Hk. simpl. rewrite bool_decide_eq_true_2 by (by rewrite elem_of_list_to_set). f_equal.
  rewrite !fmap_app, fmap_cons. set_solver.
Qed.

Lemma spec_set_remove (M L : list (nat * Z)) a k :
  k ∉ (M ++ L).*2 → spec_set (list_to_set (M ++ (a, k) :: L).*2) (Remove k) = (list_to_set (M ++ L).*2, true).
Proof.
  rewrite !fmap_app, fmap_cons. intros Hk. simpl. rewrite bool_decide_eq_true_2 by set_solver. f_equal. set_solver.
Qed.

(** ** Neighbours in a changing list *)

(** The nodes of the list with the sentinels. *)
Definition full_list (head tail : nat) (L : list (nat * Z)) : list (nat * Z) := (head, INT_MIN) :: L ++ [(tail, INT_MAX)].

(** Neighbours; the second component is the search key, which is above the first node. *)
Definition adj (F : list (nat * Z)) (k : Z) (prev curr : ptr) (kc : Z) : Prop :=
  ∃ i b kb c, F !! i = Some (b, kb) ∧ F !! S i = Some (c, kc) ∧ prev = Addr b ∧ curr = Addr c ∧ (i = 0 ∨ (kb < k)%Z).

Definition at_pos (F : list (nat * Z)) (k : Z) (prev : ptr) : Prop :=
  ∃ i b kb c, F !! i = Some (b, kb) ∧ F !! S i = Some c ∧ prev = Addr b ∧ (i = 0 ∨ (kb < k)%Z).

Lemma adj_insert F1 x n y F2 k p c kc :
  adj (F1 ++ x :: y :: F2) k p c kc → p ≠ Addr x.1 → adj (F1 ++ x :: n :: y :: F2) k p c kc.
Proof.
  intros (i & b & kb & c0 & Hb & Hc & -> & -> & Hk) Hp. destruct (lt_eq_lt_dec i (length F1)) as [[Hi| ->]|Hi].
  - exists i, b, kb, c0. split_and!; [|..|done|done|done].
    + rewrite lookup_app_l in Hb |- * by lia. done.
    + rewrite !(cons_middle x), !(assoc_L app) in *. rewrite lookup_app_l in Hc |- * by (rewrite length_app; simpl; lia). done.
  - rewrite list_lookup_middle in Hb by done. simplify_eq.
  - rewrite lookup_app_r in Hb, Hc by lia. replace (S i - length F1) with (S (i - length F1)) in Hc by lia.
    destruct (i - length F1) as [|j] eqn:Hj; [lia|].
    exists (S i), b, kb, c0. split_and!; [|..|done|done|lia]; rewrite lookup_app_r by lia.
    + replace (S i - length F1) with (S (S j)) by lia. done.
    + replace (S (S i) - length F1) with (S (S (S j))) by lia. done.
Qed.

Lemma at_pos_insert F1 x n y F2 k p :
  at_pos (F1 ++ x :: y :: F2) k p → p ≠ Addr x.1 → at_pos (F1 ++ x :: n :: y :: F2) k p.
Proof.
  intros (i & b & kb & [c kc] & Hb & Hc & -> & Hk) Hp.
  destruct (adj_insert F1 x n y F2 k (Addr b) (Addr c) kc) as (i' & b' & kb' & c' & ? & ? & ? & ? & ?); [|done|].
  - exists i, b, kb, c. done.
  - exists i', b', kb', (c', kc). done.
Qed.

Lemma adj_remove F1 x y F2 k p c kc :
  adj (F1 ++ x :: y :: F2) k p c kc → p ≠ Addr x.1 → p ≠ Addr y.1 → adj (F1 ++ x :: F2) k p c kc.
Proof.
  intros (i & b & kb & c0 & Hb & Hc & -> & -> & Hk) Hp Hp'. destruct (lt_eq_lt_dec i (length F1)) as [[Hi| ->]|Hi].
  - exists i, b, kb, c0. split_and!; [|..|done|done|done].
    + rewrite lookup_app_l in Hb |- * by lia. done.
    + rewrite !(cons_middle x), !(assoc_L app) in *. rewrite lookup_app_l in Hc |- * by (rewrite length_app; simpl; lia). done.
  - rewrite list_lookup_middle in Hb by done. simplify_eq.
  - rewrite lookup_app_r in Hb, Hc by lia. replace (S i - length F1) with (S (i - length F1)) in Hc by lia.
    destruct (i - length F1) as [|[|j]] eqn:Hj; [lia|simpl in Hb; simplify_eq|].
    exists (i - 1), b, kb, c0. split_and!; [|..|done|done|lia]; rewrite lookup_app_r by lia.
    + replace (i - 1 - length F1) with (S j) by lia. done.
    + replace (S (i - 1) - length F1) with (S (S j)) by lia. done.
Qed.

Lemma at_pos_remove F1 x y F2 k p :
  at_pos (F1 ++ x :: y :: F2) k p → p ≠ Addr x.1 → p ≠ Addr y.1 → at_pos (F1 ++ x :: F2) k p.
Proof.
  intros (i & b & kb & [c kc] & Hb & Hc & -> & Hk) Hp Hp'.
  destruct (adj_remove F1 x y F2 k (Addr b) (Addr c) kc) as (i' & b' & kb' & c' & ? & ? & ? & ? & ?); [|done|done|].
  - exists i, b, kb, c. done.
  - exists i', b', kb', (c', kc). done.
Qed.

Lemma adj_elem F k p c kc : adj F k p c kc → p ∈ Addr <$> F.*1 ∧ c ∈ Addr <$> F.*1.
Proof.
  intros (i & b & kb & c0 & Hb & Hc & -> & -> & _). apply list_elem_of_lookup_2 in Hb, Hc.
  split; apply (list_elem_of_fmap_2 Addr); [by apply (list_elem_of_fmap_2 fst) in Hb|by apply (list_elem_of_fmap_2 fst) in Hc].
Qed.

Lemma at_pos_elem F k p : at_pos F k p → p ∈ Addr <$> F.*1.
Proof.
  intros (i & b & kb & [c kc] & Hb & Hc & -> & Hk). apply (adj_elem F k (Addr b) (Addr c) kc). exists i, b, kb, c. done.
Qed.

Lemma adj_split F k p c kc :
  adj F k p c kc → ∃ F1 b kb c0 F2, F = F1 ++ (b, kb) :: (c0, kc) :: F2 ∧ p = Addr b ∧ c = Addr c0 ∧ (F1 = [] ∨ (kb < k)%Z).
Proof.
  intros (i & b & kb & c0 & Hb & Hc & -> & -> & Hk). exists (take i F), b, kb, c0, (drop (S (S i)) F).
  split_and!; [|done..|].
  - rewrite <- (take_drop i F) at 1. f_equal. rewrite (drop_S _ _ _ Hb). f_equal. by rewrite (drop_S _ _ _ Hc).
  - destruct Hk as [->|?]; [by left|by right].
Qed.

Lemma adj_next F k p c kc c' kc' k' :
  NoDup F.*1 → adj F k p c kc → adj F k' p c' kc' → c = c' ∧ kc = kc'.
Proof.
  intros Hnd (i & b & kb & c0 & Hb & Hc & -> & -> & _) (j & b' & kb' & c0' & Hb' & Hc' & [= <-] & -> & _).
  assert (i = j) as ->; [|by simplify_eq].
  eapply NoDup_lookup; [done|rewrite list_lookup_fmap, Hb; done|rewrite list_lookup_fmap, Hb'; done].
Qed.

(** Two nodes with the same successor are the same. *)
Lemma adj_prev F k p c kc k' p' kc' :
  NoDup F.*1 → adj F k p c kc → adj F k' p' c kc' → p = p'.
Proof.
  intros Hnd (i & b & kb & c0 & Hb & Hc & -> & -> & _) (j & b' & kb' & c0' & Hb' & Hc' & -> & [= <-] & _).
  assert (S i = S j) as [= ->]; [|by simplify_eq].
  eapply NoDup_lookup; [done|rewrite list_lookup_fmap, Hc; done|rewrite list_lookup_fmap, Hc'; done].
Qed.

Lemma before_sorted l x l' k : StronglySorted Z.lt (l ++ x :: l') → (x < k)%Z → Forall (λ y, y < k)%Z (l ++ [x]).
Proof.
  intros (Hlt & _ & _)%StronglySorted_app Hk. apply Forall_app. split; [|by constructor].
  apply Forall_forall. intros y Hy. assert (H := Hlt y x Hy ltac:(by left)). lia.
Qed.

(** An operation without an effect. *)
Lemma spec_set_same (L : list (nat * Z)) a r :
  match a with
  | Add k => k ∈ L.*2 ∧ r = false
  | Remove k => k ∉ L.*2 ∧ r = false
  | Contains k => r = bool_decide (k ∈ L.*2)
  end → spec_set (list_to_set L.*2) a = (list_to_set L.*2, r).
Proof.
  destruct a as [k|k|k]; simpl.
  - intros [Hk ->]. f_equal; [set_solver|]. apply bool_decide_eq_false_2. set_solver.
  - intros [Hk ->]. f_equal; [set_solver|]. apply bool_decide_eq_false_2. set_solver.
  - intros ->. f_equal. apply bool_decide_ext. set_solver.
Qed.
