(* ===== verification/ListMutex.v ===== *)
(** The mutexes in the nodes of the fine-grained and the optimistic list of
    [lab11], and what it means that the locked mutexes are those the threads
    hold. The two programs differ in what a thread is; a thread shows the
    pointers it has locked. *)
From stdpp Require Import functions base tactics numbers option list list_numbers gmap sets relations.
From Stdlib Require Import ZArith Lia.
From S2P Require Import Prelude ListSet.

(** ** Operations *)

(** [pthread_mutex_lock(&p->mutex)]; [None] while the mutex is locked. [l] are the
    locked mutexes with their owners. *)
Definition lock (h : memory) (l : gmap nat nat) (tid : nat) (p : ptr) : option (res (gmap nat nat)) :=
  match p with
  | Addr a =>
      match h !! a, l !! a with
      | None, _ => Some (Err UndefinedBehaviour)
      | Some _, None => Some (Ok (<[a := tid]> l))
      | Some _, Some _ => None
      end
  | _ => Some (Err UndefinedBehaviour)
  end.

(** [pthread_mutex_unlock(&p->mutex)]; only the owner may unlock. *)
Definition unlock (h : memory) (l : gmap nat nat) (tid : nat) (p : ptr) : res (gmap nat nat) :=
  match p with
  | Addr a =>
      match h !! a, l !! a with
      | Some _, Some t => if decide (t = tid) then Ok (delete a l) else Err UndefinedBehaviour
      | _, _ => Err UndefinedBehaviour
      end
  | _ => Err UndefinedBehaviour
  end.

Lemma lock_cases h l t a n r :
  h !! a = Some n → lock h l t (Addr a) = Some r → l !! a = None ∧ r = Ok (<[a := t]> l).
Proof. intros Ha. simpl. rewrite Ha. destruct (l !! a) eqn:Hh; [done|]. by intros [= <-]. Qed.

Lemma lock_blocked h l t p : lock h l t p = None → ∃ a u, p = Addr a ∧ l !! a = Some u.
Proof. destruct p as [| |a]; simpl; [done..|]. destruct (h !! a), (l !! a) eqn:?; [eauto|done..]. Qed.

(** ** Owners *)

Section owners.
  Context {T : Type} (locks : T → list ptr).

Definition held_ok (l : gmap nat nat) (ths : list T) : Prop :=
  ∀ a t, l !! a = Some t ↔ ∃ th, ths !! t = Some th ∧ Addr a ∈ locks th.

(** What [l'] has to be when thread [t] becomes [th']. *)
Definition held_after (l : gmap nat nat) (t : nat) (th' : T) (l' : gmap nat nat) : Prop :=
  (∀ a, l' !! a = Some t ↔ Addr a ∈ locks th') ∧ (∀ a u, u ≠ t → l' !! a = Some u ↔ l !! a = Some u).

Lemma holds l ths t th a : held_ok l ths → ths !! t = Some th → l !! a = Some t ↔ Addr a ∈ locks th.
Proof. intros Hok Ht. rewrite (Hok a t). naive_solver. Qed.

Lemma held_keep l ths t th th' : held_ok l ths → ths !! t = Some th → locks th' = locks th → held_after l t th' l.
Proof. intros Hok Ht Hl. split; [|done]. intros a. rewrite Hl. by eapply holds. Qed.

Lemma held_lock l ths t th th' a :
  held_ok l ths → ths !! t = Some th → l !! a = None →
  (∀ b, Addr b ∈ locks th' ↔ b = a ∨ Addr b ∈ locks th) → held_after l t th' (<[a := t]> l).
Proof.
  intros Hok Ht Ha Hl. split; intros b.
  - rewrite Hl, <- (holds _ _ _ _ b Hok Ht), lookup_insert_Some. naive_solver.
  - intros u Hu. rewrite lookup_insert_Some. naive_solver.
Qed.

Lemma held_unlock l ths t th th' a :
  held_ok l ths → ths !! t = Some th → l !! a = Some t →
  (∀ b, Addr b ∈ locks th' ↔ b ≠ a ∧ Addr b ∈ locks th) → held_after l t th' (delete a l).
Proof.
  intros Hok Ht Ha Hl. split; intros b.
  - rewrite Hl, <- (holds _ _ _ _ b Hok Ht), lookup_delete_Some. naive_solver.
  - intros u Hu. rewrite lookup_delete_Some. naive_solver.
Qed.

Lemma held_ok_put l ths t th th' l' :
  held_ok l ths → ths !! t = Some th → held_after l t th' l' → held_ok l' (<[t := th']> ths).
Proof.
  intros Hok Ht [Hl1 Hl2] a u. assert (Hlt := lookup_lt_Some _ _ _ Ht). destruct (decide (u = t)) as [->|Hne].
  - rewrite Hl1, list_lookup_insert_eq by done. naive_solver.
  - rewrite Hl2, list_lookup_insert_ne by done. apply Hok.
Qed.

(** A mutex has one owner. *)
Lemma exclusive l ths t th u uh p :
  held_ok l ths → ths !! t = Some th → ths !! u = Some uh → u ≠ t → Addr p ∈ locks th → Addr p ∉ locks uh.
Proof.
  intros Hok Ht Hu Hne H1 H2. apply (holds _ _ _ _ p Hok Ht) in H1. apply (holds _ _ _ _ p Hok Hu) in H2. congruence.
Qed.

Lemma unlock_Ok h l ths t th a n :
  held_ok l ths → ths !! t = Some th → Addr a ∈ locks th → h !! a = Some n →
  l !! a = Some t ∧ unlock h l t (Addr a) = Ok (delete a l).
Proof.
  intros Hok Ht Hp Ha. apply (holds _ _ _ _ a Hok Ht) in Hp. split; [done|]. simpl. by rewrite Ha, Hp, decide_True.
Qed.

End owners.
