(* ===== verification/ListCoarse.v ===== *)
(** The sorted lists of [lab11] with one mutex: [coarse_grained.cpp] and
    [list_template.cpp]. The body of an operation between lock and unlock is one
    step; so is the [free] after the unlock, whose node nobody else can reach.
    The two programs differ in [list_contains]: the template reads the key of the
    node it found after it has released the mutex. *)
From stdpp Require Import functions base tactics numbers option list list_numbers gmap sets relations sorting.
From Stdlib Require Import ZArith Lia Ascii.
From S2P Require Import Prelude ListSet.

(** ** Operations *)

(** while (curr->key < key) { prev = curr; curr = curr->next; } *)
Fixpoint find_loop (fuel : nat) (h : memory) (k : Z) (prev curr : ptr) : res (ptr * ptr) :=
  match fuel with
  | 0 => Err OutOfFuel
  | S fuel =>
      n ← load h curr;
      if (key n <? k)%Z then find_loop fuel h k curr (next n) else Ok (prev, curr)
  end.

(** The loop visits a node at most once, so the number of nodes is enough fuel. *)
Definition find_position (h : memory) (head : ptr) (k : Z) : res (ptr * ptr) :=
  n ← load h head;
  find_loop (size h) h k head (next n).

(** [node] is the address that [malloc] returns. *)
Definition list_add (h : memory) (head : ptr) (node : nat) (k : Z) : res (memory * bool) :=
  let h := <[node := mk_Node k Uninit]> h in
  '(prev, curr) ← find_position h head k;
  h ← store_next h prev (Addr node);
  h ← store_next h (Addr node) curr;
  Ok (h, true).

Definition list_remove (h : memory) (head : ptr) (k : Z) : res (memory * bool) :=
  '(prev, curr) ← find_position h head k;
  n ← load h curr;
  if decide (key n = k) then
    h ← store_next h prev (next n);
    h ← free h curr;
    Ok (h, true)
  else Ok (h, false).

Definition list_contains (h : memory) (head : ptr) (k : Z) : res (memory * bool) :=
  '(_, curr) ← find_position h head k;
  n ← load h curr;
  Ok (h, bool_decide (key n = k)).

Definition do_action (h : memory) (head : ptr) (node : nat) (a : action) : res (memory * bool) :=
  match a with
  | Add k => list_add h head node k
  | Remove k => list_remove h head k
  | Contains k => list_contains h head k
  end.

(** ** The program of [coarse_grained.cpp] *)

(** [log] records the operations in the order in which they got the mutex. *)
Record world : Type := mk_world {
  mem : memory;
  thread_work : list (list Work);
  log : list (nat * action * bool);
}.

(** One iteration of the loop of [ThreadFunc] of thread [tid]; [node] is where the
    next [malloc] puts a node. [None] when the thread has finished. *)
Definition thread_func_step (head : nat) (tid node : nat) (w : world) : option (res world) :=
  match thread_work w !! tid, mem w !! node with
  | Some (work :: rest), None =>
      let ws := <[tid := rest]> (thread_work w) in
      Some match action_of work with
           | None => Ok (mk_world (mem w) ws (log w))
           | Some a =>
               '(h, b) ← do_action (mem w) (Addr head) node a;
               Ok (mk_world h ws (log w ++ [(tid, a, b)]))
           end
  | _, _ => None
  end.

(** The state when [main] has created the threads. *)
Definition coarse_main (head tail : nat) (work : list (list Work)) : world :=
  mk_world (list_init head tail) work [].

Definition step (head : nat) (w w' : world) : Prop :=
  ∃ tid node, thread_func_step head tid node w = Some (Ok w').

Definition finished (w : world) : Prop := Forall (λ l, l = []) (thread_work w).

(** ** Representation *)

Definition in_memory (h : memory) (a : nat) (k : Z) (nx : ptr) : Prop := h !! a = Some (mk_Node k nx).

(** The nodes [L] between the sentinels. *)
Record chain (h : memory) (head tail : nat) (L : list (nat * Z)) : Prop := {
  chain_seg : lseg (in_memory h) (Addr head) ((head, INT_MIN) :: L ++ [(tail, INT_MAX)]) NULL;
  chain_nodup : NoDup ((head, INT_MIN) :: L ++ [(tail, INT_MAX)]).*1;
  chain_sorted : StronglySorted Z.le L.*2;
  chain_range : Forall in_range L.*2;
}.

Lemma lseg_dom h p L q a k : lseg (in_memory h) p L q → (a, k) ∈ L → a ∈ dom h.
Proof.
  revert p. induction L as [|[b kb] L IH]; intros p; simpl; [by intros _ ?%elem_of_nil|].
  intros (-> & nx & H1 & H2) [[= -> ->]|H]%elem_of_cons; [by eapply elem_of_dom_2|by eapply IH].
Qed.

Lemma lseg_size h p L q : lseg (in_memory h) p L q → NoDup L.*1 → length L ≤ size h.
Proof.
  intros Hs Hnd. rewrite <- size_dom, <- (length_fmap fst), <- (size_list_to_set (C := gset nat)) by done.
  apply subseteq_size. intros a [[a' k] [-> H]]%elem_of_list_to_set%list_elem_of_fmap.
  by eapply lseg_dom.
Qed.

(** ** The search *)

Lemma find_loop_spec h k fuel p kp curr L q :
  lseg (in_memory h) curr L q → Exists (λ x, k ≤ x.2)%Z L → length L ≤ fuel →
  ∃ L1 b kb c kc L2, (p, kp) :: L = L1 ++ (b, kb) :: (c, kc) :: L2 ∧
    Forall (λ x, x.2 < k)%Z (tail (L1 ++ [(b, kb)])) ∧ (k ≤ kc)%Z ∧
    find_loop fuel h k (Addr p) curr = Ok (Addr b, Addr c).
Proof.
  revert p kp curr L. induction fuel as [|fuel IH]; intros p kp curr [|[c kc] L] Hs Hex Hf; simpl in Hf;
    try lia; try by apply Exists_nil in Hex. destruct Hs as (-> & nx & Hc & Hs). unfold in_memory in Hc.
  simpl. rewrite Hc. simpl. destruct (kc <? k)%Z eqn:Hk; [apply Z.ltb_lt in Hk|apply Z.ltb_ge in Hk].
  - apply Exists_cons in Hex as [Hex|Hex]; [simpl in Hex; lia|].
    destruct (IH c kc nx L Hs Hex) as (L1 & b & kb & c' & kc' & L2 & He & Hall & Hle & Hrun); [lia|].
    exists ((p, kp) :: L1), b, kb, c', kc', L2. split_and!; [by rewrite He|..|done|done].
    simpl. destruct L1 as [|x L1]; simpl in *; simplify_eq; by constructor.
  - exists [], p, kp, c, kc, L. by split_and!.
Qed.

(** What the search finds: the predecessor [b], the node [c], the keys before and after. *)
Record found (head tail : nat) (L : list (nat * Z)) (k : Z) (b c : nat) (L1 : list (nat * Z)) (kb kc : Z)
    (L2 M L3 : list (nat * Z)) : Prop := {
  fnd_full : (head, INT_MIN) :: L ++ [(tail, INT_MAX)] = L1 ++ (b, kb) :: (c, kc) :: L2;
  fnd_before : (head, INT_MIN) :: M = L1 ++ [(b, kb)];
  fnd_after : (c, kc) :: L2 = L3 ++ [(tail, INT_MAX)];
  fnd_L : L = M ++ L3;
  fnd_lt : Forall (λ x, x < k)%Z M.*2;
  fnd_ge : Forall (λ x, k ≤ x)%Z L3.*2;
  fnd_kc : (k ≤ kc)%Z;
}.

Lemma found_split head tail L k L1 b kb c kc L2 :
  (head, INT_MIN) :: L ++ [(tail, INT_MAX)] = L1 ++ (b, kb) :: (c, kc) :: L2 →
  Forall (λ x, x.2 < k)%Z (list.tail (L1 ++ [(b, kb)])) → (k ≤ kc)%Z → StronglySorted Z.le L.*2 →
  ∃ M L3, found head tail L k b c L1 kb kc L2 M L3.
Proof.
  intros He Hlt Hk Hs. assert (HM : ∃ M, (head, INT_MIN) :: M = L1 ++ [(b, kb)]).
  { destruct L1 as [|x L1]; simpl in He; [injection He as -> <- _|injection He as <- _]; simpl; eauto. }
  destruct HM as [M HM]. rewrite <- HM in Hlt. simpl in Hlt.
  assert (He' : (head, INT_MIN) :: L ++ [(tail, INT_MAX)] = ((head, INT_MIN) :: M) ++ (c, kc) :: L2).
  { rewrite He, HM, <- (assoc_L app). done. }
  simpl in He'. injection He' as He'.
  destruct (exists_last (l := (c, kc) :: L2) ltac:(done)) as (L3 & z & Hz). rewrite Hz, (assoc_L app) in He'.
  apply app_inj_2 in He' as [HL Hz']; [|done]. injection Hz' as <-.
  exists M, L3. split; try done; [by apply Forall_fmap|].
  destruct L3 as [|x L3]; [constructor|]. simpl in Hz. injection Hz as <- _. rewrite HL, fmap_app in Hs.
  apply StronglySorted_app in Hs as (_ & _ & Hs). simpl in *. apply StronglySorted_cons in Hs as [Hs _].
  constructor; [done|]. eapply Forall_impl; [exact Hs|]. simpl. intros; lia.
Qed.

Lemma find_position_spec h head tail L k :
  chain h head tail L → in_range k →
  ∃ b c L1 kb kc L2 M L3, find_position h (Addr head) k = Ok (Addr b, Addr c) ∧ found head tail L k b c L1 kb kc L2 M L3.
Proof.
  intros [Hseg Hnd Hs Hr] Hk. destruct Hseg as (_ & nx & Hhd & Hseg).
  destruct (find_loop_spec h k (size h) head INT_MIN nx (L ++ [(tail, INT_MAX)]) NULL Hseg)
    as (L1 & b & kb & c & kc & L2 & He & Hlt & Hle & Hrun).
  - apply Exists_app. right. apply Exists_cons_hd. unfold in_range in Hk. simpl. lia.
  - apply NoDup_cons in Hnd as [_ Hnd]. by eapply lseg_size.
  - destruct (found_split _ _ _ _ _ _ _ _ _ _ He Hlt Hle Hs) as (M & L3 & Hf).
    exists b, c, L1, kb, kc, L2, M, L3. split; [|done]. unfold find_position. simpl. unfold in_memory in Hhd.
    by rewrite Hhd.
Qed.

(** ** The operations on the chain *)

Lemma chain_extend h head tail L node n : chain h head tail L → h !! node = None → chain (<[node := n]> h) head tail L.
Proof.
  intros [Hseg Hnd Hs Hr] Hn. split; [|done..]. revert Hseg. apply lseg_mono. unfold in_memory.
  intros a k nx _ Ha. by rewrite lookup_insert_ne by congruence.
Qed.

Lemma list_add_spec h head tail L node k :
  chain h head tail L → h !! node = None → in_range k →
  ∃ h' L', list_add h (Addr head) node k = Ok (h', true) ∧ chain h' head tail L' ∧ L'.*2 = ins k L.*2.
Proof.
  intros Hch Hn Hk. assert (Hch' := chain_extend h head tail L node (mk_Node k Uninit) Hch Hn).
  destruct (find_position_spec _ _ _ _ _ Hch' Hk) as (b & c & L1 & kb & kc & L2 & M & L3 & Hf & Hfnd).
  destruct Hfnd as [Hfull Hbef Haft -> Hlt Hge Hkc]. destruct Hch as [Hseg Hnd Hs Hr].
  rewrite Hfull in Hseg, Hnd.
  assert (Hb : h !! b = Some (mk_Node kb (Addr c))) by exact (lseg_link _ _ _ _ _ _ _ _ _ Hseg).
  assert (Hfresh : node ∉ (L1 ++ (b, kb) :: (c, kc) :: L2).*1).
  { intros [[a ka] [Ha H]]%list_elem_of_fmap. apply (lseg_dom _ _ _ _ _ _ Hseg) in H. simpl in Ha. subst a.
    apply elem_of_dom in H as [? H]. congruence. }
  assert (Hnew : (head, INT_MIN) :: (M ++ (node, k) :: L3) ++ [(tail, INT_MAX)] = L1 ++ (b, kb) :: (node, k) :: (c, kc) :: L2).
  { rewrite <- (assoc_L app). simpl. rewrite <- Haft, app_comm_cons, Hbef, <- (assoc_L app). done. }
  unfold list_add. rewrite Hf. cbn -[insert find_position]. rewrite lookup_insert_ne by congruence. rewrite Hb.
  cbn -[insert]. rewrite lookup_insert_ne by congruence. rewrite lookup_insert_eq. cbn -[insert].
  eexists _, (M ++ (node, k) :: L3). split; [reflexivity|]. rewrite fmap_app in Hs, Hr.
  split; [|rewrite !fmap_app; by rewrite ins_split]. apply Forall_app in Hr as [Hr1 Hr2].
  refine ((λ H, Build_chain _ _ _ _ (proj1 H) (proj2 H) _ _) _).
  - rewrite fmap_app. apply sorted_insert; [done| |done]. eapply Forall_impl; [exact Hlt|]. simpl. lia.
  - rewrite fmap_app. apply Forall_app. split; [done|]. by constructor.
  - rewrite Hnew.
    apply (lseg_insert (in_memory h) _ _ _ _ b kb c kc L2 node k Hseg Hnd Hfresh); unfold in_memory.
    + intros d kd nx Hd1 Hd2. by rewrite !lookup_insert_ne.
    + rewrite lookup_insert_ne by congruence. by rewrite lookup_insert_eq.
    + by rewrite lookup_insert_eq.
Qed.

Lemma found_key head tail L k b c L1 kb kc L2 M L3 :
  StronglySorted Z.le L.*2 → in_range k → found head tail L k b c L1 kb kc L2 M L3 →
  (kc = k → ∃ L3', L3 = (c, k) :: L3' ∧ L2 = L3' ++ [(tail, INT_MAX)]) ∧ (kc ≠ k → k ∉ L.*2 ∧ del k L.*2 = L.*2).
Proof.
  intros Hs Hk [_ _ Haft -> Hlt Hge Hkc]. split.
  - intros ->. destruct L3 as [|x L3]; simpl in Haft; [|injection Haft as <- ->; eauto].
    injection Haft as _ Hkm _. unfold in_range in Hk. lia.
  - intros Hne. rewrite fmap_app. assert (Hgt : Forall (λ x, k < x)%Z L3.*2).
    { destruct L3 as [|x L3]; [constructor|]. injection Haft as <- _. simpl in *.
      rewrite fmap_app in Hs. apply StronglySorted_app in Hs as (_ & _ & Hs).
      simpl in Hs. apply StronglySorted_cons in Hs as [Hs _]. constructor; [lia|]. eapply Forall_impl; [exact Hs|]. simpl. lia. }
    split; [by apply elem_of_split|by apply del_split_absent].
Qed.

(** The same from a position in a strictly sorted list. *)
Lemma full_sorted tail (L : list (nat * Z)) :
  StronglySorted Z.lt L.*2 → Forall in_range L.*2 → StronglySorted Z.lt (L ++ [(tail, INT_MAX)]).*2.
Proof.
  intros Hs Hr. rewrite fmap_app. apply StronglySorted_app. split_and!; [|done|repeat constructor].
  intros x y Hx Hy. assert (y = INT_MAX) as -> by set_solver.
  eapply Forall_forall in Hr; [|done]. unfold in_range in Hr. simpl in Hr. lia.
Qed.

Lemma adj_found head tail L k prev curr kc :
  StronglySorted Z.lt L.*2 → Forall in_range L.*2 → adj (full_list head tail L) k prev curr kc → (k ≤ kc)%Z →
  ∃ b c L1 kb L2 M L3, prev = Addr b ∧ curr = Addr c ∧ found head tail L k b c L1 kb kc L2 M L3.
Proof.
  intros Hsorted Hrange (L1 & b & kb & c & L2 & Hfull & -> & -> & Hb)%adj_split Hkc. unfold full_list in Hfull.
  destruct (found_split head tail L k L1 b kb c kc L2 Hfull) as (M & L3 & Hf); [|done|by apply sorted_lt_le|].
  - destruct L1 as [|x L1]; [constructor|]. simpl in Hfull |- *. injection Hfull as <- Hfull.
    destruct Hb as [?|Hb]; [done|]. assert (Hs := full_sorted tail L Hsorted Hrange). rewrite Hfull, fmap_app in Hs. simpl in Hs.
    apply (before_sorted _ _ _ k) in Hs; [|done]. apply (Forall_fmap snd (λ y, y < k)%Z). by rewrite fmap_app.
  - by exists b, c, L1, kb, L2, M, L3.
Qed.

Lemma adj_member head tail L k prev curr kc :
  StronglySorted Z.lt L.*2 → Forall in_range L.*2 → in_range k → adj (full_list head tail L) k prev curr kc → (k ≤ kc)%Z → k ∈ L.*2 ↔ kc = k.
Proof.
  intros Hsorted Hrange Hk Hadj Hkc. destruct (adj_found _ _ _ _ _ _ _ Hsorted Hrange Hadj Hkc) as (b & c & L1 & kb & L2 & M & L3 & -> & -> & Hf).
  destruct (found_key _ _ _ _ _ _ _ _ _ _ _ _ (sorted_lt_le _ Hsorted) Hk Hf) as [Heq Hne]. split.
  - intros Hin. destruct (decide (kc = k)) as [|H]; [done|]. by apply Hne in H as [? _].
  - intros H. destruct (Heq H) as (L3' & -> & _). rewrite (fnd_L _ _ _ _ _ _ _ _ _ _ _ _ Hf), fmap_app.
    apply elem_of_app. right. by left.
Qed.

Lemma found_insert head tail L k b c L1 kb kc L2 M L3 node :
  found head tail L k b c L1 kb kc L2 M L3 → full_list head tail (M ++ (node, k) :: L3) = L1 ++ (b, kb) :: (node, k) :: (c, kc) :: L2.
Proof.
  intros [_ Hbef Haft _ _ _ _]. unfold full_list. rewrite <- (assoc_L app). simpl. rewrite <- Haft, app_comm_cons, Hbef, <- (assoc_L app). done.
Qed.

(** A strictly sorted list stays one when a new key is put in place or a key is taken out. *)
Lemma found_insert_sorted head tail L k b c L1 kb kc L2 M L3 node :
  found head tail L k b c L1 kb kc L2 M L3 → StronglySorted Z.lt L.*2 → Forall in_range L.*2 → k ∉ L.*2 → in_range k →
  StronglySorted Z.lt (M ++ (node, k) :: L3).*2 ∧ Forall in_range (M ++ (node, k) :: L3).*2.
Proof.
  intros [_ _ _ -> Hlt Hge _]. rewrite !fmap_app, fmap_cons. simpl. intros Hs Hr Hk Hkr. split.
  - apply sorted_insert; [done|done|]. apply Forall_forall. intros x Hx. assert (Hx' := Hx).
    eapply Forall_forall in Hx'; [|exact Hge]. simpl in Hx'. assert (x ≠ k); [|lia].
    intros ->. apply Hk, elem_of_app. by right.
  - apply Forall_app in Hr as [Hr1 Hr2]. apply Forall_app. split; [done|]. by constructor.
Qed.

Lemma remove_sorted (M L3 : list (nat * Z)) c k :
  StronglySorted Z.lt (M ++ (c, k) :: L3).*2 → Forall in_range (M ++ (c, k) :: L3).*2 →
  StronglySorted Z.lt (M ++ L3).*2 ∧ Forall in_range (M ++ L3).*2 ∧ k ∉ (M ++ L3).*2.
Proof.
  rewrite !fmap_app, fmap_cons. simpl. intros Hs Hr. split_and!.
  - by eapply sorted_delete.
  - apply Forall_app in Hr as [Hr1 [_ Hr2]%Forall_cons]. by apply Forall_app.
  - apply StronglySorted_app in Hs as (Hs1 & _ & [Hs2 _]%StronglySorted_cons). intros [Hk|Hk]%elem_of_app.
    + specialize (Hs1 _ k Hk ltac:(by left)). lia.
    + eapply Forall_forall in Hs2; [|exact Hk]. lia.
Qed.

Lemma found_memory h head tail L k b c L1 kb kc L2 M L3 :
  chain h head tail L → found head tail L k b c L1 kb kc L2 M L3 →
  h !! b = Some (mk_Node kb (Addr c)) ∧ ∃ nx, h !! c = Some (mk_Node kc nx).
Proof.
  intros [Hseg _ _ _] [Hfull _ _ _ _ _ _]. rewrite Hfull in Hseg. split; [exact (lseg_link _ _ _ _ _ _ _ _ _ Hseg)|].
  apply lseg_app in Hseg as (r & _ & -> & nx & _ & -> & nx' & Hc & _). eauto.
Qed.

Lemma list_remove_spec h head tail L k :
  chain h head tail L → in_range k →
  ∃ h' L', list_remove h (Addr head) k = Ok (h', bool_decide (k ∈ L.*2)) ∧ chain h' head tail L' ∧ L'.*2 = del k L.*2.
Proof.
  intros Hch Hk. destruct (find_position_spec _ _ _ _ _ Hch Hk) as (b & c & L1 & kb & kc & L2 & M & L3 & Hf & Hfnd).
  destruct (found_key _ _ _ _ _ _ _ _ _ _ _ _ (chain_sorted _ _ _ _ Hch) Hk Hfnd) as [Heq Hne].
  destruct (found_memory _ _ _ _ _ _ _ _ _ _ _ _ _ Hch Hfnd) as (Hb & nx & Hc).
  unfold list_remove. rewrite Hf. cbn -[find_position]. rewrite Hc. cbn. destruct (decide (kc = k)) as [->|Hkc].
  - destruct (Heq eq_refl) as (L3' & -> & ->). destruct Hfnd as [Hfull Hbef _ -> Hlt _ _]. destruct Hch as [Hseg Hnd Hs Hr].
    rewrite Hfull in Hseg, Hnd. rewrite Hb. cbn. assert (Hbc : b ≠ c).
    { intros ->. rewrite fmap_app in Hnd. apply NoDup_app in Hnd as (_ & _ & [Hnd _]%NoDup_cons). apply Hnd. by left. }
    rewrite lookup_insert_ne, Hc by done. cbn. rewrite !fmap_app, fmap_cons in *.
    eexists _, (M ++ L3'). rewrite bool_decide_eq_true_2 by (apply elem_of_app; right; by left). split; [reflexivity|].
    split; [|rewrite !fmap_app; by rewrite del_split_found].
    assert (Hnew : (head, INT_MIN) :: (M ++ L3') ++ [(tail, INT_MAX)] = L1 ++ (b, kb) :: L3' ++ [(tail, INT_MAX)]).
    { rewrite <- (assoc_L app), app_comm_cons, Hbef, <- (assoc_L app). done. }
    refine ((λ H, Build_chain _ _ _ _ (proj1 H) (proj2 H) _ _) _).
    + rewrite fmap_app. by eapply sorted_delete.
    + rewrite fmap_app. apply Forall_app in Hr as [Hr1 [_ Hr2]%Forall_cons]. by apply Forall_app.
    + rewrite Hnew. apply (lseg_remove (in_memory h) _ _ _ _ b kb c k _ Hseg).
      * by rewrite fmap_app.
      * unfold in_memory. intros d kd nx' Hd1 Hd2 Hd. by rewrite lookup_delete_ne, lookup_insert_ne.
      * unfold in_memory. intros nx' Hnx. rewrite lookup_delete_ne by done. rewrite lookup_insert_eq. congruence.
  - destruct (Hne Hkc) as [Hnot Hdel]. exists h, L. rewrite bool_decide_eq_false_2 by done. by rewrite Hdel.
Qed.

Lemma list_contains_spec h head tail L k :
  chain h head tail L → in_range k → list_contains h (Addr head) k = Ok (h, bool_decide (k ∈ L.*2)).
Proof.
  intros Hch Hk. destruct (find_position_spec _ _ _ _ _ Hch Hk) as (b & c & L1 & kb & kc & L2 & M & L3 & Hf & Hfnd).
  destruct (found_key _ _ _ _ _ _ _ _ _ _ _ _ (chain_sorted _ _ _ _ Hch) Hk Hfnd) as [Heq Hne].
  destruct (found_memory _ _ _ _ _ _ _ _ _ _ _ _ _ Hch Hfnd) as (Hb & nx & Hc).
  unfold list_contains. rewrite Hf. cbn -[find_position]. rewrite Hc. cbn. do 2 f_equal. apply bool_decide_ext. split.
  - intros H. destruct (Heq H) as (L3' & -> & _). rewrite (fnd_L _ _ _ _ _ _ _ _ _ _ _ _ Hfnd), fmap_app.
    apply elem_of_app. right. by left.
  - intros Hin. destruct (decide (kc = k)) as [|Hkc]; [done|]. by destruct (Hne Hkc).
Qed.

Lemma do_action_spec h head tail L node a :
  chain h head tail L → h !! node = None → in_range (action_key a) →
  ∃ h' L', do_action h (Addr head) node a = Ok (h', snd (spec_list L.*2 a)) ∧ chain h' head tail L' ∧
    L'.*2 = fst (spec_list L.*2 a).
Proof.
  intros Hch Hn Hk. destruct a as [k|k|k]; simpl in *; [by apply list_add_spec|by apply list_remove_spec|].
  exists h, L. by rewrite (list_contains_spec _ _ _ _ _ Hch Hk).
Qed.

(** ** The program *)

(** The workload stays away from the sentinels. *)
Definition work_ok (w : Work) : Prop := ∀ a, action_of w = Some a → in_range (action_key a).

Definition todo (w : world) (t : nat) : list action := omap action_of (default [] (thread_work w !! t)).

Record world_ok (head tail : nat) (work : list (list Work)) (w : world) : Prop := {
  wok_chain : ∃ L, chain (mem w) head tail L ∧ replay_actions spec_list [] (log w) = Some L.*2;
  wok_work : Forall (Forall work_ok) (thread_work w);
  wok_order : ∀ t, actions_of t (log w) ++ todo w t = omap action_of (default [] (work !! t));
}.

Lemma list_init_chain head tail : head ≠ tail → chain (list_init head tail) head tail [].
Proof.
  intros Hne. split; simpl; [|apply NoDup_cons; split; [set_solver|apply NoDup_singleton]|constructor|constructor].
  split; [done|]. exists (Addr tail). unfold in_memory, list_init. split; [by rewrite lookup_insert_ne, lookup_singleton_eq|].
  split; [done|]. exists NULL. by rewrite lookup_insert_eq.
Qed.

Lemma coarse_main_ok head tail work :
  head ≠ tail → Forall (Forall work_ok) work → world_ok head tail work (coarse_main head tail work).
Proof. intros Hne Hw. split; simpl; [|done|done]. exists []. split; [by apply list_init_chain|done]. Qed.

Lemma todo_insert w tid rest t h lg wk :
  thread_work w !! tid = Some (wk :: rest) →
  todo w t = (if decide (tid = t) then option_list (action_of wk) else []) ++ todo (mk_world h (<[tid := rest]> (thread_work w)) lg) t.
Proof.
  intros Ht. unfold todo. simpl. case_decide as Htt.
  - subst t. rewrite Ht, list_lookup_insert_eq by (by eapply lookup_lt_Some). simpl. by destruct (action_of wk).
  - by rewrite list_lookup_insert_ne.
Qed.

Lemma thread_func_step_ok head tail work tid node w r :
  world_ok head tail work w → thread_func_step head tid node w = Some r →
  ∃ w', r = Ok w' ∧ world_ok head tail work w'.
Proof.
  intros [(L & Hch & Hrep) Hwork Hord] Hs. unfold thread_func_step in Hs.
  destruct (thread_work w !! tid) as [[|wk rest]|] eqn:Ht; [done| |done]. destruct (mem w !! node) as [n|] eqn:Hn; [done|].
  injection Hs as <-. assert (Hwk : Forall work_ok (wk :: rest)) by (by eapply Forall_lookup_1 in Hwork).
  apply Forall_cons in Hwk as [Hwk Hrest]. assert (Htodo := λ t h lg, todo_insert w tid rest t h lg wk Ht).
  destruct (action_of wk) as [a|] eqn:Ha.
  - destruct (do_action_spec _ _ _ _ node a Hch Hn (Hwk a Ha)) as (h' & L' & -> & Hch' & HL').
    eexists. split; [reflexivity|]. split; simpl; [|by apply Forall_insert|].
    + exists L'. split; [done|]. rewrite HL'. by apply replay_actions_snoc.
    + intros t. rewrite actions_of_snoc, <- (assoc_L app), <- Hord, (Htodo t h' (log w ++ [(tid, a, snd (spec_list L.*2 a))])).
      by case_decide.
  - eexists. split; [reflexivity|]. split; simpl; [eauto|by apply Forall_insert|].
    intros t. rewrite <- Hord, (Htodo t (mem w) (log w)). by case_decide.
Qed.

Lemma coarse_steps_ok head tail work w :
  head ≠ tail → Forall (Forall work_ok) work → rtc (step head) (coarse_main head tail work) w → world_ok head tail work w.
Proof.
  intros Hne Hw. revert w. apply rtc_ind_r; [by apply coarse_main_ok|].
  intros w w' _ (tid & node & Hs) IH. destruct (thread_func_step_ok _ _ _ _ _ _ _ IH Hs) as (w1 & [= <-] & H). done.
Qed.

(** ** The final check of [main] *)

Lemma check_result_spec h tail it M result :
  lseg (in_memory h) it (M ++ [(tail, INT_MAX)]) NULL → NoDup (M ++ [(tail, INT_MAX)]).*1 →
  ∃ b it', check_result h (Addr tail) it result = Ok (b, it') ∧
    (if decide (it' = Addr tail) then b else false) = bool_decide (result = M.*2).
Proof.
  revert it M. induction result as [|v result IH]; intros it M Hs Hnd; destruct M as [|[a k] M]; simpl in *.
  - destruct Hs as [-> _]. eexists _, _. split; [reflexivity|]. by rewrite decide_True.
  - destruct Hs as [-> _]. eexists _, _. split; [reflexivity|]. rewrite decide_False; [done|].
    intros [= ->]. apply NoDup_cons in Hnd as [Hnd _]. apply Hnd. rewrite fmap_app. set_solver.
  - destruct Hs as [-> _]. rewrite decide_True by done. eexists _, _. split; [reflexivity|]. by rewrite decide_True.
  - destruct Hs as (-> & nx & Ha & Hs). apply NoDup_cons in Hnd as [Hn Hnd].
    assert (Hat : Addr a ≠ Addr tail) by (intros [= ->]; apply Hn; rewrite fmap_app; set_solver).
    rewrite decide_False by done. unfold in_memory in Ha. unfold load. rewrite Ha. simpl. case_decide as Hk.
    + subst k. destruct (IH nx M Hs Hnd) as (b & it' & -> & Hb). eexists _, _. split; [reflexivity|]. rewrite Hb.
      apply bool_decide_ext. split; [by intros ->|by intros [= ->]].
    + eexists _, _. split; [reflexivity|]. rewrite decide_False by done. symmetry. apply bool_decide_eq_false_2. congruence.
Qed.

Lemma validate_spec h head tail L result :
  chain h head tail L → validate h (Addr head) (Addr tail) result = Ok (bool_decide (result = L.*2)).
Proof.
  intros [(_ & nx & Hh & Hs) [_ Hnd]%NoDup_cons _ _]. unfold validate, in_memory in *. simpl. rewrite Hh. simpl.
  destruct (check_result_spec h tail nx L result Hs Hnd) as (b & it & -> & Hb). simpl. by rewrite Hb.
Qed.

(** ** The template *)

(** Between its two steps [list_contains] keeps the node it found; the mutex is free. *)
Record template_thread : Type := mk_template_thread {
  t_work : list Work;
  t_curr : option (ptr * Z);
}.

Record template_world : Type := mk_template_world {
  t_mem : memory;
  t_threads : list template_thread;
}.

Definition template_add : memory → ptr → nat → Z → res (memory * bool) := list_add.
Definition template_remove : memory → ptr → Z → res (memory * bool) := list_remove.

(** [list_contains] up to the unlock. *)
Definition template_contains (h : memory) (head : ptr) (k : Z) : res ptr :=
  '(_, curr) ← find_position h head k;
  Ok curr.

(** return (curr->key == key); *)
Definition template_contains_return (h : memory) (curr : ptr) (k : Z) : res bool :=
  n ← load h curr;
  Ok (bool_decide (key n = k)).

Definition template_thread_step (head : nat) (h : memory) (node : nat) (t : template_thread) :
    option (res (memory * template_thread)) :=
  match t_curr t, t_work t with
  | Some (curr, k), rest => Some (_ ← template_contains_return h curr k; Ok (h, mk_template_thread rest None))
  | None, [] => None
  | None, work :: rest =>
      Some match action_of work with
           | None => Ok (h, mk_template_thread rest None)
           | Some (Add k) => '(h, _) ← template_add h (Addr head) node k; Ok (h, mk_template_thread rest None)
           | Some (Remove k) => '(h, _) ← template_remove h (Addr head) k; Ok (h, mk_template_thread rest None)
           | Some (Contains k) => curr ← template_contains h (Addr head) k; Ok (h, mk_template_thread rest (Some (curr, k)))
           end
  end.

Definition template_step (head tid node : nat) (w : template_world) : option (res template_world) :=
  match t_threads w !! tid, t_mem w !! node with
  | Some t, None =>
      r ← template_thread_step head (t_mem w) node t;
      Some ('(h, t') ← r; Ok (mk_template_world h (<[tid := t']> (t_threads w))))
  | _, _ => None
  end.

Definition template_main (head tail : nat) (work : list (list Work)) : template_world :=
  mk_template_world (list_init head tail) ((λ l, mk_template_thread l None) <$> work).

Fixpoint template_run (head : nat) (choices : list (nat * nat)) (w : template_world) : option (res template_world) :=
  match choices with
  | [] => Some (Ok w)
  | (tid, node) :: choices =>
      r ← template_step head tid node w;
      match r with Ok w' => template_run head choices w' | Err e => Some (Err e) end
  end.

(** ** Properties *)

(** In every interleaving of the threads, the operations on the coarse-grained
    list had, in the order in which they got the mutex, the results of a sorted
    list with repetitions, and each thread made its operations in the order of
    its workload. No step fails. When all threads have finished, [main] reports
    the list as correct exactly when the result file lists the remaining keys
    in order. *)
Theorem coarse_linearizable head tail work w :
  head ≠ tail → Forall (Forall work_ok) work → rtc (step head) (coarse_main head tail work) w →
  ∃ l, replay_actions spec_list [] (log w) = Some l ∧ StronglySorted Z.le l ∧
    (∀ t, actions_of t (log w) `prefix_of` omap action_of (default [] (work !! t))) ∧
    (∀ tid node e, thread_func_step head tid node w ≠ Some (Err e)) ∧
    (finished w → (∀ t, actions_of t (log w) = omap action_of (default [] (work !! t))) ∧
       ∀ result, validate (mem w) (Addr head) (Addr tail) result = Ok (bool_decide (result = l))).
Proof.
  intros Hne Hw Hr. assert (Hok := coarse_steps_ok _ _ _ _ Hne Hw Hr). destruct (wok_chain _ _ _ _ Hok) as (L & Hch & Hrep).
  exists L.*2. split_and!; [done|apply Hch|..].
  - intros t. exists (todo w t). symmetry. apply Hok.
  - intros tid node e Hs. by destruct (thread_func_step_ok _ _ _ _ _ _ _ Hok Hs) as (? & ? & _).
  - intros Hfin. split; [|intros result; by apply validate_spec]. intros t. rewrite <- (wok_order _ _ _ _ Hok).
    unfold todo. destruct (thread_work w !! t) as [l|] eqn:Ht; [|by rewrite app_nil_r].
    eapply Forall_lookup_1 in Hfin; [|done]. simpl in *. subst. by rewrite app_nil_r.
Qed.

Definition sample_work : list (list Work) :=
  [[mk_Work "A" 5; mk_Work "C" 5]; [mk_Work "R" 5]].

Lemma sample_work_ok : Forall (Forall work_ok) sample_work.
Proof.
  assert (H : ∀ c, work_ok (mk_Work c 5)).
  { intros c a. unfold action_of. simpl. repeat case_decide; intros [= <-]; unfold in_range, INT_MIN, INT_MAX; simpl; lia. }
  unfold sample_work. rewrite !Forall_cons, !Forall_nil. auto.
Qed.

Lemma coarse_linearizable_witness :
  ∃ w, rtc (step 0) (coarse_main 0 1 sample_work) w ∧ finished w ∧
    ∃ l, replay_actions spec_list [] (log w) = Some l ∧ ∀ result, validate (mem w) (Addr 0) (Addr 1) result = Ok (bool_decide (result = l)).
Proof.
  eexists. split; [|split].
  - eapply rtc_l; [exists 0, 2; reflexivity|]. eapply rtc_l; [exists 1, 3; reflexivity|]. eapply rtc_l; [exists 0, 3; reflexivity|].
    apply rtc_refl.
  - vm_compute. repeat constructor.
  - match goal with |- ∃ l, replay_actions spec_list [] (log ?w) = _ ∧ _ =>
      destruct (coarse_linearizable 0 1 sample_work w ltac:(done) sample_work_ok) as (l & Hl & _ & _ & _ & Hv) end.
    + eapply rtc_l; [exists 0, 2; reflexivity|]. eapply rtc_l; [exists 1, 3; reflexivity|]. eapply rtc_l; [exists 0, 3; reflexivity|].
      apply rtc_refl.
    + exists l. split; [done|]. apply Hv. vm_compute. repeat constructor.
Defined.

(** In the template a thread can free the node that [list_contains] of another
    thread has found and reads after releasing the mutex. *)
Theorem template_use_after_free :
  Forall (Forall work_ok) sample_work ∧
  ∃ w, template_run 0 [(0, 2); (0, 3); (1, 3)] (template_main 0 1 sample_work) = Some (Ok w) ∧
    template_step 0 0 3 w = Some (Err UndefinedBehaviour).
Proof. split; [apply sample_work_ok|]. eexists. split; reflexivity. Qed.
