(* ===== verification/ListFine.v ===== *)
(** The sorted list of [lab11/fine_grained.cpp] with a mutex in every node, locked
    hand over hand. Each access to shared memory and each lock or unlock is a
    step of its own, and memory is sequentially consistent. The program never
    initialises the mutexes of the two sentinels: what they are at the start is an
    argument of the model. *)
From stdpp Require Import functions base tactics numbers option list list_numbers gmap sets relations sorting.
From Stdlib Require Import ZArith Lia Ascii.
From S2P Require Import Prelude ListSet ListMutex ListCoarse.

(** ** State *)

(** Where a thread is in [list_add], [list_remove] or [list_contains]. *)
Inductive pc : Type :=
| Idle
| LockHead
| ReadNext (prev : ptr)          (* curr = prev->next *)
| LockCurr (prev curr : ptr)
| Test (prev curr : ptr)         (* while (curr->key < key) and the test after it *)
| Link (prev curr : ptr)         (* prev->next = node *)
| LinkNode (prev curr : ptr)     (* node->next = curr *)
| Unlink (prev curr : ptr)       (* prev->next = curr->next *)
| UnlockPrev (prev curr : ptr) (r : bool)
| UnlockCurr (curr : ptr) (r : bool)
| Return (curr : ptr) (r : bool).

#[global] Instance pc_eq_dec : EqDecision pc.
Proof. solve_decision. Defined.

(** [t_action] is the operation being made, [t_node] its new node; [t_results] are
    the values returned so far. *)
Record thread : Type := mk_thread {
  t_work : list Work;
  t_action : action;
  t_node : nat;
  t_pc : pc;
  t_results : list bool;
}.

(** [held] are the locked mutexes with their owners; [log] the operations in the
    order in which they took effect. *)
Record world : Type := mk_world {
  mem : memory;
  held : gmap nat nat;
  threads : list thread;
  log : list (nat * action * bool);
}.

(** ** Steps *)

Definition set_pc (p : pc) (th : thread) : thread :=
  mk_thread (t_work th) (t_action th) (t_node th) p (t_results th).

Definition put (tid : nat) (th : thread) (h : memory) (l : gmap nat nat) (extra : list bool) (w : world) : world :=
  mk_world h l (<[tid := th]> (threads w)) (log w ++ ((λ b, (tid, t_action th, b)) <$> extra)).

Definition goto (tid : nat) (th : thread) (p : pc) (w : world) : world :=
  put tid (set_pc p th) (mem w) (held w) [] w.

(** The loop of [ThreadFunc] takes the next work; [list_add] allocates its node. *)
Definition start (tid node : nat) (th : thread) (w : world) : option (res world) :=
  match t_work th with
  | [] => None
  | work :: rest =>
      match action_of work with
      | None => Some (Ok (put tid (mk_thread rest (t_action th) (t_node th) Idle (t_results th)) (mem w) (held w) [] w))
      | Some (Add k) =>
          match mem w !! node with
          | Some _ => None
          | None =>
              Some (Ok (put tid (mk_thread rest (Add k) node LockHead (t_results th))
                          (<[node := mk_Node k Uninit]> (mem w)) (held w) [] w))
          end
      | Some a => Some (Ok (put tid (mk_thread rest a (t_node th) LockHead (t_results th)) (mem w) (held w) [] w))
      end
  end.

(** The loop condition, with the unlock of [prev] in the body, and the test after the loop. *)
Definition test (tid : nat) (th : thread) (prev curr : ptr) (w : world) : res world :=
  n ← load (mem w) curr;
  let k := action_key (t_action th) in
  if (key n <? k)%Z then
    l ← unlock (mem w) (held w) tid prev;
    Ok (put tid (set_pc (ReadNext curr) th) (mem w) l [] w)
  else
    let finish r := Ok (put tid (set_pc (UnlockPrev prev curr r) th) (mem w) (held w) [r] w) in
    match t_action th with
    | Add _ => if decide (key n = k) then finish false else Ok (goto tid th (Link prev curr) w)
    | Remove _ => if decide (key n = k) then Ok (goto tid th (Unlink prev curr) w) else finish false
    | Contains _ => finish (bool_decide (key n = k))
    end.

(** [free] and [return]. *)
Definition finish (tid : nat) (th : thread) (curr : ptr) (r : bool) (w : world) : res world :=
  h ← match t_action th, r with
      | Add _, false => free (mem w) (Addr (t_node th))
      | Remove _, true => free (mem w) curr
      | _, _ => Ok (mem w)
      end;
  Ok (put tid (mk_thread (t_work th) (t_action th) (t_node th) Idle (t_results th ++ [r])) h (held w) [] w).

(** A step of a thread; [None] while it is blocked or when it has finished. *)
Definition thread_step (head tid node : nat) (w : world) : option (res world) :=
  th ← threads w !! tid;
  match t_pc th with
  | Idle => start tid node th w
  | LockHead =>
      r ← lock (mem w) (held w) tid (Addr head);
      Some (l ← r; Ok (put tid (set_pc (ReadNext (Addr head)) th) (mem w) l [] w))
  | ReadNext prev => Some (n ← load (mem w) prev; Ok (goto tid th (LockCurr prev (next n)) w))
  | LockCurr prev curr =>
      r ← lock (mem w) (held w) tid curr;
      Some (l ← r; Ok (put tid (set_pc (Test prev curr) th) (mem w) l [] w))
  | Test prev curr => Some (test tid th prev curr w)
  | Link prev curr =>
      Some (h ← store_next (mem w) prev (Addr (t_node th));
            Ok (put tid (set_pc (LinkNode prev curr) th) h (held w) [] w))
  | LinkNode prev curr =>
      Some (h ← store_next (mem w) (Addr (t_node th)) curr;
            Ok (put tid (set_pc (UnlockPrev prev curr true) th) h (held w) [true] w))
  | Unlink prev curr =>
      Some (n ← load (mem w) curr;
            h ← store_next (mem w) prev (next n);
            Ok (put tid (set_pc (UnlockPrev prev curr true) th) h (held w) [true] w))
  | UnlockPrev prev curr r =>
      Some (l ← unlock (mem w) (held w) tid prev; Ok (put tid (set_pc (UnlockCurr curr r) th) (mem w) l [] w))
  | UnlockCurr curr r =>
      Some (l ← unlock (mem w) (held w) tid curr; Ok (put tid (set_pc (Return curr r) th) (mem w) l [] w))
  | Return curr r => Some (finish tid th curr r w)
  end.

Definition new_thread (work : list Work) : thread := mk_thread work (Contains 0) 0 Idle [].

(** The state when [main] has created the threads. [list_init] does not initialise the
    mutexes of the sentinels: [fresh] is what the memory they get from [malloc] reads as,
    the mutexes that look locked with their owners. *)
Definition fine_main (head tail : nat) (fresh : gmap nat nat) (work : list (list Work)) : world :=
  mk_world (list_init head tail) fresh (new_thread <$> work) [].

Definition step (head : nat) (w w' : world) : Prop :=
  ∃ tid node, thread_step head tid node w = Some (Ok w').

Definition finished (w : world) : Prop := Forall (λ th, t_work th = [] ∧ t_pc th = Idle) (threads w).

(** ** Invariant *)

(** The mutexes a thread holds. *)
Definition locks (th : thread) : list ptr :=
  match t_pc th with
  | Idle | LockHead | Return _ _ => []
  | ReadNext prev | LockCurr prev _ => [prev]
  | Test prev curr | Link prev curr | LinkNode prev curr | Unlink prev curr | UnlockPrev prev curr _ => [prev; curr]
  | UnlockCurr curr _ => [curr]
  end.

(** The nodes that only this thread can reach: one not yet in the list, or one taken out. *)
Definition owned (th : thread) : list ptr :=
  match t_action th, t_pc th with
  | _, Idle => []
  | Add _, (UnlockPrev _ _ true | UnlockCurr _ true | Return _ true) => []
  | Add _, _ => [Addr (t_node th)]
  | Remove _, (UnlockPrev _ curr true | UnlockCurr curr true | Return curr true) => [curr]
  | _, _ => []
  end.

(** Operations still to take effect, and a result not yet returned. *)
Definition todo (th : thread) : list action :=
  match t_pc th with
  | Idle | UnlockPrev _ _ _ | UnlockCurr _ _ | Return _ _ => []
  | _ => [t_action th]
  end ++ omap action_of (t_work th).

Definition inflight (th : thread) : list bool :=
  match t_pc th with UnlockPrev _ _ r | UnlockCurr _ r | Return _ r => [r] | _ => [] end.

Definition results_of (t : nat) (log : list (nat * action * bool)) : list bool :=
  snd <$> filter (λ e, fst (fst e) = t) log.

Section invariant.
  Context (head tail : nat).

Local Notation full := (full_list head tail).

(** While a thread is about to set the field [next] of a node it has linked in, the
    list goes on at [curr]. *)
Definition pending (ths : list thread) (a : nat) (q : ptr) : Prop :=
  ∃ t th, ths !! t = Some th ∧ t_pc th = LinkNode (Addr a) q.

Definition nxt (h : memory) (ths : list thread) (a : nat) (k : Z) (q : ptr) : Prop :=
  ∃ n, h !! a = Some n ∧ key n = k ∧ (pending ths a q ∨ (∀ q', ¬ pending ths a q') ∧ next n = q).

Definition pc_ok (F : list (nat * Z)) (th : thread) : Prop :=
  let k := action_key (t_action th) in
  match t_pc th with
  | Idle | LockHead | Return _ _ => True
  | ReadNext prev => at_pos F k prev
  | LockCurr prev curr | Test prev curr => ∃ kc, adj F k prev curr kc
  | Link prev curr | LinkNode prev curr => t_action th = Add k ∧ ∃ kc, adj F k prev curr kc ∧ (k < kc)%Z
  | Unlink prev curr => t_action th = Remove k ∧ adj F k prev curr k
  | UnlockPrev prev curr _ => prev ∈ Addr <$> F.*1 ∧ (curr ∈ Addr <$> F.*1 ∨ curr ∈ owned th) ∧ prev ≠ curr
  | UnlockCurr curr _ => curr ∈ Addr <$> F.*1 ∨ curr ∈ owned th
  end.

Record thread_ok (L : list (nat * Z)) (h : memory) (th : thread) : Prop := {
  tok_pc : pc_ok (full L) th;
  tok_owned : ∀ p, p ∈ owned th → ∃ a, p = Addr a ∧ a ∉ (full L).*1 ∧ is_Some (h !! a);
  tok_node : ∀ k, t_action th = Add k → Addr (t_node th) ∈ owned th → ∃ q, h !! t_node th = Some (mk_Node k q);
  tok_link : ∀ b q, t_pc th = LinkNode (Addr b) q → ∃ n, h !! b = Some n ∧ next n = Addr (t_node th);
  tok_range : t_pc th ≠ Idle → in_range (action_key (t_action th));
  tok_work : Forall work_ok (t_work th);
}.

Definition hist_ok (prog : list Work) (t : nat) (th : thread) (lg : list (nat * action * bool)) : Prop :=
  actions_of t lg ++ todo th = omap action_of prog ∧ results_of t lg = t_results th ++ inflight th.

Record world_ok (work : list (list Work)) (w : world) (L : list (nat * Z)) : Prop := {
  ok_seg : lseg (nxt (mem w) (threads w)) (Addr head) (full L) NULL;
  ok_nodup : NoDup (full L).*1;
  ok_sorted : StronglySorted Z.lt L.*2;
  ok_range : Forall in_range L.*2;
  ok_held : held_ok locks (held w) (threads w);
  ok_threads : ∀ t th, threads w !! t = Some th → thread_ok L (mem w) th;
  ok_owned : ∀ t u th uh a, threads w !! t = Some th → threads w !! u = Some uh →
    Addr a ∈ owned th → Addr a ∈ owned uh → t = u;
  ok_log : replay_actions spec_set ∅ (log w) = Some (list_to_set L.*2);
  ok_hist : ∀ t th, threads w !! t = Some th → hist_ok (default [] (work !! t)) t th (log w);
  ok_number : length (threads w) = length work;
}.


(** ** A step of one thread *)

Lemma results_of_snoc t lg u a b :
  results_of t (lg ++ [(u, a, b)]) = results_of t lg ++ (if decide (u = t) then [b] else []).
Proof. unfold results_of. rewrite filter_app, fmap_app. f_equal. by rewrite filter_cons; simpl; case_decide. Qed.

Lemma hist_ok_other prog t th lg u a extra :
  u ≠ t → hist_ok prog t th lg → hist_ok prog t th (lg ++ ((λ b, (u, a, b)) <$> extra)).
Proof.
  intros Hu. revert lg. induction extra as [|b extra IH]; intros lg [H1 H2]; [by rewrite app_nil_r|].
  simpl. rewrite cons_middle, (assoc_L app). apply IH. split.
  - by rewrite actions_of_snoc, decide_False, app_nil_r by done.
  - by rewrite results_of_snoc, decide_False, app_nil_r by done.
Qed.

(** What has to be shown for a step of thread [t]. *)
Lemma world_ok_put work w L t th th' h' l' extra L' :
  world_ok work w L → threads w !! t = Some th →
  lseg (nxt h' (<[t := th']> (threads w))) (Addr head) (full L') NULL → NoDup (full L').*1 →
  StronglySorted Z.lt L'.*2 → Forall in_range L'.*2 →
  (∀ a, l' !! a = Some t ↔ Addr a ∈ locks th') → (∀ a u, u ≠ t → l' !! a = Some u ↔ held w !! a = Some u) →
  thread_ok L' h' th' →
  (∀ u uh, u ≠ t → threads w !! u = Some uh → thread_ok L (mem w) uh → thread_ok L' h' uh) →
  (∀ a, Addr a ∈ owned th' → Addr a ∈ owned th ∨ mem w !! a = None ∨ a ∈ (full L).*1) →
  replay_actions spec_set ∅ (log w ++ ((λ b, (t, t_action th', b)) <$> extra)) = Some (list_to_set L'.*2) →
  hist_ok (default [] (work !! t)) t th' (log w ++ ((λ b, (t, t_action th', b)) <$> extra)) →
  world_ok work (put t th' h' l' extra w) L'.
Proof.
  intros Hok Ht Hseg Hnd Hs Hr Hl1 Hl2 Hth Hoth Hown Hlog Hhist. assert (Hlt := lookup_lt_Some _ _ _ Ht).
  assert (Hcase : ∀ u uh, <[t := th']> (threads w) !! u = Some uh → u = t ∧ uh = th' ∨ u ≠ t ∧ threads w !! u = Some uh).
  { intros u uh Hu. destruct (decide (u = t)) as [->|Hne]; [left|right]; [|by rewrite list_lookup_insert_ne in Hu].
    rewrite list_lookup_insert_eq in Hu by done. by simplify_eq. }
  split; simpl; try done.
  - eapply held_ok_put; [apply Hok|done|by split].
  - intros u uh [[-> ->]|[Hne Hu]]%Hcase; [done|]. by apply (Hoth u), (ok_threads _ _ _ Hok u).
  - assert (Hx : ∀ u uh a, u ≠ t → threads w !! u = Some uh → Addr a ∈ owned th' → Addr a ∈ owned uh → False).
    { intros u uh a Hne Hu H1 H2. destruct (tok_owned _ _ _ (ok_threads _ _ _ Hok u uh Hu) _ H2) as (a' & [= <-] & Hnin & [n Hn]).
      destruct (Hown a H1) as [H3|[H3|H3]]; [by apply Hne, (ok_owned _ _ _ Hok u t uh th a)|congruence|done]. }
    intros u v uh vh a [[-> ->]|[Hu Hu']]%Hcase [[-> ->]|[Hv Hv']]%Hcase H1 H2; [done|exfalso; by eapply Hx..|].
    by apply (ok_owned _ _ _ Hok u v uh vh a).
  - intros u uh [[-> ->]|[Hne Hu]]%Hcase; [done|]. apply hist_ok_other; [done|]. by apply Hok.
  - rewrite length_insert. apply Hok.
Qed.

Definition no_link (th : thread) : Prop := ∀ p q, t_pc th ≠ LinkNode p q.

Lemma pending_put ths t th th' a q :
  ths !! t = Some th → no_link th → no_link th' → pending (<[t := th']> ths) a q ↔ pending ths a q.
Proof.
  intros Ht Hn Hn'. assert (Hlt := lookup_lt_Some _ _ _ Ht). split; intros (u & uh & Hu & Hpc); exists u.
  - destruct (decide (u = t)) as [->|Hne]; [rewrite list_lookup_insert_eq in Hu by done; simplify_eq; by apply Hn' in Hpc|].
    rewrite list_lookup_insert_ne in Hu by done. eauto.
  - destruct (decide (u = t)) as [->|Hne]; [simplify_eq; by apply Hn in Hpc|].
    rewrite list_lookup_insert_ne by done. eauto.
Qed.

Lemma nxt_put ths t th th' h a k q :
  ths !! t = Some th → no_link th → no_link th' → nxt h ths a k q → nxt h (<[t := th']> ths) a k q.
Proof.
  intros Ht Hn Hn' (n & Ha & Hk & Hp). exists n. split_and!; [done..|]. by setoid_rewrite (pending_put ths t th th' a _ Ht Hn Hn').
Qed.

(** *** Locks *)

Lemma not_pending work w L t th a :
  world_ok work w L → threads w !! t = Some th → Addr a ∈ locks th → no_link th → ∀ q, ¬ pending (threads w) a q.
Proof.
  intros Hok Ht Ha Hn q (u & uh & Hu & Hpc). assert (t = u) as <-; [|simplify_eq; by apply Hn in Hpc].
  apply (holds _ _ _ _ _ a (ok_held _ _ _ Hok) Ht) in Ha.
  assert (held w !! a = Some u) by (apply (holds _ _ _ _ _ a (ok_held _ _ _ Hok) Hu); unfold locks; rewrite Hpc; by left). congruence.
Qed.

(** *** Memory *)

Lemma full_mem work w L p :
  world_ok work w L → p ∈ Addr <$> (full L).*1 → ∃ a n, p = Addr a ∧ mem w !! a = Some n.
Proof.
  intros Hok (a & -> & ([a' k] & -> & [i Hi]%list_elem_of_lookup)%list_elem_of_fmap)%list_elem_of_fmap.
  destruct (lseg_lookup _ _ _ _ _ _ _ (ok_seg _ _ _ Hok) Hi) as (nx & (n & Hn & _) & _). simpl. eauto.
Qed.

Lemma adj_mem work w L k p c kc :
  world_ok work w L → adj (full L) k p c kc →
  ∃ b cc nb nc, p = Addr b ∧ c = Addr cc ∧ mem w !! b = Some nb ∧ mem w !! cc = Some nc ∧ key nc = kc ∧ b ≠ cc ∧
    ((∀ q, ¬ pending (threads w) b q) → next nb = c).
Proof.
  intros Hok (i & b & kb & cc & Hb & Hc & -> & -> & _).
  destruct (lseg_lookup _ _ _ _ _ _ _ (ok_seg _ _ _ Hok) Hb) as (nx & (nb & Hnb & _ & Hnx) & Hlink).
  destruct (lseg_lookup _ _ _ _ _ _ _ (ok_seg _ _ _ Hok) Hc) as (nx' & (nc & Hnc & Hk & _) & _).
  exists b, cc, nb, nc. split_and!; [done..| |].
  - intros <-. assert (i = S i); [|lia]. eapply NoDup_lookup; [exact (ok_nodup _ _ _ Hok)|..]; rewrite list_lookup_fmap.
    + by rewrite Hb.
    + by rewrite Hc.
  - intros Hp. rewrite (Hlink _ _ Hc) in Hnx. destruct Hnx as [Hnx|[_ Hnx]]; [by apply Hp in Hnx|done].
Qed.

Lemma unlock_listed work w L t th p :
  world_ok work w L → threads w !! t = Some th → p ∈ locks th → p ∈ Addr <$> (full L).*1 ∨ p ∈ owned th →
  ∃ a, p = Addr a ∧ held w !! a = Some t ∧ unlock (mem w) (held w) t p = Ok (delete a (held w)).
Proof.
  intros Hok Ht Hp Hin. assert (Ha : ∃ a n, p = Addr a ∧ mem w !! a = Some n).
  { destruct Hin as [Hin|Hin]; [by eapply full_mem|].
    destruct (tok_owned _ _ _ (ok_threads _ _ _ Hok _ _ Ht) _ Hin) as (a & -> & _ & [n Hn]). eauto. }
  destruct Ha as (a & n & -> & Hn). exists a. apply (holds _ _ _ _ _ a (ok_held _ _ _ Hok) Ht) in Hp. split_and!; [done..|].
  simpl. by rewrite Hn, Hp, decide_True.
Qed.

Lemma lock_listed work w L t p r :
  world_ok work w L → p ∈ Addr <$> (full L).*1 → lock (mem w) (held w) t p = Some r →
  ∃ a, p = Addr a ∧ held w !! a = None ∧ r = Ok (<[a := t]> (held w)).
Proof.
  intros Hok Hin. destruct (full_mem _ _ _ _ Hok Hin) as (a & n & -> & Hn). simpl. rewrite Hn.
  destruct (held w !! a) eqn:Hh; [done|]. intros [= <-]. eauto.
Qed.

(** *** Steps that leave the list as it is *)

Lemma hist_put prog t th th' lg extra :
  hist_ok prog t th lg → t_results th' = t_results th →
  todo th = ((λ _, t_action th') <$> extra) ++ todo th' → inflight th' = inflight th ++ extra →
  hist_ok prog t th' (lg ++ ((λ b, (t, t_action th', b)) <$> extra)).
Proof.
  intros [H1 H2] Hr Ht Hi.
  assert (Ha : actions_of t (lg ++ ((λ b, (t, t_action th', b)) <$> extra)) = actions_of t lg ++ ((λ _, t_action th') <$> extra)).
  { unfold actions_of. rewrite filter_app, fmap_app. f_equal. clear. induction extra as [|b extra IH]; [done|].
    rewrite fmap_cons, filter_cons_True by done. cbn. f_equal. exact IH. }
  assert (Hb : results_of t (lg ++ ((λ b, (t, t_action th', b)) <$> extra)) = results_of t lg ++ extra).
  { unfold results_of. rewrite filter_app, fmap_app. f_equal. clear. induction extra as [|b extra IH]; [done|].
    rewrite fmap_cons, filter_cons_True by done. cbn. f_equal. exact IH. }
  split; [by rewrite Ha, <- (assoc_L app), <- Ht|]. by rewrite Hb, H2, Hr, Hi, (assoc_L app).
Qed.

Lemma quiet_step work w L t th p l' extra :
  world_ok work w L → threads w !! t = Some th → no_link th → no_link (set_pc p th) →
  held_after locks (held w) t (set_pc p th) l' → pc_ok (full L) (set_pc p th) → owned (set_pc p th) = owned th → t_pc th ≠ Idle →
  todo th = ((λ _, t_action th) <$> extra) ++ todo (set_pc p th) → inflight (set_pc p th) = inflight th ++ extra →
  replay_actions spec_set ∅ (log w ++ ((λ b, (t, t_action th, b)) <$> extra)) = Some (list_to_set L.*2) →
  world_ok work (put t (set_pc p th) (mem w) l' extra w) L.
Proof.
  intros Hok Ht Hn Hn' [Hl1 Hl2] Hpc Hown Hidle Htodo Hinf Hlog.
  assert (Hth := ok_threads _ _ _ Hok _ _ Ht).
  apply (world_ok_put work w L t th); try done; try apply Hok.
  - eapply lseg_mono; [|apply Hok]. intros a k nx _. by apply (nxt_put (threads w) t th).
  - destruct Hth as [_ Ho Hnode _ Hr Hw]. split; [done|by rewrite Hown|intros k; rewrite Hown; apply Hnode|intros b q H; by apply Hn' in H|by intros _; apply Hr|done].
  - rewrite Hown. auto.
  - apply hist_put with th; try done. by apply Hok.
Qed.

Ltac by_pc H := unfold no_link, pc_ok, owned, todo, inflight, locks, set_pc in *; simpl in *; rewrite ?H in *; simpl in *.

Lemma replay_nil (w : world) S (a : bool → nat * action * bool) : replay_actions spec_set ∅ (log w) = S →
  replay_actions spec_set ∅ (log w ++ ((λ b, a b) <$> [])) = S.
Proof. by rewrite app_nil_r. Qed.

Lemma full_lookup_1 L : ∃ c, full L !! 1 = Some c.
Proof. unfold full_list. destruct L; simpl; eauto. Qed.

Ltac quiet Hpc Hok :=
  try done; try (by apply replay_nil, Hok); try (by by_pc Hpc);
  try (by by_pc Hpc; match goal with th : thread |- _ => destruct (t_action th) end);
  try (by by_pc Hpc; match goal with th : thread, r : bool |- _ => destruct (t_action th), r end).

Lemma lock_head_ok work w L t th l :
  world_ok work w L → threads w !! t = Some th → t_pc th = LockHead → lock (mem w) (held w) t (Addr head) = Some l →
  ∃ l', l = Ok l' ∧ world_ok work (put t (set_pc (ReadNext (Addr head)) th) (mem w) l' [] w) L.
Proof.
  intros Hok Ht Hpc Hl. destruct (lock_listed work w L t (Addr head) l Hok) as (a & [= <-] & Hh & ->); [by left|done|].
  eexists. split; [done|]. apply (quiet_step work w L t th); quiet Hpc Hok.
  - eapply held_lock; [apply Hok|done|done|]. by_pc Hpc. set_solver.
  - by_pc Hpc. destruct (full_lookup_1 L) as [c Hc]. exists 0, head, INT_MIN, c. auto.
Qed.

Lemma read_next_ok work w L t th prev :
  world_ok work w L → threads w !! t = Some th → t_pc th = ReadNext prev →
  ∃ n, load (mem w) prev = Ok n ∧ world_ok work (goto t th (LockCurr prev (next n)) w) L.
Proof.
  intros Hok Ht Hpc. assert (Hpos := tok_pc _ _ _ (ok_threads _ _ _ Hok _ _ Ht)). unfold pc_ok in Hpos. rewrite Hpc in Hpos.
  destruct Hpos as (i & b & kb & [c kc] & Hb & Hc & -> & Hk).
  assert (Hadj : adj (full L) (action_key (t_action th)) (Addr b) (Addr c) kc) by (exists i, b, kb, c; done).
  destruct (adj_mem _ _ _ _ _ _ _ Hok Hadj) as (b' & c' & nb & nc & [= <-] & [= <-] & Hnb & _ & _ & _ & Hnext).
  exists nb. split; [by simpl; rewrite Hnb|]. rewrite Hnext; cycle 1.
  { eapply not_pending; try done; by_pc Hpc; [by left|done]. }
  apply (quiet_step work w L t th); quiet Hpc Hok.
  - eapply held_keep; [apply Hok|done|]. by by_pc Hpc.
  - by_pc Hpc. eauto.
Qed.

Lemma lock_curr_ok work w L t th prev curr l :
  world_ok work w L → threads w !! t = Some th → t_pc th = LockCurr prev curr → lock (mem w) (held w) t curr = Some l →
  ∃ l', l = Ok l' ∧ world_ok work (put t (set_pc (Test prev curr) th) (mem w) l' [] w) L.
Proof.
  intros Hok Ht Hpc Hl. assert (Hpos := tok_pc _ _ _ (ok_threads _ _ _ Hok _ _ Ht)). unfold pc_ok in Hpos. rewrite Hpc in Hpos.
  destruct Hpos as [kc Hadj]. destruct (lock_listed work w L t curr l Hok) as (a & -> & Hh & ->); [by eapply adj_elem|done|].
  eexists. split; [done|]. apply (quiet_step work w L t th); quiet Hpc Hok.
  - eapply held_lock; [apply Hok|done|done|]. by_pc Hpc. set_solver.
  - by_pc Hpc. eauto.
Qed.

Lemma unlock_prev_ok work w L t th prev curr r :
  world_ok work w L → threads w !! t = Some th → t_pc th = UnlockPrev prev curr r →
  ∃ l', unlock (mem w) (held w) t prev = Ok l' ∧ world_ok work (put t (set_pc (UnlockCurr curr r) th) (mem w) l' [] w) L.
Proof.
  intros Hok Ht Hpc. assert (Hpos := tok_pc _ _ _ (ok_threads _ _ _ Hok _ _ Ht)). unfold pc_ok in Hpos. rewrite Hpc in Hpos.
  destruct Hpos as (Hp & Hc & Hne). destruct (unlock_listed _ _ _ _ _ prev Hok Ht) as (a & -> & Ha & Hu); [by_pc Hpc; by left|by left|].
  eexists. split; [done|]. apply (quiet_step work w L t th); quiet Hpc Hok.
  - eapply held_unlock; [apply Hok|done|done|]. by_pc Hpc. set_solver.
Qed.

Lemma unlock_curr_ok work w L t th curr r :
  world_ok work w L → threads w !! t = Some th → t_pc th = UnlockCurr curr r →
  ∃ l', unlock (mem w) (held w) t curr = Ok l' ∧ world_ok work (put t (set_pc (Return curr r) th) (mem w) l' [] w) L.
Proof.
  intros Hok Ht Hpc. assert (Hpos := tok_pc _ _ _ (ok_threads _ _ _ Hok _ _ Ht)). unfold pc_ok in Hpos. rewrite Hpc in Hpos.
  destruct (unlock_listed _ _ _ _ _ curr Hok Ht) as (a & -> & Ha & Hu); [by_pc Hpc; by left|done|].
  eexists. split; [done|]. apply (quiet_step work w L t th); quiet Hpc Hok.
  - eapply held_unlock; [apply Hok|done|done|]. by_pc Hpc. set_solver.
Qed.

(** *** The end of the search *)

Lemma test_finish_ok work w L t th prev curr kc r :
  world_ok work w L → threads w !! t = Some th → t_pc th = Test prev curr →
  adj (full L) (action_key (t_action th)) prev curr kc → (r = false ∨ ∃ k, t_action th = Contains k) →
  spec_set (list_to_set L.*2) (t_action th) = (list_to_set L.*2, r) →
  world_ok work (put t (set_pc (UnlockPrev prev curr r) th) (mem w) (held w) [r] w) L.
Proof.
  intros Hok Ht Hpc Hadj Hr Hspec.
  assert (Hown : owned (set_pc (UnlockPrev prev curr r) th) = owned th).
  { by_pc Hpc. destruct Hr as [->|[k ->]]; by destruct (t_action th). }
  apply (quiet_step work w L t th); try done; try (by by_pc Hpc).
  - eapply held_keep; [apply Hok|done|]. by by_pc Hpc.
  - destruct (adj_elem _ _ _ _ _ Hadj). destruct (adj_mem _ _ _ _ _ _ _ Hok Hadj) as (b & c & nb & nc & -> & -> & _ & _ & _ & Hne & _).
    by_pc Hpc. split_and!; [done|by left|congruence].
  - assert (H := replay_actions_snoc spec_set ∅ (log w) t (t_action th) _ (ok_log _ _ _ Hok)). by rewrite Hspec in H.
Qed.

Lemma test_ok work w L t th prev curr :
  world_ok work w L → threads w !! t = Some th → t_pc th = Test prev curr →
  ∃ w', test t th prev curr w = Ok w' ∧ world_ok work w' L.
Proof.
  intros Hok Ht Hpc. assert (Hth := ok_threads _ _ _ Hok _ _ Ht).
  assert (Hpos := tok_pc _ _ _ Hth). unfold pc_ok in Hpos. rewrite Hpc in Hpos. destruct Hpos as [kc Hadj].
  assert (Hrange : in_range (action_key (t_action th))) by (apply (tok_range _ _ _ Hth); by rewrite Hpc).
  destruct (adj_mem _ _ _ _ _ _ _ Hok Hadj) as (b & c & nb & nc & -> & -> & Hb & Hc & Hkc & Hne & _).
  destruct (adj_elem _ _ _ _ _ Hadj) as [Hin1 Hin2].
  unfold test. unfold load. rewrite Hc. cbn [mbind res_bind]. rewrite Hkc.
  destruct (kc <? action_key (t_action th))%Z eqn:Hlt; [apply Z.ltb_lt in Hlt|apply Z.ltb_ge in Hlt].
  { destruct (unlock_listed _ _ _ _ _ (Addr b) Hok Ht) as (a & [= <-] & Ha & ->); [by_pc Hpc; by left|by left|].
    eexists. split; [reflexivity|]. apply (quiet_step work w L t th); quiet Hpc Hok.
    - eapply held_unlock; [apply Hok|done|done|]. by_pc Hpc. set_solver.
    - by_pc Hpc. destruct Hadj as (i & b' & kb & c' & Hb' & Hc' & [= <-] & [= <-] & _).
      destruct (full L !! S (S i)) as [d|] eqn:Hd; [exists (S i), c, kc, d; auto|].
      exfalso. assert (Hlast : last (full L) = Some (c, kc)).
      { rewrite last_lookup. apply lookup_ge_None in Hd. apply lookup_lt_Some in Hc' as Hl.
        by replace (pred (length (full L))) with (S i) by lia. }
      unfold full_list in Hlast. rewrite app_comm_cons, last_snoc in Hlast. injection Hlast as _ <-. unfold in_range in Hrange. lia. }
  assert (Hmem := adj_member _ _ _ _ _ _ _ (ok_sorted _ _ _ Hok) (ok_range _ _ _ Hok) Hrange Hadj Hlt).
  assert (Hfin := λ r, test_finish_ok work w L t th (Addr b) (Addr c) kc r Hok Ht Hpc Hadj).
  destruct (t_action th) as [k|k|k] eqn:Ha; simpl in Hmem, Hlt; simpl action_key.
  - case_decide as Hk; eexists; (split; [reflexivity|]); [apply Hfin; [by left|apply spec_set_same; tauto]|].
    apply (quiet_step work w L t th); quiet Hpc Hok; [eapply held_keep; [apply Hok|done|by by_pc Hpc]|].
    by_pc Hpc. rewrite Ha. simpl. split; [done|]. exists kc. split; [done|lia].
  - case_decide as Hk; eexists; (split; [reflexivity|]); [|apply Hfin; [by left|apply spec_set_same; tauto]].
    apply (quiet_step work w L t th); quiet Hpc Hok; [eapply held_keep; [apply Hok|done|by by_pc Hpc]|].
    by_pc Hpc. rewrite Ha. simpl. split; [done|]. by rewrite Hk in Hadj.
  - eexists. split; [reflexivity|]. apply Hfin; [right; eauto|]. apply spec_set_same. apply bool_decide_ext. by rewrite Hmem.
Qed.

(** *** Steps that allocate or free a node *)

Lemma thread_ok_mem L h h' uh :
  thread_ok L h uh → (∀ a, Addr a ∈ owned uh → h' !! a = h !! a) →
  (∀ b q, t_pc uh = LinkNode (Addr b) q → h' !! b = h !! b) → thread_ok L h' uh.
Proof.
  intros [H1 H2 H3 H4 H5 H6] Ho Hl. split; [done|..|done|done].
  - intros p Hp. destruct (H2 p Hp) as (a & -> & ? & ?). exists a. by rewrite Ho.
  - intros k Hk Hn. rewrite Ho by done. by apply H3.
  - intros b q Hb. rewrite (Hl b q Hb). by eapply H4.
Qed.

Lemma link_in_full L h uh b q : thread_ok L h uh → t_pc uh = LinkNode (Addr b) q → b ∈ (full L).*1.
Proof.
  intros Hth Hpc. assert (H := tok_pc _ _ _ Hth). unfold pc_ok in H. rewrite Hpc in H.
  destruct H as (_ & kc & [Hin _]%adj_elem & _). by apply (list_elem_of_fmap_inj_2 Addr) in Hin.
Qed.

Lemma nxt_mem h h' ths a k q : h' !! a = h !! a → nxt h ths a k q → nxt h' ths a k q.
Proof. intros Ha (n & Hn & H). exists n. by rewrite Ha. Qed.

Lemma local_step work w L t th th' h' :
  world_ok work w L → threads w !! t = Some th → no_link th → no_link th' → locks th' = locks th →
  (∀ a, h' !! a ≠ mem w !! a → Addr a ∈ owned th ∨ mem w !! a = None) →
  (∀ a, Addr a ∈ owned th' → Addr a ∈ owned th ∨ mem w !! a = None) → thread_ok L h' th' →
  hist_ok (default [] (work !! t)) t th' (log w) →
  world_ok work (put t th' h' (held w) [] w) L.
Proof.
  intros Hok Ht Hn Hn' Hl Hch Hown Hth Hhist. assert (Hfull : ∀ a, a ∈ (full L).*1 → h' !! a = mem w !! a).
  { intros a Ha. destruct (decide (h' !! a = mem w !! a)) as [|[H|H]%Hch]; [done|exfalso..].
    - by destruct (tok_owned _ _ _ (ok_threads _ _ _ Hok _ _ Ht) _ H) as (a' & [= <-] & ? & _).
    - destruct (full_mem _ _ _ (Addr a) Hok) as (a' & n & [= <-] & ?); [by apply (list_elem_of_fmap_2 Addr)|congruence]. }
  destruct (held_keep _ _ _ _ _ th' (ok_held _ _ _ Hok) Ht Hl) as [Hl1 Hl2].
  apply (world_ok_put work w L t th); try done; try apply Hok.
  - eapply lseg_mono; [|apply Hok]. intros a k nx Ha Hnx. apply nxt_mem with (mem w).
    + apply Hfull. by apply (list_elem_of_fmap_2 fst) in Ha.
    + by apply (nxt_put (threads w) t th).
  - intros u uh Hu Huh Hok'. apply thread_ok_mem with (mem w); [done|..].
    + intros a Ha. destruct (decide (h' !! a = mem w !! a)) as [|[H|H]%Hch]; [done|exfalso..].
      * by apply Hu, (ok_owned _ _ _ Hok u t uh th a).
      * destruct (tok_owned _ _ _ Hok' _ Ha) as (a' & [= <-] & _ & [n ?]). congruence.
    + intros b q Hb. by eapply Hfull, link_in_full.
  - intros a Ha. destruct (Hown a Ha); auto.
  - apply replay_nil, Hok.
  - simpl. by rewrite app_nil_r.
Qed.

Lemma finish_ok work w L t th curr r :
  world_ok work w L → threads w !! t = Some th → t_pc th = Return curr r →
  ∃ w', finish t th curr r w = Ok w' ∧ world_ok work w' L.
Proof.
  intros Hok Ht Hpc. assert (Hth := ok_threads _ _ _ Hok _ _ Ht).
  set (th' := mk_thread (t_work th) (t_action th) (t_node th) Idle (t_results th ++ [r])).
  assert (Hlocal : ∀ h', (∀ a, h' !! a ≠ mem w !! a → Addr a ∈ owned th) → world_ok work (put t th' h' (held w) [] w) L).
  { intros h' Hch. apply (local_step work w L t th); try done; try (by by_pc Hpc).
    - intros a Ha. left. by apply Hch.
    - intros a Ha. unfold owned in Ha. simpl in Ha. destruct (t_action th); by apply elem_of_nil in Ha.
    - split; [done|intros p Hp|intros k _ Hp|done|done|apply Hth]; unfold owned in Hp; simpl in Hp;
        destruct (t_action th); by apply elem_of_nil in Hp.
    - destruct (ok_hist _ _ _ Hok _ _ Ht) as [H1 H2]. split; by_pc Hpc; [done|]. by rewrite app_nil_r. }
  assert (Hfree : ∀ p, p ∈ owned th → ∃ a n, p = Addr a ∧ mem w !! a = Some n).
  { intros p Hp. destruct (tok_owned _ _ _ Hth _ Hp) as (a & -> & _ & [n Hn]). eauto. }
  assert (Hdel : ∀ p, p ∈ owned th → ∃ h', free (mem w) p = Ok h' ∧ world_ok work (put t th' h' (held w) [] w) L).
  { intros p Hp. destruct (Hfree p Hp) as (a & n & -> & Hn). exists (delete a (mem w)). simpl. rewrite Hn. split; [done|].
    apply Hlocal. intros b Hb. destruct (decide (a = b)) as [->|Hne]; [done|]. by rewrite lookup_delete_ne in Hb. }
  unfold finish. assert (Hkeep : world_ok work (put t th' (mem w) (held w) [] w) L) by (apply Hlocal; by intros a ?).
  unfold owned in Hdel. rewrite Hpc in Hdel. destruct (t_action th) eqn:Ha, r; simpl.
  - eauto.
  - destruct (Hdel (Addr (t_node th)) ltac:(by left)) as (h' & Hh & ?). simpl in Hh. rewrite Hh. simpl. eauto.
  - destruct (Hdel curr ltac:(by left)) as (h' & -> & ?). simpl. eauto.
  - eauto.
  - eauto.
  - eauto.
Qed.

Lemma start_ok work w L t th node r :
  world_ok work w L → threads w !! t = Some th → t_pc th = Idle → start t node th w = Some r →
  ∃ w', r = Ok w' ∧ world_ok work w' L.
Proof.
  intros Hok Ht Hpc Hs. assert (Hth := ok_threads _ _ _ Hok _ _ Ht). unfold start in Hs.
  destruct (t_work th) as [|wk rest] eqn:Hwk; [done|]. assert (Hw := tok_work _ _ _ Hth). rewrite Hwk in Hw.
  apply Forall_cons in Hw as [Hw Hrest]. destruct (ok_hist _ _ _ Hok _ _ Ht) as [Hh1 Hh2].
  unfold todo, inflight in Hh1, Hh2. rewrite Hpc, Hwk in Hh1. rewrite Hpc in Hh2. simpl in Hh1, Hh2.
  assert (Hno : ∀ a, mem w !! a ≠ mem w !! a → Addr a ∈ owned th ∨ mem w !! a = None) by done.
  assert (Hplain : ∀ a, action_of wk = Some a → (∀ k, a ≠ Add k) →
    world_ok work (put t (mk_thread rest a (t_node th) LockHead (t_results th)) (mem w) (held w) [] w) L).
  { intros a Ha Hna. assert (Hoa : owned (mk_thread rest a (t_node th) LockHead (t_results th)) = []).
    { unfold owned. simpl. destruct a; [by destruct (Hna k)|done|done]. }
    apply (local_step work w L t th); try done; try (by by_pc Hpc).
    - intros b. rewrite Hoa. by intros ?%elem_of_nil.
    - split; [done|rewrite Hoa; by intros p ?%elem_of_nil|rewrite Hoa; by intros k _ ?%elem_of_nil|done|intros _; by apply Hw|done].
    - split; [unfold todo; simpl|by rewrite Hh2]. by rewrite Ha in Hh1. }
  destruct (action_of wk) as [a|] eqn:Ha.
  2: { injection Hs as <-. eexists. split; [done|]. apply (local_step work w L t th); try done; try (by by_pc Hpc).
    - intros b. unfold owned. simpl. destruct (t_action th); by intros ?%elem_of_nil.
    - split; [done|intros p Hp|intros k _ Hp|done|done|done]; unfold owned in Hp; simpl in Hp;
        destruct (t_action th); by apply elem_of_nil in Hp. }
  destruct a as [k|k|k]; [|injection Hs as <-; eexists; split; [done|]; by apply Hplain..].
  destruct (mem w !! node) eqn:Hn; [done|]. injection Hs as <-. eexists. split; [done|].
  apply (local_step work w L t th); try done; try (by by_pc Hpc).
  - intros a Hne. right. destruct (decide (node = a)) as [->|Hna]; [done|]. by rewrite lookup_insert_ne in Hne.
  - intros a Hin. right. unfold owned in Hin. simpl in Hin. apply list_elem_of_singleton in Hin as [= ->]. done.
  - split; simpl; [done|..|done|intros _; by apply (Hw (Add k))|done].
    + intros p Hp. unfold owned in Hp. simpl in Hp. apply list_elem_of_singleton in Hp as ->. exists node. split_and!; [done| |].
      * intros Hin. destruct (full_mem _ _ _ (Addr node) Hok) as (a & n & [= <-] & ?); [by apply (list_elem_of_fmap_2 Addr)|congruence].
      * by rewrite lookup_insert_eq.
    + intros k' [= <-] _. rewrite lookup_insert_eq. eauto.
Qed.

(** *** Steps that change the list *)

Lemma pc_ok_insert F1 x n y F2 uh :
  pc_ok (F1 ++ x :: y :: F2) uh → Addr x.1 ∉ locks uh → pc_ok (F1 ++ x :: n :: y :: F2) uh.
Proof.
  assert (Hin : ∀ p, p ∈ Addr <$> (F1 ++ x :: y :: F2).*1 → p ∈ Addr <$> (F1 ++ x :: n :: y :: F2).*1).
  { intros p. rewrite !fmap_app, !fmap_cons. set_solver. }
  unfold pc_ok, locks. destruct (t_pc uh); try done; intros H Hx.
  - apply at_pos_insert; [done|]. intros ->. set_solver.
  - destruct H as [kc H]. exists kc. apply adj_insert; [done|]. intros ->. set_solver.
  - destruct H as [kc H]. exists kc. apply adj_insert; [done|]. intros ->. set_solver.
  - destruct H as (Ha & kc & H & Hk). split; [done|]. exists kc. split; [|done]. apply adj_insert; [done|]. intros ->. set_solver.
  - destruct H as (Ha & kc & H & Hk). split; [done|]. exists kc. split; [|done]. apply adj_insert; [done|]. intros ->. set_solver.
  - destruct H as (Ha & H). split; [done|]. apply adj_insert; [done|]. intros ->. set_solver.
  - destruct H as (H1 & [H2|H2] & H3); auto.
  - destruct H as [H|H]; auto.
Qed.

Lemma pc_ok_remove F1 x y F2 uh :
  pc_ok (F1 ++ x :: y :: F2) uh → Addr x.1 ∉ locks uh → Addr y.1 ∉ locks uh → pc_ok (F1 ++ x :: F2) uh.
Proof.
  assert (Hin : ∀ p, p ∈ Addr <$> (F1 ++ x :: y :: F2).*1 → p ≠ Addr y.1 → p ∈ Addr <$> (F1 ++ x :: F2).*1).
  { intros p. rewrite !fmap_app, !fmap_cons. set_solver. }
  unfold pc_ok, locks. destruct (t_pc uh); try done; intros H Hx Hy.
  - apply at_pos_remove with y; [done|..]; intros ->; set_solver.
  - destruct H as [kc H]. exists kc. apply adj_remove with y; [done|..]; intros ->; set_solver.
  - destruct H as [kc H]. exists kc. apply adj_remove with y; [done|..]; intros ->; set_solver.
  - destruct H as (Ha & kc & H & Hk). split; [done|]. exists kc. split; [|done]. apply adj_remove with y; [done|..]; intros ->; set_solver.
  - destruct H as (Ha & kc & H & Hk). split; [done|]. exists kc. split; [|done]. apply adj_remove with y; [done|..]; intros ->; set_solver.
  - destruct H as (Ha & H). split; [done|]. apply adj_remove with y; [done|..]; intros ->; set_solver.
  - destruct H as (H1 & H2 & H3). split_and!; [apply Hin; [done|intros ->; set_solver]| |done].
    destruct H2 as [H2|H2]; [left; apply Hin; [done|intros ->; set_solver]|by right].
  - destruct H as [H|H]; [left; apply Hin; [done|intros ->; set_solver]|by right].
Qed.

Lemma link_locks uh b q : t_pc uh = LinkNode (Addr b) q → Addr b ∈ locks uh.
Proof. intros Hpc. unfold locks. rewrite Hpc. by left. Qed.

Lemma pending_other ths t th th' a q :
  ths !! t = Some th → (∀ q, t_pc th ≠ LinkNode (Addr a) q) → (∀ q, t_pc th' ≠ LinkNode (Addr a) q) →
  pending (<[t := th']> ths) a q ↔ pending ths a q.
Proof.
  intros Ht Hn Hn'. assert (Hlt := lookup_lt_Some _ _ _ Ht). split; intros (u & uh & Hu & Hpc); exists u.
  - destruct (decide (u = t)) as [->|Hne]; [rewrite list_lookup_insert_eq in Hu by done; simplify_eq; by apply Hn' in Hpc|].
    rewrite list_lookup_insert_ne in Hu by done. eauto.
  - destruct (decide (u = t)) as [->|Hne]; [simplify_eq; by apply Hn in Hpc|].
    rewrite list_lookup_insert_ne by done. eauto.
Qed.

Lemma nxt_other ths t th th' h h' a k q :
  ths !! t = Some th → (∀ q, t_pc th ≠ LinkNode (Addr a) q) → (∀ q, t_pc th' ≠ LinkNode (Addr a) q) → h' !! a = h !! a →
  nxt h ths a k q → nxt h' (<[t := th']> ths) a k q.
Proof.
  intros Ht Hn Hn' Ha (n & H1 & Hk & Hp). exists n. rewrite Ha. split_and!; [done..|].
  by setoid_rewrite (pending_other ths t th th' a _ Ht Hn Hn').
Qed.

Lemma link_ok work w L t th prev curr :
  world_ok work w L → threads w !! t = Some th → t_pc th = Link prev curr →
  ∃ h', store_next (mem w) prev (Addr (t_node th)) = Ok h' ∧
    world_ok work (put t (set_pc (LinkNode prev curr) th) h' (held w) [] w) L.
Proof.
  intros Hok Ht Hpc. assert (Hth := ok_threads _ _ _ Hok _ _ Ht).
  assert (Hpos := tok_pc _ _ _ Hth). unfold pc_ok in Hpos. rewrite Hpc in Hpos. destruct Hpos as (Ha & kc & Hadj & Hk).
  destruct (adj_elem _ _ _ _ _ Hadj) as [Hin1 _].
  destruct (adj_mem _ _ _ _ _ _ _ Hok Hadj) as (b & c & nb & nc & -> & -> & Hb & Hc & Hkc & Hne & Hnext).
  assert (Hnp : ∀ q, ¬ pending (threads w) b q) by (eapply not_pending; try done; by_pc Hpc; [by left|done]).
  specialize (Hnext Hnp). eexists. split; [simpl; rewrite Hb; reflexivity|].
  assert (Hnode : Addr (t_node th) ∈ owned th) by (unfold owned; rewrite Ha, Hpc; by left).
  destruct (tok_owned _ _ _ Hth _ Hnode) as (a & [= <-] & Hnin & _). apply (list_elem_of_fmap_inj_2 Addr) in Hin1.
  assert (Hnb : t_node th ≠ b) by (intros Heq; by rewrite Heq in Hnin).
  assert (Hoth : ∀ u uh, u ≠ t → threads w !! u = Some uh → ∀ q, t_pc uh ≠ LinkNode (Addr b) q).
  { intros u uh Hu Huh q Hq. eapply (exclusive locks (held w) (threads w) t th u uh b); [apply Hok|try done..]; [by_pc Hpc; by left|by eapply link_locks]. }
  assert (Hown : owned (set_pc (LinkNode (Addr b) (Addr c)) th) = owned th) by (by_pc Hpc; by rewrite Ha).
  destruct (held_keep _ _ _ _ _ (set_pc (LinkNode (Addr b) (Addr c)) th) (ok_held _ _ _ Hok) Ht) as [Hl1 Hl2]; [by by_pc Hpc|].
  apply (world_ok_put work w L t th); try done; try apply Hok.
  - eapply lseg_mono; [|apply Hok]. intros a k nx Hin Hnx. destruct (decide (a = b)) as [->|Hab].
    + destruct Hnx as (n & Hn & <- & [Hp|[_ Hq]]); [by apply Hnp in Hp|]. rewrite Hb in Hn. injection Hn as <-.
      exists (mk_Node (key nb) (Addr (t_node th))). rewrite lookup_insert_eq. split_and!; [done..|]. left. exists t.
      eexists. rewrite list_lookup_insert_eq by (by eapply lookup_lt_Some). split; [done|]. simpl. congruence.
    + apply (nxt_other (threads w) t th _ (mem w)); try done; simpl; [by rewrite Hpc|congruence|by rewrite lookup_insert_ne].
  - split; [by_pc Hpc; eauto|..|by intros _; apply (tok_range _ _ _ Hth); rewrite Hpc|apply Hth].
    + rewrite Hown. intros p Hp. destruct (tok_owned _ _ _ Hth _ Hp) as (d & -> & Hd & Hs). exists d.
      rewrite lookup_insert_ne by (intros <-; by apply Hd). done.
    + intros k Hk' Hin. rewrite Hown in Hin. simpl. rewrite lookup_insert_ne by done. by apply (tok_node _ _ _ Hth).
    + simpl. intros b' q [= <- <-]. rewrite lookup_insert_eq. eauto.
  - intros u uh Hu Huh Hok'. apply thread_ok_mem with (mem w); [done|..].
    + intros d Hd. destruct (tok_owned _ _ _ Hok' _ Hd) as (d' & [= <-] & Hd' & _). by rewrite lookup_insert_ne by (intros <-; by apply Hd').
    + intros b' q Hq. rewrite lookup_insert_ne; [done|]. intros <-. by eapply Hoth.
  - rewrite Hown. auto.
  - apply replay_nil, Hok.
  - apply hist_put with th; [by apply Hok|done|by by_pc Hpc|by by_pc Hpc].
Qed.

Lemma link_node_list work w L t th b c kc :
  world_ok work w L → threads w !! t = Some th → t_pc th = LinkNode (Addr b) (Addr c) →
  adj (full L) (action_key (t_action th)) (Addr b) (Addr c) kc → (action_key (t_action th) < kc)%Z →
  t_action th = Add (action_key (t_action th)) →
  let k := action_key (t_action th) in
  let h' := <[t_node th := mk_Node k (Addr c)]> (mem w) in
  let ths := <[t := set_pc (UnlockPrev (Addr b) (Addr c) true) th]> (threads w) in
  ∃ L1 kb L2 M L3, found head tail L k b c L1 kb kc L2 M L3 ∧ k ∉ L.*2 ∧
    lseg (nxt h' ths) (Addr head) (full (M ++ (t_node th, k) :: L3)) NULL ∧ NoDup (full (M ++ (t_node th, k) :: L3)).*1.
Proof.
  intros Hok Ht Hpc Hadj Hk Ha k h' ths. assert (Hth := ok_threads _ _ _ Hok _ _ Ht).
  destruct (adj_found _ _ _ _ _ _ _ (ok_sorted _ _ _ Hok) (ok_range _ _ _ Hok) Hadj) as (b' & c' & L1 & kb & L2 & M & L3 & [= <-] & [= <-] & Hf); [lia|].
  fold k in Hf, Hadj, Hk, Ha. exists L1, kb, L2, M, L3. split; [done|].
  assert (Hr : in_range k) by (apply (tok_range _ _ _ Hth); by rewrite Hpc).
  split; [rewrite (adj_member _ _ _ _ _ _ _ (ok_sorted _ _ _ Hok) (ok_range _ _ _ Hok) Hr Hadj); unfold k; lia|].
  assert (Hnode : Addr (t_node th) ∈ owned th) by (unfold owned; rewrite Ha, Hpc; by left).
  destruct (tok_owned _ _ _ Hth _ Hnode) as (a & [= <-] & Hnin & _).
  destruct (tok_link _ _ _ Hth b (Addr c) Hpc) as (nb & Hb & Hnb).
  assert (Hbin := link_in_full _ _ _ _ _ Hth Hpc). assert (Hne : t_node th ≠ b) by (intros Heq; by rewrite Heq in Hnin).
  assert (Hseg := ok_seg _ _ _ Hok). assert (Hnd := ok_nodup _ _ _ Hok).
  rewrite (found_insert _ _ _ _ _ _ _ _ _ _ _ _ (t_node th) Hf). pose proof Hf as [Hfull _ _ _ _ _ _].
  change ((head, INT_MIN) :: L ++ [(tail, INT_MAX)]) with (full L) in Hfull. rewrite Hfull in Hseg, Hnd, Hnin.
  assert (Hnp : ∀ a, a = b ∨ a = t_node th → ∀ q, ¬ pending ths a q).
  { intros a Hab q (u & uh & Hu & Hq). unfold ths in Hu. destruct (decide (u = t)) as [->|Hut].
    { rewrite list_lookup_insert_eq in Hu by (by eapply lookup_lt_Some). by injection Hu as <-. }
    rewrite list_lookup_insert_ne in Hu by done. destruct Hab as [->| ->].
    - eapply (exclusive locks (held w) (threads w) t th u uh b); [apply Hok|try done..]; by eapply link_locks.
    - apply Hnin. rewrite <- Hfull. exact (link_in_full _ _ _ _ _ (ok_threads _ _ _ Hok _ _ Hu) Hq). }
  apply (lseg_insert (nxt (mem w) (threads w)) _ _ _ _ b kb c kc L2 (t_node th) k Hseg Hnd Hnin).
  - intros d kd nx Hdb Hdn. apply (nxt_other (threads w) t th); [done|rewrite Hpc; congruence|done|].
    unfold h'. by rewrite lookup_insert_ne.
  - assert (Hkey : key nb = kb).
    { apply lseg_app in Hseg as (r & _ & _ & nx & (n & Hn & Hkn & _) & _). congruence. }
    exists nb. unfold h'. rewrite lookup_insert_ne by done. split_and!; [done..|]. right. auto.
  - exists (mk_Node k (Addr c)). unfold h'. rewrite lookup_insert_eq. split_and!; [done..|]. right. auto.
Qed.

Lemma link_node_ok work w L t th prev curr :
  world_ok work w L → threads w !! t = Some th → t_pc th = LinkNode prev curr →
  ∃ h' L', store_next (mem w) (Addr (t_node th)) curr = Ok h' ∧
    world_ok work (put t (set_pc (UnlockPrev prev curr true) th) h' (held w) [true] w) L'.
Proof.
  intros Hok Ht Hpc. assert (Hth := ok_threads _ _ _ Hok _ _ Ht).
  assert (Hpos := tok_pc _ _ _ Hth). unfold pc_ok in Hpos. rewrite Hpc in Hpos. destruct Hpos as (Ha & kc & Hadj & Hk).
  destruct (adj_elem _ _ _ _ _ Hadj) as [Hin1 Hin2].
  destruct (adj_mem _ _ _ _ _ _ _ Hok Hadj) as (b & c & _ & _ & -> & -> & _ & _ & _ & Hne & _).
  assert (Hnode : Addr (t_node th) ∈ owned th) by (unfold owned; rewrite Ha, Hpc; by left).
  destruct (tok_node _ _ _ Hth _ Ha Hnode) as (q & Hq).
  destruct (tok_owned _ _ _ Hth _ Hnode) as (a & [= <-] & Hnin & _).
  destruct (link_node_list work w L t th b c kc Hok Ht Hpc Hadj Hk Ha) as (L1 & kb & L2 & M & L3 & Hf & Hnot & Hseg & Hnd).
  eexists _, (M ++ (t_node th, action_key (t_action th)) :: L3). split; [simpl; rewrite Hq; reflexivity|].
  set (k := action_key (t_action th)) in *. assert (Hr : in_range k) by (apply (tok_range _ _ _ Hth); by rewrite Hpc).
  assert (Hins := found_insert _ _ _ _ _ _ _ _ _ _ _ _ (t_node th) Hf). pose proof Hf as [Hfull _ _ HL Hlt Hge _].
  change ((head, INT_MIN) :: L ++ [(tail, INT_MAX)]) with (full L) in Hfull.
  assert (Hown : owned (set_pc (UnlockPrev (Addr b) (Addr c) true) th) = []) by (by_pc Hpc; by rewrite Ha).
  destruct (held_keep _ _ _ _ _ (set_pc (UnlockPrev (Addr b) (Addr c) true) th) (ok_held _ _ _ Hok) Ht) as [Hl1 Hl2]; [by by_pc Hpc|].
  assert (Hsub : ∀ p, p ∈ (full L).*1 → p ∈ (full (M ++ (t_node th, k) :: L3)).*1).
  { intros p Hp. rewrite Hins, elem_of_middle, <- Hfull. by right. }
  apply (world_ok_put work w L t th); try done.
  - by eapply found_insert_sorted; [exact Hf|apply Hok..|done|done].
  - by eapply found_insert_sorted; [exact Hf|apply Hok..|done|done].
  - split; [|rewrite Hown; by intros p ?%elem_of_nil|rewrite Hown; by intros k' _ ?%elem_of_nil|done|done|apply Hth].
    unfold pc_ok. cbn [t_pc set_pc t_action]. apply (list_elem_of_fmap_inj_2 Addr) in Hin1, Hin2.
    split_and!; [by apply (list_elem_of_fmap_2 Addr), Hsub|left; by apply (list_elem_of_fmap_2 Addr), Hsub|congruence].
  - intros u uh Hu Huh Hok'. split; [..|apply Hok'|apply Hok'].
    + rewrite Hins. apply pc_ok_insert; [rewrite <- Hfull; apply Hok'|].
      apply (exclusive locks (held w) (threads w) t th u uh b (ok_held _ _ _ Hok) Ht Huh Hu). unfold locks. rewrite Hpc. by left.
    + intros p Hp. destruct (tok_owned _ _ _ Hok' _ Hp) as (d & -> & Hd & Hs). exists d. split; [done|].
      assert (Hdn : t_node th ≠ d) by (intros <-; by apply Hu, (ok_owned _ _ _ Hok u t uh th (t_node th))).
      rewrite lookup_insert_ne by done. split; [|done]. rewrite Hins, elem_of_middle, <- Hfull. by intros [->|?].
    + intros k' Hk' Hn. rewrite lookup_insert_ne; [by apply (tok_node _ _ _ Hok')|].
      intros Heq. apply Hu, (ok_owned _ _ _ Hok u t uh th (t_node th)); [done|done|by rewrite Heq|done].
    + intros b' q' Hb'. rewrite lookup_insert_ne; [by eapply (tok_link _ _ _ Hok')|].
      intros <-. apply Hnin. by eapply link_in_full.
  - rewrite Hown. by intros a ?%elem_of_nil.
  - assert (H := replay_actions_snoc spec_set ∅ (log w) t (t_action th) _ (ok_log _ _ _ Hok)).
    assert (Hspec : spec_set (list_to_set L.*2) (t_action th) = (list_to_set (M ++ (t_node th, k) :: L3).*2, true)).
    { rewrite Ha. subst L. by apply spec_set_add. }
    by rewrite Hspec in H.
  - apply hist_put with th; [by apply Hok|done|by by_pc Hpc|by by_pc Hpc].
Qed.

Lemma unlink_list work w L t th b c nb nc :
  world_ok work w L → threads w !! t = Some th → t_pc th = Unlink (Addr b) (Addr c) →
  adj (full L) (action_key (t_action th)) (Addr b) (Addr c) (action_key (t_action th)) →
  mem w !! b = Some nb → mem w !! c = Some nc →
  let k := action_key (t_action th) in
  let h' := <[b := mk_Node (key nb) (next nc)]> (mem w) in
  let ths := <[t := set_pc (UnlockPrev (Addr b) (Addr c) true) th]> (threads w) in
  ∃ L1 kb M L3, full L = L1 ++ (b, kb) :: (c, k) :: L3 ++ [(tail, INT_MAX)] ∧ L = M ++ (c, k) :: L3 ∧
    full (M ++ L3) = L1 ++ (b, kb) :: L3 ++ [(tail, INT_MAX)] ∧
    lseg (nxt h' ths) (Addr head) (full (M ++ L3)) NULL ∧ NoDup (full (M ++ L3)).*1.
Proof.
  intros Hok Ht Hpc Hadj Hb Hc k h' ths. assert (Hth := ok_threads _ _ _ Hok _ _ Ht). fold k in Hadj.
  destruct (adj_found _ _ _ _ _ _ _ (ok_sorted _ _ _ Hok) (ok_range _ _ _ Hok) Hadj) as (b' & c' & L1 & kb & L2 & M & L3 & [= <-] & [= <-] & Hf); [lia|].
  assert (Hr : in_range k) by (apply (tok_range _ _ _ Hth); by rewrite Hpc).
  destruct (found_key _ _ _ _ _ _ _ _ _ _ _ _ (sorted_lt_le _ (ok_sorted _ _ _ Hok)) Hr Hf) as [Heq _].
  destruct (Heq eq_refl) as (L3' & -> & ->). destruct Hf as [Hfull Hbef _ HL _ _ _].
  assert (Hnew : full (M ++ L3') = L1 ++ (b, kb) :: L3' ++ [(tail, INT_MAX)]).
  { unfold full_list. rewrite <- (assoc_L app), app_comm_cons, Hbef, <- (assoc_L app). done. }
  exists L1, kb, M, L3'. do 3 (split; [done|]). rewrite Hnew.
  assert (Hnp : ∀ a, Addr a ∈ locks th → ∀ q, ¬ pending (threads w) a q) by (intros a Ha; by apply (not_pending _ _ _ _ _ _ Hok Ht Ha); by_pc Hpc).
  assert (Hseg := ok_seg _ _ _ Hok). assert (Hnd := ok_nodup _ _ _ Hok).
  change ((head, INT_MIN) :: L ++ [(tail, INT_MAX)]) with (full L) in Hfull. rewrite Hfull in Hseg, Hnd.
  apply (lseg_remove (nxt (mem w) (threads w)) _ _ _ _ b kb c k _ Hseg Hnd).
  - intros d kd nx Hdb Hdc. apply (nxt_other (threads w) t th); [done|rewrite Hpc; congruence|done|].
    unfold h'. by rewrite lookup_insert_ne.
  - intros nx (n & Hn & _ & [Hp|[_ Hq]]); [by apply Hnp in Hp; [|unfold locks; rewrite Hpc; right; left]|].
    rewrite Hc in Hn. injection Hn as <-. exists (mk_Node (key nb) (next nc)). unfold h'. rewrite lookup_insert_eq. split_and!; [done| |].
    + apply lseg_app in Hseg as (r & _ & _ & nx' & (n & Hn & Hkn & _) & _). simpl. congruence.
    + right. split; [|done]. intros q'. unfold ths. rewrite (pending_other (threads w) t th); [|done|by rewrite Hpc|done].
      apply Hnp. unfold locks. rewrite Hpc. by left.
Qed.

Lemma unlink_ok work w L t th prev curr :
  world_ok work w L → threads w !! t = Some th → t_pc th = Unlink prev curr →
  ∃ n h' L', load (mem w) curr = Ok n ∧ store_next (mem w) prev (next n) = Ok h' ∧
    world_ok work (put t (set_pc (UnlockPrev prev curr true) th) h' (held w) [true] w) L'.
Proof.
  intros Hok Ht Hpc. assert (Hth := ok_threads _ _ _ Hok _ _ Ht).
  assert (Hpos := tok_pc _ _ _ Hth). unfold pc_ok in Hpos. rewrite Hpc in Hpos. destruct Hpos as (Ha & Hadj).
  destruct (adj_mem _ _ _ _ _ _ _ Hok Hadj) as (b & c & nb & nc & -> & -> & Hb & Hc & _ & Hne & _).
  destruct (unlink_list work w L t th b c nb nc Hok Ht Hpc Hadj Hb Hc) as (L1 & kb & M & L3 & Hfull & HL & Hnew & Hseg & Hnd).
  exists nc. eexists _, (M ++ L3). split; [simpl; by rewrite Hc|]. split; [simpl; rewrite Hb; reflexivity|].
  set (k := action_key (t_action th)) in *. assert (Hndf := ok_nodup _ _ _ Hok). rewrite Hfull in Hndf.
  assert (Hown : owned (set_pc (UnlockPrev (Addr b) (Addr c) true) th) = [Addr c]) by (unfold owned; simpl; by rewrite Ha).
  assert (Hcnin : c ∉ (full (M ++ L3)).*1).
  { rewrite Hnew. exact (NoDup_middle fst _ _ _ _ Hndf). }
  assert (Hbin : b ∈ (full (M ++ L3)).*1) by (rewrite Hnew, fmap_app; apply elem_of_app; right; by left).
  destruct (held_keep _ _ _ _ _ (set_pc (UnlockPrev (Addr b) (Addr c) true) th) (ok_held _ _ _ Hok) Ht) as [Hl1 Hl2]; [unfold locks; by rewrite Hpc|].
  assert (Hlb : Addr b ∈ locks th) by (unfold locks; rewrite Hpc; by left).
  assert (Hlc : Addr c ∈ locks th) by (unfold locks; rewrite Hpc; right; by left).
  assert (Hsub : ∀ d, d ∈ (full (M ++ L3)).*1 → d ∈ (full L).*1).
  { intros d. rewrite Hfull, Hnew, elem_of_middle. by right. }
  destruct (remove_sorted M L3 c k) as (Hs & Hrange & Hknot); [rewrite <- HL; apply Hok..|].
  apply (world_ok_put work w L t th); try done.
  - split; [|intros p; rewrite Hown|intros k'; simpl; congruence|done|intros _; by apply (tok_range _ _ _ Hth); rewrite Hpc|apply Hth].
    + unfold pc_ok. cbn [t_pc set_pc t_action]. split_and!; [by apply (list_elem_of_fmap_2 Addr)|right; rewrite Hown; by left|congruence].
    + intros ->%list_elem_of_singleton. exists c. rewrite lookup_insert_ne by done. split_and!; [done..|by exists nc].
  - intros u uh Hu Huh Hok'. assert (Hxb := exclusive locks _ _ _ _ _ _ b (ok_held _ _ _ Hok) Ht Huh Hu Hlb).
    assert (Hxc := exclusive locks _ _ _ _ _ _ c (ok_held _ _ _ Hok) Ht Huh Hu Hlc).
    destruct (thread_ok_mem L (mem w) (<[b := mk_Node (key nb) (next nc)]> (mem w)) uh Hok') as [H1 H2 H3 H4 H5 H6].
    + intros d Hd. destruct (tok_owned _ _ _ Hok' _ Hd) as (d' & [= <-] & Hd' & _).
      rewrite lookup_insert_ne; [done|]. intros <-. by apply Hd', Hsub.
    + intros b' q Hq. rewrite lookup_insert_ne; [done|]. intros <-. by apply Hxb, (link_locks uh b q).
    + split; [|intros p Hp|done..].
      * rewrite Hnew. apply pc_ok_remove with (c, k); [by rewrite <- Hfull|done|done].
      * destruct (H2 p Hp) as (d & -> & Hd & Hsome). exists d. split_and!; [done| |done]. intros Hin. by apply Hd, Hsub.
  - intros a. rewrite Hown. intros [= ->]%list_elem_of_singleton. right. right.
    rewrite Hfull, elem_of_middle. by left.
  - assert (H := replay_actions_snoc spec_set ∅ (log w) t (t_action th) _ (ok_log _ _ _ Hok)).
    assert (Hspec : spec_set (list_to_set L.*2) (t_action th) = (list_to_set (M ++ L3).*2, true)).
    { rewrite Ha. subst L. by apply spec_set_remove. }
    by rewrite Hspec in H.
  - apply hist_put with th; [by apply Hok|done|unfold todo; simpl; by rewrite Hpc|unfold inflight; simpl; by rewrite Hpc].
Qed.

(** ** All steps *)

Lemma fine_step_ok work w L t node r :
  world_ok work w L → thread_step head t node w = Some r → ∃ w' L', r = Ok w' ∧ world_ok work w' L'.
Proof.
  intros Hok Hs. unfold thread_step in Hs. destruct (threads w !! t) as [th|] eqn:Ht; [|done]. cbn [mbind option_bind] in Hs.
  destruct (t_pc th) as [| |prev|prev curr|prev curr|prev curr|prev curr|prev curr|prev curr b|curr b|curr b] eqn:Hpc.
  - destruct (start_ok _ _ _ _ _ _ _ Hok Ht Hpc Hs) as (w' & -> & H). eauto.
  - destruct (lock (mem w) (held w) t (Addr head)) as [l|] eqn:Hl; [|done]. injection Hs as <-.
    destruct (lock_head_ok _ _ _ _ _ _ Hok Ht Hpc Hl) as (l' & -> & H). eexists _, L. split; [reflexivity|done].
  - injection Hs as <-. destruct (read_next_ok _ _ _ _ _ _ Hok Ht Hpc) as (n & Hn & H). rewrite Hn. eexists _, L. split; [reflexivity|done].
  - destruct (lock (mem w) (held w) t curr) as [l|] eqn:Hl; [|done]. injection Hs as <-.
    destruct (lock_curr_ok _ _ _ _ _ _ _ _ Hok Ht Hpc Hl) as (l' & -> & H). eexists _, L. split; [reflexivity|done].
  - injection Hs as <-. destruct (test_ok _ _ _ _ _ _ _ Hok Ht Hpc) as (w' & -> & H). eauto.
  - injection Hs as <-. destruct (link_ok _ _ _ _ _ _ _ Hok Ht Hpc) as (h' & -> & H). eexists _, L. split; [reflexivity|done].
  - injection Hs as <-. destruct (link_node_ok _ _ _ _ _ _ _ Hok Ht Hpc) as (h' & L' & Hh & H). simpl in Hh |- *. rewrite Hh.
    eexists _, L'. split; [reflexivity|done].
  - injection Hs as <-. destruct (unlink_ok _ _ _ _ _ _ _ Hok Ht Hpc) as (n & h' & L' & -> & Hh & H). simpl. rewrite Hh.
    eexists _, L'. split; [reflexivity|done].
  - injection Hs as <-. destruct (unlock_prev_ok _ _ _ _ _ _ _ _ Hok Ht Hpc) as (l' & -> & H). eexists _, L. split; [reflexivity|done].
  - injection Hs as <-. destruct (unlock_curr_ok _ _ _ _ _ _ _ Hok Ht Hpc) as (l' & -> & H). eexists _, L. split; [reflexivity|done].
  - injection Hs as <-. destruct (finish_ok _ _ _ _ _ _ _ Hok Ht Hpc) as (w' & -> & H). eauto.
Qed.

Lemma fine_main_ok work : head ≠ tail → Forall (Forall work_ok) work → world_ok work (fine_main head tail ∅ work) [].
Proof.
  intros Hne Hw. assert (Hnew : ∀ t th, (new_thread <$> work) !! t = Some th → ∃ l, work !! t = Some l ∧ th = new_thread l).
  { intros t th (l & -> & Hl)%list_lookup_fmap_Some. eauto. }
  destruct (list_init_chain head tail Hne) as [Hseg Hnd _ _]. split; [|done|constructor|constructor| | | |done| |].
  - revert Hseg. apply lseg_mono. intros a k nx _ Ha. exists (mk_Node k nx). split_and!; [done..|]. right. split; [|done].
    intros q (t & th & Ht & Hpc). apply Hnew in Ht as (l & _ & ->). done.
  - intros a t. cbn [held threads fine_main]. split; [by rewrite lookup_empty|]. intros (th & (l & _ & ->)%Hnew & Ha). by apply elem_of_nil in Ha.
  - intros t th (l & Hl & ->)%Hnew. split; [done|by intros p ?%elem_of_nil|done|done|done|]. by eapply Forall_lookup_1 in Hw.
  - intros t u th uh a (l & _ & ->)%Hnew _ Ha. by apply elem_of_nil in Ha.
  - intros t th (l & Hl & ->)%Hnew. rewrite Hl. done.
  - cbn [threads fine_main]. by rewrite length_fmap.
Qed.

Lemma fine_steps_ok work w :
  head ≠ tail → Forall (Forall work_ok) work → rtc (step head) (fine_main head tail ∅ work) w → ∃ L, world_ok work w L.
Proof.
  intros Hne Hw. revert w. apply rtc_ind_r; [exists []; by apply fine_main_ok|].
  intros w w' _ (tid & node & Hs) (L & IH). destruct (fine_step_ok _ _ _ _ _ _ IH Hs) as (w1 & L' & [= <-] & H). eauto.
Qed.

(** ** Progress *)

Definition can_step (w : world) : Prop := ∃ tid node r, thread_step head tid node w = Some r.

Definition waits (th : thread) : Prop := t_pc th = LockHead ∨ ∃ prev curr, t_pc th = LockCurr prev curr.

Lemma unblocked w t th :
  threads w !! t = Some th → ¬ waits th → t_work th ≠ [] ∨ t_pc th ≠ Idle → can_step w.
Proof.
  intros Ht Hw Hbusy. exists t, (fresh (dom (mem w))). unfold thread_step. rewrite Ht. cbn [mbind option_bind].
  unfold waits in Hw. destruct (t_pc th) eqn:Hpc; [|naive_solver..].
  destruct Hbusy as [Hwork|]; [|done]. unfold start. destruct (t_work th) as [|wk rest]; [done|].
  assert (Hf : mem w !! fresh (dom (mem w)) = None) by apply not_elem_of_dom, is_fresh.
  destruct (action_of wk) as [[k|k|k]|]; rewrite ?Hf; eauto.
Qed.

(** Whoever waits for a node in the list, someone further down the list can go on. *)
Lemma waiting_progress work w L n t th prev curr i b kb c kc :
  world_ok work w L → threads w !! t = Some th → t_pc th = LockCurr prev curr →
  full L !! i = Some (b, kb) → full L !! S i = Some (c, kc) → curr = Addr c → length (full L) - i ≤ n → can_step w.
Proof.
  intros Hok. revert t th prev curr i b kb c kc.
  induction n as [|n IH]; intros t th prev curr i b kb c kc Ht Hpc Hb Hc -> Hn;
    [apply lookup_lt_Some in Hb; lia|].
  destruct (lock (mem w) (held w) t (Addr c)) as [l|] eqn:Hl.
  { exists t, 0. unfold thread_step. rewrite Ht. cbn [mbind option_bind]. rewrite Hpc, Hl. eexists. reflexivity. }
  apply lock_blocked in Hl as (a & u & [= <-] & Hu). apply (ok_held _ _ _ Hok) in Hu as (uh & Hu & Hin).
  destruct (t_pc uh) as [| |p|p q|p q|p q|p q|p q|p q r|p r|p r] eqn:Hpcu;
    try (unfold locks in Hin; rewrite Hpcu in Hin; by apply elem_of_nil in Hin);
    try (by apply (unblocked w u uh Hu); [intros [?|(? & ? & ?)]; congruence|right; congruence]).
  unfold locks in Hin. rewrite Hpcu in Hin. apply list_elem_of_singleton in Hin as <-.
  assert (Hpos := tok_pc _ _ _ (ok_threads _ _ _ Hok _ _ Hu)). unfold pc_ok in Hpos. rewrite Hpcu in Hpos.
  destruct Hpos as (kc' & j & b' & kb' & c' & Hj & Hj' & [= <-] & -> & _).
  assert (S i = j) as <-.
  { eapply NoDup_lookup; [exact (ok_nodup _ _ _ Hok)|..]; rewrite list_lookup_fmap; [by rewrite Hc|by rewrite Hj]. }
  eapply (IH u uh _ _ (S i)); try done. apply lookup_lt_Some in Hc. lia.
Qed.

Lemma fine_progress work w L : world_ok work w L → ¬ finished w → can_step w.
Proof.
  intros Hok Hfin. apply not_Forall_Exists in Hfin; [|intros ?; apply _]. apply Exists_exists in Hfin as (th & [t Ht]%list_elem_of_lookup & Hbusy).
  assert (Hbusy' : t_work th ≠ [] ∨ t_pc th ≠ Idle).
  { unfold compose in Hbusy. destruct (decide (t_work th = [])), (decide (t_pc th = Idle)); tauto. }
  assert (Hwait : ∀ u uh prev curr, threads w !! u = Some uh → t_pc uh = LockCurr prev curr → can_step w).
  { intros u uh prev curr Hu Hpc. assert (Hpos := tok_pc _ _ _ (ok_threads _ _ _ Hok _ _ Hu)). unfold pc_ok in Hpos. rewrite Hpc in Hpos.
    destruct Hpos as (kc & i & b & kb & c & Hb & Hc & -> & -> & _).
    by apply (waiting_progress work w L _ u uh (Addr b) (Addr c) i b kb c kc Hok Hu Hpc Hb Hc eq_refl (Nat.le_refl _)). }
  destruct (t_pc th) as [| |p|p q|p q|p q|p q|p q|p q r|p r|p r] eqn:Hpc; try (by eapply Hwait);
    try (apply (unblocked w t th Ht); [intros [?|(? & ? & ?)]; congruence|by rewrite Hpc]).
  destruct (lock (mem w) (held w) t (Addr head)) as [l|] eqn:Hl.
  { exists t, 0. unfold thread_step. rewrite Ht. cbn [mbind option_bind]. rewrite Hpc, Hl. eexists. reflexivity. }
  apply lock_blocked in Hl as (a & u & [= <-] & Hu). apply (ok_held _ _ _ Hok) in Hu as (uh & Hu & Hin).
  destruct (t_pc uh) as [| |p|p q|p q|p q|p q|p q|p q r|p r|p r] eqn:Hpcu; try (by eapply Hwait);
    try (unfold locks in Hin; rewrite Hpcu in Hin; by apply elem_of_nil in Hin);
    (apply (unblocked w u uh Hu); [intros [?|(? & ? & ?)]; congruence|right; congruence]).
Qed.

Lemma finished_chain work w L : world_ok work w L → finished w → chain (mem w) head tail L.
Proof.
  intros Hok Hfin. split; [|apply Hok|apply sorted_lt_le, Hok|apply Hok]. eapply lseg_mono; [|apply Hok].
  intros a k nx _ (n & Hn & <- & [(t & th & Ht & Hpc)|[_ <-]]); [|by destruct n].
  eapply Forall_lookup_1 in Hfin; [|exact Ht]. destruct Hfin as [_ Hfin]. congruence.
Qed.

End invariant.

(** ** Properties *)

(** C7. Let the mutexes of the two sentinels, which are never initialised, start
    unlocked, and the keys be strictly between INT_MIN and INT_MAX. In every
    interleaving of the threads the operations on the fine-grained list take effect one at a time as operations on a set: in the order of the
    log they have the results of a set, each thread makes its operations in the
    order of its workload and returns the results of the log. No step reads
    the key or the pointer of a freed node, follows a null or uninitialised pointer
    or unlocks a mutex it does not hold. When all
    threads have finished, [main] reports the list as correct exactly when the
    result file lists the elements of the set in increasing order. *)
Theorem fine_linearizable head tail fresh work w :
  head ≠ tail → fresh = ∅ → Forall (Forall work_ok) work → rtc (step head) (fine_main head tail fresh work) w →
  ∃ l, replay_actions spec_set ∅ (log w) = Some (list_to_set l) ∧ StronglySorted Z.lt l ∧
    (∀ t th, threads w !! t = Some th → actions_of t (log w) `prefix_of` omap action_of (default [] (work !! t)) ∧
       results_of t (log w) = t_results th ++ inflight th) ∧
    (∀ tid node e, thread_step head tid node w ≠ Some (Err e)) ∧
    (finished w → (∀ t, t < length work → actions_of t (log w) = omap action_of (default [] (work !! t))) ∧
       ∀ result, validate (mem w) (Addr head) (Addr tail) result = Ok (bool_decide (result = l))).
Proof.
  intros Hne -> Hw Hr. destruct (fine_steps_ok head tail work w Hne Hw Hr) as (L & Hok). exists L.*2.
  split_and!; [apply Hok|apply Hok|..].
  - intros t th Ht. destruct (ok_hist _ _ _ _ _ Hok t th Ht) as [H1 H2]. split; [by exists (todo th)|done].
  - intros tid node e Hs. by destruct (fine_step_ok _ _ _ _ _ _ _ _ Hok Hs) as (? & ? & ? & _).
  - intros Hfin. split; [|intros result; by eapply validate_spec, finished_chain]. intros t Ht.
    rewrite <- (ok_number _ _ _ _ _ Hok) in Ht. apply lookup_lt_is_Some in Ht as [th Ht].
    destruct (ok_hist _ _ _ _ _ Hok t th Ht) as [<- _]. eapply Forall_lookup_1 in Hfin; [|exact Ht].
    destruct Hfin as [H1 H2]. unfold todo. by rewrite H1, H2, app_nil_r.
Qed.

(** Hand-over-hand locking does not deadlock: as long as a thread has not
    finished, some thread can make a step. *)
Theorem fine_no_deadlock head tail fresh work w :
  head ≠ tail → fresh = ∅ → Forall (Forall work_ok) work → rtc (step head) (fine_main head tail fresh work) w → ¬ finished w →
  ∃ w', step head w w'.
Proof.
  intros Hne -> Hw Hr Hfin. destruct (fine_steps_ok head tail work w Hne Hw Hr) as (L & Hok).
  destruct (fine_progress _ _ _ _ _ Hok Hfin) as (tid & node & r & Hs).
  destruct (fine_step_ok _ _ _ _ _ _ _ _ Hok Hs) as (w' & L' & -> & _). exists w', tid, node. done.
Qed.

(** If the mutex of the head happens to look locked, nothing works: the only thread stops at
    its first lock. *)
Lemma uninitialised_mutex_blocks :
  let w0 := fine_main 0 1 {[0 := 7]} [[mk_Work "C"%char 5]] in
  ∃ w, rtc (step 0) w0 w ∧ ¬ finished w ∧ ∀ w', ¬ step 0 w w'.
Proof.
  intros w0. exists (mk_world (list_init 0 1) {[0 := 7]} [mk_thread [] (Contains 5) 0 LockHead []] []). split_and!.
  - apply rtc_once. exists 0, 2. by vm_compute.
  - intros H. by apply Forall_cons in H as [[_ H] _].
  - intros w' (tid & node & Hs). destruct tid as [|tid]; vm_compute in Hs; [done|]. by destruct tid.
Qed.

Fixpoint run (head : nat) (choices : list (nat * nat)) (w : world) : option world :=
  match choices with
  | [] => Some w
  | (tid, node) :: choices =>
      match thread_step head tid node w with
      | Some (Ok w') => run head choices w'
      | _ => None
      end
  end.

Lemma run_steps head choices w w' : run head choices w = Some w' → rtc (step head) w w'.
Proof.
  revert w. induction choices as [|[tid node] choices IH]; simpl; intros w H; [by injection H as <-|].
  destruct (thread_step head tid node w) as [[w1|]|] eqn:Hs; [|done..]. eapply rtc_l; [by exists tid, node|by apply IH].
Qed.

(** Thread 0 adds and then looks for 5 while thread 1 removes it. *)
Definition sample_run : list (nat * nat) :=
  replicate 6 (0, 2) ++ [(1, 3)] ++ replicate 4 (0, 2) ++ replicate 8 (1, 3) ++ replicate 8 (0, 2).

Definition sample_end : world := Eval vm_compute in default (fine_main 0 1 ∅ []) (run 0 sample_run (fine_main 0 1 ∅ sample_work)).

(** Thread 1 waits for the mutex of the head, which thread 0 holds. *)
Definition sample_middle : world :=
  Eval vm_compute in default (fine_main 0 1 ∅ []) (run 0 (take 7 sample_run) (fine_main 0 1 ∅ sample_work)).

Lemma sample_end_run : rtc (step 0) (fine_main 0 1 ∅ sample_work) sample_end.
Proof. by apply (run_steps 0 sample_run). Qed.

Lemma sample_middle_run : rtc (step 0) (fine_main 0 1 ∅ sample_work) sample_middle.
Proof. by apply (run_steps 0 (take 7 sample_run)). Qed.

Lemma fine_linearizable_witness :
  finished sample_end ∧ log sample_end = [(0, Add 5, true); (1, Remove 5, true); (0, Contains 5, false)] ∧
  ∃ l, replay_actions spec_set ∅ (log sample_end) = Some (list_to_set l) ∧
    ∀ result, validate (mem sample_end) (Addr 0) (Addr 1) result = Ok (bool_decide (result = l)).
Proof.
  assert (Hfin : finished sample_end) by (repeat constructor).
  split; [exact Hfin|]. split; [reflexivity|].
  destruct (fine_linearizable 0 1 ∅ sample_work sample_end ltac:(done) eq_refl sample_work_ok sample_end_run) as (l & Hl & _ & _ & _ & Hv).
  exists l. split; [exact Hl|]. apply Hv, Hfin.
Defined.

Lemma fine_no_deadlock_witness : ∃ w', step 0 sample_middle w'.
Proof.
  apply (fine_no_deadlock 0 1 ∅ sample_work sample_middle ltac:(done) eq_refl sample_work_ok sample_middle_run).
  intros H. apply Forall_cons in H as [[H _] _]. discriminate H.
Defined.
