(* ===== verification/ListOptimistic.v ===== *)
(** The sorted list of [lab11/optimistic.cpp]: a search without locks, then both
    nodes are locked and the position is validated by a second search. Each
    access to shared memory and each lock or unlock is a step of its own. Memory is
    sequentially consistent; that the searches without locks race with the writes
    of other threads, which C++ leaves undefined, is not an error of the model. As in
    [ListFine] the mutexes of the sentinels at the start are an argument. Nodes are
    never freed. *)
From stdpp Require Import functions base tactics numbers option list list_numbers gmap sets relations sorting.
From Stdlib Require Import ZArith Lia Ascii.
From S2P Require Import Prelude ListSet ListMutex ListCoarse.

(** ** State *)

(** What follows the two unlocks: the next iteration of while (1), or a return. *)
Inductive continuation : Type := Again | Leave (r : bool).

Inductive pc : Type :=
| Idle
| Restart                              (* prev = head; curr = head->next *)
| Walk (prev curr : ptr)               (* while (curr->key < key) *)
| LockPrev (prev curr : ptr)
| LockCurr (prev curr : ptr)
| ValidateKey (prev curr it : ptr)     (* while (it->key <= prev->key) *)
| ValidateNext (prev curr it : ptr)    (* if (it == prev), it->next *)
| Check (prev curr : ptr) (valid : bool)
| LinkNode (prev curr : ptr)           (* node->next = curr *)
| Link (prev curr : ptr)               (* prev->next = node *)
| Unlink (prev curr : ptr)             (* prev->next = curr->next *)
| UnlockPrev (prev curr : ptr) (k : continuation)
| UnlockCurr (curr : ptr) (k : continuation).

#[global] Instance continuation_eq_dec : EqDecision continuation.
Proof. solve_decision. Defined.
#[global] Instance pc_eq_dec : EqDecision pc.
Proof. solve_decision. Defined.

Record thread : Type := mk_thread {
  t_work : list Work;
  t_action : action;
  t_node : nat;
  t_pc : pc;
}.

(** [effects] records the insertions, removals and look-ups in the order in which
    they took effect, [log] the operations with the results they returned. *)
Record world : Type := mk_world {
  mem : memory;
  held : gmap nat nat;
  threads : list thread;
  effects : list (nat * action * bool);
  log : list (nat * action * bool);
}.

(** ** Steps *)

Definition set_pc (p : pc) (th : thread) : thread := mk_thread (t_work th) (t_action th) (t_node th) p.

Definition entries (tid : nat) (th : thread) (l : list bool) : list (nat * action * bool) := (λ b, (tid, t_action th, b)) <$> l.

(** The thread, the memory and the mutexes after a step; [eff] and [ret] are what the
    step adds to [effects] and [log]. *)
Definition put (tid : nat) (th : thread) (h : memory) (l : gmap nat nat) (eff ret : list bool) (w : world) : world :=
  mk_world h l (<[tid := th]> (threads w)) (effects w ++ entries tid th eff) (log w ++ entries tid th ret).

Definition goto (tid : nat) (th : thread) (p : pc) (w : world) : world := put tid (set_pc p th) (mem w) (held w) [] [] w.

(** The loop of [ThreadFunc] takes the next work; [list_add] allocates its node. *)
Definition start (tid node : nat) (th : thread) (w : world) : option (res world) :=
  match t_work th with
  | [] => None
  | work :: rest =>
      match action_of work with
      | None => Some (Ok (put tid (mk_thread rest (t_action th) (t_node th) Idle) (mem w) (held w) [] [] w))
      | Some (Add k) =>
          match mem w !! node with
          | Some _ => None
          | None =>
              Some (Ok (put tid (mk_thread rest (Add k) node Restart) (<[node := mk_Node k Uninit]> (mem w)) (held w) [] [] w))
          end
      | Some a => Some (Ok (put tid (mk_thread rest a (t_node th) Restart) (mem w) (held w) [] [] w))
      end
  end.

(** [list_validate], up to the test of the loop and from there to the next iteration. *)
Definition validate_key (tid : nat) (th : thread) (prev curr it : ptr) (w : world) : res world :=
  n ← load (mem w) it;
  p ← load (mem w) prev;
  Ok (goto tid th (if (key n <=? key p)%Z then ValidateNext prev curr it else Check prev curr false) w).

Definition validate_next (tid : nat) (th : thread) (prev curr it : ptr) (w : world) : res world :=
  n ← load (mem w) it;
  Ok (goto tid th (if decide (it = prev) then Check prev curr (bool_decide (next n = curr))
                   else ValidateKey prev curr (next n)) w).

(** The branches after [list_validate]. A successful [list_add] has no break: it goes
    round the loop again. *)
Definition check (tid : nat) (th : thread) (prev curr : ptr) (valid : bool) (w : world) : res world :=
  if valid then
    n ← load (mem w) curr;
    let leave r := put tid (set_pc (UnlockPrev prev curr (Leave r)) th) (mem w) (held w) [r] [] w in
    Ok match t_action th with
       | Add k => if decide (key n = k) then leave false else goto tid th (LinkNode prev curr) w
       | Remove k => if decide (key n = k) then goto tid th (Unlink prev curr) w else leave false
       | Contains k => leave (bool_decide (key n = k))
       end
  else Ok (goto tid th (UnlockPrev prev curr Again) w).

Definition after_unlock (tid : nat) (th : thread) (k : continuation) (l : gmap nat nat) (w : world) : world :=
  match k with
  | Again => put tid (set_pc Restart th) (mem w) l [] [] w
  | Leave r => put tid (set_pc Idle th) (mem w) l [] [r] w
  end.

Definition thread_step (head tid node : nat) (w : world) : option (res world) :=
  th ← threads w !! tid;
  match t_pc th with
  | Idle => start tid node th w
  | Restart => Some (n ← load (mem w) (Addr head); Ok (goto tid th (Walk (Addr head) (next n)) w))
  | Walk prev curr =>
      Some (n ← load (mem w) curr;
            Ok (goto tid th (if (key n <? action_key (t_action th))%Z then Walk curr (next n) else LockPrev prev curr) w))
  | LockPrev prev curr =>
      r ← lock (mem w) (held w) tid prev;
      Some (l ← r; Ok (put tid (set_pc (LockCurr prev curr) th) (mem w) l [] [] w))
  | LockCurr prev curr =>
      r ← lock (mem w) (held w) tid curr;
      Some (l ← r; Ok (put tid (set_pc (ValidateKey prev curr (Addr head)) th) (mem w) l [] [] w))
  | ValidateKey prev curr it => Some (validate_key tid th prev curr it w)
  | ValidateNext prev curr it => Some (validate_next tid th prev curr it w)
  | Check prev curr valid => Some (check tid th prev curr valid w)
  | LinkNode prev curr =>
      Some (h ← store_next (mem w) (Addr (t_node th)) curr; Ok (put tid (set_pc (Link prev curr) th) h (held w) [] [] w))
  | Link prev curr =>
      Some (h ← store_next (mem w) prev (Addr (t_node th));
            Ok (put tid (set_pc (UnlockPrev prev curr Again) th) h (held w) [true] [] w))
  | Unlink prev curr =>
      Some (n ← load (mem w) curr;
            h ← store_next (mem w) prev (next n);
            Ok (put tid (set_pc (UnlockPrev prev curr (Leave true)) th) h (held w) [true] [] w))
  | UnlockPrev prev curr k =>
      Some (l ← unlock (mem w) (held w) tid prev; Ok (put tid (set_pc (UnlockCurr curr k) th) (mem w) l [] [] w))
  | UnlockCurr curr k => Some (l ← unlock (mem w) (held w) tid curr; Ok (after_unlock tid th k l w))
  end.

Definition new_thread (work : list Work) : thread := mk_thread work (Contains 0) 0 Idle.

(** The state when [main] has created the threads. [list_init] does not initialise the
    mutexes of the sentinels: [fresh] is what the memory they get from [malloc] reads as,
    the mutexes that look locked with their owners. *)
Definition optimistic_main (head tail : nat) (fresh : gmap nat nat) (work : list (list Work)) : world :=
  mk_world (list_init head tail) fresh (new_thread <$> work) [] [].

Definition step (head : nat) (w w' : world) : Prop :=
  ∃ tid node, thread_step head tid node w = Some (Ok w').

Definition finished (w : world) : Prop := Forall (λ th, t_work th = [] ∧ t_pc th = Idle) (threads w).

(** ** Invariant *)

(** The mutexes a thread holds. *)
Definition locks (th : thread) : list ptr :=
  match t_pc th with
  | Idle | Restart | Walk _ _ | LockPrev _ _ => []
  | LockCurr prev _ => [prev]
  | ValidateKey prev curr _ | ValidateNext prev curr _ | Check prev curr _ | LinkNode prev curr | Link prev curr
  | Unlink prev curr | UnlockPrev prev curr _ => [prev; curr]
  | UnlockCurr curr _ => [curr]
  end.

(** Operations still to return, and a result that has taken effect but is not returned yet. *)
Definition todo (th : thread) : list action :=
  match t_pc th with Idle => [] | _ => [t_action th] end ++ omap action_of (t_work th).

Definition inflight (th : thread) : list (action * bool) :=
  match t_pc th with UnlockPrev _ _ (Leave r) | UnlockCurr _ (Leave r) => [(t_action th, r)] | _ => [] end.

(** The entries of thread [t]. *)
Definition entries_of (t : nat) (l : list (nat * action * bool)) : list (action * bool) :=
  (λ e, (snd (fst e), snd e)) <$> filter (λ e, fst (fst e) = t) l.

(** A successful insertion. *)
Definition insertion (e : action * bool) : Prop := match e with (Add _, true) => True | _ => False end.

#[global] Instance insertion_dec e : Decision (insertion e).
Proof. destruct e as [[k|k|k] []]; simpl; apply _. Defined.

Section invariant.
  Context (head tail : nat).

Local Notation full := (full_list head tail).

(** A node that has been in the list has a successor with a larger key, which also
    has been in the list; only the tail has none. *)
Definition shared_node (h : memory) (a : nat) : Prop := ∃ n, h !! a = Some n ∧ next n ≠ Uninit.

Definition below (h : memory) (a b : nat) : Prop :=
  ∃ na nb, h !! a = Some na ∧ h !! b = Some nb ∧ b ≠ head ∧ (a = head ∨ (key na < key nb)%Z).

Definition node_ok (h : memory) (a : nat) (n : Node) : Prop :=
  (key n ≤ INT_MAX)%Z ∧
  match next n with
  | Uninit => True
  | NULL => key n = INT_MAX
  | Addr b => shared_node h b ∧ below h a b
  end.

(** The search has stopped at [prev] and [curr]. *)
Definition window (h : memory) (k : Z) (prev curr : ptr) : Prop :=
  ∃ a b na nb, prev = Addr a ∧ curr = Addr b ∧ h !! a = Some na ∧ h !! b = Some nb ∧
    next na ≠ Uninit ∧ next nb ≠ Uninit ∧ b ≠ head ∧ (a = head ∨ (key na < k)%Z) ∧ (k ≤ key nb)%Z.

(** [V] are the nodes that have been in the list since the validation began. *)
Definition validating (h : memory) (L : list (nat * Z)) (prev it : ptr) : Prop :=
  ∃ V : gset nat, (∀ a, a ∈ (full L).*1 → a ∈ V) ∧
    (∀ a, a ∈ V → shared_node h a ∧ ∀ n b, h !! a = Some n → next n = Addr b → b ∈ V) ∧
    (∃ i, it = Addr i ∧ i ∈ V) ∧ (∀ p, prev = Addr p → p ∈ V → p ∈ (full L).*1).

Definition pc_ok (h : memory) (L : list (nat * Z)) (th : thread) : Prop :=
  let k := action_key (t_action th) in
  match t_pc th with
  | Idle | Restart => True
  | Walk prev curr => ∃ a b na, prev = Addr a ∧ curr = Addr b ∧ h !! a = Some na ∧ next na ≠ Uninit ∧ shared_node h b ∧
      b ≠ head ∧ (a = head ∨ (key na < k)%Z)
  | LockPrev prev curr | LockCurr prev curr | Check prev curr false => window h k prev curr
  | ValidateKey prev curr it => window h k prev curr ∧ validating h L prev it
  | ValidateNext prev curr it => window h k prev curr ∧ validating h L prev it ∧
      ∀ i p ni np, it = Addr i → prev = Addr p → h !! i = Some ni → h !! p = Some np → (key ni ≤ key np)%Z
  | Check prev curr true => window h k prev curr ∧ ∃ kc, adj (full L) k prev curr kc
  | LinkNode prev curr => window h k prev curr ∧ t_action th = Add k ∧ ∃ kc, adj (full L) k prev curr kc ∧ (k < kc)%Z
  | Link prev curr => window h k prev curr ∧ t_action th = Add k ∧ (∃ kc, adj (full L) k prev curr kc ∧ (k < kc)%Z) ∧
      h !! t_node th = Some (mk_Node k curr)
  | Unlink prev curr => window h k prev curr ∧ t_action th = Remove k ∧ adj (full L) k prev curr k
  | UnlockPrev prev curr _ => ∃ a b, prev = Addr a ∧ curr = Addr b ∧ shared_node h a ∧ shared_node h b ∧ a ≠ b
  | UnlockCurr curr _ => ∃ b, curr = Addr b ∧ shared_node h b
  end.

(** [list_add] at work on its node. *)
Definition adding (th : thread) : Prop := t_pc th ≠ Idle ∧ ∃ k, t_action th = Add k.

Record thread_ok (h : memory) (L : list (nat * Z)) (th : thread) : Prop := {
  tok_pc : pc_ok h L th;
  tok_node : adding th → t_node th ≠ head ∧ ∃ q, h !! t_node th = Some (mk_Node (action_key (t_action th)) q);
  tok_range : t_pc th ≠ Idle → in_range (action_key (t_action th));
  tok_work : Forall work_ok (t_work th);
}.

Definition hist_ok (prog : list Work) (t : nat) (th : thread) (eff lg : list (nat * action * bool)) : Prop :=
  (fst <$> entries_of t lg) ++ todo th = omap action_of prog ∧
  filter (λ e, ¬ insertion e) (entries_of t eff) = entries_of t lg ++ inflight th.

Record world_ok (work : list (list Work)) (w : world) (L : list (nat * Z)) : Prop := {
  ok_seg : lseg (in_memory (mem w)) (Addr head) (full L) NULL;
  ok_nodup : NoDup (full L).*1;
  ok_sorted : StronglySorted Z.lt L.*2;
  ok_range : Forall in_range L.*2;
  ok_nodes : ∀ a n, mem w !! a = Some n → node_ok (mem w) a n;
  ok_held : held_ok locks (held w) (threads w);
  ok_threads : ∀ t th, threads w !! t = Some th → thread_ok (mem w) L th;
  ok_distinct : ∀ t u th uh, threads w !! t = Some th → threads w !! u = Some uh →
    adding th → adding uh → t_node th = t_node uh → t = u;
  ok_effects : replay_actions spec_set ∅ (effects w) = Some (list_to_set L.*2);
  ok_hist : ∀ t th, threads w !! t = Some th → hist_ok (default [] (work !! t)) t th (effects w) (log w);
  ok_number : length (threads w) = length work;
}.

(** ** Growing memory *)

(** Keys do not change and a node that has been in the list keeps a successor. *)
Definition grows (h h' : memory) : Prop :=
  ∀ a n, h !! a = Some n → ∃ n', h' !! a = Some n' ∧ key n' = key n ∧ (next n ≠ Uninit → next n' ≠ Uninit).

Lemma grows_refl h : grows h h.
Proof. intros a n Ha. eauto. Qed.

Lemma grows_insert h a n n' :
  h !! a = Some n → key n' = key n → next n' ≠ Uninit → grows h (<[a := n']> h).
Proof.
  intros Ha Hk Hn b nb Hb. destruct (decide (a = b)) as [->|Hne].
  - rewrite lookup_insert_eq. simplify_eq. eauto.
  - rewrite lookup_insert_ne by done. eauto.
Qed.

Lemma grows_alloc h a n : h !! a = None → grows h (<[a := n]> h).
Proof. intros Ha b nb Hb. rewrite lookup_insert_ne by congruence. eauto. Qed.

Lemma shared_node_grows h h' a : grows h h' → shared_node h a → shared_node h' a.
Proof. intros Hg (n & Ha & Hn). destruct (Hg a n Ha) as (n' & ? & _ & ?). exists n'. auto. Qed.

Lemma below_grows h h' a b : grows h h' → below h a b → below h' a b.
Proof.
  intros Hg (na & nb & Ha & Hb & Hne & Hk). destruct (Hg _ _ Ha) as (na' & Ha' & Hka & _).
  destruct (Hg _ _ Hb) as (nb' & Hb' & Hkb & _). exists na', nb'. rewrite Hka, Hkb. done.
Qed.

Lemma window_grows h h' k p c : grows h h' → window h k p c → window h' k p c.
Proof.
  intros Hg (a & b & na & nb & -> & -> & Ha & Hb & Hna & Hnb & Hne & Hka & Hkb).
  destruct (Hg _ _ Ha) as (na' & Ha' & Eka & ?). destruct (Hg _ _ Hb) as (nb' & Hb' & Ekb & ?).
  exists a, b, na', nb'. rewrite Eka, Ekb. split_and!; auto.
Qed.

Lemma node_ok_grows h h' a n : grows h h' → node_ok h a n → node_ok h' a n.
Proof.
  intros Hg [Hk Hn]. split; [done|]. destruct (next n); [done|done|].
  destruct Hn as [H1 H2]. split; [by eapply shared_node_grows|by eapply below_grows].
Qed.

(** The nodes of the list have been in the list, and so have their successors. *)
Lemma seg_shared h L a :
  lseg (in_memory h) (Addr head) (full L) NULL → a ∈ (full L).*1 →
  shared_node h a ∧ ∀ n b, h !! a = Some n → next n = Addr b → b ∈ (full L).*1.
Proof.
  intros Hs ([a' k] & -> & [i Hi]%list_elem_of_lookup)%list_elem_of_fmap. cbn [fst].
  destruct (lseg_lookup _ _ _ _ _ _ _ Hs Hi) as (nx & Ha & Hnx). unfold in_memory in Ha.
  destruct (full L !! S i) as [[b kb]|] eqn:Hb.
  - rewrite (Hnx b kb eq_refl) in Ha. split; [by exists (mk_Node k (Addr b))|].
    intros n c Hn Hc. rewrite Ha in Hn. injection Hn as <-. cbn [next] in Hc. injection Hc as <-.
    apply (list_elem_of_fmap_2 fst _ (b, kb)). by eapply list_elem_of_lookup_2.
  - apply lookup_ge_None in Hb. apply lookup_lt_Some in Hi as Hlt.
    rewrite <- (take_drop i (full L)) in Hs. rewrite (drop_S _ _ _ Hi) in Hs. rewrite drop_ge in Hs by lia.
    apply lseg_app in Hs as (r & _ & _ & nx' & Hnx' & ->). unfold in_memory in Hnx'. rewrite Ha in Hnx'.
    injection Hnx' as ->. split; [by exists (mk_Node k NULL)|]. intros n c Hn Hc. by simplify_eq/=.
Qed.

Lemma validating_step h L h' L' prev it :
  validating h L prev it → grows h h' → lseg (in_memory h') (Addr head) (full L') NULL →
  (∀ a n n' b, h !! a = Some n → h' !! a = Some n' → next n' = Addr b → next n' ≠ next n → b ∈ (full L').*1) →
  (∀ p, prev = Addr p → p ∈ (full L).*1 → p ∈ (full L').*1) → validating h' L' prev it.
Proof.
  intros (V & HV1 & HV2 & (i & -> & Hi) & HV4) Hg Hseg Hchg Hprev.
  exists (V ∪ list_to_set (full L').*1). split_and!.
  - intros a Ha. apply elem_of_union_r. by apply elem_of_list_to_set.
  - intros a [Ha|Ha%elem_of_list_to_set]%elem_of_union.
    + destruct (HV2 a Ha) as [Hsh Hcl]. split; [by eapply shared_node_grows|]. intros n' b Hn' Hb.
      destruct Hsh as (n & Hn & _). destruct (decide (next n' = next n)) as [He|He].
      * apply elem_of_union_l. eapply Hcl; [done|]. congruence.
      * apply elem_of_union_r, elem_of_list_to_set. by eapply Hchg.
    + destruct (seg_shared h' L' a Hseg Ha) as [Hsh Hcl]. split; [done|]. intros n b Hn Hb.
      apply elem_of_union_r, elem_of_list_to_set. by eapply Hcl.
  - exists i. split; [done|]. by apply elem_of_union_l.
  - intros p Hp [H|H%elem_of_list_to_set]%elem_of_union; [|done]. by apply Hprev, HV4.
Qed.

(** ** The other threads *)

Lemma other_ok h L h' L' uh :
  thread_ok h L uh → grows h h' →
  (∀ prev curr it, locks uh = [prev; curr] → validating h L prev it → validating h' L' prev it) →
  (∀ prev curr k kc, locks uh = [prev; curr] → adj (full L) k prev curr kc → adj (full L') k prev curr kc) →
  (∀ prev curr, t_pc uh = Link prev curr → h' !! t_node uh = h !! t_node uh) → thread_ok h' L' uh.
Proof.
  intros [Hpc Hnode Hr Hw] Hg Hval Hadj Hlink.
  split; [|intros Ha; destruct (Hnode Ha) as (Hne & q & Hq); split; [done|]; destruct (Hg _ _ Hq) as ([k' q'] & Hq' & Hk & _);
    simpl in Hk; subst k'; eauto|done|done].
  assert (Hwin := λ k p c, window_grows h h' k p c Hg). assert (Hsh := λ a, shared_node_grows h h' a Hg).
  unfold pc_ok, locks in *. destruct (t_pc uh) as [| |p c|p c|p c|p c it|p c it|p c []|p c|p c|p c|p c k|c k] eqn:Hp; auto.
  - destruct Hpc as (a & b & na & -> & -> & Ha & Hna & Hb & Hne & Hk). destruct (Hg _ _ Ha) as (na' & Ha' & Hka & ?).
    exists a, b, na'. rewrite Hka. split_and!; auto.
  - destruct Hpc as [H1 H2]. eauto.
  - destruct Hpc as (H1 & H2 & H3). split_and!; eauto. intros i q ni nq -> -> Hi Hq.
    destruct H2 as (V & _ & HV & (i' & [= <-] & Hi') & _). destruct (HV i Hi') as [(ni' & Hni & _) _].
    destruct H1 as (a & b & na & nb & [= <-] & _ & Ha & _). destruct (Hg _ _ Hni) as (? & ? & Hk1 & _).
    destruct (Hg _ _ Ha) as (? & ? & Hk2 & _). simplify_eq. rewrite Hk1, Hk2. by eapply H3.
  - destruct Hpc as (H1 & kc & H2). split; [auto|]. eauto.
  - destruct Hpc as (H1 & H2 & kc & H3 & H4). split_and!; [auto..|]. eauto.
  - destruct Hpc as (H1 & H2 & (kc & H3 & H4) & H5). split_and!; [auto..|eauto|]. by rewrite (Hlink p c).
  - destruct Hpc as (H1 & H2 & H3). split_and!; [auto..|]. by eapply Hadj.
  - destruct Hpc as (a & b & -> & -> & Ha & Hb & Hab). exists a, b. split_and!; auto.
  - destruct Hpc as (b & -> & Hb). exists b. auto.
Qed.

(** ** A step of one thread *)

Lemma entries_of_app t l l' : entries_of t (l ++ l') = entries_of t l ++ entries_of t l'.
Proof. unfold entries_of. by rewrite filter_app, fmap_app. Qed.

Lemma entries_of_self t th l : entries_of t (entries t th l) = (λ b, (t_action th, b)) <$> l.
Proof.
  unfold entries_of, entries. induction l as [|b l IH]; [done|]. rewrite fmap_cons, filter_cons_True by done. cbn. f_equal. exact IH.
Qed.

Lemma entries_of_other t u th l : u ≠ t → entries_of t (entries u th l) = [].
Proof.
  intros Hne. unfold entries_of, entries. induction l as [|b l IH]; [done|]. by rewrite fmap_cons, filter_cons_False.
Qed.

Lemma opt_hist_ok_other prog t th eff lg u uh e r :
  u ≠ t → hist_ok prog t th eff lg → hist_ok prog t th (eff ++ entries u uh e) (lg ++ entries u uh r).
Proof. intros Hu [H1 H2]. split; rewrite !entries_of_app, !entries_of_other, !app_nil_r by done; done. Qed.

(** What has to be shown for a step of thread [t]. *)
Lemma opt_world_ok_put work w L t th th' h' l' eff ret L' :
  world_ok work w L → threads w !! t = Some th →
  lseg (in_memory h') (Addr head) (full L') NULL → NoDup (full L').*1 → StronglySorted Z.lt L'.*2 → Forall in_range L'.*2 →
  (∀ a n, h' !! a = Some n → node_ok h' a n) →
  (∀ a, l' !! a = Some t ↔ Addr a ∈ locks th') → (∀ a u, u ≠ t → l' !! a = Some u ↔ held w !! a = Some u) →
  thread_ok h' L' th' → (∀ u uh, u ≠ t → threads w !! u = Some uh → thread_ok (mem w) L uh → thread_ok h' L' uh) →
  (adding th' → adding th ∧ t_node th' = t_node th ∨ mem w !! t_node th' = None) →
  replay_actions spec_set ∅ (effects w ++ entries t th' eff) = Some (list_to_set L'.*2) →
  hist_ok (default [] (work !! t)) t th' (effects w ++ entries t th' eff) (log w ++ entries t th' ret) →
  world_ok work (put t th' h' l' eff ret w) L'.
Proof.
  intros Hok Ht Hseg Hnd Hs Hr Hnodes Hl1 Hl2 Hth Hoth Hown Heff Hhist. assert (Hlt := lookup_lt_Some _ _ _ Ht).
  assert (Hcase : ∀ u uh, <[t := th']> (threads w) !! u = Some uh → u = t ∧ uh = th' ∨ u ≠ t ∧ threads w !! u = Some uh).
  { intros u uh Hu. destruct (decide (u = t)) as [->|Hne]; [left|right]; [|by rewrite list_lookup_insert_ne in Hu].
    rewrite list_lookup_insert_eq in Hu by done. by simplify_eq. }
  split; simpl; try done.
  - eapply held_ok_put; [apply Hok|done|by split].
  - intros u uh [[-> ->]|[Hne Hu]]%Hcase; [done|]. by apply (Hoth u), (ok_threads _ _ _ Hok u).
  - assert (Hx : ∀ u uh, u ≠ t → threads w !! u = Some uh → adding th' → adding uh → t_node th' = t_node uh → False).
    { intros u uh Hne Hu H1 H2 He. destruct (Hown H1) as [[H3 H4]|H3].
      - by apply Hne, (ok_distinct _ _ _ Hok u t uh th); [..|congruence].
      - destruct (tok_node _ _ _ (ok_threads _ _ _ Hok u uh Hu) H2) as (_ & q & Hq). congruence. }
    intros u v uh vh [[-> ->]|[Hu Hu']]%Hcase [[-> ->]|[Hv Hv']]%Hcase H1 H2 He; [done|exfalso; by eapply Hx..|].
    by apply (ok_distinct _ _ _ Hok u v uh vh).
  - intros u uh [[-> ->]|[Hne Hu]]%Hcase; [done|]. apply opt_hist_ok_other; [done|]. by apply Hok.
  - rewrite length_insert. apply Hok.
Qed.

(** *** Locks *)

(** *** Steps that leave the memory as it is *)

Lemma opt_hist_put prog t th th' eff lg e r :
  hist_ok prog t th eff lg → todo th = ((λ _, t_action th') <$> r) ++ todo th' →
  inflight th ++ filter (λ x, ¬ insertion x) ((λ b, (t_action th', b)) <$> e) = ((λ b, (t_action th', b)) <$> r) ++ inflight th' →
  hist_ok prog t th' (eff ++ entries t th' e) (lg ++ entries t th' r).
Proof.
  intros [H1 H2] Ht Hi. split.
  - rewrite entries_of_app, entries_of_self, fmap_app, <- list_fmap_compose, <- (assoc_L app), <- H1, Ht. done.
  - by rewrite !entries_of_app, !entries_of_self, filter_app, H2, <- !(assoc_L app), Hi.
Qed.

Lemma opt_quiet_step work w L t th p l' eff ret :
  world_ok work w L → threads w !! t = Some th → t_pc th ≠ Idle →
  held_after locks (held w) t (set_pc p th) l' → pc_ok (mem w) L (set_pc p th) →
  todo th = ((λ _, t_action th) <$> ret) ++ todo (set_pc p th) →
  inflight th ++ filter (λ x, ¬ insertion x) ((λ b, (t_action th, b)) <$> eff) =
    ((λ b, (t_action th, b)) <$> ret) ++ inflight (set_pc p th) →
  replay_actions spec_set ∅ (effects w ++ entries t th eff) = Some (list_to_set L.*2) →
  world_ok work (put t (set_pc p th) (mem w) l' eff ret w) L.
Proof.
  intros Hok Ht Hidle [Hl1 Hl2] Hpc Htodo Hinf Heff. assert (Hth := ok_threads _ _ _ Hok _ _ Ht).
  apply (opt_world_ok_put work w L t th); try done; try apply Hok.
  - destruct Hth as [_ Hnode Hr Hw]. split; [done| |by intros _; apply Hr|done].
    intros [_ Ha]. by apply Hnode.
  - intros [_ Ha]. left. done.
  - apply opt_hist_put with th; try done. by apply Hok.
Qed.

Ltac by_pc H := unfold pc_ok, todo, inflight, locks, set_pc in *; simpl in *; rewrite ?H in *; simpl in *.

Ltac quiet Hpc Hok := try done; try (by rewrite app_nil_r; apply Hok); try (by by_pc Hpc).

Lemma pc_of work w L t th : world_ok work w L → threads w !! t = Some th → pc_ok (mem w) L th.
Proof. intros Hok Ht. apply (ok_threads _ _ _ Hok _ _ Ht). Qed.

(** The successor of a node that is below some admissible key. *)
Lemma successor work w L a n :
  world_ok work w L → mem w !! a = Some n → next n ≠ Uninit → (key n < INT_MAX)%Z →
  ∃ b, next n = Addr b ∧ shared_node (mem w) b ∧ b ≠ head.
Proof.
  intros Hok Ha Hn Hk. destruct (ok_nodes _ _ _ Hok a n Ha) as [_ Hnode]. destruct (next n) as [| |b]; [done|lia|].
  destruct Hnode as (Hb & na & nb & _ & _ & Hne & _). eauto.
Qed.

Lemma head_node work w L : world_ok work w L → ∃ n, mem w !! head = Some n ∧ key n = INT_MIN ∧ next n ≠ Uninit.
Proof.
  intros Hok. destruct (seg_shared (mem w) L head (ok_seg _ _ _ Hok)) as [(n & Hn & Hu) _]; [by left|].
  destruct (ok_seg _ _ _ Hok) as (_ & nx & Hh & _). unfold in_memory in Hh. exists n. split_and!; [done| |done]. by simplify_eq.
Qed.

Lemma restart_ok work w L t th :
  world_ok work w L → threads w !! t = Some th → t_pc th = Restart →
  ∃ n, load (mem w) (Addr head) = Ok n ∧ world_ok work (goto t th (Walk (Addr head) (next n)) w) L.
Proof.
  intros Hok Ht Hpc. destruct (head_node _ _ _ Hok) as (n & Hn & Hk & Hu). exists n. split; [by simpl; rewrite Hn|].
  destruct (successor _ _ _ _ _ Hok Hn Hu) as (b & Hb & Hsh & Hne); [rewrite Hk; done|].
  apply (opt_quiet_step work w L t th); quiet Hpc Hok; [eapply held_keep; [apply Hok|done|by by_pc Hpc]|].
  rewrite Hb. exists head, b, n. split_and!; auto.
Qed.

Lemma walk_ok work w L t th prev curr :
  world_ok work w L → threads w !! t = Some th → t_pc th = Walk prev curr →
  ∃ n, load (mem w) curr = Ok n ∧
    world_ok work (goto t th (if (key n <? action_key (t_action th))%Z then Walk curr (next n) else LockPrev prev curr) w) L.
Proof.
  intros Hok Ht Hpc. assert (Hp := pc_of _ _ _ _ _ Hok Ht). unfold pc_ok in Hp. rewrite Hpc in Hp.
  destruct Hp as (a & b & na & -> & -> & Ha & Hna & (nb & Hb & Hnb) & Hne & Hka).
  assert (Hr : in_range (action_key (t_action th))) by (apply (tok_range _ _ _ (ok_threads _ _ _ Hok _ _ Ht)); by rewrite Hpc).
  exists nb. split; [by simpl; rewrite Hb|].
  destruct (key nb <? action_key (t_action th))%Z eqn:Hk; [apply Z.ltb_lt in Hk|apply Z.ltb_ge in Hk];
    (apply (opt_quiet_step work w L t th); quiet Hpc Hok; [eapply held_keep; [apply Hok|done|by by_pc Hpc]|]).
  - destruct (successor _ _ _ _ _ Hok Hb Hnb) as (d & -> & Hsh & Hd); [unfold in_range in Hr; lia|].
    exists b, d, nb. split_and!; auto.
  - exists a, b, na, nb. split_and!; auto.
Qed.

Lemma lock_prev_ok work w L t th prev curr l :
  world_ok work w L → threads w !! t = Some th → t_pc th = LockPrev prev curr → lock (mem w) (held w) t prev = Some l →
  ∃ l', l = Ok l' ∧ world_ok work (put t (set_pc (LockCurr prev curr) th) (mem w) l' [] [] w) L.
Proof.
  intros Hok Ht Hpc Hl. assert (Hp := pc_of _ _ _ _ _ Hok Ht). unfold pc_ok in Hp. rewrite Hpc in Hp.
  pose proof Hp as (a & b & na & nb & -> & -> & Ha & _). destruct (lock_cases _ _ _ _ _ _ Ha Hl) as [Hh ->].
  eexists. split; [done|]. apply (opt_quiet_step work w L t th); quiet Hpc Hok.
  eapply held_lock; [apply Hok|done|done|]. by_pc Hpc. set_solver.
Qed.

Lemma window_ne h k a b : window h k (Addr a) (Addr b) → a ≠ b.
Proof.
  intros (a' & b' & na & nb & [= <-] & [= <-] & Ha & Hb & _ & _ & Hne & Hka & Hkb) ->. simplify_eq. destruct Hka; [done|lia].
Qed.

Lemma opt_lock_curr_ok work w L t th prev curr l :
  world_ok work w L → threads w !! t = Some th → t_pc th = LockCurr prev curr → lock (mem w) (held w) t curr = Some l →
  ∃ l', l = Ok l' ∧ world_ok work (put t (set_pc (ValidateKey prev curr (Addr head)) th) (mem w) l' [] [] w) L.
Proof.
  intros Hok Ht Hpc Hl. assert (Hp := pc_of _ _ _ _ _ Hok Ht). unfold pc_ok in Hp. rewrite Hpc in Hp.
  pose proof Hp as (a & b & na & nb & -> & -> & Ha & Hb & _). destruct (lock_cases _ _ _ _ _ _ Hb Hl) as [Hh ->].
  eexists. split; [done|]. apply (opt_quiet_step work w L t th); quiet Hpc Hok.
  - eapply held_lock; [apply Hok|done|done|]. by_pc Hpc. set_solver.
  - split; [done|]. exists (list_to_set (full L).*1). split_and!.
    + intros d Hd. by apply elem_of_list_to_set.
    + intros d Hd%elem_of_list_to_set. destruct (seg_shared _ _ _ (ok_seg _ _ _ Hok) Hd) as [H1 H2].
      split; [done|]. intros n e Hn He. apply elem_of_list_to_set. by eapply H2.
    + exists head. split; [done|]. apply elem_of_list_to_set. by left.
    + intros p _ Hin. by apply elem_of_list_to_set in Hin.
Qed.

Lemma validate_key_ok work w L t th prev curr it :
  world_ok work w L → threads w !! t = Some th → t_pc th = ValidateKey prev curr it →
  ∃ w', validate_key t th prev curr it w = Ok w' ∧ world_ok work w' L.
Proof.
  intros Hok Ht Hpc. assert (Hp := pc_of _ _ _ _ _ Hok Ht). unfold pc_ok in Hp. rewrite Hpc in Hp. destruct Hp as [Hwin Hval].
  pose proof Hwin as (a & b & na & nb & -> & -> & Ha & Hb & _). pose proof Hval as (V & _ & HV & (i & -> & Hi) & _).
  destruct (HV i Hi) as [(ni & Hni & _) _]. unfold validate_key. simpl. rewrite Hni, Ha. cbn [mbind res_bind]. eexists. split; [reflexivity|].
  destruct (key ni <=? key na)%Z eqn:Hk; apply (opt_quiet_step work w L t th); quiet Hpc Hok; try (by rewrite Hpc);
    try (eapply held_keep; [apply Hok|done|by by_pc Hpc]).
  unfold pc_ok. simpl. split_and!; [done..|]. intros i' p ni' np [= <-] [= <-] Hi' Hp. simplify_eq. by apply Z.leb_le.
Qed.

Lemma validate_found work w L t th prev curr i n :
  world_ok work w L → threads w !! t = Some th → in_range (action_key (t_action th)) →
  window (mem w) (action_key (t_action th)) prev curr → prev = Addr i → i ∈ (full L).*1 → mem w !! i = Some n → next n = curr →
  ∃ kc, adj (full L) (action_key (t_action th)) prev curr kc.
Proof.
  intros Hok Ht Hr Hwin -> ([i' ki] & -> & [j Hj]%list_elem_of_lookup)%list_elem_of_fmap Hn Hnext. cbn [fst] in *.
  destruct Hwin as (a & b & na & nb & [= <-] & -> & Ha & Hb & _ & _ & _ & Hka & _).
  destruct (lseg_lookup _ _ _ _ _ _ _ (ok_seg _ _ _ Hok) Hj) as (nx & Hin & Hnx). unfold in_memory in Hin.
  assert (n = na) as -> by congruence. rewrite Hn in Hin. injection Hin as ->. cbn [next key] in Hnext, Hka. subst nx.
  destruct (full L !! S j) as [[c kc]|] eqn:Hc.
  - specialize (Hnx c kc eq_refl). injection Hnx as ->. exists kc, j, i', ki, c. split_and!; [done..|].
    destruct Hka as [->|?]; [left|by right]. eapply NoDup_lookup; [exact (ok_nodup _ _ _ Hok)|..]; rewrite list_lookup_fmap; [by rewrite Hj|done].
  - exfalso. assert (Hlast : last (full L) = Some (i', ki)).
    { rewrite last_lookup. apply lookup_ge_None in Hc. apply lookup_lt_Some in Hj as Hl.
      by replace (pred (length (full L))) with j by lia. }
    unfold full_list in Hlast. rewrite app_comm_cons, last_snoc in Hlast. injection Hlast as <- <-. destruct Hka as [Ht'|?].
    + assert (Hnd := ok_nodup _ _ _ Hok). unfold full_list in Hnd. rewrite Ht', fmap_cons, fmap_app in Hnd.
      apply NoDup_cons in Hnd as [Hnd _]. apply Hnd. apply elem_of_app. right. by left.
    + unfold in_range in Hr. lia.
Qed.

Lemma validate_next_ok work w L t th prev curr it :
  world_ok work w L → threads w !! t = Some th → t_pc th = ValidateNext prev curr it →
  ∃ w', validate_next t th prev curr it w = Ok w' ∧ world_ok work w' L.
Proof.
  intros Hok Ht Hpc. assert (Hp := pc_of _ _ _ _ _ Hok Ht). unfold pc_ok in Hp. rewrite Hpc in Hp. destruct Hp as (Hwin & Hval & Hkey).
  assert (Hr : in_range (action_key (t_action th))) by (apply (tok_range _ _ _ (ok_threads _ _ _ Hok _ _ Ht)); by rewrite Hpc).
  pose proof Hwin as (a & b & na & nb & -> & -> & Ha & Hb & _ & _ & _ & Hka & _). pose proof Hval as (V & HV1 & HV & (i & -> & Hi) & HV4).
  destruct (HV i Hi) as [(ni & Hni & Hu) Hcl]. unfold validate_next. simpl. rewrite Hni. cbn [mbind res_bind]. eexists. split; [reflexivity|].
  assert (Hkeep : ∀ p, locks (set_pc p th) = [Addr a; Addr b] → held_after locks (held w) t (set_pc p th) (held w)).
  { intros p Hl. eapply held_keep; [apply Hok|done|]. rewrite Hl. by by_pc Hpc. }
  case_decide as Hit.
  - injection Hit as ->. destruct (bool_decide (next ni = Addr b)) eqn:Hnext; (apply (opt_quiet_step work w L t th); quiet Hpc Hok).
    + by apply Hkeep.
    + split; [done|]. apply bool_decide_eq_true in Hnext. apply (validate_found work w L t th (Addr a) (Addr b) a ni); try done. by apply HV4.
    + by apply Hkeep.
  - apply (opt_quiet_step work w L t th); quiet Hpc Hok; [by apply Hkeep|].
    split; [done|]. assert (Hlt : (key ni < INT_MAX)%Z).
    { specialize (Hkey i a ni na eq_refl eq_refl Hni Ha). destruct (head_node _ _ _ Hok) as (nh & Hnh & Hkh & _).
      destruct Hka as [->|Hka]; [|unfold in_range in Hr; lia]. simplify_eq. rewrite Hkh in Hkey. unfold INT_MIN, INT_MAX in *. lia. }
    destruct (successor _ _ _ _ _ Hok Hni Hu Hlt) as (d & Hd & _). rewrite Hd.
    exists V. split_and!; [done..| |done]. exists d. split; [done|]. by eapply Hcl.
Qed.

Lemma opt_unlock_prev_ok work w L t th prev curr k :
  world_ok work w L → threads w !! t = Some th → t_pc th = UnlockPrev prev curr k →
  ∃ l', unlock (mem w) (held w) t prev = Ok l' ∧ world_ok work (put t (set_pc (UnlockCurr curr k) th) (mem w) l' [] [] w) L.
Proof.
  intros Hok Ht Hpc. assert (Hp := pc_of _ _ _ _ _ Hok Ht). unfold pc_ok in Hp. rewrite Hpc in Hp.
  destruct Hp as (a & b & -> & -> & (na & Ha & _) & Hb & Hne).
  destruct (unlock_Ok locks (mem w) _ _ _ _ a na (ok_held _ _ _ Hok) Ht) as [Hh Hu]; [by_pc Hpc; by left|done|]. eexists. split; [done|].
  apply (opt_quiet_step work w L t th); quiet Hpc Hok.
  - eapply held_unlock; [apply Hok|done|done|]. by_pc Hpc. set_solver.
  - by_pc Hpc. eauto.
  - by_pc Hpc. by rewrite app_nil_r.
Qed.

Lemma opt_unlock_curr_ok work w L t th curr k :
  world_ok work w L → threads w !! t = Some th → t_pc th = UnlockCurr curr k →
  ∃ l', unlock (mem w) (held w) t curr = Ok l' ∧ world_ok work (after_unlock t th k l' w) L.
Proof.
  intros Hok Ht Hpc. assert (Hp := pc_of _ _ _ _ _ Hok Ht). unfold pc_ok in Hp. rewrite Hpc in Hp.
  destruct Hp as (b & -> & nb & Hb & _).
  destruct (unlock_Ok locks (mem w) _ _ _ _ b nb (ok_held _ _ _ Hok) Ht) as [Hh Hu]; [by_pc Hpc; by left|done|]. eexists. split; [done|].
  destruct k as [|r]; simpl; (apply (opt_quiet_step work w L t th); quiet Hpc Hok);
    try (eapply held_unlock; [apply Hok|done|done|]; by_pc Hpc; set_solver).
Qed.

Lemma adj_key work w L k p c kc n :
  world_ok work w L → adj (full L) k p (Addr c) kc → mem w !! c = Some n → key n = kc.
Proof.
  intros Hok (i & b & kb & c' & Hb & Hc & -> & [= <-] & _) Hn.
  destruct (lseg_lookup _ _ _ _ _ _ _ (ok_seg _ _ _ Hok) Hc) as (nx & Hin & _). unfold in_memory in Hin. by simplify_eq.
Qed.

Lemma window_unlock h k p c : window h k p c → ∃ a b, p = Addr a ∧ c = Addr b ∧ shared_node h a ∧ shared_node h b ∧ a ≠ b.
Proof.
  intros Hw. pose proof Hw as (a & b & na & nb & -> & -> & Ha & Hb & Hna & Hnb & _). apply window_ne in Hw.
  exists a, b. split_and!; [done|done|by exists na|by exists nb|done].
Qed.

Lemma check_leave_ok work w L t th prev curr r :
  world_ok work w L → threads w !! t = Some th → t_pc th = Check prev curr true →
  window (mem w) (action_key (t_action th)) prev curr → ¬ insertion (t_action th, r) →
  spec_set (list_to_set L.*2) (t_action th) = (list_to_set L.*2, r) →
  world_ok work (put t (set_pc (UnlockPrev prev curr (Leave r)) th) (mem w) (held w) [r] [] w) L.
Proof.
  intros Hok Ht Hpc Hwin Hins Hspec. apply (opt_quiet_step work w L t th); quiet Hpc Hok.
  - eapply held_keep; [apply Hok|done|]. by by_pc Hpc.
  - unfold pc_ok. simpl. by eapply window_unlock.
  - unfold inflight. rewrite Hpc. simpl. by rewrite filter_cons_True.
  - assert (H := replay_actions_snoc spec_set ∅ (effects w) t (t_action th) _ (ok_effects _ _ _ Hok)). by rewrite Hspec in H.
Qed.

Lemma check_ok work w L t th prev curr valid :
  world_ok work w L → threads w !! t = Some th → t_pc th = Check prev curr valid →
  ∃ w', check t th prev curr valid w = Ok w' ∧ world_ok work w' L.
Proof.
  intros Hok Ht Hpc. assert (Hp := pc_of _ _ _ _ _ Hok Ht). unfold pc_ok in Hp. rewrite Hpc in Hp.
  assert (Hr : in_range (action_key (t_action th))) by (apply (tok_range _ _ _ (ok_threads _ _ _ Hok _ _ Ht)); by rewrite Hpc).
  unfold check. destruct valid; simpl in Hp.
  2: { eexists. split; [reflexivity|]. apply (opt_quiet_step work w L t th); quiet Hpc Hok; [eapply held_keep; [apply Hok|done|by by_pc Hpc]|].
       unfold pc_ok. simpl. by eapply window_unlock. }
  destruct Hp as (Hwin & kc & Hadj). pose proof Hwin as (a & b & na & nb & -> & -> & Ha & Hb & _ & _ & _ & _ & Hkb).
  assert (Hkc := adj_key _ _ _ _ _ _ _ _ Hok Hadj Hb).
  assert (Hmem := adj_member _ _ _ _ _ _ _ (ok_sorted _ _ _ Hok) (ok_range _ _ _ Hok) Hr Hadj ltac:(lia)).
  assert (Hleave := λ r, check_leave_ok work w L t th (Addr a) (Addr b) r Hok Ht Hpc Hwin).
  unfold load. rewrite Hb. cbn [mbind res_bind]. rewrite Hkc. eexists. split; [reflexivity|].
  assert (Hkeep : ∀ p, locks (set_pc p th) = [Addr a; Addr b] → held_after locks (held w) t (set_pc p th) (held w)).
  { intros p Hl. eapply held_keep; [apply Hok|done|]. rewrite Hl. by by_pc Hpc. }
  destruct (t_action th) as [k|k|k] eqn:Hact; simpl in Hmem, Hkb.
  - case_decide as Hk; [apply Hleave; [by intros []|apply spec_set_same; tauto]|].
    apply (opt_quiet_step work w L t th); quiet Hpc Hok; [by apply Hkeep|]. unfold pc_ok. simpl. rewrite Hact. simpl.
    split_and!; [done..|]. exists kc. split; [done|lia].
  - case_decide as Hk; [|apply Hleave; [by intros []|apply spec_set_same; tauto]].
    apply (opt_quiet_step work w L t th); quiet Hpc Hok; [by apply Hkeep|]. unfold pc_ok. simpl. rewrite Hact. simpl.
    split_and!; [done..|]. by rewrite Hk in Hadj.
  - apply Hleave; [by intros []|]. apply spec_set_same. apply bool_decide_ext. by rewrite Hmem.
Qed.

Lemma opt_start_ok work w L t th node r :
  world_ok work w L → threads w !! t = Some th → t_pc th = Idle → start t node th w = Some r →
  ∃ w', r = Ok w' ∧ world_ok work w' L.
Proof.
  intros Hok Ht Hpc Hs. assert (Hth := ok_threads _ _ _ Hok _ _ Ht). unfold start in Hs.
  destruct (t_work th) as [|wk rest] eqn:Hwk; [done|]. assert (Hw := tok_work _ _ _ Hth). rewrite Hwk in Hw.
  apply Forall_cons in Hw as [Hw Hrest]. destruct (ok_hist _ _ _ Hok _ _ Ht) as [Hh1 Hh2].
  unfold todo, inflight in Hh1, Hh2. rewrite Hpc, Hwk in Hh1. rewrite Hpc in Hh2. simpl in Hh1, Hh2.
  assert (Hhist : ∀ th', (match t_pc th' with Idle => [] | _ => [t_action th'] end) ++ omap action_of (t_work th') = omap action_of (wk :: rest) →
    inflight th' = [] → hist_ok (default [] (work !! t)) t th' (effects w ++ entries t th' []) (log w ++ entries t th' [])).
  { intros th' H1 H2. rewrite !app_nil_r. split; [unfold todo; by rewrite H1|by rewrite H2]. }
  assert (Hplain : ∀ th', t_work th' = rest → locks th' = [] → inflight th' = [] → pc_ok (mem w) L th' → ¬ adding th' →
    (t_pc th' ≠ Idle → in_range (action_key (t_action th'))) →
    (match t_pc th' with Idle => [] | _ => [t_action th'] end) ++ omap action_of rest = omap action_of (wk :: rest) →
    world_ok work (put t th' (mem w) (held w) [] [] w) L).
  { intros th' E1 E2 E3 E4 E5 E6 E7. destruct (held_keep _ _ _ _ _ th' (ok_held _ _ _ Hok) Ht) as [Hl1 Hl2]; [rewrite E2; unfold locks; by rewrite Hpc|].
    apply (opt_world_ok_put work w L t th); try done; try apply Hok; [split; [done|done|done|by rewrite E1]|by rewrite app_nil_r; apply Hok|].
    apply Hhist; [by rewrite E1|done]. }
  destruct (action_of wk) as [a|] eqn:Ha.
  2: { injection Hs as <-. eexists. split; [done|]. apply Hplain; try done; [by intros [? _]|]. simpl. by rewrite Ha. }
  destruct a as [k|k|k].
  2,3: injection Hs as <-; eexists; (split; [done|]); apply Hplain; try done; [by intros [_ [? ?]]|intros _; by apply Hw|simpl; by rewrite Ha].
  destruct (mem w !! node) eqn:Hn; [done|]. injection Hs as <-. eexists. split; [done|].
  assert (Hg := grows_alloc (mem w) node (mk_Node k Uninit) Hn).
  destruct (held_keep _ _ _ _ _ (mk_thread rest (Add k) node Restart) (ok_held _ _ _ Hok) Ht) as [Hl1 Hl2]; [unfold locks; by rewrite Hpc|].
  assert (Hseg : lseg (in_memory (<[node := mk_Node k Uninit]> (mem w))) (Addr head) (full L) NULL).
  { eapply lseg_mono; [|apply Hok]. unfold in_memory. intros b kb nx _ Hb. by rewrite lookup_insert_ne by congruence. }
  apply (opt_world_ok_put work w L t th); try done; try apply Hok.
  - intros a n Hin. destruct (decide (node = a)) as [->|Hne].
    + rewrite lookup_insert_eq in Hin. injection Hin as <-. split; [|done]. specialize (Hw (Add k) Ha). unfold in_range in Hw. simpl in *. lia.
    + rewrite lookup_insert_ne in Hin by done. eapply node_ok_grows; [done|]. by apply Hok.
  - split; [done| |intros _; by apply (Hw (Add k))|done]. intros _. simpl. split.
    + intros ->. destruct (head_node _ _ _ Hok) as (n & ? & _). congruence.
    + exists Uninit. by rewrite lookup_insert_eq.
  - intros u uh Hu Huh Hok'. apply other_ok with (mem w) L; try done.
    + intros p c it _ Hval. eapply validating_step; [done|done|done| |done].
      intros a n n' b H1 H2 _ H3. rewrite lookup_insert_ne in H2 by congruence. congruence.
    + intros p c Hlink. assert (Hp := tok_pc _ _ _ Hok'). unfold pc_ok in Hp. rewrite Hlink in Hp. destruct Hp as (_ & _ & _ & Hp).
      by rewrite lookup_insert_ne by congruence.
  - intros _. by right.
  - rewrite app_nil_r. apply Hok.
  - apply Hhist; [|done]. simpl. by rewrite Ha.
Qed.

(** *** Steps that change the memory *)

Lemma node_not_listed work w L node k q :
  world_ok work w L → mem w !! node = Some (mk_Node k q) → node ≠ head → in_range k → k ∉ L.*2 → node ∉ (full L).*1.
Proof.
  intros Hok Hn Hh Hr Hk ([a ka] & -> & [i Hi]%list_elem_of_lookup)%list_elem_of_fmap. cbn [fst] in *.
  destruct (lseg_lookup _ _ _ _ _ _ _ (ok_seg _ _ _ Hok) Hi) as (nx & Hin & _). unfold in_memory in Hin. rewrite Hn in Hin.
  injection Hin as <- _. unfold full_list in Hi. destruct i as [|i]; simpl in Hi; [congruence|].
  apply lookup_app_Some in Hi as [Hi|[_ Hi]].
  - apply Hk. apply list_elem_of_lookup_2 in Hi. by apply (list_elem_of_fmap_2 snd) in Hi.
  - apply list_lookup_singleton_Some in Hi as [_ [= _ <-]]. unfold in_range in Hr. lia.
Qed.

(** [list_add] between [prev] and [curr]: the key is new and the node is not in the list. *)
Lemma adding_window work w L t th prev curr kc :
  world_ok work w L → threads w !! t = Some th → adding th → window (mem w) (action_key (t_action th)) prev curr →
  adj (full L) (action_key (t_action th)) prev curr kc → (action_key (t_action th) < kc)%Z →
  ∃ a b q L1 kb L2 M L3, prev = Addr a ∧ curr = Addr b ∧ mem w !! t_node th = Some (mk_Node (action_key (t_action th)) q) ∧
    t_node th ≠ head ∧ t_node th ∉ (full L).*1 ∧ action_key (t_action th) ∉ L.*2 ∧
    found head tail L (action_key (t_action th)) a b L1 kb kc L2 M L3.
Proof.
  intros Hok Ht Ha Hwin Hadj Hk. assert (Hth := ok_threads _ _ _ Hok _ _ Ht). destruct (tok_node _ _ _ Hth Ha) as (Hh & q & Hq).
  assert (Hr : in_range (action_key (t_action th))) by (apply (tok_range _ _ _ Hth), Ha).
  destruct (adj_found _ _ _ _ _ _ _ (ok_sorted _ _ _ Hok) (ok_range _ _ _ Hok) Hadj) as (a & b & L1 & kb & L2 & M & L3 & -> & -> & Hf); [lia|].
  assert (Hnot : action_key (t_action th) ∉ L.*2).
  { rewrite (adj_member _ _ _ _ _ _ _ (ok_sorted _ _ _ Hok) (ok_range _ _ _ Hok) Hr Hadj); lia. }
  exists a, b, q, L1, kb, L2, M, L3. split_and!; try done. by eapply node_not_listed.
Qed.

(** A node about to be linked in is not in the list. *)
Lemma other_link_node work w L u uh a prev curr :
  world_ok work w L → threads w !! u = Some uh → a ∈ (full L).*1 → t_pc uh = Link prev curr → t_node uh ≠ a.
Proof.
  intros Hok Hu Hin Hpc <-. assert (Hp := pc_of _ _ _ _ _ Hok Hu). unfold pc_ok in Hp. rewrite Hpc in Hp.
  destruct Hp as (Hwin & Hact & (kc & Hadj & Hk) & _).
  destruct (adding_window work w L u uh prev curr kc) as (? & ? & ? & ? & ? & ? & ? & ? & _ & _ & _ & _ & H & _); try done.
  split; [by rewrite Hpc|eauto].
Qed.

Lemma opt_link_node_ok work w L t th prev curr :
  world_ok work w L → threads w !! t = Some th → t_pc th = LinkNode prev curr →
  ∃ h', store_next (mem w) (Addr (t_node th)) curr = Ok h' ∧
    world_ok work (put t (set_pc (Link prev curr) th) h' (held w) [] [] w) L.
Proof.
  intros Hok Ht Hpc. assert (Hp := pc_of _ _ _ _ _ Hok Ht). unfold pc_ok in Hp. rewrite Hpc in Hp.
  destruct Hp as (Hwin & Hact & kc & Hadj & Hk). assert (Hth := ok_threads _ _ _ Hok _ _ Ht).
  assert (Hadd : adding th) by (split; [by rewrite Hpc|eauto]).
  destruct (adding_window _ _ _ _ _ _ _ _ Hok Ht Hadd Hwin Hadj Hk) as (a & b & q & L1 & kb & L2 & M & L3 & -> & -> & Hq & Hh & Hnin & _ & Hf).
  set (k := action_key (t_action th)) in *. eexists. split; [simpl; rewrite Hq; reflexivity|]. cbn [key].
  assert (Hg : grows (mem w) (<[t_node th := mk_Node k (Addr b)]> (mem w))) by (by eapply grows_insert).
  assert (Hseg : lseg (in_memory (<[t_node th := mk_Node k (Addr b)]> (mem w))) (Addr head) (full L) NULL).
  { eapply lseg_mono; [|apply Hok]. unfold in_memory. intros c kc' nx Hc Hm. rewrite lookup_insert_ne; [done|].
    intros <-. apply Hnin. by apply (list_elem_of_fmap_2 fst) in Hc. }
  destruct (held_keep _ _ _ _ _ (set_pc (Link (Addr a) (Addr b)) th) (ok_held _ _ _ Hok) Ht) as [Hl1 Hl2]; [unfold locks; by rewrite Hpc|].
  pose proof Hwin as (a' & b' & na & nb & [= <-] & [= <-] & Ha & Hb & Hna & Hnb & Hbh & Hka & Hkb).
  assert (Hbin : b ∈ (full L).*1) by (eapply (list_elem_of_fmap_inj_2 Addr), adj_elem, Hadj).
  apply (opt_world_ok_put work w L t th); try done; try apply Hok.
  - intros c n Hc. destruct (decide (t_node th = c)) as [<-|Hne].
    + rewrite lookup_insert_eq in Hc. injection Hc as <-. split.
      * assert (Hr := tok_range _ _ _ Hth ltac:(by rewrite Hpc)). unfold in_range in Hr. simpl. fold k in Hr. lia.
      * simpl. split; [eapply shared_node_grows; [done|by exists nb]|].
        assert (Hne : t_node th ≠ b) by (intros He; by rewrite He in Hnin).
        exists (mk_Node k (Addr b)), nb. rewrite lookup_insert_eq, lookup_insert_ne by done. split_and!; [done..|]. right. simpl.
        rewrite (adj_key _ _ _ _ _ _ _ _ Hok Hadj Hb). done.
    + rewrite lookup_insert_ne in Hc by done. eapply node_ok_grows; [done|]. by apply Hok.
  - split; [|intros _; split; [done|eexists; by rewrite lookup_insert_eq]|intros _; apply (tok_range _ _ _ Hth); by rewrite Hpc|apply Hth].
    split_and!; [by eapply window_grows|done|eauto|]. by rewrite lookup_insert_eq.
  - intros u uh Hu Huh Hok'. apply other_ok with (mem w) L; try done.
    + intros p c it _ Hval. eapply validating_step; [done|done|done| |done]. intros d n n' e H1 H2 He Hch.
      destruct (decide (t_node th = d)) as [<-|Hne]; [|rewrite lookup_insert_ne in H2 by done; congruence].
      rewrite lookup_insert_eq in H2. injection H2 as <-. simpl in He. by injection He as <-.
    + intros p c Hlink. rewrite lookup_insert_ne; [done|]. intros He. apply Hu. symmetry.
      eapply (ok_distinct _ _ _ Hok t u th uh); try done. split; [by rewrite Hlink|].
      assert (Hp' := tok_pc _ _ _ Hok'). unfold pc_ok in Hp'. rewrite Hlink in Hp'. destruct Hp' as (_ & ? & _). eauto.
  - intros _. left. done.
  - rewrite app_nil_r. apply Hok.
  - apply opt_hist_put with th; [by apply Hok|by by_pc Hpc|by by_pc Hpc].
Qed.

(** What a thread that holds the mutexes [mine] does to the list by changing the
    successor of the node [a]. *)
Record list_change (h : memory) (L : list (nat * Z)) (mine : list ptr) (a : nat) (h' : memory) (L' : list (nat * Z)) : Prop := {
  lc_grows : grows h h';
  lc_seg : lseg (in_memory h') (Addr head) (full L') NULL;
  lc_nodup : NoDup (full L').*1;
  lc_sorted : StronglySorted Z.lt L'.*2;
  lc_range : Forall in_range L'.*2;
  lc_nodes : ∀ c n, h' !! c = Some n → node_ok h' c n;
  lc_same : ∀ c, c ≠ a → h' !! c = h !! c;
  lc_next : ∀ n b, h' !! a = Some n → next n = Addr b → b ∈ (full L').*1;
  lc_keep : ∀ p, Addr p ∉ mine → p ∈ (full L).*1 → p ∈ (full L').*1;
  lc_adj : ∀ k p c kc, p ∉ mine → adj (full L) k p c kc → adj (full L') k p c kc;
}.

Lemma others_unaffected work w L t th a h' L' u uh :
  world_ok work w L → threads w !! t = Some th → list_change (mem w) L (locks th) a h' L' → a ∈ (full L).*1 →
  u ≠ t → threads w !! u = Some uh → thread_ok (mem w) L uh → thread_ok h' L' uh.
Proof.
  intros Hok Ht Hc Ha Hu Huh Hok'. assert (Hx := λ p, exclusive locks _ _ _ _ _ _ p (ok_held _ _ _ Hok) Huh Ht (not_eq_sym Hu)).
  apply other_ok with (mem w) L; [done|apply Hc|..].
  - intros p c it Hlk Hval. eapply validating_step; [done|apply Hc|apply Hc|..].
    + intros d n n' e H1 H2 He Hch. destruct (decide (d = a)) as [->|Hd]; [by eapply lc_next|].
      rewrite (lc_same _ _ _ _ _ _ Hc d Hd) in H2. congruence.
    + intros q ->. apply (lc_keep _ _ _ _ _ _ Hc). apply Hx. rewrite Hlk. by left.
  - intros p c k kc Hlk Hadj. apply (lc_adj _ _ _ _ _ _ Hc); [|done].
    pose proof Hadj as (i & b & kb & c' & _ & _ & -> & _). apply Hx. rewrite Hlk. by left.
  - intros p c Hlink. apply (lc_same _ _ _ _ _ _ Hc). by eapply other_link_node.
Qed.

(** The parts of the step that [Link] and [Unlink] share. *)
Lemma change_step work w L t th prev curr a b k h' L' :
  world_ok work w L → threads w !! t = Some th → t_pc th ≠ Idle →
  list_change (mem w) L (locks th) a h' L' → a ∈ (full L).*1 → b ∈ (full L).*1 → a ≠ b → prev = Addr a → curr = Addr b →
  locks th = [prev; curr] → inflight th = [] →
  spec_set (list_to_set L.*2) (t_action th) = (list_to_set L'.*2, true) →
  (filter (λ x, ¬ insertion x) [(t_action th, true)] = inflight (set_pc (UnlockPrev prev curr k) th)) →
  world_ok work (put t (set_pc (UnlockPrev prev curr k) th) h' (held w) [true] [] w) L'.
Proof.
  intros Hok Ht Hidle Hc Ha Hb Hab -> -> Hlk Hinf Hspec Hret. assert (Hth := ok_threads _ _ _ Hok _ _ Ht).
  assert (Hsh := λ c Hin, shared_node_grows _ _ c (lc_grows _ _ _ _ _ _ Hc) (proj1 (seg_shared _ _ _ (ok_seg _ _ _ Hok) Hin))).
  destruct (held_keep _ _ _ _ _ (set_pc (UnlockPrev (Addr a) (Addr b) k) th) (ok_held _ _ _ Hok) Ht) as [Hl1 Hl2]; [by rewrite Hlk|].
  apply (opt_world_ok_put work w L t th); try done; try apply Hc.
  - split; [| |intros _; by apply (tok_range _ _ _ Hth)|apply Hth].
    + exists a, b. split_and!; auto.
    + intros [_ Hact]. destruct (tok_node _ _ _ Hth) as (Hne & q & Hq); [done|]. split; [done|].
      destruct (lc_grows _ _ _ _ _ _ Hc _ _ Hq) as ([k' q'] & Hq' & Hk & _). simpl in Hk. subst k'. by exists q'.
  - intros u uh. by eapply others_unaffected.
  - intros [_ Hact]. left. done.
  - assert (H := replay_actions_snoc spec_set ∅ (effects w) t (t_action th) _ (ok_effects _ _ _ Hok)). by rewrite Hspec in H.
  - apply opt_hist_put with th; [by apply Hok| |by rewrite Hinf].
    unfold todo. simpl. by destruct (t_pc th).
Qed.

(** Giving a node a successor with a larger key keeps every node well-formed. *)
Lemma relink_nodes work w L a na d nd :
  world_ok work w L → mem w !! a = Some na → mem w !! d = Some nd → next nd ≠ Uninit → d ≠ head → a ≠ d →
  a = head ∨ (key na < key nd)%Z →
  ∀ c n, <[a := mk_Node (key na) (Addr d)]> (mem w) !! c = Some n → node_ok (<[a := mk_Node (key na) (Addr d)]> (mem w)) c n.
Proof.
  intros Hok Ha Hd Hnd Hdh Had Hk c n Hc. destruct (decide (a = c)) as [<-|Hac].
  - rewrite lookup_insert_eq in Hc. injection Hc as <-. split; [apply (ok_nodes _ _ _ Hok a na Ha)|]. simpl. split.
    + exists nd. by rewrite lookup_insert_ne.
    + exists (mk_Node (key na) (Addr d)), nd. rewrite lookup_insert_eq, lookup_insert_ne by done. auto.
  - rewrite lookup_insert_ne in Hc by done. apply node_ok_grows with (mem w); [by eapply grows_insert|by apply Hok].
Qed.

Lemma link_change work w L t th prev curr kc :
  world_ok work w L → threads w !! t = Some th → t_pc th = Link prev curr →
  window (mem w) (action_key (t_action th)) prev curr → t_action th = Add (action_key (t_action th)) →
  adj (full L) (action_key (t_action th)) prev curr kc → (action_key (t_action th) < kc)%Z →
  mem w !! t_node th = Some (mk_Node (action_key (t_action th)) curr) →
  ∃ a na L', prev = Addr a ∧ mem w !! a = Some na ∧
    spec_set (list_to_set L.*2) (t_action th) = (list_to_set L'.*2, true) ∧
    list_change (mem w) L (locks th) a (<[a := mk_Node (key na) (Addr (t_node th))]> (mem w)) L'.
Proof.
  intros Hok Ht Hpc Hwin Hact Hadj Hk Hnode. assert (Hth := ok_threads _ _ _ Hok _ _ Ht).
  assert (Hadd : adding th) by (split; [by rewrite Hpc|eauto]).
  destruct (adding_window _ _ _ _ _ _ _ _ Hok Ht Hadd Hwin Hadj Hk) as (a & b & q & L1 & kb & L2 & M & L3 & -> & -> & _ & Hh & Hnin & Hnot & Hf).
  set (k := action_key (t_action th)) in *. assert (Hr : in_range k) by (apply (tok_range _ _ _ Hth); by rewrite Hpc).
  pose proof Hwin as (a' & b' & na & nb & [= <-] & [= <-] & Ha & Hb & Hna & Hnb & Hbh & Hka & Hkb).
  assert (Hins := found_insert _ _ _ _ _ _ _ _ _ _ _ _ (t_node th) Hf). pose proof Hf as [Hfull _ _ HL _ _ _].
  change ((head, INT_MIN) :: L ++ [(tail, INT_MAX)]) with (full L) in Hfull.
  assert (Hne : t_node th ≠ a).
  { intros He. apply Hnin. rewrite He. apply (list_elem_of_fmap_inj_2 Addr), (proj1 (adj_elem _ _ _ _ _ Hadj)). }
  exists a, na, (M ++ (t_node th, k) :: L3). split_and!; [done..|rewrite Hact; subst L; by apply spec_set_add|].
  set (h' := <[a := mk_Node (key na) (Addr (t_node th))]> (mem w)). assert (Hg : grows (mem w) h') by (by eapply grows_insert).
  assert (Hnew : lseg (in_memory h') (Addr head) (full (M ++ (t_node th, k) :: L3)) NULL ∧ NoDup (full (M ++ (t_node th, k) :: L3)).*1).
  { assert (Hseg := ok_seg _ _ _ Hok). assert (Hnd := ok_nodup _ _ _ Hok). rewrite Hfull in Hseg, Hnd, Hnin. rewrite Hins.
    assert (Hkb' : key na = kb) by (apply lseg_app in Hseg as (r & _ & _ & nx & Hm & _); unfold in_memory in Hm; by simplify_eq).
    apply (lseg_insert (in_memory (mem w)) _ _ _ _ a kb b kc L2 (t_node th) k Hseg Hnd Hnin); unfold in_memory, h'.
    - intros d kd nx Hd _ Hm. by rewrite lookup_insert_ne.
    - rewrite lookup_insert_eq. by rewrite Hkb'.
    - by rewrite lookup_insert_ne. }
  split; try apply Hnew; [done|..].
  - eapply found_insert_sorted; [exact Hf|apply Hok..|done|done].
  - eapply found_insert_sorted; [exact Hf|apply Hok..|done|done].
  - by eapply relink_nodes.
  - intros c Hc. unfold h'. by rewrite lookup_insert_ne.
  - intros n d Hn Hd. unfold h' in Hn. rewrite lookup_insert_eq in Hn. injection Hn as <-. injection Hd as <-.
    rewrite Hins, elem_of_middle. by left.
  - intros p _ Hp. rewrite Hins, elem_of_middle, <- Hfull. by right.
  - intros k' p c kc' Hp Hadj'. rewrite Hins. apply adj_insert; [by rewrite <- Hfull|]. intros ->. apply Hp.
    unfold locks. rewrite Hpc. by left.
Qed.

Lemma opt_link_ok work w L t th prev curr :
  world_ok work w L → threads w !! t = Some th → t_pc th = Link prev curr →
  ∃ h' L', store_next (mem w) prev (Addr (t_node th)) = Ok h' ∧
    world_ok work (put t (set_pc (UnlockPrev prev curr Again) th) h' (held w) [true] [] w) L'.
Proof.
  intros Hok Ht Hpc. assert (Hp := pc_of _ _ _ _ _ Hok Ht). unfold pc_ok in Hp. rewrite Hpc in Hp.
  destruct Hp as (Hwin & Hact & (kc & Hadj & Hk) & Hnode).
  destruct (link_change _ _ _ _ _ _ _ _ Hok Ht Hpc Hwin Hact Hadj Hk Hnode) as (a & na & L' & -> & Ha & Hspec & Hc).
  eexists _, L'. split; [simpl; rewrite Ha; reflexivity|].
  pose proof Hwin as (a' & b & _ & _ & [= <-] & -> & _). destruct (adj_elem _ _ _ _ _ Hadj) as [Hin1 Hin2].
  apply (list_elem_of_fmap_inj_2 Addr) in Hin1, Hin2.
  eapply change_step; try done; [by rewrite Hpc|by eapply window_ne|unfold locks; by rewrite Hpc|unfold inflight; by rewrite Hpc|].
  rewrite filter_cons_False; [done|]. rewrite Hact. simpl. tauto.
Qed.

Lemma unlink_change work w L t th prev curr :
  world_ok work w L → threads w !! t = Some th → t_pc th = Unlink prev curr →
  window (mem w) (action_key (t_action th)) prev curr → t_action th = Remove (action_key (t_action th)) →
  adj (full L) (action_key (t_action th)) prev curr (action_key (t_action th)) →
  ∃ a na nb L', prev = Addr a ∧ mem w !! a = Some na ∧ load (mem w) curr = Ok nb ∧
    spec_set (list_to_set L.*2) (t_action th) = (list_to_set L'.*2, true) ∧
    list_change (mem w) L (locks th) a (<[a := mk_Node (key na) (next nb)]> (mem w)) L'.
Proof.
  intros Hok Ht Hpc Hwin Hact Hadj. assert (Hth := ok_threads _ _ _ Hok _ _ Ht).
  assert (Hr : in_range (action_key (t_action th))) by (apply (tok_range _ _ _ Hth); by rewrite Hpc).
  destruct (adj_found _ _ _ _ _ _ _ (ok_sorted _ _ _ Hok) (ok_range _ _ _ Hok) Hadj) as (a & b & L1 & kb & L2 & M & L3 & -> & -> & Hf); [lia|].
  set (k := action_key (t_action th)) in *. assert (Hab := window_ne _ _ _ _ Hwin).
  pose proof Hwin as (a' & b' & na & nb & [= <-] & [= <-] & Ha & Hb & Hna & Hnb & Hbh & Hka & Hkb).
  assert (Hkey := adj_key _ _ _ _ _ _ _ _ Hok Hadj Hb).
  destruct (found_key _ _ _ _ _ _ _ _ _ _ _ _ (sorted_lt_le _ (ok_sorted _ _ _ Hok)) Hr Hf) as [Heq _].
  destruct (Heq eq_refl) as (L3' & -> & ->). pose proof Hf as [Hfull Hbef _ HL _ _ _].
  change ((head, INT_MIN) :: L ++ [(tail, INT_MAX)]) with (full L) in Hfull.
  assert (Hnew : full (M ++ L3') = L1 ++ (a, kb) :: L3' ++ [(tail, INT_MAX)]).
  { unfold full_list. rewrite <- (assoc_L app), app_comm_cons, Hbef, <- (assoc_L app). done. }
  destruct (remove_sorted M L3' b k) as (Hs & Hrange & Hknot); [rewrite <- HL; apply Hok..|].
  exists a, na, nb, (M ++ L3'). split_and!; [done|done|simpl; by rewrite Hb|rewrite Hact; subst L; by apply spec_set_remove|].
  destruct (successor _ _ _ _ _ Hok Hb Hnb) as (d & Hd & Hdsh & Hdh); [unfold in_range in Hr; lia|]. rewrite Hd.
  destruct (ok_nodes _ _ _ Hok b nb Hb) as [_ Hbn]. rewrite Hd in Hbn. destruct Hbn as [_ (nb' & nd & Hb' & Hdn & _ & Hkd)].
  assert (nb' = nb) as -> by congruence. destruct Hkd as [?|Hkd]; [done|].
  set (h' := <[a := mk_Node (key na) (Addr d)]> (mem w)). assert (Hg : grows (mem w) h') by (by eapply grows_insert).
  assert (Hseg := ok_seg _ _ _ Hok). assert (Hnd := ok_nodup _ _ _ Hok).
  assert (Hdin : d ∈ (full (M ++ L3')).*1).
  { assert (Hbin := proj2 (adj_elem _ _ _ _ _ Hadj)). apply (list_elem_of_fmap_inj_2 Addr) in Hbin.
    destruct (seg_shared _ _ _ Hseg Hbin) as [_ Hcl]. specialize (Hcl nb d Hb Hd). rewrite Hfull, elem_of_middle in Hcl.
    destruct Hcl as [Hcl|Hcl]; [|by rewrite Hnew]. simpl in Hcl. subst d. rewrite Hdn in Hb. injection Hb as ->. lia. }
  rewrite Hfull in Hseg, Hnd.
  assert (Hseg' : lseg (in_memory h') (Addr head) (full (M ++ L3')) NULL ∧ NoDup (full (M ++ L3')).*1).
  { rewrite Hnew. assert (Hkb' : key na = kb) by (apply lseg_app in Hseg as (r & _ & _ & nx & Hm & _); unfold in_memory in Hm; by simplify_eq).
    apply (lseg_remove (in_memory (mem w)) _ _ _ _ a kb b k _ Hseg Hnd); unfold in_memory, h'.
    - intros e ke nx He _ Hm. by rewrite lookup_insert_ne.
    - intros nx Hm. rewrite Hb in Hm. injection Hm as Hm. rewrite lookup_insert_eq. rewrite Hkb'. rewrite Hm in Hd. simpl in Hd. by rewrite Hd. }
  split; try apply Hseg'; [done|done|done|..].
  - assert (Hkd' : a = head ∨ (key na < key nd)%Z) by (destruct Hka as [?|Hka]; [by left|right; lia]).
    destruct Hdsh as (nd' & Hdn' & Hndn). simplify_eq. eapply relink_nodes; try done. intros ->. destruct Hkd'; [done|simplify_eq; lia].
  - intros c Hc. unfold h'. by rewrite lookup_insert_ne.
  - intros n e Hn He. unfold h' in Hn. rewrite lookup_insert_eq in Hn. injection Hn as <-. by injection He as <-.
  - intros p Hp. rewrite Hfull, elem_of_middle, Hnew. intros [->|?]; [|done]. exfalso. apply Hp. unfold locks. rewrite Hpc. right. by left.
  - intros k' p c kc' Hp Hadj'. rewrite Hnew. unfold locks in Hp. rewrite Hpc in Hp.
    apply adj_remove with (b, k); [by rewrite <- Hfull|..]; intros ->; apply Hp; [by left|right; by left].
Qed.

Lemma opt_unlink_ok work w L t th prev curr :
  world_ok work w L → threads w !! t = Some th → t_pc th = Unlink prev curr →
  ∃ n h' L', load (mem w) curr = Ok n ∧ store_next (mem w) prev (next n) = Ok h' ∧
    world_ok work (put t (set_pc (UnlockPrev prev curr (Leave true)) th) h' (held w) [true] [] w) L'.
Proof.
  intros Hok Ht Hpc. assert (Hp := pc_of _ _ _ _ _ Hok Ht). unfold pc_ok in Hp. rewrite Hpc in Hp.
  destruct Hp as (Hwin & Hact & Hadj).
  destruct (unlink_change _ _ _ _ _ _ _ Hok Ht Hpc Hwin Hact Hadj) as (a & na & nb & L' & -> & Ha & Hb & Hspec & Hc).
  eexists nb, _, L'. split; [done|]. split; [simpl; rewrite Ha; reflexivity|].
  pose proof Hwin as (a' & b & _ & _ & [= <-] & -> & _). destruct (adj_elem _ _ _ _ _ Hadj) as [Hin1 Hin2].
  apply (list_elem_of_fmap_inj_2 Addr) in Hin1, Hin2.
  eapply change_step; try done; [by rewrite Hpc|by eapply window_ne|unfold locks; by rewrite Hpc|unfold inflight; by rewrite Hpc|].
  rewrite filter_cons_True; [done|]. rewrite Hact. simpl. tauto.
Qed.

Lemma optimistic_step_ok work w L t node r :
  world_ok work w L → thread_step head t node w = Some r → ∃ w' L', r = Ok w' ∧ world_ok work w' L'.
Proof.
  intros Hok Hs. unfold thread_step in Hs. destruct (threads w !! t) as [th|] eqn:Ht; [|done]. cbn [mbind option_bind] in Hs.
  destruct (t_pc th) as [| |p c|p c|p c|p c it|p c it|p c v|p c|p c|p c|p c k|c k] eqn:Hpc.
  - destruct (opt_start_ok _ _ _ _ _ _ _ Hok Ht Hpc Hs) as (w' & -> & H). eauto.
  - injection Hs as <-. destruct (restart_ok _ _ _ _ _ Hok Ht Hpc) as (n & Hn & H). simpl in Hn |- *. rewrite Hn. eexists _, L. split; [reflexivity|done].
  - injection Hs as <-. destruct (walk_ok _ _ _ _ _ _ _ Hok Ht Hpc) as (n & -> & H). eexists _, L. split; [reflexivity|done].
  - destruct (lock (mem w) (held w) t p) as [l|] eqn:Hl; [|done]. injection Hs as <-.
    destruct (lock_prev_ok _ _ _ _ _ _ _ _ Hok Ht Hpc Hl) as (l' & -> & H). eexists _, L. split; [reflexivity|done].
  - destruct (lock (mem w) (held w) t c) as [l|] eqn:Hl; [|done]. injection Hs as <-.
    destruct (opt_lock_curr_ok _ _ _ _ _ _ _ _ Hok Ht Hpc Hl) as (l' & -> & H). eexists _, L. split; [reflexivity|done].
  - injection Hs as <-. destruct (validate_key_ok _ _ _ _ _ _ _ _ Hok Ht Hpc) as (w' & -> & H). eauto.
  - injection Hs as <-. destruct (validate_next_ok _ _ _ _ _ _ _ _ Hok Ht Hpc) as (w' & -> & H). eauto.
  - injection Hs as <-. destruct (check_ok _ _ _ _ _ _ _ _ Hok Ht Hpc) as (w' & -> & H). eauto.
  - injection Hs as <-. destruct (opt_link_node_ok _ _ _ _ _ _ _ Hok Ht Hpc) as (h' & Hh & H). simpl in Hh |- *. rewrite Hh.
    eexists _, L. split; [reflexivity|done].
  - injection Hs as <-. destruct (opt_link_ok _ _ _ _ _ _ _ Hok Ht Hpc) as (h' & L' & Hh & H). rewrite Hh.
    eexists _, L'. split; [reflexivity|done].
  - injection Hs as <-. destruct (opt_unlink_ok _ _ _ _ _ _ _ Hok Ht Hpc) as (n & h' & L' & -> & Hh & H). simpl. rewrite Hh.
    eexists _, L'. split; [reflexivity|done].
  - injection Hs as <-. destruct (opt_unlock_prev_ok _ _ _ _ _ _ _ _ Hok Ht Hpc) as (l' & -> & H). eexists _, L. split; [reflexivity|done].
  - injection Hs as <-. destruct (opt_unlock_curr_ok _ _ _ _ _ _ _ Hok Ht Hpc) as (l' & -> & H). eexists _, L. split; [reflexivity|done].
Qed.

Lemma optimistic_main_ok work :
  head ≠ tail → Forall (Forall work_ok) work → world_ok work (optimistic_main head tail ∅ work) [].
Proof.
  intros Hne Hw. assert (Hnew : ∀ t th, (new_thread <$> work) !! t = Some th → ∃ l, work !! t = Some l ∧ th = new_thread l).
  { intros t th (l & -> & Hl)%list_lookup_fmap_Some. eauto. }
  destruct (list_init_chain head tail Hne) as [Hseg Hnd _ _]. split; [done|done|constructor|constructor| | | | |done| |].
  - intros a n Ha. cbn [mem optimistic_main] in *. pose proof Ha as Ha'. unfold list_init in Ha'.
    apply lookup_insert_Some in Ha' as [[<- <-]|[Hha Ha']].
    + split; simpl; [lia|done].
    + apply lookup_singleton_Some in Ha' as [<- <-]. split; [done|]. simpl. unfold list_init. split.
      * exists (mk_Node INT_MAX NULL). split; [|done]. by simplify_map_eq.
      * exists (mk_Node INT_MIN (Addr tail)), (mk_Node INT_MAX NULL). simplify_map_eq. split_and!; auto.
  - intros a t. cbn [held threads optimistic_main]. split; [by rewrite lookup_empty|].
    intros (th & (l & _ & ->)%Hnew & Ha). by apply elem_of_nil in Ha.
  - intros t th (l & Hl & ->)%Hnew. split; [done|by intros [? _]|done|]. by eapply Forall_lookup_1 in Hw.
  - intros t u th uh (l & _ & ->)%Hnew _ [? _]. done.
  - intros t th (l & Hl & ->)%Hnew. rewrite Hl. done.
  - cbn [threads optimistic_main]. by rewrite length_fmap.
Qed.

Lemma optimistic_steps_ok work w :
  head ≠ tail → Forall (Forall work_ok) work → rtc (step head) (optimistic_main head tail ∅ work) w → ∃ L, world_ok work w L.
Proof.
  intros Hne Hw. revert w. apply rtc_ind_r; [exists []; by apply optimistic_main_ok|].
  intros w w' _ (tid & node & Hs) (L & IH). destruct (optimistic_step_ok _ _ _ _ _ _ IH Hs) as (w1 & L' & [= <-] & H). eauto.
Qed.

(** ** Progress *)

Definition can_step (w : world) : Prop := ∃ tid node r, thread_step head tid node w = Some r.

Definition waits (th : thread) (p : ptr) : Prop := (∃ curr, t_pc th = LockPrev p curr) ∨ ∃ prev, t_pc th = LockCurr prev p.

Lemma opt_unblocked w t th :
  threads w !! t = Some th → (∀ p, ¬ waits th p) → t_work th ≠ [] ∨ t_pc th ≠ Idle → can_step w.
Proof.
  intros Ht Hw Hbusy. exists t, (fresh (dom (mem w))). unfold thread_step. rewrite Ht. cbn [mbind option_bind].
  unfold waits in Hw. destruct (t_pc th) eqn:Hpc; [|naive_solver..].
  destruct Hbusy as [Hwork|]; [|done]. unfold start. destruct (t_work th) as [|wk rest]; [done|].
  assert (Hf : mem w !! fresh (dom (mem w)) = None) by apply not_elem_of_dom, is_fresh.
  destruct (action_of wk) as [[k|k|k]|]; rewrite ?Hf; eauto.
Qed.

(** Whoever waits for a node, the holder of its mutex can go on or waits for a node
    with a larger key. *)
Lemma opt_waiting_progress work w L n t th a na :
  world_ok work w L → threads w !! t = Some th → waits th (Addr a) → mem w !! a = Some na →
  (Z.to_nat (INT_MAX - (if decide (a = head) then INT_MIN - 1 else key na)) ≤ n)%nat → can_step w.
Proof.
  intros Hok. revert t th a na. induction (lt_wf n) as [n _ IH]; intros t th a na Ht Hw Ha Hn.
  destruct (lock (mem w) (held w) t (Addr a)) as [l|] eqn:Hl.
  { exists t, 0. unfold thread_step. rewrite Ht. cbn [mbind option_bind].
    destruct Hw as [[c ->]|[p ->]]; rewrite Hl; eexists; reflexivity. }
  apply lock_blocked in Hl as (a' & u & [= <-] & Hu). apply (ok_held _ _ _ Hok) in Hu as (uh & Hu & Hin).
  assert (Hcase : (∃ c, t_pc uh = LockCurr (Addr a) c) ∨ (∀ p, ¬ waits uh p) ∧ t_pc uh ≠ Idle).
  { unfold locks, waits in *. destruct (t_pc uh) eqn:Hpc; try (by apply elem_of_nil in Hin); [|naive_solver..].
    apply list_elem_of_singleton in Hin as <-. eauto. }
  destruct Hcase as [[c Hc]|[H1 H2]]; [|apply (opt_unblocked w u uh Hu H1); by right].
  assert (Hp := pc_of _ _ _ _ _ Hok Hu). unfold pc_ok in Hp. rewrite Hc in Hp.
  destruct Hp as (a' & b & na' & nb & [= <-] & -> & Ha' & Hb & _ & _ & Hbh & Hka & Hkb). simplify_eq.
  destruct (ok_nodes _ _ _ Hok b nb Hb) as [Hmax _].
  assert (Hr : in_range (action_key (t_action uh))) by (apply (tok_range _ _ _ (ok_threads _ _ _ Hok _ _ Hu)); by rewrite Hc).
  unfold in_range in Hr.
  eapply (IH (Z.to_nat (INT_MAX - key nb))); [|exact Hu|right; eauto|exact Hb|by rewrite decide_False].
  destruct (decide (a = head)) as [Hh|Hh]; [|destruct Hka; [done|]]; lia.
Qed.

Lemma optimistic_progress work w L : world_ok work w L → ¬ finished w → can_step w.
Proof.
  intros Hok Hfin. apply not_Forall_Exists in Hfin; [|intros ?; apply _]. apply Exists_exists in Hfin as (th & [t Ht]%list_elem_of_lookup & Hbusy).
  assert (Hbusy' : t_work th ≠ [] ∨ t_pc th ≠ Idle).
  { unfold compose in Hbusy. destruct (decide (t_work th = [])), (decide (t_pc th = Idle)); tauto. }
  assert (Hp := pc_of _ _ _ _ _ Hok Ht). unfold pc_ok in Hp.
  assert (Hcase : (∃ p c, (t_pc th = LockPrev p c ∨ t_pc th = LockCurr p c) ∧ window (mem w) (action_key (t_action th)) p c) ∨
                  ∀ p, ¬ waits th p).
  { unfold waits. destruct (t_pc th); try (right; naive_solver); left; eauto. }
  destruct Hcase as [(p & c & Hpc & a & b & na & nb & -> & -> & Ha & Hb & _)|Hno]; [|by apply (opt_unblocked w t th)].
  destruct Hpc as [Hpc|Hpc].
  - eapply (opt_waiting_progress work w L _ t th a na Hok Ht); [left; eauto|done|reflexivity].
  - eapply (opt_waiting_progress work w L _ t th b nb Hok Ht); [right; eauto|done|reflexivity].
Qed.

Lemma optimistic_chain work w L : world_ok work w L → chain (mem w) head tail L.
Proof. intros Hok. split; [apply Hok|apply Hok|apply sorted_lt_le, Hok|apply Hok]. Qed.

End invariant.

(** ** Properties *)

(** C21. Let the mutexes of the two sentinels, which are never initialised, start
    unlocked, and the keys be strictly between INT_MIN and INT_MAX; memory is
    sequentially consistent. In every interleaving of the threads on the
    optimistic list no step follows a null or uninitialised pointer or unlocks a
    mutex the thread does not hold, and the insertions, removals and look-ups take effect one at a time,
    in the order of [effects], as operations on a set which the list stores
    strictly sorted. A thread returns, for each operation of its workload in
    order, the result with which it took effect, except that a successful
    insertion is followed by further attempts and never returned. When all
    threads have finished, [main] reports the list as correct exactly when the
    result file lists the elements of that set in increasing order. *)
Theorem optimistic_effects head tail fresh work w :
  head ≠ tail → fresh = ∅ → Forall (Forall work_ok) work → rtc (step head) (optimistic_main head tail fresh work) w →
  ∃ l, replay_actions spec_set ∅ (effects w) = Some (list_to_set l) ∧ StronglySorted Z.lt l ∧
    (∀ result, validate (mem w) (Addr head) (Addr tail) result = Ok (bool_decide (result = l))) ∧
    (∀ tid node e, thread_step head tid node w ≠ Some (Err e)) ∧
    (∀ t th, threads w !! t = Some th →
       (fst <$> entries_of t (log w)) `prefix_of` omap action_of (default [] (work !! t)) ∧
       filter (λ e, ¬ insertion e) (entries_of t (effects w)) = entries_of t (log w) ++ inflight th).
Proof.
  intros Hne -> Hw Hr. destruct (optimistic_steps_ok head tail work w Hne Hw Hr) as (L & Hok). exists L.*2.
  split_and!; [apply Hok|apply Hok|intros result; by eapply validate_spec, optimistic_chain|..].
  - intros tid node e Hs. by destruct (optimistic_step_ok _ _ _ _ _ _ _ _ Hok Hs) as (? & ? & ? & _).
  - intros t th Ht. destruct (ok_hist _ _ _ _ _ Hok t th Ht) as [H1 H2]. split; [by exists (todo th)|done].
Qed.

(** The threads of the optimistic list do not deadlock: as long as a thread
    has not finished, some thread can make a step. *)
Theorem optimistic_no_deadlock head tail fresh work w :
  head ≠ tail → fresh = ∅ → Forall (Forall work_ok) work → rtc (step head) (optimistic_main head tail fresh work) w → ¬ finished w →
  ∃ w', step head w w'.
Proof.
  intros Hne -> Hw Hr Hfin. destruct (optimistic_steps_ok head tail work w Hne Hw Hr) as (L & Hok).
  destruct (optimistic_progress _ _ _ _ _ Hok Hfin) as (tid & node & r & Hs).
  destruct (optimistic_step_ok _ _ _ _ _ _ _ _ Hok Hs) as (w' & L' & -> & _). exists w', tid, node. done.
Qed.

Fixpoint run (head : nat) (choices : list (nat * nat)) (w : world) : option world :=
  match choices with
  | [] => Some w
  | (tid, node) :: choices =>
      match thread_step head tid node w with
      | Some (Ok w') => run head choices w'
      | _ => None
      end
  end.

Lemma opt_run_steps head choices w w' : run head choices w = Some w' → rtc (step head) w w'.
Proof.
  revert w. induction choices as [|[tid node] choices IH]; simpl; intros w H; [by injection H as <-|].
  destruct (thread_step head tid node w) as [[w1|]|] eqn:Hs; [|done..]. eapply rtc_l; [by exists tid, node|by apply IH].
Qed.

(** One thread adds 5, two threads remove it. *)
Definition add_remove_remove : list (list Work) := [[mk_Work "A" 5]; [mk_Work "R" 5]; [mk_Work "R" 5]].

(** The adding thread inserts its node, goes round its loop after each of the
    removals, and finds its own node in the end. *)
Definition reinsert_run : list (nat * nat) :=
  replicate 12 (0, 2) ++ replicate 11 (1, 3) ++ replicate 11 (0, 2) ++ replicate 11 (2, 3) ++ replicate 20 (0, 2).

Definition reinsert_end : world :=
  Eval vm_compute in default (optimistic_main 0 1 ∅ []) (run 0 reinsert_run (optimistic_main 0 1 ∅ add_remove_remove)).

(** The two threads search before the first insertion; the second one waits for the
    mutex of the head. *)
Definition opt_middle : world :=
  Eval vm_compute in default (optimistic_main 0 1 ∅ [])
    (run 0 (replicate 3 (1, 2) ++ replicate 4 (0, 2)) (optimistic_main 0 1 ∅ sample_work)).

Definition opt_end : world :=
  Eval vm_compute in default (optimistic_main 0 1 ∅ [])
    (run 0 (replicate 12 (0, 2) ++ replicate 9 (0, 3) ++ replicate 11 (1, 3) ++ replicate 10 (0, 3)) (optimistic_main 0 1 ∅ sample_work)).

(** C40. The missing break of [list_add] shows in the results of the other
    threads: there is a run with one call of [list_add](5) and two calls of
    [list_remove](5) in which both removals return true and 5 is still in the
    list at the end, while [list_add] returns false. Whatever result [list_add] is
    given, no order of the three calls makes them operations on a set. *)
Theorem optimistic_not_linearizable :
  ∃ w, rtc (step 0) (optimistic_main 0 1 ∅ add_remove_remove) w ∧ finished w ∧
    log w = [(1, Remove 5, true); (2, Remove 5, true); (0, Add 5, false)] ∧
    validate (mem w) (Addr 0) (Addr 1) [5%Z] = Ok true ∧
    ∀ r l, l ≡ₚ [(0, Add 5, r); (1, Remove 5, true); (2, Remove 5, true)] → replay_actions spec_set ∅ l = None.
Proof.
  exists reinsert_end. split; [by apply (opt_run_steps 0 reinsert_run)|]. split; [repeat constructor|].
  split; [reflexivity|]. split; [reflexivity|].
  intros r l Hl. symmetry in Hl. apply permutations_Permutation in Hl. revert l Hl. apply Forall_forall.
  apply (bool_decide_unpack _). by destruct r; vm_compute.
Qed.

Lemma optimistic_effects_witness :
  finished opt_end ∧ effects opt_end = [(0, Add 5, true); (0, Add 5, false); (1, Remove 5, true); (0, Contains 5, false)] ∧
  log opt_end = [(0, Add 5, false); (1, Remove 5, true); (0, Contains 5, false)] ∧
  ∃ l, replay_actions spec_set ∅ (effects opt_end) = Some (list_to_set l) ∧
    ∀ result, validate (mem opt_end) (Addr 0) (Addr 1) result = Ok (bool_decide (result = l)).
Proof.
  split; [repeat constructor|]. split; [reflexivity|]. split; [reflexivity|].
  destruct (optimistic_effects 0 1 ∅ sample_work opt_end ltac:(done) eq_refl sample_work_ok) as (l & Hl & _ & Hv & _).
  { apply (opt_run_steps 0 (replicate 12 (0, 2) ++ replicate 9 (0, 3) ++ replicate 11 (1, 3) ++ replicate 10 (0, 3))). reflexivity. }
  exists l. split; [exact Hl|]. exact Hv.
Defined.

Lemma optimistic_no_deadlock_witness : ∃ w', step 0 opt_middle w'.
Proof.
  apply (optimistic_no_deadlock 0 1 ∅ sample_work opt_middle ltac:(done) eq_refl sample_work_ok).
  - apply (opt_run_steps 0 (replicate 3 (1, 2) ++ replicate 4 (0, 2))). reflexivity.
  - intros H. apply Forall_cons in H as [[H _] _]. discriminate H.
Defined.
