(* ===== verification/QueueClient.v ===== *)
(** The producers and consumers of [lab13] and what they need from a queue.
    [QueueImpl] has the operations of a queue as a program steps through them,
    [QueueLaws] what a queue promises; [main] is proved correct for every queue
    with these laws. [TicketQueue] and [GiantQueue] provide the two queues. *)
From stdpp Require Import functions base tactics numbers option list list_numbers gmap sets relations sorting.
From Stdlib Require Import ZArith Lia.
From S2P Require Import Prelude.

(** ** The interface of a queue *)

(** [enqueue] and [dequeue] are what a call does first; [LE] and [LD] are the local
    states of calls in progress. A step of [enqueue] gives the next local state, or
    [None] when the call returns; a step of [dequeue] ends with the key it returns. *)
Class QueueImpl : Type := {
  Q : Type;
  LE : Type;
  LD : Type;
  init_queue : Q;
  enqueue : Q → Z → Q * LE;
  enqueue_step : Q → LE → res (Q * option LE);
  dequeue : Q → Q * LD;
  dequeue_step : Q → LD → res (Q * (LD + Z));
}.

(** [rel q pe pd E d D]: the queue is [q], the threads in [pe] and [pd] are in the
    middle of a call, [E] are the keys of the calls of [enqueue] so far, [d] is the
    number of calls of [dequeue], and [D] are the keys they have returned. *)
Class QueueLaws (impl : QueueImpl) (limit : nat) : Type := {
  rel : Q → gmap nat LE → gmap nat LD → list Z → nat → list Z → Prop;
  rel_init : rel init_queue ∅ ∅ [] 0 [];
  rel_enqueue q pe pd E d D t k :
    rel q pe pd E d D → pe !! t = None → length E < limit →
    rel (enqueue q k).1 (<[t := (enqueue q k).2]> pe) pd (E ++ [k]) d D;
  rel_dequeue q pe pd E d D t :
    rel q pe pd E d D → pd !! t = None → d < limit →
    rel (dequeue q).1 pe (<[t := (dequeue q).2]> pd) E (S d) D;
  rel_enqueue_step q pe pd E d D t l :
    rel q pe pd E d D → pe !! t = Some l →
    ∃ q' o, enqueue_step q l = Ok (q', o) ∧ rel q' (partial_alter (λ _, o) t pe) pd E d D;
  rel_dequeue_step q pe pd E d D t l :
    rel q pe pd E d D → pd !! t = Some l →
    ∃ q' o, dequeue_step q l = Ok (q', o) ∧
      match o with
      | inl l' => rel q' pe (<[t := l']> pd) E d D
      | inr k => k ∈ E ∧ rel q' pe (delete t pd) E d (D ++ [k])
      end;
  rel_count q pe pd E d D : rel q pe pd E d D → length D + size pd = d;
  rel_done q E d D : rel q ∅ ∅ E d D → length E = d → D ≡ₚ E;
  enqueue_measure : LE → nat;
  dequeue_measure : LD → nat;
  op_bound : nat;
  enqueue_bound q k : enqueue_measure (enqueue q k).2 ≤ op_bound;
  dequeue_bound q : dequeue_measure (dequeue q).2 ≤ op_bound;
  rel_progress q pe pd E d D :
    rel q pe pd E d D →
    (∃ t l q' o, pe !! t = Some l ∧ enqueue_step q l = Ok (q', o) ∧ ∀ l', o = Some l' → enqueue_measure l' < enqueue_measure l) ∨
    (∃ t l q' o, pd !! t = Some l ∧ dequeue_step q l = Ok (q', o) ∧ ∀ l', o = inl l' → dequeue_measure l' < dequeue_measure l) ∨
    (pe = ∅ ∧ length E ≤ length D) ∨ (pd = ∅ ∧ length D < length E);
}.

(** ** Producers and consumers *)

Section client.
  Context `{impl : QueueImpl} (NUM_PRODUCER NUM_ENQUEUE_PER_PRODUCER : nat).

Local Notation P := NUM_PRODUCER.
Local Notation N := NUM_ENQUEUE_PER_PRODUCER.
Local Notation total := (P * N).

(** [i] is the loop counter; [In] is a thread inside [enqueue] or [dequeue], and a
    consumer at [ConsumerMark] is about to write [flag_verification]. *)
Inductive thread : Type :=
| ProducerLoop (key_enqueue : Z) (i : nat)
| ProducerIn (key_enqueue : Z) (i : nat) (l : LE)
| ConsumerLoop (i : nat)
| ConsumerIn (i : nat) (l : LD)
| ConsumerMark (i : nat) (key_dequeue : Z).

(** [enqueued] and [dequeued] record the calls of [enqueue] and the results of
    [dequeue]. *)
Record world : Type := mk_world {
  queue : Q;
  threads : list thread;
  flag_verification : list bool;
  enqueued : list Z;
  dequeued : list Z;
}.

Definition set_thread (tid : nat) (q : Q) (th : thread) (E D : list Z) (w : world) : world :=
  mk_world q (<[tid := th]> (threads w)) (flag_verification w) (enqueued w ++ E) (dequeued w ++ D).

Definition producer_step (tid : nat) (key_enqueue : Z) (i : nat) (l : LE) (w : world) : res world :=
  '(q, o) ← enqueue_step (queue w) l;
  match o with
  | Some l' => Ok (set_thread tid q (ProducerIn key_enqueue i l') [] [] w)
  | None =>
      key ← int_arith (key_enqueue + 1);
      Ok (set_thread tid q (ProducerLoop key (S i)) [] [] w)
  end.

Definition consumer_step (tid i : nat) (l : LD) (w : world) : res world :=
  '(q, o) ← dequeue_step (queue w) l;
  match o with
  | inl l' => Ok (set_thread tid q (ConsumerIn i l') [] [] w)
  | inr key => Ok (set_thread tid q (ConsumerMark i key) [] [key] w)
  end.

(** flag_verification[key_dequeue] = true *)
Definition mark_step (tid i : nat) (key : Z) (w : world) : res world :=
  match array_get (flag_verification w) key with
  | Some _ =>
      Ok (mk_world (queue w) (<[tid := ConsumerLoop (S i)]> (threads w)) (array_set (flag_verification w) key true) (enqueued w) (dequeued w))
  | None => Err UndefinedBehaviour
  end.

(** A step of [ProducerFunc] or [ConsumerFunc]; [None] when the thread has finished. *)
Definition thread_step (tid : nat) (w : world) : option (res world) :=
  th ← threads w !! tid;
  match th with
  | ProducerLoop key i =>
      if i <? N then let '(q, l) := enqueue (queue w) key in Some (Ok (set_thread tid q (ProducerIn key i l) [key] [] w))
      else None
  | ProducerIn key i l => Some (producer_step tid key i l w)
  | ConsumerLoop i =>
      if i <? N then let '(q, l) := dequeue (queue w) in Some (Ok (set_thread tid q (ConsumerIn i l) [] [] w))
      else None
  | ConsumerIn i l => Some (consumer_step tid i l w)
  | ConsumerMark i key => Some (mark_step tid i key w)
  end.

(** The threads that [main] creates. *)
Definition new_producer (tid : nat) : thread := ProducerLoop (to_int (Z.of_nat N * Z.of_nat tid)) 0.

Definition queue_main : world :=
  mk_world init_queue ((new_producer <$> seq 0 P) ++ replicate P (ConsumerLoop 0)) (replicate total false) [] [].

(** The loop at the end of [main]: true is CORRECT. *)
Definition verify (w : world) : bool := forallb id (flag_verification w).

Definition step (w w' : world) : Prop := ∃ tid, thread_step tid w = Some (Ok w').

Definition thread_done (th : thread) : bool :=
  match th with ProducerLoop _ i | ConsumerLoop i => N <=? i | _ => false end.

Definition finished (w : world) : Prop := Forall thread_done (threads w).

End client.

(** The steps of the given threads, one after the other. *)
Fixpoint run_threads `{QueueImpl} (N : nat) (tids : list nat) (w : world) : option world :=
  match tids with
  | [] => Some w
  | tid :: tids => match thread_step N tid w with Some (Ok w') => run_threads N tids w' | _ => None end
  end.

Definition end_of `{QueueImpl} (N : nat) (tids : list nat) (w : world) : world := default w (run_threads N tids w).

Lemma run_threads_steps `{QueueImpl} N tids w :
  bool_decide (is_Some (run_threads N tids w)) = true → rtc (step N) w (end_of N tids w).
Proof.
  unfold end_of. intros [w' Hw]%bool_decide_eq_true. rewrite Hw. simpl. revert w Hw.
  induction tids as [|tid tids IH]; simpl; intros w Hw; [by injection Hw as <-|].
  destruct (thread_step N tid w) as [[w1|]|] eqn:Hs; [|done..]. eapply rtc_l; [by exists tid|by apply IH].
Qed.

(** ** Invariant *)

Section invariant.
  Context `{impl : QueueImpl} {limit : nat} {laws : QueueLaws impl limit} (P N : nat).
  Context (Hlimit : P * N ≤ limit) (Hint : (Z.of_nat (P * N) ≤ INT_MAX)%Z).

Definition enq_of (th : thread) : option LE := match th with ProducerIn _ _ l => Some l | _ => None end.
Definition deq_of (th : thread) : option LD := match th with ConsumerIn _ l => Some l | _ => None end.

(** The calls of [enqueue] and of [dequeue] that a thread has made. *)
Definition enqueues (th : thread) : nat :=
  match th with ProducerLoop _ i => i | ProducerIn _ i _ => S i | _ => 0 end.
Definition dequeues (th : thread) : nat :=
  match th with ConsumerLoop i => i | ConsumerIn i _ | ConsumerMark i _ => S i | _ => 0 end.

Definition thread_ok (t : nat) (th : thread) : Prop :=
  match th with
  | ProducerLoop k i => t < P ∧ i ≤ N ∧ k = Z.of_nat (N * t + i)
  | ProducerIn k i _ => t < P ∧ i < N ∧ k = Z.of_nat (N * t + i)
  | ConsumerLoop i => P ≤ t ∧ i ≤ N
  | ConsumerIn i _ | ConsumerMark i _ => P ≤ t ∧ i < N
  end.

(** [pe] are the local states of the threads inside a call. *)
Definition pending {A} (f : thread → option A) (ths : list thread) (p : gmap nat A) : Prop :=
  ∀ t, p !! t = ths !! t ≫= f.

Definition marked (w : world) (k : Z) : Prop := array_get (flag_verification w) k = Some true.

Record world_ok (w : world) : Prop := {
  ok_flags : length (flag_verification w) = P * N;
  ok_rel : ∃ pe pd, pending enq_of (threads w) pe ∧ pending deq_of (threads w) pd ∧
    rel (queue w) pe pd (enqueued w) (sum_list_with dequeues (threads w)) (dequeued w);
  ok_count : length (enqueued w) = sum_list_with enqueues (threads w);
  ok_threads : ∀ t th, threads w !! t = Some th → thread_ok t th;
  ok_length : length (threads w) = P + P;
  ok_keys : ∀ k, k ∈ enqueued w → (0 ≤ k < Z.of_nat (P * N))%Z;
  ok_sub : ∀ k, k ∈ dequeued w → k ∈ enqueued w;
  ok_made : ∀ t th j, threads w !! t = Some th → j < enqueues th → Z.of_nat (N * t + j) ∈ enqueued w;
  ok_mark : ∀ t i k, threads w !! t = Some (ConsumerMark i k) → k ∈ enqueued w;
  ok_marked : ∀ k, k ∈ dequeued w → marked w k ∨ ∃ t i, threads w !! t = Some (ConsumerMark i k);
}.

Lemma queue_pending_put {A} (f : thread → option A) ths p t th th' :
  pending f ths p → ths !! t = Some th → pending f (<[t := th']> ths) (partial_alter (λ _, f th') t p).
Proof.
  intros Hp Ht u. destruct (decide (t = u)) as [<-|Hne].
  - rewrite lookup_partial_alter_eq, list_lookup_insert_eq; [done|]. by eapply lookup_lt_Some.
  - by rewrite lookup_partial_alter_ne, list_lookup_insert_ne.
Qed.

(** A thread that stays outside (or at the same point of) its calls. *)
Lemma pending_same {A} (f : thread → option A) ths p t th o :
  pending f ths p → ths !! t = Some th → f th = o → partial_alter (λ _, o) t p = p.
Proof.
  intros Hp Ht Hf. apply map_eq. intros u. destruct (decide (t = u)) as [<-|Hne].
  - by rewrite lookup_partial_alter_eq, (Hp t), Ht, <- Hf.
  - by rewrite lookup_partial_alter_ne.
Qed.

Lemma put_ok w q t th th' fl E D pe pd :
  world_ok w → threads w !! t = Some th → thread_ok t th' →
  pending enq_of (threads w) pe → pending deq_of (threads w) pd →
  rel q (partial_alter (λ _, enq_of th') t pe) (partial_alter (λ _, deq_of th') t pd) (enqueued w ++ E)
    (sum_list_with dequeues (<[t := th']> (threads w))) (dequeued w ++ D) →
  enqueues th' = enqueues th + length E →
  (∀ j k, E !! j = Some k → k = Z.of_nat (N * t + (enqueues th + j)) ∧ (0 ≤ k < Z.of_nat (P * N))%Z) →
  (∀ k, k ∈ D → k ∈ enqueued w ∧ ∃ i, th' = ConsumerMark i k) → (∀ i k, th' = ConsumerMark i k → k ∈ enqueued w) →
  length fl = P * N → (∀ k, marked w k → array_get fl k = Some true) →
  (∀ i k, th = ConsumerMark i k → array_get fl k = Some true) →
  world_ok (mk_world q (<[t := th']> (threads w)) fl (enqueued w ++ E) (dequeued w ++ D)).
Proof.
  intros Hok Ht Hth Hpe Hpd Hrel Hcount HE HD HM Hlen Hfl Hmark. assert (Hlt := lookup_lt_Some _ _ _ Ht). split; simpl; [done|..].
  - eexists _, _. split; [by eapply queue_pending_put|]. split; [by eapply queue_pending_put|]. exact Hrel.
  - rewrite length_app, (ok_count _ Hok). assert (H := sum_list_with_update enqueues _ _ _ th' Ht). lia.
  - intros u uh Hu. destruct (decide (t = u)) as [<-|Hne].
    + rewrite list_lookup_insert_eq in Hu by done. by simplify_eq.
    + rewrite list_lookup_insert_ne in Hu by done. by apply Hok.
  - rewrite length_insert. apply Hok.
  - intros k [Hk|[j Hj]%list_elem_of_lookup]%elem_of_app; [by apply Hok|]. by apply (HE j).
  - intros k [Hk|Hk]%elem_of_app; apply elem_of_app; left; [by apply Hok|by apply HD].
  - intros u uh j Hu Hj. apply elem_of_app. destruct (decide (t = u)) as [<-|Hne].
    + rewrite list_lookup_insert_eq in Hu by done. simplify_eq. destruct (decide (j < enqueues th)) as [Hlt'|Hge].
      * left. by apply (ok_made _ Hok t th).
      * right. destruct (lookup_lt_is_Some_2 E (j - enqueues th)) as [k Hk]; [lia|]. destruct (HE _ _ Hk) as [-> _].
        apply list_elem_of_lookup. exists (j - enqueues th). rewrite Hk. do 2 f_equal. lia.
    + rewrite list_lookup_insert_ne in Hu by done. left. by apply (ok_made _ Hok u uh).
  - intros u i k Hu. apply elem_of_app. left. destruct (decide (t = u)) as [<-|Hne].
    + rewrite list_lookup_insert_eq in Hu by done. simplify_eq. by eapply HM.
    + rewrite list_lookup_insert_ne in Hu by done. by apply (ok_mark _ Hok u i).
  - intros k [Hk|Hk]%elem_of_app.
    + destruct (ok_marked _ Hok k Hk) as [H|(u & i & Hu)]; [left; by apply Hfl|].
      destruct (decide (t = u)) as [<-|Hne]; [left; simplify_eq; by eapply Hmark|]. right. exists u, i. by rewrite list_lookup_insert_ne.
    + destruct (HD k Hk) as (_ & i & ->). right. exists t, i. by rewrite list_lookup_insert_eq.
Qed.

(** *** Numbers of calls *)

Lemma thread_parts w :
  world_ok w →
  Forall (λ th, enqueues th ≤ N) (take P (threads w)) ∧ Forall (λ th, dequeues th = 0) (take P (threads w)) ∧
  Forall (λ th, enqueues th = 0) (drop P (threads w)) ∧ Forall (λ th, dequeues th ≤ N) (drop P (threads w)).
Proof.
  intros Hok. split_and!; apply Forall_lookup_2; intros t th Ht; rewrite ?lookup_take_Some, ?lookup_drop in Ht; destruct_and?;
    (eapply (ok_threads _ Hok) in Ht || match goal with H : threads w !! _ = _ |- _ => apply (ok_threads _ Hok) in H; rename H into Ht end);
    destruct th; simpl in *; lia.
Qed.

Lemma sum_parts (f : thread → nat) (w : world) :
  sum_list_with f (threads w) = sum_list_with f (take P (threads w)) + sum_list_with f (drop P (threads w)).
Proof. by rewrite <- (take_drop P (threads w)) at 1; rewrite sum_list_with_app. Qed.

Lemma part_lengths w : world_ok w → length (take P (threads w)) = P ∧ length (drop P (threads w)) = P.
Proof. intros Hok. rewrite length_take, length_drop, (ok_length _ Hok). lia. Qed.

Lemma enqueues_le w : world_ok w → sum_list_with enqueues (threads w) ≤ P * N.
Proof.
  intros Hok. destruct (thread_parts w Hok) as (H1 & _ & H3 & _). destruct (part_lengths w Hok) as [Hl _]. rewrite sum_parts.
  apply sum_list_with_le in H1. apply sum_list_with_eq in H3. rewrite Hl in H1. lia.
Qed.

Lemma dequeues_le w : world_ok w → sum_list_with dequeues (threads w) ≤ P * N.
Proof.
  intros Hok. destruct (thread_parts w Hok) as (_ & H2 & _ & H4). destruct (part_lengths w Hok) as [_ Hl]. rewrite sum_parts.
  apply sum_list_with_le in H4. apply sum_list_with_eq in H2. rewrite Hl in H4. lia.
Qed.

Lemma enqueues_lt w t th :
  world_ok w → threads w !! t = Some th → t < P → enqueues th < N → sum_list_with enqueues (threads w) < P * N.
Proof.
  intros Hok Ht HP Hlt. destruct (thread_parts w Hok) as (H1 & _ & H3 & _). destruct (part_lengths w Hok) as [Hl _]. rewrite sum_parts.
  apply (sum_list_with_lt _ _ _ t th) in H1; [|by rewrite lookup_take_lt|done]. apply sum_list_with_eq in H3. rewrite Hl in H1. lia.
Qed.

Lemma dequeues_lt w t th :
  world_ok w → threads w !! t = Some th → P ≤ t → dequeues th < N → sum_list_with dequeues (threads w) < P * N.
Proof.
  intros Hok Ht HP Hlt. destruct (thread_parts w Hok) as (_ & H2 & _ & H4). destruct (part_lengths w Hok) as [_ Hl]. rewrite sum_parts.
  apply (sum_list_with_lt _ _ _ (t - P) th) in H4; [|rewrite lookup_drop; by replace (P + (t - P)) with t by lia|done].
  apply sum_list_with_eq in H2. rewrite Hl in H4. lia.
Qed.

Lemma enqueues_all w :
  world_ok w → (∀ t th, threads w !! t = Some th → t < P → enqueues th = N) → sum_list_with enqueues (threads w) = P * N.
Proof.
  intros Hok Hall. destruct (thread_parts w Hok) as (_ & _ & H3 & _). destruct (part_lengths w Hok) as [Hl _]. rewrite sum_parts.
  rewrite (sum_list_with_eq _ N (take P _)), (sum_list_with_eq _ 0 _ H3), Hl; [lia|]. apply Forall_lookup_2.
  intros t th [Ht Hlt]%lookup_take_Some. by eapply Hall.
Qed.

Lemma dequeues_all w :
  world_ok w → (∀ t th, threads w !! t = Some th → P ≤ t → dequeues th = N) → sum_list_with dequeues (threads w) = P * N.
Proof.
  intros Hok Hall. destruct (thread_parts w Hok) as (_ & H2 & _ & _). destruct (part_lengths w Hok) as [_ Hl]. rewrite sum_parts.
  rewrite (sum_list_with_eq _ N (drop P _)), (sum_list_with_eq _ 0 _ H2), Hl; [lia|]. apply Forall_lookup_2.
  intros t th Ht. rewrite lookup_drop in Ht. eapply Hall; [done|lia].
Qed.

(** *** Steps *)

Lemma producer_loop_ok w t k i :
  world_ok w → threads w !! t = Some (ProducerLoop k i) → i < N →
  world_ok (set_thread t (enqueue (queue w) k).1 (ProducerIn k i (enqueue (queue w) k).2) [k] [] w).
Proof.
  intros Hok Ht Hi. destruct (ok_rel _ Hok) as (pe & pd & Hpe & Hpd & Hrel). destruct (ok_threads _ Hok _ _ Ht) as (HP & _ & Hk).
  assert (Hlt := enqueues_lt w t _ Hok Ht HP Hi). assert (Hs := sum_list_with_update dequeues _ _ _ (ProducerIn k i (enqueue (queue w) k).2) Ht).
  apply put_ok with (ProducerLoop k i) pe pd; simpl; try done; try apply (ok_flags _ Hok); try lia.
  - rewrite app_nil_r. replace (sum_list_with dequeues (<[t := _]> (threads w))) with (sum_list_with dequeues (threads w)) by (simpl in Hs; lia).
    rewrite (pending_same deq_of _ _ _ _ None Hpd Ht) by done.
    apply rel_enqueue; [done|by rewrite (Hpe t), Ht|]. rewrite (ok_count _ Hok). lia.
  - intros [|j] k' [= <-]. split; [by rewrite Nat.add_0_r|]. nia.
  - by intros k' ?%elem_of_nil.
Qed.

Lemma consumer_loop_ok w t i :
  world_ok w → threads w !! t = Some (ConsumerLoop i) → i < N →
  world_ok (set_thread t (dequeue (queue w)).1 (ConsumerIn i (dequeue (queue w)).2) [] [] w).
Proof.
  intros Hok Ht Hi. destruct (ok_rel _ Hok) as (pe & pd & Hpe & Hpd & Hrel). destruct (ok_threads _ Hok _ _ Ht) as (HP & _).
  assert (Hlt := dequeues_lt w t _ Hok Ht HP Hi). assert (Hs := sum_list_with_update dequeues _ _ _ (ConsumerIn i (dequeue (queue w)).2) Ht).
  apply put_ok with (ConsumerLoop i) pe pd; simpl; try done; try apply (ok_flags _ Hok).
  - rewrite !app_nil_r. replace (sum_list_with dequeues (<[t := _]> (threads w))) with (S (sum_list_with dequeues (threads w))) by (simpl in Hs; lia).
    rewrite (pending_same enq_of _ _ _ _ None Hpe Ht) by done.
    apply rel_dequeue; [done|by rewrite (Hpd t), Ht|lia].
  - by intros k' ?%elem_of_nil.
Qed.

Lemma producer_step_ok w t k i l :
  world_ok w → threads w !! t = Some (ProducerIn k i l) → ∃ w', producer_step t k i l w = Ok w' ∧ world_ok w'.
Proof.
  intros Hok Ht. destruct (ok_rel _ Hok) as (pe & pd & Hpe & Hpd & Hrel). destruct (ok_threads _ Hok _ _ Ht) as (HP & Hi & Hk).
  destruct (rel_enqueue_step _ _ _ _ _ _ t l Hrel) as (q' & o & Hstep & Hrel'); [by rewrite (Hpe t), Ht|].
  unfold producer_step. rewrite Hstep. cbn [mbind res_bind].
  assert (Hput : ∀ th', thread_ok t th' → enq_of th' = o → deq_of th' = None → dequeues th' = 0 → enqueues th' = S i →
    (∀ i k, th' ≠ ConsumerMark i k) → world_ok (set_thread t q' th' [] [] w)).
  { intros th' Hth' He Hd Hn Hm Hmark. assert (Hs := sum_list_with_update dequeues _ _ _ th' Ht).
    apply put_ok with (ProducerIn k i l) pe pd; simpl; try done; try apply (ok_flags _ Hok); try lia.
    - rewrite !app_nil_r, He. rewrite (pending_same deq_of _ _ _ _ (deq_of th') Hpd Ht) by done.
      replace (sum_list_with dequeues (<[t := _]> (threads w))) with (sum_list_with dequeues (threads w)) by (simpl in Hs; lia). done.
    - by intros k' ?%elem_of_nil.
    - intros i' k' Hm'. by destruct (Hmark i' k'). }
  destruct o as [l'|]; [eexists; split; [reflexivity|by apply Hput]|].
  rewrite int_arith_Ok by (unfold INT_MIN; nia). eexists. split; [reflexivity|]. apply Hput; try done. simpl. lia.
Qed.

Lemma consumer_step_ok w t i l :
  world_ok w → threads w !! t = Some (ConsumerIn i l) → ∃ w', consumer_step t i l w = Ok w' ∧ world_ok w'.
Proof.
  intros Hok Ht. destruct (ok_rel _ Hok) as (pe & pd & Hpe & Hpd & Hrel). destruct (ok_threads _ Hok _ _ Ht) as (HP & Hi).
  destruct (rel_dequeue_step _ _ _ _ _ _ t l Hrel) as (q' & o & Hstep & Hrel'); [by rewrite (Hpd t), Ht|].
  unfold consumer_step. rewrite Hstep. cbn [mbind res_bind].
  assert (Hput : ∀ th' D, thread_ok t th' → enq_of th' = None → dequeues th' = S i → enqueues th' = 0 →
    (∀ k, k ∈ D → k ∈ enqueued w ∧ ∃ i, th' = ConsumerMark i k) → (∀ i k, th' = ConsumerMark i k → k ∈ enqueued w) →
    rel q' pe (partial_alter (λ _, deq_of th') t pd) (enqueued w) (sum_list_with dequeues (threads w)) (dequeued w ++ D) →
    world_ok (set_thread t q' th' [] D w)).
  { intros th' D Hth' He Hd Hn HD HM HR. assert (Hs := sum_list_with_update dequeues _ _ _ th' Ht).
    apply put_ok with (ConsumerIn i l) pe pd; simpl; try done; try apply (ok_flags _ Hok).
    rewrite !app_nil_r. rewrite (pending_same enq_of _ _ _ _ (enq_of th') Hpe Ht) by done.
    replace (sum_list_with dequeues (<[t := _]> (threads w))) with (sum_list_with dequeues (threads w)) by (simpl in Hs; lia). done. }
  destruct o as [l'|k]; eexists; (split; [reflexivity|]); apply Hput; simpl; try done.
  - by intros k ?%elem_of_nil.
  - by rewrite app_nil_r.
  - intros k' ->%list_elem_of_singleton. split; [apply Hrel'|eauto].
  - intros i' k' [= <- <-]. apply Hrel'.
  - apply Hrel'.
Qed.

Lemma mark_step_ok w t i k :
  world_ok w → threads w !! t = Some (ConsumerMark i k) → ∃ w', mark_step t i k w = Ok w' ∧ world_ok w'.
Proof.
  intros Hok Ht. assert (Hin := ok_mark _ Hok _ _ _ Ht). destruct (ok_rel _ Hok) as (pe & pd & Hpe & Hpd & Hrel).
  destruct (ok_threads _ Hok _ _ Ht) as (HP & Hi). assert (Hk := ok_keys _ Hok k Hin). rewrite <- (ok_flags _ Hok) in Hk.
  destruct (array_get_Some _ _ Hk) as [b Hb]. unfold mark_step. rewrite Hb.
  eexists. split; [reflexivity|]. assert (Hs := sum_list_with_update dequeues _ _ _ (ConsumerLoop (S i)) Ht).
  rewrite <- (app_nil_r (enqueued w)), <- (app_nil_r (dequeued w)).
  apply put_ok with (ConsumerMark i k) pe pd; simpl; try done.
  - rewrite !app_nil_r. rewrite (pending_same enq_of _ _ _ _ None Hpe Ht), (pending_same deq_of _ _ _ _ None Hpd Ht) by done.
    replace (sum_list_with dequeues (<[t := _]> (threads w))) with (sum_list_with dequeues (threads w)) by (simpl in Hs; lia). done.
  - by intros k' ?%elem_of_nil.
  - rewrite length_array_set. apply Hok.
  - intros k' Hk'. destruct (decide (k = k')) as [<-|Hne]; [by apply array_get_set_eq|by rewrite array_get_set_ne].
  - intros i' k' [= <- <-]. by apply array_get_set_eq.
Qed.

Lemma queue_step_ok w t r : world_ok w → thread_step N t w = Some r → ∃ w', r = Ok w' ∧ world_ok w'.
Proof.
  intros Hok Hs. unfold thread_step in Hs. destruct (threads w !! t) as [th|] eqn:Ht; [|done]. cbn [mbind option_bind] in Hs.
  destruct th as [k i|k i l|i|i l|i k].
  - destruct (Nat.ltb_spec i N) as [Hi|]; [|done]. assert (H := producer_loop_ok w t k i Hok Ht Hi).
    destruct (enqueue (queue w) k) as [q l]. injection Hs as <-. eauto.
  - injection Hs as <-. by apply producer_step_ok.
  - destruct (Nat.ltb_spec i N) as [Hi|]; [|done]. assert (H := consumer_loop_ok w t i Hok Ht Hi).
    destruct (dequeue (queue w)) as [q l]. injection Hs as <-. eauto.
  - injection Hs as <-. by apply consumer_step_ok.
  - injection Hs as <-. by apply mark_step_ok.
Qed.

Lemma queue_main_threads t th :
  threads (queue_main P N) !! t = Some th → t < P ∧ th = new_producer N t ∨ P ≤ t ∧ th = ConsumerLoop 0.
Proof.
  unfold queue_main. cbn [threads]. intros [Ht|[Hge Ht]]%lookup_app_Some.
  - left. apply list_lookup_fmap_Some in Ht as (x & -> & [-> Hx]%lookup_seq). done.
  - right. rewrite length_fmap, length_seq in Hge. split; [done|]. by apply lookup_replicate in Ht as [-> _].
Qed.

Lemma queue_main_ok : world_ok (queue_main P N).
Proof.
  assert (Hnew : ∀ t th, threads (queue_main P N) !! t = Some th → enqueues th = 0 ∧ dequeues th = 0 ∧ enq_of th = None ∧ deq_of th = None).
  { intros t th [[_ ->]|[_ ->]]%queue_main_threads; done. }
  assert (Hsum : ∀ f : thread → nat, (∀ t th, threads (queue_main P N) !! t = Some th → f th = 0) → sum_list_with f (threads (queue_main P N)) = 0).
  { intros f Hf. rewrite (sum_list_with_eq _ 0); [lia|]. by apply Forall_lookup_2. }
  split; [by apply length_replicate|..].
  - exists ∅, ∅. rewrite Hsum by (intros; by eapply Hnew). split_and!; [..|apply rel_init]; intros t; rewrite lookup_empty;
      destruct (threads (queue_main P N) !! t) as [th|] eqn:Ht; [|done| |done]; by destruct (Hnew t th Ht) as (_ & _ & ? & ?).
  - rewrite Hsum; [done|]. intros; by eapply Hnew.
  - intros t th [[Ht ->]|[Ht ->]]%queue_main_threads; simpl; [|lia]. split_and!; [done|lia|].
    rewrite to_int_id; [lia|]. unfold INT_MIN. nia.
  - unfold queue_main. cbn [threads]. by rewrite length_app, length_fmap, length_seq, length_replicate.
  - by intros k ?%elem_of_nil.
  - by intros k ?%elem_of_nil.
  - intros t th j Ht Hj. destruct (Hnew t th Ht) as [H _]. lia.
  - intros t i k [[_ ?]|[_ ?]]%queue_main_threads; done.
  - by intros k ?%elem_of_nil.
Qed.

Lemma queue_steps_ok w : rtc (step N) (queue_main P N) w → world_ok w.
Proof.
  revert w. apply rtc_ind_r; [by apply queue_main_ok|].
  intros w w' _ (tid & Hs) IH. by destruct (queue_step_ok _ _ _ IH Hs) as (? & [= <-] & ?).
Qed.

(** *** The end *)

Lemma done_calls t th : thread_ok t th → thread_done N th → enqueues th + dequeues th = N ∧ enq_of th = None ∧ deq_of th = None.
Proof. destruct th; simpl; intros Hok Hd; try done; apply Is_true_true, Nat.leb_le in Hd; simpl; split_and?; lia || done. Qed.

Lemma finished_calls w :
  world_ok w → finished N w → (∀ t th, threads w !! t = Some th → t < P → enqueues th = N) ∧
  length (enqueued w) = P * N ∧ dequeued w ≡ₚ enqueued w.
Proof.
  intros Hok Hfin. assert (Hd : ∀ t th, threads w !! t = Some th → enqueues th + dequeues th = N ∧ enq_of th = None ∧ deq_of th = None).
  { intros t th Ht. eapply done_calls; [by apply Hok|]. by eapply Forall_lookup_1 in Hfin. }
  assert (Hside : ∀ t th, threads w !! t = Some th → if decide (t < P) then enqueues th = N else dequeues th = N).
  { intros t th Ht. destruct (Hd t th Ht) as (H & _). apply (ok_threads _ Hok) in Ht. case_decide; destruct th; simpl in *; lia. }
  assert (Hprod : ∀ t th, threads w !! t = Some th → t < P → enqueues th = N).
  { intros t th Ht HP. specialize (Hside t th Ht). by case_decide. }
  assert (HE := enqueues_all w Hok Hprod).
  assert (HD : sum_list_with dequeues (threads w) = P * N).
  { apply dequeues_all; [done|]. intros t th Ht HP. specialize (Hside t th Ht). case_decide; [lia|done]. }
  destruct (ok_rel _ Hok) as (pe & pd & Hpe & Hpd & Hrel).
  assert (pe = ∅) as ->. { apply map_eq. intros t. rewrite lookup_empty, (Hpe t). destruct (threads w !! t) eqn:Ht; [|done]. by apply (Hd t). }
  assert (pd = ∅) as ->. { apply map_eq. intros t. rewrite lookup_empty, (Hpd t). destruct (threads w !! t) eqn:Ht; [|done]. by apply (Hd t). }
  rewrite (ok_count _ Hok). split_and!; [done|done|]. eapply rel_done; [exact Hrel|rewrite (ok_count _ Hok); lia].
Qed.

(** Every key has been given to [enqueue]. *)
Lemma finished_made w k : world_ok w → finished N w → (0 ≤ k < Z.of_nat (P * N))%Z → k ∈ enqueued w.
Proof.
  intros Hok Hfin Hk. destruct (finished_calls w Hok Hfin) as (Hprod & _). assert (HN : 0 < N) by (destruct N; nia).
  set (t := Z.to_nat k / N). set (j := Z.to_nat k mod N). assert (Hj : j < N) by (apply Nat.mod_upper_bound; lia).
  assert (Hdiv : Z.to_nat k = N * t + j) by apply Nat.div_mod_eq. assert (HP : t < P) by nia.
  destruct (lookup_lt_is_Some_2 (threads w) t) as [th Ht]; [rewrite (ok_length _ Hok); lia|].
  replace k with (Z.of_nat (N * t + j)) by lia. apply (ok_made _ Hok t th); [done|]. by rewrite (Hprod t th).
Qed.

Lemma finished_dequeued w : world_ok w → finished N w → dequeued w ≡ₚ seqZ 0 (Z.of_nat (P * N)).
Proof.
  intros Hok Hfin. destruct (finished_calls w Hok Hfin) as (_ & Hlen & ->). symmetry.
  apply submseteq_length_Permutation; [|rewrite length_seqZ; lia]. apply NoDup_submseteq; [apply NoDup_seqZ|].
  intros k Hk%elem_of_seqZ. apply finished_made; [done|done|lia].
Qed.

Lemma finished_verify w : world_ok w → finished N w → verify w = true.
Proof.
  intros Hok Hfin. apply forallb_forall. intros b [i Hi]%list_elem_of_In%list_elem_of_lookup.
  assert (Hlt := lookup_lt_Some _ _ _ Hi). rewrite (ok_flags _ Hok) in Hlt.
  assert (Hk : Z.of_nat i ∈ dequeued w) by (rewrite finished_dequeued by done; apply elem_of_seqZ; lia).
  destruct (ok_marked _ Hok _ Hk) as [Hm|(u & j & Hu)].
  - unfold marked, array_get in Hm. rewrite (proj2 (Z.ltb_ge _ _)), Nat2Z.id in Hm by lia. by simplify_eq.
  - eapply Forall_lookup_1 in Hfin; [|exact Hu]. done.
Qed.

(** *** Progress *)

Definition weight (th : thread) : nat :=
  match th with
  | ProducerLoop _ i | ConsumerLoop i => (N - i) * (op_bound + 3)
  | ProducerIn _ i l => (N - S i) * (op_bound + 3) + enqueue_measure l + 2
  | ConsumerIn i l => (N - S i) * (op_bound + 3) + dequeue_measure l + 2
  | ConsumerMark i _ => (N - S i) * (op_bound + 3) + 1
  end.

Definition total_weight (w : world) : nat := sum_list_with weight (threads w).

(** A step of thread [t] to [th'] with a smaller weight. *)
Lemma lighter w w' t th th' :
  threads w !! t = Some th → threads w' = <[t := th']> (threads w) → weight th' < weight th → total_weight w' < total_weight w.
Proof.
  intros Ht Hw Hlt. unfold total_weight. rewrite Hw. assert (H := sum_list_with_update weight _ _ _ th' Ht). lia.
Qed.

Lemma loop_lighter w t th :
  world_ok w → threads w !! t = Some th → thread_done N th = false → enq_of th = None → deq_of th = None →
  ∃ w', thread_step N t w = Some (Ok w') ∧ total_weight w' < total_weight w.
Proof.
  intros Hok Ht Hd He Hq. assert (Hs : ∀ r, thread_step N t w = Some r → ∃ w', r = Ok w') by (intros r H; destruct (queue_step_ok _ _ _ Hok H) as (? & ? & _); eauto).
  unfold thread_step in *. rewrite Ht in *. cbn [mbind option_bind] in *.
  destruct th as [k i|k i l|i|i l|i k]; simpl in Hd, He, Hq; try done.
  - apply Nat.leb_gt in Hd. rewrite (proj2 (Nat.ltb_lt _ _) Hd) in *. assert (Hb := enqueue_bound (queue w) k).
    destruct (enqueue (queue w) k) as [q l]. eexists. split; [reflexivity|]. eapply lighter; [done|reflexivity|].
    simpl in *. replace (N - i) with (S (N - S i)) by lia. lia.
  - apply Nat.leb_gt in Hd. rewrite (proj2 (Nat.ltb_lt _ _) Hd) in *. assert (Hb := dequeue_bound (queue w)).
    destruct (dequeue (queue w)) as [q l]. eexists. split; [reflexivity|]. eapply lighter; [done|reflexivity|].
    simpl in *. replace (N - i) with (S (N - S i)) by lia. lia.
  - destruct (Hs _ eq_refl) as (w' & Hw'). rewrite Hw'. eexists. split; [reflexivity|]. unfold mark_step in Hw'.
    destruct (array_get _ _); [|done]. injection Hw' as <-. eapply lighter; [done|reflexivity|]. simpl. lia.
Qed.

Lemma enqueue_lighter w t k i l q' o :
  world_ok w → threads w !! t = Some (ProducerIn k i l) → enqueue_step (queue w) l = Ok (q', o) →
  (∀ l', o = Some l' → enqueue_measure l' < enqueue_measure l) →
  ∃ w', thread_step N t w = Some (Ok w') ∧ total_weight w' < total_weight w.
Proof.
  intros Hok Ht Hstep Hm. destruct (producer_step_ok w t k i l Hok Ht) as (w' & Hw' & _). exists w'.
  unfold thread_step. rewrite Ht. cbn [mbind option_bind]. rewrite Hw'. split; [done|]. unfold producer_step in Hw'. rewrite Hstep in Hw'.
  cbn [mbind res_bind] in Hw'. destruct o as [l'|].
  - injection Hw' as <-. eapply lighter; [done|reflexivity|]. simpl. specialize (Hm l' eq_refl). lia.
  - destruct (int_arith (k + 1)) as [k'|]; [|done]. injection Hw' as <-. eapply lighter; [done|reflexivity|]. simpl. lia.
Qed.

Lemma dequeue_lighter w t i l q' o :
  world_ok w → threads w !! t = Some (ConsumerIn i l) → dequeue_step (queue w) l = Ok (q', o) →
  (∀ l', o = inl l' → dequeue_measure l' < dequeue_measure l) →
  ∃ w', thread_step N t w = Some (Ok w') ∧ total_weight w' < total_weight w.
Proof.
  intros Hok Ht Hstep Hm. destruct (consumer_step_ok w t i l Hok Ht) as (w' & Hw' & _). exists w'.
  unfold thread_step. rewrite Ht. cbn [mbind option_bind]. rewrite Hw'. split; [done|]. unfold consumer_step in Hw'. rewrite Hstep in Hw'.
  cbn [mbind res_bind] in Hw'. destruct o as [l'|k]; injection Hw' as <-; (eapply lighter; [done|reflexivity|]); simpl; [|lia].
  specialize (Hm l' eq_refl). lia.
Qed.

Lemma pending_empty {A} (f : thread → option A) ths p :
  pending f ths p → p = ∅ → ∀ t th, ths !! t = Some th → f th = None.
Proof. intros Hp -> t th Ht. specialize (Hp t). by rewrite lookup_empty, Ht in Hp. Qed.

Lemma queue_progress w :
  world_ok w → finished N w ∨ ∃ w', step N w w' ∧ world_ok w' ∧ total_weight w' < total_weight w.
Proof.
  intros Hok. assert (Hgo : ∀ t, (∃ w', thread_step N t w = Some (Ok w') ∧ total_weight w' < total_weight w) →
    ∃ w', step N w w' ∧ world_ok w' ∧ total_weight w' < total_weight w).
  { intros t (w' & Hs & Hlt). destruct (queue_step_ok _ _ _ Hok Hs) as (? & [= <-] & ?). exists w'. split; [by exists t|done]. }
  destruct (decide (finished N w)) as [Hfin|Hfin]; [by left|right].
  apply not_Forall_Exists in Hfin; [|intros ?; apply _]. apply Exists_exists in Hfin as (th & [t Ht]%list_elem_of_lookup & Hd).
  assert (Hd' : thread_done N th = false) by (unfold compose in Hd; destruct (thread_done N th); naive_solver).
  destruct (ok_rel _ Hok) as (pe & pd & Hpe & Hpd & Hrel).
  destruct (rel_progress _ _ _ _ _ _ Hrel) as [(u & l & q' & o & Hu & Hs & Hm)|[(u & l & q' & o & Hu & Hs & Hm)|Hstuck]].
  { rewrite (Hpe u) in Hu. destruct (threads w !! u) as [[]|] eqn:Hth; simplify_eq/=. by eapply Hgo, enqueue_lighter. }
  { rewrite (Hpd u) in Hu. destruct (threads w !! u) as [[]|] eqn:Hth; simplify_eq/=. by eapply Hgo, dequeue_lighter. }
  assert (Hcount := rel_count _ _ _ _ _ _ Hrel). rewrite (ok_count _ Hok) in Hstuck.
  destruct (decide (Exists (λ x, thread_done N x = false ∧ enq_of x = None ∧ deq_of x = None) (threads w))) as [Hex|Hno].
  { apply Exists_exists in Hex as (uh & [u Hu]%list_elem_of_lookup & H1 & H2 & H3). by eapply Hgo, loop_lighter. }
  assert (Hall : ∀ u uh, threads w !! u = Some uh → enq_of uh = None → deq_of uh = None → enqueues uh + dequeues uh = N).
  { intros u uh Hu H1 H2. eapply done_calls; [by apply (ok_threads _ Hok u)|]. destruct (thread_done N uh) eqn:H3; [done|].
    exfalso. apply Hno, Exists_exists. exists uh. split; [by eapply list_elem_of_lookup_2|done]. }
  exfalso. destruct Hstuck as [[He Hle]|[He Hlt]].
  - assert (HE : sum_list_with enqueues (threads w) = P * N).
    { apply enqueues_all; [done|]. intros u uh Hu HP. assert (H := ok_threads _ Hok u uh Hu).
      specialize (Hall u uh Hu (pending_empty _ _ _ Hpe He u uh Hu)). destruct uh; simpl in *; try lia; specialize (Hall eq_refl); lia. }
    assert (HD := dequeues_le w Hok). assert (pd = ∅) as Hpd0 by (apply map_size_empty_iff; lia). apply Hno, Exists_exists. exists th.
    split; [by eapply list_elem_of_lookup_2|]. split; [done|]. by split; eapply pending_empty.
  - assert (HD : sum_list_with dequeues (threads w) = P * N).
    { apply dequeues_all; [done|]. intros u uh Hu HP. assert (H := ok_threads _ Hok u uh Hu).
      specialize (Hall u uh Hu). rewrite (pending_empty _ _ _ Hpd He u uh Hu) in Hall. destruct uh; simpl in *; try lia; specialize (Hall eq_refl eq_refl); lia. }
    assert (HE := enqueues_le w Hok). subst pd. rewrite map_size_empty in Hcount. lia.
Qed.

End invariant.

(** ** The program, with any queue *)

Section correct.
  Context `{impl : QueueImpl} {limit : nat} {laws : QueueLaws impl limit} (P N : nat).
  Context (Hlimit : P * N ≤ limit) (Hint : (Z.of_nat (P * N) ≤ INT_MAX)%Z).

Lemma queue_program_safe w :
  rtc (step N) (queue_main P N) w →
  (∀ tid e, thread_step N tid w ≠ Some (Err e)) ∧
  (finished N w → verify w = true ∧ dequeued w ≡ₚ seqZ 0 (Z.of_nat (P * N))).
Proof.
  intros Hr. assert (Hok := queue_steps_ok P N Hlimit Hint w Hr). split.
  - intros tid e Hs. by destruct (queue_step_ok P N Hlimit Hint _ _ _ Hok Hs) as (? & ? & _).
  - intros Hfin. split; [by eapply finished_verify|by apply finished_dequeued].
Qed.

Lemma queue_program_finishes w :
  rtc (step N) (queue_main P N) w → ∃ w', rtc (step N) w w' ∧ finished N w'.
Proof.
  intros Hr. destruct (rtc_reaches (step N) (world_ok P N) (finished N) (total_weight N) (queue_progress P N Hlimit Hint) w) as (w' & H1 & H2 & _).
  - by apply queue_steps_ok.
  - eauto.
Qed.

End correct.
