(* ===== verification/GiantQueue.v ===== *)
(** The bounded queue of [lab13/concurrent_queue_giant.cpp] with one mutex. What a
    call does between lock and unlock is one step; a call that finds the queue
    full or empty tries again. *)
From stdpp Require Import functions base tactics numbers option list list_numbers gmap sets relations sorting.
From Stdlib Require Import ZArith Lia.
From S2P Require Import Prelude QueueClient.

Definition QUEUE_SIZE : Z := 1024.

(** ** Operations *)

Record giant_queue : Type := mk_giant_queue {
  slots : list Z;
  front : Z;
  rear : Z;
}.

(** The static array is zero. *)
Definition giant_init : giant_queue := mk_giant_queue (replicate 1024 0%Z) 0 0.

(** One turn of the loop of [enqueue]; the key again when the queue is full. *)
Definition giant_enqueue_step (q : giant_queue) (key : Z) : res (giant_queue * option Z) :=
  if (wrap_u64 (front q + QUEUE_SIZE) <=? rear q)%Z then Ok (q, Some key)
  else
    match array_get (slots q) (rear q mod QUEUE_SIZE) with
    | Some _ => Ok (mk_giant_queue (array_set (slots q) (rear q mod QUEUE_SIZE) key) (front q) (wrap_u64 (rear q + 1)), None)
    | None => Err UndefinedBehaviour
    end.

(** One turn of the loop of [dequeue]. *)
Definition giant_dequeue_step (q : giant_queue) (_ : unit) : res (giant_queue * (unit + Z)) :=
  if (rear q =? front q)%Z then Ok (q, inl tt)
  else
    match array_get (slots q) (front q mod QUEUE_SIZE) with
    | Some ret_key => Ok (mk_giant_queue (slots q) (wrap_u64 (front q + 1)) (rear q), inr ret_key)
    | None => Err UndefinedBehaviour
    end.

#[global] Instance giant : QueueImpl := {|
  Q := giant_queue; LE := Z; LD := unit;
  init_queue := giant_init;
  enqueue := λ q key, (q, key);
  enqueue_step := giant_enqueue_step;
  dequeue := λ q, (q, tt);
  dequeue_step := giant_dequeue_step;
|}.

(** ** The queue as a list *)

Definition contents (q : giant_queue) : list Z :=
  (λ t, default 0%Z (array_get (slots q) (t mod QUEUE_SIZE))) <$> seqZ (front q) (rear q - front q).

Record wf (q : giant_queue) : Prop := {
  wf_order : (0 ≤ front q ≤ rear q)%Z;
  wf_size : (rear q ≤ front q + QUEUE_SIZE)%Z;
  wf_width : (rear q + QUEUE_SIZE < 2 ^ 64)%Z;
  wf_slots : length (slots q) = 1024;
}.

Lemma giant_init_wf : wf giant_init.
Proof. split; try (unfold QUEUE_SIZE; simpl; lia). Qed.

Lemma slot_range t : (0 ≤ t mod QUEUE_SIZE < 1024)%Z.
Proof. apply Z.mod_pos_bound. unfold QUEUE_SIZE. lia. Qed.

Lemma wf_slot q t : wf q → ∃ k, array_get (slots q) (t mod QUEUE_SIZE) = Some k.
Proof. intros Hwf. apply array_get_Some. rewrite (wf_slots _ Hwf). apply slot_range. Qed.

Lemma contents_length q : wf q → Z.of_nat (length (contents q)) = (rear q - front q)%Z.
Proof. intros Hwf. unfold contents. rewrite length_fmap, length_seqZ. destruct Hwf. lia. Qed.

(** Tickets less than [QUEUE_SIZE] apart have different slots. *)
Lemma mod_neq t u : (t < u < t + QUEUE_SIZE)%Z → (t mod QUEUE_SIZE ≠ u mod QUEUE_SIZE)%Z.
Proof.
  intros H Heq. unfold QUEUE_SIZE in *. rewrite (Z.div_mod t 1024), (Z.div_mod u 1024) in H by lia. rewrite Heq in H.
  lia.
Qed.

Lemma giant_enqueue_full q k : wf q → length (contents q) = 1024 → giant_enqueue_step q k = Ok (q, Some k).
Proof.
  intros Hwf Hlen. assert (Hl := contents_length q Hwf). destruct Hwf as [Ho Hs Hw _]. unfold giant_enqueue_step, wrap_u64.
  unfold QUEUE_SIZE in *. rewrite Z.mod_small by lia. by rewrite (proj2 (Z.leb_le _ _)) by lia.
Qed.

Lemma giant_enqueue_append q k :
  wf q → length (contents q) < 1024 → (rear q + 1 + QUEUE_SIZE < 2 ^ 64)%Z →
  ∃ q', giant_enqueue_step q k = Ok (q', None) ∧ wf q' ∧ contents q' = contents q ++ [k] ∧ front q' = front q ∧ rear q' = (rear q + 1)%Z.
Proof.
  intros Hwf Hlen Hb. assert (Hl := contents_length q Hwf). destruct (wf_slot q (rear q) Hwf) as [k0 Hk0].
  assert (Hwf' := Hwf). destruct Hwf' as [Ho Hs Hw Hsl]. unfold giant_enqueue_step, wrap_u64.
  rewrite (Z.mod_small (front q + _)) by (unfold QUEUE_SIZE in *; lia). rewrite (proj2 (Z.leb_gt _ _)) by (unfold QUEUE_SIZE in *; lia).
  rewrite Hk0. rewrite (Z.mod_small (rear q + 1)) by (unfold QUEUE_SIZE in *; lia). eexists. split; [reflexivity|]. split_and!; try done.
  - split; simpl; [lia|unfold QUEUE_SIZE in *; lia|lia|by rewrite length_array_set].
  - unfold contents at 1. cbn [slots front rear]. replace (rear q + 1 - front q)%Z with (rear q - front q + 1)%Z by lia.
    rewrite seqZ_app by lia. rewrite fmap_app. f_equal.
    + unfold contents. apply list_fmap_ext. intros i t [-> Hi]%lookup_seqZ. rewrite array_get_set_ne; [done|].
      apply not_eq_sym, mod_neq. unfold QUEUE_SIZE in *. lia.
    + rewrite Z.add_comm, Z.sub_add. rewrite seqZ_cons by lia. cbn. rewrite array_get_set_eq; [done|]. rewrite Hsl. apply slot_range.
Qed.

Lemma giant_dequeue_empty q : wf q → contents q = [] → giant_dequeue_step q tt = Ok (q, inl tt).
Proof.
  intros Hwf Hc. assert (Hl := contents_length q Hwf). rewrite Hc in Hl. simpl in Hl. unfold giant_dequeue_step.
  by rewrite (proj2 (Z.eqb_eq _ _)) by lia.
Qed.

Lemma giant_dequeue_head q k l :
  wf q → contents q = k :: l →
  ∃ q', giant_dequeue_step q tt = Ok (q', inr k) ∧ wf q' ∧ contents q' = l ∧ front q' = (front q + 1)%Z ∧ rear q' = rear q.
Proof.
  intros Hwf Hc. assert (Hl := contents_length q Hwf). rewrite Hc in Hl. simpl in Hl. destruct (wf_slot q (front q) Hwf) as [k0 Hk0].
  assert (Hwf' := Hwf). destruct Hwf' as [Ho Hs Hw Hsl]. unfold giant_dequeue_step, wrap_u64.
  rewrite (proj2 (Z.eqb_neq _ _)) by lia. rewrite Hk0, (Z.mod_small (front q + 1)) by (unfold QUEUE_SIZE in *; lia).
  unfold contents in Hc. rewrite seqZ_cons in Hc by lia. rewrite fmap_cons, Hk0 in Hc. simpl in Hc. injection Hc as -> Hc.
  eexists. split; [reflexivity|]. split_and!; try done.
  - split; simpl; [lia|lia|lia|done].
  - rewrite <- Hc. unfold contents. cbn [slots front rear]. do 2 f_equal; lia.
Qed.

(** ** The laws of a queue *)

Section laws.
  Context (limit : nat) (Hlimit : (Z.of_nat limit + QUEUE_SIZE < 2 ^ 64)%Z).

Definition giant_rel (q : giant_queue) (pe : gmap nat Z) (pd : gmap nat unit) (E : list Z) (d : nat) (D : list Z) : Prop :=
  wf q ∧ front q = Z.of_nat (length D) ∧ (D ++ contents q) ++ (map_to_list pe).*2 ≡ₚ E ∧ length D + size pd = d ∧ length E ≤ limit.

Lemma giant_rel_enqueue q pe pd E d D t k :
  giant_rel q pe pd E d D → pe !! t = None → length E < limit → giant_rel q (<[t := k]> pe) pd (E ++ [k]) d D.
Proof.
  intros (H1 & H2 & H3 & H4 & H5) Ht Hlt. split_and!; [done|done| |done|rewrite length_app; simpl; lia].
  rewrite map_to_list_insert by done. rewrite fmap_cons. simpl. rewrite <- H3. by rewrite <- Permutation_cons_append, Permutation_middle.
Qed.

Lemma giant_rel_dequeue q pe pd E d D t :
  giant_rel q pe pd E d D → pd !! t = None → giant_rel q pe (<[t := tt]> pd) E (S d) D.
Proof. intros (H1 & H2 & H3 & H4 & H5) Ht. split_and!; try done. rewrite map_size_insert_None by done. lia. Qed.

Lemma pending_delete (pe : gmap nat Z) t k :
  pe !! t = Some k → (map_to_list pe).*2 ≡ₚ k :: (map_to_list (delete t pe)).*2.
Proof. intros Ht. by rewrite <- (map_to_list_delete pe t k Ht). Qed.

Lemma giant_rel_length q pe pd E d D :
  giant_rel q pe pd E d D → length D + length (contents q) + size pe = length E.
Proof.
  intros (_ & _ & H & _). apply Permutation_length in H. rewrite !length_app, length_fmap, length_map_to_list in H. lia.
Qed.

Lemma giant_contents_le q pe pd E d D : giant_rel q pe pd E d D → length (contents q) ≤ 1024.
Proof. intros (Hwf & _). assert (H := contents_length q Hwf). destruct Hwf. unfold QUEUE_SIZE in *. lia. Qed.

Lemma giant_rear q pe pd E d D : giant_rel q pe pd E d D → rear q = Z.of_nat (length D + length (contents q)).
Proof. intros (Hwf & H & _). assert (Hl := contents_length q Hwf). lia. Qed.

Lemma giant_enqueue_returns q pe pd E d D t k :
  giant_rel q pe pd E d D → pe !! t = Some k → length (contents q) < 1024 →
  ∃ q', giant_enqueue_step q k = Ok (q', None) ∧ giant_rel q' (delete t pe) pd E d D.
Proof.
  intros Hrel Ht Hlt. assert (Hlen := giant_rel_length _ _ _ _ _ _ Hrel). assert (Hr := giant_rear _ _ _ _ _ _ Hrel).
  assert (0 < size pe) by (rewrite <- (insert_delete_id pe t k Ht), map_size_insert_None by apply lookup_delete_eq; lia).
  destruct Hrel as (H1 & H2 & H3 & H4 & H5).
  destruct (giant_enqueue_append q k H1 Hlt) as (q' & Hs & Hwf & Hc & Hf & _); [lia|]. exists q'. split; [done|]. split_and!; try done; [congruence|].
  rewrite Hc, <- H3, (pending_delete _ _ _ Ht). by rewrite <- !(assoc_L app).
Qed.

Lemma giant_rel_enqueue_step q pe pd E d D t k :
  giant_rel q pe pd E d D → pe !! t = Some k →
  ∃ q' o, giant_enqueue_step q k = Ok (q', o) ∧ giant_rel q' (partial_alter (λ _, o) t pe) pd E d D.
Proof.
  intros Hrel Ht. assert (Hle := giant_contents_le _ _ _ _ _ _ Hrel). destruct (decide (length (contents q) = 1024)) as [Hfull|Hnot].
  - exists q, (Some k). split; [apply giant_enqueue_full; [apply Hrel|done]|].
    change (partial_alter (λ _, Some k) t pe) with (<[t := k]> pe). by rewrite insert_id.
  - destruct (giant_enqueue_returns q pe pd E d D t k Hrel Ht) as (q' & H1 & H2); [lia|]. by exists q', None.
Qed.

Lemma giant_dequeue_returns q pe pd E d D t k l :
  giant_rel q pe pd E d D → pd !! t = Some tt → contents q = k :: l →
  ∃ q', giant_dequeue_step q tt = Ok (q', inr k) ∧ k ∈ E ∧ giant_rel q' pe (delete t pd) E d (D ++ [k]).
Proof.
  intros (H1 & H2 & H3 & H4 & H5) Ht Hc. destruct (giant_dequeue_head q k l H1 Hc) as (q' & Hs & Hwf & Hc' & Hf & _).
  exists q'. split; [done|]. split.
  - rewrite <- H3, Hc. apply elem_of_app. left. apply elem_of_app. right. by left.
  - split_and!; try done.
    + rewrite Hf, H2, length_app. simpl. lia.
    + rewrite Hc', <- H3, Hc. by rewrite <- !(assoc_L app).
    + rewrite length_app. simpl. rewrite map_size_delete_Some by eauto. rewrite <- H4.
      assert (size pd ≠ 0) by (intros Hz%map_size_empty_iff; by rewrite Hz in Ht). lia.
Qed.

Lemma giant_rel_dequeue_step q pe pd E d D t l :
  giant_rel q pe pd E d D → pd !! t = Some l →
  ∃ q' o, giant_dequeue_step q l = Ok (q', o) ∧
    match o with
    | inl l' => giant_rel q' pe (<[t := l']> pd) E d D
    | inr k => k ∈ E ∧ giant_rel q' pe (delete t pd) E d (D ++ [k])
    end.
Proof.
  intros Hrel Ht. destruct l. destruct (contents q) as [|k l] eqn:Hc.
  - exists q, (inl tt). split; [apply giant_dequeue_empty; [apply Hrel|done]|]. by rewrite insert_id.
  - destruct (giant_dequeue_returns _ _ _ _ _ _ _ _ _ Hrel Ht Hc) as (q' & H1 & H2). by exists q', (inr k).
Qed.

Lemma giant_progress q pe pd E d D :
  giant_rel q pe pd E d D →
  (∃ t l q' o, pe !! t = Some l ∧ giant_enqueue_step q l = Ok (q', o) ∧ ∀ l', o = Some l' → 0 < 0) ∨
  (∃ t l q' o, pd !! t = Some l ∧ giant_dequeue_step q l = Ok (q', o) ∧ ∀ l', o = inl l' → 0 < 0) ∨
  (pe = ∅ ∧ length E ≤ length D) ∨ (pd = ∅ ∧ length D < length E).
Proof.
  intros Hrel. assert (Hlen := giant_rel_length _ _ _ _ _ _ Hrel). assert (Hle := giant_contents_le _ _ _ _ _ _ Hrel).
  assert (Hd : ∀ t k l, pd !! t = Some tt → contents q = k :: l →
    ∃ t l q' o, pd !! t = Some l ∧ giant_dequeue_step q l = Ok (q', o) ∧ ∀ l', o = inl l' → 0 < 0).
  { intros t k l Ht Hc. destruct (giant_dequeue_returns _ _ _ _ _ _ _ _ _ Hrel Ht Hc) as (q' & Hs & _). by exists t, tt, q', (inr k). }
  destruct (decide (length (contents q) = 1024)) as [Hfull|Hnot].
  - right. destruct (map_choose_or_empty pd) as [(t & [] & Ht)|Hpd]; [|right; right; split; [done|lia]].
    destruct (contents q) as [|k l] eqn:Hc; [done|]. left. by eapply Hd.
  - destruct (map_choose_or_empty pe) as [(t & k & Ht)|Hpe].
    { left. destruct (giant_enqueue_returns q pe pd E d D t k Hrel Ht) as (q' & Hs & _); [lia|]. by exists t, k, q', None. }
    right. subst pe. rewrite map_size_empty in Hlen. destruct (contents q) as [|k l] eqn:Hc; rewrite ?Hc in Hlen; simpl in Hlen; [right; left; split; [done|lia]|].
    destruct (map_choose_or_empty pd) as [(t & [] & Ht)|Hpd]; [left; by eapply Hd|right; right; split; [done|lia]].
Qed.

Lemma giant_rel_init : giant_rel giant_init ∅ ∅ [] 0 [].
Proof. split_and!; [apply giant_init_wf|done|done|done|simpl; lia]. Qed.

Lemma giant_done q E d D : giant_rel q ∅ ∅ E d D → length E = d → D ≡ₚ E.
Proof.
  intros Hrel Hd. assert (Hlen := giant_rel_length _ _ _ _ _ _ Hrel). destruct Hrel as (_ & _ & H3 & H4 & _).
  rewrite (map_size_empty (A := Z)) in Hlen. rewrite (map_size_empty (A := unit)) in H4. destruct (contents q); [|simpl in *; lia]. by rewrite map_to_list_empty, !app_nil_r in H3.
Qed.

#[global] Instance giant_laws : QueueLaws giant limit.
Proof using Hlimit.
  refine {| rel := giant_rel : Q → gmap nat LE → gmap nat LD → list Z → nat → list Z → Prop;
            enqueue_measure := λ _, 0; dequeue_measure := λ _, 0; op_bound := 0 |}.
  - exact giant_rel_init.
  - exact giant_rel_enqueue.
  - intros. by apply giant_rel_dequeue.
  - exact giant_rel_enqueue_step.
  - exact giant_rel_dequeue_step.
  - intros q pe pd E d D H. apply H.
  - exact giant_done.
  - done.
  - done.
  - exact giant_progress.
Defined.

End laws.

(** ** Properties *)

Definition giant_main (P N : nat) : world := queue_main P N.

(** The queue with one mutex is a first-in first-out queue of at most 1024
    keys: [enqueue] waits while the queue is full and otherwise appends its key,
    [dequeue] waits while it is empty and otherwise takes the first key. *)
Theorem giant_fifo (q : giant_queue) (k : Z) :
  wf q → (rear q + 1 + QUEUE_SIZE < 2 ^ 64)%Z →
  length (contents q) ≤ 1024 ∧
  (if decide (length (contents q) = 1024) then giant_enqueue_step q k = Ok (q, Some k)
   else ∃ q', giant_enqueue_step q k = Ok (q', None) ∧ wf q' ∧ contents q' = contents q ++ [k]) ∧
  match contents q with
  | [] => giant_dequeue_step q tt = Ok (q, inl tt)
  | k0 :: l => ∃ q', giant_dequeue_step q tt = Ok (q', inr k0) ∧ wf q' ∧ contents q' = l
  end.
Proof.
  intros Hwf Hb. assert (Hl := contents_length q Hwf).
  assert (Hle : length (contents q) ≤ 1024) by (destruct Hwf; unfold QUEUE_SIZE in *; lia). split_and!; [done|..].
  - case_decide as Hd; [by apply giant_enqueue_full|]. destruct (giant_enqueue_append q k Hwf) as (q' & ? & ? & ? & _); [lia|done|eauto].
  - destruct (contents q) as [|k0 l] eqn:Hc; [by apply giant_dequeue_empty|].
    destruct (giant_dequeue_head q k0 l Hwf Hc) as (q' & ? & ? & ? & _). eauto.
Qed.

(** The program with the giant lock, with any number of producers and of keys
    whose product is an [int]: no step of any interleaving accesses memory
    outside its arrays or overflows, from every state all threads can finish,
    and when they have finished the consumers have got each key exactly once
    and [main] prints CORRECT. *)
Theorem giant_program_correct P N w :
  (Z.of_nat (P * N) ≤ INT_MAX)%Z → rtc (step N) (giant_main P N) w →
  (∀ tid e, thread_step N tid w ≠ Some (Err e)) ∧
  (finished N w → verify w = true ∧ dequeued w ≡ₚ seqZ 0 (Z.of_nat (P * N))) ∧
  ∃ w', rtc (step N) w w' ∧ finished N w'.
Proof.
  intros Hint Hr. assert (Hlimit : (Z.of_nat (P * N) + QUEUE_SIZE < 2 ^ 64)%Z) by (unfold INT_MAX, QUEUE_SIZE in *; lia).
  pose (laws := giant_laws (P * N) Hlimit). assert (H := queue_program_safe P N (Nat.le_refl _) Hint w Hr).
  assert (H' := queue_program_finishes P N (Nat.le_refl _) Hint w Hr). tauto.
Qed.

Lemma giant_fifo_witness :
  length (contents giant_init) = 0 ∧ giant_dequeue_step giant_init tt = Ok (giant_init, inl tt) ∧
  ∃ q', giant_enqueue_step giant_init 7 = Ok (q', None) ∧ wf q' ∧ contents q' = [7%Z].
Proof.
  split; [reflexivity|]. destruct (giant_fifo giant_init 7 giant_init_wf ltac:(done)) as (_ & H1 & H2). split; [exact H2|exact H1].
Defined.

(** One producer and one consumer, with two keys. *)
Definition giant_end : world := end_of 2 [1; 1; 0; 0; 1; 1; 0; 0; 1; 1; 1] (giant_main 1 2).

Lemma giant_program_correct_witness : finished 2 giant_end ∧ verify giant_end = true ∧ dequeued giant_end ≡ₚ [0; 1]%Z.
Proof.
  assert (Hfin : finished 2 giant_end) by (apply (bool_decide_unpack _); vm_compute; constructor). split; [exact Hfin|].
  destruct (giant_program_correct 1 2 giant_end) as (_ & H & _); [done| |exact (H Hfin)].
  apply run_threads_steps. vm_compute. reflexivity.
Defined.
