(* ===== verification/TicketQueue.v ===== *)
(** The bounded queue of [lab13/concurrent_queue.cpp], without locks: a call takes a
    ticket with an atomic addition, waits until the flag of its slot has the value
    for its ticket, and adds one to the flag when it is done. Each access to a
    slot is a step of its own. *)
From stdpp Require Import functions base tactics numbers option list list_numbers gmap sets relations sorting.
From Stdlib Require Import ZArith Lia.
From S2P Require Import Prelude QueueClient.

Definition QUEUE_SIZE : Z := 1024.

(** ** Operations *)

Record QueueNode : Type := mk_QueueNode { key : Z; flag : Z }.

Record ticket_queue : Type := mk_ticket_queue {
  nodes : list QueueNode;
  front : Z;
  rear : Z;
}.

(** The static array is zero. *)
Definition ticket_init : ticket_queue := mk_ticket_queue (replicate 1024 (mk_QueueNode 0 0)) 0 0.

(** int idx = ticket % QUEUE_SIZE; int round = ticket / QUEUE_SIZE; *)
Definition idx (ticket : Z) : Z := Z.rem ticket QUEUE_SIZE.
Definition round (ticket : Z) : Z := Z.quot ticket QUEUE_SIZE.

(** queue[idx] *)
Definition node_at (q : ticket_queue) (i : Z) : res QueueNode :=
  match array_get (nodes q) i with Some n => Ok n | None => Err UndefinedBehaviour end.

Definition set_node (q : ticket_queue) (i : Z) (n : QueueNode) : ticket_queue :=
  mk_ticket_queue (array_set (nodes q) i n) (front q) (rear q).

(** The points of [enqueue] after the ticket: the two tests of the loop condition,
    the store of the key, and the load and the store of flag++. *)
Inductive enqueue_pc : Type := ETest1 | ETest2 | EStore | EFlagLoad | EFlagStore (v : Z).

Record enqueue_call : Type := mk_enqueue_call { e_key : Z; e_ticket : Z; e_pc : enqueue_pc }.

Definition e_goto (l : enqueue_call) (p : enqueue_pc) : option enqueue_call := Some (mk_enqueue_call (e_key l) (e_ticket l) p).

Definition ticket_enqueue (q : ticket_queue) (k : Z) : ticket_queue * enqueue_call :=
  (mk_ticket_queue (nodes q) (front q) (wrap_u64 (rear q + 1)), mk_enqueue_call k (to_int (rear q)) ETest1).

Definition ticket_enqueue_step (q : ticket_queue) (l : enqueue_call) : res (ticket_queue * option enqueue_call) :=
  let i := idx (e_ticket l) in
  n ← node_at q i;
  match e_pc l with
  | ETest1 => Ok (q, e_goto l (if (Z.land (flag n) 1 =? 1)%Z then ETest1 else ETest2))
  | ETest2 => Ok (q, e_goto l (if (flag n =? round (e_ticket l) * 2)%Z then EStore else ETest1))
  | EStore => Ok (set_node q i (mk_QueueNode (e_key l) (flag n)), e_goto l EFlagLoad)
  | EFlagLoad => Ok (q, e_goto l (EFlagStore (flag n)))
  | EFlagStore v => v' ← int_arith (v + 1); Ok (set_node q i (mk_QueueNode (key n) v'), None)
  end.

(** The points of [dequeue]; [r] is [ret_key]. *)
Inductive dequeue_pc : Type :=
  DTest1 | DTest2 | DLoad | DClear (r : Z) | DFlagLoad (r : Z) | DFlagStore (r v : Z).

Record dequeue_call : Type := mk_dequeue_call { d_ticket : Z; d_pc : dequeue_pc }.

Definition d_goto (l : dequeue_call) (p : dequeue_pc) : dequeue_call + Z := inl (mk_dequeue_call (d_ticket l) p).

Definition ticket_dequeue (q : ticket_queue) : ticket_queue * dequeue_call :=
  (mk_ticket_queue (nodes q) (wrap_u64 (front q + 1)) (rear q), mk_dequeue_call (to_int (front q)) DTest1).

Definition ticket_dequeue_step (q : ticket_queue) (l : dequeue_call) : res (ticket_queue * (dequeue_call + Z)) :=
  let i := idx (d_ticket l) in
  n ← node_at q i;
  match d_pc l with
  | DTest1 => Ok (q, d_goto l (if (Z.land (flag n) 1 =? 0)%Z then DTest1 else DTest2))
  | DTest2 => Ok (q, d_goto l (if (flag n =? round (d_ticket l) * 2 + 1)%Z then DLoad else DTest1))
  | DLoad => Ok (q, d_goto l (DClear (key n)))
  | DClear r => Ok (set_node q i (mk_QueueNode 0 (flag n)), d_goto l (DFlagLoad r))
  | DFlagLoad r => Ok (q, d_goto l (DFlagStore r (flag n)))
  | DFlagStore r v => v' ← int_arith (v + 1); Ok (set_node q i (mk_QueueNode (key n) v'), inr r)
  end.

#[global] Instance ticket : QueueImpl := {|
  Q := ticket_queue; LE := enqueue_call; LD := dequeue_call;
  init_queue := ticket_init;
  enqueue := ticket_enqueue;
  enqueue_step := ticket_enqueue_step;
  dequeue := ticket_dequeue;
  dequeue_step := ticket_dequeue_step;
|}.

(** ** Tickets and slots *)

Definition flag_of (q : ticket_queue) (i : Z) : Z := default 0%Z (flag <$> array_get (nodes q) i).
Definition key_of (q : ticket_queue) (i : Z) : Z := default 0%Z (key <$> array_get (nodes q) i).

(** The calls with ticket [t] have changed the flag. *)
Definition enq_done (q : ticket_queue) (t : Z) : Prop := (round t * 2 < flag_of q (idx t))%Z.
Definition deq_done (q : ticket_queue) (t : Z) : Prop := (round t * 2 + 1 < flag_of q (idx t))%Z.

Lemma ticket_split t : (0 ≤ t)%Z → (t = 1024 * round t + idx t ∧ 0 ≤ idx t < 1024 ∧ 0 ≤ round t ∧ round t ≤ t)%Z.
Proof.
  intros Ht. unfold idx, round, QUEUE_SIZE. rewrite Z.rem_mod_nonneg, Z.quot_div_nonneg by lia.
  assert (H := Z.div_mod t 1024). assert (H' := Z.mod_pos_bound t 1024). lia.
Qed.

Lemma ticket_eq t u : (0 ≤ t)%Z → (0 ≤ u)%Z → idx t = idx u → round t = round u → t = u.
Proof. intros Ht Hu Hi Hr. destruct (ticket_split t Ht) as (H1 & _), (ticket_split u Hu) as (H2 & _). lia. Qed.

Lemma ticket_prev t : (1024 ≤ t)%Z → idx (t - 1024) = idx t ∧ round (t - 1024) = (round t - 1)%Z.
Proof.
  intros Ht. destruct (ticket_split t) as (H1 & H2 & _); [lia|]. destruct (ticket_split (t - 1024)) as (H3 & H4 & _); [lia|]. lia.
Qed.

(** The parity of a flag, as the loop conditions test it. *)
Lemma land_1 z : Z.land z 1 = (z mod 2)%Z.
Proof. change 1%Z with (Z.ones 1). by rewrite Z.land_ones. Qed.

Lemma flag_of_set q i j n :
  (0 ≤ i < Z.of_nat (length (nodes q)))%Z → flag_of (set_node q i n) j = if decide (i = j) then flag n else flag_of q j.
Proof.
  intros Hi. unfold flag_of, set_node. cbn [nodes]. case_decide as Hij; [subst; by rewrite array_get_set_eq|by rewrite array_get_set_ne].
Qed.

Lemma key_of_set q i j n :
  (0 ≤ i < Z.of_nat (length (nodes q)))%Z → key_of (set_node q i n) j = if decide (i = j) then key n else key_of q j.
Proof.
  intros Hi. unfold key_of, set_node. cbn [nodes]. case_decide as Hij; [subst; by rewrite array_get_set_eq|by rewrite array_get_set_ne].
Qed.

Lemma node_at_Ok q t :
  length (nodes q) = 1024 → (0 ≤ t)%Z → node_at q (idx t) = Ok (mk_QueueNode (key_of q (idx t)) (flag_of q (idx t))).
Proof.
  intros Hl Ht. destruct (ticket_split t Ht) as (_ & Hi & _). unfold node_at, key_of, flag_of.
  destruct (array_get_Some (nodes q) (idx t)) as [[k f] Hn]; [lia|]. by rewrite Hn.
Qed.

(** ** Invariant *)

(** What a call knows about its slot, by the point it has reached. *)
Definition e_holds (q : ticket_queue) (l : enqueue_call) : Prop :=
  let i := idx (e_ticket l) in
  match e_pc l with
  | ETest1 | ETest2 => True
  | EStore => flag_of q i = (round (e_ticket l) * 2)%Z
  | EFlagLoad => flag_of q i = (round (e_ticket l) * 2)%Z ∧ key_of q i = e_key l
  | EFlagStore v => flag_of q i = (round (e_ticket l) * 2)%Z ∧ key_of q i = e_key l ∧ v = flag_of q i
  end.

(** What [dequeue] will return. *)
Definition d_ret (l : dequeue_call) : option Z :=
  match d_pc l with DClear r | DFlagLoad r | DFlagStore r _ => Some r | _ => None end.

Definition d_holds (q : ticket_queue) (l : dequeue_call) : Prop :=
  let i := idx (d_ticket l) in
  match d_pc l with
  | DTest1 | DTest2 => True
  | DLoad | DClear _ | DFlagLoad _ => flag_of q i = (round (d_ticket l) * 2 + 1)%Z
  | DFlagStore _ v => flag_of q i = (round (d_ticket l) * 2 + 1)%Z ∧ v = flag_of q i
  end.

(** The call has cleared the key of its slot. *)
Definition past_clear (l : dequeue_call) : Prop := match d_pc l with DFlagLoad _ | DFlagStore _ _ => True | _ => False end.

Record enq_ok (q : ticket_queue) (E : list Z) (l : enqueue_call) : Prop := {
  eo_range : (0 ≤ e_ticket l < Z.of_nat (length E))%Z;
  eo_open : ¬ enq_done q (e_ticket l);
  eo_key : E !! Z.to_nat (e_ticket l) = Some (e_key l);
  eo_holds : e_holds q l;
}.

Record deq_ok (q : ticket_queue) (E : list Z) (d : nat) (l : dequeue_call) : Prop := {
  do_range : (0 ≤ d_ticket l < Z.of_nat d)%Z;
  do_open : ¬ deq_done q (d_ticket l);
  do_ret : ∀ r, d_ret l = Some r → E !! Z.to_nat (d_ticket l) = Some r;
  do_holds : d_holds q l;
}.

(** The keys of the tickets [T]. *)
Definition keys_at (E : list Z) (T : list nat) : list Z := (λ t, default 0%Z (E !! t)) <$> T.

Record ticket_rel (limit : nat) (q : ticket_queue) (pe : gmap nat enqueue_call) (pd : gmap nat dequeue_call)
    (E : list Z) (d : nat) (D : list Z) : Prop := {
  tr_nodes : length (nodes q) = 1024;
  tr_flags : ∀ i, (0 ≤ flag_of q i)%Z;
  tr_rear : rear q = Z.of_nat (length E);
  tr_front : front q = Z.of_nat d;
  tr_limit : length E ≤ limit ∧ d ≤ limit;
  tr_enq : ∀ u l, pe !! u = Some l → enq_ok q E l;
  tr_deq : ∀ u l, pd !! u = Some l → deq_ok q E d l;
  tr_enq_inj : ∀ u u' l l', pe !! u = Some l → pe !! u' = Some l' → e_ticket l = e_ticket l' → u = u';
  tr_deq_inj : ∀ u u' l l', pd !! u = Some l → pd !! u' = Some l' → d_ticket l = d_ticket l' → u = u';
  tr_enq_tickets : ∀ t, (0 ≤ t < Z.of_nat (length E))%Z → enq_done q t ∨ ∃ u l, pe !! u = Some l ∧ e_ticket l = t;
  tr_deq_tickets : ∀ t, (0 ≤ t < Z.of_nat d)%Z → deq_done q t ∨ ∃ u l, pd !! u = Some l ∧ d_ticket l = t;
  tr_enq_done : ∀ t, (0 ≤ t)%Z → enq_done q t → (t < Z.of_nat (length E))%Z;
  tr_deq_done : ∀ t, (0 ≤ t)%Z → deq_done q t → (t < Z.of_nat d)%Z;
  tr_data : ∀ t, (0 ≤ t)%Z → flag_of q (idx t) = (round t * 2 + 1)%Z →
    E !! Z.to_nat t = Some (key_of q (idx t)) ∨ ∃ u l, pd !! u = Some l ∧ d_ticket l = t ∧ past_clear l;
  tr_returned : ∃ T : list nat, NoDup T ∧ D = keys_at E T ∧ ∀ t : nat, t ∈ T ↔ deq_done q (Z.of_nat t);
  tr_count : length D + size pd = d;
}.

Section laws.
  Context (limit : nat) (Hlimit : (Z.of_nat limit ≤ INT_MAX)%Z).

Local Notation ticket_rel := (ticket_rel limit).

Lemma ticket_rel_init : ticket_rel ticket_init ∅ ∅ [] 0 [].
Proof.
  assert (Hf : ∀ i, flag_of ticket_init i = 0%Z).
  { intros i. unfold flag_of, array_get, ticket_init. cbn [nodes]. destruct (i <? 0)%Z; [done|].
    destruct (replicate 1024 _ !! _) as [n|] eqn:Hn; [|done]. by apply lookup_replicate in Hn as [-> _]. }
  assert (Hr : ∀ t, (0 ≤ t)%Z → (0 ≤ round t)%Z) by (intros t Ht; apply (ticket_split t Ht)).
  split; try done; [intros i; by rewrite Hf|split; simpl; lia|intros t Ht; simpl in *; lia|intros t Ht; simpl in *; lia|..].
  - intros t Ht Hd. unfold enq_done in Hd. rewrite Hf in Hd. specialize (Hr t Ht). lia.
  - intros t Ht Hd. unfold deq_done in Hd. rewrite Hf in Hd. specialize (Hr t Ht). lia.
  - intros t Ht Hd. rewrite Hf in Hd. specialize (Hr t Ht). lia.
  - exists []. split_and!; [constructor|done|]. intros t. split; [by intros ?%elem_of_nil|]. intros Hd. unfold deq_done in Hd.
    rewrite Hf in Hd. specialize (Hr (Z.of_nat t)). lia.
Qed.

(** *** A new ticket *)

Lemma enq_ok_grow q q' E k l : nodes q' = nodes q → enq_ok q E l → enq_ok q' (E ++ [k]) l.
Proof.
  intros Hn [H1 H2 H3 H4]. split; [rewrite length_app; simpl; lia| | |].
  - unfold enq_done, flag_of in *. by rewrite Hn.
  - by apply lookup_app_l_Some.
  - unfold e_holds, flag_of, key_of in *. by rewrite Hn.
Qed.

Lemma deq_ok_grow q q' E E' d d' l :
  nodes q' = nodes q → E `prefix_of` E' → d ≤ d' → deq_ok q E d l → deq_ok q' E' d' l.
Proof.
  intros Hn HE Hd [H1 H2 H3 H4]. split; [lia| | |].
  - unfold deq_done, flag_of in *. by rewrite Hn.
  - intros r Hr. by eapply prefix_lookup_Some, HE; apply H3.
  - unfold d_holds, flag_of in *. by rewrite Hn.
Qed.

Lemma keys_at_grow E k T : (∀ t, t ∈ T → t < length E) → keys_at (E ++ [k]) T = keys_at E T.
Proof. intros HT. apply list_fmap_ext. intros i t Ht. rewrite lookup_app_l; [done|]. apply HT. by eapply list_elem_of_lookup_2. Qed.

(** A dequeue is only done after the enqueue with the same ticket. *)
Lemma deq_enq_done q t : deq_done q t → enq_done q t.
Proof. unfold deq_done, enq_done. lia. Qed.

Lemma returned_tickets q pe pd E d D t : ticket_rel q pe pd E d D → deq_done q (Z.of_nat t) → t < length E.
Proof. intros Hrel Ht. apply deq_enq_done, (tr_enq_done _ _ _ _ _ _ _ Hrel) in Ht; lia. Qed.

Lemma ticket_rel_enqueue q pe pd E d D t k :
  ticket_rel q pe pd E d D → pe !! t = None → length E < limit →
  ticket_rel (ticket_enqueue q k).1 (<[t := (ticket_enqueue q k).2]> pe) pd (E ++ [k]) d D.
Proof.
  intros Hrel Ht Hlt. unfold ticket_enqueue. cbn [fst snd]. assert (Hr := tr_rear _ _ _ _ _ _ _ Hrel).
  rewrite Hr, to_int_id by (unfold INT_MIN, INT_MAX in *; lia). unfold wrap_u64. rewrite Z.mod_small by (unfold INT_MAX in *; lia).
  set (q' := mk_ticket_queue _ _ _). set (l := mk_enqueue_call _ _ _). assert (Hopen : ¬ enq_done q (Z.of_nat (length E))).
  { intros H%(tr_enq_done _ _ _ _ _ _ _ Hrel); lia. }
  assert (Hcase : ∀ u lu, <[t := l]> pe !! u = Some lu → u = t ∧ lu = l ∨ u ≠ t ∧ pe !! u = Some lu).
  { intros u lu [[-> ->]|[? ?]]%lookup_insert_Some; auto. }
  assert (Hnew : ∀ u lu, pe !! u = Some lu → e_ticket lu ≠ e_ticket l) by (intros u lu Hu; destruct (tr_enq _ _ _ _ _ _ _ Hrel u lu Hu); simpl; lia).
  split; try apply Hrel; cbn [front rear].
  - rewrite length_app. simpl. lia.
  - rewrite length_app. simpl. split; [lia|apply Hrel].
  - intros u lu [[-> ->]|[_ Hu]]%Hcase; [|apply (enq_ok_grow q); [done|]; by apply (tr_enq _ _ _ _ _ _ _ Hrel u)]. split; [rewrite length_app; simpl; lia|done| |done].
    simpl. by rewrite Nat2Z.id, list_lookup_middle.
  - intros u lu Hu. apply (deq_ok_grow q _ E _ d); [done|by exists [k]|done|]. by apply (tr_deq _ _ _ _ _ _ _ Hrel u).
  - intros u u' lu lu' [[-> ->]|[? Hu]]%Hcase [[-> ->]|[? Hu']]%Hcase He; [done| | |by eapply (tr_enq_inj _ _ _ _ _ _ _ Hrel)].
    + by destruct (Hnew u' lu').
    + by destruct (Hnew u lu).
  - intros v Hv. rewrite length_app in Hv. simpl in Hv. destruct (decide (v = Z.of_nat (length E))) as [->|Hne].
    + right. exists t, l. by rewrite lookup_insert_eq.
    + destruct (tr_enq_tickets _ _ _ _ _ _ _ Hrel v) as [?|(u & lu & Hu & <-)]; [lia|by left|]. right. exists u, lu.
      rewrite lookup_insert_ne; [done|congruence].
  - intros v Hv Hd. rewrite length_app. apply (tr_enq_done _ _ _ _ _ _ _ Hrel) in Hd; simpl; lia.
  - intros v Hv Hf. destruct (tr_data _ _ _ _ _ _ _ Hrel v Hv Hf) as [H|H]; [left; by apply lookup_app_l_Some|by right].
  - destruct (tr_returned _ _ _ _ _ _ _ Hrel) as (T & H1 & -> & H3). exists T. split_and!; [done| |done].
    symmetry. apply keys_at_grow. intros u Hu. by eapply returned_tickets, H3.
Qed.

Lemma ticket_rel_dequeue q pe pd E d D t :
  ticket_rel q pe pd E d D → pd !! t = None → d < limit →
  ticket_rel (ticket_dequeue q).1 pe (<[t := (ticket_dequeue q).2]> pd) E (S d) D.
Proof.
  intros Hrel Ht Hlt. unfold ticket_dequeue. cbn [fst snd]. assert (Hr := tr_front _ _ _ _ _ _ _ Hrel).
  rewrite Hr, to_int_id by (unfold INT_MIN, INT_MAX in *; lia). unfold wrap_u64. rewrite Z.mod_small by (unfold INT_MAX in *; lia).
  set (q' := mk_ticket_queue _ _ _). set (l := mk_dequeue_call _ _). assert (Hopen : ¬ deq_done q (Z.of_nat d)).
  { intros H%(tr_deq_done _ _ _ _ _ _ _ Hrel); lia. }
  assert (Hcase : ∀ u lu, <[t := l]> pd !! u = Some lu → u = t ∧ lu = l ∨ u ≠ t ∧ pd !! u = Some lu).
  { intros u lu [[-> ->]|[? ?]]%lookup_insert_Some; auto. }
  assert (Hnew : ∀ u lu, pd !! u = Some lu → d_ticket lu ≠ d_ticket l) by (intros u lu Hu; destruct (tr_deq _ _ _ _ _ _ _ Hrel u lu Hu); simpl; lia).
  assert (Hkeep : ∀ u lu, pd !! u = Some lu → <[t := l]> pd !! u = Some lu) by (intros u lu Hu; rewrite lookup_insert_ne; [done|congruence]).
  split; try apply Hrel; cbn [front rear]; try lia.
  - simpl. lia.
  - split; [apply Hrel|lia].
  - intros u lu Hu. destruct (tr_enq _ _ _ _ _ _ _ Hrel u lu Hu). by split.
  - intros u lu [[-> ->]|[_ Hu]]%Hcase; [split; [simpl; lia|done|done|done]|]. apply (deq_ok_grow q _ E _ d); [done|done|lia|]. by apply (tr_deq _ _ _ _ _ _ _ Hrel u).
  - intros u u' lu lu' [[-> ->]|[? Hu]]%Hcase [[-> ->]|[? Hu']]%Hcase He; [done| | |by eapply (tr_deq_inj _ _ _ _ _ _ _ Hrel)].
    + by destruct (Hnew u' lu').
    + by destruct (Hnew u lu).
  - intros v Hv. destruct (decide (v = Z.of_nat d)) as [->|Hne].
    + right. exists t, l. by rewrite lookup_insert_eq.
    + destruct (tr_deq_tickets _ _ _ _ _ _ _ Hrel v) as [?|(u & lu & Hu & <-)]; [lia|by left|]. right. exists u, lu. auto.
  - intros v Hv Hd. apply (tr_deq_done _ _ _ _ _ _ _ Hrel) in Hd; lia.
  - intros v Hv Hf. destruct (tr_data _ _ _ _ _ _ _ Hrel v Hv Hf) as [H|(u & lu & Hu & H)]; [by left|right; eauto].
  - rewrite map_size_insert_None by done. assert (H := tr_count _ _ _ _ _ _ _ Hrel). lia.
Qed.

(** *** Steps that change no slot *)

Lemma ticket_enq_local q pe pd E d D u l l' :
  ticket_rel q pe pd E d D → pe !! u = Some l → e_ticket l' = e_ticket l → e_key l' = e_key l → e_holds q l' →
  ticket_rel q (<[u := l']> pe) pd E d D.
Proof.
  intros Hrel Hu Ht Hk Hh. assert (Hl := tr_enq _ _ _ _ _ _ _ Hrel u l Hu). split; try apply Hrel.
  - intros v lv [[<- <-]|[_ Hv]]%lookup_insert_Some; [|by eapply tr_enq]. destruct Hl. split; rewrite ?Ht, ?Hk; done.
  - assert (Hinj := tr_enq_inj _ _ _ _ _ _ _ Hrel).
    intros v v' lv lv' [[<- <-]|[? Hv]]%lookup_insert_Some [[<- <-]|[? Hv']]%lookup_insert_Some He; [done| | |by eapply Hinj].
    + eapply Hinj; [exact Hu|exact Hv'|congruence].
    + eapply Hinj; [exact Hv|exact Hu|congruence].
  - intros t Hr. destruct (tr_enq_tickets _ _ _ _ _ _ _ Hrel t Hr) as [?|(v & lv & Hv & <-)]; [by left|right].
    destruct (decide (u = v)) as [<-|Hne]; [exists u, l'; rewrite lookup_insert_eq; split; [done|congruence]|].
    exists v, lv. by rewrite lookup_insert_ne.
Qed.

Lemma ticket_deq_local q pe pd E d D u l l' :
  ticket_rel q pe pd E d D → pd !! u = Some l → d_ticket l' = d_ticket l → (past_clear l → past_clear l') → deq_ok q E d l' →
  ticket_rel q pe (<[u := l']> pd) E d D.
Proof.
  intros Hrel Hu Ht Hpast Hl'. split; try apply Hrel.
  - intros v lv [[<- <-]|[_ Hv]]%lookup_insert_Some; [done|]. by eapply tr_deq.
  - assert (Hinj := tr_deq_inj _ _ _ _ _ _ _ Hrel).
    intros v v' lv lv' [[<- <-]|[? Hv]]%lookup_insert_Some [[<- <-]|[? Hv']]%lookup_insert_Some He; [done| | |by eapply Hinj].
    + eapply Hinj; [exact Hu|exact Hv'|congruence].
    + eapply Hinj; [exact Hv|exact Hu|congruence].
  - intros t Hr. destruct (tr_deq_tickets _ _ _ _ _ _ _ Hrel t Hr) as [?|(v & lv & Hv & <-)]; [by left|right].
    destruct (decide (u = v)) as [<-|Hne]; [exists u, l'; rewrite lookup_insert_eq; split; [done|congruence]|].
    exists v, lv. by rewrite lookup_insert_ne.
  - intros t Hr Hf. destruct (tr_data _ _ _ _ _ _ _ Hrel t Hr Hf) as [?|(v & lv & Hv & <- & Hp)]; [by left|right].
    destruct (decide (u = v)) as [<-|Hne]; [exists u, l'; rewrite lookup_insert_eq; split_and!; [done|congruence|]|].
    + apply Hpast. by simplify_eq.
    + exists v, lv. by rewrite lookup_insert_ne.
  - rewrite map_size_insert_Some by eauto. apply Hrel.
Qed.

(** *** Steps that change the key of a slot *)

(** The flag of a slot says which call it belongs to. *)
Lemma enq_owner q pe pd E d D u l u' l' :
  ticket_rel q pe pd E d D → pe !! u = Some l → pe !! u' = Some l' → u' ≠ u →
  flag_of q (idx (e_ticket l)) = (round (e_ticket l) * 2)%Z → flag_of q (idx (e_ticket l')) = (round (e_ticket l') * 2)%Z →
  idx (e_ticket l') ≠ idx (e_ticket l).
Proof.
  intros Hrel Hu Hu' Hne Hf Hf' Hi. apply Hne. eapply (tr_enq_inj _ _ _ _ _ _ _ Hrel); [done..|].
  destruct (tr_enq _ _ _ _ _ _ _ Hrel u l Hu), (tr_enq _ _ _ _ _ _ _ Hrel u' l' Hu'). apply ticket_eq; [lia|lia|done|]. rewrite Hi in Hf'. lia.
Qed.

(** Changing the key of a slot whose flag is even or belongs to the own call. *)
Lemma ticket_set_key q pe pd E d D i k :
  ticket_rel q pe pd E d D → (0 ≤ i < 1024)%Z →
  (∀ u l, pe !! u = Some l → idx (e_ticket l) = i → match e_pc l with EFlagLoad | EFlagStore _ => False | _ => True end) →
  (∀ t, (0 ≤ t)%Z → idx t = i → flag_of q i = (round t * 2 + 1)%Z → ∃ u l, pd !! u = Some l ∧ d_ticket l = t ∧ past_clear l) →
  ticket_rel (set_node q i (mk_QueueNode k (flag_of q i))) pe pd E d D.
Proof.
  intros Hrel Hi Henq Hdeq. assert (Hl := tr_nodes _ _ _ _ _ _ _ Hrel). set (q' := set_node _ _ _).
  assert (Hf : ∀ j, flag_of q' j = flag_of q j) by (intros j; unfold q'; rewrite flag_of_set by lia; case_decide; by subst).
  assert (He : ∀ t, enq_done q' t ↔ enq_done q t) by (intros t; unfold enq_done; by rewrite Hf).
  assert (Hd : ∀ t, deq_done q' t ↔ deq_done q t) by (intros t; unfold deq_done; by rewrite Hf).
  assert (Hk : ∀ j, i ≠ j → key_of q' j = key_of q j) by (intros j Hj; unfold q'; rewrite key_of_set by lia; by rewrite decide_False).
  split; try apply Hrel; try (setoid_rewrite He; apply Hrel); try (setoid_rewrite Hd; apply Hrel).
  - unfold q'. simpl. by rewrite length_array_set.
  - intros j. rewrite Hf. apply Hrel.
  - intros u l Hu. destruct (tr_enq _ _ _ _ _ _ _ Hrel u l Hu) as [H1 H2 H3 H4]. split; [done|by rewrite He|done|].
    specialize (Henq u l Hu). unfold e_holds in *. destruct (e_pc l); rewrite ?Hf; try done; (rewrite Hk; [done|]; by intros ->; apply Henq).
  - intros u l Hu. destruct (tr_deq _ _ _ _ _ _ _ Hrel u l Hu) as [H1 H2 H3 H4]. split; [done|by rewrite Hd|done|].
    unfold d_holds in *. destruct (d_pc l); by rewrite ?Hf.
  - intros t Ht Hft. rewrite Hf in Hft. destruct (decide (i = idx t)) as [->|Hne]; [right; by apply Hdeq|]. rewrite Hk by done. by apply Hrel.
Qed.

(** *** Steps that change the flag of a slot *)

Definition bump (q : ticket_queue) (t : Z) : ticket_queue :=
  set_node q (idx t) (mk_QueueNode (key_of q (idx t)) (flag_of q (idx t) + 1)).

Lemma bump_facts q t :
  length (nodes q) = 1024 → (0 ≤ t)%Z →
  (∀ j, flag_of (bump q t) j = if decide (idx t = j) then flag_of q j + 1 else flag_of q j)%Z ∧ ∀ j, key_of (bump q t) j = key_of q j.
Proof.
  intros Hl Ht. destruct (ticket_split t Ht) as (_ & Hi & _). unfold bump. split; intros j.
  - rewrite flag_of_set by lia. by case_decide; subst.
  - rewrite key_of_set by lia. by case_decide; subst.
Qed.

Lemma bump_enq_done q t :
  length (nodes q) = 1024 → (0 ≤ t)%Z → flag_of q (idx t) = (round t * 2)%Z →
  (∀ v, (0 ≤ v)%Z → enq_done (bump q t) v ↔ enq_done q v ∨ v = t) ∧ ∀ v, deq_done (bump q t) v ↔ deq_done q v.
Proof.
  intros Hl Ht Hf. destruct (bump_facts q t Hl Ht) as [HF _]. unfold enq_done, deq_done. split; intros v; rewrite HF.
  - intros Hv. case_decide as Hi; [|split; [by left|]; intros [?| ->]; done]. rewrite <- Hi, Hf. split.
    + intros Hlt. destruct (decide (round v = round t)) as [He|He]; [right; by apply ticket_eq|left; lia].
    + intros [?| ->]; lia.
  - case_decide as Hi; [|done]. rewrite <- Hi, Hf. lia.
Qed.

Lemma bump_deq_done q t :
  length (nodes q) = 1024 → (0 ≤ t)%Z → flag_of q (idx t) = (round t * 2 + 1)%Z →
  (∀ v, (0 ≤ v)%Z → deq_done (bump q t) v ↔ deq_done q v ∨ v = t) ∧ ∀ v, enq_done (bump q t) v ↔ enq_done q v.
Proof.
  intros Hl Ht Hf. destruct (bump_facts q t Hl Ht) as [HF _]. unfold enq_done, deq_done. split; intros v; rewrite HF.
  - intros Hv. case_decide as Hi; [|split; [by left|]; intros [?| ->]; done]. rewrite <- Hi, Hf. split.
    + intros Hlt. destruct (decide (round v = round t)) as [He|He]; [right; by apply ticket_eq|left; lia].
    + intros [?| ->]; lia.
  - case_decide as Hi; [|done]. rewrite <- Hi, Hf. lia.
Qed.

(** What the other calls know about their slots still holds. *)
Lemma bump_e_holds q t l :
  length (nodes q) = 1024 → (0 ≤ t)%Z →
  (e_pc l ≠ ETest1 → e_pc l ≠ ETest2 → idx (e_ticket l) ≠ idx t) → e_holds q l → e_holds (bump q t) l.
Proof.
  intros Hl Ht Hne Hh. destruct (bump_facts q t Hl Ht) as [HF HK]. unfold e_holds in *. destruct (e_pc l); try done;
    rewrite HF, ?HK, decide_False; try done; apply not_eq_sym; by apply Hne.
Qed.

Lemma bump_d_holds q t l :
  length (nodes q) = 1024 → (0 ≤ t)%Z →
  (d_pc l ≠ DTest1 → d_pc l ≠ DTest2 → idx (d_ticket l) ≠ idx t) → d_holds q l → d_holds (bump q t) l.
Proof.
  intros Hl Ht Hne Hh. destruct (bump_facts q t Hl Ht) as [HF HK]. unfold d_holds in *. destruct (d_pc l); try done;
    rewrite HF, decide_False; try done; apply not_eq_sym; by apply Hne.
Qed.

(** A call past the tests has the flag of its ticket. *)
Lemma e_holds_flag q l :
  e_holds q l → e_pc l ≠ ETest1 → e_pc l ≠ ETest2 → flag_of q (idx (e_ticket l)) = (round (e_ticket l) * 2)%Z.
Proof. unfold e_holds. destruct (e_pc l); naive_solver. Qed.

Lemma d_holds_flag q l :
  d_holds q l → d_pc l ≠ DTest1 → d_pc l ≠ DTest2 → flag_of q (idx (d_ticket l)) = (round (d_ticket l) * 2 + 1)%Z.
Proof. unfold d_holds. destruct (d_pc l); naive_solver. Qed.

Lemma ticket_enq_finish q pe pd E d D u l :
  ticket_rel q pe pd E d D → pe !! u = Some l → flag_of q (idx (e_ticket l)) = (round (e_ticket l) * 2)%Z →
  key_of q (idx (e_ticket l)) = e_key l → ticket_rel (bump q (e_ticket l)) (delete u pe) pd E d D.
Proof.
  intros Hrel Hu Hf Hk. assert (Hn := tr_nodes _ _ _ _ _ _ _ Hrel). destruct (tr_enq _ _ _ _ _ _ _ Hrel u l Hu) as [Hr Ho HE _].
  assert (Ht : (0 ≤ e_ticket l)%Z) by lia. destruct (bump_facts q _ Hn Ht) as [HF HK]. destruct (bump_enq_done q _ Hn Ht Hf) as [He Hd].
  assert (Hinj := tr_enq_inj _ _ _ _ _ _ _ Hrel).
  split; try apply Hrel; try (setoid_rewrite Hd; apply Hrel).
  - unfold bump. simpl. by rewrite length_array_set.
  - intros j. rewrite HF. assert (H := tr_flags _ _ _ _ _ _ _ Hrel j). case_decide; lia.
  - intros v lv [Hne Hv]%lookup_delete_Some. destruct (tr_enq _ _ _ _ _ _ _ Hrel v lv Hv) as [H1 H2 H3 H4].
    split; [done| |done|].
    + rewrite He by lia. intros [?|Heq]; [done|]. by apply Hne, (Hinj u v l lv).
    + apply bump_e_holds; try done. intros Hp1 Hp2. eapply enq_owner; try done. by apply e_holds_flag.
  - intros v lv Hv. destruct (tr_deq _ _ _ _ _ _ _ Hrel v lv Hv) as [H1 H2 H3 H4]. split; [done|by rewrite Hd|done|].
    apply bump_d_holds; try done. intros Hp1 Hp2 Hi. assert (H5 := d_holds_flag _ _ H4 Hp1 Hp2). rewrite Hi in H5. lia.
  - intros v v' lv lv' [_ Hv]%lookup_delete_Some [_ Hv']%lookup_delete_Some. by apply Hinj.
  - intros v Hv. rewrite He by lia. destruct (decide (v = e_ticket l)) as [?|Hne]; [by left; right|].
    destruct (tr_enq_tickets _ _ _ _ _ _ _ Hrel v Hv) as [?|(w & lw & Hw & <-)]; [by left; left|right].
    exists w, lw. rewrite lookup_delete_ne; [done|]. intros <-. simplify_eq.
  - intros v Hv [Hv'| ->]%He; [by apply (tr_enq_done _ _ _ _ _ _ _ Hrel)|lia|done].
  - intros v Hv Hfv. rewrite HK. rewrite HF in Hfv. case_decide as Hi; [|by apply Hrel]. rewrite <- Hi, Hf in Hfv.
    assert (v = e_ticket l) as -> by (apply ticket_eq; [done..|lia]). left. by rewrite Hk.
Qed.

Lemma keys_at_app E T t k : E !! t = Some k → keys_at E T ++ [k] = keys_at E (T ++ [t]).
Proof. intros Ht. unfold keys_at. rewrite fmap_app. simpl. by rewrite Ht. Qed.

Lemma ticket_deq_finish q pe pd E d D u l r :
  ticket_rel q pe pd E d D → pd !! u = Some l → flag_of q (idx (d_ticket l)) = (round (d_ticket l) * 2 + 1)%Z →
  d_ret l = Some r → r ∈ E ∧ ticket_rel (bump q (d_ticket l)) pe (delete u pd) E d (D ++ [r]).
Proof.
  intros Hrel Hu Hf Hret. assert (Hn := tr_nodes _ _ _ _ _ _ _ Hrel). destruct (tr_deq _ _ _ _ _ _ _ Hrel u l Hu) as [Hr Ho HE _].
  specialize (HE r Hret). split; [by eapply list_elem_of_lookup_2|].
  assert (Ht : (0 ≤ d_ticket l)%Z) by lia. destruct (bump_facts q _ Hn Ht) as [HF HK]. destruct (bump_deq_done q _ Hn Ht Hf) as [Hd He].
  assert (Hinj := tr_deq_inj _ _ _ _ _ _ _ Hrel).
  split; try apply Hrel; try (setoid_rewrite He; apply Hrel).
  - unfold bump. simpl. by rewrite length_array_set.
  - intros j. rewrite HF. assert (H := tr_flags _ _ _ _ _ _ _ Hrel j). case_decide; lia.
  - intros v lv Hv. destruct (tr_enq _ _ _ _ _ _ _ Hrel v lv Hv) as [H1 H2 H3 H4]. split; [done|by rewrite He|done|].
    apply bump_e_holds; try done. intros Hp1 Hp2 Hi. assert (H5 := e_holds_flag _ _ H4 Hp1 Hp2). rewrite Hi in H5. lia.
  - intros v lv [Hne Hv]%lookup_delete_Some. destruct (tr_deq _ _ _ _ _ _ _ Hrel v lv Hv) as [H1 H2 H3 H4].
    assert (Hne' : d_ticket lv ≠ d_ticket l) by (intros Heq; by apply Hne, (Hinj u v l lv)).
    split; [done|rewrite Hd by lia; by intros [?|?]|done|].
    apply bump_d_holds; try done. intros Hp1 Hp2 Hi. assert (H5 := d_holds_flag _ _ H4 Hp1 Hp2). rewrite Hi in H5.
    apply Hne', ticket_eq; [lia|done|done|lia].
  - intros v v' lv lv' [_ Hv]%lookup_delete_Some [_ Hv']%lookup_delete_Some. by apply Hinj.
  - intros v Hv. rewrite Hd by lia. destruct (decide (v = d_ticket l)) as [?|Hne]; [by left; right|].
    destruct (tr_deq_tickets _ _ _ _ _ _ _ Hrel v Hv) as [?|(w & lw & Hw & <-)]; [by left; left|right].
    exists w, lw. rewrite lookup_delete_ne; [done|]. intros <-. simplify_eq.
  - intros v Hv [Hv'| ->]%Hd; [by apply (tr_deq_done _ _ _ _ _ _ _ Hrel)|lia|done].
  - intros v Hv Hfv. rewrite HK. rewrite HF in Hfv. case_decide as Hi; [rewrite <- Hi in Hfv; lia|].
    destruct (tr_data _ _ _ _ _ _ _ Hrel v Hv Hfv) as [?|(w & lw & Hw & <- & Hp)]; [by left|right].
    exists w, lw. rewrite lookup_delete_ne; [done|]. intros <-. simplify_eq.
  - destruct (tr_returned _ _ _ _ _ _ _ Hrel) as (T & H1 & -> & H3). exists (T ++ [Z.to_nat (d_ticket l)]). split_and!.
    + apply NoDup_app. split_and!; [done| |apply NoDup_singleton]. intros x Hx%H3 ->%list_elem_of_singleton. by rewrite Z2Nat.id in Hx.
    + by apply keys_at_app.
    + intros x. rewrite elem_of_app, H3, list_elem_of_singleton, Hd by lia. split; intros [?|?]; auto; right; lia.
  - rewrite length_app, map_size_delete_Some by eauto. assert (H := tr_count _ _ _ _ _ _ _ Hrel).
    assert (size pd ≠ 0) by (intros Hz%map_size_empty_iff; by rewrite Hz in Hu). simpl. lia.
Qed.

(** *** All steps *)

Lemma ticket_store q pe pd E d D u l :
  ticket_rel q pe pd E d D → pe !! u = Some l → e_pc l = EStore → 
  ticket_rel (set_node q (idx (e_ticket l)) (mk_QueueNode (e_key l) (flag_of q (idx (e_ticket l)))))
    (<[u := mk_enqueue_call (e_key l) (e_ticket l) EFlagLoad]> pe) pd E d D.
Proof.
  intros Hrel Hu Hpc. destruct (tr_enq _ _ _ _ _ _ _ Hrel u l Hu) as [Hr _ _ Hh]. destruct (ticket_split (e_ticket l)) as (_ & Hi & _); [lia|].
  assert (Hf : flag_of q (idx (e_ticket l)) = (round (e_ticket l) * 2)%Z) by (by apply e_holds_flag; rewrite ?Hpc).
  eapply ticket_enq_local; [|exact Hu|done|done|].
  - apply ticket_set_key; [done|done|..].
    + intros v lv Hv Hiv. destruct (decide (v = u)) as [->|Hne]; [simplify_eq; by rewrite Hpc|].
      destruct (tr_enq _ _ _ _ _ _ _ Hrel v lv Hv) as [_ _ _ Hhv].
      destruct (e_pc lv) eqn:Hpv; try done; exfalso; (eapply (enq_owner q pe pd E d D u l v lv); try done; by apply e_holds_flag; rewrite ?Hpv).
    + intros t Ht Hit Hft. lia.
  - assert (Hn := tr_nodes _ _ _ _ _ _ _ Hrel). unfold e_holds. cbn [e_ticket e_pc e_key].
    rewrite flag_of_set, key_of_set, !decide_True by (done || lia). done.
Qed.

Lemma ticket_clear q pe pd E d D u l r :
  ticket_rel q pe pd E d D → pd !! u = Some l → d_pc l = DClear r →
  ticket_rel (set_node q (idx (d_ticket l)) (mk_QueueNode 0 (flag_of q (idx (d_ticket l)))))
    pe (<[u := mk_dequeue_call (d_ticket l) (DFlagLoad r)]> pd) E d D.
Proof.
  intros Hrel Hu Hpc. destruct (tr_deq _ _ _ _ _ _ _ Hrel u l Hu) as [Hr Ho Hret Hh]. destruct (ticket_split (d_ticket l)) as (_ & Hi & _); [lia|].
  assert (Hf : flag_of q (idx (d_ticket l)) = (round (d_ticket l) * 2 + 1)%Z) by (by apply d_holds_flag; rewrite ?Hpc).
  apply ticket_set_key; [|done|..].
  - eapply ticket_deq_local; [done|exact Hu|done|done|]. split; [done|done| |done].
    intros r' [= <-]. apply Hret. unfold d_ret. by rewrite Hpc.
  - intros v lv Hv Hiv. destruct (tr_enq _ _ _ _ _ _ _ Hrel v lv Hv) as [_ _ _ Hhv].
    destruct (e_pc lv) eqn:Hpv; try done; (assert (H := e_holds_flag _ _ Hhv); rewrite Hpv, Hiv in H; specialize (H ltac:(done) ltac:(done)); lia).
  - intros t Ht Hit Hft. exists u, (mk_dequeue_call (d_ticket l) (DFlagLoad r)). rewrite lookup_insert_eq.
    split_and!; [done| |done]. apply ticket_eq; [simpl; lia|done|done|simpl; lia].
Qed.

Lemma flag_bound t : (0 ≤ t < INT_MAX)%Z → (INT_MIN < round t * 2 ∧ round t * 2 + 1 + 1 ≤ INT_MAX)%Z.
Proof. intros Ht. destruct (ticket_split t) as (? & ? & ? & ?); [lia|]. unfold INT_MIN, INT_MAX in *. lia. Qed.

Lemma ticket_rel_enqueue_step q pe pd E d D u l :
  ticket_rel q pe pd E d D → pe !! u = Some l →
  ∃ q' o, ticket_enqueue_step q l = Ok (q', o) ∧ ticket_rel q' (partial_alter (λ _, o) u pe) pd E d D.
Proof.
  intros Hrel Hu. destruct (tr_enq _ _ _ _ _ _ _ Hrel u l Hu) as [Hr _ _ Hh]. unfold ticket_enqueue_step.
  rewrite node_at_Ok by (apply Hrel || lia). cbn [mbind res_bind flag key]. unfold e_holds in Hh.
  assert (Hloc : ∀ p, e_holds q (mk_enqueue_call (e_key l) (e_ticket l) p) → ∃ q' o, Ok (q, e_goto l p) = Ok (q', o) ∧
    ticket_rel q' (partial_alter (λ _, o) u pe) pd E d D).
  { intros p Hp. eexists _, _. split; [reflexivity|]. by eapply ticket_enq_local. }
  assert (Hlim : (e_ticket l < INT_MAX)%Z) by (assert (H := tr_limit _ _ _ _ _ _ _ Hrel); lia).
  destruct (e_pc l) eqn:Hpc.
  - apply Hloc. by destruct (_ =? _)%Z.
  - apply Hloc. destruct (Z.eqb_spec (flag_of q (idx (e_ticket l))) (round (e_ticket l) * 2)); done.
  - eexists _, _. split; [reflexivity|]. by apply ticket_store.
  - apply Hloc. destruct Hh. done.
  - destruct Hh as (Hf & Hk & ->). assert (Hb := flag_bound (e_ticket l) ltac:(lia)). rewrite int_arith_Ok by lia.
    eexists _, _. split; [reflexivity|]. by apply (ticket_enq_finish q pe pd E d D u l).
Qed.

Lemma ticket_rel_dequeue_step q pe pd E d D u l :
  ticket_rel q pe pd E d D → pd !! u = Some l →
  ∃ q' o, ticket_dequeue_step q l = Ok (q', o) ∧
    match o with
    | inl l' => ticket_rel q' pe (<[u := l']> pd) E d D
    | inr k => k ∈ E ∧ ticket_rel q' pe (delete u pd) E d (D ++ [k])
    end.
Proof.
  intros Hrel Hu. destruct (tr_deq _ _ _ _ _ _ _ Hrel u l Hu) as [Hr Ho Hret Hh]. unfold ticket_dequeue_step.
  rewrite node_at_Ok by (apply Hrel || lia). cbn [mbind res_bind flag key]. unfold d_holds in Hh. unfold d_ret in Hret.
  assert (Hloc : ∀ p, (past_clear l → past_clear (mk_dequeue_call (d_ticket l) p)) → deq_ok q E d (mk_dequeue_call (d_ticket l) p) →
    ∃ q' o, Ok (q, d_goto l p) = Ok (q', o) ∧ match o with inl l' => ticket_rel q' pe (<[u := l']> pd) E d D
      | inr k => k ∈ E ∧ ticket_rel q' pe (delete u pd) E d (D ++ [k]) end).
  { intros p Hpast Hp. eexists _, _. split; [reflexivity|]. by eapply ticket_deq_local. }
  assert (Hlim : (d_ticket l < INT_MAX)%Z) by (assert (H := tr_limit _ _ _ _ _ _ _ Hrel); lia).
  destruct (d_pc l) as [| | |r|r|r v] eqn:Hpc.
  - apply Hloc; [unfold past_clear; by rewrite Hpc|]. by destruct (_ =? _)%Z; split.
  - apply Hloc; [unfold past_clear; by rewrite Hpc|]. destruct (Z.eqb_spec (flag_of q (idx (d_ticket l))) (round (d_ticket l) * 2 + 1)); by split.
  - apply Hloc; [unfold past_clear; by rewrite Hpc|]. split; [done|done| |done]. intros r [= <-].
    destruct (tr_data _ _ _ _ _ _ _ Hrel (d_ticket l)) as [?|(v & lv & Hv & Heq & Hp)]; [lia|done|done|].
    assert (v = u) as -> by (by eapply (tr_deq_inj _ _ _ _ _ _ _ Hrel)). unfold past_clear in Hp. simplify_eq. by rewrite Hpc in Hp.
  - eexists _, _. split; [reflexivity|]. by apply ticket_clear.
  - apply Hloc; [done|]. split; [done|done|exact Hret|by split].
  - destruct Hh as (Hf & ->). assert (Hb := flag_bound (d_ticket l) ltac:(lia)). rewrite int_arith_Ok by lia.
    eexists _, (inr r). split; [reflexivity|]. apply (ticket_deq_finish q pe pd E d D u l r); try done. unfold d_ret. by rewrite Hpc.
Qed.

(** *** The end and progress *)

Lemma keys_at_all E : keys_at E (seq 0 (length E)) = E.
Proof.
  apply list_eq. intros i. unfold keys_at. rewrite list_lookup_fmap. destruct (decide (i < length E)) as [Hi|Hi].
  - rewrite lookup_seq_lt by done. simpl. destruct (lookup_lt_is_Some_2 E i Hi) as [k Hk]. by rewrite Hk.
  - rewrite (lookup_ge_None_2 E), lookup_ge_None_2; [done|rewrite length_seq; lia|lia].
Qed.

Lemma ticket_done q E d D : ticket_rel q ∅ ∅ E d D → length E = d → D ≡ₚ E.
Proof.
  intros Hrel Hd. destruct (tr_returned _ _ _ _ _ _ _ Hrel) as (T & H1 & -> & H3).
  assert (HT : T ≡ₚ seq 0 (length E)).
  { apply NoDup_Permutation; [done|apply NoDup_seq|]. intros t. rewrite H3, elem_of_seq. split.
    - intros Ht. split; [lia|]. by eapply returned_tickets.
    - intros Ht. destruct (tr_deq_tickets _ _ _ _ _ _ _ Hrel (Z.of_nat t)) as [?|(u & l & Hu & _)]; [lia|done|]. by rewrite lookup_empty in Hu. }
  rewrite <- (keys_at_all E) at 2. unfold keys_at. by rewrite HT.
Qed.

(** The call with the smallest key of a map. *)
Lemma map_minimal {A} (f : A → Z) (m : gmap nat A) :
  m = ∅ ∨ ∃ u l, m !! u = Some l ∧ ∀ v lv, m !! v = Some lv → (f l ≤ f lv)%Z.
Proof.
  induction m as [|u l m Hu IH] using map_ind; [by left|right]. destruct IH as [->|(v & lv & Hv & Hmin)].
  - exists u, l. rewrite lookup_insert_eq. split; [done|]. intros v lv [[<- <-]|[_ Hv]]%lookup_insert_Some; [lia|]. by rewrite lookup_empty in Hv.
  - destruct (decide (f l ≤ f lv)%Z) as [Hle|Hgt].
    + exists u, l. rewrite lookup_insert_eq. split; [done|]. intros w lw [[<- <-]|[_ Hw]]%lookup_insert_Some; [lia|].
      specialize (Hmin w lw Hw). lia.
    + exists v, lv. rewrite lookup_insert_ne by congruence. split; [done|].
      intros w lw [[<- <-]|[_ Hw]]%lookup_insert_Some; [lia|by eapply Hmin].
Qed.

Definition e_measure (l : enqueue_call) : nat :=
  match e_pc l with ETest1 => 4 | ETest2 => 3 | EStore => 2 | EFlagLoad => 1 | EFlagStore _ => 0 end.
Definition d_measure (l : dequeue_call) : nat :=
  match d_pc l with DTest1 => 5 | DTest2 => 4 | DLoad => 3 | DClear _ => 2 | DFlagLoad _ => 1 | DFlagStore _ _ => 0 end.

Lemma enq_advances q pe pd E d D u l :
  ticket_rel q pe pd E d D → pe !! u = Some l → flag_of q (idx (e_ticket l)) = (round (e_ticket l) * 2)%Z →
  ∃ q' o, ticket_enqueue_step q l = Ok (q', o) ∧ ∀ l', o = Some l' → e_measure l' < e_measure l.
Proof.
  intros Hrel Hu Hf. destruct (ticket_rel_enqueue_step q pe pd E d D u l Hrel Hu) as (q' & o & Hs & _). exists q', o. split; [done|].
  destruct (tr_enq _ _ _ _ _ _ _ Hrel u l Hu) as [Hr _ _ Hh]. unfold ticket_enqueue_step in Hs.
  rewrite node_at_Ok in Hs by (apply Hrel || lia). cbn [mbind res_bind flag key] in Hs. intros l' ->. unfold e_measure.
  destruct (e_pc l); [| | | |by destruct (int_arith _)].
  - rewrite land_1, Hf, Z.mod_mul in Hs by lia. injection Hs as _ <-. simpl. lia.
  - rewrite Hf, Z.eqb_refl in Hs. injection Hs as _ <-. simpl. lia.
  - injection Hs as _ <-. simpl. lia.
  - injection Hs as _ <-. simpl. lia.
Qed.

Lemma deq_advances q pe pd E d D u l :
  ticket_rel q pe pd E d D → pd !! u = Some l → flag_of q (idx (d_ticket l)) = (round (d_ticket l) * 2 + 1)%Z →
  ∃ q' o, ticket_dequeue_step q l = Ok (q', o) ∧ ∀ l', o = inl l' → d_measure l' < d_measure l.
Proof.
  intros Hrel Hu Hf. destruct (ticket_rel_dequeue_step q pe pd E d D u l Hrel Hu) as (q' & o & Hs & _). exists q', o. split; [done|].
  destruct (tr_deq _ _ _ _ _ _ _ Hrel u l Hu) as [Hr _ _ Hh]. unfold ticket_dequeue_step in Hs.
  rewrite node_at_Ok in Hs by (apply Hrel || lia). cbn [mbind res_bind flag key] in Hs. intros l' ->. unfold d_measure.
  destruct (d_pc l); [| | | | |by destruct (int_arith _)].
  - rewrite land_1, Hf, Z.add_comm, Z.mod_add in Hs by lia. injection Hs as _ <-. simpl. lia.
  - rewrite Hf, Z.eqb_refl in Hs. injection Hs as _ <-. simpl. lia.
  - injection Hs as _ <-. simpl. lia.
  - injection Hs as _ <-. simpl. lia.
  - injection Hs as _ <-. simpl. lia.
Qed.

(** The enqueue with the smallest ticket, when no dequeue with a smaller one waits, can
    go on unless the queue is full. *)
Lemma min_enq q pe pd E d D u l :
  ticket_rel q pe pd E d D → pe !! u = Some l → (∀ v lv, pd !! v = Some lv → (e_ticket l ≤ d_ticket lv)%Z) →
  flag_of q (idx (e_ticket l)) = (round (e_ticket l) * 2)%Z ∨ pd = ∅ ∧ length D < length E.
Proof.
  intros Hrel Hu Hmin. destruct (tr_enq _ _ _ _ _ _ _ Hrel u l Hu) as [Hr Ho _ _]. unfold enq_done in Ho.
  assert (Hf := tr_flags _ _ _ _ _ _ _ Hrel (idx (e_ticket l))).
  destruct (decide (e_ticket l < 1024)%Z) as [Hlt|Hge].
  { left. destruct (ticket_split (e_ticket l)) as (? & ? & ?); [lia|]. lia. }
  destruct (ticket_prev (e_ticket l)) as [Hi Hround]; [lia|].
  destruct (decide (e_ticket l - 1024 < Z.of_nat d)%Z) as [Hd|Hd].
  - left. destruct (tr_deq_tickets _ _ _ _ _ _ _ Hrel (e_ticket l - 1024)) as [Hdone|(v & lv & Hv & Heq)]; [lia| |].
    + unfold deq_done in Hdone. rewrite Hi, Hround in Hdone. lia.
    + specialize (Hmin v lv Hv). lia.
  - right. destruct (map_choose_or_empty pd) as [(v & lv & Hv)|Hpd].
    + destruct (tr_deq _ _ _ _ _ _ _ Hrel v lv Hv) as [Hrv _ _ _]. specialize (Hmin v lv Hv). lia.
    + split; [done|]. assert (Hc := tr_count _ _ _ _ _ _ _ Hrel). subst pd. rewrite map_size_empty in Hc. lia.
Qed.

(** The dequeue with the smallest ticket, when all enqueues up to it are done, can go
    on unless the queue is empty. *)
Lemma min_deq q pe pd E d D u l :
  ticket_rel q pe pd E d D → pd !! u = Some l → (∀ v lv, pe !! v = Some lv → (d_ticket l < e_ticket lv)%Z) →
  (∀ v lv, pd !! v = Some lv → (d_ticket l ≤ d_ticket lv)%Z) →
  flag_of q (idx (d_ticket l)) = (round (d_ticket l) * 2 + 1)%Z ∨ pe = ∅ ∧ length E ≤ length D.
Proof.
  intros Hrel Hu Hmin Hmin'. destruct (tr_deq _ _ _ _ _ _ _ Hrel u l Hu) as [Hr Ho _ _]. unfold deq_done in Ho.
  destruct (decide (d_ticket l < Z.of_nat (length E))%Z) as [Hlt|Hge].
  - left. destruct (tr_enq_tickets _ _ _ _ _ _ _ Hrel (d_ticket l)) as [Hdone|(v & lv & Hv & Heq)]; [lia| |].
    + unfold enq_done in Hdone. lia.
    + specialize (Hmin v lv Hv). lia.
  - right. split.
    + destruct (map_choose_or_empty pe) as [(v & lv & Hv)|Hpe]; [|done].
      destruct (tr_enq _ _ _ _ _ _ _ Hrel v lv Hv) as [Hrv _ _ _]. specialize (Hmin v lv Hv). lia.
    + destruct (tr_returned _ _ _ _ _ _ _ Hrel) as (T & H1 & -> & H3). unfold keys_at. rewrite length_fmap.
      rewrite <- (length_seq (length E) 0) at 1. apply submseteq_length, NoDup_submseteq; [apply NoDup_seq|].
      intros t Ht%elem_of_seq. apply H3. destruct (tr_deq_tickets _ _ _ _ _ _ _ Hrel (Z.of_nat t)) as [?|(v & lv & Hv & Heq)]; [lia|done|].
      specialize (Hmin' v lv Hv). lia.
Qed.

Lemma ticket_progress q pe pd E d D :
  ticket_rel q pe pd E d D →
  (∃ t l q' o, pe !! t = Some l ∧ ticket_enqueue_step q l = Ok (q', o) ∧ ∀ l', o = Some l' → e_measure l' < e_measure l) ∨
  (∃ t l q' o, pd !! t = Some l ∧ ticket_dequeue_step q l = Ok (q', o) ∧ ∀ l', o = inl l' → d_measure l' < d_measure l) ∨
  (pe = ∅ ∧ length E ≤ length D) ∨ (pd = ∅ ∧ length D < length E).
Proof.
  intros Hrel.
  assert (Henq : ∀ u l, pe !! u = Some l → flag_of q (idx (e_ticket l)) = (round (e_ticket l) * 2)%Z →
    ∃ t l q' o, pe !! t = Some l ∧ ticket_enqueue_step q l = Ok (q', o) ∧ ∀ l', o = Some l' → e_measure l' < e_measure l).
  { intros u l Hu Hf. destruct (enq_advances q pe pd E d D u l Hrel Hu Hf) as (q' & o & ? & ?). by exists u, l, q', o. }
  assert (Hdeq : ∀ u l, pd !! u = Some l → flag_of q (idx (d_ticket l)) = (round (d_ticket l) * 2 + 1)%Z →
    ∃ t l q' o, pd !! t = Some l ∧ ticket_dequeue_step q l = Ok (q', o) ∧ ∀ l', o = inl l' → d_measure l' < d_measure l).
  { intros u l Hu Hf. destruct (deq_advances q pe pd E d D u l Hrel Hu Hf) as (q' & o & ? & ?). by exists u, l, q', o. }
  destruct (map_minimal e_ticket pe) as [Hpe|(u & l & Hu & Hmin)], (map_minimal d_ticket pd) as [Hpd|(v & lv & Hv & Hmin')].
  - right. right. destruct (decide (length E ≤ length D)); [by left|right; split; [done|lia]].
  - destruct (min_deq _ _ _ _ _ _ v lv Hrel Hv) as [Hf|?]; [subst pe; intros w lw Hw; by rewrite lookup_empty in Hw|done| |tauto].
    right. left. by eapply Hdeq.
  - destruct (min_enq _ _ _ _ _ _ u l Hrel Hu) as [Hf|?]; [subst pd; intros w lw Hw; by rewrite lookup_empty in Hw| |tauto].
    left. by eapply Henq.
  - destruct (decide (e_ticket l ≤ d_ticket lv)%Z) as [Hle|Hgt].
    + destruct (min_enq _ _ _ _ _ _ u l Hrel Hu) as [Hf|?]; [intros w lw Hw; specialize (Hmin' w lw Hw); lia|left; by eapply Henq|tauto].
    + destruct (min_deq _ _ _ _ _ _ v lv Hrel Hv) as [Hf|?]; [intros w lw Hw; specialize (Hmin w lw Hw); lia|done| |tauto].
      right. left. by eapply Hdeq.
Qed.

#[global] Instance ticket_laws : QueueLaws ticket limit.
Proof using Hlimit.
  refine {| rel := ticket_rel : Q → gmap nat LE → gmap nat LD → list Z → nat → list Z → Prop;
            enqueue_measure := e_measure; dequeue_measure := d_measure; op_bound := 5 |}.
  - exact ticket_rel_init.
  - exact ticket_rel_enqueue.
  - exact ticket_rel_dequeue.
  - exact ticket_rel_enqueue_step.
  - exact ticket_rel_dequeue_step.
  - exact (λ q pe pd E d D H, tr_count _ _ _ _ _ _ _ H).
  - exact ticket_done.
  - intros q k. simpl. unfold e_measure. simpl. lia.
  - intros q. simpl. unfold d_measure. simpl. lia.
  - exact ticket_progress.
Defined.

End laws.

(** ** Properties *)

Definition ticket_main (P N : nat) : world := queue_main P N.

(** C8. The program with the lock-free queue, with any number of producers and of
    keys whose product is an [int]: no step of any interleaving leaves an array
    or overflows, from every state all threads can finish, and when they have
    finished the consumers have got each key exactly once and [main] prints
    CORRECT. *)
Theorem ticket_program_correct P N w :
  (Z.of_nat (P * N) ≤ INT_MAX)%Z → rtc (step N) (ticket_main P N) w →
  (∀ tid e, thread_step N tid w ≠ Some (Err e)) ∧
  (finished N w → verify w = true ∧ dequeued w ≡ₚ seqZ 0 (Z.of_nat (P * N))) ∧
  ∃ w', rtc (step N) w w' ∧ finished N w'.
Proof.
  intros Hint Hr. pose (laws := ticket_laws (P * N) Hint). assert (H := queue_program_safe P N (Nat.le_refl _) Hint w Hr).
  assert (H' := queue_program_finishes P N (Nat.le_refl _) Hint w Hr). tauto.
Qed.

(** C38. The lock-free queue is first-in first-out: a call of [dequeue] with the ticket
    [t] returns the [t]-th key given to [enqueue], and no two calls of [dequeue] have
    the same ticket. *)
Theorem ticket_fifo P N w tid i l r :
  (Z.of_nat (P * N) ≤ INT_MAX)%Z → rtc (step N) (ticket_main P N) w →
  threads w !! tid = Some (ConsumerIn i l) → d_ret l = Some r →
  enqueued w !! Z.to_nat (d_ticket l) = Some r ∧
  ∀ tid' i' l', threads w !! tid' = Some (ConsumerIn i' l') → d_ticket l' = d_ticket l → tid' = tid.
Proof.
  intros Hint Hr Ht Hret. pose (laws := ticket_laws (P * N) Hint). assert (Hok := queue_steps_ok P N (Nat.le_refl _) Hint w Hr).
  destruct (ok_rel _ _ _ Hok) as (pe & pd & Hpe & Hpd & Hrel). cbn [rel laws ticket_laws] in Hrel.
  assert (Hu : pd !! tid = Some l) by (by rewrite (Hpd tid), Ht). split.
  - destruct (tr_deq _ _ _ _ _ _ _ Hrel tid l Hu) as [_ _ H _]. by apply H.
  - intros tid' i' l' Ht' Heq. assert (Hu' : pd !! tid' = Some l') by (by rewrite (Hpd tid'), Ht').
    by eapply (tr_deq_inj _ _ _ _ _ _ _ Hrel).
Qed.

(** The ticket is an [int] although the counters are 64 bits wide: the call of
    [enqueue] or [dequeue] that follows 2^31 + 1 others gets a negative ticket and
    accesses the array at a negative index. *)
Theorem ticket_truncated nodes front rear k :
  (let '(q, l) := ticket_enqueue (mk_ticket_queue nodes front (2 ^ 31 + 1)) k in
   e_ticket l = (- 2 ^ 31 + 1)%Z ∧ ticket_enqueue_step q l = Err UndefinedBehaviour) ∧
  (let '(q, l) := ticket_dequeue (mk_ticket_queue nodes (2 ^ 31 + 1) rear) in
   d_ticket l = (- 2 ^ 31 + 1)%Z ∧ ticket_dequeue_step q l = Err UndefinedBehaviour).
Proof. done. Qed.

(** One producer and one consumer; the consumer takes its first ticket first. *)
Definition ticket_middle : world := end_of 2 [1; 1; 0; 0; 0; 0; 0; 0; 1; 1; 1; 1] (ticket_main 1 2).

Definition ticket_end : world :=
  end_of 2 ([1; 1; 0; 0; 0; 0; 0; 0; 1; 1; 1; 1] ++ [1; 1; 1] ++ replicate 6 0 ++ replicate 8 1) (ticket_main 1 2).

Lemma ticket_program_correct_witness : finished 2 ticket_end ∧ verify ticket_end = true ∧ dequeued ticket_end ≡ₚ [0; 1]%Z.
Proof.
  assert (Hfin : finished 2 ticket_end) by (apply (bool_decide_unpack _); vm_compute; constructor). split; [exact Hfin|].
  destruct (ticket_program_correct 1 2 ticket_end) as (_ & H & _); [done| |exact (H Hfin)].
  apply run_threads_steps. vm_compute. reflexivity.
Defined.

Lemma ticket_fifo_witness : enqueued ticket_middle !! 0 = Some 0%Z.
Proof.
  apply (ticket_fifo 1 2 ticket_middle 1 0 (mk_dequeue_call 0 (DFlagLoad 0)) 0); [done| | |reflexivity].
  - apply run_threads_steps. vm_compute. reflexivity.
  - reflexivity.
Defined.
