(* ===== verification/LockClient.v ===== *)
(** The counting programs of [lab02], [lab03] and [lab10]: threads that increase
    [cnt_global] under a lock. [LockImpl] has the operations of a lock as a program
    steps through them, [LockLaws] what a lock promises; the count is proved exact
    for every lock with these laws. [SpinLocks] and [CLHLock] provide the locks. *)
From stdpp Require Import functions base tactics numbers option list list_numbers gmap sets relations sorting.
From Stdlib Require Import ZArith Lia.
From S2P Require Import Prelude.

(** ** The interface of a lock *)

(** [LS] is the shared state of the lock, [LL] and [LU] are the local states of calls of
    [lock] and [unlock] in progress. A step of [lock] may allocate at the address
    [node]; it is [None] when the thread blocks or the address is in use. It ends
    with [None] when the thread has the lock. *)
Class LockImpl : Type := {
  LS : Type;
  LL : Type;
  LU : Type;
  lock_init : LS;
  lock_start : LL;
  lock_step : nat → nat → LS → LL → option (res (LS * option LL));
  unlock_start : LU;
  unlock_step : nat → LS → LU → res (LS * option LU);
}.

(** [lock_rel s W h]: the threads in [W] are in the middle of a call of [lock], and [h]
    is the thread that has the lock, with its call of [unlock] if it is in one. *)
Class LockLaws (impl : LockImpl) : Type := {
  lock_rel : LS → gmap nat LL → option (nat * option LU) → Prop;
  lock_rel_init : lock_rel lock_init ∅ None;
  lock_rel_start s W h t :
    lock_rel s W h → W !! t = None → (∀ u, h ≠ Some (t, u)) → lock_rel s (<[t := lock_start]> W) h;
  lock_rel_step s W h t l node r :
    lock_rel s W h → W !! t = Some l → lock_step t node s l = Some r →
    ∃ s' o, r = Ok (s', o) ∧
      match o with
      | Some l' => lock_rel s' (<[t := l']> W) h
      | None => h = None ∧ lock_rel s' (delete t W) (Some (t, None))
      end;
  unlock_rel_start s W t : lock_rel s W (Some (t, None)) → lock_rel s W (Some (t, Some unlock_start));
  unlock_rel_step s W t u :
    lock_rel s W (Some (t, Some u)) →
    ∃ s' o, unlock_step t s u = Ok (s', o) ∧ lock_rel s' W (match o with Some u' => Some (t, Some u') | None => None end);
  lock_measure : LL → nat;
  unlock_measure : LU → nat;
  lock_bound : nat;
  lock_start_bound : lock_measure lock_start ≤ lock_bound ∧ unlock_measure unlock_start ≤ lock_bound;
  unlock_decreases t s u s' u' : unlock_step t s u = Ok (s', Some u') → unlock_measure u' < unlock_measure u;
  lock_rel_progress s W t l :
    lock_rel s W None → W !! t = Some l →
    ∃ t' l' node s' o, W !! t' = Some l' ∧ lock_step t' node s l' = Some (Ok (s', o)) ∧
      ∀ l'', o = Some l'' → lock_measure l'' < lock_measure l';
}.

(** ** The counting threads *)

Section client.
  Context `{impl : LockImpl} (ROUNDS REPEAT : nat).

(** A thread takes the lock [ROUNDS] times and increases the counter [REPEAT] times each
    time: it has [i] rounds behind it and, in the critical section, [j] increments.
    The increment is a load and a store. *)
Inductive thread : Type :=
| Loop (i : nat)
| Locking (i : nat) (l : LL)
| Critical (i j : nat)
| Loaded (i j : nat) (v : Z)
| Unlocking (i : nat) (u : LU).

Record world : Type := mk_world {
  lock_state : LS;
  cnt_global : Z;
  threads : list thread;
}.

Definition put (tid : nat) (s : LS) (c : Z) (th : thread) (w : world) : world :=
  mk_world s c (<[tid := th]> (threads w)).

(** A step of the loop of a thread; [None] when it blocks or has finished. *)
Definition thread_step (tid node : nat) (w : world) : option (res world) :=
  th ← threads w !! tid;
  let s := lock_state w in
  let c := cnt_global w in
  match th with
  | Loop i => if i <? ROUNDS then Some (Ok (put tid s c (Locking i lock_start) w)) else None
  | Locking i l =>
      r ← lock_step tid node s l;
      Some ('(s', o) ← r;
            Ok (put tid s' c (match o with Some l' => Locking i l' | None => Critical i 0 end) w))
  | Critical i j =>
      if j <? REPEAT then Some (Ok (put tid s c (Loaded i j c) w))
      else Some (Ok (put tid s c (Unlocking i unlock_start) w))
  | Loaded i j v => Some (c' ← int_arith (v + 1); Ok (put tid s c' (Critical i (S j)) w))
  | Unlocking i u =>
      Some ('(s', o) ← unlock_step tid s u;
            Ok (put tid s' c (match o with Some u' => Unlocking i u' | None => Loop (S i) end) w))
  end.

(** The state when [main] has created the threads. *)
Definition count_main (NUM_THREAD : nat) : world := mk_world lock_init 0 (replicate NUM_THREAD (Loop 0)).

Definition step (w w' : world) : Prop := ∃ tid node, thread_step tid node w = Some (Ok w').

Definition thread_done (th : thread) : bool := match th with Loop i => ROUNDS <=? i | _ => false end.

Definition finished (w : world) : Prop := Forall thread_done (threads w).

Definition in_critical (th : thread) : Prop := match th with Critical _ _ | Loaded _ _ _ => True | _ => False end.

(** ** Invariant *)

Context {laws : LockLaws impl} (NUM_THREAD : nat).
Context (Hint : (Z.of_nat (NUM_THREAD * (ROUNDS * REPEAT)) ≤ INT_MAX)%Z).

(** The increments a thread has stored. *)
Definition increments (th : thread) : nat :=
  match th with
  | Loop i | Locking i _ => i * REPEAT
  | Critical i j | Loaded i j _ => i * REPEAT + j
  | Unlocking i _ => i * REPEAT + REPEAT
  end.

Definition waiting_of (th : thread) : option LL := match th with Locking _ l => Some l | _ => None end.

Definition holder_of (th : thread) : option (option LU) :=
  match th with Critical _ _ | Loaded _ _ _ => Some None | Unlocking _ u => Some (Some u) | _ => None end.

Definition thread_ok (c : Z) (th : thread) : Prop :=
  match th with
  | Loop i => i ≤ ROUNDS
  | Locking i _ | Unlocking i _ => i < ROUNDS
  | Critical i j => i < ROUNDS ∧ j ≤ REPEAT
  | Loaded i j v => i < ROUNDS ∧ j < REPEAT ∧ v = c
  end.

Record world_ok (w : world) : Prop := {
  ok_lock : ∃ W h, lock_rel (lock_state w) W h ∧ (∀ t, W !! t = threads w !! t ≫= waiting_of) ∧
    (∀ t u, h = Some (t, u) ↔ ∃ th, threads w !! t = Some th ∧ holder_of th = Some u);
  ok_count : cnt_global w = Z.of_nat (sum_list_with increments (threads w));
  ok_threads : ∀ t th, threads w !! t = Some th → thread_ok (cnt_global w) th;
  ok_length : length (threads w) = NUM_THREAD;
}.

Lemma lock_world_ok_put w t th th' s' c' W h h' :
  world_ok w → threads w !! t = Some th → thread_ok c' th' →
  (∀ u, W !! u = threads w !! u ≫= waiting_of) → (∀ u o, h = Some (u, o) ↔ ∃ uh, threads w !! u = Some uh ∧ holder_of uh = Some o) →
  lock_rel s' (partial_alter (λ _, waiting_of th') t W) h' →
  (∀ u o, h' = Some (u, o) ↔ if decide (u = t) then holder_of th' = Some o else h = Some (u, o)) →
  (c' + Z.of_nat (increments th) = cnt_global w + Z.of_nat (increments th'))%Z →
  (c' = cnt_global w ∨ holder_of th = Some None) →
  world_ok (put t s' c' th' w).
Proof.
  intros Hok Ht Hth HW Hh Hrel Hh' Hc Hcase. assert (Hlt := lookup_lt_Some _ _ _ Ht).
  assert (Hlook : ∀ u uh, <[t := th']> (threads w) !! u = Some uh ↔ if decide (u = t) then uh = th' else threads w !! u = Some uh).
  { intros u uh. case_decide as Hu; [subst; rewrite list_lookup_insert_eq by done; naive_solver|by rewrite list_lookup_insert_ne]. }
  split; simpl.
  - exists (partial_alter (λ _, waiting_of th') t W), h'. split; [done|]. split.
    + intros u. destruct (decide (t = u)) as [<-|Hu].
      * rewrite lookup_partial_alter_eq. by rewrite list_lookup_insert_eq.
      * rewrite lookup_partial_alter_ne by done. by rewrite list_lookup_insert_ne.
    + intros u o. rewrite Hh'. case_decide as Hu; [subst u|rewrite Hh].
      * split; [intros Ho; exists th'; split; [by apply list_lookup_insert_eq|done]|].
        intros (uh & Hu & Ho). rewrite list_lookup_insert_eq in Hu by done. by simplify_eq.
      * by rewrite list_lookup_insert_ne.
  - rewrite (ok_count _ Hok) in Hc. assert (H := sum_list_with_update increments _ _ _ th' Ht). lia.
  - intros u uh Hu%Hlook. case_decide as Hne; [by subst|]. assert (Hold := ok_threads _ Hok u uh Hu).
    destruct Hcase as [->|Hhold]; [done|]. destruct uh as [| | |i j v|]; try done. exfalso. apply Hne.
    assert (H1 : h = Some (u, None)) by (apply Hh; eauto). assert (H2 : h = Some (t, None)) by (apply Hh; eauto). congruence.
  - rewrite length_insert. apply Hok.
Qed.

(** Two threads are not in their critical sections at the same time. *)
Lemma critical_exclusive w t u th uh :
  world_ok w → threads w !! t = Some th → threads w !! u = Some uh → in_critical th → in_critical uh → t = u.
Proof.
  intros Hok Ht Hu H1 H2. destruct (ok_lock _ Hok) as (W & h & _ & _ & Hh).
  assert (Hc : ∀ v vh, threads w !! v = Some vh → in_critical vh → h = Some (v, None)).
  { intros v vh Hv Hin. apply Hh. exists vh. split; [done|]. by destruct vh. }
  assert (E1 := Hc t th Ht H1). assert (E2 := Hc u uh Hu H2). congruence.
Qed.

Lemma holder_None w h :
  (∀ u o, h = Some (u, o) ↔ ∃ uh, threads w !! u = Some uh ∧ holder_of uh = Some o) →
  ∀ t th, threads w !! t = Some th → holder_of th = None → ∀ o, h ≠ Some (t, o).
Proof. intros Hh t th Ht Hn o (uh & Hu & Ho)%Hh. by simplify_eq. Qed.

(** The count stays below the limit. *)
Lemma increments_le w : world_ok w → ∀ th t, threads w !! t = Some th → increments th ≤ ROUNDS * REPEAT.
Proof.
  intros Hok th t Ht. assert (H := ok_threads _ Hok t th Ht). destruct th; simpl in *; nia.
Qed.

Lemma count_lt w t th :
  world_ok w → threads w !! t = Some th → increments th < ROUNDS * REPEAT → (0 ≤ cnt_global w < Z.of_nat (NUM_THREAD * (ROUNDS * REPEAT)))%Z.
Proof.
  intros Hok Ht Hlt. rewrite (ok_count _ Hok). rewrite <- (ok_length _ Hok).
  assert (H : sum_list_with increments (threads w) < length (threads w) * (ROUNDS * REPEAT)); [|lia].
  eapply sum_list_with_lt; [|done|done]. apply Forall_lookup_2. intros u uh Hu. by eapply increments_le.
Qed.

Lemma locking_ok w t i l node r :
  world_ok w → threads w !! t = Some (Locking i l) → lock_step t node (lock_state w) l = Some r →
  ∃ s' o, r = Ok (s', o) ∧
    world_ok (put t s' (cnt_global w) (match o with Some l' => Locking i l' | None => Critical i 0 end) w).
Proof.
  intros Hok Ht Hs. destruct (ok_lock _ Hok) as (W & h & Hrel & HW & Hh). assert (Hth := ok_threads _ Hok _ _ Ht).
  assert (Hno := holder_None w h Hh t _ Ht eq_refl).
  destruct (lock_rel_step _ _ _ t l node r Hrel) as (s' & o & -> & Ho); [by rewrite HW, Ht|done|]. exists s', o. split; [done|].
  destruct o as [l'|].
  - apply lock_world_ok_put with (Locking i l) W h h; try done; [|by left]. intros u o. case_decide; [|done]. subst. split; [by intros ?%Hno|done].
  - destruct Ho as [-> Hrel']. apply lock_world_ok_put with (Locking i l) W None (Some (t, None)); try done; [simpl in *; lia| |simpl; lia|by left].
    intros u o. case_decide; simpl; split; intros ?; simplify_eq; done.
Qed.

Lemma unlocking_ok w t i u :
  world_ok w → threads w !! t = Some (Unlocking i u) →
  ∃ s' o, unlock_step t (lock_state w) u = Ok (s', o) ∧
    world_ok (put t s' (cnt_global w) (match o with Some u' => Unlocking i u' | None => Loop (S i) end) w).
Proof.
  intros Hok Ht. destruct (ok_lock _ Hok) as (W & h & Hrel & HW & Hh). assert (Hth := ok_threads _ Hok _ _ Ht).
  assert (h = Some (t, Some u)) as -> by (apply Hh; eauto).
  destruct (unlock_rel_step _ _ _ _ Hrel) as (s' & o & Hs & Hrel'). exists s', o. split; [done|].
  assert (HWt : W !! t = None) by (by rewrite HW, Ht).
  assert (Hpa : partial_alter (λ _, None) t W = W) by (apply map_eq; intros v; destruct (decide (t = v)) as [<-|Hv];
    [by rewrite lookup_partial_alter_eq|by rewrite lookup_partial_alter_ne]).
  destruct o as [u'|].
  - apply lock_world_ok_put with (Unlocking i u) W (Some (t, Some u)) (Some (t, Some u')); try done; [simpl; by rewrite Hpa| |by left].
    intros v o. case_decide; simpl; split; intros ?; simplify_eq; done.
  - apply lock_world_ok_put with (Unlocking i u) W (Some (t, Some u)) None; try done; [simpl; by rewrite Hpa| |simpl; lia|by left].
    intros v o. case_decide; simpl; split; intros ?; simplify_eq; done.
Qed.

Lemma count_step_ok w t node r : world_ok w → thread_step t node w = Some r → ∃ w', r = Ok w' ∧ world_ok w'.
Proof.
  intros Hok Hs. unfold thread_step in Hs. destruct (threads w !! t) as [th|] eqn:Ht; [|done]. cbn [mbind option_bind] in Hs.
  assert (Hth := ok_threads _ Hok _ _ Ht). destruct (ok_lock _ Hok) as (W & h & Hrel & HW & Hh).
  assert (HWt : waiting_of th = None → partial_alter (λ _, None) t W = W).
  { intros Hw. apply map_eq. intros v. destruct (decide (t = v)) as [<-|Hv]; [|by rewrite lookup_partial_alter_ne].
    rewrite lookup_partial_alter_eq, HW, Ht. by symmetry. }
  destruct th as [i|i l|i j|i j v|i u].
  - destruct (Nat.ltb_spec i ROUNDS) as [Hi|]; [|done]. injection Hs as <-. eexists. split; [done|].
    assert (Hno := holder_None w h Hh t _ Ht eq_refl).
    apply lock_world_ok_put with (Loop i) W h h; try done; [|intros u o; case_decide; [|done]; subst; split; [by intros ?%Hno|done]|by left].
    apply lock_rel_start; [done|by rewrite HW, Ht|done].
  - destruct (lock_step t node (lock_state w) l) as [r'|] eqn:Hl; [|done]. injection Hs as <-.
    destruct (locking_ok w t i l node r' Hok Ht Hl) as (s' & o & -> & H). eexists. split; [reflexivity|done].
  - assert (h = Some (t, None)) as -> by (apply Hh; eauto). destruct Hth as [Hi Hj].
    destruct (Nat.ltb_spec j REPEAT) as [Hlt|Hge]; injection Hs as <-; (eexists; split; [reflexivity|]).
    + apply lock_world_ok_put with (Critical i j) W (Some (t, None)) (Some (t, None)); try done; [simpl; by rewrite HWt| |by left].
      intros u o. case_decide; simpl; split; intros ?; simplify_eq; done.
    + apply lock_world_ok_put with (Critical i j) W (Some (t, None)) (Some (t, Some unlock_start)); try done; [simpl; rewrite HWt by done; by apply unlock_rel_start| |simpl; lia|by left].
      intros u o. case_decide; simpl; split; intros ?; simplify_eq; done.
  - assert (h = Some (t, None)) as -> by (apply Hh; eauto). destruct Hth as (Hi & Hj & ->).
    assert (Hb := count_lt w t _ Hok Ht). simpl in Hb. specialize (Hb ltac:(nia)). rewrite int_arith_Ok in Hs by (unfold INT_MIN; lia).
    injection Hs as <-. eexists. split; [reflexivity|].
    apply lock_world_ok_put with (Loaded i j (cnt_global w)) W (Some (t, None)) (Some (t, None)); try done; [simpl; by rewrite HWt| |simpl; lia|by right].
    intros u o. case_decide; simpl; split; intros ?; simplify_eq; done.
  - injection Hs as <-. destruct (unlocking_ok w t i u Hok Ht) as (s' & o & -> & H). eexists. split; [reflexivity|done].
Qed.

Lemma count_main_ok : world_ok (count_main NUM_THREAD).
Proof.
  assert (Hnew : ∀ t th, threads (count_main NUM_THREAD) !! t = Some th → th = Loop 0) by (intros t th [-> _]%lookup_replicate; done).
  split.
  - exists ∅, None. split_and!; [apply lock_rel_init|..].
    + intros t. rewrite lookup_empty. destruct (threads (count_main NUM_THREAD) !! t) as [th|] eqn:Ht; [|done]. by apply Hnew in Ht as ->.
    + intros t u. split; [done|]. intros (th & ->%Hnew & ?). done.
  - simpl. rewrite (sum_list_with_eq _ 0); [lia|]. by apply Forall_replicate.
  - intros t th ->%Hnew. simpl. lia.
  - apply length_replicate.
Qed.

Lemma count_steps_ok w : rtc step (count_main NUM_THREAD) w → world_ok w.
Proof.
  revert w. apply rtc_ind_r; [apply count_main_ok|].
  intros w w' _ (tid & node & Hs) IH. by destruct (count_step_ok _ _ _ _ IH Hs) as (? & [= <-] & ?).
Qed.

Lemma finished_count w : world_ok w → finished w → cnt_global w = Z.of_nat (NUM_THREAD * (ROUNDS * REPEAT)).
Proof.
  intros Hok Hfin. rewrite (ok_count _ Hok), (sum_list_with_eq _ (ROUNDS * REPEAT)); [by rewrite (ok_length _ Hok)|].
  apply Forall_lookup_2. intros t th Ht. assert (Hth := ok_threads _ Hok t th Ht). eapply Forall_lookup_1 in Hfin; [|exact Ht].
  destruct th as [i| | | |]; try done. apply Is_true_true, Nat.leb_le in Hfin. simpl in *. by replace i with ROUNDS by lia.
Qed.

(** ** Progress *)

Definition round_weight : nat := 2 * lock_bound + 2 * REPEAT + 6.

Definition weight (th : thread) : nat :=
  match th with
  | Loop i => (ROUNDS - i) * round_weight
  | Locking i l => (ROUNDS - S i) * round_weight + lock_measure l + (lock_bound + 2 * REPEAT + 4)
  | Critical i j => (ROUNDS - S i) * round_weight + lock_bound + 2 * (REPEAT - j) + 3
  | Loaded i j _ => (ROUNDS - S i) * round_weight + lock_bound + 2 * (REPEAT - j) + 2
  | Unlocking i u => (ROUNDS - S i) * round_weight + unlock_measure u + 1
  end.

Definition total_weight (w : world) : nat := sum_list_with weight (threads w).

Lemma put_lighter w t th s c th' :
  threads w !! t = Some th → weight th' < weight th → total_weight (put t s c th' w) < total_weight w.
Proof. intros Ht Hlt. unfold total_weight. simpl. assert (H := sum_list_with_update weight _ _ _ th' Ht). lia. Qed.

(** The thread that has the lock can go on. *)
Lemma holder_advances w t th u :
  world_ok w → threads w !! t = Some th → holder_of th = Some u →
  ∃ w', thread_step t 0 w = Some (Ok w') ∧ total_weight w' < total_weight w.
Proof.
  intros Hok Ht Hu. assert (Hth := ok_threads _ Hok _ _ Ht). assert (Hb := lock_start_bound).
  assert (Hs : ∀ r, thread_step t 0 w = Some r → ∃ w', r = Ok w') by (intros r H; destruct (count_step_ok _ _ _ _ Hok H) as (? & ? & _); eauto).
  unfold thread_step in *. rewrite Ht in *. cbn [mbind option_bind] in *.
  destruct th as [i|i l|i j|i j v|i u']; simpl in Hu; try done.
  - destruct (Nat.ltb_spec j REPEAT); (eexists; split; [reflexivity|]); apply (put_lighter w t _ _ _ _ Ht); simpl; lia.
  - destruct (Hs _ eq_refl) as (w' & Hw'). rewrite Hw'. eexists. split; [reflexivity|].
    destruct (int_arith (v + 1)); [|done]. injection Hw' as <-. apply (put_lighter w t _ _ _ _ Ht). simpl in *. lia.
  - destruct (Hs _ eq_refl) as (w' & Hw'). rewrite Hw'. eexists. split; [reflexivity|].
    destruct (unlock_step t (lock_state w) u') as [[s' o]|] eqn:Hun; [|done]. injection Hw' as <-.
    apply (put_lighter w t _ _ _ _ Ht). destruct o as [u''|]; simpl; [apply unlock_decreases in Hun; lia|lia].
Qed.

Lemma count_progress w : world_ok w → finished w ∨ ∃ w', step w w' ∧ world_ok w' ∧ total_weight w' < total_weight w.
Proof.
  intros Hok. assert (Hb := lock_start_bound).
  assert (Hgo : ∀ t node w', thread_step t node w = Some (Ok w') → total_weight w' < total_weight w →
    ∃ w', step w w' ∧ world_ok w' ∧ total_weight w' < total_weight w).
  { intros t node w' Hs Hlt. destruct (count_step_ok _ _ _ _ Hok Hs) as (? & [= <-] & ?). exists w'. split; [by exists t, node|done]. }
  destruct (decide (finished w)) as [Hfin|Hfin]; [by left|right].
  apply not_Forall_Exists in Hfin; [|intros ?; apply _]. apply Exists_exists in Hfin as (th & [t Ht]%list_elem_of_lookup & Hd).
  destruct (ok_lock _ Hok) as (W & h & Hrel & HW & Hh). destruct h as [[u o]|].
  { assert (Hu : ∃ uh, threads w !! u = Some uh ∧ holder_of uh = Some o) by (by apply Hh). destruct Hu as (uh & Hu & Ho).
    destruct (holder_advances w u uh o Hok Hu Ho) as (w' & Hs & Hlt). by eapply Hgo. }
  assert (Hno : holder_of th = None) by (destruct (holder_of th) as [o|] eqn:Ho; [|done]; assert (None = Some (t, o)) by (apply Hh; eauto); done).
  destruct th as [i|i l|i j|i j v|i u]; simpl in Hno; try done.
  - assert (Hi : i < ROUNDS) by (unfold compose in Hd; simpl in Hd; destruct (Nat.leb_spec ROUNDS i); naive_solver).
    eapply (Hgo t 0); [unfold thread_step; rewrite Ht; simpl; rewrite (proj2 (Nat.ltb_lt _ _) Hi); reflexivity|].
    apply (put_lighter w t _ _ _ _ Ht). simpl. unfold round_weight. replace (ROUNDS - i) with (S (ROUNDS - S i)) by lia. lia.
  - destruct (lock_rel_progress _ _ t l Hrel) as (t' & l' & node & s' & o & Ht' & Hs & Hm); [by rewrite HW, Ht|].
    rewrite HW in Ht'. destruct (threads w !! t') as [[]|] eqn:Htt; simplify_eq/=.
    eapply (Hgo t' node); [unfold thread_step; rewrite Htt; simpl; rewrite Hs; reflexivity|].
    apply (put_lighter w t' _ _ _ _ Htt). assert (Hth := ok_threads _ Hok _ _ Htt).
    destruct o as [l''|]; simpl in *; [specialize (Hm l'' eq_refl); lia|lia].
Qed.

(** ** The program, with any lock *)

Lemma count_program_correct w :
  rtc step (count_main NUM_THREAD) w →
  (∀ tid node e, thread_step tid node w ≠ Some (Err e)) ∧
  (∀ t u th uh, threads w !! t = Some th → threads w !! u = Some uh → in_critical th → in_critical uh → t = u) ∧
  (finished w → cnt_global w = Z.of_nat (NUM_THREAD * (ROUNDS * REPEAT))) ∧
  ∃ w', rtc step w w' ∧ finished w'.
Proof.
  intros Hr. assert (Hok := count_steps_ok w Hr). split_and!.
  - intros tid node e Hs. by destruct (count_step_ok _ _ _ _ Hok Hs) as (? & ? & _).
  - intros t u th uh. by apply critical_exclusive.
  - by apply finished_count.
  - destruct (rtc_reaches step world_ok finished total_weight count_progress w Hok) as (w' & H1 & H2 & _). eauto.
Qed.

End client.

(** The steps of the given threads, with the addresses their allocations get. *)
Fixpoint run_threads `{LockImpl} (ROUNDS REPEAT : nat) (choices : list (nat * nat)) (w : world) : option world :=
  match choices with
  | [] => Some w
  | (tid, node) :: choices =>
      match thread_step ROUNDS REPEAT tid node w with Some (Ok w') => run_threads ROUNDS REPEAT choices w' | _ => None end
  end.

Definition end_of `{LockImpl} (ROUNDS REPEAT : nat) (choices : list (nat * nat)) (w : world) : world :=
  default w (run_threads ROUNDS REPEAT choices w).

Lemma count_run_steps `{LockImpl} ROUNDS REPEAT choices w :
  bool_decide (is_Some (run_threads ROUNDS REPEAT choices w)) = true → rtc (step ROUNDS REPEAT) w (end_of ROUNDS REPEAT choices w).
Proof.
  unfold end_of. intros [w' Hw]%bool_decide_eq_true. rewrite Hw. simpl. revert w Hw.
  induction choices as [|[tid node] choices IH]; simpl; intros w Hw; [by injection Hw as <-|].
  destruct (thread_step ROUNDS REPEAT tid node w) as [[w1|]|] eqn:Hs; [|done..]. eapply rtc_l; [by exists tid, node|by apply IH].
Qed.
