(* ===== verification/SpinLocks.v ===== *)
(** The locks of the counting programs except the CLH lock: the test-and-set lock
    and the test-and-test-and-set lock of [lab10], the POSIX mutex of [lab02] and
    [lab03]; the program of [lab10] that counts with an atomic addition; and the
    program of [lab01] that counts without a lock. *)
From stdpp Require Import functions base tactics numbers option list list_numbers gmap sets relations sorting.
From Stdlib Require Import ZArith Lia.
From S2P Require Import Prelude LockClient.

(** ** Test-and-set *)

(** while (__sync_lock_test_and_set(lock_object, 1) == 1) {} *)
Definition tas_lock_step (tid node : nat) (lock_object : Z) (_ : unit) : option (res (Z * option unit)) :=
  Some (Ok (1%Z, if (lock_object =? 1)%Z then Some tt else None)).

(** The word is set to 0. *)
Definition tas_unlock_step (tid : nat) (lock_object : Z) (_ : unit) : res (Z * option unit) := Ok (0%Z, None).

Definition tas : LockImpl := {|
  LS := Z; LL := unit; LU := unit;
  lock_init := 0%Z; lock_start := tt; lock_step := tas_lock_step;
  unlock_start := tt; unlock_step := tas_unlock_step;
|}.

(** ** Test-and-test-and-set *)

Inductive ttas_pc : Type := TTest | TSet.

(** The inner loop reads the word until it is not 1; then the test-and-set is tried. *)
Definition ttas_lock_step (tid node : nat) (lock_object : Z) (p : ttas_pc) : option (res (Z * option ttas_pc)) :=
  match p with
  | TTest => Some (Ok (lock_object, Some (if (lock_object =? 1)%Z then TTest else TSet)))
  | TSet => Some (Ok (1%Z, if (lock_object =? 0)%Z then None else Some TTest))
  end.

Definition ttas_unlock_step (tid : nat) (lock_object : Z) (_ : unit) : res (Z * option unit) := Ok (0%Z, None).

Definition ttas : LockImpl := {|
  LS := Z; LL := ttas_pc; LU := unit;
  lock_init := 0%Z; lock_start := TTest; lock_step := ttas_lock_step;
  unlock_start := tt; unlock_step := ttas_unlock_step;
|}.

(** ** POSIX mutex *)

(** The owner of the mutex. [pthread_mutex_lock] blocks while there is one; unlocking
    a mutex one does not own is undefined. *)
Definition mutex_lock_step (tid node : nat) (owner : option nat) (_ : unit) : option (res (option nat * option unit)) :=
  match owner with Some _ => None | None => Some (Ok (Some tid, None)) end.

Definition mutex_unlock_step (tid : nat) (owner : option nat) (_ : unit) : res (option nat * option unit) :=
  if decide (owner = Some tid) then Ok (None, None) else Err UndefinedBehaviour.

Definition mutex : LockImpl := {|
  LS := option nat; LL := unit; LU := unit;
  lock_init := None; lock_start := tt; lock_step := mutex_lock_step;
  unlock_start := tt; unlock_step := mutex_unlock_step;
|}.

(** ** Laws *)

(** A lock word is 1 while a thread has the lock. *)
Definition word_rel {L U} (s : Z) (_ : gmap nat L) (h : option (nat * option U)) : Prop :=
  s = match h with Some _ => 1%Z | None => 0%Z end.

#[global] Instance tas_laws : LockLaws tas.
Proof.
  refine (Build_LockLaws tas word_rel _ _ _ _ _ (λ _, 0) (λ _, 0) 0 _ _ _); try done.
  - intros s W h t l node r Hrel Ht [= <-]. eexists _, _. split; [reflexivity|]. unfold word_rel in *.
    destruct h; subst s; simpl; [done|]. split; done.
  - intros s W t u Hrel. by exists 0%Z, None.
  - intros s W t l Hrel Ht. unfold word_rel in Hrel. subst s. exists t, l, 0, 1%Z, None. done.
Defined.

#[global] Instance ttas_laws : LockLaws ttas.
Proof.
  refine (Build_LockLaws ttas word_rel _ _ _ _ _ (λ p, match p with TTest => 1 | TSet => 0 end) (λ _, 0) 1 _ _ _); try done.
  - intros s W h t l node r Hrel Ht Hs. unfold word_rel in *. destruct l; injection Hs as <-; eexists _, _; (split; [reflexivity|]).
    + done.
    + destruct h; subst s; simpl; done.
  - intros s W t u Hrel. by exists 0%Z, None.
  - split; simpl; lia.
  - intros s W t l Hrel Ht. unfold word_rel in Hrel. subst s. destruct l.
    + exists t, TTest, 0, 0%Z, (Some TSet). split; [done|]. split; [done|]. intros l' [= <-]. lia.
    + by exists t, TSet, 0, 1%Z, None.
Defined.

Definition mutex_rel (s : option nat) (_ : gmap nat unit) (h : option (nat * option unit)) : Prop := s = fst <$> h.

#[global] Instance mutex_laws : LockLaws mutex.
Proof.
  refine (Build_LockLaws mutex mutex_rel _ _ _ _ _ (λ _, 0) (λ _, 0) 0 _ _ _); try done.
  - intros s W h t l node r Hrel Ht Hs. unfold mutex_rel in *. subst s. destruct h as [[]|]; [done|]. injection Hs as <-. by exists (Some t), None.
  - intros s W t u Hrel. unfold mutex_rel in *. subst s. exists None, None. split; [|done]. simpl. unfold mutex_unlock_step. by rewrite decide_True.
  - intros t s u s' u' Hs. simpl in Hs. unfold mutex_unlock_step in Hs. by case_decide.
  - intros s W t l Hrel Ht. unfold mutex_rel in Hrel. subst s. by exists t, l, 0, (Some t), None.
Defined.

(** ** The program of [lab10] with an atomic addition *)

Module FetchAndAdd.

Inductive adder : Type := Add (i : nat) | Mark (i : nat) (ticket : Z).

Record adder_world : Type := mk_world {
  cnt_global : Z;
  flag : list bool;
  threads : list adder;
}.

Definition adder_step (NUM_INCREMENT tid : nat) (w : adder_world) : option (res adder_world) :=
  th ← threads w !! tid;
  match th with
  | Add i =>
      if i <? NUM_INCREMENT
      then Some (Ok (mk_world (to_int (cnt_global w + 1)) (flag w) (<[tid := Mark i (cnt_global w)]> (threads w))))
      else None
  | Mark i ticket =>
      Some match array_get (flag w) ticket with
           | Some _ => Ok (mk_world (cnt_global w) (array_set (flag w) ticket true) (<[tid := Add (S i)]> (threads w)))
           | None => Err UndefinedBehaviour
           end
  end.

Definition adder_main (NUM_THREAD NUM_INCREMENT : nat) : adder_world :=
  mk_world 0 (replicate (NUM_THREAD * NUM_INCREMENT) false) (replicate NUM_THREAD (Add 0)).

(** The loop at the end of [main]: true is ALL FLAGS ON. *)
Definition all_flags_on (w : adder_world) : bool := forallb id (flag w).

Definition step (N : nat) (w w' : adder_world) : Prop := ∃ tid, adder_step N tid w = Some (Ok w').

Definition finished (N : nat) (w : adder_world) : Prop := Forall (λ th, th = Add N) (threads w).

Definition tickets (th : adder) : nat := match th with Add i => i | Mark i _ => S i end.

Section invariant.
  Context (T N : nat) (Hint : (Z.of_nat (T * N) ≤ INT_MAX)%Z).

Record world_ok (w : adder_world) : Prop := {
  ok_count : cnt_global w = Z.of_nat (sum_list_with tickets (threads w));
  ok_threads : ∀ t th, threads w !! t = Some th → tickets th ≤ N;
  ok_marks : ∀ t i k, threads w !! t = Some (Mark i k) → (0 ≤ k < cnt_global w)%Z;
  ok_length : length (threads w) = T;
  ok_flags : length (flag w) = T * N;
  ok_on : ∀ k, (0 ≤ k < cnt_global w)%Z → array_get (flag w) k = Some true ∨ ∃ t i, threads w !! t = Some (Mark i k);
}.

Lemma tickets_le w : world_ok w → (cnt_global w ≤ Z.of_nat (T * N))%Z.
Proof.
  intros Hok. rewrite (ok_count _ Hok), <- (ok_length _ Hok). assert (H : sum_list_with tickets (threads w) ≤ length (threads w) * N); [|lia].
  apply sum_list_with_le, Forall_lookup_2. intros t th Ht. by eapply ok_threads.
Qed.

Lemma add_ok w t i :
  world_ok w → threads w !! t = Some (Add i) → i < N →
  world_ok (mk_world (to_int (cnt_global w + 1)) (flag w) (<[t := Mark i (cnt_global w)]> (threads w))).
Proof.
  intros Hok Ht Hi. assert (Hlt := lookup_lt_Some _ _ _ Ht). assert (Hc := ok_count _ Hok).
  assert (Hsum := sum_list_with_update tickets _ _ _ (Mark i (cnt_global w)) Ht). simpl in Hsum.
  assert (Hb : (cnt_global w < Z.of_nat (T * N))%Z).
  { rewrite Hc, <- (ok_length _ Hok). assert (H : sum_list_with tickets (threads w) < length (threads w) * N); [|lia].
    eapply sum_list_with_lt; [|exact Ht|done]. apply Forall_lookup_2. intros u uh Hu. by eapply ok_threads. }
  rewrite to_int_id by (unfold INT_MIN; lia). split; cbn [cnt_global flag threads].
  - lia.
  - intros u uh [(_ & <- & _)|[_ Hu]]%list_lookup_insert_Some; [simpl; lia|by eapply ok_threads].
  - intros u j k [(_ & [= <- <-] & _)|[_ Hu]]%list_lookup_insert_Some; [lia|]. apply (ok_marks _ Hok) in Hu. lia.
  - rewrite length_insert. apply Hok.
  - apply Hok.
  - intros k Hk. destruct (decide (k = cnt_global w)) as [->|Hne].
    + right. exists t, i. by rewrite list_lookup_insert_eq.
    + destruct (ok_on _ Hok k) as [?|(u & j & Hu)]; [lia|by left|right]. exists u, j.
      rewrite list_lookup_insert_ne; [done|]. intros ->. congruence.
Qed.

Lemma mark_ok w t i k :
  world_ok w → threads w !! t = Some (Mark i k) →
  ∃ b, array_get (flag w) k = Some b ∧ world_ok (mk_world (cnt_global w) (array_set (flag w) k true) (<[t := Add (S i)]> (threads w))).
Proof.
  intros Hok Ht. assert (Hk := ok_marks _ Hok _ _ _ Ht). assert (Hle := tickets_le w Hok). assert (Hl := ok_flags _ Hok).
  destruct (array_get_Some (flag w) k) as [b Hb]; [lia|]. exists b. split; [done|]. assert (Hlt := lookup_lt_Some _ _ _ Ht).
  assert (Hsum := sum_list_with_update tickets _ _ _ (Add (S i)) Ht). simpl in Hsum. assert (Hi := ok_threads _ Hok _ _ Ht). simpl in Hi.
  split; cbn [cnt_global flag threads].
  - rewrite (ok_count _ Hok). lia.
  - intros u uh [(_ & <- & _)|[_ Hu]]%list_lookup_insert_Some; [simpl; lia|by eapply ok_threads].
  - intros u j k' [(_ & ? & _)|[_ Hu]]%list_lookup_insert_Some; [done|]. by eapply ok_marks.
  - rewrite length_insert. apply Hok.
  - by rewrite length_array_set.
  - intros k' Hk'. destruct (decide (k = k')) as [<-|Hne]; [left; apply array_get_set_eq; lia|].
    rewrite array_get_set_ne by done. destruct (ok_on _ Hok k' Hk') as [?|(u & j & Hu)]; [by left|right]. exists u, j.
    rewrite list_lookup_insert_ne; [done|]. intros ->. congruence.
Qed.

Lemma fetch_step_ok w t r : world_ok w → adder_step N t w = Some r → ∃ w', r = Ok w' ∧ world_ok w'.
Proof.
  intros Hok Hs. unfold adder_step in Hs. destruct (threads w !! t) as [[i|i k]|] eqn:Ht; [| |done]; cbn [mbind option_bind] in Hs.
  - destruct (Nat.ltb_spec i N) as [Hi|]; [|done]. injection Hs as <-. eexists. split; [reflexivity|]. by apply add_ok.
  - destruct (mark_ok w t i k Hok Ht) as (b & Hb & H). rewrite Hb in Hs. injection Hs as <-. eauto.
Qed.

Lemma fetch_steps_ok w : rtc (step N) (adder_main T N) w → world_ok w.
Proof.
  revert w. apply rtc_ind_r.
  - assert (Hnew : ∀ t th, replicate T (Add 0) !! t = Some th → th = Add 0) by (intros t th [-> _]%lookup_replicate; done).
    split; simpl.
    + rewrite (sum_list_with_eq _ 0); [lia|]. by apply Forall_replicate.
    + intros t th ->%Hnew. simpl. lia.
    + intros t i k ?%Hnew. done.
    + apply length_replicate.
    + apply length_replicate.
    + intros k ?. lia.
  - intros w w' _ (tid & Hs) IH. by destruct (fetch_step_ok _ _ _ IH Hs) as (? & [= <-] & ?).
Qed.

Lemma fetch_finished w : world_ok w → finished N w → all_flags_on w = true ∧ cnt_global w = Z.of_nat (T * N).
Proof.
  intros Hok Hfin. assert (Hc : cnt_global w = Z.of_nat (T * N)).
  { rewrite (ok_count _ Hok), (sum_list_with_eq _ N); [by rewrite (ok_length _ Hok)|]. eapply Forall_impl; [exact Hfin|]. by intros th ->. }
  split; [|done]. apply forallb_forall. intros b [i Hi]%list_elem_of_In%list_elem_of_lookup.
  assert (Hlt := lookup_lt_Some _ _ _ Hi). rewrite (ok_flags _ Hok) in Hlt.
  destruct (ok_on _ Hok (Z.of_nat i)) as [Hb|(t & j & Ht)]; [lia| |].
  - unfold array_get in Hb. rewrite (proj2 (Z.ltb_ge _ _)), Nat2Z.id in Hb by lia. by simplify_eq.
  - eapply Forall_lookup_1 in Hfin; [|exact Ht]. done.
Qed.

End invariant.
End FetchAndAdd.

(** ** The program of [lab01] without a lock *)

Module Race.

Inductive racer : Type := Load (i : nat) | Store (i : nat) (v : Z).

Record race_world : Type := mk_world { cnt_global : Z; threads : list racer }.

(** cnt_global++ as a load and a store; the local count is the loop counter. *)
Definition racer_step (NUM_INCREASE tid : nat) (w : race_world) : option (res race_world) :=
  th ← threads w !! tid;
  match th with
  | Load i => if i <? NUM_INCREASE then Some (Ok (mk_world (cnt_global w) (<[tid := Store i (cnt_global w)]> (threads w)))) else None
  | Store i v => Some (c ← int_arith (v + 1); Ok (mk_world c (<[tid := Load (S i)]> (threads w))))
  end.

Definition race_main (NUM_THREAD : nat) : race_world := mk_world 0 (replicate NUM_THREAD (Load 0)).

Definition step (N : nat) (w w' : race_world) : Prop := ∃ tid, racer_step N tid w = Some (Ok w').

Definition finished (N : nat) (w : race_world) : Prop := Forall (λ th, th = Load N) (threads w).

Definition stores (th : racer) : nat := match th with Load i | Store i _ => i end.

Fixpoint run (N : nat) (tids : list nat) (w : race_world) : option race_world :=
  match tids with
  | [] => Some w
  | tid :: tids => match racer_step N tid w with Some (Ok w') => run N tids w' | _ => None end
  end.

Lemma race_run_steps N tids w w' : run N tids w = Some w' → rtc (step N) w w'.
Proof.
  revert w. induction tids as [|tid tids IH]; simpl; intros w Hw; [by injection Hw as <-|].
  destruct (racer_step N tid w) as [[w1|]|] eqn:Hs; [|done..]. eapply rtc_l; [by exists tid|by apply IH].
Qed.

Section invariant.
  Context (T N : nat) (Hint : (Z.of_nat (T * N) ≤ INT_MAX)%Z).

(** Every value read or stored is at most the number of stores so far, and at least 1
    once there was a store. *)
Record world_ok (w : race_world) : Prop := {
  ok_upper : (0 ≤ cnt_global w ≤ Z.of_nat (sum_list_with stores (threads w)))%Z;
  ok_lower : 0 < sum_list_with stores (threads w) → (1 ≤ cnt_global w)%Z;
  ok_loaded : ∀ t i v, threads w !! t = Some (Store i v) → (0 ≤ v ≤ Z.of_nat (sum_list_with stores (threads w)))%Z ∧ i < N;
  ok_loops : ∀ t i, threads w !! t = Some (Load i) → i ≤ N;
  ok_length : length (threads w) = T;
}.

Lemma stores_lt w t i v :
  world_ok w → threads w !! t = Some (Store i v) → sum_list_with stores (threads w) < T * N.
Proof.
  intros Hok Ht. rewrite <- (ok_length _ Hok). destruct (ok_loaded _ Hok _ _ _ Ht) as [_ Hi].
  eapply sum_list_with_lt; [|exact Ht|done]. apply Forall_lookup_2. intros u [j|j x] Hu; simpl; [by eapply ok_loops|].
  apply (ok_loaded _ Hok) in Hu. lia.
Qed.

Lemma race_step_ok w t r : world_ok w → racer_step N t w = Some r → ∃ w', r = Ok w' ∧ world_ok w'.
Proof.
  intros Hok Hs. unfold racer_step in Hs. destruct (threads w !! t) as [[i|i v]|] eqn:Ht; [| |done]; cbn [mbind option_bind] in Hs;
    assert (Hlt := lookup_lt_Some _ _ _ Ht).
  - destruct (Nat.ltb_spec i N) as [Hi|]; [|done]. injection Hs as <-. eexists. split; [reflexivity|].
    assert (Hsum := sum_list_with_update stores _ _ _ (Store i (cnt_global w)) Ht). simpl in Hsum. destruct Hok as [H1 H2 H3 H4 H5].
    assert (Heq : sum_list_with stores (<[t:=Store i (cnt_global w)]> (threads w)) = sum_list_with stores (threads w)) by lia.
    split; cbn [cnt_global threads]; rewrite ?Heq; try done.
    + intros u j x [(_ & [= <- <-] & _)|[_ Hu]]%list_lookup_insert_Some; [done|by eapply H3].
    + intros u j [(_ & ? & _)|[_ Hu]]%list_lookup_insert_Some; [done|by eapply H4].
    + by rewrite length_insert.
  - assert (Hb := stores_lt w t i v Hok Ht). assert (Hsum := sum_list_with_update stores _ _ _ (Load (S i)) Ht). simpl in Hsum.
    destruct Hok as [H1 H2 H3 H4 H5]. destruct (H3 _ _ _ Ht) as [Hv Hi].
    rewrite int_arith_Ok in Hs by (unfold INT_MIN; lia). injection Hs as <-. eexists. split; [reflexivity|].
    split; cbn [cnt_global threads]; try lia.
    + intros u j x [(_ & ? & _)|[_ Hu]]%list_lookup_insert_Some; [done|]. destruct (H3 _ _ _ Hu). lia.
    + intros u j [(_ & [= <-] & _)|[_ Hu]]%list_lookup_insert_Some; [lia|by eapply H4].
    + by rewrite length_insert.
Qed.

Lemma race_steps_ok w : rtc (step N) (race_main T) w → world_ok w.
Proof.
  revert w. apply rtc_ind_r.
  - assert (Hsum : sum_list_with stores (replicate T (Load 0)) = 0) by (rewrite (sum_list_with_eq _ 0); [lia|by apply Forall_replicate]).
    split; simpl; rewrite ?Hsum; try lia.
    + intros t i v [? _]%lookup_replicate. done.
    + intros t i [[= ->] _]%lookup_replicate. lia.
    + apply length_replicate.
  - intros w w' _ (tid & Hs) IH. by destruct (race_step_ok _ _ _ IH Hs) as (? & [= <-] & ?).
Qed.

End invariant.
End Race.

(** ** Properties *)

Inductive simple_lock : Type := Tas | Ttas | Mutex.

Definition impl_of (k : simple_lock) : LockImpl := match k with Tas => tas | Ttas => ttas | Mutex => mutex end.

(** The counting programs with the test-and-set lock, the test-and-test-and-set
    lock and the mutex, with any number of threads, rounds and increments in a
    critical section whose product is an [int]: no step fails, two threads are
    never in their critical sections at the same time, all threads can finish
    from every state, and then the counter is exactly that product. *)
Theorem simple_locks_count (k : simple_lock) (NUM_THREAD ROUNDS REPEAT : nat) (w : world) :
  (Z.of_nat (NUM_THREAD * (ROUNDS * REPEAT)) ≤ INT_MAX)%Z →
  rtc (step (impl := impl_of k) ROUNDS REPEAT) (count_main NUM_THREAD) w →
  (∀ tid node e, thread_step ROUNDS REPEAT tid node w ≠ Some (Err e)) ∧
  (∀ t u th uh, threads w !! t = Some th → threads w !! u = Some uh → in_critical th → in_critical uh → t = u) ∧
  (finished ROUNDS w → cnt_global w = Z.of_nat (NUM_THREAD * (ROUNDS * REPEAT))) ∧
  ∃ w', rtc (step ROUNDS REPEAT) w w' ∧ finished ROUNDS w'.
Proof.
  intros Hint Hr. destruct k.
  - exact (count_program_correct (impl := tas) ROUNDS REPEAT NUM_THREAD Hint w Hr).
  - exact (count_program_correct (impl := ttas) ROUNDS REPEAT NUM_THREAD Hint w Hr).
  - exact (count_program_correct (impl := mutex) ROUNDS REPEAT NUM_THREAD Hint w Hr).
Qed.

(** The program with the atomic addition, with any number of threads and
    increments whose product is an [int]: no ticket is outside the array of flags,
    and when all threads have finished every flag is set and the counter is
    exact. *)
Theorem fetch_and_add_all_on T N w :
  (Z.of_nat (T * N) ≤ INT_MAX)%Z → rtc (FetchAndAdd.step N) (FetchAndAdd.adder_main T N) w →
  (∀ tid e, FetchAndAdd.adder_step N tid w ≠ Some (Err e)) ∧
  (FetchAndAdd.finished N w → FetchAndAdd.all_flags_on w = true ∧ FetchAndAdd.cnt_global w = Z.of_nat (T * N)).
Proof.
  intros Hint Hr. assert (Hok := FetchAndAdd.fetch_steps_ok T N Hint w Hr). split.
  - intros tid e Hs. by destruct (FetchAndAdd.fetch_step_ok T N Hint _ _ _ Hok Hs) as (? & ? & _).
  - by apply FetchAndAdd.fetch_finished.
Qed.

(** Without a lock the final count is at most the number of increments and at
    least 1, and increments are lost: two threads with three increments each can
    leave the counter at 2. *)
Theorem race_loses_updates :
  (∀ T N w, (Z.of_nat (T * N) ≤ INT_MAX)%Z → rtc (Race.step N) (Race.race_main T) w → Race.finished N w → 0 < T * N →
     (1 ≤ Race.cnt_global w ≤ Z.of_nat (T * N))%Z) ∧
  ∃ w, rtc (Race.step 3) (Race.race_main 2) w ∧ Race.finished 3 w ∧ Race.cnt_global w = 2%Z.
Proof.
  split.
  - intros T N w Hint Hr Hfin Hpos. assert (Hok := Race.race_steps_ok T N Hint w Hr).
    assert (Hs : sum_list_with Race.stores (Race.threads w) = T * N).
    { rewrite (sum_list_with_eq _ N); [by rewrite (Race.ok_length _ _ _ Hok)|]. eapply Forall_impl; [exact Hfin|]. by intros th ->. }
    destruct Hok as [H1 H2 _ _ _]. rewrite Hs in *. specialize (H2 Hpos). lia.
  - exists (Race.mk_world 2 [Race.Load 3; Race.Load 3]). split; [|split; [repeat constructor|done]].
    by apply (Race.race_run_steps 3 [0; 1; 1; 1; 1; 0; 1; 0; 0; 0; 0; 1]).
Qed.

Definition tas_end : world (impl := tas) :=
  end_of 1 2 [(0, 0); (1, 0); (0, 0); (1, 0); (0, 0); (0, 0); (0, 0); (0, 0); (1, 0); (0, 0); (0, 0); (1, 0); (1, 0); (1, 0); (1, 0); (1, 0); (1, 0); (1, 0)]
    (count_main 2).

Lemma simple_locks_count_witness : finished 1 tas_end ∧ cnt_global tas_end = 4%Z.
Proof.
  assert (Hfin : finished 1 tas_end) by (apply (bool_decide_unpack _); vm_compute; constructor). split; [exact Hfin|].
  destruct (simple_locks_count Tas 2 1 2 tas_end) as (_ & _ & H & _); [done| |exact (H Hfin)].
  apply count_run_steps. vm_compute. reflexivity.
Defined.

Lemma fetch_and_add_all_on_witness :
  let w := FetchAndAdd.mk_world 2 [true; true] [FetchAndAdd.Add 1; FetchAndAdd.Add 1] in
  FetchAndAdd.all_flags_on w = true ∧ FetchAndAdd.cnt_global w = 2%Z.
Proof.
  apply (fetch_and_add_all_on 2 1); [done| |repeat constructor].
  eapply rtc_l; [exists 0; reflexivity|]. eapply rtc_l; [exists 1; reflexivity|].
  eapply rtc_l; [exists 1; reflexivity|]. eapply rtc_l; [exists 0; reflexivity|]. reflexivity.
Defined.
