(* ===== verification/CLHLock.v ===== *)
(** The queue lock of [lab10/prac_CLH_lock.cpp]: each call of [lock] allocates a node,
    puts it at the end of the queue with an atomic exchange and spins on the node
    of its predecessor; [unlock] frees that node and clears the own one. Each
    access to memory is a step of its own. *)
From stdpp Require Import functions base tactics numbers option list list_numbers gmap sets relations sorting.
From Stdlib Require Import ZArith Lia.
From S2P Require Import Prelude LockClient.

(** ** Operations *)

(** The allocated nodes with their values, [*tail], and the array [nodes]. *)
Record clh_state : Type := mk_clh_state {
  heap : gmap nat bool;
  tail : nat;
  my_node : gmap nat nat;
  my_pred : gmap nat nat;
}.

Inductive clh_lock_pc : Type := CAlloc | CSet | CSwap | CSpin.
Inductive clh_unlock_pc : Type := UFree | UClear.

#[global] Instance clh_lock_pc_eq_dec : EqDecision clh_lock_pc.
Proof. solve_decision. Defined.

(** Following a pointer that is null, uninitialised or freed is undefined. *)
Definition follow {A} (p : option nat) (h : gmap nat bool) (f : nat → bool → res A) : res A :=
  match p with
  | Some n => match h !! n with Some b => f n b | None => Err UndefinedBehaviour end
  | None => Err UndefinedBehaviour
  end.

(** [node] is the address that [calloc] returns. *)
Definition clh_lock_step (tid node : nat) (s : clh_state) (p : clh_lock_pc) : option (res (clh_state * option clh_lock_pc)) :=
  match p with
  | CAlloc =>
      match heap s !! node with
      | Some _ => None
      | None => Some (Ok (mk_clh_state (<[node := false]> (heap s)) (tail s) (<[tid := node]> (my_node s)) (my_pred s), Some CSet))
      end
  | CSet =>
      Some (follow (my_node s !! tid) (heap s) (λ n _,
        Ok (mk_clh_state (<[n := true]> (heap s)) (tail s) (my_node s) (my_pred s), Some CSwap)))
  | CSwap =>
      Some match my_node s !! tid with
           | Some n => Ok (mk_clh_state (heap s) n (my_node s) (<[tid := tail s]> (my_pred s)), Some CSpin)
           | None => Err UndefinedBehaviour
           end
  | CSpin => Some (follow (my_pred s !! tid) (heap s) (λ _ b, Ok (s, if b then Some CSpin else None)))
  end.

Definition clh_unlock_step (tid : nat) (s : clh_state) (p : clh_unlock_pc) : res (clh_state * option clh_unlock_pc) :=
  match p with
  | UFree =>
      follow (my_pred s !! tid) (heap s) (λ n _,
        Ok (mk_clh_state (delete n (heap s)) (tail s) (my_node s) (delete tid (my_pred s)), Some UClear))
  | UClear =>
      follow (my_node s !! tid) (heap s) (λ n _,
        Ok (mk_clh_state (<[n := false]> (heap s)) (tail s) (my_node s) (my_pred s), None))
  end.

(** [first] is the node that [main] allocates. *)
Definition clh (first : nat) : LockImpl := {|
  LS := clh_state; LL := clh_lock_pc; LU := clh_unlock_pc;
  lock_init := mk_clh_state {[first := false]} first ∅ ∅;
  lock_start := CAlloc; lock_step := clh_lock_step;
  unlock_start := UFree; unlock_step := clh_unlock_step;
|}.

(** ** Invariant *)

(** The call owns a node that is not yet in the queue. *)
Definition owns (l : clh_lock_pc) : Prop := l = CSet ∨ l = CSwap.

(** The node in front of position [i] of the queue [q]. *)
Definition pred_at (first : option nat) (q : list (nat * nat)) (i : nat) : option nat :=
  match i with 0 => first | S i => snd <$> q !! i end.

Definition queue_nodes (first : option nat) (q : list (nat * nat)) : list nat := option_list first ++ q.*2.

(** [q] are the threads in the queue with their nodes, [first] the node in front of them,
    unless the thread that has the lock has already freed it. *)
Record clh_queue (s : clh_state) (W : gmap nat clh_lock_pc) (h : option (nat * option clh_unlock_pc))
    (first : option nat) (q : list (nat * nat)) : Prop := {
  cq_tail : last (queue_nodes first q) = Some (tail s);
  cq_nodup : NoDup (queue_nodes first q);
  cq_tids : NoDup q.*1;
  cq_first : first = None ↔ ∃ t, h = Some (t, Some UClear);
  cq_free : ∀ n, first = Some n → heap s !! n = Some false;
  cq_head : ∀ t u, h = Some (t, u) → ∃ n q', q = (t, n) :: q';
  cq_nodes : ∀ t n, (t, n) ∈ q → my_node s !! t = Some n ∧ heap s !! n = Some true;
  cq_preds : ∀ i t n, q !! i = Some (t, n) → my_pred s !! t = pred_at first q i;
  cq_spin : ∀ t, t ∈ q.*1 ↔ W !! t = Some CSpin ∨ ∃ u, h = Some (t, u);
  cq_hold : ∀ t u, h = Some (t, u) → W !! t = None;
  cq_own : ∀ t l, W !! t = Some l → owns l →
    ∃ n b, my_node s !! t = Some n ∧ heap s !! n = Some b ∧ (l = CSwap → b = true) ∧ n ∉ queue_nodes first q;
  cq_own_inj : ∀ t t' l l' n, W !! t = Some l → W !! t' = Some l' → owns l → owns l' →
    my_node s !! t = Some n → my_node s !! t' = Some n → t = t';
  cq_leak : ∀ a b, heap s !! a = Some b → a ∈ queue_nodes first q ∨ ∃ t l, W !! t = Some l ∧ owns l ∧ my_node s !! t = Some a;
}.

Definition clh_rel (s : clh_state) (W : gmap nat clh_lock_pc) (h : option (nat * option clh_unlock_pc)) : Prop :=
  ∃ first q, clh_queue s W h first q.

(** The nodes of the queue are allocated. *)
Lemma queue_allocated s W h first q n : clh_queue s W h first q → n ∈ queue_nodes first q → ∃ b, heap s !! n = Some b.
Proof.
  intros Hq [Hn|Hn]%elem_of_app.
  - destruct first as [m|]; [|by apply elem_of_nil in Hn]. apply list_elem_of_singleton in Hn as ->. eexists. by apply (cq_free _ _ _ _ _ Hq).
  - apply list_elem_of_fmap in Hn as ([t m] & -> & Hin). eexists. by apply (cq_nodes _ _ _ _ _ Hq t).
Qed.

Lemma not_queued s W h first q t l :
  clh_queue s W h first q → W !! t = Some l → l ≠ CSpin → t ∉ q.*1.
Proof.
  intros Hq Ht Hl [Hs|[u Hu]]%(cq_spin _ _ _ _ _ Hq); [congruence|]. apply (cq_hold _ _ _ _ _ Hq) in Hu. congruence.
Qed.

(** A thread outside the queue goes to another point of [lock]. *)
Lemma spin_insert s W h first q t l l' :
  clh_queue s W h first q → W !! t = Some l → l ≠ CSpin → l' ≠ CSpin →
  (∀ u, u ∈ q.*1 ↔ <[t := l']> W !! u = Some CSpin ∨ ∃ o, h = Some (u, o)) ∧ ∀ u o, h = Some (u, o) → <[t := l']> W !! u = None.
Proof.
  intros Hq Ht Hl Hl'. split.
  - intros u. rewrite (cq_spin _ _ _ _ _ Hq). destruct (decide (t = u)) as [<-|Hne]; [|by rewrite lookup_insert_ne].
    rewrite lookup_insert_eq, Ht. naive_solver.
  - intros u o Hu. apply (cq_hold _ _ _ _ _ Hq) in Hu. rewrite lookup_insert_ne; [done|]. congruence.
Qed.

Lemma clh_start s W h t :
  clh_rel s W h → W !! t = None → (∀ u, h ≠ Some (t, u)) → clh_rel s (<[t := CAlloc]> W) h.
Proof.
  intros (first & q & Hq) Ht Hh. exists first, q.
  assert (Hcase : ∀ u l, <[t := CAlloc]> W !! u = Some l → owns l → W !! u = Some l).
  { intros u l [[_ <-]|[_ ?]]%lookup_insert_Some Hl; [destruct Hl; done|done]. }
  split; try apply Hq.
  - intros u. rewrite (cq_spin _ _ _ _ _ Hq). destruct (decide (t = u)) as [<-|Hne]; [|by rewrite lookup_insert_ne].
    rewrite lookup_insert_eq, Ht. naive_solver.
  - intros u o Hu. rewrite lookup_insert_ne; [by eapply cq_hold|]. intros <-. by apply Hh in Hu.
  - intros u l Hu Hl. eapply cq_own; [done|by apply Hcase|done].
  - intros u u' l l' n Hu Hu' Hl Hl'. eapply (cq_own_inj _ _ _ _ _ Hq); [by apply Hcase..|done|done].
  - intros a b Ha. destruct (cq_leak _ _ _ _ _ Hq a b Ha) as [?|(u & l & Hu & Hl)]; [by left|right]. exists u, l.
    rewrite lookup_insert_ne; [done|]. congruence.
Qed.

(** *** Steps of [lock] *)

Lemma clh_alloc s W h first q t node :
  clh_queue s W h first q → W !! t = Some CAlloc → heap s !! node = None →
  clh_queue (mk_clh_state (<[node := false]> (heap s)) (tail s) (<[t := node]> (my_node s)) (my_pred s)) (<[t := CSet]> W) h first q.
Proof.
  intros Hq Ht Hnode. assert (Htq := not_queued _ _ _ _ _ _ _ Hq Ht ltac:(done)).
  destruct (spin_insert _ _ _ _ _ t CAlloc CSet Hq Ht) as [Hspin Hhold]; [done|done|].
  assert (Hnew : ∀ n b, heap s !! n = Some b → n ≠ node) by congruence.
  assert (Hfresh : node ∉ queue_nodes first q) by (intros Hin; destruct (queue_allocated _ _ _ _ _ _ Hq Hin); congruence).
  assert (Hcase : ∀ u l, <[t := CSet]> W !! u = Some l → owns l → u = t ∨ u ≠ t ∧ W !! u = Some l).
  { intros u l [[-> _]|[? ?]]%lookup_insert_Some Hl; auto. }
  split; cbn [heap tail my_node my_pred]; try apply Hq; try done.
  - intros n Hn. apply (cq_free _ _ _ _ _ Hq) in Hn. rewrite lookup_insert_ne; [done|]. by apply not_eq_sym, (Hnew _ false).
  - intros u n Hin. destruct (cq_nodes _ _ _ _ _ Hq u n Hin) as [H1 H2]. split.
    + rewrite lookup_insert_ne; [done|]. intros <-. apply Htq. by apply (list_elem_of_fmap_2 fst _ (t, n)).
    + rewrite lookup_insert_ne; [done|]. by apply not_eq_sym, (Hnew _ true).
  - intros u l Hu Hl. destruct (Hcase u l Hu Hl) as [->|[Hne Hu']].
    + exists node, false. rewrite !lookup_insert_eq. split_and!; try done. rewrite lookup_insert_eq in Hu. by intros ->.
    + destruct (cq_own _ _ _ _ _ Hq u l Hu' Hl) as (n & b & H1 & H2 & H3). exists n, b. rewrite !lookup_insert_ne; [done| |done].
      by apply not_eq_sym, (Hnew _ b).
  - intros u u' l l' n Hu Hu' Hl Hl' Hn Hn'. destruct (Hcase u l Hu Hl) as [->|[Hne Hu2]], (Hcase u' l' Hu' Hl') as [->|[Hne' Hu2']]; [done|..].
    + rewrite lookup_insert_eq in Hn. rewrite lookup_insert_ne in Hn' by done.
      destruct (cq_own _ _ _ _ _ Hq u' l' Hu2' Hl') as (m & b & H1 & H2 & _). simplify_eq.
    + rewrite lookup_insert_eq in Hn'. rewrite lookup_insert_ne in Hn by done.
      destruct (cq_own _ _ _ _ _ Hq u l Hu2 Hl) as (m & b & H1 & H2 & _). simplify_eq.
    + rewrite !lookup_insert_ne in * by done. by eapply (cq_own_inj _ _ _ _ _ Hq u u' l l').
  - intros a b [[<- <-]|[Hne Ha]]%lookup_insert_Some.
    + right. exists t, CSet. rewrite !lookup_insert_eq. split_and!; [done|by left|done].
    + destruct (cq_leak _ _ _ _ _ Hq a b Ha) as [?|(u & l & Hu & Hl & Hn)]; [by left|right]. exists u, l.
      assert (u ≠ t) by (intros ->; destruct Hl; congruence). by rewrite !lookup_insert_ne.
Qed.

Lemma clh_set s W h first q t :
  clh_queue s W h first q → W !! t = Some CSet →
  ∃ n b, my_node s !! t = Some n ∧ heap s !! n = Some b ∧
    clh_queue (mk_clh_state (<[n := true]> (heap s)) (tail s) (my_node s) (my_pred s)) (<[t := CSwap]> W) h first q.
Proof.
  intros Hq Ht. destruct (cq_own _ _ _ _ _ Hq t CSet Ht) as (n & b & Hn & Hb & _ & Hnot); [by left|].
  exists n, b. split; [done|]. split; [done|].
  destruct (spin_insert _ _ _ _ _ t CSet CSwap Hq Ht) as [Hspin Hhold]; [done|done|].
  assert (Hcase : ∀ u l, <[t := CSwap]> W !! u = Some l → owns l → ∃ l', W !! u = Some l' ∧ owns l' ∧ (u ≠ t → l' = l)).
  { intros u l [[<- _]|[? ?]]%lookup_insert_Some Hl; [|eauto]. exists CSet. split_and!; [done|by left|done]. }
  split; cbn [heap tail my_node my_pred]; try apply Hq; try done.
  - intros m Hm. apply (cq_free _ _ _ _ _ Hq) in Hm as Hm'. rewrite lookup_insert_ne; [done|]. intros <-. apply Hnot. subst first. by left.
  - intros u m Hin. destruct (cq_nodes _ _ _ _ _ Hq u m Hin) as [H1 H2]. split; [done|]. rewrite lookup_insert_ne; [done|].
    intros <-. apply Hnot, elem_of_app. right. by apply (list_elem_of_fmap_2 snd _ (u, n)).
  - intros u l Hu Hl. destruct (Hcase u l Hu Hl) as (l' & Hu' & Hl' & Hne).
    destruct (cq_own _ _ _ _ _ Hq u l' Hu' Hl') as (m & b' & H1 & H2 & H3 & H4). destruct (decide (n = m)) as [<-|Hnm].
    + exists n, true. rewrite lookup_insert_eq. done.
    + exists m, b'. rewrite lookup_insert_ne by done. split_and!; try done. destruct (decide (u = t)) as [->|Hut]; [congruence|].
      by rewrite Hne in H3.
  - intros u u' l l' m Hu Hu' Hl Hl'. destruct (Hcase u l Hu Hl) as (k & H1 & H2 & _), (Hcase u' l' Hu' Hl') as (k' & H1' & H2' & _).
    by eapply (cq_own_inj _ _ _ _ _ Hq).
  - assert (Hkeep : ∀ a, (∃ u l, W !! u = Some l ∧ owns l ∧ my_node s !! u = Some a) → ∃ u l, <[t := CSwap]> W !! u = Some l ∧ owns l ∧ my_node s !! u = Some a).
    { intros a (u & l & Hu & Hl & Ha). destruct (decide (t = u)) as [<-|Hne].
      - exists t, CSwap. rewrite lookup_insert_eq. split_and!; [done|by right|done].
      - exists u, l. by rewrite lookup_insert_ne. }
    intros a b' [[<- <-]|[_ Ha]]%lookup_insert_Some.
    + right. apply Hkeep. exists t, CSet. split_and!; [done|by left|done].
    + destruct (cq_leak _ _ _ _ _ Hq a b' Ha) as [?|?]; [by left|right; by apply Hkeep].
Qed.

Lemma pred_at_app first q i x : i < length q → pred_at first (q ++ [x]) i = pred_at first q i.
Proof. intros Hi. destruct i as [|i]; [done|]. simpl. by rewrite lookup_app_l by lia. Qed.

Lemma pred_at_end first q x : pred_at first (q ++ [x]) (length q) = last (queue_nodes first q).
Proof.
  destruct q as [|y q] using rev_ind; [by destruct first|]. clear IHq. rewrite length_app, Nat.add_1_r. simpl.
  rewrite lookup_app_l by (rewrite length_app; simpl; lia). rewrite list_lookup_middle by done.
  unfold queue_nodes. rewrite fmap_app, (assoc_L app). change ([y].*2) with [y.2]. by rewrite last_snoc.
Qed.

Lemma clh_swap s W h first q t :
  clh_queue s W h first q → W !! t = Some CSwap →
  ∃ n, my_node s !! t = Some n ∧
    clh_queue (mk_clh_state (heap s) n (my_node s) (<[t := tail s]> (my_pred s))) (<[t := CSpin]> W) h first (q ++ [(t, n)]).
Proof.
  intros Hq Ht. assert (Htq := not_queued _ _ _ _ _ _ _ Hq Ht ltac:(done)).
  destruct (cq_own _ _ _ _ _ Hq t CSwap Ht) as (n & b & Hn & Hb & Htrue & Hnot); [by right|]. exists n. split; [done|].
  assert (Hcase : ∀ u l, <[t := CSpin]> W !! u = Some l → owns l → u ≠ t ∧ W !! u = Some l).
  { intros u l [[_ <-]|[? ?]]%lookup_insert_Some Hl; [destruct Hl; done|auto]. }
  assert (Hnodes : queue_nodes first (q ++ [(t, n)]) = queue_nodes first q ++ [n]) by (unfold queue_nodes; by rewrite fmap_app, (assoc_L app)).
  split; cbn [heap tail my_node my_pred]; rewrite ?Hnodes; try apply Hq.
  - apply last_snoc.
  - apply NoDup_app. split_and!; [apply Hq| |apply NoDup_singleton]. intros m Hm ->%list_elem_of_singleton. done.
  - rewrite fmap_app. apply NoDup_app. split_and!; [apply Hq| |apply NoDup_singleton]. intros u Hu ->%list_elem_of_singleton. done.
  - intros u o Hu. destruct (cq_head _ _ _ _ _ Hq u o Hu) as (m & q' & ->). by exists m, (q' ++ [(t, n)]).
  - intros u m [Hin|[= -> ->]%list_elem_of_singleton]%elem_of_app; [by apply Hq|]. split; [done|]. by rewrite Hb, Htrue.
  - intros i u m [Hi|[Hge Hi]]%lookup_app_Some.
    + rewrite pred_at_app by (by eapply lookup_lt_Some). rewrite lookup_insert_ne; [by eapply cq_preds|].
      intros <-. apply Htq. apply (list_elem_of_fmap_2 fst _ (t, m)). by eapply list_elem_of_lookup_2.
    + apply list_lookup_singleton_Some in Hi as [Hi [= -> ->]]. replace i with (length q) by lia.
      rewrite lookup_insert_eq, pred_at_end. symmetry. apply Hq.
  - intros u. rewrite fmap_app, elem_of_app, (cq_spin _ _ _ _ _ Hq). change ([(t, n)].*1) with [t]. rewrite list_elem_of_singleton.
    destruct (decide (t = u)) as [<-|Hne]; [rewrite lookup_insert_eq; naive_solver|rewrite lookup_insert_ne by done; naive_solver].
  - intros u o Hu. apply (cq_hold _ _ _ _ _ Hq) in Hu as Hu'. rewrite lookup_insert_ne; [done|]. congruence.
  - intros u l Hu Hl. destruct (Hcase u l Hu Hl) as [Hne Hu']. destruct (cq_own _ _ _ _ _ Hq u l Hu' Hl) as (m & b' & H1 & H2 & H3 & H4).
    exists m, b'. split_and!; try done. intros [?| ->%list_elem_of_singleton]%elem_of_app; [done|]. apply Hne.
    eapply (cq_own_inj _ _ _ _ _ Hq u t l CSwap); try done. by right.
  - intros u u' l l' m Hu Hu' Hl Hl'. destruct (Hcase u l Hu Hl) as [_ H1], (Hcase u' l' Hu' Hl') as [_ H1'].
    by eapply (cq_own_inj _ _ _ _ _ Hq).
  - intros a b' Ha. destruct (cq_leak _ _ _ _ _ Hq a b' Ha) as [?|(u & l & Hu & Hl & Hua)]; [left; apply elem_of_app; by left|].
    destruct (decide (t = u)) as [<-|Hne]; [left; apply elem_of_app; right; simplify_eq; by left|].
    right. exists u, l. by rewrite lookup_insert_ne.
Qed.

Lemma clh_spin s W h first q t :
  clh_queue s W h first q → W !! t = Some CSpin →
  ∃ p b, my_pred s !! t = Some p ∧ heap s !! p = Some b ∧
    (b = false → h = None ∧ clh_queue s (delete t W) (Some (t, None)) first q).
Proof.
  intros Hq Ht. assert (Hin : t ∈ q.*1) by (apply (cq_spin _ _ _ _ _ Hq); by left).
  apply list_elem_of_fmap in Hin as ([t' n] & [= <-] & [i Hi]%list_elem_of_lookup).
  assert (Hh : ∀ u o, h = Some (u, o) → i ≠ 0).
  { intros u o Hu ->. destruct (cq_head _ _ _ _ _ Hq u o Hu) as (m & q' & ->). apply (cq_hold _ _ _ _ _ Hq) in Hu. simplify_eq/=. }
  assert (Hp := cq_preds _ _ _ _ _ Hq i t n Hi). destruct i as [|j]; simpl in Hp.
  - assert (h = None) as -> by (destruct h as [[u o]|]; [by destruct (Hh u o)|done]).
    destruct first as [p|]; [|by destruct (proj1 (cq_first _ _ _ _ _ Hq) eq_refl)].
    exists p, false. split; [done|]. split; [by apply (cq_free _ _ _ _ _ Hq)|]. intros _. split; [done|].
    destruct q as [|x q]; [done|]. injection Hi as ->. split; try apply Hq.
    + split; [done|]. intros (u & ?). done.
    + intros u o [= <- <-]. eauto.
    + intros u. rewrite (cq_spin _ _ _ _ _ Hq). destruct (decide (t = u)) as [<-|Hne].
      * rewrite lookup_delete_eq. naive_solver.
      * rewrite lookup_delete_ne by done. naive_solver.
    + intros u o [= <- <-]. apply lookup_delete_eq.
    + intros u l [_ Hu]%lookup_delete_Some. by eapply cq_own.
    + intros u u' l l' m [_ Hu]%lookup_delete_Some [_ Hu']%lookup_delete_Some. by eapply (cq_own_inj _ _ _ _ _ Hq).
    + intros a b Ha. destruct (cq_leak _ _ _ _ _ Hq a b Ha) as [?|(u & l & Hu & Hl & Hua)]; [by left|right]. exists u, l.
      rewrite lookup_delete_ne; [done|]. intros <-. rewrite Ht in Hu. injection Hu as <-. by destruct Hl.
  - destruct (q !! j) as [[t' n']|] eqn:Hj; [|apply lookup_ge_None in Hj; apply lookup_lt_Some in Hi; lia].
    exists n', true. split; [done|]. split; [|done]. apply (cq_nodes _ _ _ _ _ Hq t'). by eapply list_elem_of_lookup_2.
Qed.

(** *** Steps of [unlock] *)

Lemma clh_free s W t first q :
  clh_queue s W (Some (t, Some UFree)) first q →
  ∃ p, my_pred s !! t = Some p ∧ heap s !! p = Some false ∧
    clh_queue (mk_clh_state (delete p (heap s)) (tail s) (my_node s) (delete t (my_pred s))) W (Some (t, Some UClear)) None q.
Proof.
  intros Hq. destruct first as [p|]; [|by destruct (proj1 (cq_first _ _ _ _ _ Hq) eq_refl)].
  destruct (cq_head _ _ _ _ _ Hq t (Some UFree) eq_refl) as (n & q' & ->). exists p.
  split; [apply (cq_preds _ _ _ _ _ Hq 0 t n eq_refl)|]. split; [by apply (cq_free _ _ _ _ _ Hq)|].
  assert (Hnd := cq_nodup _ _ _ _ _ Hq). cbn in Hnd. apply NoDup_cons in Hnd as [Hp Hnd].
  assert (Htids := cq_tids _ _ _ _ _ Hq).
  split; cbn [heap tail my_node my_pred]; try apply Hq; try done.
  - split; [by exists t|done].
  - intros u o [= <- <-]. eauto.
  - intros u m Hin. destruct (cq_nodes _ _ _ _ _ Hq u m Hin) as [H1 H2]. split; [done|]. rewrite lookup_delete_ne; [done|].
    intros <-. apply Hp. by apply (list_elem_of_fmap_2 snd ((t, n) :: q') (u, p)).
  - intros [|i] u m Hi; [injection Hi as <- <-; by rewrite lookup_delete_eq|]. assert (H := cq_preds _ _ _ _ _ Hq _ _ _ Hi).
    rewrite lookup_delete_ne; [done|]. intros <-. apply NoDup_cons in Htids as [Hnot _]. apply Hnot.
    apply (list_elem_of_fmap_2 fst _ (t, m)). by eapply list_elem_of_lookup_2.
  - intros u. rewrite (cq_spin _ _ _ _ _ Hq). naive_solver.
  - intros u o [= <- <-]. by eapply (cq_hold _ _ _ _ _ Hq).
  - intros u l Hu Hl. destruct (cq_own _ _ _ _ _ Hq u l Hu Hl) as (m & b & H1 & H2 & H3 & H4). exists m, b.
    rewrite lookup_delete_ne; [|intros <-; apply H4; by left]. split_and!; try done. intros Hin. apply H4. by right.
  - intros a b [Hne Ha]%lookup_delete_Some. destruct (cq_leak _ _ _ _ _ Hq a b Ha) as [[->|?]%elem_of_cons|?]; [done|by left|by right].
Qed.

Lemma clh_clear s W t first q :
  clh_queue s W (Some (t, Some UClear)) first q →
  ∃ n q', q = (t, n) :: q' ∧ my_node s !! t = Some n ∧ heap s !! n = Some true ∧
    clh_queue (mk_clh_state (<[n := false]> (heap s)) (tail s) (my_node s) (my_pred s)) W None (Some n) q'.
Proof.
  intros Hq. assert (first = None) as -> by (apply (cq_first _ _ _ _ _ Hq); by exists t).
  destruct (cq_head _ _ _ _ _ Hq t (Some UClear) eq_refl) as (n & q' & ->). exists n, q'. split; [done|].
  destruct (cq_nodes _ _ _ _ _ Hq t n) as [Hn Hb]; [by left|]. split; [done|]. split; [done|].
  assert (Hnd := cq_nodup _ _ _ _ _ Hq). cbn in Hnd. apply NoDup_cons in Hnd as [Hnot Hnd'].
  assert (Htids := cq_tids _ _ _ _ _ Hq). cbn in Htids. apply NoDup_cons in Htids as [Htq Htids].
  assert (HWt := cq_hold _ _ _ _ _ Hq t _ eq_refl).
  split; cbn [heap tail my_node my_pred]; try done.
  - rewrite <- (cq_tail _ _ _ _ _ Hq). done.
  - by apply NoDup_cons.
  - split; [done|]. by intros (u & ?).
  - intros m [= <-]. by rewrite lookup_insert_eq.
  - intros u m Hin. destruct (cq_nodes _ _ _ _ _ Hq u m) as [H1 H2]; [by right|]. split; [done|]. rewrite lookup_insert_ne; [done|].
    intros <-. apply Hnot. by apply (list_elem_of_fmap_2 snd _ (u, n)).
  - intros i u m Hi. rewrite (cq_preds _ _ _ _ _ Hq (S i) u m Hi). by destruct i.
  - intros u. assert (H := cq_spin _ _ _ _ _ Hq u). cbn in H. rewrite elem_of_cons in H. split.
    + intros Hu. left. destruct (proj1 H) as [?|(o & [= <- _])]; [by right|done|done].
    + intros [Hu|(o & ?)]; [|done]. destruct (proj2 H) as [->|?]; [by left|congruence|done].
  - intros u l Hu Hl. destruct (cq_own _ _ _ _ _ Hq u l Hu Hl) as (m & b & H1 & H2 & H3 & H4). exists m, b.
    rewrite lookup_insert_ne; [done|]. intros <-. apply H4. by left.
  - apply Hq.
  - intros a b [[<- <-]|[Hne Ha]]%lookup_insert_Some; [left; by left|]. by apply (cq_leak _ _ _ _ _ Hq a b).
Qed.

(** When no thread has the lock, the first thread of the queue gets it. *)
Lemma queue_head_free s W first q t :
  clh_queue s W None first q → t ∈ q.*1 → ∃ t', W !! t' = Some CSpin ∧ clh_lock_step t' 0 s CSpin = Some (Ok (s, None)).
Proof.
  intros Hq Ht. destruct q as [|[t' n] q]; [by apply elem_of_nil in Ht|]. exists t'.
  assert (HW : W !! t' = Some CSpin) by (destruct (proj1 (cq_spin _ _ _ _ _ Hq t')) as [?|(u & ?)]; [by left|done|done]). split; [done|].
  destruct first as [p|]; [|by destruct (proj1 (cq_first _ _ _ _ _ Hq) eq_refl)].
  cbn. unfold follow. rewrite (cq_preds _ _ _ _ _ Hq 0 t' n eq_refl). cbn. by rewrite (cq_free _ _ _ _ _ Hq p eq_refl).
Qed.

(** When no thread uses the lock, only the last node is left. *)
Lemma clh_idle_heap s W first q :
  clh_queue s W None first q → (∀ t, W !! t = None) → heap s = {[ tail s := false ]}.
Proof.
  intros Hq HW. destruct q as [|[t n] q].
  2:{ destruct (proj1 (cq_spin _ _ _ _ _ Hq t)) as [Ht|(u & ?)]; [by left|by rewrite HW in Ht|done]. }
  destruct first as [p|]; [|by destruct (proj1 (cq_first _ _ _ _ _ Hq) eq_refl)].
  assert (Htail := cq_tail _ _ _ _ _ Hq). injection Htail as <-. assert (Hp := cq_free _ _ _ _ _ Hq p eq_refl).
  apply map_eq. intros a. destruct (decide (p = a)) as [<-|Hne]; [by rewrite lookup_singleton_eq|]. rewrite lookup_singleton_ne by done.
  destruct (heap s !! a) as [b|] eqn:Ha; [|done]. destruct (cq_leak _ _ _ _ _ Hq a b Ha) as [Hin|(t & l & Ht & _)]; [|by rewrite HW in Ht].
  apply list_elem_of_singleton in Hin. congruence.
Qed.

(** ** The laws of a lock *)

#[global] Instance clh_laws first : LockLaws (clh first).
Proof.
  refine (Build_LockLaws (clh first) clh_rel _ clh_start _ _ _
    (λ p, match p with CAlloc => 3 | CSet => 2 | CSwap => 1 | CSpin => 0 end) (λ p, match p with UFree => 1 | UClear => 0 end) 3 _ _ _).
  - exists (Some first), []. split; simpl; try done.
    + apply NoDup_singleton.
    + constructor.
    + split; [done|]. by intros (t & ?).
    + intros n [= <-]. by rewrite lookup_singleton_eq.
    + intros t n ?%elem_of_nil. done.
    + intros t. rewrite lookup_empty. split; [by intros ?%elem_of_nil|]. intros [?|(u & ?)]; done.
    + intros a b [<- _]%lookup_singleton_Some. left. by left.
  - intros s W h t l node r (fst & q & Hq) Ht Hs. cbn in Hs. destruct l; cbn in Hs.
    + destruct (heap s !! node) eqn:Hn; [done|]. injection Hs as <-. eexists _, _. split; [reflexivity|].
      exists fst, q. by apply clh_alloc.
    + injection Hs as <-. destruct (clh_set _ _ _ _ _ _ Hq Ht) as (n & b & Hn & Hb & H). unfold follow. rewrite Hn, Hb.
      eexists _, _. split; [reflexivity|]. by exists fst, q.
    + injection Hs as <-. destruct (clh_swap _ _ _ _ _ _ Hq Ht) as (n & Hn & H). rewrite Hn.
      eexists _, _. split; [reflexivity|]. by eexists fst, _.
    + injection Hs as <-. destruct (clh_spin _ _ _ _ _ _ Hq Ht) as (p & b & Hp & Hb & H). unfold follow. rewrite Hp, Hb.
      eexists _, _. split; [reflexivity|]. destruct b; [exists fst, q; by rewrite insert_id|].
      destruct (H eq_refl) as [-> H']. split; [done|]. by exists fst, q.
  - intros s W t (fst & q & Hq). exists fst, q. destruct Hq as [H1 H2 H3 H4 H5 H6 H7 H8 H9 H10 H11 H12 H13]. split; try done.
    + rewrite H4. split; intros (u & ?); naive_solver.
    + intros u o [= <- <-]. by eapply H6.
    + intros u. rewrite H9. naive_solver.
    + intros u o [= <- <-]. by eapply H10.
  - intros s W t u (fst & q & Hq). cbn. destruct u; cbn.
    + destruct (clh_free _ _ _ _ _ Hq) as (p & Hp & Hb & H). unfold follow. rewrite Hp, Hb. eexists _, _. split; [reflexivity|]. by exists None, q.
    + destruct (clh_clear _ _ _ _ _ Hq) as (n & q' & _ & Hn & Hb & H). unfold follow. rewrite Hn, Hb. eexists _, _. split; [reflexivity|].
      by exists (Some n), q'.
  - split; simpl; lia.
  - intros t s u s' u' Hs. cbn in Hs. unfold clh_unlock_step, follow in Hs. destruct u; [destruct (my_pred s !! t)|destruct (my_node s !! t)];
      try done; destruct (heap s !! _); simplify_eq/=; lia.
  - intros s W t l (fst & q & Hq) Ht. cbn in Ht |- *. destruct l.
    + exists t, CAlloc, (fresh (dom (heap s))). cbn. rewrite (not_elem_of_dom_1 (heap s) _ (is_fresh _)). eexists _, _.
      split; [done|]. split; [reflexivity|]. intros l' [= <-]. lia.
    + destruct (clh_set _ _ _ _ _ _ Hq Ht) as (n & b & Hn & Hb & H). exists t, CSet, 0. cbn. unfold follow. rewrite Hn, Hb.
      eexists _, _. split; [done|]. split; [reflexivity|]. intros l' [= <-]. lia.
    + destruct (clh_swap _ _ _ _ _ _ Hq Ht) as (n & Hn & H). exists t, CSwap, 0. cbn. rewrite Hn.
      eexists _, _. split; [done|]. split; [reflexivity|]. intros l' [= <-]. lia.
    + destruct (queue_head_free _ _ _ _ t Hq) as (t' & Ht' & Hs); [apply (cq_spin _ _ _ _ _ Hq); by left|].
      exists t', CSpin, 0, s, None. split; [done|]. by split.
Defined.

(** ** Properties *)

(** C9. The counting program with the CLH lock, with any number of threads and
    increments whose product is an [int]: no step of any interleaving follows a
    null, uninitialised or freed pointer, two threads are never in their critical
    sections at the same time, all threads can finish from every state, and then
    the counter is exact and the only node left is the one that [tail] points to,
    which [main] frees. *)
Theorem clh_count first NUM_THREAD NUM_WORK w :
  (Z.of_nat (NUM_THREAD * (NUM_WORK * 1)) ≤ INT_MAX)%Z →
  rtc (step (impl := clh first) NUM_WORK 1) (count_main NUM_THREAD) w →
  (∀ tid node e, thread_step NUM_WORK 1 tid node w ≠ Some (Err e)) ∧
  (∀ t u th uh, threads w !! t = Some th → threads w !! u = Some uh → in_critical th → in_critical uh → t = u) ∧
  (∃ w', rtc (step NUM_WORK 1) w w' ∧ finished NUM_WORK w') ∧
  (finished NUM_WORK w → cnt_global w = Z.of_nat (NUM_THREAD * NUM_WORK) ∧
     heap (lock_state w) = {[ tail (lock_state w) := false ]}).
Proof.
  intros Hint Hr. destruct (count_program_correct (impl := clh first) NUM_WORK 1 NUM_THREAD Hint w Hr) as (H1 & H2 & H3 & H4).
  split_and!; [done..|]. intros Hfin. split; [rewrite (H3 Hfin); lia|].
  assert (Hok := count_steps_ok (impl := clh first) NUM_WORK 1 NUM_THREAD Hint w Hr).
  destruct (ok_lock _ _ _ _ Hok) as (W & h & (fst & q & Hq) & HW & Hh).
  assert (Hidle : ∀ t th, threads w !! t = Some th → waiting_of th = None ∧ holder_of th = None).
  { intros t th Ht. eapply Forall_lookup_1 in Hfin; [|exact Ht]. by destruct th. }
  assert (h = None) as ->. { destruct h as [[t u]|]; [|done]. destruct (proj1 (Hh t u) eq_refl) as (th & Ht & Hu). destruct (Hidle t th Ht). congruence. }
  assert (HWe : ∀ t, W !! t = None). { intros t. rewrite HW. destruct (threads w !! t) as [th|] eqn:Ht; [|done]. by destruct (Hidle t th Ht). }
  by apply (clh_idle_heap (lock_state w) W fst q).
Qed.

Definition clh_end : world (impl := clh 0) :=
  end_of 1 1 ((λ t, (t, t + 1)) <$> replicate 3 0 ++ replicate 4 1 ++ [0; 0] ++ replicate 6 1 ++ replicate 6 0) (count_main 2).

Lemma clh_count_witness :
  finished 1 clh_end ∧ cnt_global clh_end = 2%Z ∧ heap (lock_state clh_end) = {[ tail (lock_state clh_end) := false ]}.
Proof.
  assert (Hfin : finished 1 clh_end) by (apply (bool_decide_unpack _); vm_compute; constructor). split; [exact Hfin|].
  destruct (clh_count 0 2 1 clh_end) as (_ & _ & _ & H); [done| |exact (H Hfin)].
  apply count_run_steps. vm_compute. reflexivity.
Defined.
