(* ===== verification/Primes.v ===== *)
(** The programs that count the primes of a range: [lab04/prime_mt.cpp] (and the same
    program in [lab07]), [lab07/new.cpp] and [lab03/lab03_prime.cpp]. The threads of
    [prime_mt] share nothing but an array in which each writes its own element, so
    their work is modelled as a function of the range and the thread id. *)
From stdpp Require Import functions base tactics numbers option list list_numbers gmap sets relations sorting.
From Stdlib Require Import ZArith Lia Znumtheory.
From S2P Require Import Prelude.
Open Scope nat_scope.

(** ** IsPrime *)

(** for (int i = 2; i <= sqrt(n); i++) if (n % i == 0) return false;

    For an [int] the correctly rounded square root of type [double] compares with an
    integer as the exact root does, so the test is a comparison with [Z.sqrt]. *)
Fixpoint is_prime_loop (fuel : nat) (n i : Z) : res bool :=
  match fuel with
  | 0 => Err OutOfFuel
  | S fuel =>
      if (i <=? Z.sqrt n)%Z then
        if (i =? 0)%Z then Err UndefinedBehaviour
        else if (Z.rem n i =? 0)%Z then Ok false
        else is_prime_loop fuel n (i + 1)
      else Ok true
  end.

(** The loop ends at the latest when [i] is above the root. *)
Definition IsPrime (n : Z) : res bool :=
  if (n <? 2)%Z then Ok false else is_prime_loop (Z.to_nat (Z.sqrt n)) n 2.

(** ** Counting in a range *)

Definition NUM_THREAD : Z := 10.

(** for (int i = start; i < end; i++) if (IsPrime(i)) cnt_prime++; *)
Fixpoint count_loop (fuel : nat) (i end_ cnt_prime : Z) : res Z :=
  if (i <? end_)%Z then
    match fuel with
    | 0 => Err OutOfFuel
    | S fuel =>
        b ← IsPrime i;
        count_loop fuel (i + 1) end_ (if b : bool then cnt_prime + 1 else cnt_prime)
    end
  else Ok cnt_prime.

Definition count_primes (start end_ : Z) : res Z := count_loop (Z.to_nat (end_ - start)) start end_ 0.

(** The part of thread [tid]; the multiplication with the [long] tid is done in 64 bits
    and the result converted to [int]. *)
Definition thread_range (range_start range_end tid : Z) : res (Z * Z) :=
  d ← int_arith (range_end - range_start);
  let start := to_int (range_start + Z.quot d NUM_THREAD * tid) in
  let end_ := to_int (range_start + Z.quot d NUM_THREAD * (tid + 1)) in
  if (tid =? NUM_THREAD - 1)%Z then e ← int_arith (range_end + 1); Ok (start, e) else Ok (start, end_).

(** [thread_ret[tid]] *)
Definition ThreadFunc (range_start range_end tid : Z) : res Z :=
  '(start, end_) ← thread_range range_start range_end tid;
  cnt_prime ← count_primes start end_;
  Ok (to_int cnt_prime).

(** for (int i = 0; i < NUM_THREAD; i++) cnt_prime += thread_ret[i]; *)
Fixpoint collect (cnt_prime : Z) (thread_ret : list Z) : res Z :=
  match thread_ret with
  | [] => Ok cnt_prime
  | r :: thread_ret => c ← int_arith (cnt_prime + r); collect c thread_ret
  end.

Fixpoint run_threads (range_start range_end : Z) (tids : list Z) : res (list Z) :=
  match tids with
  | [] => Ok []
  | tid :: tids =>
      r ← ThreadFunc range_start range_end tid;
      rs ← run_threads range_start range_end tids;
      Ok (r :: rs)
  end.

(** One turn of the loop of [main]: the number that is printed. *)
Definition prime_mt_round (range_start range_end : Z) : res Z :=
  thread_ret ← run_threads range_start range_end (seqZ 0 NUM_THREAD);
  collect 0 thread_ret.

(** The loop of [main] on the ranges of the input, up to the first -1. *)
Fixpoint prime_mt_main (input : list (Z * Z)) : res (list Z) :=
  match input with
  | [] => Ok []
  | (range_start, range_end) :: input =>
      if (range_start =? -1)%Z then Ok []
      else
        c ← prime_mt_round range_start range_end;
        cs ← prime_mt_main input;
        Ok (c :: cs)
  end.

(** [ThreadFunc] of [new.cpp] has no parts, and its range does not include the end. *)
Definition new_ThreadFunc (range_start range_end : Z) : res Z := count_primes range_start range_end.

(** ** The program of [lab03] *)

Definition NUM_INCREASE : Z := 100000.

(** The loop starts at 0, and the result is stored in an array. *)
Definition lab03_IsPrime (is_prime : list bool) (n : Z) : res (list bool) :=
  b ← (if (n <? 2)%Z then Ok false else is_prime_loop (S (S (Z.to_nat (Z.sqrt n)))) n 0);
  match array_get is_prime n with
  | Some _ => Ok (array_set is_prime n b)
  | None => Err UndefinedBehaviour
  end.

(** The loop of [ThreadFunc] from [i] on. *)
Fixpoint lab03_loop (fuel : nat) (is_prime : list bool) (tid i : Z) : res (list bool) :=
  match fuel with
  | 0 => Ok is_prime
  | S fuel =>
      is_prime ← lab03_IsPrime is_prime (to_int (tid * NUM_INCREASE + i));
      lab03_loop fuel is_prime tid (i + 1)
  end.

Definition lab03_ThreadFunc (is_prime : list bool) (tid : Z) : res (list bool) :=
  lab03_loop (Z.to_nat NUM_INCREASE) is_prime tid 0.

(** ** Specification *)

#[global] Instance prime_decision z : Decision (prime z) := prime_dec z.

(** The number of primes p with a <= p < b. *)
Definition primes_between (a b : Z) : Z := Z.of_nat (length (filter prime (seqZ a (b - a)))).

(** ** IsPrime is right *)

(** A number above 1 is prime unless it has a divisor up to its root. *)
Lemma small_divisor n : (2 ≤ n)%Z → ¬ prime n → ∃ d, (2 ≤ d ≤ Z.sqrt n)%Z ∧ (d | n)%Z.
Proof.
  intros Hn Hp. destruct (not_prime_divide n) as (d & Hd & [c Hc]); [lia|done|].
  destruct (decide (d ≤ Z.sqrt n)%Z) as [Hle|Hgt]; [exists d; split; [lia|by exists c]|].
  exists c. split; [|exists d; by rewrite Z.mul_comm]. assert (0 < c)%Z by nia. assert (c ≠ 1)%Z by nia.
  assert (Hs := Z.sqrt_spec n ltac:(lia)). split; [lia|]. destruct (Z.le_gt_cases c (Z.sqrt n)) as [?|Hc']; [done|].
  assert (Hnn := Z.sqrt_nonneg n). assert (Hm := Z.mul_le_mono_nonneg (Z.succ (Z.sqrt n)) c (Z.succ (Z.sqrt n)) d). cbv zeta in Hs. lia.
Qed.

Lemma is_prime_loop_correct fuel n i :
  (2 ≤ n)%Z → (2 ≤ i ≤ Z.sqrt n + 1)%Z → (Z.sqrt n + 1 - i < Z.of_nat fuel)%Z → (∀ d, (2 ≤ d < i)%Z → ¬ (d | n)%Z) →
  is_prime_loop fuel n i = Ok (bool_decide (prime n)).
Proof.
  revert i. induction fuel as [|fuel IH]; intros i Hn Hi Hf Hdiv; simpl.
  - lia.
  - destruct (Z.leb_spec i (Z.sqrt n)) as [Hle|Hgt].
    + rewrite (proj2 (Z.eqb_neq i 0)) by lia. destruct (Z.eqb_spec (Z.rem n i) 0) as [Hr|Hr].
      * apply Z.rem_divide in Hr; [|lia]. rewrite bool_decide_false; [done|]. intros Hp.
        destruct (prime_divisors n Hp i Hr) as [?|[?|[?|?]]]; [lia|lia| |lia]. subst i.
        assert (Hs := Z.sqrt_spec n). assert (H2 := Z.sqrt_lt_lin n). lia.
      * apply IH; [done|lia|lia|]. intros d Hd. destruct (decide (d = i)) as [->|Hne]; [|apply Hdiv; lia].
        intros Hd'. apply Hr, Z.rem_divide; [lia|done].
    + f_equal. symmetry. apply bool_decide_true. destruct (prime_dec n) as [Hp|Hp]; [done|].
      destruct (small_divisor n Hn Hp) as (d & Hd & Hdn). destruct (Hdiv d); [lia|done].
Qed.

Lemma IsPrime_Ok n : IsPrime n = Ok (bool_decide (prime n)).
Proof.
  unfold IsPrime. destruct (Z.ltb_spec n 2) as [Hlt|Hge].
  - rewrite bool_decide_false; [done|]. intros Hp%prime_ge_2. lia.
  - assert (0 < Z.sqrt n)%Z by (apply Z.sqrt_pos; lia). apply is_prime_loop_correct; [done|lia|lia|intros d; lia].
Qed.

(** ** Counting is right *)

Lemma primes_between_empty a b : (b ≤ a)%Z → primes_between a b = 0%Z.
Proof. intros Hle. unfold primes_between. rewrite seqZ_nil by lia. done. Qed.

Lemma primes_between_cons a b :
  (a < b)%Z → primes_between a b = ((if bool_decide (prime a) then 1 else 0) + primes_between (a + 1) b)%Z.
Proof.
  intros Hlt. unfold primes_between. rewrite seqZ_cons by lia.
  replace (Z.pred (b - a))%Z with (b - (a + 1))%Z by lia. rewrite <- Z.add_1_r. case_bool_decide as Hp.
  - rewrite filter_cons_True by done. rewrite length_cons. lia.
  - by rewrite filter_cons_False.
Qed.

Lemma primes_between_app a b c : (a ≤ b ≤ c)%Z → (primes_between a b + primes_between b c = primes_between a c)%Z.
Proof.
  intros Habc. unfold primes_between. replace (c - a)%Z with ((b - a) + (c - b))%Z by lia.
  rewrite seqZ_app by lia. rewrite filter_app, length_app. replace (a + (b - a))%Z with b by lia. lia.
Qed.

(** There are no primes below 2, so there are fewer than [b - 1] primes below [b]. *)
Lemma primes_between_bound a b : (0 ≤ primes_between a b ≤ Z.max 0 (b - 2))%Z.
Proof.
  split; [unfold primes_between; lia|]. remember (Z.to_nat (b - a)) as n eqn:Hn. revert a Hn. induction n as [|n IH]; intros a Hn.
  - rewrite primes_between_empty by lia. lia.
  - rewrite primes_between_cons by lia. specialize (IH (a + 1)%Z). case_bool_decide as Hp; [apply prime_ge_2 in Hp|lia].
    assert (Hlen : (primes_between (a + 1) b ≤ b - (a + 1))%Z); [|lia].
    unfold primes_between. assert (H := length_filter prime (seqZ (a + 1) (b - (a + 1)))). rewrite length_seqZ in H. lia.
Qed.

Lemma count_loop_correct fuel i e c :
  (e - i ≤ Z.of_nat fuel)%Z → count_loop fuel i e c = Ok (c + primes_between i e)%Z.
Proof.
  revert i c. induction fuel as [|fuel IH]; intros i c Hf; simpl; destruct (Z.ltb_spec i e) as [Hlt|Hge]; try lia;
    try (rewrite primes_between_empty by lia; f_equal; lia).
  rewrite IsPrime_Ok. cbn [mbind res_bind]. rewrite IH by lia. rewrite (primes_between_cons i e) by lia.
  destruct (bool_decide (prime i)); f_equal; lia.
Qed.

Lemma count_primes_Ok start e : count_primes start e = Ok (primes_between start e).
Proof. unfold count_primes. rewrite count_loop_correct by lia. by rewrite Z.add_0_l. Qed.

(** *** The parts of the threads *)

Definition part_bound (range_start range_end k : Z) : Z :=
  if (k =? NUM_THREAD)%Z then range_end + 1 else range_start + Z.quot (range_end - range_start) NUM_THREAD * k.

Lemma quot_bounds d : (0 ≤ d → 0 ≤ 10 * Z.quot d 10 ≤ d)%Z ∧ (d ≤ 0 → d ≤ 10 * Z.quot d 10 ≤ 0 ∧ (d < 0 → d < 9 * Z.quot d 10))%Z.
Proof.
  assert (H := Z.quot_rem' d 10). split; intros Hd.
  - assert (Hr := Z.rem_bound_pos d 10 ltac:(lia) ltac:(lia)). assert (Hq := Z.quot_pos d 10 ltac:(lia) ltac:(lia)). lia.
  - assert (Hr := Z.rem_bound_pos_neg d 10 ltac:(lia) ltac:(lia)). assert (Hq : (Z.quot d 10 ≤ 0)%Z); [|lia].
    rewrite <- (Z.opp_involutive d), Z.quot_opp_l by lia. assert (Hq := Z.quot_pos (- d) 10 ltac:(lia) ltac:(lia)). lia.
Qed.

Section range.
  Context (range_start range_end : Z).
  Context (Hs : (INT_MIN ≤ range_start ≤ INT_MAX)%Z) (He : (INT_MIN ≤ range_end < INT_MAX)%Z).
  Context (Hd : (INT_MIN ≤ range_end - range_start ≤ INT_MAX)%Z).

Local Notation bound := (part_bound range_start range_end).

Lemma bound_int k : (0 ≤ k ≤ 10)%Z → (INT_MIN ≤ bound k ≤ INT_MAX)%Z.
Proof.
  intros Hk. unfold part_bound, NUM_THREAD. destruct (Z.eqb_spec k 10); [lia|].
  destruct (quot_bounds (range_end - range_start)) as [Hq1 Hq2]. destruct (decide (0 ≤ range_end - range_start)%Z); nia.
Qed.

Lemma thread_range_Ok tid : (0 ≤ tid < 10)%Z → thread_range range_start range_end tid = Ok (bound tid, bound (tid + 1)).
Proof.
  intros Ht. assert (H1 := bound_int tid ltac:(lia)). assert (H2 := bound_int (tid + 1) ltac:(lia)).
  unfold thread_range. rewrite (int_arith_Ok (range_end - range_start)) by lia. cbn [mbind res_bind]. cbv zeta. unfold part_bound, NUM_THREAD in *.
  rewrite (proj2 (Z.eqb_neq tid 10)) in * by lia.
  rewrite to_int_id by lia.
  destruct (Z.eqb_spec tid (10 - 1)) as [->|Hne].
  - rewrite int_arith_Ok by lia. done.
  - rewrite (proj2 (Z.eqb_neq (tid + 1) 10)) in * by lia. by rewrite to_int_id by lia.
Qed.

Lemma ThreadFunc_Ok tid : (0 ≤ tid < 10)%Z → ThreadFunc range_start range_end tid = Ok (primes_between (bound tid) (bound (tid + 1))).
Proof.
  intros Ht. unfold ThreadFunc. rewrite thread_range_Ok by done. cbn [mbind res_bind]. rewrite count_primes_Ok. cbn [mbind res_bind].
  assert (H := bound_int (tid + 1) ltac:(lia)). assert (Hb := primes_between_bound (bound tid) (bound (tid + 1))).
  rewrite to_int_id; [done|]. unfold INT_MIN, INT_MAX in *. lia.
Qed.

Lemma run_threads_Ok n k :
  (0 ≤ k)%Z → (k + Z.of_nat n ≤ 10)%Z →
  run_threads range_start range_end (seqZ k (Z.of_nat n)) = Ok ((λ t, primes_between (bound t) (bound (t + 1))) <$> seqZ k (Z.of_nat n)).
Proof.
  revert k. induction n as [|n IH]; intros k Hk Hn; [done|]. rewrite seqZ_cons by lia.
  replace (Z.pred (Z.of_nat (S n))) with (Z.of_nat n) by lia. cbn [run_threads]. rewrite ThreadFunc_Ok by lia. cbn [mbind res_bind].
  rewrite IH by lia. done.
Qed.

Definition part (t : Z) : Z := primes_between (bound t) (bound (t + 1)).

(** The parts follow each other when the range is not empty, and are empty otherwise. *)
Lemma bound_step k :
  (0 ≤ k < 10)%Z →
  if decide (range_start ≤ range_end)%Z then (range_start ≤ bound k ≤ bound (k + 1))%Z else (bound (k + 1) ≤ bound k)%Z.
Proof.
  intros Hk. unfold part_bound, NUM_THREAD. rewrite (proj2 (Z.eqb_neq k 10)) by lia.
  destruct (quot_bounds (range_end - range_start)) as [Hq1 Hq2].
  case_decide as Hle; destruct (Z.eqb_spec (k + 1) 10) as [Hk9|Hk9]; [replace k with 9%Z by lia; lia|nia|replace k with 9%Z by lia; lia|nia].
Qed.

Lemma parts_sum n :
  (Z.of_nat n ≤ 10)%Z →
  foldr Z.add 0%Z (part <$> seqZ 0 (Z.of_nat n)) =
    if decide (range_start ≤ range_end)%Z then primes_between range_start (bound (Z.of_nat n)) else 0%Z.
Proof.
  induction n as [|n IH]; intros Hn.
  - simpl. case_decide; [|done]. rewrite primes_between_empty; [done|]. unfold part_bound. simpl. lia.
  - replace (Z.of_nat (S n)) with (Z.of_nat n + 1)%Z by lia. rewrite seqZ_app by lia. rewrite fmap_app, foldr_app.
    assert (Hlast : foldr Z.add 0%Z (part <$> seqZ (0 + Z.of_nat n) 1) = part (Z.of_nat n)) by (rewrite Z.add_0_l, seqZ_cons by lia; rewrite seqZ_nil by lia; simpl; lia).
    rewrite Hlast. assert (Hfold : ∀ l x, foldr Z.add x l = (foldr Z.add 0 l + x)%Z) by (intros l x; induction l; simpl; lia).
    rewrite Hfold, IH by lia. assert (Hb := bound_step (Z.of_nat n) ltac:(lia)). unfold part. case_decide.
    + by rewrite primes_between_app.
    + rewrite primes_between_empty by done. done.
Qed.

Lemma collect_Ok l c :
  (0 ≤ c)%Z → Forall (λ r, (0 ≤ r)%Z) l → (c + foldr Z.add 0%Z l ≤ INT_MAX)%Z → collect c l = Ok (c + foldr Z.add 0%Z l)%Z.
Proof.
  intros Hc Hl. revert c Hc. induction Hl as [|r l Hr Hl IH]; intros c Hc Hsum; simpl in *; [f_equal; lia|].
  assert (Hpos : (0 ≤ foldr Z.add 0 l)%Z) by (clear -Hl; induction Hl; simpl; lia).
  rewrite int_arith_Ok by (unfold INT_MIN; lia). cbn [mbind res_bind]. rewrite IH by lia. f_equal. lia.
Qed.

Lemma collect_parts : collect 0 (part <$> seqZ 0 10) = Ok (primes_between range_start (range_end + 1)).
Proof.
  assert (Hsum := parts_sum 10 ltac:(lia)). change (Z.of_nat 10) with 10%Z in Hsum.
  assert (Hend : (if decide (range_start ≤ range_end)%Z then primes_between range_start (bound 10) else 0%Z) =
                 primes_between range_start (range_end + 1)).
  { case_decide; [done|]. by rewrite primes_between_empty by lia. }
  rewrite Hend in Hsum. assert (Hb := primes_between_bound range_start (range_end + 1)).
  rewrite collect_Ok; [by rewrite Hsum, Z.add_0_l|done| |rewrite Hsum; unfold INT_MAX in *; lia].
  apply Forall_fmap, Forall_true. intros t. unfold compose, part. apply primes_between_bound.
Qed.

Lemma prime_mt_round_Ok : prime_mt_round range_start range_end = Ok (primes_between range_start (range_end + 1)).
Proof.
  unfold prime_mt_round. change NUM_THREAD with (Z.of_nat 10). rewrite run_threads_Ok by lia. apply collect_parts.
Qed.

End range.

(** ** Properties *)

(** [IsPrime] terminates for every [int], within the root of its argument many turns
    of its loop, and returns whether the argument is prime. *)
Theorem IsPrime_correct n : (INT_MIN ≤ n ≤ INT_MAX)%Z → ∃ b, IsPrime n = Ok b ∧ (b = true ↔ prime n).
Proof. intros _. exists (bool_decide (prime n)). split; [apply IsPrime_Ok|apply bool_decide_eq_true]. Qed.

(** C14. [prime_mt] prints for every range from the input the number of primes from its
    start to its end, both included, whenever the length of the range is an [int]
    and its end is not the largest [int]: the parts of the ten threads neither
    overlap nor leave a gap, also for a range whose end is before its start. *)
Theorem prime_mt_correct input :
  Forall (λ '(s, e), (INT_MIN ≤ s ≤ INT_MAX ∧ INT_MIN ≤ e < INT_MAX ∧ INT_MIN ≤ e - s ≤ INT_MAX)%Z ∧ s ≠ (-1)%Z) input →
  prime_mt_main input = Ok ((λ '(s, e), primes_between s (e + 1)) <$> input).
Proof.
  induction 1 as [|[s e] input ((H1 & H2 & H3) & H4) _ IH]; [done|]. simpl.
  rewrite (proj2 (Z.eqb_neq s (-1))) by done. rewrite prime_mt_round_Ok by done. cbn [mbind res_bind]. by rewrite IH.
Qed.

(** The end of a range is treated in two ways: [new.cpp] counts the primes below the
    end, [prime_mt.cpp] those up to the end, so they differ exactly when the end is
    prime. *)
Theorem new_excludes_end s e :
  (INT_MIN ≤ s ≤ e)%Z → (e < INT_MAX)%Z → (e - s ≤ INT_MAX)%Z →
  new_ThreadFunc s e = Ok (primes_between s e) ∧
  prime_mt_round s e = Ok (primes_between s e + if bool_decide (prime e) then 1 else 0)%Z.
Proof.
  intros H1 H2 H3. split; [apply count_primes_Ok|]. rewrite prime_mt_round_Ok by (unfold INT_MIN, INT_MAX in *; lia).
  rewrite <- (primes_between_app s e (e + 1)) by lia. rewrite (primes_between_cons e) by lia. rewrite (primes_between_empty (e + 1)) by lia.
  do 2 f_equal. lia.
Qed.

(** [IsPrime] of [lab03] divides by zero for every argument above 1, whatever the
    state of the array, so no thread of [lab03_prime] ends its loop. *)
Theorem lab03_divides_by_zero is_prime tid :
  (0 ≤ tid < 10)%Z →
  (∀ n, (2 ≤ n)%Z → lab03_IsPrime is_prime n = Err UndefinedBehaviour) ∧ ∃ e, lab03_ThreadFunc is_prime tid = Err e.
Proof.
  intros Ht. assert (Hz : ∀ l n, (2 ≤ n)%Z → lab03_IsPrime l n = Err UndefinedBehaviour).
  { intros l n Hn. unfold lab03_IsPrime. rewrite (proj2 (Z.ltb_ge _ _)) by lia. simpl. assert (H := Z.sqrt_nonneg n).
    by rewrite (proj2 (Z.leb_le _ _)). }
  split; [by apply Hz|]. unfold lab03_ThreadFunc. replace (Z.to_nat NUM_INCREASE) with (3 + Z.to_nat (NUM_INCREASE - 3)) by done.
  generalize (Z.to_nat (NUM_INCREASE - 3)) as fuel. intros fuel.
  assert (Hn : (to_int (tid * NUM_INCREASE + 2) = tid * NUM_INCREASE + 2)%Z) by (apply to_int_id; unfold INT_MIN, INT_MAX, NUM_INCREASE; lia).
  cbn [lab03_loop plus]. destruct (lab03_IsPrime is_prime (to_int (tid * NUM_INCREASE + 0))) as [l1|e]; [|by exists e]. cbn [mbind res_bind].
  destruct (lab03_IsPrime l1 (to_int (tid * NUM_INCREASE + (0 + 1)))) as [l2|e]; [|by exists e]. cbn [mbind res_bind].
  replace (0 + 1 + 1)%Z with 2%Z by lia. rewrite Hn, Hz by (unfold NUM_INCREASE; lia). eauto.
Qed.

Lemma IsPrime_correct_witness : ∃ b, IsPrime 91 = Ok b ∧ (b = true ↔ prime 91).
Proof. apply (IsPrime_correct 91). unfold INT_MIN, INT_MAX. lia. Defined.

Lemma prime_mt_correct_witness : prime_mt_main [(0, 30); (7, 3)]%Z = Ok [primes_between 0 31; primes_between 7 4].
Proof. apply (prime_mt_correct [(0, 30); (7, 3)]%Z). repeat constructor; unfold INT_MIN, INT_MAX; simpl; lia. Defined.

Lemma new_excludes_end_witness : new_ThreadFunc 2 7 = Ok (primes_between 2 7).
Proof. apply (new_excludes_end 2 7); unfold INT_MIN, INT_MAX; lia. Defined.

Lemma lab03_divides_by_zero_witness : ∃ e, lab03_ThreadFunc (replicate 10 false) 3 = Err e.
Proof. apply (lab03_divides_by_zero (replicate 10 false) 3). lia. Defined.
