(* ===== verification/PrimeCond.v ===== *)
(** The program of [lab04/prime_cond.cpp]: ten threads that sleep on a condition variable
    between the ranges of the input. A critical section that ends in
    [pthread_cond_wait] or in an unlock is one step, so the mutex is free between
    the steps. A thread wakes up only by a broadcast. *)
From stdpp Require Import functions base tactics numbers option list list_numbers gmap sets relations sorting.
From Stdlib Require Import ZArith Lia Znumtheory.
From S2P Require Import Prelude Primes.
Open Scope nat_scope.

(** ** State *)

(** The points of [ThreadFunc]: before the first lock, asleep in [pthread_cond_wait],
    woken up, at the test of [finished], with its part of the range, with its count,
    and at the end. *)
Inductive worker : Type :=
| WStart
| WAsleep
| WWoken
| WTest
| WCount (start end_ : Z)
| WPublish (cnt_prime : Z)
| WDone.

#[global] Instance worker_eq_dec : EqDecision worker.
Proof. solve_decision. Defined.

(** The points of [main]. *)
Inductive main_pc : Type :=
| MRead
| MReadEnd (range_end : Z)
| MClear (i : nat)
| MBroadcast
| MPoll (i : nat)
| MCollect
| MFinish
| MFinalBroadcast
| MJoin (i : nat)
| MDone.

Record world : Type := mk_world {
  range_start : Z;
  range_end : Z;
  thread_ret : list Z;
  finished : bool;
  workers : list worker;
  main : main_pc;
  input : list (Z * Z);
  output : list Z;
}.

(** ** Steps *)

Definition set_worker (tid : nat) (p : worker) (w : world) : world :=
  mk_world (range_start w) (range_end w) (thread_ret w) (finished w) (<[tid := p]> (workers w)) (main w) (input w) (output w).

Definition set_main (m : main_pc) (w : world) : world :=
  mk_world (range_start w) (range_end w) (thread_ret w) (finished w) (workers w) m (input w) (output w).

Definition set_ret (tid : nat) (r : Z) (w : world) : world :=
  mk_world (range_start w) (range_end w) (<[tid := r]> (thread_ret w)) (finished w) (workers w) (main w) (input w) (output w).

(** A step of thread [tid]; [None] while it sleeps and when it has ended. *)
Definition worker_step (tid : nat) (w : world) : option (res world) :=
  p ← workers w !! tid;
  match p with
  | WStart => Some (Ok (set_worker tid WAsleep w))
  | WAsleep => None
  | WWoken => Some (Ok (set_worker tid WTest w))
  | WTest =>
      Some (if finished w then Ok (set_worker tid WDone w)
            else '(start, end_) ← thread_range (range_start w) (range_end w) (Z.of_nat tid);
                 Ok (set_worker tid (WCount start end_) w))
  | WCount start end_ => Some (c ← count_primes start end_; Ok (set_worker tid (WPublish c) w))
  | WPublish c => Some (Ok (set_worker tid WAsleep (set_ret tid (to_int c) w)))
  | WDone => None
  end.

Definition wake (p : worker) : worker := match p with WAsleep => WWoken | _ => p end.

Definition broadcast (w : world) : world :=
  mk_world (range_start w) (range_end w) (thread_ret w) (finished w) (wake <$> workers w) (main w) (input w) (output w).

(** A step of [main]; [None] while it waits for a thread to end. *)
Definition main_step (w : world) : option (res world) :=
  match main w with
  | MRead =>
      Some (Ok match input w with
               | [] => set_main MFinish w
               | (s, e) :: rest =>
                   if (s =? -1)%Z then set_main MFinish w
                   else mk_world s (range_end w) (thread_ret w) (finished w) (workers w) (MReadEnd e) rest (output w)
               end)
  | MReadEnd e => Some (Ok (mk_world (range_start w) e (thread_ret w) (finished w) (workers w) (MClear 0) (input w) (output w)))
  | MClear i => Some (Ok (if i <? 10 then set_main (MClear (S i)) (set_ret i (-1) w) else set_main MBroadcast w))
  | MBroadcast => Some (Ok (set_main (MPoll 0) (broadcast w)))
  | MPoll i =>
      Some (if i <? 10 then
              match thread_ret w !! i with
              | Some r => Ok (if (r =? -1)%Z then w else set_main (MPoll (S i)) w)
              | None => Err UndefinedBehaviour
              end
            else Ok (set_main MCollect w))
  | MCollect =>
      Some (c ← collect 0 (thread_ret w);
            Ok (mk_world (range_start w) (range_end w) (thread_ret w) (finished w) (workers w) MRead (input w) (output w ++ [c])))
  | MFinish => Some (Ok (mk_world (range_start w) (range_end w) (thread_ret w) true (workers w) MFinalBroadcast (input w) (output w)))
  | MFinalBroadcast => Some (Ok (set_main (MJoin 0) (broadcast w)))
  | MJoin i =>
      if i <? 10 then if decide (workers w !! i = Some WDone) then Some (Ok (set_main (MJoin (S i)) w)) else None
      else Some (Ok (set_main MDone w))
  | MDone => None
  end.

(** The state when [main] has created the threads. *)
Definition prime_cond_main (ranges : list (Z * Z)) : world :=
  mk_world 0 0 (replicate 10 0%Z) false (replicate 10 WStart) MRead ranges [].

Definition world_step (who : option nat) (w : world) : option (res world) :=
  match who with Some tid => worker_step tid w | None => main_step w end.

Definition step (w w' : world) : Prop := ∃ who, world_step who w = Some (Ok w').

(** ** Invariant *)

Definition range_ok (r : Z * Z) : Prop :=
  let '(s, e) := r in (INT_MIN ≤ s ≤ INT_MAX ∧ INT_MIN ≤ e < INT_MAX ∧ INT_MIN ≤ e - s ≤ INT_MAX)%Z.

Definition answer (r : Z * Z) : Z := let '(s, e) := r in primes_between s (e + 1).

(** Between the rounds no thread is at work. *)
Definition resting (p : worker) : Prop := p = WStart ∨ p = WAsleep.

(** A thread during a round: [r] is its element of [thread_ret]. *)
Definition round_ok (s e : Z) (tid : nat) (p : worker) (r : Z) : Prop :=
  let n := part s e (Z.of_nat tid) in
  match p with
  | WAsleep => r = (-1)%Z ∨ r = n
  | WStart | WWoken | WTest => r = (-1)%Z
  | WCount a b => r = (-1)%Z ∧ primes_between a b = n
  | WPublish c => r = (-1)%Z ∧ c = n
  | WDone => False
  end.

(** At the end. *)
Definition ending (p : worker) : Prop := match p with WCount _ _ | WPublish _ => False | _ => True end.

Definition phase_ok (w : world) : Prop :=
  match main w with
  | MRead | MReadEnd _ | MFinish => finished w = false ∧ Forall resting (workers w)
  | MClear i => finished w = false ∧ Forall resting (workers w) ∧ range_ok (range_start w, range_end w) ∧ (∀ j, j < i → j < 10 → thread_ret w !! j = Some (-1)%Z) ∧ i ≤ 10
  | MBroadcast => finished w = false ∧ Forall resting (workers w) ∧ range_ok (range_start w, range_end w) ∧ ∀ j, j < 10 → thread_ret w !! j = Some (-1)%Z
  | MPoll i => finished w = false ∧ range_ok (range_start w, range_end w) ∧
      (∀ t p r, workers w !! t = Some p → thread_ret w !! t = Some r → round_ok (range_start w) (range_end w) t p r) ∧
      (∀ j r, j < i → thread_ret w !! j = Some r → r ≠ (-1)%Z) ∧ i ≤ 10
  | MCollect => finished w = false ∧ range_ok (range_start w, range_end w) ∧ Forall resting (workers w) ∧
      thread_ret w = (part (range_start w) (range_end w)) <$> seqZ 0 10
  | MFinalBroadcast | MJoin _ | MDone => finished w = true ∧ Forall ending (workers w)
  end.

(** The range at work has been read but not answered. *)
Definition current (w : world) : list (Z * Z) :=
  match main w with
  | MReadEnd e => [(range_start w, e)]
  | MClear _ | MBroadcast | MPoll _ | MCollect => [(range_start w, range_end w)]
  | _ => []
  end.

Record world_ok (ranges : list (Z * Z)) (w : world) : Prop := {
  ok_phase : phase_ok w;
  ok_workers : length (workers w) = 10;
  ok_rets : length (thread_ret w) = 10;
  ok_input : ∃ before, ranges = before ++ current w ++ input w ∧ output w = answer <$> before;
}.

Lemma part_nonneg s e t : (0 ≤ part s e t)%Z.
Proof. unfold part. apply primes_between_bound. Qed.

Lemma part_int s e tid : range_ok (s, e) → tid < 10 → (INT_MIN ≤ part s e (Z.of_nat tid) ≤ INT_MAX)%Z.
Proof.
  intros (H1 & H2 & _) Ht. assert (Hb := primes_between_bound (part_bound s e (Z.of_nat tid)) (part_bound s e (Z.of_nat tid + 1))).
  assert (Hint := bound_int _ _ H1 H2 (Z.of_nat tid + 1) ltac:(lia)). unfold part, INT_MIN, INT_MAX in *. lia.
Qed.

Lemma Forall_put {A} (P : A → Prop) l i x : Forall P l → P x → Forall P (<[i := x]> l).
Proof. intros Hl Hx. by apply Forall_insert. Qed.

(** ** Steps of a thread *)

(** A thread that is resting can only fall asleep. *)
Lemma resting_step w tid r :
  Forall resting (workers w) → worker_step tid w = Some r → r = Ok (set_worker tid WAsleep w).
Proof.
  intros Hrest Hs. unfold worker_step in Hs. destruct (workers w !! tid) as [p|] eqn:Hp; [|done]. cbn [mbind option_bind] in Hs.
  eapply Forall_lookup_1 in Hrest; [|exact Hp]. destruct Hrest as [->| ->]; simplify_eq. done.
Qed.

Lemma ending_step w tid r :
  finished w = true → Forall ending (workers w) → worker_step tid w = Some r → ∃ p, ending p ∧ r = Ok (set_worker tid p w).
Proof.
  intros Hf Hend Hs. unfold worker_step in Hs. rewrite Hf in Hs. destruct (workers w !! tid) as [p|] eqn:Hp; [|done]. cbn [mbind option_bind] in Hs.
  eapply Forall_lookup_1 in Hend; [|exact Hp]. destruct p; simplify_eq; try done; by (eexists; split; [|reflexivity]).
Qed.

Lemma thread_range_part s e tid :
  range_ok (s, e) → tid < 10 →
  ∃ a b, thread_range s e (Z.of_nat tid) = Ok (a, b) ∧ primes_between a b = part s e (Z.of_nat tid).
Proof.
  intros (H1 & H2 & H3) Ht. eexists _, _. split; [apply thread_range_Ok; try done; lia|done].
Qed.

(** During a round the thread changes to [p] and its result to [r]. *)
Lemma round_put w tid p r :
  length (workers w) = 10 → length (thread_ret w) = 10 → tid < 10 →
  (∀ t p r, workers w !! t = Some p → thread_ret w !! t = Some r → round_ok (range_start w) (range_end w) t p r) →
  round_ok (range_start w) (range_end w) tid p r →
  ∀ t p' r', <[tid := p]> (workers w) !! t = Some p' → <[tid := r]> (thread_ret w) !! t = Some r' →
    round_ok (range_start w) (range_end w) t p' r'.
Proof.
  intros Hw Hr Ht Hall Hp t p' r' Hp' Hr'. destruct (decide (tid = t)) as [<-|Hne].
  - rewrite list_lookup_insert_eq in Hp' by lia. rewrite list_lookup_insert_eq in Hr' by lia. by simplify_eq.
  - rewrite list_lookup_insert_ne in Hp' by done. rewrite list_lookup_insert_ne in Hr' by done. by apply Hall.
Qed.

Lemma round_step w tid r i :
  main w = MPoll i → phase_ok w → length (workers w) = 10 → length (thread_ret w) = 10 →
  worker_step tid w = Some r →
  ∃ p ret, r = Ok (set_worker tid p (set_ret tid ret w)) ∧ phase_ok (set_worker tid p (set_ret tid ret w)).
Proof.
  intros Hm Hph Hw Hr Hs. unfold phase_ok in Hph. rewrite Hm in Hph. destruct Hph as (Hf & Hrange & Hall & Hdone & Hi).
  unfold worker_step in Hs. destruct (workers w !! tid) as [p|] eqn:Hp; [|done]. cbn [mbind option_bind] in Hs. rewrite Hf in Hs.
  assert (Ht : tid < 10) by (rewrite <- Hw; by eapply lookup_lt_Some).
  destruct (lookup_lt_is_Some_2 (thread_ret w) tid) as [ret Hret]; [lia|]. assert (Hold := Hall tid p ret Hp Hret).
  assert (Hpoll : ∀ ret', (ret ≠ -1 → ret' ≠ -1)%Z → ∀ j x, j < i → <[tid := ret']> (thread_ret w) !! j = Some x → x ≠ (-1)%Z).
  { intros ret' Hne j x Hj Hx. destruct (decide (tid = j)) as [<-|Hneq].
    - rewrite list_lookup_insert_eq in Hx by lia. simplify_eq. apply Hne. by eapply Hdone.
    - rewrite list_lookup_insert_ne in Hx by done. by eapply Hdone. }
  assert (Hput : ∀ p' ret', (ret ≠ -1 → ret' ≠ -1)%Z → round_ok (range_start w) (range_end w) tid p' ret' → phase_ok (set_worker tid p' (set_ret tid ret' w))).
  { intros p' ret' Hne Hround. unfold phase_ok. cbn [main set_worker set_ret]. rewrite Hm. cbn.
    split_and!; [done|apply Hrange..| |by apply Hpoll|done]. by apply round_put. }
  assert (Hsame : set_ret tid ret w = w) by (unfold set_ret; rewrite list_insert_id by done; by destruct w).
  assert (Hlocal : ∀ p', round_ok (range_start w) (range_end w) tid p' ret →
    ∃ p ret, Ok (set_worker tid p' w) = Ok (set_worker tid p (set_ret tid ret w)) ∧ phase_ok (set_worker tid p (set_ret tid ret w))).
  { intros p' Hround. exists p', ret. rewrite Hsame. split; [done|]. rewrite <- Hsame. by apply Hput. }
  destruct p; simplify_eq; simpl in Hold.
  - apply Hlocal. by left.
  - by apply Hlocal.
  - destruct (thread_range_part _ _ tid Hrange Ht) as (a & b & -> & Hab). cbn [mbind res_bind]. apply Hlocal. done.
  - rewrite count_primes_Ok. cbn [mbind res_bind]. by apply Hlocal.
  - destruct Hold as [-> ->]. eexists WAsleep, _. split; [reflexivity|]. apply Hput; [done|]. simpl. right. apply to_int_id.
    by apply part_int.
Qed.

Lemma set_worker_ok ranges w tid p ret :
  world_ok ranges w → phase_ok (set_worker tid p (set_ret tid ret w)) → world_ok ranges (set_worker tid p (set_ret tid ret w)).
Proof. intros Hok Hph. split; [done|cbn; rewrite length_insert; apply Hok..|apply Hok]. Qed.

Lemma set_worker_phase_ok ranges w tid p :
  world_ok ranges w → phase_ok (set_worker tid p w) → world_ok ranges (set_worker tid p w).
Proof. intros Hok Hph. split; [done|cbn; rewrite length_insert; apply Hok|apply Hok..]. Qed.

Lemma cond_worker_step_ok ranges w tid r :
  world_ok ranges w → worker_step tid w = Some r → ∃ w', r = Ok w' ∧ world_ok ranges w'.
Proof.
  intros Hok Hs. assert (Hph := ok_phase _ _ Hok).
  assert (Hrest : Forall resting (workers w) → phase_ok (set_worker tid WAsleep w) → ∃ w', r = Ok w' ∧ world_ok ranges w').
  { intros Hrest Hph'. eexists. split; [by eapply resting_step|]. by apply set_worker_phase_ok. }
  assert (Hend : finished w = true → Forall ending (workers w) → (∀ p, ending p → phase_ok (set_worker tid p w)) → ∃ w', r = Ok w' ∧ world_ok ranges w').
  { intros Hf Hend Hph'. destruct (ending_step w tid r Hf Hend Hs) as (p & Hp & ->). eexists. split; [done|]. apply set_worker_phase_ok; auto. }
  assert (Hsleep : resting WAsleep) by (by right).
  destruct (main w) eqn:Hm; try (unfold phase_ok in *; rewrite Hm in *; cbn [main set_worker] in *; rewrite Hm in *; cbn in * ).
  all: try (apply Hend; [apply Hph..|]; intros p Hp; split; [apply Hph|]; apply Forall_put; [apply Hph|done]).
  all: try (apply Hrest; [apply Hph|]; split_and!; try apply Hph; apply Forall_put; [apply Hph|done]).
  destruct (round_step w tid r i Hm (ok_phase _ _ Hok) (ok_workers _ _ Hok) (ok_rets _ _ Hok) Hs) as (p & ret & -> & H).
  eexists. split; [reflexivity|]. by apply set_worker_ok.
Qed.

(** ** Steps of [main] *)

Lemma poll_all w :
  length (workers w) = 10 → length (thread_ret w) = 10 →
  (∀ t p r, workers w !! t = Some p → thread_ret w !! t = Some r → round_ok (range_start w) (range_end w) t p r) →
  (∀ j r, j < 10 → thread_ret w !! j = Some r → r ≠ (-1)%Z) →
  Forall resting (workers w) ∧ thread_ret w = part (range_start w) (range_end w) <$> seqZ 0 10.
Proof.
  intros Hw Hr Hall Hdone.
  assert (Hboth : ∀ t p r, workers w !! t = Some p → thread_ret w !! t = Some r → p = WAsleep ∧ r = part (range_start w) (range_end w) (Z.of_nat t)).
  { intros t p r Hp Hret. assert (H := Hall t p r Hp Hret). assert (Hne : r ≠ (-1)%Z) by (eapply Hdone; [rewrite <- Hw; by eapply lookup_lt_Some|done]).
    destruct p; simpl in H; try done; naive_solver. }
  split.
  - apply Forall_lookup_2. intros t p Hp. assert (Ht : t < 10) by (rewrite <- Hw; by eapply lookup_lt_Some).
    destruct (lookup_lt_is_Some_2 (thread_ret w) t) as [r Hret]; [lia|]. right. by apply (Hboth t p r).
  - apply list_eq_same_length with 10; [by rewrite length_fmap, length_seqZ|done|]. intros t r r' Ht Hret Hr'.
    destruct (lookup_lt_is_Some_2 (workers w) t) as [p Hp]; [lia|]. destruct (Hboth t p r Hp Hret) as [_ ->].
    rewrite list_lookup_fmap in Hr'. rewrite (proj2 (lookup_seqZ _ _ _ (Z.of_nat t))) in Hr' by lia. simpl in Hr'. congruence.
Qed.

Lemma wake_round w t p r :
  Forall resting (workers w) → (∀ j, j < 10 → thread_ret w !! j = Some (-1)%Z) → length (thread_ret w) = 10 →
  (wake <$> workers w) !! t = Some p → thread_ret w !! t = Some r → round_ok (range_start w) (range_end w) t p r.
Proof.
  intros Hrest Hret Hlen (q & -> & Hq)%list_lookup_fmap_Some Hr. rewrite Hret in Hr by (rewrite <- Hlen; by eapply lookup_lt_Some).
  injection Hr as <-. eapply Forall_lookup_1 in Hrest; [|exact Hq]. by destruct Hrest as [->| ->].
Qed.

Lemma cond_main_step_ok ranges w r :
  Forall range_ok ranges → world_ok ranges w → main_step w = Some r → ∃ w', r = Ok w' ∧ world_ok ranges w'.
Proof.
  intros Hranges [Hph Hw Hr (before & Hin & Hout)] Hs. unfold main_step in Hs. unfold phase_ok in Hph. unfold current in Hin.
  destruct (main w) as [|e|i| |i| | | |i|] eqn:Hm.
  - injection Hs as <-. destruct (input w) as [|[s e] rest] eqn:Hinp; [|destruct (Z.eqb_spec s (-1)) as [->|Hne]];
      (eexists; split; [reflexivity|]); (split; [exact Hph|done|done|]); exists before; cbn; by rewrite ?Hinp.
  - injection Hs as <-. eexists. split; [reflexivity|]. split; [|done|done|by exists before]. destruct Hph as [Hf Hrest].
    split_and!; try done; try lia; (eapply Forall_forall in Hranges; [|rewrite Hin; apply elem_of_app; right; by left]); apply Hranges.
  - destruct Hph as (Hf & Hrest & Hrange & Hclear & Hi). destruct (Nat.ltb_spec i 10) as [Hlt|Hge]; injection Hs as <-;
      (eexists; split; [reflexivity|]); (split; [|done|cbn; by rewrite ?length_insert|by exists before]); split_and!; try done; try apply Hrange.
    + intros j Hj Hj10. cbn. destruct (decide (i = j)) as [<-|Hne]; [apply list_lookup_insert_eq; lia|].
      rewrite list_lookup_insert_ne by done. apply Hclear; lia.
    + intros j Hj. apply Hclear; lia.
  - destruct Hph as (Hf & Hrest & Hrange & Hclear). injection Hs as <-. eexists. split; [reflexivity|].
    split; [|cbn; by rewrite length_fmap|done|by exists before]. split_and!; try done; try apply Hrange; try lia.
    intros t p x. by apply (wake_round w).
  - destruct Hph as (Hf & Hrange & Hall & Hdone & Hi). destruct (Nat.ltb_spec i 10) as [Hlt|Hge]; injection Hs as <-.
    + destruct (lookup_lt_is_Some_2 (thread_ret w) i) as [x Hx]; [lia|]. rewrite Hx. eexists. split; [reflexivity|].
      destruct (Z.eqb_spec x (-1)) as [->|Hne].
      * split; [|done|done|]; unfold phase_ok, current; rewrite Hm; [by split_and!|by exists before].
      * split; [|done|done|by exists before]. split_and!; try done; try apply Hrange. intros j y Hj Hy.
        destruct (decide (j = i)) as [->|Hji]; [cbn in Hy; congruence|]. eapply Hdone; [|exact Hy]. lia.
    + eexists. split; [reflexivity|]. assert (i = 10) as -> by lia. destruct (poll_all w Hw Hr Hall Hdone) as [Hrest Hret].
      split; [|done|done|by exists before]. by split_and!; try apply Hrange.
  - destruct Hph as (Hf & (H1 & H2 & H3) & Hrest & Hret). injection Hs as <-. rewrite Hret. rewrite collect_parts by done.
    eexists. split; [reflexivity|]. split; [by split|done|done|]. exists (before ++ [(range_start w, range_end w)]). cbn.
    rewrite fmap_app, Hout. split; [by rewrite <- (assoc_L app)|done].
  - destruct Hph as [Hf Hrest]. injection Hs as <-. eexists. split; [reflexivity|]. split; [|done|done|by exists before]. split; [done|]. cbn.
    eapply Forall_impl; [exact Hrest|]. by intros p [->| ->].
  - destruct Hph as [Hf Hend]. injection Hs as <-. eexists. split; [reflexivity|]. split; [|cbn; by rewrite length_fmap|done|by exists before].
    split; [done|]. cbn. apply Forall_fmap. eapply Forall_impl; [exact Hend|]. by intros [].
  - destruct (i <? 10); [case_decide; [|done]|]; injection Hs as <-; (eexists; split; [reflexivity|]);
      (split; [exact Hph|done|done|by exists before]).
  - done.
Qed.

Lemma prime_cond_steps_ok ranges w :
  Forall range_ok ranges → rtc step (prime_cond_main ranges) w → world_ok ranges w.
Proof.
  intros Hranges. revert w. apply rtc_ind_r.
  - split; [split; [done|]; apply Forall_replicate; by left|done|done|by exists []].
  - intros w w' _ ([tid|] & Hs) IH; cbn in Hs.
    + by destruct (cond_worker_step_ok _ _ _ _ IH Hs) as (? & [= <-] & ?).
    + by destruct (cond_main_step_ok _ _ _ Hranges IH Hs) as (? & [= <-] & ?).
Qed.

(** ** Properties *)

Definition spins (w : world) : Prop := ∀ who w', world_step who w = Some (Ok w') → w' = w.

(** Whatever numbers [prime_cond] prints are right: in every interleaving of [main]
    and the ten threads no step fails, and the numbers printed are those of primes in
    the first ranges of the input, in order. *)
Theorem prime_cond_outputs ranges w :
  Forall range_ok ranges → rtc step (prime_cond_main ranges) w →
  (∃ done_ rest, ranges = done_ ++ rest ∧ output w = answer <$> done_) ∧ ∀ who e, world_step who w ≠ Some (Err e).
Proof.
  intros Hranges Hr. assert (Hok := prime_cond_steps_ok ranges w Hranges Hr). split.
  - destruct (ok_input _ _ Hok) as (before & H1 & H2). eauto.
  - intros [tid|] e Hs; cbn in Hs.
    + by destruct (cond_worker_step_ok _ _ _ _ Hok Hs) as (? & ? & _).
    + by destruct (cond_main_step_ok _ _ _ Hranges Hok Hs) as (? & ? & _).
Qed.

Fixpoint run (schedule : list (option nat)) (w : world) : option world :=
  match schedule with
  | [] => Some w
  | who :: schedule => match world_step who w with Some (Ok w') => run schedule w' | _ => None end
  end.

Lemma cond_run_steps schedule w w' : run schedule w = Some w' → rtc step w w'.
Proof.
  revert w. induction schedule as [|who schedule IH]; simpl; intros w Hw; [by injection Hw as <-|].
  destruct (world_step who w) as [[w1|]|] eqn:Hs; [|done..]. eapply rtc_l; [by exists who|by apply IH].
Qed.

(** [main] broadcasts before the threads wait. *)
Definition early_broadcast : list (option nat) := replicate 14 None ++ (Some <$> seq 0 10).

Definition stuck_world : world := mk_world 2 100 (replicate 10 (-1)%Z) false (replicate 10 WAsleep) (MPoll 0) [] [].

(** The wake-up of [prime_cond] can be lost: if [main] reads the first range and
    broadcasts before the threads have reached [pthread_cond_wait], all threads
    sleep, [main] polls [thread_ret] forever, and nothing is printed. *)
Theorem prime_cond_lost_wakeup :
  ∃ w, rtc step (prime_cond_main [(2, 100)]%Z) w ∧ main w = MPoll 0 ∧ Forall (λ p, p = WAsleep) (workers w) ∧ output w = [] ∧ spins w.
Proof.
  exists stuck_world. split; [apply (cond_run_steps early_broadcast); vm_compute; reflexivity|].
  split; [done|]. split; [by apply Forall_replicate|]. split; [done|].
  intros [tid|] w' Hs; cbn [world_step] in Hs; [|vm_compute in Hs; by injection Hs as <-].
  unfold worker_step, stuck_world in Hs. cbn [workers] in Hs.
  destruct (replicate 10 WAsleep !! tid) as [p|] eqn:Hp; [|done]. by apply lookup_replicate in Hp as [-> _].
Qed.

Definition cond_round : list (option nat) :=
  (Some <$> seq 0 10) ++ replicate 14 None ++ (seq 0 10 ≫= λ t, replicate 4 (Some t)) ++ replicate 13 None.

Definition cond_end : world := Eval vm_compute in default stuck_world (run cond_round (prime_cond_main [(0, 30)]%Z)).

Lemma prime_cond_outputs_witness :
  output cond_end = [10%Z] ∧ ∃ done_ rest, [(0, 30)]%Z = done_ ++ rest ∧ output cond_end = answer <$> done_.
Proof.
  split; [reflexivity|]. apply (prime_cond_outputs [(0, 30)]%Z cond_end).
  - repeat constructor; unfold INT_MIN, INT_MAX; simpl; lia.
  - apply (cond_run_steps cond_round). vm_compute. reflexivity.
Defined.
