(* ===== verification/Snapshot.v ===== *)
(** The wait-free snapshot of project 3: [scan] and [update] of [WFSnapshot.cc] and the
    threads of [main.cc]. The copies that [collect] makes are private to a thread and
    are values of the model; the arrays that the entries of [a_table] point to are in
    a shared heap. Each access to [a_table] is a step of its own; memory is
    sequentially consistent. *)
From stdpp Require Import functions base tactics numbers option list list_numbers gmap sets relations sorting.
From Stdlib Require Import ZArith Lia.
From S2P Require Import Prelude.

(** ** scan on collected copies *)

(** An entry of a copy: the array it points to was copied too. *)
Record stamped_copy : Type := mk_copy { c_stamp : Z; c_value : Z; c_snap : list Z }.

(** The for loop over a pair of collections: the snapshot to return, or the new flags of
    the threads that have moved. *)
Inductive verdict : Type := Return (result : list Z) | Again (moved : list bool).

Fixpoint compare (j : nat) (old_copy new_copy : list stamped_copy) (moved : list bool) : option verdict :=
  match old_copy, new_copy with
  | o :: old_copy, c :: new_copy =>
      if decide (c_stamp o = c_stamp c) then compare (S j) old_copy new_copy moved
      else match moved !! j with
           | Some true => Some (Return (c_snap o))
           | _ => Some (Again (<[j := true]> moved))
           end
  | _, _ => None
  end.

Definition judge (old_copy new_copy : list stamped_copy) (moved : list bool) : verdict :=
  match compare 0 old_copy new_copy moved with
  | Some v => v
  | None => Return (c_value <$> new_copy)
  end.

(** The loop of [scan] when the collections are [tables k], [tables (S k)], ... *)
Fixpoint scan_loop (fuel : nat) (tables : nat → list stamped_copy) (k : nat) (moved : list bool) : res (list Z) :=
  match fuel with
  | 0 => Err OutOfFuel
  | S fuel =>
      match judge (tables k) (tables (S k)) moved with
      | Return r => Ok r
      | Again moved => scan_loop fuel tables (S k) moved
      end
  end.

Definition scan (num_of_threads fuel : nat) (tables : nat → list stamped_copy) : res (list Z) :=
  scan_loop fuel tables 0 (replicate num_of_threads false).

(** ** The shared table *)

(** [snap] is the address of an array. *)
Record stamped_snap_t : Type := mk_stamped_snap { stamp : Z; value : Z; snap : nat }.

(** The reads of [collect] for one entry, in the order of the arguments; the language
    leaves this order to the compiler. *)
Inductive collect_pc : Type := CStamp | CValue (s : Z) | CSnap (s v : Z) | CCopy (s v : Z) (p : nat).

(** The points of [thread_func]: in [scan] with the copies and the part of the next
    collection made so far, then the writes of [update]. [v] is [value]. *)
Inductive thread : Type :=
| TIdle (v : Z)
| TScan (v : Z) (old_copy : option (list stamped_copy)) (moved : list bool) (copy : list stamped_copy) (p : collect_pc)
| TStamp (v : Z) (result : list Z)
| TValue (v : Z) (result : list Z)
| TSnap (v : Z) (result : list Z)
| TDelete (v : Z) (to_be_deleted : nat)
| TCount (v : Z)
| TEnd.

Record world : Type := mk_world {
  heap : gmap nat (list Z);
  a_table : list stamped_snap_t;
  num_of_update : list Z;
  ended : bool;
  threads : list thread;
}.

Definition set_thread (tid : nat) (th : thread) (w : world) : world :=
  mk_world (heap w) (a_table w) (num_of_update w) (ended w) (<[tid := th]> (threads w)).

Definition set_entry (tid : nat) (e : stamped_snap_t) (w : world) : world :=
  mk_world (heap w) (<[tid := e]> (a_table w)) (num_of_update w) (ended w) (threads w).

(** [++] on an [int64_t]. *)
Definition increment (z : Z) : res Z := if (z <? 2 ^ 63 - 1)%Z then Ok (z + 1)%Z else Err UndefinedBehaviour.

(** The element of an array. *)
Definition entry {A} (l : list A) (i : nat) : res A :=
  match l !! i with Some e => Ok e | None => Err UndefinedBehaviour end.

(** After an entry has been copied: the next entry, the second collection, or the loop
    over the pair. *)
Definition collected (n : nat) (v : Z) (old_copy : option (list stamped_copy)) (moved : list bool) (copy : list stamped_copy) : thread :=
  if length copy <? n then TScan v old_copy moved copy CStamp
  else match old_copy with
       | None => TScan v (Some copy) moved [] CStamp
       | Some old => match judge old copy moved with
                     | Return r => TStamp v r
                     | Again moved => TScan v (Some copy) moved [] CStamp
                     end
       end.

(** A step of thread [tid] of [n]; [node] is the address that new[] returns for the array of
    the result. *)
Definition thread_step (n tid node : nat) (w : world) : option (res world) :=
  th ← threads w !! tid;
  match th with
  | TIdle v =>
      Some (if ended w then Ok (set_thread tid TEnd w)
            else v ← increment v; Ok (set_thread tid (TScan v None (replicate n false) [] CStamp) w))
  | TScan v old moved copy p =>
      let i := length copy in
      Some (e ← entry (a_table w) i;
            match p with
            | CStamp => Ok (set_thread tid (TScan v old moved copy (CValue (stamp e))) w)
            | CValue s => Ok (set_thread tid (TScan v old moved copy (CSnap s (value e))) w)
            | CSnap s x => Ok (set_thread tid (TScan v old moved copy (CCopy s x (snap e))) w)
            | CCopy s x p =>
                match heap w !! p with
                | Some a => Ok (set_thread tid (collected n v old moved (copy ++ [mk_copy s x a])) w)
                | None => Err UndefinedBehaviour
                end
            end)
  | TStamp v r =>
      Some (e ← entry (a_table w) tid; s ← increment (stamp e);
            Ok (set_thread tid (TValue v r) (set_entry tid (mk_stamped_snap s (value e) (snap e)) w)))
  | TValue v r => Some (e ← entry (a_table w) tid; Ok (set_thread tid (TSnap v r) (set_entry tid (mk_stamped_snap (stamp e) v (snap e)) w)))
  | TSnap v r =>
      match heap w !! node with
      | Some _ => None
      | None =>
          Some (e ← entry (a_table w) tid;
                Ok (mk_world (<[node := r]> (heap w)) (<[tid := mk_stamped_snap (stamp e) (value e) node]> (a_table w))
                      (num_of_update w) (ended w) (<[tid := TDelete v (snap e)]> (threads w))))
      end
  | TDelete v p =>
      Some match heap w !! p with
           | Some _ => Ok (mk_world (delete p (heap w)) (a_table w) (num_of_update w) (ended w) (<[tid := TCount v]> (threads w)))
           | None => Err UndefinedBehaviour
           end
  | TCount v =>
      Some (c ← entry (num_of_update w) tid; c ← increment c;
            Ok (mk_world (heap w) (a_table w) (<[tid := c]> (num_of_update w)) (ended w) (<[tid := TIdle v]> (threads w))))
  | TEnd => None
  end.

(** The constructor of [WFSnapshot_t] and [main]: the arrays of the [n] entries are at the
    addresses 0, ..., n - 1 and zero. *)
Definition snapshot_main (n : nat) : world :=
  mk_world (list_to_map ((λ i, (i, replicate n 0%Z)) <$> seq 0 n)) ((λ i, mk_stamped_snap 0 0 i) <$> seq 0 n)
    (replicate n 0%Z) false (replicate n (TIdle 0)).

(** A step of a thread, or [main] sets [end]. *)
Definition world_step (n : nat) (who : option (nat * nat)) (w : world) : option (res world) :=
  match who with
  | Some (tid, node) => thread_step n tid node w
  | None => Some (Ok (mk_world (heap w) (a_table w) (num_of_update w) true (threads w)))
  end.

Definition step (n : nat) (w w' : world) : Prop := ∃ who, world_step n who w = Some (Ok w').

(** What [main] prints in the end. *)
Definition sum_of_update_num (w : world) : Z := foldr Z.add 0%Z (num_of_update w).

(** ** scan is wait-free *)

(** The threads that have not been seen to move. *)
Definition unmoved (moved : list bool) : nat := sum_list_with (λ b : bool, if b then 0 else 1) moved.

Lemma unmoved_insert moved j : moved !! j = Some false → unmoved moved = S (unmoved (<[j := true]> moved)).
Proof.
  unfold unmoved. revert j. induction moved as [|b moved IH]; intros [|j] Hj; simplify_eq/=.
  - done.
  - rewrite (IH j) by done. lia.
Qed.

Lemma compare_again j old new moved moved' :
  j + length old ≤ length moved → compare j old new moved = Some (Again moved') →
  length moved' = length moved ∧ unmoved moved = S (unmoved moved').
Proof.
  revert j new. induction old as [|o old IH]; intros j [|c new] Hlen H; simplify_eq/=.
  destruct (decide _) as [_|_]; [apply (IH (S j) new); [lia|done]|].
  destruct (lookup_lt_is_Some_2 moved j ltac:(lia)) as [b Hb]. rewrite Hb in H.
  destruct b; simplify_eq. split; [apply length_insert|by apply unmoved_insert].
Qed.

Lemma judge_again old new moved moved' :
  length old ≤ length moved → judge old new moved = Again moved' →
  length moved' = length moved ∧ unmoved moved = S (unmoved moved').
Proof.
  unfold judge. intros Hlen H. destruct (compare 0 old new moved) as [[]|] eqn:Hc; simplify_eq.
  by apply (compare_again 0 old new).
Qed.

Lemma scan_loop_returns fuel tables k moved :
  (∀ i, length (tables i) ≤ length moved) → unmoved moved < fuel → ∃ r, scan_loop fuel tables k moved = Ok r.
Proof.
  revert k moved. induction fuel as [|fuel IH]; intros k moved Hlen Hf; [lia|]. cbn.
  destruct (judge _ _ moved) as [r|moved'] eqn:Hj; [by exists r|].
  destruct (judge_again _ _ _ _ (Hlen k) Hj) as [Hl Hu]. apply IH; [by rewrite Hl|lia].
Qed.

(** ** The values of snapshots *)

(** An array of values each of which its thread has written. *)
Definition bounded (t : list stamped_snap_t) (a : list Z) : Prop :=
  Forall2 (λ x e, 0 ≤ x ≤ value e)%Z a t.

Definition copies_ok (t : list stamped_snap_t) (copy : list stamped_copy) : Prop :=
  ∀ i c, copy !! i = Some c → bounded t (c_snap c) ∧ ∃ e, t !! i = Some e ∧ (0 ≤ c_value c ≤ value e)%Z.

Definition read_ok (t : list stamped_snap_t) (i : nat) (p : collect_pc) : Prop :=
  match p with
  | CSnap _ x | CCopy _ x _ => ∃ e, t !! i = Some e ∧ (0 ≤ x ≤ value e)%Z
  | _ => True
  end.

(** What a thread holds. *)
Definition data_ok (t : list stamped_snap_t) (th : thread) : Prop :=
  match th with
  | TScan _ old _ copy p =>
      from_option (λ c, length c = length t ∧ copies_ok t c) True old ∧ copies_ok t copy ∧ length copy < length t ∧
      read_ok t (length copy) p
  | TStamp _ r | TValue _ r | TSnap _ r => bounded t r
  | _ => True
  end.

(** The entry and the counter of a thread. *)
Definition owner_ok (e : stamped_snap_t) (c : Z) (th : thread) : Prop :=
  match th with
  | TIdle v => stamp e = v ∧ value e = v ∧ c = v
  | TScan v _ _ _ _ | TStamp v _ => (stamp e + 1 = v ∧ value e + 1 = v ∧ c + 1 = v)%Z
  | TValue v _ => (stamp e = v ∧ value e + 1 = v ∧ c + 1 = v)%Z
  | TSnap v _ | TDelete v _ | TCount v => (stamp e = v ∧ value e = v ∧ c + 1 = v)%Z
  | TEnd => stamp e = c ∧ value e = c
  end.

Record inv (n : nat) (w : world) : Prop := {
  inv_table : length (a_table w) = n;
  inv_values : bounded (a_table w) (value <$> a_table w);
  inv_heap : map_Forall (λ _ a, bounded (a_table w) a) (heap w);
  inv_length : length (threads w) = n;
  inv_count : length (num_of_update w) = n;
  inv_threads tid th e c :
    threads w !! tid = Some th → a_table w !! tid = Some e → num_of_update w !! tid = Some c →
    owner_ok e c th ∧ data_ok (a_table w) th;
}.

(** The values in the table only grow. *)
Definition grown (t t' : list stamped_snap_t) : Prop := Forall2 (λ e e', value e ≤ value e')%Z t t'.

Lemma bounded_grown t t' a : grown t t' → bounded t a → bounded t' a.
Proof. intros Ht Ha. revert t' Ht. induction Ha; intros t' Ht; inversion Ht; subst; constructor; [lia|by apply IHHa]. Qed.

Lemma entry_grown t t' i x :
  grown t t' → (∃ e, t !! i = Some e ∧ (0 ≤ x ≤ value e)%Z) → ∃ e, t' !! i = Some e ∧ (0 ≤ x ≤ value e)%Z.
Proof. intros Ht (e & He & Hx). destruct (Forall2_lookup_l _ _ _ _ _ Ht He) as (e' & -> & ?). exists e'. split; [done|lia]. Qed.

Lemma copies_grown t t' copy : grown t t' → copies_ok t copy → copies_ok t' copy.
Proof. intros Ht Hc i c Hi. destruct (Hc i c Hi). split; [by eapply bounded_grown|by eapply entry_grown]. Qed.

Lemma data_grown t t' th : grown t t' → data_ok t th → data_ok t' th.
Proof.
  intros Ht. assert (Hl := Forall2_length _ _ _ Ht).
  destruct th as [|v old moved copy p| | | | | |]; cbn; try done; try (by apply bounded_grown). rewrite <-Hl.
  intros (Hold & Hcopy & Hlt & Hp). split_and!; [|by eapply copies_grown|done|].
  - destruct old; [|done]. destruct Hold. split; [done|by eapply copies_grown].
  - destruct p; cbn in *; try done; by eapply entry_grown.
Qed.

Lemma grown_insert t tid e e' : t !! tid = Some e → (value e ≤ value e')%Z → grown t (<[tid := e']> t).
Proof.
  intros He Hle. apply Forall2_same_length_lookup_2; [by rewrite length_insert|].
  intros i x y Hx Hy. destruct (decide (i = tid)) as [->|Hne].
  - rewrite list_lookup_insert_eq in Hy by (by eapply lookup_lt_Some). by simplify_eq.
  - rewrite list_lookup_insert_ne in Hy by done. by simplify_eq.
Qed.

Lemma bounded_values t tid e : bounded t (value <$> t) → t !! tid = Some e → (0 ≤ value e)%Z.
Proof.
  intros Ht He. destruct (Forall2_lookup_r _ _ _ _ _ Ht He) as (x & Hx & ?). lia.
Qed.

Lemma values_bounded t : Forall (λ e, 0 ≤ value e)%Z t → bounded t (value <$> t).
Proof. unfold bounded. induction 1; constructor; [lia|done]. Qed.

(** A thread changes its entry, its counter, itself and the heap. *)
Lemma inv_update n w tid th e c heap' e' c' ended' th' :
  inv n w → threads w !! tid = Some th → a_table w !! tid = Some e → num_of_update w !! tid = Some c →
  (value e ≤ value e')%Z → map_Forall (λ _ a, bounded (a_table w) a) heap' →
  owner_ok e' c' th' → data_ok (<[tid := e']> (a_table w)) th' →
  inv n (mk_world heap' (<[tid := e']> (a_table w)) (<[tid := c']> (num_of_update w)) ended' (<[tid := th']> (threads w))).
Proof.
  intros [H1 H2 H3 H4 H5 H6] Hth He Hc Hle Hheap Ho Hd.
  assert (Hgrow := grown_insert _ _ _ _ He Hle). split; cbn; rewrite ?length_insert; try done.
  - apply values_bounded, Forall_insert; [|assert (H7 := bounded_values _ _ _ H2 He); lia].
    apply Forall_lookup. intros i x. by apply bounded_values.
  - intros p a Hp. eapply bounded_grown; [done|]. by apply (Hheap p).
  - intros i th0 e0 c0 Hi He0 Hc0. destruct (decide (i = tid)) as [->|Hne].
    + apply list_lookup_insert_Some in Hi, He0, Hc0. naive_solver.
    + rewrite list_lookup_insert_ne in Hi by done. rewrite list_lookup_insert_ne in He0 by done.
      rewrite list_lookup_insert_ne in Hc0 by done. destruct (H6 i th0 e0 c0 Hi He0 Hc0). split; [done|by eapply data_grown].
Qed.

(** A thread changes only itself. *)
Lemma inv_thread n w tid th e c th' :
  inv n w → threads w !! tid = Some th → a_table w !! tid = Some e → num_of_update w !! tid = Some c →
  owner_ok e c th' → data_ok (a_table w) th' → inv n (set_thread tid th' w).
Proof.
  intros Hw Hth He Hc Ho Hd.
  rewrite <-(list_insert_id (a_table w) tid e He) in Hd.
  assert (H := inv_update n w tid th e c (heap w) e c (ended w) th' Hw Hth He Hc (Z.le_refl _) (inv_heap _ _ Hw) Ho Hd).
  by rewrite (list_insert_id _ _ _ He), (list_insert_id _ _ _ Hc) in H.
Qed.

Lemma copies_ok_nil t : copies_ok t [].
Proof. intros i c Hi. by rewrite lookup_nil in Hi. Qed.

Lemma copies_values t copy : length copy = length t → copies_ok t copy → bounded t (c_value <$> copy).
Proof.
  intros Hl H. apply Forall2_same_length_lookup_2; [by rewrite length_fmap|].
  intros i x e Hx He. apply list_lookup_fmap_Some in Hx as (c & -> & Hc).
  destruct (H i c Hc) as (_ & e' & He' & ?). by simplify_eq.
Qed.

Lemma compare_return t j old new moved r :
  (∀ c, c ∈ old → bounded t (c_snap c)) → compare j old new moved = Some (Return r) → bounded t r.
Proof.
  revert j new. induction old as [|o old IH]; intros j [|c new] Ho H; simplify_eq/=.
  destruct (decide _) as [_|_].
  - eapply IH; [|done]. intros x Hx. apply Ho. by right.
  - destruct (moved !! j) as [[]|]; simplify_eq. apply Ho. by left.
Qed.

Lemma judge_return t old new moved r :
  copies_ok t old → copies_ok t new → length new = length t → judge old new moved = Return r → bounded t r.
Proof.
  unfold judge. intros Ho Hn Hl H. destruct (compare 0 old new moved) as [v|] eqn:Hc; simplify_eq.
  - eapply compare_return; [|done]. intros c [i Hi]%list_elem_of_lookup. by apply (Ho i).
  - by apply copies_values.
Qed.

Lemma collected_ok t v old moved copy :
  data_ok t (TScan v old moved [] CStamp) → copies_ok t copy → length copy ≤ length t →
  data_ok t (collected (length t) v old moved copy).
Proof.
  unfold collected. intros (Hold & _ & Hpos & _) Hcopy Hle. destruct (Nat.ltb_spec (length copy) (length t)).
  { done. }
  assert (Hl : length copy = length t) by lia. assert (Hnil := copies_ok_nil t).
  destruct old as [old|]; cbn in *; [|done]. destruct Hold as [Hlo Ho].
  destruct (judge old copy moved) as [r|moved'] eqn:Hj; cbn; [|done].
  exact (judge_return t old copy moved r Ho Hcopy Hl Hj).
Qed.

Lemma collected_owner n e c v old moved copy :
  owner_ok e c (TScan v old moved [] CStamp) → owner_ok e c (collected n v old moved copy).
Proof.
  unfold collected. intros Ho. destruct (length copy <? n); [done|]. destruct old as [old|]; [|done].
  by destruct (judge old copy moved).
Qed.

Lemma copies_snoc t copy s x a :
  copies_ok t copy → bounded t a → (∃ e, t !! length copy = Some e ∧ (0 ≤ x ≤ value e)%Z) →
  copies_ok t (copy ++ [mk_copy s x a]).
Proof.
  intros Hc Ha He i c Hi. apply lookup_app_Some in Hi as [Hi|[Hi1 Hi2]]; [by apply Hc|].
  apply list_lookup_singleton_Some in Hi2 as [Hi2 <-]. cbn. replace i with (length copy) by lia. done.
Qed.

Lemma increment_Ok z z' : increment z = Ok z' → z' = (z + 1)%Z.
Proof. unfold increment. destruct (z <? _)%Z; intros H; by simplify_eq. Qed.

Lemma entry_lookup {A} (l : list A) i x : l !! i = Some x → entry l i = Ok x.
Proof. unfold entry. by intros ->. Qed.

Lemma inv_lookup n w tid th :
  inv n w → threads w !! tid = Some th →
  ∃ e c, a_table w !! tid = Some e ∧ num_of_update w !! tid = Some c ∧ owner_ok e c th ∧ data_ok (a_table w) th.
Proof.
  intros Hw Hth. assert (Hlt := lookup_lt_Some _ _ _ Hth). rewrite (inv_length _ _ Hw) in Hlt.
  destruct (lookup_lt_is_Some_2 (a_table w) tid) as [e He]; [by rewrite (inv_table _ _ Hw)|].
  destruct (lookup_lt_is_Some_2 (num_of_update w) tid) as [c Hc]; [by rewrite (inv_count _ _ Hw)|].
  exists e, c. split; [done|]. split; [done|]. by apply (inv_threads _ _ Hw tid).
Qed.

Lemma scan_step_ok n tid v old moved copy p node w w' :
  inv n w → threads w !! tid = Some (TScan v old moved copy p) → thread_step n tid node w = Some (Ok w') → inv n w'.
Proof.
  intros Hw Hth H. unfold thread_step in H. rewrite Hth in H. cbn in H.
  destruct (inv_lookup _ _ _ _ Hw Hth) as (e & c & He & Hc & Ho & Hold & Hcopy & Hlt & Hp).
  destruct (lookup_lt_is_Some_2 _ _ Hlt) as [x Hx]. rewrite (entry_lookup _ _ _ Hx) in H. cbn in H.
  assert (Hv := bounded_values _ _ _ (inv_values _ _ Hw) Hx).
  destruct p as [|s|s y|s y q]; simplify_eq/=; [eapply inv_thread; naive_solver..|].
  destruct (heap w !! q) as [a|] eqn:Hq; simplify_eq/=.
  eapply inv_thread; [done..|apply collected_owner, Ho|].
  rewrite <-(inv_table _ _ Hw). apply collected_ok.
  - split_and!; [done|apply copies_ok_nil|cbn; lia|done].
  - apply copies_snoc; [done| |done]. by apply (inv_heap _ _ Hw q).
  - rewrite length_app. cbn. lia.
Qed.

Lemma snapshot_step_ok n tid node w w' : inv n w → thread_step n tid node w = Some (Ok w') → inv n w'.
Proof.
  intros Hw H. assert (H' := H). unfold thread_step in H. destruct (threads w !! tid) as [th|] eqn:Hth; [|done]. cbn in H.
  destruct (inv_lookup _ _ _ _ Hw Hth) as (e & c & He & Hc & Ho & Hd).
  destruct th as [v|v old moved copy p|v r|v r|v r|v q|v|]; cbn in *.
  - destruct (ended w); simplify_eq/=; [eapply inv_thread; naive_solver|].
    destruct (increment v) as [v'|] eqn:Hv; simplify_eq/=. apply increment_Ok in Hv as ->.
    eapply inv_thread; [done..|cbn; lia|]. split_and!; [done|apply copies_ok_nil| |done].
    apply lookup_lt_Some in He. cbn. lia.
  - by eapply scan_step_ok.
  - rewrite (entry_lookup _ _ _ He) in H. cbn in H. destruct (increment (stamp e)) as [s|] eqn:Hs; simplify_eq/=.
    apply increment_Ok in Hs as ->. unfold set_thread, set_entry. cbn.
    rewrite <-(list_insert_id (num_of_update w) tid c Hc). eapply inv_update; try done; [apply (inv_heap _ _ Hw)|].
    cbn. eapply bounded_grown; [|done]. by eapply grown_insert.
  - rewrite (entry_lookup _ _ _ He) in H. simplify_eq/=. unfold set_thread, set_entry. cbn.
    rewrite <-(list_insert_id (num_of_update w) tid c Hc). eapply inv_update; try done; cbn; [lia|apply (inv_heap _ _ Hw)|lia|].
    eapply bounded_grown; [|done]. eapply grown_insert; [done|cbn; lia].
  - destruct (heap w !! node) eqn:Hnode; [done|]. rewrite (entry_lookup _ _ _ He) in H. simplify_eq/=.
    rewrite <-(list_insert_id (num_of_update w) tid c Hc). eapply inv_update; try done; cbn.
    apply map_Forall_insert_2; [done|apply (inv_heap _ _ Hw)].
  - destruct (heap w !! q); simplify_eq/=. rewrite <-(list_insert_id (a_table w) tid e He), <-(list_insert_id (num_of_update w) tid c Hc).
    eapply inv_update; try done. apply map_Forall_delete, (inv_heap _ _ Hw).
  - rewrite (entry_lookup _ _ _ Hc) in H. cbn in H. destruct (increment c) as [c'|] eqn:Hs; simplify_eq/=.
    apply increment_Ok in Hs as ->. rewrite <-(list_insert_id (a_table w) tid e He).
    eapply inv_update; try done. apply (inv_heap _ _ Hw).
  - done.
Qed.

Lemma inv_main n : inv n (snapshot_main n).
Proof.
  assert (Hz : bounded ((λ i, mk_stamped_snap 0 0 i) <$> seq 0 n) (replicate n 0%Z)).
  { apply Forall2_same_length_lookup_2; [by rewrite length_replicate, length_fmap, length_seq|].
    intros i x e [-> _]%lookup_replicate (j & -> & _)%list_lookup_fmap_Some. cbn. lia. }
  split; cbn.
  - by rewrite length_fmap, length_seq.
  - apply values_bounded, Forall_fmap, Forall_true. cbn. lia.
  - intros p a Hp. apply elem_of_list_to_map_2, list_elem_of_fmap in Hp as (i & [= _ ->] & _). done.
  - apply length_replicate.
  - apply length_replicate.
  - intros tid th e c [-> _]%lookup_replicate (i & -> & _)%list_lookup_fmap_Some [-> _]%lookup_replicate. done.
Qed.

Lemma step_ok n w w' : inv n w → step n w w' → inv n w'.
Proof.
  intros Hw [[[tid node]|] H]; cbn in H; [by eapply snapshot_step_ok|]. simplify_eq. by destruct Hw.
Qed.

Lemma reachable_inv n w : rtc (step n) (snapshot_main n) w → inv n w.
Proof. revert w. apply rtc_ind_r; [apply inv_main|]. intros y z _ Hs Hy. by eapply step_ok. Qed.

(** ** Concrete runs *)

Fixpoint run (n : nat) (sched : list (option (nat * nat))) (w : world) : option world :=
  match sched with
  | [] => Some w
  | who :: sched => match world_step n who w with Some (Ok w') => run n sched w' | _ => None end
  end.

Lemma run_reaches n sched w w' : run n sched w = Some w' → rtc (step n) w w'.
Proof.
  revert w. induction sched as [|who sched IH]; intros w H; cbn in H; [by simplify_eq|].
  destruct (world_step n who w) as [[w1|]|] eqn:Hs; simplify_eq. apply (rtc_l _ _ w1); [by exists who|by apply IH].
Qed.

(** [k] steps of thread [tid], with the next array at [node]. *)
Definition go (tid node k : nat) : list (option (nat * nat)) := replicate k (Some (tid, node)).

(** Thread 1 has scanned and not yet written, then thread 2 has completed an update. *)
Definition stale_start : world := Eval vm_compute in default (snapshot_main 3) (run 3 (go 1 3 25 ++ go 2 4 30) (snapshot_main 3)).

(** Thread 0 sees thread 1 move twice and takes the snapshot of its first update. *)
Definition stale_end : world :=
  Eval vm_compute in default stale_start (run 3 (go 0 5 13 ++ go 1 5 5 ++ go 0 6 12 ++ go 1 6 30 ++ go 0 7 17) stale_start).

(** Thread 0 has read the address of the array of thread 1, which then deletes it. *)
Definition freed_world : world :=
  Eval vm_compute in default (snapshot_main 2) (run 2 (go 0 3 8 ++ go 1 3 21) (snapshot_main 2)).

(** One thread, one update, the end. *)
Definition one_update : list (option (nat * nat)) := go 0 1 14 ++ [None] ++ go 0 2 1.
Definition one_end : world := Eval vm_compute in default (snapshot_main 1) (run 1 one_update (snapshot_main 1)).

(** ** Properties *)

(** C15. [scan] is wait-free: whatever the other threads do between and during the
    collections, it returns after at most [num_of_threads + 1] comparisons, that is
    [num_of_threads + 2] collections. *)
Theorem scan_wait_free (n : nat) (tables : nat → list stamped_copy) :
  (∀ k, length (tables k) = n) → ∃ r, scan n (S n) tables = Ok r.
Proof.
  intros Hlen. apply scan_loop_returns.
  - intros k. by rewrite Hlen, length_replicate.
  - unfold unmoved. clear Hlen. induction n; cbn in *; lia.
Qed.

Lemma scan_wait_free_witness : ∃ r, scan 2 3 (λ k, [mk_copy (Z.of_nat k) 7 [5; 6]%Z; mk_copy 0 0 []]) = Ok r.
Proof. apply (scan_wait_free 2). intros k. reflexivity. Defined.

(** In every interleaving the entry of a thread counts its updates: between updates
    its stamp, its value and its counter are equal, so that the total that [main]
    prints is the sum of the stamps; and every snapshot array in memory has as its
    [i]-th element a value that thread [i] has written, never one it has yet to write. *)
Theorem snapshot_values (n : nat) (w : world) :
  rtc (step n) (snapshot_main n) w →
  (∀ tid v, threads w !! tid = Some (TIdle v) →
     ∃ p, a_table w !! tid = Some (mk_stamped_snap v v p) ∧ num_of_update w !! tid = Some v) ∧
  (Forall (λ th, th = TEnd) (threads w) → sum_of_update_num w = foldr Z.add 0%Z (stamp <$> a_table w)) ∧
  (∀ p a i x, heap w !! p = Some a → a !! i = Some x → ∃ e, a_table w !! i = Some e ∧ (0 ≤ x ≤ value e)%Z).
Proof.
  intros Hw%reachable_inv. split_and!.
  - intros tid v Hth. destruct (inv_lookup _ _ _ _ Hw Hth) as ([s x p] & c & He & Hc & Ho & _). cbn in Ho.
    exists p. naive_solver.
  - intros Hend. unfold sum_of_update_num. f_equal. apply list_eq_same_length with (n := n).
    { by rewrite length_fmap, (inv_table _ _ Hw). }
    { apply (inv_count _ _ Hw). }
    intros i x y Hi Hx Hy. apply list_lookup_fmap_Some in Hy as (e & -> & He).
    destruct (lookup_lt_is_Some_2 (threads w) i) as [th Hth]; [by rewrite (inv_length _ _ Hw)|].
    rewrite Forall_lookup in Hend. rewrite (Hend i th Hth) in Hth.
    destruct (inv_threads _ _ Hw _ _ _ _ Hth He Hx) as [[Ho _] _]. done.
  - intros p a i x Hp Hi. exact (Forall2_lookup_l _ _ _ _ _ (inv_heap _ _ Hw p a Hp) Hi).
Qed.

Lemma snapshot_values_witness : sum_of_update_num one_end = 1%Z ∧ foldr Z.add 0%Z (stamp <$> a_table one_end) = 1%Z.
Proof.
  assert (H : rtc (step 1) (snapshot_main 1) one_end) by (apply (run_reaches 1 one_update); reflexivity).
  apply snapshot_values in H as (_ & H & _). split; [reflexivity|]. rewrite <-H; [reflexivity|]. by repeat constructor.
Defined.

(** The snapshots are not linearizable: thread 0 starts its update when thread 2 has
    completed one, and its snapshot does not have the value of thread 2. It is the
    snapshot of an update that thread 1 had begun before. *)
Theorem snapshot_stale :
  ∃ w1 w2 e a,
    rtc (step 3) (snapshot_main 3) w1 ∧ threads w1 !! 0 = Some (TIdle 0) ∧ value <$> a_table w1 !! 2 = Some 1%Z ∧
    rtc (step 3) w1 w2 ∧ threads w2 !! 0 = Some (TIdle 1) ∧
    a_table w2 !! 0 = Some e ∧ heap w2 !! snap e = Some a ∧ a !! 2 = Some 0%Z.
Proof.
  exists stale_start, stale_end, (mk_stamped_snap 1 1 7), [0; 0; 0]%Z. split_and!; try reflexivity.
  - apply (run_reaches 3 (go 1 3 25 ++ go 2 4 30)). reflexivity.
  - apply (run_reaches 3 (go 0 5 13 ++ go 1 5 5 ++ go 0 6 12 ++ go 1 6 30 ++ go 0 7 17)). reflexivity.
Qed.

(** [collect] can copy an array that [update] of another thread has deleted. *)
Theorem snapshot_use_after_free :
  ∃ w, rtc (step 2) (snapshot_main 2) w ∧ ∀ node, thread_step 2 0 node w = Some (Err UndefinedBehaviour).
Proof.
  exists freed_world. split; [|intros node; reflexivity].
  apply (run_reaches 2 (go 0 3 8 ++ go 1 3 21)). reflexivity.
Qed.
