(* ===== verification/InnoMode.v ===== *)
(** Record locks of the InnoDB lock manager (project 4): the modes and flags of a lock,
    its bitmap, and when one lock request has to wait for another
    ([lock0types.h], [lock0lock.h], [lock0priv.h], [lock0priv.ic] and the first part of
    [lock0lock.cc]). Only ordinary record locks are modelled, no predicate locks; the
    server runs without Galera ([WITH_WSREP]). *)
From stdpp Require Import functions base tactics numbers option list list_numbers gmap sets relations sorting.
From Stdlib Require Import ZArith Lia.
From S2P Require Import Prelude.
#[local] Open Scope Z_scope.

(** ** Modes and flags *)

Definition LOCK_IS : Z := 0.
Definition LOCK_IX : Z := 1.
Definition LOCK_S : Z := 2.
Definition LOCK_X : Z := 3.
Definition LOCK_AUTO_INC : Z := 4.

Definition LOCK_MODE_MASK : Z := 0xF.
Definition LOCK_REC : Z := 32.
Definition LOCK_TYPE_MASK : Z := 0xF0.
Definition LOCK_WAIT : Z := 256.
Definition LOCK_GAP : Z := 512.
Definition LOCK_REC_NOT_GAP : Z := 1024.
Definition LOCK_INSERT_INTENTION : Z := 2048.

(** A flag of a [type_mode], as the condition of an [if]. *)
Definition has_flag (type_mode flag : Z) : bool := negb (Z.land type_mode flag =? 0).

Definition lock_compatibility_matrix : list (list bool) :=
  (*           IS     IX     S      X      AI *)
  [ (* IS *) [ true;  true;  true;  false; true ];
    (* IX *) [ true;  true;  false; false; true ];
    (* S  *) [ true;  false; true;  false; false ];
    (* X  *) [ false; false; false; false; false ];
    (* AI *) [ true;  true;  false; false; false ] ].

Definition lock_strength_matrix : list (list bool) :=
  (*           IS     IX     S      X      AI *)
  [ (* IS *) [ true;  false; false; false; false ];
    (* IX *) [ true;  true;  false; false; false ];
    (* S  *) [ true;  false; true;  false; false ];
    (* X  *) [ true;  true;  true;  true;  true ];
    (* AI *) [ false; false; false; false; true ] ].

Definition matrix_entry (m : list (list bool)) (mode1 mode2 : Z) : bool :=
  default false (row ← m !! Z.to_nat mode1; row !! Z.to_nat mode2).

Definition lock_mode_compatible (mode1 mode2 : Z) : bool := matrix_entry lock_compatibility_matrix mode1 mode2.
Definition lock_mode_stronger_or_eq (mode1 mode2 : Z) : bool := matrix_entry lock_strength_matrix mode1 mode2.

(** ** Locks *)

(** [lock_id] is the address of the lock; the link of the hash chain and the list of
    the transaction are in the lock system. The bitmap follows the struct in memory. *)
Record lock_t : Type := mk_lock {
  lock_id : nat;
  lock_trx : nat;
  type_mode : Z;
  space : Z;
  page_no : Z;
  n_bits : nat;
  bitmap : list Z;
}.

#[global] Instance lock_eq_dec : EqDecision lock_t.
Proof. solve_decision. Defined.

Definition lock_get_mode (lock : lock_t) : Z := Z.land (type_mode lock) LOCK_MODE_MASK.
Definition lock_get_wait (lock : lock_t) : bool := has_flag (type_mode lock) LOCK_WAIT.
Definition lock_rec_get_gap (lock : lock_t) : bool := has_flag (type_mode lock) LOCK_GAP.
Definition lock_rec_get_rec_not_gap (lock : lock_t) : bool := has_flag (type_mode lock) LOCK_REC_NOT_GAP.
Definition lock_rec_get_insert_intention (lock : lock_t) : bool := has_flag (type_mode lock) LOCK_INSERT_INTENTION.

Definition set_type_mode (lock : lock_t) (m : Z) : lock_t :=
  mk_lock (lock_id lock) (lock_trx lock) m (space lock) (page_no lock) (n_bits lock) (bitmap lock).

Definition set_bitmap (lock : lock_t) (b : list Z) : lock_t :=
  mk_lock (lock_id lock) (lock_trx lock) (type_mode lock) (space lock) (page_no lock) (n_bits lock) b.

Definition lock_rec_get_nth_bit (lock : lock_t) (i : nat) : bool :=
  if (n_bits lock <=? i)%nat then false
  else Z.land 1 (Z.shiftr (nth (i / 8) (bitmap lock) 0) (Z.of_nat (i mod 8))) =? 1.

Definition lock_rec_set_nth_bit (lock : lock_t) (i : nat) : lock_t :=
  let byte_index := (i / 8)%nat in
  let bit_index := (i mod 8)%nat in
  set_bitmap lock (<[byte_index := Z.lor (nth byte_index (bitmap lock) 0) (Z.shiftl 1 (Z.of_nat bit_index))]> (bitmap lock)).

Definition lock_rec_reset_nth_bit (lock : lock_t) (i : nat) : lock_t :=
  let byte_index := (i / 8)%nat in
  let mask := Z.shiftl 1 (Z.of_nat (i mod 8)) in
  set_bitmap lock (<[byte_index := Z.ldiff (nth byte_index (bitmap lock) 0) mask]> (bitmap lock)).

(** [None] is [ULINT_UNDEFINED]. *)
Fixpoint find_set_bit (lock : lock_t) (i n : nat) : option nat :=
  match n with
  | 0%nat => None
  | S n => if lock_rec_get_nth_bit lock i then Some i else find_set_bit lock (S i) n
  end.

Definition lock_rec_find_set_bit (lock : lock_t) : option nat := find_set_bit lock 0 (n_bits lock).

(** ** Waiting *)

Definition PAGE_HEAP_NO_SUPREMUM : nat := 1.

(** [need_ordering] is [thd_need_ordering_with] on the sessions of two transactions; it
    is 0 only between workers of a parallel replication. *)
Definition lock_rec_has_to_wait (need_ordering : nat → nat → bool) (trx : nat) (mode : Z) (lock2 : lock_t)
    (lock_is_on_supremum : bool) : bool :=
  if negb (trx =? lock_trx lock2)%nat && negb (lock_mode_compatible (Z.land LOCK_MODE_MASK mode) (lock_get_mode lock2)) then
    if (lock_is_on_supremum || has_flag mode LOCK_GAP) && negb (has_flag mode LOCK_INSERT_INTENTION) then false
    else if negb (has_flag mode LOCK_INSERT_INTENTION) && lock_rec_get_gap lock2 then false
    else if has_flag mode LOCK_GAP && lock_rec_get_rec_not_gap lock2 then false
    else if lock_rec_get_insert_intention lock2 then false
    else if (has_flag mode LOCK_GAP || lock_rec_get_gap lock2) && negb (need_ordering trx (lock_trx lock2)) then false
    else true
  else false.

Definition lock_has_to_wait (need_ordering : nat → nat → bool) (lock1 lock2 : lock_t) : bool :=
  if negb (lock_trx lock1 =? lock_trx lock2)%nat && negb (lock_mode_compatible (lock_get_mode lock1) (lock_get_mode lock2)) then
    lock_rec_has_to_wait need_ordering (lock_trx lock1) (type_mode lock1) lock2
      (lock_rec_get_nth_bit lock1 PAGE_HEAP_NO_SUPREMUM)
  else false.

(** ** Flags *)

Lemma has_flag_testbit m k : 0 ≤ k → has_flag m (2 ^ k) = Z.testbit m k.
Proof.
  intros Hk. unfold has_flag. rewrite <-(Z.shiftl_1_l k). destruct (Z.testbit m k) eqn:Hb.
  - apply negb_true_iff, Z.eqb_neq. intros H. apply (f_equal (λ z, Z.testbit z k)) in H.
    rewrite Z.land_spec, Z.shiftl_spec, Z.sub_diag, Z.bits_0, Hb in H by done. done.
  - apply negb_false_iff, Z.eqb_eq, Z.bits_inj'. intros n Hn. rewrite Z.land_spec, Z.bits_0.
    destruct (decide (n = k)) as [->|Hne]; [by rewrite Hb|].
    rewrite Z.shiftl_1_l, Z.pow2_bits_false by done. apply andb_false_r.
Qed.

Lemma has_flag_lor m f k : 0 ≤ k → has_flag (Z.lor m f) (2 ^ k) = has_flag m (2 ^ k) || Z.testbit f k.
Proof. intros Hk. by rewrite !has_flag_testbit, Z.lor_spec by done. Qed.

Lemma has_flag_ldiff m f k : 0 ≤ k → has_flag (Z.ldiff m f) (2 ^ k) = has_flag m (2 ^ k) && negb (Z.testbit f k).
Proof. intros Hk. by rewrite !has_flag_testbit, Z.ldiff_spec by done. Qed.

(** The flags of a mode with one of the constants set or cleared, by computation. *)
Ltac flags :=
  change LOCK_WAIT with (2 ^ 8) in *; change LOCK_GAP with (2 ^ 9) in *; change LOCK_REC_NOT_GAP with (2 ^ 10) in *;
  change LOCK_INSERT_INTENTION with (2 ^ 11) in *; change LOCK_REC with (2 ^ 5) in *;
  rewrite ?has_flag_ldiff, ?has_flag_lor, ?has_flag_ldiff by done;
  repeat match goal with |- context [Z.testbit ?f ?k] =>
    let b := eval vm_compute in (Z.testbit f k) in change (Z.testbit f k) with b end;
  cbn [negb]; rewrite ?orb_false_r, ?orb_true_r, ?andb_true_r, ?andb_false_r.

Lemma mode_lor m f : Z.land f LOCK_MODE_MASK = 0 → Z.land (Z.lor m f) LOCK_MODE_MASK = Z.land m LOCK_MODE_MASK.
Proof. intros H. by rewrite Z.land_lor_distr_l, H, Z.lor_0_r. Qed.

Lemma mode_ldiff m f : Z.land f LOCK_MODE_MASK = 0 → Z.land (Z.ldiff m f) LOCK_MODE_MASK = Z.land m LOCK_MODE_MASK.
Proof.
  intros H. apply Z.bits_inj'. intros n Hn. rewrite !Z.land_spec, Z.ldiff_spec.
  apply (f_equal (λ z, Z.testbit z n)) in H. rewrite Z.land_spec, Z.bits_0 in H.
  destruct (Z.testbit m n), (Z.testbit f n), (Z.testbit LOCK_MODE_MASK n); done.
Qed.

(** ** The matrices *)

Definition lock_modes : list Z := [LOCK_IS; LOCK_IX; LOCK_S; LOCK_X; LOCK_AUTO_INC].

Lemma compatible_sym m1 m2 :
  m1 ∈ lock_modes → m2 ∈ lock_modes → lock_mode_compatible m1 m2 = lock_mode_compatible m2 m1.
Proof. intros H1 H2. unfold lock_modes in *. set_unfold. destruct_or!; subst; done. Qed.

Lemma matrix_entry_range m a b :
  (∀ i row, m !! i = Some row → length row = length m) → matrix_entry m a b = true → 0 ≤ a → 0 ≤ b → a < Z.of_nat (length m) ∧ b < Z.of_nat (length m).
Proof.
  intros Hm H Ha Hb. unfold matrix_entry in H. destruct (m !! Z.to_nat a) as [row|] eqn:Hr; [|done]. simpl in H.
  destruct (row !! Z.to_nat b) eqn:Hx; [|done]. apply lookup_lt_Some in Hx. rewrite (Hm _ _ Hr) in Hx. apply lookup_lt_Some in Hr. lia.
Qed.

Lemma matrix_square (m : list (list bool)) i row : Forall (λ row, length row = length m) m → m !! i = Some row → length row = length m.
Proof. intros H Hi. by apply (Forall_lookup_1 _ _ _ _ H Hi). Qed.

Lemma mode_cases (a : Z) : 0 ≤ a < 5 → a ∈ lock_modes.
Proof. intros H. assert (a = 0 ∨ a = 1 ∨ a = 2 ∨ a = 3 ∨ a = 4) by lia. unfold lock_modes. destruct_or!; subst; set_solver. Qed.

(** A mode that is compatible with a stronger one is compatible with a weaker one. *)
Lemma compatible_weaker x a b :
  0 ≤ x → 0 ≤ a → 0 ≤ b → lock_mode_stronger_or_eq a b = true → lock_mode_compatible x a = true → lock_mode_compatible x b = true.
Proof.
  intros Hx Ha Hb Hs Hc.
  destruct (matrix_entry_range lock_strength_matrix a b) as [Ha5 Hb5]; [intros; by eapply matrix_square; [repeat constructor|]|done..|].
  destruct (matrix_entry_range lock_compatibility_matrix x a) as [Hx5 _]; [intros; by eapply matrix_square; [repeat constructor|]|done..|].
  simpl in *. assert (H1 := mode_cases a ltac:(lia)). assert (H2 := mode_cases b ltac:(lia)). assert (H3 := mode_cases x ltac:(lia)).
  unfold lock_modes in *. set_unfold. destruct_or!; subst; done.
Qed.

(** ** Bitmaps *)

(** The bitmap has the size of the struct. *)
Definition bitmap_ok (l : lock_t) : Prop := n_bits l = (8 * length (bitmap l))%nat.

Lemma get_nth_bit_testbit l i :
  lock_rec_get_nth_bit l i = if (n_bits l <=? i)%nat then false else Z.testbit (nth (i / 8) (bitmap l) 0) (Z.of_nat (i mod 8)).
Proof.
  unfold lock_rec_get_nth_bit. destruct (n_bits l <=? i)%nat; [done|].
  rewrite Z.land_comm. change 1 with (Z.ones 1) at 1. rewrite Z.land_ones by done.
  rewrite Z.testbit_eqb, Z.shiftr_div_pow2 by lia. done.
Qed.

(** A bit after a change of the byte of bit [i]. *)
Lemma get_nth_bit_update l i j f :
  bitmap_ok l → (i < n_bits l)%nat →
  lock_rec_get_nth_bit (set_bitmap l (<[(i / 8)%nat := f (nth (i / 8) (bitmap l) 0)]> (bitmap l))) j =
    if (n_bits l <=? j)%nat then false
    else Z.testbit ((if (i / 8 =? j / 8)%nat then f else id) (nth (j / 8) (bitmap l) 0)) (Z.of_nat (j mod 8)).
Proof.
  intros Hb Hi. rewrite get_nth_bit_testbit. unfold set_bitmap. cbn [n_bits bitmap]. destruct (n_bits l <=? j)%nat; [done|].
  f_equal. rewrite !nth_lookup. destruct (Nat.eqb_spec (i / 8) (j / 8)) as [He|Hne].
  - rewrite <-He, list_lookup_insert_eq, <-nth_lookup; [done|]. unfold bitmap_ok in Hb. apply Nat.Div0.div_lt_upper_bound. lia.
  - by rewrite list_lookup_insert_ne.
Qed.

Lemma div_mod_eqb i j : (i / 8 = j / 8)%nat → (i mod 8 = j mod 8)%nat → i = j.
Proof. intros H1 H2. rewrite (Nat.div_mod_eq i 8), (Nat.div_mod_eq j 8). lia. Qed.

Lemma get_set_nth_bit l i j :
  bitmap_ok l → (i < n_bits l)%nat → lock_rec_get_nth_bit (lock_rec_set_nth_bit l i) j = (i =? j)%nat || lock_rec_get_nth_bit l j.
Proof.
  intros Hb Hi. unfold lock_rec_set_nth_bit. rewrite (get_nth_bit_update l i j (λ b, Z.lor b _)) by done.
  rewrite get_nth_bit_testbit. destruct (Nat.leb_spec (n_bits l) j).
  { destruct (Nat.eqb_spec i j); [lia|done]. }
  destruct (Nat.eqb_spec (i / 8) (j / 8)) as [He|Hne].
  - rewrite Z.lor_spec, Z.shiftl_1_l, Z.pow2_bits_eqb, orb_comm by lia. f_equal.
    destruct (Nat.eqb_spec i j) as [->|Hn]; [by apply Z.eqb_eq|]. apply Z.eqb_neq. intros Hm%Nat2Z.inj. apply Hn. by apply div_mod_eqb.
  - destruct (Nat.eqb_spec i j); [congruence|done].
Qed.

Lemma get_reset_nth_bit l i j :
  bitmap_ok l → (i < n_bits l)%nat → lock_rec_get_nth_bit (lock_rec_reset_nth_bit l i) j = negb (i =? j)%nat && lock_rec_get_nth_bit l j.
Proof.
  intros Hb Hi. unfold lock_rec_reset_nth_bit. rewrite (get_nth_bit_update l i j (λ b, Z.ldiff b _)) by done.
  rewrite get_nth_bit_testbit. destruct (Nat.leb_spec (n_bits l) j); [by rewrite andb_false_r|].
  destruct (Nat.eqb_spec (i / 8) (j / 8)) as [He|Hne].
  - rewrite Z.ldiff_spec, Z.shiftl_1_l, Z.pow2_bits_eqb, andb_comm by lia. f_equal. f_equal.
    destruct (Nat.eqb_spec i j) as [->|Hn]; [by apply Z.eqb_eq|]. apply Z.eqb_neq. intros Hm%Nat2Z.inj. apply Hn. by apply div_mod_eqb.
  - destruct (Nat.eqb_spec i j); [congruence|done].
Qed.

Lemma set_nth_bit_ok l i : bitmap_ok l → bitmap_ok (lock_rec_set_nth_bit l i).
Proof. unfold bitmap_ok. cbn. by rewrite length_insert. Qed.

Lemma reset_nth_bit_ok l i : bitmap_ok l → bitmap_ok (lock_rec_reset_nth_bit l i).
Proof. unfold bitmap_ok. cbn. by rewrite length_insert. Qed.

Lemma bit_lt l i : lock_rec_get_nth_bit l i = true → (i < n_bits l)%nat.
Proof. unfold lock_rec_get_nth_bit. destruct (Nat.leb_spec (n_bits l) i); [done|lia]. Qed.

Lemma find_set_bit_Some l i n h :
  (i ≤ h < i + n)%nat → lock_rec_get_nth_bit l h = true → (∀ j, (i ≤ j < h)%nat → lock_rec_get_nth_bit l j = false) →
  find_set_bit l i n = Some h.
Proof.
  revert i. induction n as [|n IH]; intros i Hi Hh Hj; [lia|]. cbn.
  destruct (decide (i = h)) as [->|Hne]; [by rewrite Hh|]. rewrite Hj by lia. apply IH; [lia|done|]. intros j ?. apply Hj. lia.
Qed.

(** The one bit of a waiting lock. *)
Lemma lock_rec_find_only_bit l h :
  lock_rec_get_nth_bit l h = true → (∀ j, lock_rec_get_nth_bit l j = true → j = h) → lock_rec_find_set_bit l = Some h.
Proof.
  intros Hh Hj. apply find_set_bit_Some; [|done|].
  - apply bit_lt in Hh. lia.
  - intros j Hlt. destruct (lock_rec_get_nth_bit l j) eqn:Hb; [|done]. apply Hj in Hb. lia.
Qed.

(** ** What a wait depends on *)

(** Everything but the wait flag, the bitmap and the place of the lock. *)
Definition same_kind (l l' : lock_t) : Prop :=
  lock_trx l = lock_trx l' ∧ lock_get_mode l = lock_get_mode l' ∧ lock_rec_get_gap l = lock_rec_get_gap l' ∧
  lock_rec_get_rec_not_gap l = lock_rec_get_rec_not_gap l' ∧
  lock_rec_get_insert_intention l = lock_rec_get_insert_intention l'.

#[global] Instance same_kind_equivalence : Equivalence same_kind.
Proof.
  unfold same_kind. split; [intros x; done|intros x y H; destruct_and! H; by split_and!|].
  intros x y z H1 H2. destruct_and! H1. destruct_and! H2. split_and!; congruence.
Qed.

Lemma lock_has_to_wait_kind no l1 l1' l2 l2' :
  same_kind l1 l1' → same_kind l2 l2' →
  lock_rec_get_nth_bit l1 PAGE_HEAP_NO_SUPREMUM = lock_rec_get_nth_bit l1' PAGE_HEAP_NO_SUPREMUM →
  lock_has_to_wait no l1 l2 = lock_has_to_wait no l1' l2'.
Proof.
  intros (H1 & H2 & H3 & H4 & H5) (H6 & H7 & H8 & H9 & H10) Hs.
  unfold lock_has_to_wait, lock_rec_has_to_wait. rewrite !(Z.land_comm LOCK_MODE_MASK).
  change (Z.land (type_mode l1) LOCK_MODE_MASK) with (lock_get_mode l1).
  change (Z.land (type_mode l1') LOCK_MODE_MASK) with (lock_get_mode l1').
  change (has_flag (type_mode l1) LOCK_GAP) with (lock_rec_get_gap l1).
  change (has_flag (type_mode l1') LOCK_GAP) with (lock_rec_get_gap l1').
  change (has_flag (type_mode l1) LOCK_INSERT_INTENTION) with (lock_rec_get_insert_intention l1).
  change (has_flag (type_mode l1') LOCK_INSERT_INTENTION) with (lock_rec_get_insert_intention l1').
  by rewrite H1, H2, H3, H5, H6, H7, H8, H9, H10, Hs.
Qed.

Lemma lock_has_to_wait_trx no l1 l2 : lock_has_to_wait no l1 l2 = true → lock_trx l1 ≠ lock_trx l2.
Proof. unfold lock_has_to_wait. destruct (Nat.eqb_spec (lock_trx l1) (lock_trx l2)); done. Qed.

(** Clearing the wait flag. *)
Definition granted (l : lock_t) : lock_t := set_type_mode l (Z.ldiff (type_mode l) LOCK_WAIT).

Lemma granted_kind l : same_kind (granted l) l.
Proof.
  unfold same_kind, granted, lock_get_mode, lock_rec_get_gap, lock_rec_get_rec_not_gap, lock_rec_get_insert_intention.
  cbn [lock_trx type_mode set_type_mode]. rewrite mode_ldiff by done. split_and!; [done..| | |]; by flags.
Qed.

Lemma granted_wait l : lock_get_wait (granted l) = false.
Proof. unfold lock_get_wait, granted. cbn [type_mode set_type_mode]. by flags. Qed.

(** A conflict on the record itself, which rule 3 of [lock0priv.h] forbids between granted locks. *)
Definition rec_conflict (l1 l2 : lock_t) : Prop :=
  lock_trx l1 ≠ lock_trx l2 ∧ lock_rec_get_gap l1 = false ∧ lock_rec_get_gap l2 = false ∧
  lock_rec_get_insert_intention l1 = false ∧ lock_rec_get_insert_intention l2 = false ∧
  lock_mode_compatible (lock_get_mode l1) (lock_get_mode l2) = false.

Lemma rec_conflict_waits no l1 l2 :
  rec_conflict l1 l2 → lock_rec_get_nth_bit l1 PAGE_HEAP_NO_SUPREMUM = false → lock_has_to_wait no l1 l2 = true.
Proof.
  intros (H1 & H2 & H3 & H4 & H5 & H6) Hs. unfold lock_has_to_wait, lock_rec_has_to_wait.
  rewrite !(Z.land_comm LOCK_MODE_MASK). change (Z.land (type_mode l1) LOCK_MODE_MASK) with (lock_get_mode l1).
  change (has_flag (type_mode l1) LOCK_GAP) with (lock_rec_get_gap l1).
  change (has_flag (type_mode l1) LOCK_INSERT_INTENTION) with (lock_rec_get_insert_intention l1).
  rewrite H2, H3, H4, H5, H6, Hs. by rewrite (proj2 (Nat.eqb_neq _ _) H1).
Qed.
