(* ===== verification/InnoSys.v ===== *)
(** The lock system of InnoDB (project 4): the hash table of record locks, the lock state
    of the transactions, and the functions of [lock0lock.cc] that look at, grant and
    remove record locks.

    All of them run with [lock_sys->mutex] held. A pointer that walks along a hash chain
    is a list of the locks that remain. [trx_is_high_priority] is false for all
    transactions, because [thd_trx_priority] of [ha_prototypes.h] returns 0. *)
From stdpp Require Import functions base tactics numbers option list list_numbers gmap sets relations sorting.
From Stdlib Require Import ZArith Lia.
From S2P Require Import Prelude InnoMode.

(** ** State *)

Inductive trx_que_t : Type := TRX_QUE_RUNNING | TRX_QUE_LOCK_WAIT.

#[global] Instance trx_que_eq_dec : EqDecision trx_que_t.
Proof. solve_decision. Defined.

(** The error codes that matter here; [DB_ERROR] stands for all others. *)
Inductive dberr_t : Type := DB_SUCCESS | DB_SUCCESS_LOCKED_REC | DB_LOCK_WAIT | DB_DEADLOCK | DB_DUPLICATE_KEY | DB_ERROR.

#[global] Instance dberr_eq_dec : EqDecision dberr_t.
Proof. solve_decision. Defined.

Inductive que_thr_state_t : Type := QUE_THR_RUNNING | QUE_THR_PROCEDURE_WAIT | QUE_THR_COMPLETED | QUE_THR_COMMAND_WAIT | QUE_THR_LOCK_WAIT | QUE_THR_SUSPENDED.

#[global] Instance que_thr_state_eq_dec : EqDecision que_thr_state_t.
Proof. solve_decision. Defined.

(** The query thread of a transaction, with [state] and [fork_type] of its graph and
    [error_state] of the transaction. [wait_thr] is whether [trx->lock.wait_thr] points to
    the thread; otherwise it is null. *)
Record que_thr_t : Type := mk_que_thr {
  wait_thr : bool;
  thr_state : que_thr_state_t;
  graph_state : Z;
  fork_type : Z;
  error_state : dberr_t;
}.

Definition QUE_FORK_ROLLBACK : Z := 5.
Definition QUE_FORK_MYSQL_INTERFACE : Z := 10.
Definition QUE_FORK_ACTIVE : Z := 1.
Definition QUE_FORK_COMMAND_WAIT : Z := 2.

Definition set_thr_state (st : que_thr_state_t) (q : que_thr_t) : que_thr_t := mk_que_thr (wait_thr q) st (graph_state q) (fork_type q) (error_state q).
Definition set_wait_thr (b : bool) (q : que_thr_t) : que_thr_t := mk_que_thr b (thr_state q) (graph_state q) (fork_type q) (error_state q).

(** [que_thr_stop], for a transaction with the given [que_state] and [duplicates]: whether
    the thread is stopped, and the thread then. *)
Definition que_thr_stop (que : trx_que_t) (dup : Z) (q : que_thr_t) : bool * que_thr_t :=
  if (graph_state q =? QUE_FORK_COMMAND_WAIT)%Z then (true, set_thr_state QUE_THR_SUSPENDED q)
  else if decide (que = TRX_QUE_LOCK_WAIT) then (true, set_thr_state QUE_THR_LOCK_WAIT (set_wait_thr true q))
  else if negb (dup =? 0)%Z && bool_decide (error_state q = DB_DUPLICATE_KEY) then (false, q)
  else if negb (bool_decide (error_state q = DB_SUCCESS)) && negb (bool_decide (error_state q = DB_LOCK_WAIT)) then (true, set_thr_state QUE_THR_COMPLETED q)
  else if (fork_type q =? QUE_FORK_ROLLBACK)%Z then (true, set_thr_state QUE_THR_SUSPENDED q)
  else (false, q).

(** The end of [que_thr_end_lock_wait]: the thread runs again. *)
Definition thr_run (q : que_thr_t) : que_thr_t := set_thr_state QUE_THR_RUNNING (set_wait_thr false q).

(** The part of [trx_t] and [trx_lock_t] that the lock manager uses. Locks are named by
    their addresses. *)
Record trx_t : Type := mk_trx {
  que_state : trx_que_t;
  wait_lock : option nat;
  deadlock_mark : Z;
  was_chosen_as_deadlock_victim : bool;
  trx_locks : list nat;
  undo_no : Z;
  start_time_micro : Z;
  notrans_edit : bool;
  force_rollback_async : bool;
  isolation_level : Z;
  duplicates : Z;
  trx_thr : que_thr_t;
}.

Record lock_sys_t : Type := mk_lock_sys {
  rec_hash : list (list lock_t);
  trxs : gmap nat trx_t;
  s_lock_mark_counter : Z;
}.

(** [innodb_lock_schedule_algorithm]. *)
Inductive schedule_t : Type := FCFS | VATS.

#[global] Instance schedule_eq_dec : EqDecision schedule_t.
Proof. solve_decision. Defined.

(** [need_ordering] is [thd_need_ordering_with] and [replication_slave] is
    [thd_is_replication_slave_thread] on the sessions of the transactions. *)
Record config : Type := mk_config {
  need_ordering : nat → nat → bool;
  replication_slave : nat → bool;
  schedule : schedule_t;
  innobase_deadlock_detect : bool;
  srv_locks_unsafe_for_binlog : bool;
}.

(** The scheduling that the locks of a transaction get. *)
Definition uses_vats (cfg : config) (t : nat) : bool :=
  bool_decide (schedule cfg = VATS) && negb (replication_slave cfg t).

Notation LS := (M lock_sys_t).

Definition set_rec_hash (h : list (list lock_t)) (s : lock_sys_t) : lock_sys_t :=
  mk_lock_sys h (trxs s) (s_lock_mark_counter s).
Definition update_trx (t : nat) (f : trx_t → trx_t) (s : lock_sys_t) : lock_sys_t :=
  mk_lock_sys (rec_hash s) (alter f t (trxs s)) (s_lock_mark_counter s).

Definition set_wait_lock (w : option nat) (t : trx_t) : trx_t :=
  mk_trx (que_state t) w (deadlock_mark t) (was_chosen_as_deadlock_victim t) (trx_locks t) (undo_no t) (start_time_micro t) (notrans_edit t) (force_rollback_async t) (isolation_level t) (duplicates t) (trx_thr t).
Definition set_que_state (q : trx_que_t) (t : trx_t) : trx_t :=
  mk_trx q (wait_lock t) (deadlock_mark t) (was_chosen_as_deadlock_victim t) (trx_locks t) (undo_no t) (start_time_micro t) (notrans_edit t) (force_rollback_async t) (isolation_level t) (duplicates t) (trx_thr t).
Definition set_deadlock_mark (m : Z) (t : trx_t) : trx_t :=
  mk_trx (que_state t) (wait_lock t) m (was_chosen_as_deadlock_victim t) (trx_locks t) (undo_no t) (start_time_micro t) (notrans_edit t) (force_rollback_async t) (isolation_level t) (duplicates t) (trx_thr t).
Definition set_victim (b : bool) (t : trx_t) : trx_t :=
  mk_trx (que_state t) (wait_lock t) (deadlock_mark t) b (trx_locks t) (undo_no t) (start_time_micro t) (notrans_edit t) (force_rollback_async t) (isolation_level t) (duplicates t) (trx_thr t).
Definition set_trx_locks (l : list nat) (t : trx_t) : trx_t :=
  mk_trx (que_state t) (wait_lock t) (deadlock_mark t) (was_chosen_as_deadlock_victim t) l (undo_no t) (start_time_micro t) (notrans_edit t) (force_rollback_async t) (isolation_level t) (duplicates t) (trx_thr t).

Definition set_trx_thr (q : que_thr_t) (t : trx_t) : trx_t :=
  mk_trx (que_state t) (wait_lock t) (deadlock_mark t) (was_chosen_as_deadlock_victim t) (trx_locks t) (undo_no t) (start_time_micro t) (notrans_edit t) (force_rollback_async t) (isolation_level t) (duplicates t) q.

(** The lock at an address changes. *)
Definition upd (id : nat) (f : lock_t → lock_t) (l : lock_t) : lock_t := if decide (lock_id l = id) then f l else l.

Definition update_lock (id : nat) (f : lock_t → lock_t) (s : lock_sys_t) : lock_sys_t :=
  set_rec_hash (map (map (upd id f)) (rec_hash s)) s.

(** ** The hash table *)

Definition UT_HASH_RANDOM_MASK : Z := 1463735687.
Definition UT_HASH_RANDOM_MASK2 : Z := 1653893711.

Definition ut_fold_ulint_pair (n1 n2 : Z) : Z :=
  wrap_u64 (Z.lxor (wrap_u64 (wrap_u64 (Z.shiftl (Z.lxor (Z.lxor n1 n2) UT_HASH_RANDOM_MASK2) 8) + n1)) UT_HASH_RANDOM_MASK + n2).

Definition ut_hash_ulint (key table_size : Z) : Z := Z.lxor key UT_HASH_RANDOM_MASK2 mod table_size.

Definition lock_rec_fold (space page_no : Z) : Z := ut_fold_ulint_pair space page_no.

Definition hash_calc_hash (fold : Z) (n_cells : nat) : nat := Z.to_nat (ut_hash_ulint fold (Z.of_nat n_cells)).

Definition lock_rec_hash (s : lock_sys_t) (space page_no : Z) : nat :=
  hash_calc_hash (lock_rec_fold space page_no) (length (rec_hash s)).

Definition lock_hash (s : lock_sys_t) (l : lock_t) : nat := lock_rec_hash s (space l) (page_no l).

(** [HASH_INSERT] puts a lock at the end of its chain, [HASH_DELETE] takes it out. *)
Definition hash_insert (l : lock_t) (s : lock_sys_t) : lock_sys_t :=
  set_rec_hash (alter (λ chain, chain ++ [l]) (lock_hash s l) (rec_hash s)) s.

Definition cell (s : lock_sys_t) (i : nat) : list lock_t := default [] (rec_hash s !! i).

Definition is_lock (id : nat) (l : lock_t) : bool := bool_decide (lock_id l = id).

Definition hash_delete (l : lock_t) : LS unit := λ s,
  if existsb (is_lock (lock_id l)) (cell s (lock_hash s l))
  then Ok (tt, set_rec_hash (alter (filter (λ x, lock_id x ≠ lock_id l)) (lock_hash s l) (rec_hash s)) s)
  else Err AssertFail.

(** [lock_rec_get_first_on_page] and then [lock_rec_get_next_on_page] until the end. *)
Definition on_page (sp pg : Z) (l : lock_t) : Prop := space l = sp ∧ page_no l = pg.

#[global] Instance on_page_dec sp pg l : Decision (on_page sp pg l).
Proof. unfold on_page. apply _. Defined.

Definition page_locks (s : lock_sys_t) (sp pg : Z) : list lock_t :=
  filter (on_page sp pg) (cell s (lock_rec_hash s sp pg)).

(** [lock_rec_get_first] and then [lock_rec_get_next] until the end. *)
Definition rec_locks (s : lock_sys_t) (sp pg : Z) (heap_no : nat) : list lock_t :=
  filter (λ l, lock_rec_get_nth_bit l heap_no = true) (page_locks s sp pg).

(** Following a pointer to a lock. *)
Definition get_lock (s : lock_sys_t) (id : nat) : option lock_t := List.find (is_lock id) (concat (rec_hash s)).

Section config.
  Context (cfg : config).

(** ** The queue of a record *)

(** A lock of the transaction itself that is strong enough. *)
Definition lock_rec_has_expl (s : lock_sys_t) (precise_mode : Z) (sp pg : Z) (heap_no trx : nat) : option lock_t :=
  List.find (λ lock,
    (lock_trx lock =? trx)
    && negb (lock_rec_get_insert_intention lock)
    && lock_mode_stronger_or_eq (lock_get_mode lock) (Z.land precise_mode LOCK_MODE_MASK)
    && negb (lock_get_wait lock)
    && (negb (lock_rec_get_rec_not_gap lock) || has_flag precise_mode LOCK_REC_NOT_GAP || (heap_no =? PAGE_HEAP_NO_SUPREMUM))
    && (negb (lock_rec_get_gap lock) || has_flag precise_mode LOCK_GAP || (heap_no =? PAGE_HEAP_NO_SUPREMUM)))
    (rec_locks s sp pg heap_no).

(** A lock of another transaction that the request has to wait for. *)
Definition lock_rec_other_has_conflicting (s : lock_sys_t) (mode : Z) (sp pg : Z) (heap_no trx : nat) : option lock_t :=
  let is_supremum := heap_no =? PAGE_HEAP_NO_SUPREMUM in
  List.find (λ lock, lock_rec_has_to_wait (need_ordering cfg) trx mode lock is_supremum) (rec_locks s sp pg heap_no).

(** The walk from the first lock on the page to [wait_lock]; without it the walk ends in
    a null pointer. *)
Fixpoint has_to_wait_loop (chain : list lock_t) (w : lock_t) (heap_no : option nat) : res (option lock_t) :=
  match chain with
  | [] => Err UndefinedBehaviour
  | lock :: chain =>
      if decide (lock_id lock = lock_id w) then Ok None
      else if from_option (lock_rec_get_nth_bit lock) false heap_no && lock_has_to_wait (need_ordering cfg) w lock then Ok (Some lock)
      else has_to_wait_loop chain w heap_no
  end.

Definition lock_rec_has_to_wait_in_queue (w : lock_t) : LS (option lock_t) := λ s,
  match has_to_wait_loop (page_locks s (space w) (page_no w)) w (lock_rec_find_set_bit w) with
  | Ok r => Ok (r, s)
  | Err e => Err e
  end.

(** ** Granting *)

Definition lock_set_lock_and_trx_wait (l : lock_t) : LS unit :=
  modify (λ s, update_lock (lock_id l) (λ l, set_type_mode l (Z.lor (type_mode l) LOCK_WAIT))
                 (update_trx (lock_trx l) (set_wait_lock (Some (lock_id l))) s)).

Definition lock_reset_lock_and_trx_wait (l : lock_t) : LS unit :=
  modify (λ s, update_lock (lock_id l) granted (update_trx (lock_trx l) (set_wait_lock None) s)).

Definition que_thr_end_lock_wait (t : nat) : LS unit :=
  trx ← gets (λ s, trxs s !! t);
  trx ← deref trx;
  thr ← deref (if wait_thr (trx_thr trx) then Some (trx_thr trx) else None);
  _ ← assert_ (bool_decide (thr_state thr = QUE_THR_LOCK_WAIT));
  modify (update_trx t (λ trx, set_trx_thr (thr_run (trx_thr trx)) (set_que_state TRX_QUE_RUNNING trx))).

Definition lock_grant (l : lock_t) : LS unit :=
  _ ← lock_reset_lock_and_trx_wait l;
  t ← gets (λ s, trxs s !! lock_trx l);
  t ← deref t;
  if decide (que_state t = TRX_QUE_LOCK_WAIT) then que_thr_end_lock_wait (lock_trx l) else mret tt.

(** The loop of [lock_rec_dequeue_from_page] over the locks on the page. *)
Fixpoint grant_loop (chain : list lock_t) : LS unit :=
  match chain with
  | [] => mret tt
  | lock :: chain =>
      _ ← (if lock_get_wait lock then
             w ← lock_rec_has_to_wait_in_queue lock;
             match w with None => lock_grant lock | Some _ => mret tt end
           else mret tt);
      grant_loop chain
  end.

(** [lock_rec_insert_to_head]. *)
Definition lock_rec_insert_to_head (l : lock_t) (s : lock_sys_t) : lock_sys_t :=
  set_rec_hash (alter (λ chain, match chain with
                                | x :: _ => if decide (lock_id x = lock_id l) then chain else l :: chain
                                | [] => [l]
                                end) (lock_hash s l) (rec_hash s)) s.

(** The loop of [lock_grant_and_move_on_page] over a hash chain: [before] are the locks up
    to [previous]; a lock that is granted moves to the head. *)
Fixpoint grant_and_move_loop (sp pg : Z) (i : nat) (before rest : list lock_t) : LS unit :=
  match rest with
  | [] => mret tt
  | lock :: rest =>
      w ← (if bool_decide (on_page sp pg lock) && lock_get_wait lock
           then lock_rec_has_to_wait_in_queue lock else mret (Some lock));
      match w with
      | None =>
          _ ← lock_grant lock;
          let lock := granted lock in
          _ ← modify (λ s, set_rec_hash (<[i := lock :: before ++ rest]> (rec_hash s)) s);
          grant_and_move_loop sp pg i (lock :: before) rest
      | Some _ => grant_and_move_loop sp pg i (before ++ [lock]) rest
      end
  end.

Definition lock_grant_and_move_on_page (sp pg : Z) : LS unit :=
  i ← gets (λ s, lock_rec_hash s sp pg);
  chain ← gets (λ s, cell s i);
  grant_and_move_loop sp pg i [] chain.

(** ** Removing *)

Definition lock_rec_dequeue_from_page (in_lock : lock_t) : LS unit :=
  _ ← hash_delete in_lock;
  _ ← modify (update_trx (lock_trx in_lock) (λ t, set_trx_locks (filter (λ id, id ≠ lock_id in_lock) (trx_locks t)) t));
  if negb (uses_vats cfg (lock_trx in_lock)) then
    chain ← gets (λ s, page_locks s (space in_lock) (page_no in_lock));
    grant_loop chain
  else lock_grant_and_move_on_page (space in_lock) (page_no in_lock).

Definition lock_cancel_waiting_and_release (lock : lock_t) : LS unit :=
  _ ← lock_rec_dequeue_from_page lock;
  _ ← lock_reset_lock_and_trx_wait lock;
  que_thr_end_lock_wait (lock_trx lock).

(** One turn of the loop of [lock_release]: the last lock of the transaction. *)
Definition lock_release_last (t : nat) : LS bool :=
  trx ← gets (λ s, trxs s !! t);
  trx ← deref trx;
  match last (trx_locks trx) with
  | None => mret false
  | Some id =>
      lock ← gets (λ s, get_lock s id);
      lock ← deref lock;
      _ ← lock_rec_dequeue_from_page lock;
      mret true
  end.

(** [lock_release], with the number of locks of the transaction as fuel. *)
Fixpoint lock_release_loop (fuel : nat) (t : nat) : LS unit :=
  more ← lock_release_last t;
  if more : bool then
    match fuel with
    | 0 => fail OutOfFuel
    | S fuel => lock_release_loop fuel t
    end
  else mret tt.

Definition lock_release (t : nat) : LS unit := λ s,
  lock_release_loop (from_option (λ trx, length (trx_locks trx)) 0 (trxs s !! t)) t s.

End config.
