(* ===== verification/InnoQueue.v ===== *)
(** The queues of the InnoDB lock system: how the operations of [InnoSys] on the hash
    table change the queue of a page, which locks are ahead of a lock, and which of them
    it waits for. *)
From stdpp Require Import functions base tactics numbers option list list_numbers gmap sets relations sorting.
From Stdlib Require Import ZArith Lia.
From S2P Require Import Prelude InnoMode InnoSys.

#[global] Arguments lock_rec_hash : simpl never.

(** ** The locks ahead of a lock in a queue *)

Fixpoint ahead (id : nat) (q : list lock_t) : list lock_t :=
  match q with
  | [] => []
  | l :: q => if decide (lock_id l = id) then [] else l :: ahead id q
  end.

Lemma elem_ahead id q l : l ∈ ahead id q → l ∈ q ∧ lock_id l ≠ id.
Proof. induction q as [|x q IH]; simpl; [set_solver|]. case_decide; set_solver. Qed.

Lemma ahead_map g id q : (∀ l, lock_id (g l) = lock_id l) → ahead id (map g q) = map g (ahead id q).
Proof. intros Hg. induction q as [|x q IH]; simpl; [done|]. rewrite Hg. case_decide; [done|]. simpl. by rewrite IH. Qed.

Lemma ahead_filter P `{∀ l, Decision (P l)} id q :
  (∀ l, l ∈ q → lock_id l = id → P l) → ahead id (filter P q) = filter P (ahead id q).
Proof.
  induction q as [|x q IH]; intros HP; simpl; [done|]. rewrite filter_cons.
  assert (IH' : ahead id (filter P q) = filter P (ahead id q)) by (apply IH; set_solver).
  destruct (decide (P x)) as [Hx|Hx]; simpl; destruct (decide (lock_id x = id)) as [Hi|Hi]; simpl.
  - done.
  - rewrite filter_cons, decide_True by done. by rewrite IH'.
  - destruct Hx. apply HP; set_solver.
  - rewrite filter_cons, decide_False by done. done.
Qed.

Lemma ahead_app_in id q r : id ∈ map lock_id q → ahead id (q ++ r) = ahead id q.
Proof. induction q as [|x q IH]; simpl; intros Hin; [set_solver|]. case_decide; [done|]. rewrite IH; set_solver. Qed.

Lemma ahead_notin id q r : id ∉ map lock_id q → ahead id (q ++ r) = q ++ ahead id r.
Proof.
  induction q as [|x q IH]; simpl; intros Hin; [done|]. rewrite decide_False by set_solver. rewrite IH; set_solver.
Qed.

Lemma ahead_last q w : lock_id w ∉ map lock_id q → ahead (lock_id w) (q ++ [w]) = q.
Proof. intros Hw. rewrite ahead_notin by done. simpl. rewrite decide_True by done. apply app_nil_r. Qed.

Lemma elem_ids q l : l ∈ q → lock_id l ∈ map lock_id q.
Proof. intros Hl. by apply list_elem_of_In, in_map, list_elem_of_In. Qed.

Lemma ahead_total q l w :
  NoDup (map lock_id q) → l ∈ q → w ∈ q → lock_id l ≠ lock_id w → l ∈ ahead (lock_id w) q ∨ w ∈ ahead (lock_id l) q.
Proof.
  induction q as [|x q IH]; intros Hnd Hl Hw Hne; simpl; [set_solver|]. apply NoDup_cons in Hnd as [Hx Hnd].
  apply elem_of_cons in Hl as [->|Hl], Hw as [->|Hw].
  - done.
  - left. rewrite decide_False by done. set_solver.
  - right. rewrite decide_False by done. set_solver.
  - assert (lock_id x ≠ lock_id w) by (intros H; rewrite H in Hx; by apply Hx, elem_ids).
    assert (lock_id x ≠ lock_id l) by (intros H'; rewrite H' in Hx; by apply Hx, elem_ids).
    rewrite !decide_False by done. rewrite !elem_of_cons. destruct (IH Hnd Hl Hw Hne); [left|right]; by right.
Qed.

Lemma ahead_trans q l x w :
  l ∈ ahead (lock_id x) q → x ∈ ahead (lock_id w) q → l ∈ ahead (lock_id w) q.
Proof.
  induction q as [|y q IH]; simpl; [set_solver|]. case_decide; [set_solver|]. case_decide; [set_solver|].
  intros [->|Hl]%elem_of_cons Hx; [set_solver|]. apply elem_of_cons in Hx as [->|Hx]; [done|]. set_solver.
Qed.

(** ** The hash table *)

Definition has_lock (s : lock_sys_t) (l : lock_t) : Prop := l ∈ page_locks s (space l) (page_no l).

(** Each lock is in the chain of its page, and addresses are different. *)
Record hash_ok (s : lock_sys_t) : Prop := mk_hash_ok {
  hash_cells : rec_hash s ≠ [];
  hash_place : ∀ i c l, rec_hash s !! i = Some c → l ∈ c → lock_hash s l = i;
  hash_ids : NoDup (map lock_id (concat (rec_hash s)));
}.

Lemma lock_rec_hash_lt s sp pg : rec_hash s ≠ [] → lock_rec_hash s sp pg < length (rec_hash s).
Proof.
  intros Hne. unfold lock_rec_hash, hash_calc_hash, ut_hash_ulint. destruct (rec_hash s) as [|c r]; [done|].
  set (n := Z.of_nat (length (c :: r))). assert (Hn : (0 < n)%Z) by (unfold n; simpl; lia).
  assert (H := Z.mod_pos_bound (Z.lxor (lock_rec_fold sp pg) UT_HASH_RANDOM_MASK2) n Hn). unfold n in *. lia.
Qed.

#[global] Opaque hash_calc_hash.

Lemma elem_concat s l : l ∈ concat (rec_hash s) ↔ ∃ i c, rec_hash s !! i = Some c ∧ l ∈ c.
Proof.
  rewrite list_elem_of_In, in_concat. setoid_rewrite <-list_elem_of_In. split.
  - intros (c & Hc & Hl). apply list_elem_of_lookup in Hc as [i Hi]. by exists i, c.
  - intros (i & c & Hi & Hl). exists c. split; [|done]. by eapply list_elem_of_lookup_2.
Qed.

Lemma elem_page_locks s sp pg l : l ∈ page_locks s sp pg ↔ on_page sp pg l ∧ l ∈ cell s (lock_rec_hash s sp pg).
Proof. unfold page_locks. by rewrite list_elem_of_filter. Qed.

Lemma has_lock_concat s l : hash_ok s → has_lock s l ↔ l ∈ concat (rec_hash s).
Proof.
  intros [_ Hp _]. unfold has_lock. rewrite elem_page_locks, elem_concat. unfold cell. split.
  - intros [_ Hl]. destruct (rec_hash s !! _) as [c|] eqn:Hc; simpl in Hl; [|set_solver]. by exists (lock_rec_hash s (space l) (page_no l)), c.
  - intros (i & c & Hi & Hl). split; [done|]. specialize (Hp _ _ _ Hi Hl). unfold lock_hash in Hp. by rewrite Hp, Hi.
Qed.

Lemma elem_page s sp pg l : l ∈ page_locks s sp pg ↔ has_lock s l ∧ on_page sp pg l.
Proof. unfold has_lock. rewrite !elem_page_locks. unfold on_page. split; [intros [[<- <-] ?]|intros [[_ ?] [<- <-]]]; done. Qed.

Lemma lock_id_inj s l l' : hash_ok s → has_lock s l → has_lock s l' → lock_id l = lock_id l' → l = l'.
Proof.
  intros Hok. rewrite !has_lock_concat by done. destruct Hok as [_ _ Hnd]. revert Hnd.
  induction (concat (rec_hash s)) as [|x q IH]; simpl; [set_solver|]. intros [Hx Hnd]%NoDup_cons.
  intros [->|Hl]%elem_of_cons [->|Hl']%elem_of_cons Hid; [done| | |by apply IH].
  - destruct Hx. rewrite Hid. by apply elem_ids.
  - destruct Hx. rewrite <-Hid. by apply elem_ids.
Qed.

Lemma get_lock_Some s l : hash_ok s → has_lock s l → get_lock s (lock_id l) = Some l.
Proof.
  intros Hok Hl. unfold get_lock. destruct (List.find _ _) as [l'|] eqn:Hf.
  - apply List.find_some in Hf as [Hin Hid]. unfold is_lock in Hid. apply bool_decide_eq_true in Hid. f_equal.
    apply (lock_id_inj s); [done| |done|done]. apply has_lock_concat; [done|]. by apply list_elem_of_In.
  - exfalso. rewrite has_lock_concat in Hl by done. apply list_elem_of_In in Hl.
    apply (List.find_none _ _ Hf) in Hl. unfold is_lock in Hl. by apply bool_decide_eq_false in Hl.
Qed.

Lemma page_ids s sp pg : hash_ok s → NoDup (map lock_id (page_locks s sp pg)).
Proof.
  intros [_ _ Hnd]. assert (Hsub : page_locks s sp pg `sublist_of` concat (rec_hash s)).
  { unfold page_locks, cell. etrans; [apply sublist_filter|]. destruct (rec_hash s !! _) as [c|] eqn:Hc; simpl; [|apply sublist_nil_l].
    rewrite <-(take_drop_middle _ _ _ Hc), concat_app. simpl. apply sublist_inserts_l, sublist_inserts_r. done. }
  eapply sublist_NoDup; [exact Hnd|]. by apply fmap_sublist.
Qed.

(** *** Changing a lock *)

(** The change leaves the lock at its place. *)
Definition keeps_place (g : lock_t → lock_t) : Prop :=
  ∀ l, lock_id (g l) = lock_id l ∧ lock_trx (g l) = lock_trx l ∧ space (g l) = space l ∧ page_no (g l) = page_no l.

Lemma upd_keeps_place id f : keeps_place f → keeps_place (upd id f).
Proof. intros Hf l. unfold upd. case_decide; [apply Hf|done]. Qed.

Lemma on_page_keeps g sp pg l : keeps_place g → on_page sp pg (g l) ↔ on_page sp pg l.
Proof. intros Hg. unfold on_page. destruct (Hg l) as (_ & _ & -> & ->). done. Qed.

Lemma cell_update_lock s id f i : cell (update_lock id f s) i = map (upd id f) (cell s i).
Proof. unfold cell, update_lock. cbn. rewrite list_lookup_fmap. by destruct (rec_hash s !! i). Qed.

Lemma lock_rec_hash_set h s sp pg : length h = length (rec_hash s) → lock_rec_hash (set_rec_hash h s) sp pg = lock_rec_hash s sp pg.
Proof. unfold lock_rec_hash. cbn. by intros ->. Qed.

Lemma page_update_lock s id f sp pg : keeps_place f → page_locks (update_lock id f s) sp pg = map (upd id f) (page_locks s sp pg).
Proof.
  intros Hf%(upd_keeps_place id). unfold page_locks, update_lock at 2.
  rewrite lock_rec_hash_set by (by rewrite length_map). rewrite cell_update_lock.
  induction (cell s _) as [|l q IH]; [done|]. cbn [map]. rewrite !filter_cons, IH.
  destruct (decide (on_page sp pg l)) as [Hl|Hl].
  - rewrite decide_True by (by apply on_page_keeps). done.
  - rewrite decide_False by (by rewrite on_page_keeps). done.
Qed.

Lemma hash_ok_update_lock s id f : keeps_place f → hash_ok s → hash_ok (update_lock id f s).
Proof.
  intros Hf%(upd_keeps_place id) [Hne Hp Hnd]. split.
  - cbn. by destruct (rec_hash s).
  - intros i c l Hi Hl. cbn in Hi. rewrite list_lookup_fmap in Hi. destruct (rec_hash s !! i) as [c'|] eqn:Hc; simplify_eq/=.
    apply list_elem_of_fmap in Hl as (l' & -> & Hl'). unfold lock_hash. destruct (Hf l') as (_ & _ & -> & ->).
    unfold update_lock. rewrite lock_rec_hash_set by (by rewrite length_map). by eapply Hp.
  - cbn. rewrite <-concat_map, map_map. erewrite map_ext; [exact Hnd|]. intros l. by apply Hf.
Qed.

Lemma has_update_lock s id f l' :
  keeps_place f → has_lock (update_lock id f s) l' ↔ ∃ l, has_lock s l ∧ l' = upd id f l.
Proof.
  intros Hf. unfold has_lock. rewrite page_update_lock by done. apply (upd_keeps_place id) in Hf. split.
  - intros (l & -> & Hl)%list_elem_of_fmap. exists l. split; [|done]. destruct (Hf l) as (_ & _ & H1 & H2). by rewrite H1, H2 in Hl.
  - intros (l & Hl & ->). destruct (Hf l) as (_ & _ & -> & ->). by apply list_elem_of_fmap_2.
Qed.

(** *** Adding a lock *)

Lemma alter_middle {A} (f : A → A) i (q : list A) c : q !! i = Some c → alter f i q = take i q ++ f c :: drop (S i) q.
Proof. revert i. induction q as [|x q IH]; intros [|i] Hi; simplify_eq/=; [done|]. f_equal. by apply IH. Qed.

Lemma cell_alter s f i k :
  i < length (rec_hash s) → cell (set_rec_hash (alter f i (rec_hash s)) s) k = if decide (k = i) then f (cell s i) else cell s k.
Proof.
  intros Hi. unfold cell. cbn. destruct (decide (k = i)) as [->|Hne].
  - rewrite list_lookup_alter_eq. destruct (lookup_lt_is_Some_2 _ _ Hi) as [c ->]. done.
  - by rewrite list_lookup_alter_ne.
Qed.

Lemma page_hash_insert s l sp pg :
  rec_hash s ≠ [] → page_locks (hash_insert l s) sp pg = page_locks s sp pg ++ (if decide (on_page sp pg l) then [l] else []).
Proof.
  intros Hne. unfold page_locks, hash_insert, lock_hash. rewrite lock_rec_hash_set by (by rewrite length_alter).
  rewrite cell_alter by (by apply lock_rec_hash_lt). destruct (decide (on_page sp pg l)) as [Hl|Hl].
  - destruct Hl as [<- <-]. rewrite decide_True by done. rewrite filter_app, filter_cons, decide_True by done. done.
  - rewrite app_nil_r. case_decide as Hk; [|done]. rewrite <-Hk.
    rewrite filter_app, filter_cons, decide_False by done. apply app_nil_r.
Qed.

Lemma has_hash_insert s l x : rec_hash s ≠ [] → has_lock (hash_insert l s) x ↔ has_lock s x ∨ x = l.
Proof.
  intros Hne. unfold has_lock. rewrite page_hash_insert, elem_of_app by done. case_decide as Hx.
  - rewrite list_elem_of_singleton. done.
  - rewrite elem_of_nil. split; [tauto|]. intros [?| ->]; [tauto|]. by destruct Hx.
Qed.

Lemma alter_snoc_perm (h : list (list lock_t)) i l :
  i < length h → concat (alter (λ chain, chain ++ [l]) i h) ≡ₚ l :: concat h.
Proof.
  intros [c Hc]%lookup_lt_is_Some_2. rewrite (alter_middle _ _ _ _ Hc). rewrite <-(take_drop_middle _ _ _ Hc) at 3.
  rewrite !concat_app. cbn [concat]. rewrite <-app_assoc. cbn [app]. by rewrite <-!Permutation_middle.
Qed.

Lemma hash_insert_perm s l :
  rec_hash s ≠ [] → map lock_id (concat (rec_hash (hash_insert l s))) ≡ₚ lock_id l :: map lock_id (concat (rec_hash s)).
Proof.
  intros Hne. unfold hash_insert. cbn [rec_hash set_rec_hash].
  rewrite alter_snoc_perm by (by apply lock_rec_hash_lt). done.
Qed.

Lemma hash_ok_insert s l : hash_ok s → (∀ x, has_lock s x → lock_id x ≠ lock_id l) → hash_ok (hash_insert l s).
Proof.
  intros Hok Hnew. assert (Hok' := Hok). destruct Hok as [Hne Hp Hnd]. split.
  - cbn. intros H. apply (f_equal length) in H. rewrite length_alter in H. by destruct (rec_hash s).
  - intros i c x Hi Hx. cbn in Hi. unfold lock_hash. unfold hash_insert. rewrite lock_rec_hash_set by (by rewrite length_alter).
    destruct (decide (i = lock_hash s l)) as [->|Hil].
    + rewrite list_lookup_alter_eq in Hi. destruct (rec_hash s !! _) as [c'|] eqn:Hc; simplify_eq/=.
      apply elem_of_app in Hx as [Hx|Hx]; [by eapply Hp|]. apply list_elem_of_singleton in Hx as ->. done.
    + rewrite list_lookup_alter_ne in Hi by done. by eapply Hp.
  - rewrite hash_insert_perm by done. apply NoDup_cons. split; [|done].
    intros (x & Hid & Hx)%list_elem_of_fmap. apply (Hnew x); [by apply has_lock_concat|done].
Qed.

(** *** Removing a lock *)

Lemma filter_all {A} (P : A → Prop) `{∀ x, Decision (P x)} (q : list A) : (∀ x, x ∈ q → P x) → filter P q = q.
Proof.
  induction q as [|x q IH]; intros HP; [done|]. rewrite filter_cons, decide_True by (apply HP; set_solver). rewrite IH; set_solver.
Qed.

Definition hash_remove (l : lock_t) (s : lock_sys_t) : lock_sys_t :=
  set_rec_hash (alter (filter (λ x, lock_id x ≠ lock_id l)) (lock_hash s l) (rec_hash s)) s.

Lemma hash_delete_Ok s l : has_lock s l → hash_delete l s = Ok (tt, hash_remove l s).
Proof.
  intros [_ Hl]%elem_page_locks. unfold hash_delete, lock_hash.
  rewrite (proj2 (existsb_exists _ _)); [done|]. exists l. split; [by apply list_elem_of_In|]. unfold is_lock. by apply bool_decide_eq_true.
Qed.

Lemma page_hash_remove s l sp pg :
  hash_ok s → has_lock s l → page_locks (hash_remove l s) sp pg = filter (λ x, lock_id x ≠ lock_id l) (page_locks s sp pg).
Proof.
  intros Hok Hl. assert (Hne := hash_cells _ Hok). unfold page_locks, hash_remove, lock_hash.
  rewrite lock_rec_hash_set by (by rewrite length_alter). rewrite cell_alter by (by apply lock_rec_hash_lt).
  case_decide as Hk.
  - rewrite Hk, !list_filter_filter. apply list_filter_iff. tauto.
  - symmetry. apply filter_all. intros x Hx Hid. apply Hk.
    assert (Hx' : has_lock s x ∧ on_page sp pg x) by (by apply elem_page). destruct Hx' as [Hx' [<- <-]].
    by rewrite (lock_id_inj s x l).
Qed.

Lemma has_hash_remove s l x : hash_ok s → has_lock s l → has_lock (hash_remove l s) x ↔ has_lock s x ∧ lock_id x ≠ lock_id l.
Proof. intros Hok Hl. unfold has_lock. rewrite page_hash_remove by done. rewrite list_elem_of_filter. tauto. Qed.

Lemma hash_ok_remove s l : hash_ok s → hash_ok (hash_remove l s).
Proof.
  intros [Hne Hp Hnd]. split.
  - cbn. intros H. apply (f_equal length) in H. rewrite length_alter in H. by destruct (rec_hash s).
  - intros i c x Hi Hx. cbn in Hi. unfold lock_hash, hash_remove. rewrite lock_rec_hash_set by (by rewrite length_alter).
    destruct (decide (i = lock_hash s l)) as [->|Hil].
    + rewrite list_lookup_alter_eq in Hi. destruct (rec_hash s !! _) as [c'|] eqn:Hc; simplify_eq/=.
      apply list_elem_of_filter in Hx as [_ Hx]. by eapply Hp.
    + rewrite list_lookup_alter_ne in Hi by done. by eapply Hp.
  - cbn. assert (Hlt := lock_rec_hash_lt s (space l) (page_no l) Hne). unfold lock_hash.
    destruct (lookup_lt_is_Some_2 _ _ Hlt) as [c Hc]. eapply sublist_NoDup; [exact Hnd|]. apply fmap_sublist.
    rewrite (alter_middle _ _ _ _ Hc). rewrite <-(take_drop_middle _ _ _ Hc) at 3. rewrite !concat_app. cbn [concat].
    apply sublist_app; [done|]. apply sublist_app; [|done]. apply sublist_filter.
Qed.

Lemma num_hash_remove s l : hash_ok s → has_lock s l → S (length (concat (rec_hash (hash_remove l s)))) = length (concat (rec_hash s)).
Proof.
  intros Hok Hl. assert (Hok' := hash_ok_remove s l Hok).
  assert (Hnd : NoDup (l :: concat (rec_hash (hash_remove l s)))).
  { apply NoDup_cons. split; [|by eapply NoDup_fmap_1, hash_ids]. rewrite <-has_lock_concat, has_hash_remove by done. by intros []. }
  change (length (l :: concat (rec_hash (hash_remove l s))) = length (concat (rec_hash s))). apply Permutation_length, NoDup_Permutation; [done|by eapply NoDup_fmap_1, hash_ids|].
  intros x. rewrite elem_of_cons, <-!has_lock_concat, has_hash_remove by done. split.
  - by intros [->|[? ?]].
  - intros Hx. destruct (decide (lock_id x = lock_id l)); [left; by apply (lock_id_inj s)|by right].
Qed.
