(* ===== verification/InnoInv.v ===== *)
(** The invariant of the InnoDB lock system under first-come-first-served scheduling, and
    how locks that are granted or removed change what the others wait for. *)
From stdpp Require Import functions base tactics numbers option list list_numbers gmap sets relations sorting.
From Stdlib Require Import ZArith Lia.
From S2P Require Import Prelude InnoMode InnoSys InnoQueue.

(** ** Granted locks keep their shape *)

Record same_shape (l l' : lock_t) : Prop := mk_same_shape {
  shape_id : lock_id l = lock_id l';
  shape_kind : same_kind l l';
  shape_space : space l = space l';
  shape_page : page_no l = page_no l';
  shape_n_bits : n_bits l = n_bits l';
  shape_bitmap : bitmap l = bitmap l';
}.

#[global] Instance same_shape_refl : Reflexive same_shape.
Proof. by intros l. Qed.

Lemma granted_shape l : same_shape (granted l) l.
Proof. split; [done|apply granted_kind|done..]. Qed.

Lemma shape_bit l l' i : same_shape l l' → lock_rec_get_nth_bit l i = lock_rec_get_nth_bit l' i.
Proof. intros []. unfold lock_rec_get_nth_bit. by rewrite shape_n_bits0, shape_bitmap0. Qed.

Lemma shape_find l l' : same_shape l l' → lock_rec_find_set_bit l = lock_rec_find_set_bit l'.
Proof.
  intros Hs. unfold lock_rec_find_set_bit. rewrite (shape_n_bits _ _ Hs). generalize 0.
  induction (n_bits l') as [|n IH]; intros i; [done|]. cbn [find_set_bit]. by rewrite (shape_bit _ _ _ Hs), IH.
Qed.

Lemma shape_waits no l1 l1' l2 l2' :
  same_shape l1 l1' → same_shape l2 l2' → lock_has_to_wait no l1 l2 = lock_has_to_wait no l1' l2'.
Proof. intros H1 H2. apply lock_has_to_wait_kind; [apply H1|apply H2|by apply shape_bit]. Qed.

(** The locks with an address in [G] are granted. *)
Definition evo (G : gset nat) (l : lock_t) : lock_t := if decide (lock_id l ∈ G) then granted l else l.

Lemma evo_shape G l : same_shape (evo G l) l.
Proof. unfold evo. case_decide; [apply granted_shape|done]. Qed.

Lemma evo_id G l : lock_id (evo G l) = lock_id l.
Proof. apply (evo_shape G l). Qed.

Lemma evo_trx G l : lock_trx (evo G l) = lock_trx l.
Proof. apply (evo_shape G l). Qed.

Lemma evo_other G l : lock_id l ∉ G → evo G l = l.
Proof. intros H. unfold evo. by rewrite decide_False. Qed.

Lemma evo_wait G l : lock_get_wait (evo G l) = true → lock_get_wait l = true ∧ lock_id l ∉ G.
Proof. unfold evo. case_decide; [|done]. by rewrite granted_wait. Qed.

Lemma granted_granted l : granted (granted l) = granted l.
Proof. unfold granted, set_type_mode. cbn. f_equal. apply Z.bits_inj'. intros n Hn. rewrite !Z.ldiff_spec. by destruct (Z.testbit _ _), (Z.testbit _ _). Qed.

Lemma evo_evo G G' l : evo G' (evo G l) = evo (G ∪ G') l.
Proof.
  unfold evo. destruct (decide (lock_id l ∈ G)), (decide (lock_id l ∈ G')), (decide (lock_id l ∈ G ∪ G'));
    try set_solver; cbn [lock_id granted set_type_mode]; try rewrite decide_True by done; try rewrite decide_False by done;
    by rewrite ?granted_granted.
Qed.

Section config.
  Context (cfg : config).
  Notation no := (need_ordering cfg).

(** ** The locks that a lock waits for *)

(** [l] has the record [h] and [w] has to wait for it. *)
Definition blocks (h : nat) (w l : lock_t) : Prop := lock_rec_get_nth_bit l h = true ∧ lock_has_to_wait no w l = true.

#[global] Instance blocks_dec h w l : Decision (blocks h w l).
Proof. unfold blocks. apply _. Defined.

Definition blockers (s : lock_sys_t) (w : lock_t) : list lock_t :=
  match lock_rec_find_set_bit w with
  | Some h => filter (blocks h w) (ahead (lock_id w) (page_locks s (space w) (page_no w)))
  | None => []
  end.

(** The edges of the waits-for graph of the transactions. *)
Definition waits_for (s : lock_sys_t) (a b : nat) : Prop :=
  ∃ w l, has_lock s w ∧ lock_get_wait w = true ∧ lock_trx w = a ∧ l ∈ blockers s w ∧ lock_trx l = b.

Lemma has_to_wait_loop_spec chain w h :
  lock_id w ∈ map lock_id chain → has_to_wait_loop cfg chain w (Some h) = Ok (head (filter (blocks h w) (ahead (lock_id w) chain))).
Proof.
  induction chain as [|l chain IH]; intros Hin; simpl; [set_solver|]. case_decide as Hid; [done|].
  rewrite filter_cons. case_decide as Hb.
  - destruct Hb as [-> ->]. done.
  - destruct (lock_rec_get_nth_bit l h && lock_has_to_wait no w l) eqn:He; [by apply andb_true_iff in He|]. apply IH. set_solver.
Qed.

Lemma has_to_wait_in_queue_Ok s w :
  has_lock s w → lock_rec_has_to_wait_in_queue cfg w s = Ok (head (blockers s w), s).
Proof.
  intros Hw. unfold lock_rec_has_to_wait_in_queue, blockers. apply elem_ids in Hw.
  destruct (lock_rec_find_set_bit w) as [h|]; [by rewrite has_to_wait_loop_spec|].
  induction (page_locks s _ _) as [|l chain IH]; simpl in *; [set_solver|]. case_decide; [done|]. apply IH. set_solver.
Qed.

Lemma elem_blockers s w l :
  l ∈ blockers s w ↔ ∃ h, lock_rec_find_set_bit w = Some h ∧ blocks h w l ∧ l ∈ ahead (lock_id w) (page_locks s (space w) (page_no w)).
Proof.
  unfold blockers. destruct (lock_rec_find_set_bit w) as [h|].
  - rewrite list_elem_of_filter. split; [intros []; by exists h|intros (? & [= <-] & ?); done].
  - split; [set_solver|by intros (? & ? & ?)].
Qed.

Lemma blockers_has s w l : l ∈ blockers s w → has_lock s l ∧ space l = space w ∧ page_no l = page_no w.
Proof. intros (h & _ & _ & [Hl _]%elem_ahead)%elem_blockers. by apply elem_page in Hl as [? [? ?]]. Qed.

Lemma blockers_trx s w l : l ∈ blockers s w → lock_trx w ≠ lock_trx l.
Proof. intros (h & _ & [_ Hw] & _)%elem_blockers. by eapply lock_has_to_wait_trx. Qed.

(** ** Progress of the lock system: locks are granted and removed *)

Definition locks_of (s : lock_sys_t) (t : nat) : list nat := from_option trx_locks [] (trxs s !! t).

Record evolves (d G : gset nat) (s s' : lock_sys_t) : Prop := mk_evolves {
  ev_page : ∀ sp pg, page_locks s' sp pg = map (evo G) (filter (λ l, lock_id l ∉ d) (page_locks s sp pg));
  ev_trxs : dom (trxs s') = dom (trxs s);
  ev_locks : ∀ t, locks_of s' t = filter (λ id, id ∉ d) (locks_of s t);
}.

Lemma evolves_refl s : evolves ∅ ∅ s s.
Proof.
  split; [|done|intros t; by rewrite filter_all by set_solver]. intros sp pg. rewrite filter_all by set_solver.
  rewrite <-(map_id (page_locks s sp pg)) at 1. apply map_ext. intros l. unfold evo. by rewrite decide_False by set_solver.
Qed.

Lemma evolves_trans d G d' G' s1 s2 s3 : evolves d G s1 s2 → evolves d' G' s2 s3 → evolves (d ∪ d') (G ∪ G') s1 s3.
Proof.
  intros [H1 H2 H3] [H1' H2' H3']. split; [|congruence|].
  2: { intros t. rewrite H3', H3, list_filter_filter. apply list_filter_iff. set_solver. }
  intros sp pg. rewrite H1', H1.
  induction (page_locks s1 sp pg) as [|l q IH]; [done|]. rewrite !(filter_cons _ l).
  destruct (decide (lock_id l ∉ d)) as [Hd|Hd].
  - cbn [map]. rewrite filter_cons. rewrite evo_id. destruct (decide (lock_id l ∉ d')) as [Hd'|Hd'].
    + rewrite decide_True by set_solver. cbn [map]. by rewrite IH, evo_evo.
    + rewrite decide_False by set_solver. done.
  - rewrite decide_False by set_solver. done.
Qed.

Lemma evolves_trans_l d G G' s1 s2 s3 : evolves d G s1 s2 → evolves ∅ G' s2 s3 → evolves d (G ∪ G') s1 s3.
Proof. intros H1 H2. replace d with (d ∪ ∅) by set_solver. by eapply evolves_trans. Qed.

Lemma evolves_has d G s s' l' : evolves d G s s' → has_lock s' l' ↔ ∃ l, has_lock s l ∧ lock_id l ∉ d ∧ l' = evo G l.
Proof.
  intros Hev. unfold has_lock. rewrite (ev_page _ _ _ _ Hev). split.
  - intros (l & -> & [Hd Hl]%list_elem_of_filter)%list_elem_of_fmap. exists l. split_and!; [|done..].
    rewrite (shape_space _ _ (evo_shape G l)), (shape_page _ _ (evo_shape G l)) in Hl. done.
  - intros (l & Hl & Hd & ->). rewrite (shape_space _ _ (evo_shape G l)), (shape_page _ _ (evo_shape G l)).
    apply list_elem_of_fmap_2, list_elem_of_filter. done.
Qed.

Lemma filter_map_evo P Q `{∀ l, Decision (P l)} `{∀ l, Decision (Q l)} G q :
  (∀ l, Q (evo G l) ↔ P l) → filter Q (map (evo G) q) = map (evo G) (filter P q).
Proof.
  intros HPQ. induction q as [|l q IH]; [done|]. cbn [map]. rewrite !filter_cons, IH.
  destruct (decide (P l)) as [Hl|Hl]; [rewrite decide_True by (by apply HPQ)|rewrite decide_False by (by rewrite HPQ)]; done.
Qed.

Lemma filter_comm {A} (P Q : A → Prop) `{∀ l, Decision (P l)} `{∀ l, Decision (Q l)} (q : list A) :
  filter P (filter Q q) = filter Q (filter P q).
Proof. rewrite !list_filter_filter. apply list_filter_iff. tauto. Qed.

(** A lock that stays waits for those that stay. *)
Lemma evolves_blockers d G s s' w :
  hash_ok s → evolves d G s s' → has_lock s w → lock_id w ∉ d →
  blockers s' (evo G w) = map (evo G) (filter (λ l, lock_id l ∉ d) (blockers s w)).
Proof.
  intros Hok Hev Hw Hd. unfold blockers. rewrite (shape_find _ _ (evo_shape G w)).
  rewrite (shape_space _ _ (evo_shape G w)), (shape_page _ _ (evo_shape G w)), evo_id.
  destruct (lock_rec_find_set_bit w) as [h|]; [|done]. rewrite (ev_page _ _ _ _ Hev), ahead_map by apply evo_id.
  rewrite ahead_filter.
  - rewrite (filter_map_evo (blocks h w) (blocks h (evo G w))). { by rewrite filter_comm. }
    intros l. unfold blocks. rewrite (shape_bit _ _ _ (evo_shape G l)).
    by rewrite (shape_waits _ _ w _ l) by apply evo_shape.
  - intros l Hl ->. done.
Qed.

Lemma evolves_waits_for d G s s' a b : hash_ok s → evolves d G s s' → waits_for s' a b → waits_for s a b.
Proof.
  intros Hok Hev (w' & l' & Hw' & Hwait & <- & Hl' & <-). apply (evolves_has _ _ _ _ _ Hev) in Hw' as (w & Hw & Hd & ->).
  rewrite (evolves_blockers d G s) in Hl' by done. apply list_elem_of_fmap in Hl' as (l & -> & [_ Hl]%list_elem_of_filter).
  exists w, l. apply evo_wait in Hwait as [Hwait _]. rewrite !evo_trx. done.
Qed.

(** ** The invariant *)

Definition one_bit (l : lock_t) : Prop :=
  ∃ h, lock_rec_get_nth_bit l h = true ∧ ∀ i, lock_rec_get_nth_bit l i = true → i = h.

Record lock_ok (s : lock_sys_t) (l : lock_t) : Prop := mk_lock_ok {
  lo_bitmap : bitmap_ok l;
  lo_mode : lock_get_mode l = LOCK_S ∨ lock_get_mode l = LOCK_X;
  lo_bit : lock_get_wait l = true → one_bit l;
  lo_trx : ∃ trx, trxs s !! lock_trx l = Some trx ∧ lock_id l ∈ trx_locks trx ∧
                  (lock_get_wait l = true → wait_lock trx = Some (lock_id l));
}.

(** The thread of a transaction in the state of a wait is stopped for it. *)
Definition thr_waits (t : trx_t) : Prop :=
  que_state t = TRX_QUE_LOCK_WAIT → wait_thr (trx_thr t) = true ∧ thr_state (trx_thr t) = QUE_THR_LOCK_WAIT.

(** [joining] is a transaction that is running although it has a waiting lock, while its
    request is checked for deadlocks; [cancelled] is one whose waiting lock has just been
    taken out of the queue. *)
Record trx_ok (joining cancelled : option nat) (s : lock_sys_t) (t : nat) (trx : trx_t) : Prop := mk_trx_ok {
  to_nodup : NoDup (trx_locks trx);
  to_locks : ∀ id, id ∈ trx_locks trx → ∃ l, has_lock s l ∧ lock_id l = id ∧ lock_trx l = t;
  to_wait : ∀ id, wait_lock trx = Some id → cancelled ≠ Some t →
              ∃ l, has_lock s l ∧ lock_id l = id ∧ lock_trx l = t ∧ lock_get_wait l = true;
  to_que : que_state trx = if decide (joining = Some t) then TRX_QUE_RUNNING
                           else if decide (cancelled = Some t) then TRX_QUE_LOCK_WAIT
                           else if wait_lock trx then TRX_QUE_LOCK_WAIT else TRX_QUE_RUNNING;
  to_thr : graph_state (trx_thr trx) = QUE_FORK_ACTIVE ∧ thr_waits trx;
  to_mark : (deadlock_mark trx ≤ s_lock_mark_counter s)%Z;
}.

(** Of two locks that conflict on a record, the later one waits. *)
Definition rule3 (s : lock_sys_t) : Prop :=
  ∀ w l h, has_lock s w → l ∈ ahead (lock_id w) (page_locks s (space w) (page_no w)) → h ≠ PAGE_HEAP_NO_SUPREMUM →
    lock_rec_get_nth_bit w h = true → lock_rec_get_nth_bit l h = true → rec_conflict w l → lock_get_wait w = true.

Record inv (joining cancelled : option nat) (s : lock_sys_t) : Prop := mk_inv {
  inv_hash : hash_ok s;
  inv_lock : ∀ l, has_lock s l → lock_ok s l;
  inv_trx : ∀ t trx, trxs s !! t = Some trx → trx_ok joining cancelled s t trx;
  inv_rule3 : rule3 s;
  inv_cancelled : ∀ l, has_lock s l → lock_get_wait l = true → cancelled ≠ Some (lock_trx l);
}.

(** No waiting lock could be granted. *)
Definition settled (s : lock_sys_t) (id : nat) : Prop :=
  ∀ w, has_lock s w → lock_id w = id → lock_get_wait w = true → blockers s w ≠ [].

Definition all_settled (s : lock_sys_t) : Prop := ∀ id, settled s id.

Lemma one_bit_shape l l' : same_shape l l' → one_bit l' → one_bit l.
Proof. intros Hs (h & Hh & Hu). exists h. rewrite (shape_bit _ _ _ Hs). split; [done|]. intros i. rewrite (shape_bit _ _ _ Hs). apply Hu. Qed.

Lemma one_bit_find l : one_bit l → ∃ h, lock_rec_find_set_bit l = Some h ∧ lock_rec_get_nth_bit l h = true ∧ ∀ i, lock_rec_get_nth_bit l i = true → i = h.
Proof. intros (h & Hh & Hu). exists h. split; [by apply lock_rec_find_only_bit|done]. Qed.

Lemma rec_conflict_shape w w' l l' : same_shape w w' → same_shape l l' → rec_conflict w l → rec_conflict w' l'.
Proof.
  intros [_ Hw _ _ _ _] [_ Hl _ _ _ _]. unfold rec_conflict, same_kind in *. destruct_and! Hw. destruct_and! Hl.
  intros Hc. destruct_and! Hc. split_and!; congruence.
Qed.

(** A conflict on the record of a waiting lock is one that it waits for. *)
Lemma conflict_blocks w l h :
  one_bit w → h ≠ PAGE_HEAP_NO_SUPREMUM → lock_rec_get_nth_bit w h = true → lock_rec_get_nth_bit l h = true → rec_conflict w l →
  lock_rec_find_set_bit w = Some h ∧ blocks h w l.
Proof.
  intros (h' & Hh' & Hu) Hs Hw Hl Hc. assert (h = h') as -> by (by apply Hu). split; [by apply lock_rec_find_only_bit|].
  split; [done|]. apply rec_conflict_waits; [done|]. destruct (lock_rec_get_nth_bit w PAGE_HEAP_NO_SUPREMUM) eqn:He; [|done].
  apply Hu in He. by rewrite He in Hs.
Qed.

Lemma rule3_evolves d G s s' :
  hash_ok s → rule3 s → evolves d G s s' →
  (∀ w, has_lock s w → lock_id w ∈ G → one_bit w ∧ blockers s w = []) → rule3 s'.
Proof.
  intros Hok H3 Hev HG w' l' h Hw' Hl' Hh Hbw Hbl Hc.
  apply (evolves_has _ _ _ _ _ Hev) in Hw' as (w & Hw & Hd & ->).
  rewrite (shape_space _ _ (evo_shape G w)), (shape_page _ _ (evo_shape G w)), evo_id, (ev_page _ _ _ _ Hev), ahead_map in Hl' by apply evo_id.
  rewrite ahead_filter in Hl' by (by intros ? ? ->).
  apply list_elem_of_fmap in Hl' as (l & -> & [_ Hl]%list_elem_of_filter).
  rewrite (shape_bit _ _ _ (evo_shape G w)) in Hbw. rewrite (shape_bit _ _ _ (evo_shape G l)) in Hbl.
  apply (rec_conflict_shape _ w _ l) in Hc; [|apply evo_shape..].
  assert (Hwait : lock_get_wait w = true) by (by eapply H3). unfold evo. case_decide as HwG; [|done].
  destruct (HG w Hw HwG) as [Hone Hb]. destruct (conflict_blocks w l h) as [Hf Hbl']; [done..|].
  assert (Hin : l ∈ blockers s w) by (apply elem_blockers; by exists h). rewrite Hb in Hin. set_solver.
Qed.

Lemma settled_evolves d G s s' id :
  hash_ok s → evolves d G s s' → (∀ w l, has_lock s w → lock_id w = id → l ∈ blockers s w → lock_id l ∉ d) → settled s id → settled s' id.
Proof.
  intros Hok Hev Hd Hs w' Hw' Hid Hwait. apply (evolves_has _ _ _ _ _ Hev) in Hw' as (w & Hw & Hwd & ->). rewrite evo_id in Hid.
  rewrite (evolves_blockers d G s) by done. apply evo_wait in Hwait as [Hwait _]. specialize (Hs w Hw Hid Hwait).
  destruct (blockers s w) as [|l b] eqn:Hb; [done|]. rewrite filter_cons, decide_True; [done|].
  apply (Hd w); [done..|]. rewrite Hb. set_solver.
Qed.

End config.
