(* ===== verification/InnoGrant.v ===== *)
(** Granting and removing record locks of InnoDB: [lock_grant], the grant loop and
    [lock_rec_dequeue_from_page] keep the invariant of [InnoInv], and after a removal
    every lock that could be granted has been. *)
From stdpp Require Import functions base tactics numbers option list list_numbers gmap sets relations sorting.
From Stdlib Require Import ZArith Lia.
From S2P Require Import Prelude InnoMode InnoSys InnoQueue InnoInv.

Lemma granted_keeps_place : keeps_place granted.
Proof. by intros l. Qed.

Lemma upd_granted id l : upd id granted l = evo {[id]} l.
Proof. unfold upd, evo. repeat case_decide; set_solver. Qed.

(** ** Granting *)

(** A transaction in the state of a wait runs again. *)
Definition resume (t : trx_t) : trx_t :=
  match que_state t with
  | TRX_QUE_LOCK_WAIT => set_trx_thr (thr_run (trx_thr t)) (set_que_state TRX_QUE_RUNNING t)
  | TRX_QUE_RUNNING => t
  end.

Definition grant_trx (t : trx_t) : trx_t := resume (set_wait_lock None t).

Lemma resume_spec t : que_state (resume t) = TRX_QUE_RUNNING ∧ wait_lock (resume t) = wait_lock t ∧ deadlock_mark (resume t) = deadlock_mark t ∧
  trx_locks (resume t) = trx_locks t ∧ graph_state (trx_thr (resume t)) = graph_state (trx_thr t).
Proof. unfold resume. by destruct (que_state t) eqn:?. Qed.

Lemma grant_trx_spec t : que_state (grant_trx t) = TRX_QUE_RUNNING ∧ wait_lock (grant_trx t) = None ∧ deadlock_mark (grant_trx t) = deadlock_mark t ∧
  trx_locks (grant_trx t) = trx_locks t ∧ graph_state (trx_thr (grant_trx t)) = graph_state (trx_thr t).
Proof. apply (resume_spec (set_wait_lock None t)). Qed.

Definition grant (w : lock_t) (s : lock_sys_t) : lock_sys_t :=
  update_lock (lock_id w) granted (update_trx (lock_trx w) grant_trx s).

(** [que_thr_end_lock_wait] runs for a transaction in the state of a wait. *)
Lemma end_lock_wait_Ok s t trx : trxs s !! t = Some trx → que_state trx = TRX_QUE_LOCK_WAIT → thr_waits trx →
  que_thr_end_lock_wait t s = Ok (tt, update_trx t resume s).
Proof.
  intros Ht Hq [Hw Hs]; [done|]. unfold que_thr_end_lock_wait. erewrite bind_Ok by done. erewrite deref_Some by done.
  rewrite Hw. erewrite deref_Some by done. rewrite assert_true by (by rewrite Hs). unfold modify, update_trx. cbn. do 3 f_equal.
  apply map_eq. intros k. destruct (decide (k = t)) as [->|Hk]; [|by rewrite !lookup_alter_ne].
  rewrite !lookup_alter_eq, Ht. cbn. unfold resume. by rewrite Hq.
Qed.

Lemma update_grant s w : update_trx (lock_trx w) resume (update_lock (lock_id w) granted (update_trx (lock_trx w) (set_wait_lock None) s)) = grant w s.
Proof. unfold grant, update_lock, update_trx, set_rec_hash. cbn. f_equal. by rewrite alter_alter_eq. Qed.

Lemma lock_grant_Ok s w t : trxs s !! lock_trx w = Some t → thr_waits t → lock_grant w s = Ok (tt, grant w s).
Proof.
  intros Ht Hthr. unfold lock_grant, lock_reset_lock_and_trx_wait. erewrite bind_Ok by done. erewrite bind_Ok by done.
  assert (Ht' : alter (set_wait_lock None) (lock_trx w) (trxs s) !! lock_trx w = Some (set_wait_lock None t)) by by rewrite lookup_alter_eq, Ht.
  erewrite deref_Some by (cbn; done). cbn [que_state set_wait_lock]. rewrite <-update_grant. case_decide as Hq.
  - by eapply (end_lock_wait_Ok _ _ (set_wait_lock None t)).
  - unfold mret, M_ret. do 2 f_equal. unfold update_trx. cbn. rewrite (alter_id resume); [done|].
    intros x. rewrite Ht'. intros [= <-]. unfold resume. cbn. by destruct (que_state t).
Qed.

Lemma evolves_grant s w : evolves ∅ {[lock_id w]} s (grant w s).
Proof.
  split; [|cbn; apply dom_alter_L|].
  2: { intros t. rewrite filter_all by set_solver. unfold locks_of. cbn. destruct (decide (t = lock_trx w)) as [->|Ht].
       - rewrite lookup_alter_eq. destruct (trxs s !! lock_trx w) as [trx|]; [|done]. apply (grant_trx_spec trx).
       - by rewrite lookup_alter_ne. }
  intros sp pg. unfold grant. rewrite page_update_lock by apply granted_keeps_place.
  rewrite filter_all by set_solver. apply map_ext. intros l. apply upd_granted.
Qed.

Lemma evolves_has_same d G s s' l : evolves d G s s' → has_lock s l → lock_id l ∉ d → lock_id l ∉ G → has_lock s' l.
Proof.
  intros Hev Hl Hd HG. apply (evolves_has _ _ _ _ _ Hev). exists l. split_and!; [done..|]. unfold evo. by rewrite decide_False.
Qed.

Lemma trx_ok_waits jo vo s t trx : trx_ok jo vo s t trx → thr_waits trx.
Proof. by intros [_ _ _ _ [_ H] _]. Qed.

Lemma thr_waits_running trx : que_state trx = TRX_QUE_RUNNING → thr_waits trx.
Proof. unfold thr_waits. congruence. Qed.

Section config.
  Context (cfg : config).

Lemma inv_trx_of jo vo s l : inv jo vo s → has_lock s l →
  ∃ trx, trxs s !! lock_trx l = Some trx ∧ lock_id l ∈ trx_locks trx ∧ (lock_get_wait l = true → wait_lock trx = Some (lock_id l)).
Proof. intros Hinv Hl. apply (lo_trx _ _ (inv_lock _ _ _ Hinv _ Hl)). Qed.

(** The state of a transaction while no wait is being cancelled. *)
Lemma inv_que jo s t trx : inv jo None s → trxs s !! t = Some trx →
  que_state trx = if decide (jo = Some t) then TRX_QUE_RUNNING else if wait_lock trx then TRX_QUE_LOCK_WAIT else TRX_QUE_RUNNING.
Proof. intros Hinv Ht. rewrite (to_que _ _ _ _ _ (inv_trx _ _ _ Hinv _ _ Ht)). case_decide; [done|]. by rewrite decide_False. Qed.

(** A transaction waits for one lock at most. *)
Lemma inv_wait_unique jo vo s l l' :
  inv jo vo s → has_lock s l → has_lock s l' → lock_get_wait l = true → lock_get_wait l' = true → lock_trx l = lock_trx l' → l = l'.
Proof.
  intros Hinv Hl Hl' Hw Hw' Ht. apply (lock_id_inj s); [apply Hinv|done..|].
  destruct (inv_trx_of _ _ _ _ Hinv Hl) as (trx & H1 & _ & H2). destruct (inv_trx_of _ _ _ _ Hinv Hl') as (trx' & H1' & _ & H2').
  rewrite Ht in H1. rewrite H1 in H1'. simplify_eq. specialize (H2 Hw). specialize (H2' Hw'). congruence.
Qed.

Definition running (s : lock_sys_t) (t : nat) : Prop := ∃ trx, trxs s !! t = Some trx ∧ wait_lock trx = None.

(** Nothing stops the thread of the transaction while it does not wait. *)
Definition query_runs (s : lock_sys_t) (t : nat) : Prop :=
  ∀ trx, trxs s !! t = Some trx → fst (que_thr_stop TRX_QUE_RUNNING (duplicates trx) (trx_thr trx)) = false.

Lemma running_granted jo vo s l : inv jo vo s → has_lock s l → running s (lock_trx l) → lock_get_wait l = false.
Proof.
  intros Hinv Hl (trx & Ht & Hw). destruct (lock_get_wait l) eqn:Hlw; [|done].
  destruct (inv_trx_of _ _ _ _ Hinv Hl) as (trx' & Ht' & _ & Hw'). rewrite Ht in Ht'. simplify_eq. by rewrite Hw' in Hw.
Qed.

Lemma inv_owner jo vo s l t trx : inv jo vo s → has_lock s l → trxs s !! t = Some trx → lock_id l ∈ trx_locks trx → lock_trx l = t.
Proof.
  intros Hinv Hl Ht Hid. destruct (to_locks _ _ _ _ _ (inv_trx _ _ _ Hinv _ _ Ht) _ Hid) as (l0 & Hl0 & Hid0 & <-).
  f_equal. by apply (lock_id_inj s); [apply Hinv|..].
Qed.

Lemma lock_ok_grant jo vo s w l :
  inv jo vo s → has_lock s w → lock_get_wait w = true ∨ running s (lock_trx w) → has_lock s l → lock_ok (grant w s) (evo {[lock_id w]} l).
Proof.
  intros Hinv Hw Hwait Hl. destruct (inv_lock _ _ _ Hinv _ Hl) as [Hbm Hm Hb _]. set (l' := evo {[lock_id w]} l).
  assert (Hs : same_shape l' l) by apply evo_shape. split.
  - unfold bitmap_ok. by rewrite (shape_n_bits _ _ Hs), (shape_bitmap _ _ Hs).
  - destruct (shape_kind _ _ Hs) as (_ & -> & _). done.
  - intros [Hlw _]%evo_wait. apply (one_bit_shape _ l); [done|]. by apply Hb.
  - destruct (inv_trx_of _ _ _ _ Hinv Hl) as (trx & Ht & Hin & Hwl). unfold l'. rewrite evo_trx, evo_id.
    destruct (decide (lock_trx l = lock_trx w)) as [He|Hne].
    + exists (grant_trx trx). cbn. rewrite He in *. rewrite lookup_alter_eq, Ht. destruct (grant_trx_spec trx) as (_ & -> & _ & -> & _). split_and!; [done..|].
      intros [Hlw Hid]%evo_wait. destruct Hwait as [Hwait|Hr].
      * assert (l = w) as -> by (by eapply inv_wait_unique). set_solver.
      * rewrite <-He in Hr. by rewrite (running_granted _ _ _ _ Hinv Hl Hr) in Hlw.
    + exists trx. cbn. rewrite lookup_alter_ne by done. split_and!; [done..|]. intros [Hlw _]%evo_wait. by apply Hwl.
Qed.

Lemma trx_ok_grant jo vo s w t trx :
  inv jo vo s → has_lock s w → vo ≠ Some (lock_trx w) → trxs (grant w s) !! t = Some trx → trx_ok jo vo (grant w s) t trx.
Proof.
  intros Hinv Hw Hvow Ht. cbn in Ht. assert (Hev := evolves_grant s w).
  assert (Hlocks : ∀ trx0, trxs s !! t = Some trx0 → ∀ id, id ∈ trx_locks trx0 →
            ∃ l, has_lock (grant w s) l ∧ lock_id l = id ∧ lock_trx l = t).
  { intros trx0 Ht0 id Hid. destruct (to_locks _ _ _ _ _ (inv_trx _ _ _ Hinv _ _ Ht0) id Hid) as (l & Hl & Hlid & Hlt).
    exists (evo {[lock_id w]} l). rewrite evo_id, evo_trx. split_and!; [|done..]. apply (evolves_has _ _ _ _ _ Hev). exists l. set_solver. }
  destruct (decide (t = lock_trx w)) as [->|Hne].
  - rewrite lookup_alter_eq in Ht. destruct (trxs s !! lock_trx w) as [trx0|] eqn:Ht0; [|done]. injection Ht as <-.
    destruct (inv_trx _ _ _ Hinv _ _ Ht0) as [H1 _ _ _ [H5 _] H6]. destruct (grant_trx_spec trx0) as (Eq & Ew & Em & El & Eg).
    split; rewrite ?Eq, ?Ew, ?Em, ?El, ?Eg; [done|exact (Hlocks _ eq_refl)|done| |split; [done|by apply thr_waits_running]|done].
    case_decide; [done|]. by rewrite decide_False.
  - rewrite lookup_alter_ne in Ht by done. destruct (inv_trx _ _ _ Hinv _ _ Ht) as [H1 _ H3 H4 H5 H6].
    split; [done|exact (Hlocks _ Ht)| |done..]. intros id Hid Hvo.
    destruct (H3 id Hid Hvo) as (l & Hl & Hlid & Hlt & Hlw). exists l. split_and!; [|done..].
    apply (evolves_has_same _ _ _ _ _ Hev); [done|set_solver|]. intros Hin%elem_of_singleton.
    apply Hne. rewrite <-Hlt. f_equal. apply (lock_id_inj s); [apply Hinv|done..].
Qed.

Lemma inv_grant jo vo s w :
  inv jo vo s → has_lock s w → lock_get_wait w = true → blockers cfg s w = [] → inv jo vo (grant w s).
Proof.
  intros Hinv Hw Hwait Hb. assert (Hev := evolves_grant s w). split.
  - apply hash_ok_update_lock; [apply granted_keeps_place|]. destruct (inv_hash _ _ _ Hinv). by split.
  - intros l' (l & Hl & _ & ->)%(evolves_has _ _ _ _ _ Hev). eapply lock_ok_grant; [done..|by left|done].
  - intros t trx Ht. apply trx_ok_grant; [done..| |done]. by eapply inv_cancelled.
  - eapply rule3_evolves; [apply Hinv|apply Hinv|done|]. intros x Hx Hid%elem_of_singleton.
    assert (x = w) as -> by (apply (lock_id_inj s); [apply Hinv|done..]). split; [|done]. by apply (inv_lock _ _ _ Hinv).
  - intros l' (l & Hl & _ & ->)%(evolves_has _ _ _ _ _ Hev) [Hlw _]%evo_wait. rewrite evo_trx. by eapply inv_cancelled.
Qed.

(** ** The grant loop *)

(** Locks without a blocker are granted, one after the other. *)
Definition grant_step (s s' : lock_sys_t) : Prop :=
  ∃ w, has_lock s w ∧ lock_get_wait w = true ∧ blockers cfg s w = [] ∧ s' = grant w s.

Lemma grants_inv jo vo s s' : rtc grant_step s s' → inv jo vo s → inv jo vo s'.
Proof. induction 1 as [|s1 s2 s3 (w & Hw & Hwait & Hb & ->) _ IH]; [done|]. intros Hinv. apply IH. by apply inv_grant. Qed.

Lemma grants_evolve jo vo s s' : inv jo vo s → rtc grant_step s s' →
  ∃ G, evolves ∅ G s s' ∧ ∀ w, has_lock s w → lock_id w ∈ G → lock_get_wait w = true ∧ blockers cfg s w = [].
Proof.
  intros Hinv Hgr. revert Hinv. induction Hgr as [s|s1 s2 s3 (w & Hw & Hwait & Hb & ->) _ IH]; intros Hinv.
  { exists ∅. split; [apply evolves_refl|set_solver]. }
  destruct IH as (G & Hev & HG); [by apply inv_grant|]. assert (Hev1 := evolves_grant s1 w).
  exists ({[lock_id w]} ∪ G). split; [apply (evolves_trans ∅ _ ∅ _ _ _ _ Hev1 Hev)|].
  intros x Hx Hid. destruct (decide (lock_id x = lock_id w)) as [He|Hne].
  - assert (x = w) as -> by (by apply (lock_id_inj s1); [apply Hinv|..]). done.
  - assert (Hx2 : has_lock (grant w s1) x) by (apply (evolves_has_same _ _ _ _ _ Hev1); set_solver).
    destruct (HG x Hx2) as [Hxw Hxb]; [set_solver|]. split; [done|].
    rewrite <-(evo_other {[lock_id w]} x) in Hxb by set_solver.
    rewrite (evolves_blockers cfg ∅ {[lock_id w]} s1) in Hxb; [|apply Hinv|done|done|set_solver].
    apply fmap_nil_inv in Hxb. rewrite filter_all in Hxb by set_solver. done.
Qed.

Lemma grants_counter s s' : rtc grant_step s s' → s_lock_mark_counter s' = s_lock_mark_counter s.
Proof. by induction 1 as [|s1 s2 s3 (w & _ & _ & _ & ->) _ IH]. Qed.

Lemma settled_grants jo vo s s' id : inv jo vo s → rtc grant_step s s' → settled cfg s id → settled cfg s' id.
Proof.
  intros Hinv Hgr. destruct (grants_evolve jo vo s s') as (G & Hev & _); [done..|].
  eapply settled_evolves; [apply Hinv|done|set_solver].
Qed.

Lemma settled_lock jo vo s l : inv jo vo s → has_lock s l → (lock_get_wait l = true → blockers cfg s l ≠ []) → settled cfg s (lock_id l).
Proof. intros Hinv Hl Hb w Hw Hid. assert (w = l) as -> by (by apply (lock_id_inj s); [apply Hinv|..]). done. Qed.

Lemma has_grant s w l : has_lock s l → lock_id l ≠ lock_id w → has_lock (grant w s) l.
Proof. intros Hl Hne. apply (evolves_has_same _ _ _ _ _ (evolves_grant s w)); set_solver. Qed.

Lemma grant_loop_Ok jo vo chain s :
  inv jo vo s → NoDup (map lock_id chain) → (∀ l, l ∈ chain → has_lock s l) →
  ∃ s', grant_loop cfg chain s = Ok (tt, s') ∧ rtc grant_step s s' ∧ ∀ l, l ∈ chain → settled cfg s' (lock_id l).
Proof.
  revert s. induction chain as [|l chain IH]; intros s Hinv Hnd Hch.
  { exists s. split_and!; [done|reflexivity|set_solver]. }
  apply NoDup_cons in Hnd as [Hl Hnd]. assert (Hls : has_lock s l) by (apply Hch; set_solver). cbn [grant_loop].
  assert (Hstep : ∃ s1, (if lock_get_wait l then
             w ← lock_rec_has_to_wait_in_queue cfg l;
             match w with None => lock_grant l | Some _ => mret tt end
           else mret tt) s = Ok (tt, s1) ∧ rtc grant_step s s1 ∧ settled cfg s1 (lock_id l) ∧ ∀ x, x ∈ chain → has_lock s1 x).
  { destruct (lock_get_wait l) eqn:Hw.
    2: { exists s. split_and!; [done|reflexivity| |set_solver]. eapply settled_lock; [done..|]. by rewrite Hw. }
    erewrite bind_Ok by (by apply has_to_wait_in_queue_Ok). destruct (blockers cfg s l) as [|b bs] eqn:Hb; cbn [head].
    - destruct (inv_trx_of _ _ _ _ Hinv Hls) as (trx & Ht & _). exists (grant l s).
      split_and!; [eapply lock_grant_Ok; [done|by eapply trx_ok_waits, inv_trx]|apply rtc_once; by exists l| |].
      + intros w Hws Hid Hww. apply (evolves_has _ _ _ _ _ (evolves_grant s l)) in Hws as (w0 & _ & _ & ->).
        rewrite evo_id in Hid. apply evo_wait in Hww as [_ Hn]. set_solver.
      + intros x Hx. apply has_grant; [set_solver|]. intros He. apply Hl. rewrite <-He. by apply elem_ids.
    - exists s. split_and!; [done|reflexivity| |set_solver]. eapply settled_lock; [done..|]. by rewrite Hb. }
  destruct Hstep as (s1 & Hrun & Hgr & Hset & Hch1). erewrite bind_Ok by done.
  assert (Hinv1 : inv jo vo s1) by (by eapply grants_inv).
  destruct (IH s1) as (s' & Hrun' & Hgr' & Hset'); [done..|]. exists s'. split_and!; [done|by etrans|].
  intros x [->|Hx]%elem_of_cons; [by eapply settled_grants|by apply Hset'].
Qed.

(** ** Removing *)

Definition remove (l : lock_t) (s : lock_sys_t) : lock_sys_t :=
  update_trx (lock_trx l) (λ t, set_trx_locks (filter (λ id, id ≠ lock_id l) (trx_locks t)) t) (hash_remove l s).

Lemma evolves_remove jo vo s l : inv jo vo s → has_lock s l → evolves {[lock_id l]} ∅ s (remove l s).
Proof.
  intros Hinv Hl. split; [|cbn; apply dom_alter_L|].
  - intros sp pg. change (page_locks (remove l s) sp pg) with (page_locks (hash_remove l s) sp pg).
    rewrite page_hash_remove by (done || apply Hinv). rewrite (map_ext _ id), map_id by (intros x; by apply evo_other; set_solver).
    apply list_filter_iff. set_solver.
  - intros t. unfold locks_of. cbn. destruct (decide (t = lock_trx l)) as [->|Ht].
    + rewrite lookup_alter_eq. destruct (trxs s !! lock_trx l) as [trx|]; [|done]. cbn. apply list_filter_iff. set_solver.
    + rewrite lookup_alter_ne by done. destruct (trxs s !! t) as [trx|] eqn:Htr; [|done]. cbn. rewrite filter_all; [done|].
      intros id Hid ->%elem_of_singleton. apply Ht. symmetry. by eapply inv_owner.
Qed.

Lemma has_remove jo vo s l x : inv jo vo s → has_lock s l → has_lock (remove l s) x ↔ has_lock s x ∧ lock_id x ≠ lock_id l.
Proof. intros Hinv Hl. apply has_hash_remove; [apply Hinv|done]. Qed.

Definition cancelled_by (l : lock_t) : option nat := if lock_get_wait l then Some (lock_trx l) else None.

Lemma trxs_remove jo vo s l t trx :
  inv jo vo s → has_lock s l → trxs (remove l s) !! t = Some trx →
  ∃ trx0, trxs s !! t = Some trx0 ∧ trx_locks trx = filter (λ id, id ≠ lock_id l) (trx_locks trx0) ∧
    wait_lock trx = wait_lock trx0 ∧ que_state trx = que_state trx0 ∧ deadlock_mark trx = deadlock_mark trx0 ∧ trx_thr trx = trx_thr trx0.
Proof.
  intros Hinv Hl Ht. cbn in Ht. destruct (decide (t = lock_trx l)) as [->|Hne].
  - rewrite lookup_alter_eq in Ht. destruct (trxs s !! lock_trx l) as [trx0|]; simplify_eq/=. by exists trx0.
  - rewrite lookup_alter_ne in Ht by done. exists trx. split_and!; [done| |done..]. symmetry. apply filter_all.
    intros id Hid ->. apply Hne. symmetry. by eapply inv_owner.
Qed.

Lemma trx_ok_remove jo s l t trx :
  inv jo None s → has_lock s l → trxs (remove l s) !! t = Some trx → trx_ok jo (cancelled_by l) (remove l s) t trx.
Proof.
  intros Hinv Hl Ht. destruct (trxs_remove jo None s l t trx) as (trx0 & Ht0 & Hlocks & Hwait & Hque & Hmark & Hthr); [done..|].
  destruct (inv_trx _ _ _ Hinv _ _ Ht0) as [H1 H2 H3 H4 H5 H6]. split.
  - rewrite Hlocks. by apply NoDup_filter.
  - intros id. rewrite Hlocks. intros [Hne Hid]%list_elem_of_filter. destruct (H2 id Hid) as (l0 & Hl0 & <- & Hlt).
    exists l0. split_and!; [|done..]. by apply (has_remove jo None).
  - intros id. rewrite Hwait. intros Hid Hc. destruct (H3 id Hid) as (l0 & Hl0 & <- & Hlt & Hlw); [done|].
    exists l0. split_and!; [|done..]. apply (has_remove jo None); [done..|]. split; [done|]. intros He. apply Hc. unfold cancelled_by.
    assert (l0 = l) as -> by (by apply (lock_id_inj s); [apply Hinv|..]). by rewrite Hlw, Hlt.
  - rewrite Hque, Hwait, H4, (decide_False (P := None = Some t)) by done. clear H4. case_decide; [done|]. case_decide as Hc; [|done].
    unfold cancelled_by in Hc. destruct (lock_get_wait l) eqn:Hlw; [|done]. injection Hc as <-.
    destruct (inv_trx_of _ _ _ _ Hinv Hl) as (trx' & Ht' & _ & Hw'). assert (trx' = trx0) as -> by congruence. by rewrite (Hw' Hlw).
  - unfold thr_waits. by rewrite Hque, Hthr.
  - rewrite Hmark. done.
Qed.

Lemma inv_remove jo s l : inv jo None s → has_lock s l → inv jo (cancelled_by l) (remove l s).
Proof.
  intros Hinv Hl. assert (Hok := inv_hash _ _ _ Hinv). assert (Hok' := hash_ok_remove s l Hok). split.
  - destruct Hok'. by split.
  - intros x Hx. apply (has_remove jo None) in Hx as [Hx Hid]; [|done..]. destruct (inv_lock _ _ _ Hinv _ Hx) as [Hb Hm H1 (trx & Ht & Hin & Hw)].
    split; [done..|]. cbn. destruct (decide (lock_trx x = lock_trx l)) as [He|Hne].
    + rewrite He in *. rewrite lookup_alter_eq, Ht. eexists. split_and!; [done| |done]. cbn. by apply list_elem_of_filter.
    + rewrite lookup_alter_ne by done. by exists trx.
  - intros t trx Ht. by apply trx_ok_remove.
  - eapply (rule3_evolves cfg _ _ s); [done|apply Hinv|by eapply evolves_remove|set_solver].
  - intros x Hx Hw. apply (has_remove jo None) in Hx as [Hx Hid]; [|done..]. unfold cancelled_by. destruct (lock_get_wait l) eqn:Hlw; [|done].
    intros [= He]. apply Hid. f_equal. by eapply inv_wait_unique.
Qed.

(** The locks of other pages are still blocked. *)
Lemma settled_remove jo s l w :
  inv jo None s → has_lock s l → all_settled cfg s → has_lock (remove l s) w → ¬ on_page (space l) (page_no l) w →
  settled cfg (remove l s) (lock_id w).
Proof.
  intros Hinv Hl Hset Hw Hpage. apply (has_remove jo None) in Hw as [Hw Hid]; [|done..].
  eapply settled_evolves; [apply Hinv|by eapply evolves_remove| |apply Hset]. intros w' b Hw' Hid' Hb Hin%elem_of_singleton.
  assert (w' = w) as -> by (by apply (lock_id_inj s); [apply Hinv|..]). destruct (blockers_has _ _ _ _ Hb) as (Hb' & Hs & Hp).
  assert (b = l) as -> by (by apply (lock_id_inj s); [apply Hinv|..]). by destruct Hpage.
Qed.

(** ** Taking a lock out of the queue *)

Lemma dequeue_Ok jo s l :
  uses_vats cfg (lock_trx l) = false → inv jo None s → all_settled cfg s → has_lock s l →
  ∃ s' G, lock_rec_dequeue_from_page cfg l s = Ok (tt, s') ∧ inv jo (cancelled_by l) s' ∧ all_settled cfg s' ∧
    evolves {[lock_id l]} G s s' ∧ s_lock_mark_counter s' = s_lock_mark_counter s ∧
    ∀ w, has_lock s w → lock_id w ≠ lock_id l → lock_id w ∈ G → lock_get_wait w = true ∧ blockers cfg s' (evo G w) = [].
Proof.
  intros Hv Hinv Hset Hl. assert (Hinv1 := inv_remove jo s l Hinv Hl). assert (Hev1 := evolves_remove jo None s l Hinv Hl).
  destruct (grant_loop_Ok jo (cancelled_by l) (page_locks (remove l s) (space l) (page_no l)) (remove l s)) as (s' & Hrun & Hgr & Hset').
  { done. } { apply page_ids, Hinv1. } { intros x Hx. by apply elem_page in Hx as []. }
  destruct (grants_evolve _ _ _ _ Hinv1 Hgr) as (G & Hev & HG). exists s', (∅ ∪ G). split_and!.
  - unfold lock_rec_dequeue_from_page. erewrite bind_Ok by (by apply hash_delete_Ok). erewrite bind_Ok by done. by rewrite Hv.
  - by eapply grants_inv.
  - intros id w Hw <-. apply (evolves_has _ _ _ _ _ Hev) in Hw as (w0 & Hw0 & _ & ->).
    destruct (decide (on_page (space l) (page_no l) w0)) as [Hp|Hp].
    + intros Hwait. eapply (Hset' w0); [by apply elem_page| |by rewrite evo_id|done].
      apply (evolves_has _ _ _ _ _ Hev). exists w0. set_solver.
    + intros Hwait. eapply (settled_grants _ _ _ _ (lock_id w0) Hinv1 Hgr); [by eapply settled_remove| |by rewrite evo_id|done].
      apply (evolves_has _ _ _ _ _ Hev). exists w0. set_solver.
  - by eapply evolves_trans_l.
  - by rewrite (grants_counter _ _ Hgr).
  - intros w Hw Hne Hid. assert (Hw' : has_lock (remove l s) w) by (by apply (has_remove jo None)).
    replace (∅ ∪ G) with G in * by set_solver. destruct (HG w Hw' Hid) as [? Hb]. split; [done|].
    rewrite (evolves_blockers cfg ∅ G (remove l s)) by (done || apply Hinv1 || set_solver). by rewrite Hb.
Qed.


(** ** Fields of a transaction that locks do not depend on *)

(** What the invariant says of a query thread depends on these fields. *)
Definition thr_view (q : que_thr_t) : bool * que_thr_state_t * Z := (wait_thr q, thr_state q, graph_state q).

Definition session_change (f : trx_t → trx_t) : Prop :=
  ∀ t, trx_locks (f t) = trx_locks t ∧ wait_lock (f t) = wait_lock t ∧ que_state (f t) = que_state t ∧ deadlock_mark (f t) = deadlock_mark t ∧
       thr_view (trx_thr (f t)) = thr_view (trx_thr t).

Lemma lookup_session f s t u : session_change f → 
  match trxs (update_trx t f s) !! u with
  | Some trx => ∃ trx0, trxs s !! u = Some trx0 ∧ trx_locks trx = trx_locks trx0 ∧ wait_lock trx = wait_lock trx0 ∧
                  que_state trx = que_state trx0 ∧ deadlock_mark trx = deadlock_mark trx0 ∧ thr_view (trx_thr trx) = thr_view (trx_thr trx0)
  | None => trxs s !! u = None
  end.
Proof.
  intros Hf. cbn. destruct (decide (u = t)) as [->|Hne].
  - rewrite lookup_alter_eq. destruct (trxs s !! t) as [trx|]; [|done]. exists trx. split; [done|apply Hf].
  - rewrite lookup_alter_ne by done. destruct (trxs s !! u) as [trx|]; [|done]. by exists trx.
Qed.

Lemma inv_session jo vo s t f : session_change f → inv jo vo s → inv jo vo (update_trx t f s).
Proof.
  intros Hf Hinv. split; [destruct (inv_hash _ _ _ Hinv); by split| | |apply Hinv|apply Hinv].
  - intros l Hl. destruct (inv_lock _ _ _ Hinv l Hl) as [H1 H2 H3 (trx & Ht & Hin & Hw)]. split; [done..|].
    assert (H := lookup_session f s t (lock_trx l) Hf). destruct (trxs (update_trx t f s) !! lock_trx l) as [trx'|]; [|congruence].
    destruct H as (trx0 & Ht0 & E1 & E2 & _). exists trx'. rewrite E1, E2. by simplify_eq.
  - intros u trx Hu. assert (H := lookup_session f s t u Hf). rewrite Hu in H. destruct H as (trx0 & Ht0 & E1 & E2 & E3 & E4 & [= E5 E6 E7]).
    destruct (inv_trx _ _ _ Hinv _ _ Ht0) as [H1 H2 H3 H4 H5 H6]. split; unfold thr_waits; rewrite ?E1, ?E2, ?E3, ?E4, ?E5, ?E6, ?E7; done.
Qed.

Lemma evolves_session s t f : session_change f → evolves ∅ ∅ s (update_trx t f s).
Proof.
  intros Hf. split; [apply (evolves_refl s)|cbn; apply dom_alter_L|]. intros u. rewrite filter_all by set_solver. unfold locks_of.
  assert (H := lookup_session f s t u Hf). destruct (trxs (update_trx t f s) !! u) as [trx'|]; [|by rewrite H].
  destruct H as (trx0 & -> & E1 & _). done.
Qed.

(** ** Cancelling a wait *)

Lemma inv_end_cancel jo s l :
  inv jo (Some (lock_trx l)) s → (∀ x, has_lock s x → lock_id x ≠ lock_id l) → inv jo None (grant l s).
Proof.
  intros Hinv Hno. assert (Hev := evolves_grant s l).
  assert (Hhas : ∀ x, has_lock (grant l s) x ↔ has_lock s x).
  { intros x. rewrite (evolves_has _ _ _ _ _ Hev). split.
    - intros (y & Hy & _ & ->). rewrite evo_other; [done|]. intros Hin%elem_of_singleton. by eapply Hno.
    - intros Hx. exists x. split_and!; [done|set_solver|]. rewrite evo_other; [done|]. intros Hin%elem_of_singleton. by eapply Hno. }
  split.
  - apply hash_ok_update_lock; [apply granted_keeps_place|]. destruct (inv_hash _ _ _ Hinv). by split.
  - intros x Hx%Hhas. destruct (inv_lock _ _ _ Hinv _ Hx) as [H1 H2 H3 (trx & Ht & Hin & Hw)]. split; [done..|]. cbn.
    destruct (decide (lock_trx x = lock_trx l)) as [He|Hne].
    + exists (grant_trx trx). rewrite He in *. rewrite lookup_alter_eq, Ht. destruct (grant_trx_spec trx) as (_ & _ & _ & -> & _).
      split_and!; [done..|]. intros Hxw.
      destruct (inv_cancelled _ _ _ Hinv x Hx Hxw). by rewrite He.
    + rewrite lookup_alter_ne by done. by exists trx.
  - intros t trx Ht. cbn in Ht. destruct (decide (t = lock_trx l)) as [->|Hne].
    + rewrite lookup_alter_eq in Ht. destruct (trxs s !! lock_trx l) as [trx0|] eqn:Ht0; [|done]. injection Ht as <-.
      destruct (inv_trx _ _ _ Hinv _ _ Ht0) as [H1 H2 _ _ [H5 _] H6]. destruct (grant_trx_spec trx0) as (Eq & Ew & Em & El & Eg).
      split; rewrite ?Eq, ?Ew, ?Em, ?El, ?Eg; [done| |done| |split; [done|by apply thr_waits_running]|done].
      * intros id Hid. destruct (H2 id Hid) as (x & Hx & ?). exists x. by rewrite Hhas.
      * case_decide; [done|]. by rewrite decide_False.
    + rewrite lookup_alter_ne in Ht by done. destruct (inv_trx _ _ _ Hinv _ _ Ht) as [H1 H2 H3 H4 H5 H6]. split; [done| | | |done..].
      * intros id Hid. destruct (H2 id Hid) as (x & Hx & ?). exists x. by rewrite Hhas.
      * intros id Hid _. destruct (H3 id Hid) as (x & Hx & ?); [congruence|]. exists x. by rewrite Hhas.
      * rewrite H4. clear H4. case_decide; [done|]. by rewrite !decide_False by congruence.
  - eapply (rule3_evolves cfg _ _ s); [apply Hinv|apply Hinv|done|]. intros w Hw Hid%elem_of_singleton. by destruct (Hno w Hw).
  - done.
Qed.

Lemma end_cancel_Ok s l t :
  trxs s !! lock_trx l = Some t → que_state t = TRX_QUE_LOCK_WAIT → thr_waits t →
  (_ ← lock_reset_lock_and_trx_wait l; que_thr_end_lock_wait (lock_trx l)) s = Ok (tt, grant l s).
Proof.
  intros Ht Hq Hthr. unfold lock_reset_lock_and_trx_wait. erewrite bind_Ok by done. rewrite <-update_grant.
  eapply (end_lock_wait_Ok _ _ (set_wait_lock None t)); [|done..]. cbn. by rewrite lookup_alter_eq, Ht.
Qed.

Lemma cancel_Ok jo s l :
  uses_vats cfg (lock_trx l) = false → jo ≠ Some (lock_trx l) → inv jo None s → all_settled cfg s → has_lock s l → lock_get_wait l = true →
  ∃ s' G, lock_cancel_waiting_and_release cfg l s = Ok (tt, s') ∧ inv jo None s' ∧ all_settled cfg s' ∧
    evolves {[lock_id l]} G s s' ∧ s_lock_mark_counter s' = s_lock_mark_counter s ∧
    ∀ w, has_lock s w → lock_id w ≠ lock_id l → lock_id w ∈ G → lock_get_wait w = true ∧ blockers cfg s' (evo G w) = [].
Proof.
  intros Hv Hjo Hinv Hset Hl Hw. destruct (dequeue_Ok jo s l) as (s1 & G & Hrun & Hinv1 & Hset1 & Hev & Hcnt & HG); [done..|].
  unfold cancelled_by in Hinv1. rewrite Hw in Hinv1.
  assert (Hno : ∀ x, has_lock s1 x → lock_id x ≠ lock_id l).
  { intros x (y & _ & Hd & ->)%(evolves_has _ _ _ _ _ Hev). rewrite evo_id. set_solver. }
  assert (Hev1 := evolves_grant s1 l). exists (grant l s1), (G ∪ {[lock_id l]}). split_and!.
  - unfold lock_cancel_waiting_and_release. erewrite bind_Ok by done.
    assert (Hd : is_Some (trxs s1 !! lock_trx l)).
    { apply elem_of_dom. rewrite (ev_trxs _ _ _ _ Hev). apply elem_of_dom. destruct (inv_trx_of _ _ _ _ Hinv Hl) as (? & ? & _). by eexists. }
    destruct Hd as [t Ht]. destruct (inv_trx _ _ _ Hinv1 _ _ Ht) as [_ _ _ Hq [_ Hthr] _].
    rewrite decide_False, decide_True in Hq by done. by eapply end_cancel_Ok.
  - by apply inv_end_cancel.
  - intros id. eapply settled_evolves; [apply Hinv1|apply Hev1|set_solver|apply Hset1].
  - by eapply evolves_trans_l.
  - done.
  - intros w Hw' Hne Hid. destruct (HG w) as [? Hb]; [done..|set_solver|]. split; [done|]. rewrite <-evo_evo.
    rewrite (evolves_blockers cfg ∅ {[lock_id l]} s1); [by rewrite Hb|apply Hinv1|done| |set_solver].
    apply (evolves_has _ _ _ _ _ Hev). exists w. set_solver.
Qed.

(** ** Releasing the locks of a transaction *)

Lemma evolves_running jo vo vo' d G s s' t : inv jo vo s → inv jo vo' s' → vo' ≠ Some t → evolves d G s s' → running s t → running s' t.
Proof.
  intros Hinv Hinv' Hvo Hev (trx & Ht & Hw). assert (Hd : is_Some (trxs s' !! t)).
  { apply elem_of_dom. rewrite (ev_trxs _ _ _ _ Hev). apply elem_of_dom. by eexists. }
  destruct Hd as [trx' Ht']. exists trx'. split; [done|]. destruct (wait_lock trx') as [id|] eqn:Hid; [|done].
  destruct (to_wait _ _ _ _ _ (inv_trx _ _ _ Hinv' _ _ Ht') _ Hid Hvo) as (l' & Hl' & _ & Hlt & Hlw).
  apply (evolves_has _ _ _ _ _ Hev) in Hl' as (l & Hl & _ & ->). apply evo_wait in Hlw as [Hlw _]. rewrite evo_trx in Hlt.
  rewrite (running_granted _ _ _ _ Hinv Hl) in Hlw; [done|]. exists trx. by rewrite Hlt.
Qed.

Lemma lock_release_last_Ok s t :
  uses_vats cfg t = false → inv None None s → all_settled cfg s → running s t →
  match last (locks_of s t) with
  | None => lock_release_last cfg t s = Ok (false, s)
  | Some id => ∃ s' G, lock_release_last cfg t s = Ok (true, s') ∧ inv None None s' ∧ all_settled cfg s' ∧ running s' t ∧ evolves {[id]} G s s' ∧
      s_lock_mark_counter s' = s_lock_mark_counter s
  end.
Proof.
  intros Hv Hinv Hset Hrun. assert (Hrun' := Hrun). destruct Hrun as (trx & Ht & Hw). unfold lock_release_last, locks_of. rewrite Ht. cbn [from_option].
  destruct (last (trx_locks trx)) as [id|] eqn:Hl; erewrite bind_Ok, deref_Some by done; rewrite Hl; [|done].
  assert (Hin : id ∈ trx_locks trx) by (apply last_Some in Hl as [ids ->]; set_solver).
  destruct (to_locks _ _ _ _ _ (inv_trx _ _ _ Hinv _ _ Ht) _ Hin) as (l & Hls & <- & <-).
  assert (Hlw : lock_get_wait l = false) by (by eapply running_granted).
  destruct (dequeue_Ok None s l) as (s' & G & Hd & Hinv' & Hset' & Hev & Hcnt & _); [done..|].
  unfold cancelled_by in Hinv'. rewrite Hlw in Hinv'. exists s', G. split_and!; [|done..| |done|done].
  - erewrite bind_Ok by done. erewrite deref_Some by (apply get_lock_Some; [apply Hinv|done]). by erewrite bind_Ok by done.
  - by eapply (evolves_running None None None _ _ s s').
Qed.

Lemma lock_release_loop_Ok n s t :
  uses_vats cfg t = false → inv None None s → all_settled cfg s → running s t → length (locks_of s t) ≤ n →
  ∃ s' d G, lock_release_loop cfg n t s = Ok (tt, s') ∧ inv None None s' ∧ all_settled cfg s' ∧ running s' t ∧ locks_of s' t = [] ∧
    evolves d G s s' ∧ s_lock_mark_counter s' = s_lock_mark_counter s ∧ ∀ id, id ∈ d → id ∈ locks_of s t.
Proof.
  intros Hv. revert s. induction n as [|n IH]; intros s Hinv Hset Hrun Hn; assert (Hl := lock_release_last_Ok s t Hv Hinv Hset Hrun);
    destruct (last (locks_of s t)) as [id|] eqn:Hlast; apply last_Some in Hlast || apply last_None in Hlast; cbn [lock_release_loop].
  - destruct Hlast as [ids Hids]. rewrite Hids, length_app in Hn. simpl in Hn. lia.
  - erewrite bind_Ok by done. exists s, ∅, ∅. split_and!; [done..|apply evolves_refl|done|set_solver].
  - destruct Hlast as [ids Hids], Hl as (s1 & G & Hl & Hinv1 & Hset1 & Hrun1 & Hev & Hcnt). erewrite bind_Ok by done.
    assert (Hlocks := ev_locks _ _ _ _ Hev t). rewrite Hids, filter_app in Hlocks.
    assert (Hlen : length (locks_of s1 t) ≤ n).
    { rewrite Hlocks, filter_cons, decide_False by set_solver. rewrite app_nil_r. rewrite Hids, length_app in Hn. simpl in Hn.
      etrans; [apply length_filter|lia]. }
    destruct (IH s1) as (s' & d & G' & Hl' & Hinv' & Hset' & Hrun' & Hnil & Hev' & Hcnt' & Hd); [done..|].
    exists s', ({[id]} ∪ d), (G ∪ G'). split_and!; [done..|by eapply evolves_trans|congruence|]. intros x [->%elem_of_singleton|Hx]%elem_of_union; rewrite Hids; [set_solver|].
    apply Hd in Hx. rewrite Hlocks in Hx. apply elem_of_app in Hx as [[_ Hx]%list_elem_of_filter|[_ Hx]%list_elem_of_filter]; set_solver.
  - erewrite bind_Ok by done. exists s, ∅, ∅. split_and!; [done..|apply evolves_refl|done|set_solver].
Qed.

Lemma lock_release_Ok s t :
  uses_vats cfg t = false → inv None None s → all_settled cfg s → running s t →
  ∃ s' d G, lock_release cfg t s = Ok (tt, s') ∧ inv None None s' ∧ all_settled cfg s' ∧ running s' t ∧ locks_of s' t = [] ∧
    evolves d G s s' ∧ s_lock_mark_counter s' = s_lock_mark_counter s ∧ ∀ id, id ∈ d → id ∈ locks_of s t.
Proof.
  intros Hv Hinv Hset Hrun. apply lock_release_loop_Ok; try done. destruct Hrun as (trx & Ht & _). unfold locks_of. by rewrite Ht.
Qed.

End config.
