(* ===== verification/InnoBits.v ===== *)
(** Setting and clearing a bit in the bitmap of a granted record lock of InnoDB, and what
    it means for the locks behind it. *)
From stdpp Require Import functions base tactics numbers option list list_numbers gmap sets relations sorting.
From Stdlib Require Import ZArith Lia.
From S2P Require Import Prelude InnoMode InnoSys InnoQueue InnoInv InnoGrant.

(** Only the bitmap changes. *)
Definition bit_change (f : lock_t → lock_t) : Prop :=
  ∀ x, lock_id (f x) = lock_id x ∧ lock_trx (f x) = lock_trx x ∧ type_mode (f x) = type_mode x ∧ space (f x) = space x ∧
       page_no (f x) = page_no x ∧ (bitmap_ok x → bitmap_ok (f x)).

Lemma set_bit_change h : bit_change (λ l, lock_rec_set_nth_bit l h).
Proof. intros x. split_and!; [done..|]. apply set_nth_bit_ok. Qed.

Lemma reset_bit_change h : bit_change (λ l, lock_rec_reset_nth_bit l h).
Proof. intros x. split_and!; [done..|]. apply reset_nth_bit_ok. Qed.

Lemma bit_change_place f : bit_change f → keeps_place f.
Proof. intros Hf x. by destruct (Hf x) as (-> & -> & _ & -> & -> & _). Qed.

Lemma bit_change_upd id f : bit_change f → bit_change (upd id f).
Proof. intros Hf x. unfold upd. case_decide; [apply Hf|done]. Qed.

Lemma bit_change_kind f x : bit_change f → same_kind (f x) x.
Proof.
  intros Hf. destruct (Hf x) as (_ & Ht & Hm & _). unfold same_kind, lock_get_mode, lock_rec_get_gap, lock_rec_get_rec_not_gap, lock_rec_get_insert_intention.
  by rewrite Ht, Hm.
Qed.

Lemma bit_change_wait f x : bit_change f → lock_get_wait (f x) = lock_get_wait x.
Proof. intros Hf. destruct (Hf x) as (_ & _ & Hm & _). unfold lock_get_wait. by rewrite Hm. Qed.

Lemma rec_conflict_kind w w' l l' : same_kind w w' → same_kind l l' → rec_conflict w l → rec_conflict w' l'.
Proof.
  unfold rec_conflict, same_kind. intros Hw Hl. destruct_and! Hw. destruct_and! Hl. intros Hc. destruct_and! Hc. split_and!; congruence.
Qed.

Section bits.
  Context (cfg : config) (f : lock_t → lock_t) (s : lock_sys_t) (l : lock_t).
  Context (Hf : bit_change f) (Hok : hash_ok s) (Hl : has_lock s l) (Hw : lock_get_wait l = false).
  Notation u := (upd (lock_id l) f).
  Notation s' := (update_lock (lock_id l) f s).

Lemma upd_other x : has_lock s x → x ≠ l → u x = x.
Proof. intros Hx Hne. unfold upd. case_decide as He; [|done]. destruct Hne. by apply (lock_id_inj s). Qed.

Lemma upd_wait x : has_lock s x → lock_get_wait x = true → u x = x.
Proof. intros Hx Hxw. apply upd_other; [done|]. intros ->. congruence. Qed.

Lemma has_bits x' : has_lock s' x' ↔ ∃ x, has_lock s x ∧ x' = u x.
Proof. apply has_update_lock, bit_change_place, Hf. Qed.

Lemma has_bits_wait x : lock_get_wait x = true → has_lock s' x ↔ has_lock s x.
Proof.
  intros Hxw. rewrite has_bits. split.
  - intros (y & Hy & ->). rewrite (bit_change_wait _ _ (bit_change_upd _ _ Hf)) in Hxw. by rewrite upd_wait.
  - intros Hx. exists x. by rewrite upd_wait.
Qed.

Lemma lock_ok_bits : (∀ x, has_lock s x → lock_ok s x) → ∀ x, has_lock s' x → lock_ok s' x.
Proof.
  intros Hall x' (x & Hx & ->)%has_bits. destruct (Hall x Hx) as [H1 H2 H3 H4].
  destruct (bit_change_upd (lock_id l) f Hf x) as (Hid & Ht & Hm & _ & _ & Hb). split.
  - by apply Hb.
  - unfold lock_get_mode. rewrite Hm. done.
  - intros Hxw. rewrite (bit_change_wait _ _ (bit_change_upd _ _ Hf)) in Hxw. rewrite upd_wait by done. by apply H3.
  - rewrite (bit_change_wait _ _ (bit_change_upd _ _ Hf)), Ht, Hid. done.
Qed.

Lemma trx_ok_bits jo vo t trx : trx_ok jo vo s t trx → trx_ok jo vo s' t trx.
Proof.
  intros [H1 H2 H3 H4 H5 H6]. split; [done| | |done..].
  - intros id Hid. destruct (H2 id Hid) as (x & Hx & <- & <-). exists (u x). destruct (bit_change_upd (lock_id l) f Hf x) as (-> & -> & _).
    split_and!; [|done..]. apply has_bits. by exists x.
  - intros id Hid Hvo. destruct (H3 id Hid Hvo) as (x & Hx & ? & ? & Hxw). exists x. split_and!; [|done..]. by apply has_bits_wait.
Qed.

Lemma page_bits sp pg : page_locks s' sp pg = map u (page_locks s sp pg).
Proof. apply page_update_lock, bit_change_place, Hf. Qed.

Lemma inv_bits jo vo : inv jo vo s → rule3 s' → inv jo vo s'.
Proof.
  intros Hinv H3. split.
  - apply hash_ok_update_lock; [by apply bit_change_place|done].
  - apply lock_ok_bits, Hinv.
  - intros t trx Ht. apply trx_ok_bits. by apply Hinv.
  - done.
  - intros x (y & Hy & ->)%has_bits Hxw. rewrite (bit_change_wait _ _ (bit_change_upd _ _ Hf)) in Hxw. rewrite upd_wait by done. by eapply inv_cancelled.
Qed.

(** What another lock waits for. *)
Lemma elem_blockers_bits w x' :
  lock_id w ≠ lock_id l →
  x' ∈ blockers cfg s' w ↔ ∃ h x, lock_rec_find_set_bit w = Some h ∧ x ∈ ahead (lock_id w) (page_locks s (space w) (page_no w)) ∧
                             x' = u x ∧ blocks cfg h w x'.
Proof.
  intros Hne. rewrite elem_blockers, page_bits, ahead_map by (intros y; apply (bit_change_upd (lock_id l) f Hf y)).
  setoid_rewrite list_elem_of_fmap. split.
  - intros (h & ? & ? & x & ? & ?). by exists h, x.
  - intros (h & x & ? & ? & ? & ?). exists h. split_and!; [done..|]. by exists x.
Qed.

Lemma blocks_upd h w x : blocks cfg h w (u x) ↔ lock_rec_get_nth_bit (u x) h = true ∧ lock_has_to_wait (need_ordering cfg) w x = true.
Proof.
  unfold blocks. rewrite (lock_has_to_wait_kind _ w w (u x) x); [done|done|apply bit_change_kind, bit_change_upd, Hf|done].
Qed.

(** The bit of a waiting lock is unchanged. *)
Definition bit_apart (w : lock_t) : Prop :=
  on_page (space l) (page_no l) w → ∀ h, lock_rec_find_set_bit w = Some h → lock_rec_get_nth_bit (f l) h = lock_rec_get_nth_bit l h.

Lemma blockers_apart w x : bit_apart w → has_lock s w → lock_get_wait w = true → u x ∈ blockers cfg s' w ∧ has_lock s x ↔ x ∈ blockers cfg s w.
Proof.
  intros Hap Hws Hww. assert (Hne : lock_id w ≠ lock_id l). { intros He. rewrite (lock_id_inj s w l) in Hww by done. congruence. }
  assert (Hbit : ∀ h y, lock_rec_find_set_bit w = Some h → y ∈ ahead (lock_id w) (page_locks s (space w) (page_no w)) →
            lock_rec_get_nth_bit (u y) h = lock_rec_get_nth_bit y h).
  { intros h y Hh Hy. destruct (decide (lock_id y = lock_id l)) as [He|Hn]; [|unfold upd; by rewrite decide_False].
    apply elem_ahead in Hy as [Hy _]. apply elem_page in Hy as [Hy [Hsp Hpg]]. assert (y = l) as -> by (by apply (lock_id_inj s)).
    unfold upd. rewrite decide_True by done. by apply Hap. }
  rewrite elem_blockers_bits, elem_blockers by done. split.
  - intros [(h & y & Hh & Hy & He & Hb) Hx]. assert (x = y) as ->.
    { apply (lock_id_inj s); [done|done| |].
      - apply elem_ahead in Hy as [Hy _]. by apply elem_page in Hy as [].
      - assert (H := f_equal lock_id He). destruct (bit_change_upd (lock_id l) f Hf x) as (E1 & _), (bit_change_upd (lock_id l) f Hf y) as (E2 & _). congruence. }
    exists h. split_and!; [done| |done]. apply blocks_upd in Hb as [Hb ?]. rewrite Hbit in Hb by done. done.
  - intros (h & Hh & [Hb Hwt] & Hx). split.
    + exists h, x. split_and!; [done..|]. apply blocks_upd. by rewrite Hbit.
    + apply elem_ahead in Hx as [Hx _]. by apply elem_page in Hx as [].
Qed.

Lemma settled_apart w : bit_apart w → has_lock s w → settled cfg s (lock_id w) → settled cfg s' (lock_id w).
Proof.
  intros Hap Hw0 Hset w' Hws Hid Hww. apply has_bits_wait in Hws; [|done]. assert (w' = w) as -> by (by apply (lock_id_inj s)).
  specialize (Hset w Hws eq_refl Hww). destruct (blockers cfg s w) as [|x xs] eqn:Hx; [done|]. intros Hnil.
  assert (Hin : x ∈ blockers cfg s w) by (rewrite Hx; set_solver). apply (blockers_apart w x) in Hin as [Hin _]; [|done..].
  rewrite Hnil in Hin. by apply elem_of_nil in Hin.
Qed.

Lemma all_settled_apart : (∀ w, has_lock s w → lock_get_wait w = true → bit_apart w) → all_settled cfg s → all_settled cfg s'.
Proof.
  intros Hap Hset id w Hws Hid Hww. assert (Hw' := Hws). apply has_bits_wait in Hw'; [|done]. subst id.
  by eapply (settled_apart w (Hap w Hw' Hww) Hw' (Hset _)).
Qed.

Lemma waits_for_apart a b : (∀ w, has_lock s w → lock_get_wait w = true → bit_apart w) → waits_for cfg s' a b → waits_for cfg s a b.
Proof.
  intros Hap (w & x' & Hws & Hww & Ha & Hx' & Hb). apply has_bits_wait in Hws; [|done].
  assert (Hx'' := Hx'). apply blockers_has in Hx'' as [(x & Hx & ->)%has_bits _]. exists w, x. split_and!; [done..| |].
  - apply blockers_apart; [by apply Hap|done..].
  - destruct (bit_change_upd (lock_id l) f Hf x) as (_ & Ht & _). congruence.
Qed.

(** With fewer bits there are fewer waits. *)
Lemma upd_fewer x i :
  (∀ i, lock_rec_get_nth_bit (f l) i = true → lock_rec_get_nth_bit l i = true) → has_lock s x →
  lock_rec_get_nth_bit (u x) i = true → lock_rec_get_nth_bit x i = true.
Proof.
  intros Hless Hx. unfold upd. case_decide as He; [|done]. assert (x = l) as -> by (by apply (lock_id_inj s)). apply Hless.
Qed.

Lemma waits_for_fewer a b :
  (∀ i, lock_rec_get_nth_bit (f l) i = true → lock_rec_get_nth_bit l i = true) → waits_for cfg s' a b → waits_for cfg s a b.
Proof.
  intros Hless (w & x' & Hws & Hww & Ha & Hx' & Hb). apply has_bits_wait in Hws; [|done].
  assert (Hne : lock_id w ≠ lock_id l). { intros He. rewrite (lock_id_inj s w l) in Hww by done. congruence. }
  apply elem_blockers_bits in Hx' as (h & x & Hh & Hx & -> & [Hbit Hwt]%blocks_upd); [|done].
  exists w, x. split_and!; [done..| |].
  - apply elem_blockers. exists h. split_and!; [done| |done]. split; [|done]. apply upd_fewer; [done| |done].
    apply elem_ahead in Hx as [Hx _]. by apply elem_page in Hx as [].
  - destruct (bit_change_upd (lock_id l) f Hf x) as (_ & Ht & _). congruence.
Qed.

Lemma rule3_fewer : (∀ i, lock_rec_get_nth_bit (f l) i = true → lock_rec_get_nth_bit l i = true) → rule3 s → rule3 s'.
Proof.
  intros Hless H3 w' x' i Hw' Hx' Hi Hbw Hbx Hc. apply has_bits in Hw' as (w & Hws & ->).
  assert (Hk := bit_change_upd (lock_id l) f Hf). destruct (Hk w) as (Hid & _ & _ & Hsp & Hpg & _).
  rewrite Hid, Hsp, Hpg, page_bits, ahead_map in Hx' by (intros y; apply Hk).
  apply list_elem_of_fmap in Hx' as (x & -> & Hx). rewrite (bit_change_wait _ _ Hk).
  apply (rec_conflict_kind _ w _ x) in Hc; [|by apply bit_change_kind..]. apply (H3 w x i); [done..| | |done].
  - by apply upd_fewer.
  - apply upd_fewer; [done| |done]. apply elem_ahead in Hx as [Hx _]. by apply elem_page in Hx as [].
Qed.

End bits.
