(* ===== verification/InnoView.v ===== *)
(** The queue of a record of InnoDB as a list of requests, without the lock structs and
    bitmaps that hold them: what a state promises about conflicts, grants and waits
    depends only on these lists, so that an operation that rearranges the structs can be
    judged by what it does to the lists. *)
From stdpp Require Import functions base tactics numbers option list list_numbers gmap sets relations sorting.
From Stdlib Require Import ZArith Lia.
From S2P Require Import Prelude InnoMode InnoSys InnoQueue InnoInv InnoGrant InnoBits.

(** ** Requests *)

Record entry : Type := mk_entry {
  e_trx : nat;
  e_mode : Z;
  e_gap : bool;
  e_rec_not_gap : bool;
  e_insert_intention : bool;
  e_wait : bool;
}.

Definition entry_of (l : lock_t) : entry :=
  mk_entry (lock_trx l) (lock_get_mode l) (lock_rec_get_gap l) (lock_rec_get_rec_not_gap l) (lock_rec_get_insert_intention l) (lock_get_wait l).

(** [lock_has_to_wait] on requests for a record; [sup] is whether it is the supremum. *)
Definition e_waits (no : nat → nat → bool) (sup : bool) (w x : entry) : bool :=
  negb (e_trx w =? e_trx x) && negb (lock_mode_compatible (e_mode w) (e_mode x))
  && negb ((sup || e_gap w) && negb (e_insert_intention w))
  && negb (negb (e_insert_intention w) && e_gap x)
  && negb (e_gap w && e_rec_not_gap x)
  && negb (e_insert_intention x)
  && negb ((e_gap w || e_gap x) && negb (no (e_trx w) (e_trx x))).

Definition e_conflict (w x : entry) : Prop :=
  e_trx w ≠ e_trx x ∧ e_gap w = false ∧ e_gap x = false ∧ e_insert_intention w = false ∧ e_insert_intention x = false ∧
  lock_mode_compatible (e_mode w) (e_mode x) = false.

Lemma waits_entry no w x :
  lock_has_to_wait no w x = e_waits no (lock_rec_get_nth_bit w PAGE_HEAP_NO_SUPREMUM) (entry_of w) (entry_of x).
Proof.
  unfold lock_has_to_wait, lock_rec_has_to_wait, e_waits, entry_of. cbn. rewrite !(Z.land_comm LOCK_MODE_MASK).
  change (Z.land (type_mode w) LOCK_MODE_MASK) with (lock_get_mode w).
  change (has_flag (type_mode w) LOCK_GAP) with (lock_rec_get_gap w).
  change (has_flag (type_mode w) LOCK_INSERT_INTENTION) with (lock_rec_get_insert_intention w).
  destruct (lock_trx w =? lock_trx x), (lock_mode_compatible _ _), (lock_rec_get_nth_bit w _), (lock_rec_get_gap w), (lock_rec_get_insert_intention w),
    (lock_rec_get_gap x), (lock_rec_get_rec_not_gap x), (lock_rec_get_insert_intention x), (no _ _); done.
Qed.

Lemma conflict_entry w x : rec_conflict w x ↔ e_conflict (entry_of w) (entry_of x).
Proof. done. Qed.

(** ** The queue of a record *)

Definition view (s : lock_sys_t) (sp pg : Z) (h : nat) : list entry := map entry_of (rec_locks s sp pg h).

Lemma elem_rec_locks s sp pg h l : l ∈ rec_locks s sp pg h ↔ has_lock s l ∧ on_page sp pg l ∧ lock_rec_get_nth_bit l h = true.
Proof. unfold rec_locks. rewrite list_elem_of_filter, elem_page. tauto. Qed.

Lemma ahead_split q q1 w q2 : NoDup (map lock_id q) → q = q1 ++ w :: q2 → ahead (lock_id w) q = q1.
Proof.
  intros Hnd ->. rewrite map_app in Hnd. apply NoDup_app in Hnd as (_ & Hd & _). rewrite ahead_notin.
  - cbn. rewrite decide_True by done. apply app_nil_r.
  - intros Hin. apply (Hd _ Hin). cbn. left.
Qed.

(** The requests ahead of one are those of the locks ahead of its lock. *)
Lemma rec_split s sp pg h q1 w q2 :
  hash_ok s → rec_locks s sp pg h = q1 ++ w :: q2 →
  q1 = filter (λ l, lock_rec_get_nth_bit l h = true) (ahead (lock_id w) (page_locks s sp pg)).
Proof.
  intros Hok Hq. assert (Hnd := page_ids s sp pg Hok). assert (Hw : w ∈ rec_locks s sp pg h) by (rewrite Hq; set_solver).
  apply elem_rec_locks in Hw as (Hw & Hp & Hb). rewrite <-ahead_filter.
  - symmetry. eapply ahead_split; [|exact Hq]. eapply sublist_NoDup; [exact Hnd|]. apply fmap_sublist, sublist_filter.
  - intros l [Hl _]%elem_page Hid. by rewrite (lock_id_inj s l w).
Qed.

Lemma view_split s sp pg h v1 e v2 :
  hash_ok s → view s sp pg h = v1 ++ e :: v2 →
  ∃ w, w ∈ rec_locks s sp pg h ∧ entry_of w = e ∧
    v1 = map entry_of (filter (λ l, lock_rec_get_nth_bit l h = true) (ahead (lock_id w) (page_locks s sp pg))).
Proof.
  intros Hok Hv. unfold view in Hv. apply map_eq_app in Hv as (q1 & q2' & Hq & <- & Hv2). destruct q2' as [|w q2]; simplify_eq/=.
  exists w. split_and!; [rewrite Hq; set_solver|done|]. by erewrite <-rec_split.
Qed.

Lemma view_of s sp pg h w :
  hash_ok s → w ∈ rec_locks s sp pg h →
  ∃ v2, view s sp pg h = map entry_of (filter (λ l, lock_rec_get_nth_bit l h = true) (ahead (lock_id w) (page_locks s sp pg))) ++ entry_of w :: v2.
Proof.
  intros Hok Hw. apply list_elem_of_split in Hw as (q1 & q2 & Hq). exists (map entry_of q2). erewrite <-rec_split by done.
  unfold view. by rewrite Hq, map_app.
Qed.

(** A waiting lock has one record, which it waits on. *)
Lemma one_bit_at w h :
  one_bit w → lock_rec_get_nth_bit w h = true →
  lock_rec_find_set_bit w = Some h ∧ lock_rec_get_nth_bit w PAGE_HEAP_NO_SUPREMUM = (h =? PAGE_HEAP_NO_SUPREMUM).
Proof.
  intros (h' & Hh' & Hu) Hh. assert (h = h') as <- by (by apply Hu). split; [by apply lock_rec_find_only_bit|].
  destruct (Nat.eqb_spec h PAGE_HEAP_NO_SUPREMUM) as [<-|Hne]; [done|].
  destruct (lock_rec_get_nth_bit w PAGE_HEAP_NO_SUPREMUM) eqn:He; [|done]. by apply Hu in He.
Qed.

Section config.
  Context (cfg : config).
  Notation no := (need_ordering cfg).

(** What a waiting lock is blocked by, in the queue of its record. *)
Lemma elem_blockers_view s w h x :
  one_bit w → lock_rec_get_nth_bit w h = true →
  x ∈ blockers cfg s w ↔
    x ∈ filter (λ l, lock_rec_get_nth_bit l h = true) (ahead (lock_id w) (page_locks s (space w) (page_no w))) ∧
    e_waits no (h =? PAGE_HEAP_NO_SUPREMUM) (entry_of w) (entry_of x) = true.
Proof.
  intros Hone Hh. destruct (one_bit_at w h Hone Hh) as [Hf Hsup]. rewrite elem_blockers, list_elem_of_filter. unfold blocks. rewrite Hf, waits_entry, Hsup. split.
  - intros (h' & [= <-] & [? ?] & ?). done.
  - intros [[? ?] ?]. by exists h.
Qed.

Definition rule3_view (v : list entry) : Prop := ∀ v1 e v2 x, v = v1 ++ e :: v2 → x ∈ v1 → e_conflict e x → e_wait e = true.

Definition settled_view (sup : bool) (v : list entry) : Prop :=
  ∀ v1 e v2, v = v1 ++ e :: v2 → e_wait e = true → ∃ x, x ∈ v1 ∧ e_waits no sup e x = true.

Definition view_edge (sup : bool) (v : list entry) (a b : nat) : Prop :=
  ∃ v1 e v2 x, v = v1 ++ e :: v2 ∧ e_wait e = true ∧ x ∈ v1 ∧ e_waits no sup e x = true ∧ e_trx e = a ∧ e_trx x = b.

Lemma rule3_views s : hash_ok s → rule3 s ↔ ∀ sp pg h, h ≠ PAGE_HEAP_NO_SUPREMUM → rule3_view (view s sp pg h).
Proof.
  intros Hok. split.
  - intros H3 sp pg h Hh v1 e v2 x Hv Hx Hc. apply view_split in Hv as (w & Hw & <- & ->); [|done].
    apply elem_rec_locks in Hw as (Hw & [<- <-] & Hb). apply list_elem_of_fmap in Hx as (l & -> & [Hbl Hl]%list_elem_of_filter).
    by apply (H3 w l h).
  - intros Hv w l h Hw Hl Hh Hbw Hbl Hc. destruct (view_of s (space w) (page_no w) h w) as [v2 Hv2]; [done|by apply elem_rec_locks|].
    eapply (Hv _ _ _ Hh _ _ _ (entry_of l) Hv2); [|done]. apply list_elem_of_fmap_2, list_elem_of_filter. done.
Qed.

Section views.
  Context (s : lock_sys_t) (Hok : hash_ok s) (Hone : ∀ l, has_lock s l → lock_get_wait l = true → one_bit l).

Lemma settled_views : all_settled cfg s ↔ ∀ sp pg h, settled_view (h =? PAGE_HEAP_NO_SUPREMUM) (view s sp pg h).
Proof.
  split.
  - intros Hset sp pg h v1 e v2 Hv He. apply view_split in Hv as (w & Hw & <- & ->); [|done].
    apply elem_rec_locks in Hw as (Hw & [<- <-] & Hb). assert (Hs := Hset _ w Hw eq_refl He).
    destruct (blockers cfg s w) as [|x bs] eqn:Hx; [done|]. assert (Hin : x ∈ blockers cfg s w) by (rewrite Hx; left).
    apply (elem_blockers_view s w h) in Hin as [Hin Hwt]; [|by apply Hone|done]. exists (entry_of x). split; [by apply list_elem_of_fmap_2|done].
  - intros Hv id w Hw _ Hww Hnil. destruct (Hone w Hw Hww) as (h & Hh & Hu).
    destruct (view_of s (space w) (page_no w) h w) as [v2 Hv2]; [done|by apply elem_rec_locks|].
    destruct (Hv _ _ _ _ _ _ Hv2 Hww) as (e & (x & -> & Hx)%list_elem_of_fmap & Hwt).
    assert (Hin : x ∈ blockers cfg s w) by (apply (elem_blockers_view s w h); [by exists h|done|done]). rewrite Hnil in Hin. by apply elem_of_nil in Hin.
Qed.

Lemma waits_for_views a b :
  waits_for cfg s a b ↔ ∃ sp pg h, view_edge (h =? PAGE_HEAP_NO_SUPREMUM) (view s sp pg h) a b.
Proof.
  split.
  - intros (w & x & Hw & Hww & <- & Hx & <-). destruct (Hone w Hw Hww) as (h & Hh & Hu).
    destruct (view_of s (space w) (page_no w) h w) as [v2 Hv2]; [done|by apply elem_rec_locks|].
    apply (elem_blockers_view s w h) in Hx; [|by exists h|done]. destruct Hx as [Hx Hwt].
    exists (space w), (page_no w), h. eexists _, _, _, (entry_of x). split; [exact Hv2|]. split_and!; [done|by apply list_elem_of_fmap_2|done..].
  - intros (sp & pg & h & v1 & e & v2 & x & Hv & He & Hx & Hwt & <- & <-). apply view_split in Hv as (w & Hw & <- & ->); [|done].
    apply elem_rec_locks in Hw as (Hw & [<- <-] & Hb). apply list_elem_of_fmap in Hx as (l & -> & Hl).
    exists w, l. split_and!; [done..| |done]. apply (elem_blockers_view s w h); [by apply Hone|done|done].
Qed.

End views.
End config.

(** ** Queues that say the same *)

(** The queue [v'] comes from [v]: it has the same requests; ahead of a waiting one are the
    same requests as before, and one behind a waiting request was so before. *)
Record requeued (v v' : list entry) : Prop := mk_requeued {
  rq_elem : ∀ x, x ∈ v' ↔ x ∈ v;
  rq_split : ∀ v1' e v2', v' = v1' ++ e :: v2' → ∃ v1 v2, v = v1 ++ e :: v2 ∧
    (e_wait e = true → ∀ x, x ∈ v1' ↔ x ∈ v1) ∧ ∀ x, x ∈ v1' → e_wait x = true → x ∈ v1;
}.

Lemma requeued_refl v : requeued v v.
Proof. split; [done|]. intros v1 e v2 ->. by exists v1, v2. Qed.

Definition e_mode_ok (e : entry) : Prop := e_mode e = LOCK_S ∨ e_mode e = LOCK_X.

Lemma e_conflict_sym w x : e_mode_ok w → e_mode_ok x → e_conflict w x → e_conflict x w.
Proof.
  intros Hw Hx (H1 & H2 & H3 & H4 & H5 & H6). split_and!; [congruence|done..|].
  destruct Hw as [Hw|Hw], Hx as [Hx|Hx]; rewrite Hw, Hx in *; done.
Qed.

(** Two requests in a queue, one ahead of the other. *)
Lemma elem_order (v : list entry) x y : x ∈ v → y ∈ v → x ≠ y → (∃ v1 v2, v = v1 ++ y :: v2 ∧ x ∈ v1) ∨ ∃ v1 v2, v = v1 ++ x :: v2 ∧ y ∈ v1.
Proof.
  intros (v1 & v2 & ->)%list_elem_of_split Hy Hne. rewrite elem_of_app, elem_of_cons in Hy. destruct Hy as [Hy|[Hy|Hy]]; [right; by exists v1, v2|congruence|left].
  apply list_elem_of_split in Hy as (v3 & v4 & ->). exists (v1 ++ x :: v3), v4. split; [by rewrite <-app_assoc|set_solver].
Qed.

Lemma requeued_rule3 v v' : Forall e_mode_ok v → requeued v v' → rule3_view v → rule3_view v'.
Proof.
  intros Hm [Hel Hsp] H3 v1' e v2' x Hv Hx Hc. destruct (Hsp _ _ _ Hv) as (v1 & v2 & Hv1 & _ & Hw).
  destruct (e_wait e) eqn:He; [done|]. assert (Hxv : x ∈ v) by (apply Hel; rewrite Hv; set_solver).
  assert (Hev : e ∈ v) by (rewrite Hv1; set_solver). rewrite Forall_forall in Hm. destruct (e_wait x) eqn:Hxw.
  - rewrite <-He. by eapply H3; [exact Hv1|apply Hw|].
  - destruct (elem_order v x e) as [(u1 & u2 & Hu & Hin)|(u1 & u2 & Hu & Hin)]; [done..|by intros ->; destruct Hc| |].
    + rewrite <-He. by eapply H3.
    + rewrite <-Hxw. eapply H3; [exact Hu|exact Hin|]. apply e_conflict_sym; [by apply Hm..|done].
Qed.

Section config.
  Context (cfg : config).

Lemma requeued_settled sup v v' : requeued v v' → settled_view cfg sup v → settled_view cfg sup v'.
Proof.
  intros [_ Hsp] Hs v1' e v2' Hv He. destruct (Hsp _ _ _ Hv) as (v1 & v2 & Hv1 & Hx & _).
  destruct (Hs _ _ _ Hv1 He) as (x & Hxv & Hwt). exists x. split; [by apply Hx|done].
Qed.

Lemma requeued_edge sup v v' a b : requeued v v' → view_edge cfg sup v' a b → view_edge cfg sup v a b.
Proof.
  intros [_ Hsp] (v1' & e & v2' & x & Hv & He & Hx & Hwt & Ha & Hb). destruct (Hsp _ _ _ Hv) as (v1 & v2 & Hv1 & Hin & _).
  exists v1, e, v2, x. split_and!; try done. by apply Hin.
Qed.

End config.

(** A request joins a queue: at the end, or at any place if nobody waits. *)
Definition joined (e : entry) (v v' : list entry) : Prop :=
  v' = v ++ [e] ∨ (e_wait e = false ∧ (∀ x, x ∈ v → e_wait x = false) ∧ ∀ x, x ∈ v' ↔ x ∈ v ∨ x = e).

Lemma snoc_split {A} (v v1 v2 : list A) e x : v ++ [e] = v1 ++ x :: v2 → (v1 = v ∧ x = e ∧ v2 = []) ∨ ∃ v3, v2 = v3 ++ [e] ∧ v = v1 ++ x :: v3.
Proof.
  intros H. destruct (decide (v2 = [])) as [->|Hne].
  - apply app_inj_tail in H as [-> ->]. by left.
  - right. destruct (exists_last Hne) as (v3 & y & ->). exists v3. rewrite app_comm_cons, app_assoc in H.
    apply app_inj_tail in H as [-> ->]. done.
Qed.

(** The receiver has what has been moved so far; one more request is moved. *)
Lemma requeued_join v v' e v'' : requeued v v' → joined e v' v'' → requeued (v ++ [e]) v''.
Proof.
  intros [Hel Hsp] [->|(He & Hnw & Hx)].
  - split; [intros x; rewrite !elem_of_app, Hel; done|]. intros v1' x v2' [(-> & -> & ->)|(v3 & -> & Hv)]%snoc_split.
    + exists v, []. split_and!; [done|intros _ x; apply Hel|intros x Hx _; by apply Hel].
    + destruct (Hsp _ _ _ Hv) as (v1 & v2 & -> & H1 & H2). exists v1, (v2 ++ [e]). split_and!; [by rewrite <-app_assoc|done..].
  - split; [intros x; rewrite Hx, elem_of_app, Hel, list_elem_of_singleton; done|]. intros v1' x v2' Hv.
    assert (Hin : ∀ y, y ∈ v'' → y ∈ v ++ [e] ∧ e_wait y = false).
    { intros y [Hy| ->]%Hx; [|split; [set_solver|done]]. split; [rewrite elem_of_app, <-Hel; by left|by apply Hnw]. }
    destruct (Hin x) as [Hxv Hxw]; [rewrite Hv; set_solver|]. apply list_elem_of_split in Hxv as (v1 & v2 & ->). exists v1, v2. split; [done|].
    split; [congruence|]. intros y Hy Hyw. destruct (Hin y) as [_ Hf]; [rewrite Hv; set_solver|]. congruence.
Qed.
