(* ===== verification/InnoDeadlock.v ===== *)
(** The deadlock detection of InnoDB (project 4): [DeadlockChecker] of [lock0lock.cc], for
    record locks. The search is the loop of the source with its explicit stack. *)
From stdpp Require Import functions base tactics numbers option list list_numbers gmap sets relations sorting.
From Stdlib Require Import ZArith Lia.
From S2P Require Import Prelude InnoMode InnoSys.

Definition LOCK_MAX_N_STEPS_IN_DEADLOCK_CHECK : N := 1000000.
Definition LOCK_MAX_DEPTH_IN_DEADLOCK_CHECK : nat := 200.
Definition MAX_STACK_SIZE : nat := 4096.

(** [m_lock] and [m_wait_lock] of [state_t]. A pointer to a lock in the queue of a record
    is the list of the locks from there on, so [m_heap_no] is not needed. *)
Record state_t : Type := mk_state { m_lock : list lock_t; m_saved_wait_lock : lock_t }.

Record DeadlockChecker : Type := mk_checker {
  m_cost : N;
  m_start : nat;
  m_too_deep : bool;
  m_wait_lock : lock_t;
  m_mark_start : Z;
  s_states : list state_t;
}.

Definition set_checker_wait_lock (w : lock_t) (c : DeadlockChecker) : DeadlockChecker :=
  mk_checker (m_cost c) (m_start c) (m_too_deep c) w (m_mark_start c) (s_states c).

Definition is_too_deep (c : DeadlockChecker) : bool :=
  (LOCK_MAX_DEPTH_IN_DEADLOCK_CHECK <? length (s_states c)) || (LOCK_MAX_N_STEPS_IN_DEADLOCK_CHECK <? m_cost c)%N.

Definition push (lock : list lock_t) (c : DeadlockChecker) : option DeadlockChecker :=
  if MAX_STACK_SIZE <=? length (s_states c) then None
  else Some (mk_checker (m_cost c) (m_start c) (m_too_deep c) (m_wait_lock c) (m_mark_start c)
               (mk_state lock (m_wait_lock c) :: s_states c)).

Definition is_visited (s : lock_sys_t) (c : DeadlockChecker) (lock : lock_t) : bool :=
  match trxs s !! lock_trx lock with
  | Some t => (m_mark_start c <? deadlock_mark t)%Z
  | None => false
  end.

(** From [lock] on to the first lock of a transaction that has not been searched. *)
Fixpoint skip_visited (s : lock_sys_t) (c : DeadlockChecker) (lock : list lock_t) : list lock_t :=
  match lock with
  | [] => []
  | l :: rest => if is_visited s c l then skip_visited s c rest else lock
  end.

Definition get_next_lock (s : lock_sys_t) (c : DeadlockChecker) (lock : list lock_t) : list lock_t :=
  skip_visited s c (tail lock).

Section config.
  Context (cfg : config).

Definition get_first_lock (c : DeadlockChecker) : LS (list lock_t) :=
  let w := m_wait_lock c in
  heap_no ← deref (lock_rec_find_set_bit w);
  lock ← gets (λ s, rec_locks s (space w) (page_no w) heap_no);
  first ← deref (head lock);
  _ ← assert_ (negb (lock_get_wait first));
  _ ← assert_ (negb (lock_id first =? lock_id w) || uses_vats cfg (lock_trx first));
  mret lock.

(** [trx_weight_ge] of [trx0trx.cc]. *)
Definition TRX_WEIGHT (t : trx_t) : Z := undo_no t + Z.of_nat (length (trx_locks t)).

Definition trx_weight_ge (a b : trx_t) : bool :=
  if negb (eqb (notrans_edit a) (notrans_edit b)) then notrans_edit a
  else (TRX_WEIGHT b <=? TRX_WEIGHT a)%Z.

Definition select_victim (c : DeadlockChecker) : LS nat :=
  a ← gets (λ s, trxs s !! lock_trx (m_wait_lock c));
  a ← deref a;
  b ← gets (λ s, trxs s !! m_start c);
  b ← deref b;
  mret (if trx_weight_ge a b then m_start c else lock_trx (m_wait_lock c)).

(** The inner loop of [search]: back to the last state with a lock left. *)
Fixpoint pop_loop (s : lock_sys_t) (c : DeadlockChecker) (stack : list state_t) (lock : list lock_t) : DeadlockChecker * list lock_t :=
  match lock, stack with
  | [], st :: stack =>
      let c := mk_checker (m_cost c) (m_start c) (m_too_deep c) (m_saved_wait_lock st) (m_mark_start c) stack in
      pop_loop s c stack (get_next_lock s c (m_lock st))
  | _, _ => (c, lock)
  end.

Definition too_deep (c : DeadlockChecker) : DeadlockChecker :=
  mk_checker (m_cost c) (m_start c) true (m_wait_lock c) (m_mark_start c) (s_states c).

(** The cases of the outer loop of [search]: the result, or the checker and the current
    lock for the next turn. *)
Definition search_case (c : DeadlockChecker) (lock : list lock_t) : LS (option nat * DeadlockChecker + DeadlockChecker * list lock_t) :=
  s ← gets id;
  match lock with
  | [] => mret (inl (None, c))
  | l :: _ =>
      if decide (lock_id l = lock_id (m_wait_lock c)) then
        let mark := wrap_u64 (s_lock_mark_counter s + 1) in
        _ ← modify (λ s, update_trx (lock_trx l) (set_deadlock_mark mark) (mk_lock_sys (rec_hash s) (trxs s) mark));
        mret (inr (c, []))
      else if negb (lock_has_to_wait (need_ordering cfg) (m_wait_lock c) l) then
        mret (inr (c, get_next_lock s c lock))
      else if lock_trx l =? m_start c then
        victim ← select_victim c;
        mret (inl (Some victim, c))
      else if is_too_deep c then mret (inl (Some (m_start c), too_deep c))
      else
        t ← deref (trxs s !! lock_trx l);
        if decide (que_state t = TRX_QUE_LOCK_WAIT) then
          let c := mk_checker (m_cost c + 1) (m_start c) (m_too_deep c) (m_wait_lock c) (m_mark_start c) (s_states c) in
          match push lock c with
          | None => mret (inl (Some (m_start c), too_deep c))
          | Some c =>
              w ← deref (wait_lock t ≫= get_lock s);
              let c := set_checker_wait_lock w c in
              lock ← get_first_lock c;
              match lock with
              | l :: _ => mret (inr (c, if is_visited s c l then get_next_lock s c lock else lock))
              | [] => mret (inr (c, []))
              end
          end
        else mret (inr (c, get_next_lock s c lock))
  end.

Definition search_turn (c : DeadlockChecker) (lock : list lock_t) : LS (option nat * DeadlockChecker + DeadlockChecker * list lock_t) :=
  s ← gets id;
  let '(c, lock) := pop_loop s c (s_states c) lock in
  search_case c lock.

Fixpoint search_loop (fuel : nat) (c : DeadlockChecker) (lock : list lock_t) : LS (option nat * DeadlockChecker) :=
  match fuel with
  | 0 => fail OutOfFuel
  | S fuel =>
      r ← search_turn c lock;
      match r with
      | inl r => mret r
      | inr (c, lock) => search_loop fuel c lock
      end
  end.

Definition num_locks (s : lock_sys_t) : nat := length (concat (rec_hash s)).

(** Each transaction is searched at most once, and a search looks at each lock at most
    once. *)
Definition search_fuel (s : lock_sys_t) : nat := (size (trxs s) + 2) * (num_locks s + 3).

Definition search (c : DeadlockChecker) : LS (option nat * DeadlockChecker) := λ s,
  (lock ← get_first_lock c; search_loop (search_fuel s) c lock) s.

Definition trx_rollback (c : DeadlockChecker) : LS unit :=
  let t := lock_trx (m_wait_lock c) in
  _ ← modify (update_trx t (set_victim true));
  trx ← gets (λ s, trxs s !! t);
  trx ← deref trx;
  w ← gets (λ s, wait_lock trx ≫= get_lock s);
  w ← deref w;
  lock_cancel_waiting_and_release cfg w.

(** The loop that resolves all deadlocks of the joining transaction; each turn but the
    last ends the wait of another one. [lock] is the address of its lock. *)
Fixpoint resolve_loop (fuel : nat) (lock trx : nat) : LS (option nat) :=
  match fuel with
  | 0 => fail OutOfFuel
  | S fuel =>
      mark ← gets s_lock_mark_counter;
      l ← gets (λ s, get_lock s lock);
      l ← deref l;
      '(victim_trx, checker) ← search (mk_checker 0 trx false l mark []);
      if is_too_deep checker then mret victim_trx
      else match victim_trx with
           | Some v => if v =? trx then mret victim_trx
                       else _ ← trx_rollback checker; resolve_loop fuel lock trx
           | None => mret None
           end
  end.

Definition check_and_resolve (lock trx : nat) : LS (option nat) :=
  t ← gets (λ s, trxs s !! trx);
  t ← deref t;
  if force_rollback_async t then mret (Some trx)
  else if negb (innobase_deadlock_detect cfg) then mret None
  else
    n ← gets num_locks;
    resolve_loop (S n) lock trx.

End config.
