(* ===== verification/InnoSearch.v ===== *)
(** The search of [DeadlockChecker] in InnoDB: it terminates, none of its assertions
    fails, it finds a deadlock of the joining transaction if there is one, and the
    deadlocks it reports are real. *)
From stdpp Require Import functions base tactics numbers option list list_numbers gmap sets relations sorting.
From Stdlib Require Import ZArith Lia.
From S2P Require Import Prelude InnoMode InnoSys InnoQueue InnoInv InnoGrant InnoDeadlock.

(** ** The queue that a lock waits in *)

Definition queue_of (s : lock_sys_t) (w : lock_t) : list lock_t :=
  match lock_rec_find_set_bit w with
  | Some h => rec_locks s (space w) (page_no w) h
  | None => []
  end.

Lemma elem_queue_of s w l : l ∈ queue_of s w → has_lock s l ∧ on_page (space w) (page_no w) l.
Proof.
  unfold queue_of, rec_locks. destruct (lock_rec_find_set_bit w); [|set_solver]. intros [_ Hl]%list_elem_of_filter. by apply elem_page.
Qed.

Lemma queue_of_ids s w : hash_ok s → NoDup (map lock_id (queue_of s w)).
Proof.
  intros Hok. unfold queue_of, rec_locks. destruct (lock_rec_find_set_bit w) as [h|]; [|constructor].
  eapply sublist_NoDup; [by apply (page_ids s (space w) (page_no w))|]. apply fmap_sublist, sublist_filter.
Qed.

Lemma elem_queue_of_self s w : has_lock s w → one_bit w → w ∈ queue_of s w.
Proof.
  intros Hw (h & Hf & Hb & _)%one_bit_find. unfold queue_of, rec_locks. rewrite Hf. by apply list_elem_of_filter.
Qed.

Section config.
  Context (cfg : config).

Lemma elem_blockers_queue s w l :
  hash_ok s → has_lock s w → one_bit w →
  l ∈ blockers cfg s w ↔ l ∈ ahead (lock_id w) (queue_of s w) ∧ lock_has_to_wait (need_ordering cfg) w l = true.
Proof.
  intros Hok Hw (h & Hf & Hb & _)%one_bit_find. rewrite elem_blockers. unfold queue_of, rec_locks. rewrite Hf.
  rewrite ahead_filter, list_elem_of_filter.
  - unfold blocks. split; [intros (? & [= <-] & [? ?] & ?); done|intros [[? ?] ?]; by exists h].
  - intros x Hx Hid. apply elem_page in Hx as [Hx _]. by rewrite (lock_id_inj s x w).
Qed.

(** A lock behind the position of the search is not ahead of it. *)
Lemma ahead_prefix s w pre l rest :
  hash_ok s → queue_of s w = pre ++ l :: rest → w ∈ l :: rest → lock_id l ≠ lock_id w → l ∈ ahead (lock_id w) (queue_of s w).
Proof.
  intros Hok Hq Hw Hne. assert (Hnd := queue_of_ids s w Hok). rewrite Hq in *. rewrite ahead_notin.
  - apply elem_of_app. right. simpl. rewrite decide_False by done. set_solver.
  - rewrite map_app in Hnd. apply NoDup_app in Hnd as (_ & Hd & _). intros Hin. apply (Hd _ Hin). by apply elem_ids.
Qed.

Lemma ahead_elem_prefix s w pre rest l :
  hash_ok s → queue_of s w = pre ++ w :: rest → l ∈ ahead (lock_id w) (queue_of s w) → l ∈ pre.
Proof.
  intros Hok Hq Hl. assert (Hnd := queue_of_ids s w Hok). rewrite Hq in *. rewrite ahead_notin in Hl.
  - simpl in Hl. rewrite decide_True, app_nil_r in Hl by done. done.
  - rewrite map_app in Hnd. apply NoDup_app in Hnd as (_ & Hd & _). intros Hin. apply (Hd _ Hin). simpl. set_solver.
Qed.

(** ** The first lock of a queue *)

Lemma get_first_lock_Ok jo s c :
  inv jo None s → all_settled cfg s → has_lock s (m_wait_lock c) → one_bit (m_wait_lock c) →
  ahead (lock_id (m_wait_lock c)) (queue_of s (m_wait_lock c)) ≠ [] →
  get_first_lock cfg c s = Ok (queue_of s (m_wait_lock c), s).
Proof.
  intros Hinv Hset Hw Hone Hah. set (w := m_wait_lock c) in *. assert (Hok := inv_hash _ _ _ Hinv).
  unfold get_first_lock. fold w. destruct (one_bit_find _ Hone) as (h & Hf & Hb & _).
  erewrite deref_Some by done. erewrite bind_Ok by done. assert (Hq : queue_of s w = rec_locks s (space w) (page_no w) h) by (unfold queue_of; by rewrite Hf).
  rewrite <-Hq. destruct (queue_of s w) as [|f q] eqn:Hfq; [done|]. erewrite deref_Some by done.
  assert (Hfin : f ∈ queue_of s w) by (rewrite Hfq; set_solver). destruct (elem_queue_of _ _ _ Hfin) as [Hfs [Hsp Hpg]].
  assert (Hfb : lock_rec_get_nth_bit f h = true) by (rewrite Hfq, Hq in Hfin; unfold rec_locks in Hfin; by apply list_elem_of_filter in Hfin as []).
  rewrite assert_true, assert_true; [done| |].
  - simpl in Hah. case_decide as Hid; [done|]. by rewrite (proj2 (Nat.eqb_neq _ _) Hid).
  - destruct (lock_get_wait f) eqn:Hfw; [|done]. exfalso. assert (Hf1 := lo_bit _ _ (inv_lock _ _ _ Hinv _ Hfs) Hfw).
    destruct (blockers cfg s f) as [|b bs] eqn:Hbl; [by apply (Hset (lock_id f) f)|].
    assert (Hbin : b ∈ blockers cfg s f) by (rewrite Hbl; set_solver). apply elem_blockers_queue in Hbin as [Hbin _]; [|done..].
    destruct (one_bit_find _ Hf1) as (h' & Hf' & _ & Hu). assert (h = h') as <- by (by apply Hu).
    assert (Hqf : queue_of s f = f :: q) by (rewrite Hq; unfold queue_of; by rewrite Hf', Hsp, Hpg).
    rewrite Hqf in Hbin. simpl in Hbin. rewrite decide_True in Hbin by done. set_solver.
Qed.

Lemma settled_ahead jo s w :
  inv jo None s → all_settled cfg s → has_lock s w → lock_get_wait w = true → ahead (lock_id w) (queue_of s w) ≠ [].
Proof.
  intros Hinv Hset Hw Hww He. destruct (blockers cfg s w) as [|b bs] eqn:Hb; [by apply (Hset (lock_id w) w)|].
  assert (Hbin : b ∈ blockers cfg s w) by (rewrite Hb; set_solver).
  apply elem_blockers_queue in Hbin as [Hbin _]; [|apply Hinv|done|by apply (inv_lock _ _ _ Hinv)]. rewrite He in Hbin. set_solver.
Qed.

(** ** The state of the search *)

(** The joining transaction and the mark counter at the start of the search. *)
Section search.
  Context (j : nat) (mark : Z).

Definition visited (s : lock_sys_t) (t : nat) : Prop :=
  match trxs s !! t with Some trx => (mark < deadlock_mark trx)%Z | None => False end.

#[global] Instance visited_dec s t : Decision (visited s t).
Proof. unfold visited. destruct (trxs s !! t); apply _. Defined.

(** The search has looked at all that the transaction waits for, without meeting [j]. *)
Definition searched (s : lock_sys_t) (t : nat) : Prop := t ≠ j ∧ (visited s t ∨ running s t).

(** The search stands at [lock] in the queue of [w]. *)
Record frame_ok (s : lock_sys_t) (w : lock_t) (lock : list lock_t) : Prop := mk_frame_ok {
  fr_has : has_lock s w;
  fr_bit : one_bit w;
  fr_wait : lock_get_wait w = true ∨ (blockers cfg s w = [] ∧ running s (lock_trx w));
  fr_start : lock_trx w = j ∨ lock_get_wait w = true;
  fr_new : ¬ visited s (lock_trx w);
  fr_here : w ∈ lock;
  fr_pre : ∃ pre, queue_of s w = pre ++ lock ∧
             ∀ l, l ∈ pre → lock_has_to_wait (need_ordering cfg) w l = true → searched s (lock_trx l);
}.

(** The stack is a path of the waits-for graph from [j] to [t]. *)
Fixpoint stack_ok (s : lock_sys_t) (t : nat) (stack : list state_t) : Prop :=
  match stack with
  | [] => t = j
  | st :: stack =>
      t ≠ j ∧ frame_ok s (m_saved_wait_lock st) (m_lock st) ∧
      (∃ l rest, m_lock st = l :: rest ∧ lock_trx l = t ∧ lock_id l ≠ lock_id (m_saved_wait_lock st) ∧
                 lock_has_to_wait (need_ordering cfg) (m_saved_wait_lock st) l = true) ∧
      stack_ok s (lock_trx (m_saved_wait_lock st)) stack
  end.

(** What has been searched waits only for what has been searched. *)
Definition closed (s : lock_sys_t) : Prop :=
  ∀ w l, has_lock s w → lock_get_wait w = true → visited s (lock_trx w) → l ∈ blockers cfg s w → searched s (lock_trx l).

Definition unvisited (s : lock_sys_t) : gset nat := filter (λ t, ¬ visited s t) (dom (trxs s)).

Definition path (c : DeadlockChecker) : list nat :=
  lock_trx (m_wait_lock c) :: map (λ st, lock_trx (m_saved_wait_lock st)) (s_states c).

Definition fresh_trxs (s : lock_sys_t) (c : DeadlockChecker) : gset nat := filter (λ t, t ∉ path c) (unvisited s).

Definition search_measure (s : lock_sys_t) (c : DeadlockChecker) (lock : list lock_t) : nat :=
  length lock + sum_list_with (λ st, length (m_lock st)) (s_states c) + size (fresh_trxs s c) * (num_locks s + 1).

(** The only cycles of the waits-for graph go through [j]. *)
Definition acyclic_but (s : lock_sys_t) : Prop := ∀ t, ¬ tc (λ a b, a ≠ j ∧ waits_for cfg s a b) t t.

Record search_ok (s : lock_sys_t) (c : DeadlockChecker) (lock : list lock_t) : Prop := mk_search_ok {
  so_inv : inv (Some j) None s;
  so_settled : all_settled cfg s;
  so_acyclic : acyclic_but s;
  so_counter : (0 ≤ mark ≤ s_lock_mark_counter s ∧ s_lock_mark_counter s + Z.of_nat (size (unvisited s)) < 2 ^ 64)%Z;
  so_start : m_start c = j;
  so_mark : m_mark_start c = mark;
  so_closed : closed s;
  so_stack : stack_ok s (lock_trx (m_wait_lock c)) (s_states c);
  so_frame : match lock with
             | [] => visited s (lock_trx (m_wait_lock c))
             | l :: _ => frame_ok s (m_wait_lock c) lock ∧ ¬ visited s (lock_trx l)
             end;
}.

(** ** Moving along a queue *)

Lemma is_visited_spec s c l : m_mark_start c = mark → is_visited s c l = bool_decide (visited s (lock_trx l)).
Proof.
  intros Hm. symmetry. case_bool_decide as Hv; unfold visited in Hv; unfold is_visited; rewrite Hm; destruct (trxs s !! lock_trx l); try done.
  - by symmetry; apply Z.ltb_lt.
  - by symmetry; apply Z.ltb_nlt.
Qed.

(** Skipping locks of visited transactions keeps a frame, as its own is not visited. *)
Lemma frame_skip s c w rest :
  m_mark_start c = mark → frame_ok s w rest → ¬ visited s j →
  ∃ l' rest', skip_visited s c rest = l' :: rest' ∧ frame_ok s w (l' :: rest') ∧ ¬ visited s (lock_trx l') ∧ length (l' :: rest') ≤ length rest.
Proof.
  intros Hm [H1 H2 H3 H4 H5 Hw Hpre] Hj. induction rest as [|l rest IH]; [set_solver|]. cbn [skip_visited]. rewrite is_visited_spec by done.
  case_bool_decide as Hv.
  - assert (l ≠ w) by (by intros ->). destruct IH as (l' & rest' & He & Hf & Hn & Hlen); [set_solver| |].
    + destruct Hpre as (pre & Hq & Hpre). exists (pre ++ [l]). rewrite <-app_assoc. split; [done|].
      intros x [Hx|Hx]%elem_of_app Hwt; [by apply Hpre|]. apply list_elem_of_singleton in Hx as ->. split; [|by left]. intros He. by rewrite He in Hv.
    + exists l', rest'. split_and!; [done..|]. simpl in *. lia.
  - exists l, rest. split_and!; [done| |done|done]. by split.
Qed.

Lemma frame_next s w l rest :
  frame_ok s w (l :: rest) → lock_id l ≠ lock_id w → (lock_has_to_wait (need_ordering cfg) w l = true → searched s (lock_trx l)) →
  frame_ok s w rest.
Proof.
  intros [H1 H2 H3 H4 H5 Hw (pre & Hq & Hpre)] Hne Hl. split; [done..| |].
  - apply elem_of_cons in Hw as [->|Hw]; done.
  - exists (pre ++ [l]). rewrite <-app_assoc. split; [done|]. intros x [Hx|Hx]%elem_of_app; [by apply Hpre|]. by apply list_elem_of_singleton in Hx as ->.
Qed.

(** A lock at which the search stands and which blocks is an edge of the waits-for graph. *)
Lemma frame_edge s w l rest :
  hash_ok s → frame_ok s w (l :: rest) → lock_id l ≠ lock_id w → lock_has_to_wait (need_ordering cfg) w l = true →
  waits_for cfg s (lock_trx w) (lock_trx l).
Proof.
  intros Hok [H1 H2 H3 H4 H5 Hw (pre & Hq & _)] Hne Hl. assert (Hb : l ∈ blockers cfg s w).
  { apply elem_blockers_queue; [done..|]. split; [|done]. by eapply ahead_prefix. }
  exists w, l. split_and!; [done| |done..]. destruct H3 as [?|[He _]]; [done|]. rewrite He in Hb. set_solver.
Qed.

Lemma stack_edge s t st stack : hash_ok s → stack_ok s t (st :: stack) → waits_for cfg s (lock_trx (m_saved_wait_lock st)) t.
Proof. intros Hok (_ & Hf & (l & rest & He & <- & Hne & Hwt) & _). rewrite He in Hf. by eapply frame_edge. Qed.

Lemma stack_path s t stack st :
  hash_ok s → stack_ok s t stack → st ∈ stack →
  lock_trx (m_saved_wait_lock st) = j ∨ tc (λ a b, a ≠ j ∧ waits_for cfg s a b) (lock_trx (m_saved_wait_lock st)) t.
Proof.
  intros Hok. revert t. induction stack as [|st' stack IH]; intros t Hs Hin; [set_solver|]. assert (He := stack_edge _ _ _ _ Hok Hs).
  destruct Hs as (Ht & _ & _ & Hs). apply elem_of_cons in Hin as [->|Hin].
  - destruct (decide (lock_trx (m_saved_wait_lock st') = j)); [by left|]. right. by apply tc_once.
  - destruct (IH _ Hs Hin) as [?|Htc]; [by left|]. right. eapply tc_r; [exact Htc|]. split; [|done].
    destruct stack as [|st2 stack]; [set_solver|]. by destruct Hs.
Qed.

Lemma stack_distinct s t stack st :
  hash_ok s → acyclic_but s → stack_ok s t stack → st ∈ stack → lock_trx (m_saved_wait_lock st) ≠ t.
Proof.
  intros Hok Hac Hs Hin He. destruct (stack_path _ _ _ _ Hok Hs Hin) as [Hj|Htc].
  - destruct stack as [|st' stack]; [set_solver|]. destruct Hs as (Ht & _). congruence.
  - rewrite He in Htc. by apply (Hac t).
Qed.

Lemma stack_start_new s t stack : stack_ok s t stack → (stack = [] → ¬ visited s t) → ¬ visited s j.
Proof.
  revert t. induction stack as [|st stack IH]; intros t Hs Ht.
  - simpl in Hs. subst t. by apply Ht.
  - destruct Hs as (_ & Hf & _ & Hs). apply (IH _ Hs). intros _. apply Hf.
Qed.

Lemma stack_reach s t stack : hash_ok s → stack_ok s t stack → rtc (waits_for cfg s) j t.
Proof.
  intros Hok. revert t. induction stack as [|st stack IH]; intros t Hs; [simpl in Hs; by subst t|].
  assert (He := stack_edge _ _ _ _ Hok Hs). destruct Hs as (_ & _ & _ & Hs). eapply rtc_r; [by apply IH|done].
Qed.

(** ** Back to the frame below *)

Lemma pop_ok s c :
  search_ok s c [] → s_states c ≠ [] →
  ∃ c' l rest, pop_loop s c (s_states c) [] = (c', l :: rest) ∧ search_ok s c' (l :: rest) ∧ search_measure s c' (l :: rest) ≤ search_measure s c [].
Proof.
  intros [H1 H2 H3 H4 H5 H6 H7 Hst Hv] Hne. destruct (s_states c) as [|st stack] eqn:Hs; [done|]. assert (Hjn := stack_start_new _ _ _ Hst).
  destruct Hst as (Ht & Hf & (l & rest & Hl & Hlt & Hid & Hwt) & Hst). rewrite Hl in Hf.
  set (c' := mk_checker (m_cost c) (m_start c) (m_too_deep c) (m_saved_wait_lock st) (m_mark_start c) stack).
  destruct (frame_skip s c' (m_saved_wait_lock st) rest) as (l' & rest' & He & Hf' & Hn & Hlen); [done| |by apply Hjn|].
  { eapply frame_next; [done..|]. intros _. rewrite Hlt. split; [done|by left]. }
  exists c', l', rest'. split_and!.
  - cbn [pop_loop]. fold c'. rewrite Hl. unfold get_next_lock. cbn [tail]. rewrite He. by destruct stack.
  - by split.
  - unfold search_measure. rewrite Hs. cbn [s_states c' length sum_list_with]. rewrite Hl. cbn [length].
    assert (Hsub : size (fresh_trxs s c') ≤ size (fresh_trxs s c)).
    { apply subseteq_size. unfold fresh_trxs, path. rewrite Hs. intros x. rewrite !elem_of_filter. cbn [map m_wait_lock s_states c'].
      unfold unvisited. rewrite elem_of_filter. set_solver. }
    simpl in Hlen. nia.
Qed.

(** ** Marking a transaction *)

Definition marked (t : nat) (s : lock_sys_t) : lock_sys_t :=
  let m := wrap_u64 (s_lock_mark_counter s + 1) in
  update_trx t (set_deadlock_mark m) (mk_lock_sys (rec_hash s) (trxs s) m).

Lemma visited_marked s t u :
  (0 ≤ mark ≤ s_lock_mark_counter s ∧ s_lock_mark_counter s + 1 < 2 ^ 64)%Z → is_Some (trxs s !! t) →
  visited (marked t s) u ↔ u = t ∨ visited s u.
Proof.
  intros Hc [trx Ht]. unfold visited, marked. cbn. destruct (decide (u = t)) as [->|Hne].
  - rewrite lookup_alter_eq, Ht. cbn. unfold wrap_u64. rewrite Z.mod_small by lia. split; [by left|]. intros _. lia.
  - rewrite lookup_alter_ne by done. tauto.
Qed.

Lemma running_marked s t u : running (marked t s) u ↔ running s u.
Proof.
  unfold running, marked. cbn. destruct (decide (u = t)) as [->|Hne]; [|by rewrite lookup_alter_ne].
  rewrite lookup_alter_eq. destruct (trxs s !! t) as [trx|]; cbn; split; intros (x & Hx & Hw); simplify_eq/=; eauto.
Qed.

Lemma inv_marked jo vo s t :
  (0 ≤ s_lock_mark_counter s ∧ s_lock_mark_counter s + 1 < 2 ^ 64)%Z → inv jo vo s → inv jo vo (marked t s).
Proof.
  intros Hc Hinv. split; [destruct (inv_hash _ _ _ Hinv); by split| | |apply Hinv|apply Hinv].
  - intros l Hl. destruct (inv_lock _ _ _ Hinv l Hl) as [H1 H2 H3 (trx & Ht & Hin & Hw)]. split; [done..|]. cbn.
    destruct (decide (lock_trx l = t)) as [<-|Hne].
    + rewrite lookup_alter_eq, Ht. eexists. done.
    + rewrite lookup_alter_ne by done. by exists trx.
  - intros u trx Hu. assert (Hwrap : s_lock_mark_counter (marked t s) = (s_lock_mark_counter s + 1)%Z).
    { cbn. unfold wrap_u64. rewrite Z.mod_small by lia. done. }
    cbn in Hu. destruct (decide (u = t)) as [->|Hne].
    + rewrite lookup_alter_eq in Hu. destruct (trxs s !! t) as [trx0|] eqn:Ht; simplify_eq/=.
      destruct (inv_trx _ _ _ Hinv _ _ Ht) as [H1 H2 H3 H4 H5 H6]. by split.
    + rewrite lookup_alter_ne in Hu by done. destruct (inv_trx _ _ _ Hinv _ _ Hu) as [H1 H2 H3 H4 H5 H6]. split; [done..|]. rewrite Hwrap. lia.
Qed.

Lemma searched_marked s t u :
  (0 ≤ mark ≤ s_lock_mark_counter s ∧ s_lock_mark_counter s + 1 < 2 ^ 64)%Z → is_Some (trxs s !! t) →
  searched s u → searched (marked t s) u.
Proof.
  intros Hc Ht [Hj Hs]. split; [done|]. destruct Hs as [Hv|Hr]; [left|right].
  - apply visited_marked; [done..|]. by right.
  - by apply running_marked.
Qed.

Lemma frame_marked s t w lock :
  (0 ≤ mark ≤ s_lock_mark_counter s ∧ s_lock_mark_counter s + 1 < 2 ^ 64)%Z → is_Some (trxs s !! t) →
  lock_trx w ≠ t → frame_ok s w lock → frame_ok (marked t s) w lock.
Proof.
  intros Hc Ht Hne [H1 H2 H3 H4 H5 H6 (pre & Hq & Hpre)]. split; [done..| |done| |done|].
  - destruct H3 as [?|[? ?]]; [by left|right]. split; [done|]. by apply running_marked.
  - rewrite visited_marked by done. tauto.
  - exists pre. split; [done|]. intros l Hl Hwt. apply searched_marked; [done..|]. by apply Hpre.
Qed.

Lemma stack_marked s t u stack :
  (0 ≤ mark ≤ s_lock_mark_counter s ∧ s_lock_mark_counter s + 1 < 2 ^ 64)%Z → is_Some (trxs s !! t) →
  (∀ st, st ∈ stack → lock_trx (m_saved_wait_lock st) ≠ t) → stack_ok s u stack → stack_ok (marked t s) u stack.
Proof.
  intros Hc Ht. revert u. induction stack as [|st stack IH]; intros u Hd Hs; [done|]. destruct Hs as (Hu & Hf & Hl & Hs).
  split_and!; [done| |done|].
  - apply frame_marked; [done..| |done]. apply Hd. set_solver.
  - apply IH; [|done]. intros st' Hst'. apply Hd. set_solver.
Qed.

Lemma unvisited_marked s t :
  (0 ≤ mark ≤ s_lock_mark_counter s ∧ s_lock_mark_counter s + 1 < 2 ^ 64)%Z → is_Some (trxs s !! t) →
  unvisited (marked t s) = unvisited s ∖ {[t]}.
Proof.
  intros Hc Ht. apply set_eq. intros u. unfold unvisited. rewrite elem_of_difference, !elem_of_filter, visited_marked, elem_of_singleton by done.
  replace (dom (trxs (marked t s))) with (dom (trxs s)) by (symmetry; cbn; apply dom_alter_L). tauto.
Qed.

Lemma closed_marked s w rest :
  inv (Some j) None s → (0 ≤ mark ≤ s_lock_mark_counter s ∧ s_lock_mark_counter s + 1 < 2 ^ 64)%Z →
  closed s → frame_ok s w (w :: rest) → closed (marked (lock_trx w) s).
Proof.
  intros Hinv Hc Hcl Hf x l Hx Hxw Hv Hl. destruct (inv_trx_of _ _ _ _ Hinv (fr_has _ _ _ Hf)) as (trx & Ht & _ & Hwl).
  apply searched_marked; [done|by eexists|]. apply visited_marked in Hv; [|done|by eexists]. destruct Hv as [He|Hv]; [|by eapply Hcl].
  assert (lock_get_wait w = true) as Hww.
  { destruct (fr_wait _ _ _ Hf) as [?|[_ Hr]]; [done|]. rewrite (running_granted _ _ _ x Hinv Hx) in Hxw; [done|]. by rewrite He. }
  assert (x = w) as -> by (eapply inv_wait_unique; [exact Hinv|done|apply Hf|done..]).
  destruct (fr_pre _ _ _ Hf) as (pre & Hq & Hpre). change (l ∈ blockers cfg s w) in Hl.
  apply elem_blockers_queue in Hl as [Hl Hwt]; [|apply Hinv|apply Hf|apply Hf]. apply Hpre; [|done].
  eapply ahead_elem_prefix; [apply Hinv|done|done].
Qed.

Lemma searched_ok s c l rest :
  search_ok s c (l :: rest) → lock_id l = lock_id (m_wait_lock c) →
  search_ok (marked (lock_trx l) s) c [] ∧ search_measure (marked (lock_trx l) s) c [] < search_measure s c (l :: rest).
Proof.
  intros [Hinv Hset Hac Hc Hst Hm Hcl Hs [Hf Hn]] Hid. assert (Hok := inv_hash _ _ _ Hinv).
  assert (l = m_wait_lock c) as ->.
  { destruct (fr_pre _ _ _ Hf) as (pre & Hq & _). apply (lock_id_inj s); [done| |apply Hf|done].
    apply (elem_queue_of s (m_wait_lock c)). rewrite Hq. set_solver. }
  set (w := m_wait_lock c) in *. destruct (inv_trx_of _ _ _ _ Hinv (fr_has _ _ _ Hf)) as (trx & Ht & _).
  assert (Hin : lock_trx w ∈ unvisited s) by (apply elem_of_filter; split; [done|]; by eapply elem_of_dom_2).
  assert (Hsz : size (unvisited s ∖ {[lock_trx w]}) + 1 = size (unvisited s)).
  { rewrite size_difference by set_solver. rewrite size_singleton. assert (size (unvisited s) ≠ 0) by (by apply size_non_empty_iff; set_solver). lia. }
  assert (Hc1 : (0 ≤ mark ≤ s_lock_mark_counter s ∧ s_lock_mark_counter s + 1 < 2 ^ 64)%Z) by lia.
  assert (Hun : unvisited (marked (lock_trx w) s) = unvisited s ∖ {[lock_trx w]}) by (apply unvisited_marked; [done|by eexists]).
  split.
  - split; [apply inv_marked; [lia|done]|done|done| |done|done| | |].
    + assert (s_lock_mark_counter (marked (lock_trx w) s) = (s_lock_mark_counter s + 1)%Z) as ->.
      { cbn. unfold wrap_u64. rewrite Z.mod_small by lia. done. }
      rewrite Hun. lia.
    + by eapply closed_marked.
    + apply stack_marked; [done|by eexists| |done]. intros st Hin'. by eapply stack_distinct.
    + apply visited_marked; [done|by eexists|by left].
  - unfold search_measure, fresh_trxs. rewrite Hun. cbn [length]. change (num_locks (marked (lock_trx w) s)) with (num_locks s).
    assert (size (filter (λ t, t ∉ path c) (unvisited s ∖ {[lock_trx w]})) ≤ size (filter (λ t, t ∉ path c) (unvisited s))); [|nia].
    apply subseteq_size. set_solver.
Qed.

(** ** To the next lock, and into the queue of another transaction *)

Lemma next_ok s c l rest :
  search_ok s c (l :: rest) → lock_id l ≠ lock_id (m_wait_lock c) →
  (lock_has_to_wait (need_ordering cfg) (m_wait_lock c) l = true → searched s (lock_trx l)) →
  search_ok s c (get_next_lock s c (l :: rest)) ∧ search_measure s c (get_next_lock s c (l :: rest)) < search_measure s c (l :: rest).
Proof.
  intros [Hinv Hset Hac Hc Hst Hm Hcl Hs [Hf Hn]] Hne Hl.
  destruct (frame_skip s c (m_wait_lock c) rest) as (l' & rest' & He & Hf' & Hn' & Hlen); [done|by eapply frame_next| |].
  { eapply stack_start_new; [done|]. intros _. apply Hf. }
  unfold get_next_lock. cbn [tail]. rewrite He. split; [by split|]. unfold search_measure. simpl in *. lia.
Qed.

Lemma length_queue_of s w : hash_ok s → length (queue_of s w) ≤ num_locks s.
Proof.
  intros Hok. unfold num_locks. rewrite <-(length_map lock_id (queue_of s w)), <-(length_map lock_id (concat _)).
  apply submseteq_length, NoDup_submseteq; [by apply queue_of_ids|]. intros id (l & -> & Hl)%list_elem_of_fmap. apply elem_ids.
  apply has_lock_concat; [done|]. by apply (elem_queue_of s w).
Qed.

Definition pushed (c : DeadlockChecker) (lock : list lock_t) (w : lock_t) : DeadlockChecker :=
  mk_checker (m_cost c + 1) (m_start c) (m_too_deep c) w (m_mark_start c) (mk_state lock (m_wait_lock c) :: s_states c).

Lemma elem_of_path c lock w t : t ∈ path c → ∃ st, st ∈ s_states (pushed c lock w) ∧ lock_trx (m_saved_wait_lock st) = t.
Proof.
  unfold path. intros [->|(st & -> & Hst)%list_elem_of_fmap]%elem_of_cons.
  - exists (mk_state lock (m_wait_lock c)). split; [apply list_elem_of_here|done].
  - exists st. split; [by apply list_elem_of_further|done].
Qed.

Lemma push_ok s c l rest w :
  search_ok s c (l :: rest) → lock_id l ≠ lock_id (m_wait_lock c) →
  lock_has_to_wait (need_ordering cfg) (m_wait_lock c) l = true → lock_trx l ≠ j →
  has_lock s w → lock_get_wait w = true → lock_trx w = lock_trx l →
  let c' := pushed c (l :: rest) w in
  get_first_lock cfg c' s = Ok (queue_of s w, s) ∧ queue_of s w ≠ [] ∧
  search_ok s c' (skip_visited s c' (queue_of s w)) ∧
  search_measure s c' (skip_visited s c' (queue_of s w)) < search_measure s c (l :: rest).
Proof.
  intros [Hinv Hset Hac Hc Hst Hm Hcl Hs [Hf Hn]] Hne Hwt Hlj Hw Hww Ht c'. assert (Hok := inv_hash _ _ _ Hinv).
  assert (Hone : one_bit w) by (by apply (inv_lock _ _ _ Hinv)).
  assert (Hself := elem_queue_of_self _ _ Hw Hone).
  assert (Hah := settled_ahead _ _ _ Hinv Hset Hw Hww).
  assert (Hs' : stack_ok s (lock_trx w) (s_states c')).
  { rewrite Ht. split_and!; [done|done| |done]. by exists l, rest. }
  assert (Hj : ¬ visited s j) by (eapply stack_start_new; [exact Hs'|done]).
  destruct (frame_skip s c' w (queue_of s w)) as (l' & rest' & He & Hf' & Hn' & Hlen); [done| |done|].
  { split; [done|done|by left|by right|by rewrite Ht|done|]. exists []. split; [done|set_solver]. }
  split_and!.
  - by apply (get_first_lock_Ok (Some j) s c').
  - intros Hnil. rewrite Hnil in Hself. by apply elem_of_nil in Hself.
  - rewrite He. by split.
  - rewrite He. unfold search_measure. cbn [s_states c' pushed sum_list_with m_lock]. assert (Hlq := length_queue_of s w Hok).
    assert (Hfr : size (fresh_trxs s c') + 1 ≤ size (fresh_trxs s c)).
    { assert (Hin : lock_trx w ∈ fresh_trxs s c).
      { apply elem_of_filter. split; [|apply elem_of_filter; split; [by rewrite Ht|]].
        - intros Hin%(elem_of_path _ (l :: rest) w). destruct Hin as (st & Hst' & He'). by eapply stack_distinct.
        - destruct (inv_trx_of _ _ _ _ Hinv Hw) as (trx & Htr & _). by eapply elem_of_dom_2. }
      assert (fresh_trxs s c' ⊆ fresh_trxs s c ∖ {[lock_trx w]}) as Hsub.
      { intros x [Hp Hu]%elem_of_filter. apply not_elem_of_cons in Hp as [Hxw Hp]. apply elem_of_difference.
        split; [by apply elem_of_filter|]. by rewrite elem_of_singleton. }
      apply subseteq_size in Hsub. rewrite size_difference, size_singleton in Hsub by (by apply singleton_subseteq_l).
      assert (size (fresh_trxs s c) ≠ 0) by (apply size_non_empty_iff; intros Hnil; rewrite Hnil in Hin; by apply elem_of_empty in Hin). lia. }
    assert (Hmul : (size (fresh_trxs s c') + 1) * (num_locks s + 1) ≤ size (fresh_trxs s c) * (num_locks s + 1)) by (by apply Nat.mul_le_mono_r).
    rewrite Nat.mul_add_distr_r in Hmul. cbn [length] in *. lia.
Qed.

(** ** The search *)

(** What a search that ends has found. *)
Definition search_result (s : lock_sys_t) (r : option nat * DeadlockChecker) : Prop :=
  match r with
  | (None, _) => ¬ tc (waits_for cfg s) j j
  | (Some v, c) =>
      let w := m_wait_lock c in
      is_too_deep c = true ∨
      (has_lock s w ∧ lock_get_wait w = true ∧ rtc (waits_for cfg s) j (lock_trx w) ∧ waits_for cfg s (lock_trx w) j ∧ (v = j ∨ v = lock_trx w))
  end.

Lemma closed_no_cycle s jo : inv jo None s → closed s → visited s j → ¬ tc (waits_for cfg s) j j.
Proof.
  intros Hinv Hcl Hv. assert (Hall : ∀ t, tc (waits_for cfg s) j t → searched s t); [|by intros Htc%Hall; destruct Htc].
  assert (Hstep : ∀ a b, visited s a → waits_for cfg s a b → searched s b).
  { intros a b Ha (w & l & Hw & Hww & <- & Hl & <-). by eapply Hcl. }
  apply (tc_ind_r (searched s) j).
  - intros b. by apply Hstep.
  - intros a b _ Hab [_ [Ha|Ha]]; [by apply (Hstep a)|]. destruct Hab as (w & l & Hw & Hww & <- & _).
    by rewrite (running_granted _ _ _ w Hinv) in Hww.
Qed.

(** A search changes nothing but marks. *)
Record after_search (s s' : lock_sys_t) : Prop := mk_after_search {
  as_hash : rec_hash s' = rec_hash s;
  as_evolves : evolves ∅ ∅ s s';
  as_counter : (s_lock_mark_counter s ≤ s_lock_mark_counter s')%Z;
  as_bound : (s_lock_mark_counter s' + Z.of_nat (size (unvisited s')) ≤ s_lock_mark_counter s + Z.of_nat (size (unvisited s)))%Z;
}.

Lemma after_search_refl s : after_search s s.
Proof. split; [done|apply evolves_refl|lia..]. Qed.

Lemma after_search_trans s1 s2 s3 : after_search s1 s2 → after_search s2 s3 → after_search s1 s3.
Proof.
  intros [H1 H2 H3 H4] [H1' H2' H3' H4']. split; [congruence| |lia..].
  replace (∅ : gset nat) with (∅ ∪ ∅ : gset nat) by set_solver. by eapply evolves_trans.
Qed.

Lemma after_marked s t :
  (0 ≤ mark ≤ s_lock_mark_counter s ∧ s_lock_mark_counter s + 1 < 2 ^ 64)%Z → t ∈ unvisited s → after_search s (marked t s).
Proof.
  intros Hc Hin. assert (Ht : is_Some (trxs s !! t)) by (apply elem_of_dom; by apply elem_of_filter in Hin as []).
  assert (Hcnt : s_lock_mark_counter (marked t s) = (s_lock_mark_counter s + 1)%Z) by (cbn; unfold wrap_u64; rewrite Z.mod_small by lia; done).
  split; [done| |lia|].
  - split; [apply (evolves_refl s)|cbn; apply dom_alter_L|]. intros u. rewrite filter_all by set_solver. unfold locks_of. cbn.
    destruct (decide (u = t)) as [->|Hne]; [|by rewrite lookup_alter_ne]. rewrite lookup_alter_eq. by destruct (trxs s !! t).
  - rewrite Hcnt, unvisited_marked by done. rewrite size_difference, size_singleton by set_solver.
    assert (size (unvisited s) ≠ 0) by (apply size_non_empty_iff; set_solver). lia.
Qed.

Lemma select_victim_Ok s c l :
  inv (Some j) None s → m_start c = j → has_lock s (m_wait_lock c) → has_lock s l → lock_trx l = j →
  ∃ v, select_victim c s = Ok (v, s) ∧ (v = j ∨ v = lock_trx (m_wait_lock c)).
Proof.
  intros Hinv Hst Hw Hl Hlj. destruct (inv_trx_of _ _ _ _ Hinv Hw) as (a & Ha & _), (inv_trx_of _ _ _ _ Hinv Hl) as (b & Hb & _).
  unfold select_victim. erewrite bind_Ok, deref_Some by done. erewrite bind_Ok, deref_Some by (try done; by rewrite Hst, <-Hlj).
  eexists. split; [done|]. rewrite Hst. destruct (trx_weight_ge a b); [by left|by right].
Qed.

Definition turn_ok (s : lock_sys_t) (n : nat) (r : option nat * DeadlockChecker + DeadlockChecker * list lock_t) (s' : lock_sys_t) : Prop :=
  after_search s s' ∧
  match r with
  | inl r => s' = s ∧ search_result s r
  | inr (c', lock') => search_ok s' c' lock' ∧ search_measure s' c' lock' < n
  end.

(** The search goes into the queue of a waiting transaction. *)
Lemma search_case_push s c l rest trx :
  search_ok s c (l :: rest) → lock_id l ≠ lock_id (m_wait_lock c) →
  lock_has_to_wait (need_ordering cfg) (m_wait_lock c) l = true → lock_trx l ≠ j →
  trxs s !! lock_trx l = Some trx → que_state trx = TRX_QUE_LOCK_WAIT → is_too_deep c = false →
  ∃ r, search_case cfg c (l :: rest) s = Ok (r, s) ∧ turn_ok s (search_measure s c (l :: rest)) r s.
Proof.
  intros Hso Hne Hwt Hlj Ht Hq Hdeep. assert (Hinv := so_inv _ _ _ Hso).
  assert (Hw : ∃ w, wait_lock trx ≫= get_lock s = Some w ∧ has_lock s w ∧ lock_get_wait w = true ∧ lock_trx w = lock_trx l).
  { destruct (inv_trx _ _ _ Hinv _ _ Ht) as [_ _ H3 _ _ _]. assert (H4 := inv_que _ _ _ _ Hinv Ht). rewrite decide_False in H4 by congruence.
    destruct (wait_lock trx) as [id|]; [|congruence]. destruct (H3 id) as (w & Hw & <- & ? & ?); [done..|]. exists w. split_and!; [|done..].
    simpl. apply get_lock_Some; [apply Hinv|done]. }
  destruct Hw as (w & Hget & Hw & Hww & Hwt'). destruct (push_ok s c l rest w) as (Hfirst & Hnil & Hso' & Hm); [done..|].
  unfold search_case. erewrite bind_Ok by done. rewrite decide_False, Hwt by done. cbn [negb].
  assert (Hst : (lock_trx l =? m_start c) = false) by (rewrite (so_start _ _ _ Hso); by apply Nat.eqb_neq).
  rewrite Hst, Hdeep. erewrite deref_Some by done. rewrite decide_True by done.
  unfold push. cbn [s_states]. destruct (MAX_STACK_SIZE <=? length (s_states c)) eqn:Hfull.
  { eexists. split; [done|]. split; [apply after_search_refl|]. split; [done|]. left. unfold is_too_deep, too_deep. cbn [s_states].
    apply Nat.leb_le in Hfull. rewrite (proj2 (Nat.ltb_lt _ _)); [done|]. unfold MAX_STACK_SIZE, LOCK_MAX_DEPTH_IN_DEADLOCK_CHECK in *. lia. }
  erewrite deref_Some by done. erewrite bind_Ok by done. destruct (queue_of s w) as [|f q] eqn:Hqw; [by destruct Hnil|].
  eexists. split; [done|]. split; [apply after_search_refl|done].
Qed.

Lemma search_case_ok s c l rest :
  search_ok s c (l :: rest) → ∃ r s', search_case cfg c (l :: rest) s = Ok (r, s') ∧ turn_ok s (search_measure s c (l :: rest)) r s'.
Proof.
  intros Hso. assert (Hinv := so_inv _ _ _ Hso). destruct (so_frame _ _ _ Hso) as [Hf Hn].
  assert (Hl : has_lock s l).
  { destruct (fr_pre _ _ _ Hf) as (pre & Hq & _). apply (elem_queue_of s (m_wait_lock c)). rewrite Hq. set_solver. }
  destruct (inv_trx_of _ _ _ _ Hinv Hl) as (trx & Ht & _).
  destruct (decide (lock_id l = lock_id (m_wait_lock c))) as [Hid|Hid].
  { destruct (searched_ok s c l rest) as [Hso' Hm]; [done..|]. exists (inr (c, [])), (marked (lock_trx l) s). split; [|split; [|done]].
    - unfold search_case. erewrite bind_Ok by done. by rewrite decide_True.
    - assert (Hin : lock_trx l ∈ unvisited s) by (apply elem_of_filter; split; [done|by eapply elem_of_dom_2]).
      apply after_marked; [|done]. assert (size (unvisited s) ≠ 0) by (apply size_non_empty_iff; set_solver).
      destruct (so_counter _ _ _ Hso). lia. }
  destruct (lock_has_to_wait (need_ordering cfg) (m_wait_lock c) l) eqn:Hwt.
  2: { destruct (next_ok s c l rest) as [Hso' Hm]; [done|done|by rewrite Hwt|].
       exists (inr (c, get_next_lock s c (l :: rest))), s. split; [|split; [apply after_search_refl|done]].
       unfold search_case. erewrite bind_Ok by done. by rewrite decide_False, Hwt by done. }
  destruct (decide (lock_trx l = j)) as [Hlj|Hlj].
  { destruct (select_victim_Ok s c l) as (v & Hv & Hvj); [done|by eapply so_start|apply Hf|done..|].
    exists (inl (Some v, c)), s. split; [|split; [apply after_search_refl|split; [done|]]].
    - unfold search_case. erewrite bind_Ok by done. rewrite decide_False, Hwt by done. cbn [negb].
      rewrite (so_start _ _ _ Hso), (proj2 (Nat.eqb_eq _ _) Hlj). by erewrite bind_Ok by done.
    - right. assert (He := frame_edge _ _ _ _ (inv_hash _ _ _ Hinv) Hf Hid Hwt). split_and!; [apply Hf| | |by rewrite <-Hlj|done].
      + destruct (fr_start _ _ _ Hf) as [Hj|?]; [|done]. apply lock_has_to_wait_trx in Hwt. congruence.
      + eapply stack_reach; [apply Hinv|apply Hso]. }
  destruct (is_too_deep c) eqn:Hdeep.
  { exists (inl (Some (m_start c), too_deep c)), s. split; [|split; [apply after_search_refl|split; [done|by left]]].
    unfold search_case. erewrite bind_Ok by done. rewrite decide_False, Hwt by done. cbn [negb].
    rewrite (so_start _ _ _ Hso), (proj2 (Nat.eqb_neq _ _) Hlj), Hdeep. done. }
  destruct (decide (que_state trx = TRX_QUE_LOCK_WAIT)) as [Hq|Hq].
  { destruct (search_case_push s c l rest trx) as (r & ? & ?); [done..|]. by exists r, s. }
  destruct (next_ok s c l rest) as [Hso' Hm]; [done..| |].
  { intros _. split; [done|right]. exists trx. split; [done|]. assert (H4 := inv_que _ _ _ _ Hinv Ht).
    rewrite decide_False in H4 by congruence. by destruct (wait_lock trx). }
  exists (inr (c, get_next_lock s c (l :: rest))), s. split; [|split; [apply after_search_refl|done]].
  unfold search_case. erewrite bind_Ok by done. rewrite decide_False, Hwt by done. cbn [negb].
  rewrite (so_start _ _ _ Hso), (proj2 (Nat.eqb_neq _ _) Hlj), Hdeep. erewrite deref_Some by done. by rewrite decide_False.
Qed.

Lemma search_turn_ok s c lock :
  search_ok s c lock → ∃ r s', search_turn cfg c lock s = Ok (r, s') ∧ turn_ok s (search_measure s c lock) r s'.
Proof.
  intros Hso. unfold search_turn. erewrite bind_Ok by done. unfold id. destruct lock as [|l rest].
  - destruct (decide (s_states c = [])) as [Hnil|Hne].
    + rewrite Hnil. eexists _, s. split; [done|]. split; [apply after_search_refl|]. split; [done|].
      assert (Hst := so_stack _ _ _ Hso). rewrite Hnil in Hst. simpl in Hst. assert (Hv := so_frame _ _ _ Hso). simpl in Hv. rewrite Hst in Hv.
      eapply closed_no_cycle; [apply Hso|apply Hso|done].
    + destruct (pop_ok s c Hso Hne) as (c' & l & rest & He & Hso' & Hm). rewrite He.
      destruct (search_case_ok s c' l rest Hso') as (r & s' & Hr & Ha & Ht). exists r, s'. split; [done|]. split; [done|].
      destruct r as [r|[c2 lock2]]; [done|]. destruct Ht as [? ?]. split; [done|lia].
  - destruct (search_case_ok s c l rest Hso) as (r & s' & Hr & Ht). exists r, s'. split; [|done]. by destruct (s_states c).
Qed.

Lemma search_loop_ok n s c lock :
  search_ok s c lock → search_measure s c lock < n →
  ∃ r s', search_loop cfg n c lock s = Ok (r, s') ∧ search_result s' r ∧ after_search s s' ∧ inv (Some j) None s' ∧ all_settled cfg s'.
Proof.
  revert s c lock. induction n as [|n IH]; intros s c lock Hso Hn; [lia|]. cbn [search_loop].
  destruct (search_turn_ok s c lock Hso) as (r & s1 & Hr & Ha & Ht). erewrite bind_Ok by done. destruct r as [r|[c1 lock1]].
  - destruct Ht as [-> Hres]. exists r, s. split_and!; [done..|apply Hso|apply Hso].
  - destruct Ht as [Hso1 Hm]. destruct (IH s1 c1 lock1) as (r & s' & Hrun & Hres & Ha' & Hinv' & Hset'); [done|lia|].
    exists r, s'. split_and!; [done..| |done|done]. by eapply after_search_trans.
Qed.

End search.

(** The search for a deadlock of the transaction of [w]. *)
Lemma search_Ok s w :
  let j := lock_trx w in
  let mark := s_lock_mark_counter s in
  inv (Some j) None s → all_settled cfg s → acyclic_but j s →
  (0 ≤ mark ∧ mark + Z.of_nat (size (trxs s)) < 2 ^ 64)%Z →
  has_lock s w → one_bit w → (lock_get_wait w = true ∨ (blockers cfg s w = [] ∧ running s j)) →
  ahead (lock_id w) (queue_of s w) ≠ [] →
  ∃ r s', search cfg (mk_checker 0 j false w mark []) s = Ok (r, s') ∧ search_result j s' r ∧ after_search mark s s' ∧
    inv (Some j) None s' ∧ all_settled cfg s'.
Proof.
  intros j mark Hinv Hset Hac Hc Hw Hone Hwait Hah. set (c := mk_checker 0 j false w mark []).
  assert (Hnv : ∀ t, ¬ visited mark s t).
  { intros t. unfold visited. destruct (trxs s !! t) as [trx|] eqn:Ht; [|by intros []]. assert (H := to_mark _ _ _ _ _ (inv_trx _ _ _ Hinv _ _ Ht)). unfold mark. lia. }
  assert (Hun : unvisited mark s = dom (trxs s)).
  { apply set_eq. intros t. unfold unvisited. rewrite elem_of_filter. split; [by intros []|]. intros Ht. split; [apply Hnv|done]. }
  assert (Hself := elem_queue_of_self _ _ Hw Hone).
  assert (Hso : search_ok j mark s c (queue_of s w)).
  { split; [done..| |done|done| |done|].
    - rewrite Hun, size_dom. unfold mark in *. lia.
    - intros x l _ _ Hv. by destruct (Hnv (lock_trx x)).
    - destruct (queue_of s w) as [|f q] eqn:Hq; [set_solver|]. split; [|apply Hnv].
      split; [done|done|done|by left|apply Hnv|done|]. exists []. split; [done|set_solver]. }
  unfold search. erewrite bind_Ok by (apply (get_first_lock_Ok (Some j) s c); done).
  apply (search_loop_ok j mark); [done|]. unfold search_measure, search_fuel. cbn [s_states c sum_list_with].
  assert (Hlq := length_queue_of s w (inv_hash _ _ _ Hinv)).
  assert (Hfr : size (fresh_trxs mark s c) ≤ size (trxs s)).
  { rewrite <-size_dom, <-Hun. apply subseteq_size. unfold fresh_trxs. set_solver. }
  change (m_wait_lock c) with w. nia.
Qed.

End config.
