(* ===== verification/InnoResolve.v ===== *)
(** Deadlock resolution of InnoDB: [trx_rollback] of [DeadlockChecker] and the loop of
    [check_and_resolve], which searches and rolls back until the joining transaction is on
    no cycle of the waits-for graph, or is the victim itself. *)
From stdpp Require Import functions base tactics numbers option list list_numbers gmap sets relations sorting.
From Stdlib Require Import ZArith Lia.
From S2P Require Import Prelude InnoMode InnoSys InnoQueue InnoInv InnoGrant InnoDeadlock InnoSearch.

Lemma evolves_num d G s s' l :
  hash_ok s → hash_ok s' → evolves d G s s' → has_lock s l → lock_id l ∈ d → num_locks s' < num_locks s.
Proof.
  intros Hok Hok' Hev Hl Hd. unfold num_locks.
  rewrite <-(length_map lock_id (concat (rec_hash s'))), <-(length_map lock_id (concat (rec_hash s))).
  apply Nat.lt_le_trans with (length (lock_id l :: map lock_id (concat (rec_hash s')))); [simpl; lia|].
  assert (Hin : ∀ x, x ∈ concat (rec_hash s') → ∃ y, has_lock s y ∧ lock_id y ∉ d ∧ lock_id x = lock_id y).
  { intros x Hx%has_lock_concat; [|done]. apply (evolves_has _ _ _ _ _ Hev) in Hx as (y & Hy & Hyd & ->). exists y. by rewrite evo_id. }
  apply submseteq_length, NoDup_submseteq.
  - apply NoDup_cons. split; [|apply Hok']. intros (x & Hid & Hx)%list_elem_of_fmap. apply Hin in Hx as (y & _ & Hyd & He). congruence.
  - intros id [->|(x & -> & Hx)%list_elem_of_fmap]%elem_of_cons.
    + apply elem_ids. by apply has_lock_concat.
    + apply Hin in Hx as (y & Hy & _ & ->). apply elem_ids. by apply has_lock_concat.
Qed.

Lemma evolves_queue_of d G s s' w : evolves d G s s' → queue_of s' (evo G w) = map (evo G) (filter (λ l, lock_id l ∉ d) (queue_of s w)).
Proof.
  intros Hev. unfold queue_of, rec_locks. rewrite (shape_find _ _ (evo_shape G w)).
  destruct (lock_rec_find_set_bit w) as [h|]; [|done].
  rewrite (shape_space _ _ (evo_shape G w)), (shape_page _ _ (evo_shape G w)), (ev_page _ _ _ _ Hev).
  rewrite (filter_map_evo (λ l, lock_rec_get_nth_bit l h = true) (λ l, lock_rec_get_nth_bit l h = true)); [by rewrite filter_comm|].
  intros l. by rewrite (shape_bit _ _ _ (evo_shape G l)).
Qed.

Lemma evolves_size d G s s' : evolves d G s s' → size (trxs s') = size (trxs s).
Proof. intros Hev. rewrite <-!size_dom. by rewrite (ev_trxs _ _ _ _ Hev). Qed.

Section config.
  Context (cfg : config).

(** The lock [id] that the transaction [j] has requested, at the end of its queue. It may
    have been granted by the rollback of another transaction. *)
Definition joins (j id : nat) (s : lock_sys_t) : Prop :=
  ∃ w q, has_lock s w ∧ lock_id w = id ∧ lock_trx w = j ∧ one_bit w ∧ page_locks s (space w) (page_no w) = q ++ [w] ∧
    (lock_get_wait w = true ∨ (blockers cfg s w = [] ∧ running s j)) ∧ ahead id (queue_of s w) ≠ [].

(** Something stays ahead of the joining lock: a waiting lock has itself something ahead. *)
Lemma ahead_evolves d G s s' w v :
  hash_ok s → evolves d G s s' → has_lock s w → one_bit w → lock_id w ∉ d →
  has_lock s v → one_bit v → d = {[lock_id v]} → ahead (lock_id v) (queue_of s v) ≠ [] →
  ahead (lock_id w) (queue_of s w) ≠ [] → ahead (lock_id w) (queue_of s' (evo G w)) ≠ [].
Proof.
  intros Hok Hev Hw Hone Hwd Hv Hvone -> Hvah Hah. rewrite (evolves_queue_of _ _ _ _ _ Hev), ahead_map by apply evo_id.
  rewrite ahead_filter by (intros ? _ ->; done). destruct (ahead (lock_id w) (queue_of s w)) as [|x xs] eqn:Hx; [done|].
  assert (Hex : ∃ y, y ∈ ahead (lock_id w) (queue_of s w) ∧ lock_id y ≠ lock_id v).
  { destruct (decide (lock_id x = lock_id v)) as [He|Hne]; [|exists x; rewrite Hx; set_solver].
    assert (Hxin : x ∈ ahead (lock_id w) (queue_of s w)) by (rewrite Hx; set_solver).
    destruct (elem_ahead _ _ _ Hxin) as [Hxq _]. destruct (elem_queue_of _ _ _ Hxq) as [Hxs [Hsp Hpg]].
    assert (x = v) as -> by (by apply (lock_id_inj s)).
    destruct (ahead (lock_id v) (queue_of s v)) as [|y ys] eqn:Hy; [done|]. assert (Hyin : y ∈ ahead (lock_id v) (queue_of s v)) by (rewrite Hy; set_solver).
    exists y. split; [|by apply elem_ahead in Hyin as []]. eapply ahead_trans; [|exact Hxin].
    replace (queue_of s w) with (queue_of s v); [done|]. unfold queue_of in *. rewrite Hsp, Hpg.
    destruct (one_bit_find _ Hone) as (h & Hf & _), (one_bit_find _ Hvone) as (h' & Hf' & _ & Hu). rewrite Hf in *. rewrite Hf'.
    unfold rec_locks in Hxq. apply list_elem_of_filter in Hxq as [Hb _]. by rewrite (Hu h Hb). }
  destruct Hex as (y & Hy & Hne). rewrite Hx in Hy. intros Hnil%fmap_nil_inv.
  assert (Hin : y ∈ filter (λ l, lock_id l ∉ ({[lock_id v]} : gset nat)) (x :: xs)) by (apply list_elem_of_filter; set_solver).
  rewrite Hnil in Hin. by apply elem_of_nil in Hin.
Qed.

Lemma set_victim_session b : session_change (set_victim b).
Proof. by intros t. Qed.

(** The wait of another transaction is cancelled. *)
Lemma joins_evolves G s s' j id v :
  inv (Some j) None s → inv (Some j) None s' → all_settled cfg s → evolves {[lock_id v]} G s s' → has_lock s v → lock_get_wait v = true → lock_trx v ≠ j →
  (∀ w, has_lock s w → lock_id w ≠ lock_id v → lock_id w ∈ G → lock_get_wait w = true ∧ blockers cfg s' (evo G w) = []) →
  joins j id s → joins j id s'.
Proof.
  intros Hinv Hinv' Hset Hev Hv Hvw Hvj HG (w & q & Hw & Hid & Hj & Hone & Hq & Hwait & Hah).
  assert (Hne : lock_id w ≠ lock_id v). { intros He. apply Hvj. rewrite <-Hj. f_equal. symmetry. by apply (lock_id_inj s); [apply Hinv|..]. }
  assert (Hw' : has_lock s' (evo G w)) by (apply (evolves_has _ _ _ _ _ Hev); exists w; set_solver).
  exists (evo G w), (map (evo G) (filter (λ l, lock_id l ∉ ({[lock_id v]} : gset nat)) q)). rewrite evo_id, evo_trx. split_and!; [done..| | | |].
  - by apply (one_bit_shape _ w); [apply evo_shape|].
  - rewrite (shape_space _ _ (evo_shape G w)), (shape_page _ _ (evo_shape G w)), (ev_page _ _ _ _ Hev), Hq, filter_app, map_app.
    by rewrite (filter_cons _ w), decide_True by set_solver.
  - destruct (lock_get_wait (evo G w)) eqn:Hww; [by left|right]. destruct Hwait as [Hwait|[Hb Hr]].
    + destruct (decide (lock_id w ∈ G)) as [HwG|HwG]; [|by rewrite evo_other, Hwait in Hww]. split; [by apply HG|].
      destruct (inv_trx_of _ _ _ _ Hinv' Hw') as (trx & Ht & _). rewrite evo_trx, Hj in Ht. exists trx. split; [done|].
      destruct (wait_lock trx) as [i|] eqn:Hi; [|done]. exfalso.
      destruct (to_wait _ _ _ _ _ (inv_trx _ _ _ Hinv' _ _ Ht) _ Hi) as (l' & Hl' & _ & Hlj & Hlw); [done|].
      apply (evolves_has _ _ _ _ _ Hev) in Hl' as (l & Hl & _ & ->). rewrite evo_trx in Hlj. apply evo_wait in Hlw as [Hlw HlG].
      assert (l = w) as -> by (eapply inv_wait_unique; [exact Hinv|done..|congruence]). done.
    + split; [|by apply (evolves_running (Some j) None None {[lock_id v]} G s s')].
      rewrite (evolves_blockers cfg {[lock_id v]} G s); [by rewrite Hb|apply Hinv|done|done|set_solver].
  - rewrite <-Hid. rewrite <-Hid in Hah. eapply (ahead_evolves _ _ s s' w v); [apply Hinv|done|done|done|set_solver|done| |done| |done].
    + by apply (inv_lock _ _ _ Hinv).
    + by eapply (settled_ahead cfg).
Qed.

Lemma rollback_Ok s j id v c :
  (∀ t, uses_vats cfg t = false) → inv (Some j) None s → all_settled cfg s → joins j id s →
  m_wait_lock c = v → has_lock s v → lock_get_wait v = true → lock_trx v ≠ j →
  ∃ s' G, trx_rollback cfg c s = Ok (tt, s') ∧ inv (Some j) None s' ∧ all_settled cfg s' ∧ joins j id s' ∧
    evolves {[lock_id v]} G s s' ∧ num_locks s' < num_locks s ∧ s_lock_mark_counter s' = s_lock_mark_counter s.
Proof.
  intros Hvats Hinv Hset Hj Hc Hv Hvw Hvj. set (s1 := update_trx (lock_trx v) (set_victim true) s).
  assert (Hinv1 : inv (Some j) None s1) by (apply inv_session; [apply set_victim_session|done]).
  destruct (cancel_Ok cfg (Some j) s1 v) as (s' & G & Hrun & Hinv' & Hset' & Hev & Hcnt & HG); [done|congruence|done..|]. exists s', G.
  assert (Hev' : evolves {[lock_id v]} G s s').
  { replace ({[lock_id v]} : gset nat) with (∅ ∪ {[lock_id v]} : gset nat) by set_solver. replace G with (∅ ∪ G) by set_solver.
    eapply evolves_trans; [|done]. apply evolves_session, set_victim_session. }
  split_and!; [|done..| |done| |done].
  - unfold trx_rollback. rewrite Hc. erewrite bind_Ok by done. fold s1. erewrite bind_Ok by done.
    destruct (inv_trx_of _ _ _ _ Hinv1 Hv) as (trx & Ht & _ & Hw). erewrite deref_Some by done. erewrite bind_Ok by done.
    rewrite Hw by done. erewrite deref_Some by (apply get_lock_Some; [apply Hinv1|done]). done.
  - by apply (joins_evolves G s s' j id v).
  - eapply (evolves_num _ _ s s' v); [apply Hinv|apply Hinv'|done|done|set_solver].
Qed.

(** ** The loop *)

Lemma joins_same_hash j id s s' : rec_hash s' = rec_hash s → (running s j → running s' j) → joins j id s → joins j id s'.
Proof.
  destruct s, s'. intros He Hr (w & q & Hw & Hid & Hj & Hone & Hq & Hwait & Hah). simpl in He. subst.
  exists w, q. split_and!; [done..| |done]. destruct Hwait as [?|[? ?]]; [by left|right]. split; [done|by apply Hr].
Qed.

Lemma acyclic_but_mono j s s' : (∀ a b, waits_for cfg s' a b → waits_for cfg s a b) → acyclic_but cfg j s → acyclic_but cfg j s'.
Proof.
  intros Hsub Hac t Htc. apply (Hac t). revert Htc. apply (tc_congruence id). intros a b [? ?]. split; [done|by apply Hsub].
Qed.

(** The marks that the searches to come can set do not overflow the counter. *)
Definition mark_room (s : lock_sys_t) : Prop :=
  (0 ≤ s_lock_mark_counter s ∧ s_lock_mark_counter s + Z.of_nat ((num_locks s + 1) * size (trxs s)) < 2 ^ 64)%Z.

Lemma search_joins s j id :
  inv (Some j) None s → all_settled cfg s → acyclic_but cfg j s → joins j id s → mark_room s →
  ∃ w r s', get_lock s id = Some w ∧ search cfg (mk_checker 0 j false w (s_lock_mark_counter s) []) s = Ok (r, s') ∧
    search_result cfg j s' r ∧ inv (Some j) None s' ∧ all_settled cfg s' ∧ joins j id s' ∧ evolves ∅ ∅ s s' ∧
    rec_hash s' = rec_hash s ∧
    (0 ≤ s_lock_mark_counter s' ≤ s_lock_mark_counter s + Z.of_nat (size (trxs s)))%Z.
Proof.
  intros Hinv Hset Hac Hj [Hc1 Hc2]. assert (Hj' := Hj). destruct Hj as (w & q & Hw & Hid & Htrx & Hone & Hq & Hwait & Hah).
  destruct (search_Ok cfg s w) as (r & s' & Hrun & Hres & Has & Hinv' & Hset'); rewrite ?Htrx, ?Hid; try done. { nia. }
  rewrite Htrx in *. exists w, r, s'. destruct Has as [Hh Hev Hle Hb]. split_and!; try done.
  - rewrite <-Hid. apply get_lock_Some; [apply Hinv|done].
  - apply (joins_same_hash _ _ s); [done| |done]. by apply (evolves_running (Some j) None None ∅ ∅ s s').
  - lia.
  - assert (size (unvisited (s_lock_mark_counter s) s) ≤ size (trxs s)); [|lia].
    rewrite <-size_dom. apply subseteq_size. unfold unvisited. set_solver.
Qed.

(** A state in which [check_and_resolve] searches for the lock at [id] of [j]. *)
Record searchable (j id : nat) (s : lock_sys_t) : Prop := mk_searchable {
  sr_inv : inv (Some j) None s;
  sr_settled : all_settled cfg s;
  sr_acyclic : acyclic_but cfg j s;
  sr_joins : joins j id s;
  sr_room : mark_room s;
}.

(** A victim other than [j] is rolled back, and the next search can start. *)
Lemma rollback_searchable s j id w v c s1 :
  (∀ t, uses_vats cfg t = false) → searchable j id s → get_lock s id = Some w →
  search cfg (mk_checker 0 j false w (s_lock_mark_counter s) []) s = Ok ((Some v, c), s1) → is_too_deep c = false → v ≠ j →
  ∃ s2 G, trx_rollback cfg c s1 = Ok (tt, s2) ∧ searchable j id s2 ∧ evolves {[lock_id (m_wait_lock c)]} G s s2 ∧ num_locks s2 < num_locks s.
Proof.
  intros Hvats [Hinv Hset Hac Hj Hroom] Hget Hrun Hdeep Hvj.
  destruct (search_joins s j id) as (w' & r & s' & Hget' & Hrun' & Hres & Hinv1 & Hset1 & Hj1 & Hev1 & Hh & Hc1); [done..|].
  assert (w' = w) as -> by congruence. rewrite Hrun in Hrun'. injection Hrun' as <- <-.
  destruct Hres as [Hres|(Hv & Hvw & _ & _ & Hveq)]; [congruence|]. destruct Hveq as [?|Hveq]; [done|].
  destruct (rollback_Ok s1 j id (m_wait_lock c) c) as (s2 & G & Hrb & Hinv2 & Hset2 & Hj2 & Hev2 & Hnum & Hcnt); [done..|congruence|].
  assert (Hnum1 : num_locks s1 = num_locks s) by (unfold num_locks; by rewrite Hh).
  assert (Hevs : evolves ({[lock_id (m_wait_lock c)]}) G s s2).
  { replace ({[lock_id (m_wait_lock c)]} : gset nat) with (∅ ∪ {[lock_id (m_wait_lock c)]} : gset nat) by set_solver.
    replace G with (∅ ∪ G) by set_solver. by eapply evolves_trans. }
  exists s2, G. split_and!; [done| |done|lia]. split; [done|done| |done|].
  - eapply acyclic_but_mono; [|done]. intros a b. eapply evolves_waits_for; [apply Hinv|done].
  - destruct Hroom as [_ Hroom]. split; [lia|]. rewrite Hcnt, (evolves_size _ _ _ _ Hevs).
    assert ((num_locks s2 + 1) * size (trxs s) + size (trxs s) ≤ (num_locks s + 1) * size (trxs s)); [|lia].
    rewrite <-(Nat.mul_1_l (size (trxs s))) at 2. rewrite <-Nat.mul_add_distr_r. apply Nat.mul_le_mono_r. lia.
Qed.

Lemma resolve_loop_Ok n s j id :
  (∀ t, uses_vats cfg t = false) → searchable j id s → num_locks s < n →
  ∃ v s' d G, resolve_loop cfg n id j s = Ok (v, s') ∧ inv (Some j) None s' ∧ all_settled cfg s' ∧ joins j id s' ∧ evolves d G s s' ∧
    (0 ≤ s_lock_mark_counter s')%Z ∧ (v = None → ¬ tc (waits_for cfg s') j j).
Proof.
  intros Hvats. revert s. induction n as [|n IH]; intros s Hsr Hn; [lia|]. cbn [resolve_loop]. assert (Hsr' := Hsr). destruct Hsr' as [Hinv Hset Hac Hj Hroom].
  destruct (search_joins s j id) as (w & [v c] & s1 & Hget & Hrun & Hres & Hinv1 & Hset1 & Hj1 & Hev1 & Hh & Hc1); [done..|].
  erewrite bind_Ok by done. erewrite bind_Ok by done. erewrite deref_Some by done. erewrite bind_Ok by done. cbn beta iota.
  assert (Hend : ∃ v' s' d G, Ok (v, s1) = Ok (v', s') ∧ inv (Some j) None s' ∧ all_settled cfg s' ∧ joins j id s' ∧ evolves d G s s' ∧
            (0 ≤ s_lock_mark_counter s')%Z ∧ (v' = None → ¬ tc (waits_for cfg s') j j)).
  { exists v, s1, ∅, ∅. split_and!; [done..|lia|]. intros ->. done. }
  destruct (is_too_deep c) eqn:Hdeep; [done|]. destruct v as [v|]; [|done].
  destruct (Nat.eqb_spec v j) as [->|Hvj]; [done|]. clear Hend.
  destruct (rollback_searchable s j id w v c s1) as (s2 & G & Hrb & Hsr2 & Hevs & Hnum); [done..|]. erewrite bind_Ok by done.
  destruct (IH s2) as (v' & s' & d & G' & Hr & Hrest); [done|lia|].
  exists v', s', ({[lock_id (m_wait_lock c)]} ∪ d), (G ∪ G'). destruct Hrest as (H1 & H2 & H3 & H4 & H5 & H6).
  split_and!; [done..| |done|done]. by eapply evolves_trans.
Qed.

Lemma check_and_resolve_Ok s j id :
  (∀ t, uses_vats cfg t = false) → inv (Some j) None s → all_settled cfg s →
  (innobase_deadlock_detect cfg = true → acyclic_but cfg j s) → joins j id s → mark_room s →
  ∃ v s' d G, check_and_resolve cfg id j s = Ok (v, s') ∧ inv (Some j) None s' ∧ all_settled cfg s' ∧ joins j id s' ∧ evolves d G s s' ∧
    (0 ≤ s_lock_mark_counter s')%Z ∧ (v = None → innobase_deadlock_detect cfg = true → ¬ tc (waits_for cfg s') j j).
Proof.
  intros Hvats Hinv Hset Hac Hj Hroom. assert (Hj' := Hj). destruct Hj as (w & q & Hw & Hid & Htrx & _).
  destruct (inv_trx_of _ _ _ _ Hinv Hw) as (trx & Ht & _). rewrite Htrx in Ht. unfold check_and_resolve.
  erewrite bind_Ok, deref_Some by done. assert (Hc : (0 ≤ s_lock_mark_counter s)%Z) by apply Hroom.
  destruct (force_rollback_async trx); [exists (Some j), s, ∅, ∅; split_and!; [done..|apply evolves_refl|done|done]|].
  destruct (innobase_deadlock_detect cfg) eqn:Hd; cbn [negb].
  - erewrite bind_Ok by done. destruct (resolve_loop_Ok (S (num_locks s)) s j id) as (v & s' & d & G & H); [done|split; [done|done|by apply Hac|done..]|lia|].
    destruct_and! H. exists v, s', d, G. split_and!; try done. intros Hv _. auto.
  - exists None, s, ∅, ∅. split_and!; [done..|apply evolves_refl|done|done].
Qed.

End config.
