(* ===== verification/InnoRequest.v ===== *)
(** Requests for record locks in InnoDB (project 4): [RecLock] and the functions of
    [lock0lock.cc] that lock a record, check an insert and unlock a record. *)
From stdpp Require Import functions base tactics numbers option list list_numbers gmap sets relations sorting.
From Stdlib Require Import ZArith Lia.
From S2P Require Import Prelude InnoMode InnoSys InnoDeadlock.

(** What the lock manager reads of a page: its place and the number of records in its heap. *)
Record buf_block_t : Type := mk_block {
  block_space : Z;
  block_page_no : Z;
  page_dir_get_n_heap : nat;
}.

Inductive lock_rec_req_status : Type := LOCK_REC_FAIL | LOCK_REC_SUCCESS | LOCK_REC_SUCCESS_CREATED.

(** The request: the transaction, the record, the mode; [m_node] is the address at which
    a lock is allocated, if one is needed. *)
Record RecLock : Type := mk_rec_lock {
  m_trx : nat;
  m_mode : Z;
  m_block : buf_block_t;
  m_heap_no : nat;
  m_node : nat;
}.

Definition LOCK_PAGE_BITMAP_MARGIN : nat := 64.

Definition lock_size (b : buf_block_t) : nat := 1 + (page_dir_get_n_heap b + LOCK_PAGE_BITMAP_MARGIN) / 8.

(** All locks on the supremum are of the gap type. *)
Definition supremum_mode (heap_no : nat) (mode : Z) : Z :=
  if heap_no =? PAGE_HEAP_NO_SUPREMUM then Z.ldiff mode (Z.lor LOCK_GAP LOCK_REC_NOT_GAP) else mode.

(** The constructor with [init]. *)
Definition rec_lock_init (trx : nat) (block : buf_block_t) (heap_no : nat) (mode : Z) (node : nat) : RecLock :=
  mk_rec_lock trx (supremum_mode heap_no mode) block heap_no node.

Definition lock_alloc (r : RecLock) : lock_t :=
  let size := lock_size (m_block r) in
  let lock := mk_lock (m_node r) (m_trx r) (Z.lor LOCK_REC (Z.ldiff (m_mode r) LOCK_TYPE_MASK))
                (block_space (m_block r)) (block_page_no (m_block r)) (8 * size) (replicate size 0%Z) in
  lock_rec_set_nth_bit lock (m_heap_no r).

(** ** The order of the queue under VATS *)

Definition start_time (s : lock_sys_t) (t : nat) : Z := from_option start_time_micro 0%Z (trxs s !! t).

Definition has_higher_priority (s : lock_sys_t) (lock1 lock2 : option lock_t) : bool :=
  match lock1, lock2 with
  | None, _ => false
  | _, None => true
  | Some lock1, Some lock2 =>
      if negb (lock_get_wait lock1) then true
      else if negb (lock_get_wait lock2) then false
      else (start_time s (lock_trx lock1) <=? start_time s (lock_trx lock2))%Z
  end.

(** The locks behind [node], with [in_lock] behind those of a higher priority. *)
Fixpoint insert_by_age (s : lock_sys_t) (in_lock : lock_t) (rest : list lock_t) : list lock_t :=
  match rest with
  | next :: rest' =>
      if has_higher_priority s (Some next) (Some in_lock) then next :: insert_by_age s in_lock rest' else in_lock :: rest
  | [] => [in_lock]
  end.

Section config.
  Context (cfg : config).

Definition lock_rec_insert_by_trx_age (in_lock : lock_t) : LS dberr_t :=
  i ← gets (λ s, lock_hash s in_lock);
  chain ← gets (λ s, cell s i);
  s ← gets id;
  if bool_decide (chain = []) || negb (lock_get_wait in_lock) || has_higher_priority s (Some in_lock) (head chain) then
    _ ← modify (λ s, set_rec_hash (<[i := in_lock :: chain]> (rec_hash s)) s);
    if lock_get_wait in_lock then _ ← lock_grant in_lock; mret DB_SUCCESS_LOCKED_REC
    else mret DB_SUCCESS
  else
    _ ← modify (λ s, set_rec_hash (<[i := take 1 chain ++ insert_by_age s in_lock (drop 1 chain)]> (rec_hash s)) s);
    w ← (if lock_get_wait in_lock then lock_rec_has_to_wait_in_queue cfg in_lock else mret (Some in_lock));
    match w with
    | None =>
        _ ← lock_grant in_lock;
        _ ← modify (λ s, set_rec_hash (<[i := granted in_lock :: chain]> (rec_hash s)) s);
        mret DB_SUCCESS_LOCKED_REC
    | Some _ => mret DB_SUCCESS
    end.

(** ** Creating a lock *)

Definition lock_add (r : RecLock) (lock : lock_t) : LS unit :=
  let wait_lock := has_flag (m_mode r) LOCK_WAIT in
  _ ← modify (if uses_vats cfg (lock_trx lock) && negb wait_lock then lock_rec_insert_to_head lock else hash_insert lock);
  _ ← (if wait_lock then lock_set_lock_and_trx_wait lock else mret tt);
  modify (update_trx (lock_trx lock) (λ t, set_trx_locks (trx_locks t ++ [lock_id lock]) t)).

Definition create (r : RecLock) : LS lock_t :=
  let lock := lock_alloc r in
  _ ← lock_add r lock;
  mret lock.

Definition check_deadlock_result (r : RecLock) (victim_trx : option nat) (lock : lock_t) : LS dberr_t :=
  match victim_trx with
  | Some _ =>
      _ ← lock_reset_lock_and_trx_wait lock;
      _ ← modify (update_lock (lock_id lock) (λ l, lock_rec_reset_nth_bit l (m_heap_no r)));
      mret DB_DEADLOCK
  | None =>
      t ← gets (λ s, trxs s !! m_trx r);
      t ← deref t;
      mret (if wait_lock t then DB_LOCK_WAIT else DB_SUCCESS_LOCKED_REC)
  end.

Definition set_wait_state (r : RecLock) : LS unit :=
  _ ← modify (update_trx (m_trx r) (λ t, set_victim false (set_que_state TRX_QUE_LOCK_WAIT t)));
  t ← gets (λ s, trxs s !! m_trx r);
  t ← deref t;
  let '(stopped, thr) := que_thr_stop (que_state t) (duplicates t) (trx_thr t) in
  _ ← modify (update_trx (m_trx r) (set_trx_thr thr));
  assert_ stopped.

Definition deadlock_check (r : RecLock) (lock : lock_t) : LS dberr_t :=
  victim_trx ← check_and_resolve cfg (lock_id lock) (m_trx r);
  err ← check_deadlock_result r victim_trx lock;
  _ ← (if decide (err = DB_LOCK_WAIT) then set_wait_state r else mret tt);
  mret err.

(** [prepare]: there is no other reason to suspend the thread. *)
Definition prepare (r : RecLock) : LS unit :=
  t ← gets (λ s, trxs s !! m_trx r);
  t ← deref t;
  assert_ (negb (fst (que_thr_stop (que_state t) (duplicates t) (trx_thr t)))).

Definition add_to_waitq (r : RecLock) : LS dberr_t :=
  let r := mk_rec_lock (m_trx r) (Z.lor (m_mode r) LOCK_WAIT) (m_block r) (m_heap_no r) (m_node r) in
  _ ← prepare r;
  lock ← create r;
  err ← deadlock_check r lock;
  if bool_decide (err ≠ DB_DEADLOCK) && uses_vats cfg (lock_trx lock) then
    lock ← gets (λ s, get_lock s (lock_id lock));
    lock ← deref lock;
    _ ← hash_delete lock;
    res ← lock_rec_insert_by_trx_age lock;
    mret (if decide (res = DB_SUCCESS) then err else res)
  else mret err.

(** A lock of the transaction on the page that only needs one more bit. *)
Definition lock_rec_find_similar_on_page (type_mode : Z) (heap_no : nat) (lock : list lock_t) (trx : nat) : option lock_t :=
  List.find (λ l, (lock_trx l =? trx) && (InnoMode.type_mode l =? type_mode)%Z && (heap_no <? n_bits l)) lock.

Definition lock_rec_add_to_queue (type_mode : Z) (block : buf_block_t) (heap_no trx node : nat) : LS unit :=
  let type_mode := supremum_mode heap_no (Z.lor type_mode LOCK_REC) in
  first_lock ← gets (λ s, page_locks s (block_space block) (block_page_no block));
  let waiting := existsb (λ lock, lock_get_wait lock && lock_rec_get_nth_bit lock heap_no) first_lock in
  let similar := if negb waiting && negb (has_flag type_mode LOCK_WAIT)
                 then lock_rec_find_similar_on_page type_mode heap_no first_lock trx else None in
  match similar with
  | Some lock => modify (update_lock (lock_id lock) (λ l, lock_rec_set_nth_bit l heap_no))
  | None => _ ← create (rec_lock_init trx block heap_no type_mode node); mret tt
  end.

(** ** Locking a record *)

Definition lock_rec_lock_fast (impl : bool) (mode : Z) (block : buf_block_t) (heap_no trx node : nat) : LS lock_rec_req_status :=
  locks ← gets (λ s, page_locks s (block_space block) (block_page_no block));
  match locks with
  | [] =>
      _ ← (if impl then mret tt else _ ← create (rec_lock_init trx block heap_no mode node); mret tt);
      mret LOCK_REC_SUCCESS_CREATED
  | lock :: rest =>
      if bool_decide (rest ≠ []) || negb (lock_trx lock =? trx) || negb (type_mode lock =? Z.lor mode LOCK_REC)%Z || (n_bits lock <=? heap_no)
      then mret LOCK_REC_FAIL
      else if negb impl && negb (lock_rec_get_nth_bit lock heap_no) then
        _ ← modify (update_lock (lock_id lock) (λ l, lock_rec_set_nth_bit l heap_no));
        mret LOCK_REC_SUCCESS_CREATED
      else mret LOCK_REC_SUCCESS
  end.

Definition lock_rec_lock_slow (impl : bool) (mode : Z) (block : buf_block_t) (heap_no trx node : nat) : LS dberr_t :=
  s ← gets id;
  if lock_rec_has_expl s mode (block_space block) (block_page_no block) heap_no trx then mret DB_SUCCESS
  else if lock_rec_other_has_conflicting cfg s mode (block_space block) (block_page_no block) heap_no trx then
    add_to_waitq (rec_lock_init trx block heap_no mode node)
  else if negb impl then
    _ ← lock_rec_add_to_queue (Z.lor LOCK_REC mode) block heap_no trx node;
    mret DB_SUCCESS_LOCKED_REC
  else mret DB_SUCCESS.

Definition lock_rec_lock (impl : bool) (mode : Z) (block : buf_block_t) (heap_no trx node : nat) : LS dberr_t :=
  status ← lock_rec_lock_fast impl mode block heap_no trx node;
  match status with
  | LOCK_REC_SUCCESS => mret DB_SUCCESS
  | LOCK_REC_SUCCESS_CREATED => mret DB_SUCCESS_LOCKED_REC
  | LOCK_REC_FAIL => lock_rec_lock_slow impl mode block heap_no trx node
  end.

(** The locking of [lock_rec_insert_check_and_lock] on the record after the insert. *)
Definition lock_rec_insert_check_and_lock (block : buf_block_t) (heap_no trx node : nat) : LS dberr_t :=
  s ← gets id;
  match rec_locks s (block_space block) (block_page_no block) heap_no with
  | [] => mret DB_SUCCESS
  | _ =>
      let type_mode := Z.lor (Z.lor LOCK_X LOCK_GAP) LOCK_INSERT_INTENTION in
      if lock_rec_other_has_conflicting cfg s type_mode (block_space block) (block_page_no block) heap_no trx then
        err ← add_to_waitq (rec_lock_init trx block heap_no type_mode node);
        mret (if decide (err = DB_SUCCESS_LOCKED_REC) then DB_SUCCESS else err)
      else mret DB_SUCCESS
  end.

(** ** Unlocking a record *)

(** The loop of [lock_grant_and_move_on_rec], as in [grant_and_move_loop]. *)
Fixpoint grant_and_move_rec_loop (sp pg : Z) (heap_no i : nat) (before rest : list lock_t) : LS unit :=
  match rest with
  | [] => mret tt
  | lock :: rest =>
      w ← (if bool_decide (on_page sp pg lock) && lock_rec_get_nth_bit lock heap_no && lock_get_wait lock
           then lock_rec_has_to_wait_in_queue cfg lock else mret (Some lock));
      match w with
      | None =>
          _ ← lock_grant lock;
          let lock := granted lock in
          _ ← modify (λ s, set_rec_hash (<[i := lock :: before ++ rest]> (rec_hash s)) s);
          grant_and_move_rec_loop sp pg heap_no i (lock :: before) rest
      | Some _ => grant_and_move_rec_loop sp pg heap_no i (before ++ [lock]) rest
      end
  end.

(** The part of a chain before a lock, and the part from it on. *)
Fixpoint split_at_lock (id : nat) (chain : list lock_t) : list lock_t * list lock_t :=
  match chain with
  | [] => ([], [])
  | l :: chain => if decide (lock_id l = id) then ([], l :: chain)
                  else let '(before, rest) := split_at_lock id chain in (l :: before, rest)
  end.

Definition lock_grant_and_move_on_rec (first_lock : lock_t) (heap_no : nat) : LS unit :=
  i ← gets (λ s, lock_hash s first_lock);
  chain ← gets (λ s, cell s i);
  let '(before, rest) := split_at_lock (lock_id first_lock) chain in
  grant_and_move_rec_loop (space first_lock) (page_no first_lock) heap_no i before rest.

(** The first lock may have lost its bit; it is looked at all the same. *)
Definition lock_rec_unlock (trx : nat) (block : buf_block_t) (heap_no : nat) (mode : Z) : LS unit :=
  locks ← gets (λ s, rec_locks s (block_space block) (block_page_no block) heap_no);
  match List.find (λ l, (lock_trx l =? trx) && (lock_get_mode l =? mode)%Z) locks with
  | None => mret tt
  | Some lock =>
      _ ← assert_ (negb (lock_get_wait lock));
      _ ← modify (update_lock (lock_id lock) (λ l, lock_rec_reset_nth_bit l heap_no));
      if negb (uses_vats cfg (lock_trx lock)) then
        let locks := map (upd (lock_id lock) (λ l, lock_rec_reset_nth_bit l heap_no)) locks in
        grant_loop cfg (take 1 locks ++ filter (λ l, lock_rec_get_nth_bit l heap_no = true) (drop 1 locks))
      else
        first_lock ← deref (head locks);
        lock_grant_and_move_on_rec first_lock heap_no
  end.

(** ** Ending a wait *)

(** Called when the thread of the transaction finds that it should not wait any longer. *)
Definition lock_trx_handle_wait (trx : nat) : LS dberr_t :=
  t ← gets (λ s, trxs s !! trx);
  t ← deref t;
  if was_chosen_as_deadlock_victim t then mret DB_DEADLOCK
  else match wait_lock t with
       | Some id =>
           lock ← gets (λ s, get_lock s id);
           lock ← deref lock;
           _ ← lock_cancel_waiting_and_release cfg lock;
           mret DB_LOCK_WAIT
       | None => mret DB_SUCCESS
       end.

(** Called for each waiting thread every second; [expired] is whether the transaction has
    been interrupted or its wait has timed out. *)
Definition lock_wait_check_and_cancel (expired : bool) (trx : nat) : LS unit :=
  if expired then
    t ← gets (λ s, trxs s !! trx);
    t ← deref t;
    match wait_lock t with
    | Some id =>
        _ ← assert_ (bool_decide (que_state t = TRX_QUE_LOCK_WAIT));
        lock ← gets (λ s, get_lock s id);
        lock ← deref lock;
        lock_cancel_waiting_and_release cfg lock
    | None => mret tt
    end
  else mret tt.

End config.
