(* ===== verification/InnoMove.v ===== *)
(** Moving and inheriting record locks in InnoDB (project 4): what [lock0lock.cc] does with
    the locks when records are inserted, removed or moved to other pages.

    The order of the records on a page is an argument, as a list of heap numbers; the
    functions of [page0page.ic] that walk along it are not modelled. The loops over the
    locks of a record or page add locks only for other records, so that they see the locks
    that were there at the start. *)
From stdpp Require Import functions base tactics numbers option list list_numbers gmap sets relations sorting.
From Stdlib Require Import ZArith Lia.
From S2P Require Import Prelude InnoMode InnoSys InnoDeadlock InnoRequest.

Definition PAGE_HEAP_NO_INFIMUM : nat := 0.

Definition TRX_ISO_READ_COMMITTED : Z := 1.

Fixpoint for_each {A} (f : A → LS unit) (q : list A) : LS unit :=
  match q with
  | [] => mret tt
  | x :: q => _ ← f x; for_each f q
  end.

(** The address of a new lock: one that is not in use. *)
Definition new_address (s : lock_sys_t) : nat := S (max_list (map lock_id (concat (rec_hash s)))).

Section config.
  Context (cfg : config).

Definition add_to_queue (type_mode : Z) (block : buf_block_t) (heap_no trx : nat) : LS unit :=
  node ← gets new_address;
  lock_rec_add_to_queue cfg type_mode block heap_no trx node.

(** ** Ending requests *)

Definition lock_rec_cancel (lock : lock_t) : LS unit :=
  heap_no ← deref (lock_rec_find_set_bit lock);
  _ ← modify (update_lock (lock_id lock) (λ l, lock_rec_reset_nth_bit l heap_no));
  _ ← lock_reset_lock_and_trx_wait lock;
  que_thr_end_lock_wait (lock_trx lock).

Definition lock_rec_discard (in_lock : lock_t) : LS unit :=
  _ ← hash_delete in_lock;
  modify (update_trx (lock_trx in_lock) (λ t, set_trx_locks (filter (λ id, id ≠ lock_id in_lock) (trx_locks t)) t)).

Definition lock_rec_free_all_from_discard_page (block : buf_block_t) : LS unit :=
  locks ← gets (λ s, page_locks s (block_space block) (block_page_no block));
  for_each lock_rec_discard locks.

Definition lock_rec_reset_and_release_wait (block : buf_block_t) (heap_no : nat) : LS unit :=
  locks ← gets (λ s, rec_locks s (block_space block) (block_page_no block) heap_no);
  for_each (λ lock, if lock_get_wait lock then lock_rec_cancel lock
                    else modify (update_lock (lock_id lock) (λ l, lock_rec_reset_nth_bit l heap_no))) locks.

(** ** Inheriting *)

(** The locks that a transaction of a low isolation level does not leave to a gap. *)
Definition not_inherited (s : lock_sys_t) (lock : lock_t) : bool :=
  match trxs s !! lock_trx lock with
  | Some t => (srv_locks_unsafe_for_binlog cfg || (isolation_level t <=? TRX_ISO_READ_COMMITTED)%Z)
              && (lock_get_mode lock =? (if (duplicates t =? 0)%Z then LOCK_X else LOCK_S))%Z
  | None => false
  end.

Definition lock_rec_inherit_to_gap (heir_block block : buf_block_t) (heir_heap_no heap_no : nat) : LS unit :=
  locks ← gets (λ s, rec_locks s (block_space block) (block_page_no block) heap_no);
  for_each (λ lock,
    s ← gets id;
    if negb (lock_rec_get_insert_intention lock) && negb (not_inherited s lock)
    then add_to_queue (Z.lor (Z.lor LOCK_REC LOCK_GAP) (lock_get_mode lock)) heir_block heir_heap_no (lock_trx lock)
    else mret tt) locks.

Definition lock_rec_inherit_to_gap_if_gap_lock (block : buf_block_t) (heir_heap_no heap_no : nat) : LS unit :=
  locks ← gets (λ s, rec_locks s (block_space block) (block_page_no block) heap_no);
  for_each (λ lock,
    if negb (lock_rec_get_insert_intention lock) && ((heap_no =? PAGE_HEAP_NO_SUPREMUM) || negb (lock_rec_get_rec_not_gap lock))
    then add_to_queue (Z.lor (Z.lor LOCK_REC LOCK_GAP) (lock_get_mode lock)) block heir_heap_no (lock_trx lock)
    else mret tt) locks.

(** ** Moving *)

(** The bit of [lock] for a record moves to another record. *)
Definition move_bit (lock : lock_t) (heap_no : nat) (receiver : buf_block_t) (receiver_heap_no : nat) : LS unit :=
  _ ← modify (update_lock (lock_id lock) (λ l, lock_rec_reset_nth_bit l heap_no));
  _ ← (if has_flag (type_mode lock) LOCK_WAIT then lock_reset_lock_and_trx_wait lock else mret tt);
  add_to_queue (type_mode lock) receiver receiver_heap_no (lock_trx lock).

Definition lock_rec_move (receiver donator : buf_block_t) (receiver_heap_no donator_heap_no : nat) : LS unit :=
  locks ← gets (λ s, rec_locks s (block_space donator) (block_page_no donator) donator_heap_no);
  for_each (λ lock, move_bit lock donator_heap_no receiver receiver_heap_no) locks.

(** The loop over the records for one lock: [lock] is its struct at the start, with the
    bits that are left; [recs] are the heap numbers of the records on the old page and on
    the new one. *)
Fixpoint move_records (new_block : buf_block_t) (lock : lock_t) (recs : list (nat * nat)) : LS unit :=
  match recs with
  | [] => mret tt
  | (rec1_heap_no, rec2_heap_no) :: recs =>
      if (rec1_heap_no <? n_bits lock) && lock_rec_get_nth_bit lock rec1_heap_no then
        _ ← move_bit lock rec1_heap_no new_block rec2_heap_no;
        move_records new_block (lock_rec_reset_nth_bit lock rec1_heap_no) recs
      else move_records new_block lock recs
  end.

(** [recs1] are the records from the first one that moves to the last user record,
    [recs2] the user records of the new page. *)
Definition lock_move_rec_list_end (new_block block : buf_block_t) (recs1 recs2 : list nat) : LS unit :=
  locks ← gets (λ s, page_locks s (block_space block) (block_page_no block));
  for_each (λ lock, move_records new_block lock (zip recs1 recs2)) locks.

(** [recs1] are the user records before the first one that stays, [recs2] the records of
    the new page after its old end. *)
Definition lock_move_rec_list_start (new_block block : buf_block_t) (recs1 recs2 : list nat) : LS unit :=
  locks ← gets (λ s, page_locks s (block_space block) (block_page_no block));
  for_each (λ lock, move_records new_block lock (zip recs1 recs2)) locks.

(** [lock_move_granted_locks_to_front], with the locks up to the current one and the rest. *)
Fixpoint move_granted_loop (seen_waiting_lock : bool) (before rest : list lock_t) : list lock_t :=
  match rest with
  | [] => before
  | lock :: rest =>
      if negb seen_waiting_lock then move_granted_loop (lock_get_wait lock) (before ++ [lock]) rest
      else if negb (lock_get_wait lock) then move_granted_loop true (lock :: before) rest
      else move_granted_loop true (before ++ [lock]) rest
  end.

Definition lock_move_granted_locks_to_front (lock_list : list lock_t) : list lock_t := move_granted_loop false [] lock_list.

Definition lock_rec_bitmap_reset (lock : lock_t) : lock_t := set_bitmap lock (replicate (length (bitmap lock)) 0%Z).

(** [recs] are the old and new heap numbers of all records, infimum and supremum included. *)
Definition lock_move_reorganize_page (block : buf_block_t) (recs : list (nat * nat)) : LS unit :=
  locks ← gets (λ s, page_locks s (block_space block) (block_page_no block));
  _ ← for_each (λ lock,
        _ ← modify (update_lock (lock_id lock) lock_rec_bitmap_reset);
        if lock_get_wait lock then lock_reset_lock_and_trx_wait lock else mret tt) locks;
  for_each (λ lock,
    for_each (λ '(old_heap_no, new_heap_no),
      if (old_heap_no <? n_bits lock) && lock_rec_get_nth_bit lock old_heap_no
      then add_to_queue (type_mode lock) block new_heap_no (lock_trx lock) else mret tt) recs)
    (lock_move_granted_locks_to_front locks).

(** ** Changes of pages *)

(** [heap_no] is [lock_get_min_heap_no] of the right page. *)
Definition lock_update_split_right (right_block left_block : buf_block_t) (heap_no : nat) : LS unit :=
  _ ← lock_rec_move right_block left_block PAGE_HEAP_NO_SUPREMUM PAGE_HEAP_NO_SUPREMUM;
  lock_rec_inherit_to_gap left_block right_block PAGE_HEAP_NO_SUPREMUM heap_no.

Definition lock_update_merge_right (right_block : buf_block_t) (orig_succ : nat) (left_block : buf_block_t) : LS unit :=
  _ ← lock_rec_inherit_to_gap right_block left_block orig_succ PAGE_HEAP_NO_SUPREMUM;
  _ ← lock_rec_reset_and_release_wait left_block PAGE_HEAP_NO_SUPREMUM;
  lock_rec_free_all_from_discard_page left_block.

Definition lock_update_root_raise (block root : buf_block_t) : LS unit :=
  lock_rec_move block root PAGE_HEAP_NO_SUPREMUM PAGE_HEAP_NO_SUPREMUM.

Definition lock_update_copy_and_discard (new_block block : buf_block_t) : LS unit :=
  _ ← lock_rec_move new_block block PAGE_HEAP_NO_SUPREMUM PAGE_HEAP_NO_SUPREMUM;
  lock_rec_free_all_from_discard_page block.

Definition lock_update_split_left (right_block left_block : buf_block_t) (heap_no : nat) : LS unit :=
  lock_rec_inherit_to_gap left_block right_block PAGE_HEAP_NO_SUPREMUM heap_no.

(** [left_next_rec] is the record behind the original last one of the left page. *)
Definition lock_update_merge_left (left_block : buf_block_t) (left_next_rec : nat) (right_block : buf_block_t) : LS unit :=
  _ ← (if left_next_rec =? PAGE_HEAP_NO_SUPREMUM then mret tt
       else
         _ ← lock_rec_inherit_to_gap left_block left_block left_next_rec PAGE_HEAP_NO_SUPREMUM;
         lock_rec_reset_and_release_wait left_block PAGE_HEAP_NO_SUPREMUM);
  _ ← lock_rec_move left_block right_block PAGE_HEAP_NO_SUPREMUM PAGE_HEAP_NO_SUPREMUM;
  lock_rec_free_all_from_discard_page right_block.

Definition lock_update_split_and_merge (left_block : buf_block_t) (left_next_rec : nat) (right_block : buf_block_t) (heap_no : nat) : LS unit :=
  _ ← lock_rec_inherit_to_gap left_block left_block left_next_rec PAGE_HEAP_NO_SUPREMUM;
  _ ← lock_rec_reset_and_release_wait left_block PAGE_HEAP_NO_SUPREMUM;
  lock_rec_inherit_to_gap left_block right_block PAGE_HEAP_NO_SUPREMUM heap_no.

Definition lock_rec_reset_and_inherit_gap_locks (heir_block block : buf_block_t) (heir_heap_no heap_no : nat) : LS unit :=
  _ ← lock_rec_reset_and_release_wait heir_block heir_heap_no;
  lock_rec_inherit_to_gap heir_block block heir_heap_no heap_no.

(** [recs] are all records of the page, from the infimum to the supremum. *)
Definition lock_update_discard (heir_block : buf_block_t) (heir_heap_no : nat) (block : buf_block_t) (recs : list nat) : LS unit :=
  locks ← gets (λ s, page_locks s (block_space block) (block_page_no block));
  match locks with
  | [] => mret tt
  | _ =>
      _ ← for_each (λ heap_no,
            _ ← lock_rec_inherit_to_gap heir_block block heir_heap_no heap_no;
            lock_rec_reset_and_release_wait block heap_no) recs;
      lock_rec_free_all_from_discard_page block
  end.

(** [donator_heap_no] is the record behind the new one. *)
Definition lock_update_insert (block : buf_block_t) (receiver_heap_no donator_heap_no : nat) : LS unit :=
  lock_rec_inherit_to_gap_if_gap_lock block receiver_heap_no donator_heap_no.

Definition lock_update_delete (block : buf_block_t) (heap_no next_heap_no : nat) : LS unit :=
  _ ← lock_rec_inherit_to_gap block block next_heap_no heap_no;
  lock_rec_reset_and_release_wait block heap_no.

Definition lock_rec_store_on_page_infimum (block : buf_block_t) (heap_no : nat) : LS unit :=
  lock_rec_move block block PAGE_HEAP_NO_INFIMUM heap_no.

Definition lock_rec_restore_from_page_infimum (block : buf_block_t) (heap_no : nat) (donator : buf_block_t) : LS unit :=
  lock_rec_move block donator heap_no PAGE_HEAP_NO_INFIMUM.

End config.
