(* ===== verification/InnoLocking.v ===== *)
(** Requests for record locks of InnoDB keep the invariant: a new lock at the end of a
    queue, a new bit in a lock of the transaction, and a request that has to wait. *)
From stdpp Require Import functions base tactics numbers option list list_numbers gmap sets relations sorting.
From Stdlib Require Import ZArith Lia.
From S2P Require Import Prelude InnoMode InnoSys InnoQueue InnoInv InnoGrant InnoDeadlock InnoSearch InnoResolve InnoRequest.

(** ** A new lock *)

(** The modes of requests: [LOCK_S] or [LOCK_X], for the record, the gap or both, or the
    insert intention lock. *)
Definition record_modes : list Z :=
  [LOCK_S; LOCK_X; Z.lor LOCK_S LOCK_GAP; Z.lor LOCK_X LOCK_GAP; Z.lor LOCK_S LOCK_REC_NOT_GAP; Z.lor LOCK_X LOCK_REC_NOT_GAP].

Definition insert_mode : Z := Z.lor (Z.lor LOCK_X LOCK_GAP) LOCK_INSERT_INTENTION.

Definition request_modes : list Z := insert_mode :: record_modes.

Definition wait_mode (wait : bool) (mode : Z) : Z := if wait then Z.lor mode LOCK_WAIT else mode.

(** The lock that a request creates. *)
Definition new_lock (wait : bool) (trx : nat) (block : buf_block_t) (heap_no : nat) (mode : Z) (node : nat) : lock_t :=
  lock_alloc (mk_rec_lock trx (wait_mode wait (supremum_mode heap_no mode)) block heap_no node).

Lemma lock_size_enough b h : h < page_dir_get_n_heap b → h < 8 * lock_size b.
Proof.
  intros Hh. unfold lock_size, LOCK_PAGE_BITMAP_MARGIN. assert (H := Nat.div_mod_eq (page_dir_get_n_heap b + 64) 8).
  assert (H' := Nat.mod_upper_bound (page_dir_get_n_heap b + 64) 8). lia.
Qed.

Lemma blank_bit l i : bitmap l = replicate (length (bitmap l)) 0%Z → lock_rec_get_nth_bit l i = false.
Proof.
  intros Hb. rewrite get_nth_bit_testbit. destruct (n_bits l <=? i)%nat; [done|]. rewrite Hb, nth_lookup.
  destruct (replicate _ _ !! _) as [x|] eqn:Hx; simpl; [apply lookup_replicate in Hx as [-> _]|]; apply Z.testbit_0_l.
Qed.

Section new_lock.
  Context (wait : bool) (trx : nat) (block : buf_block_t) (heap_no : nat) (mode : Z) (node : nat).
  Notation l := (new_lock wait trx block heap_no mode node).

Lemma new_lock_bitmap : bitmap_ok l.
Proof. unfold new_lock, lock_alloc. apply set_nth_bit_ok. unfold bitmap_ok. cbn [n_bits bitmap]. by rewrite length_replicate. Qed.

Lemma new_lock_bit i : heap_no < page_dir_get_n_heap block → lock_rec_get_nth_bit l i = (heap_no =? i).
Proof.
  intros Hh%lock_size_enough. unfold new_lock, lock_alloc. cbn [m_heap_no m_block]. rewrite get_set_nth_bit; [|unfold bitmap_ok; cbn [n_bits bitmap]; by rewrite length_replicate|done].
  rewrite blank_bit; [by rewrite orb_false_r|]. cbn [bitmap]. by rewrite length_replicate.
Qed.

Lemma new_lock_one_bit : heap_no < page_dir_get_n_heap block → one_bit l.
Proof.
  intros Hh. exists heap_no. rewrite new_lock_bit, Nat.eqb_refl by done. split; [done|]. intros i. rewrite new_lock_bit by done.
  intros Hi%Nat.eqb_eq. done.
Qed.

(** The mode and the flags of the lock are those of the request; on the supremum the gap
    flags are gone. *)
Lemma new_lock_flags :
  mode ∈ request_modes →
  lock_get_mode l = Z.land mode LOCK_MODE_MASK ∧ lock_get_wait l = wait ∧
  lock_rec_get_insert_intention l = has_flag mode LOCK_INSERT_INTENTION ∧
  lock_rec_get_gap l = negb (heap_no =? PAGE_HEAP_NO_SUPREMUM) && has_flag mode LOCK_GAP ∧
  lock_rec_get_rec_not_gap l = negb (heap_no =? PAGE_HEAP_NO_SUPREMUM) && has_flag mode LOCK_REC_NOT_GAP ∧
  (lock_get_mode l = LOCK_S ∨ lock_get_mode l = LOCK_X).
Proof.
  intros Hm. unfold new_lock, lock_alloc, lock_get_mode, lock_get_wait, lock_rec_get_insert_intention, lock_rec_get_gap, lock_rec_get_rec_not_gap, wait_mode, supremum_mode.
  cbn [type_mode lock_rec_set_nth_bit set_bitmap m_mode]. destruct (heap_no =? PAGE_HEAP_NO_SUPREMUM), wait; cbn [negb andb];
  repeat (apply elem_of_cons in Hm as [->|Hm]; [split_and!; try done; by (left + right)|]); by apply elem_of_nil in Hm.
Qed.

(** A request that has to wait is a lock that has to wait. *)
Lemma new_lock_waits no x :
  mode ∈ request_modes → heap_no < page_dir_get_n_heap block →
  lock_rec_has_to_wait no trx mode x (heap_no =? PAGE_HEAP_NO_SUPREMUM) = true → lock_has_to_wait no l x = true.
Proof.
  intros Hm Hh. destruct (new_lock_flags Hm) as (H1 & _ & H3 & H4 & _). unfold lock_has_to_wait, lock_rec_has_to_wait.
  rewrite !(Z.land_comm LOCK_MODE_MASK). change (Z.land (type_mode l) LOCK_MODE_MASK) with (lock_get_mode l).
  change (has_flag (type_mode l) LOCK_GAP) with (lock_rec_get_gap l).
  change (has_flag (type_mode l) LOCK_INSERT_INTENTION) with (lock_rec_get_insert_intention l).
  rewrite H1, H3, H4, new_lock_bit by done. change (lock_trx l) with trx.
  destruct (trx =? lock_trx x), (lock_mode_compatible (Z.land mode LOCK_MODE_MASK) (lock_get_mode x)), (heap_no =? PAGE_HEAP_NO_SUPREMUM),
    (has_flag mode LOCK_GAP), (has_flag mode LOCK_INSERT_INTENTION), (lock_rec_get_gap x), (lock_rec_get_rec_not_gap x),
    (lock_rec_get_insert_intention x), (no trx (lock_trx x)); done.
Qed.

(** A request that does not have to wait is no conflict on the record. *)
Lemma new_lock_no_conflict no x :
  mode ∈ request_modes → heap_no ≠ PAGE_HEAP_NO_SUPREMUM →
  lock_rec_has_to_wait no trx mode x (heap_no =? PAGE_HEAP_NO_SUPREMUM) = false → ¬ rec_conflict l x.
Proof.
  intros Hm Hh. rewrite (proj2 (Nat.eqb_neq _ _) Hh). intros Hw (C1 & C2 & C3 & C4 & C5 & C6). destruct (new_lock_flags Hm) as (H1 & _ & H3 & H4 & _).
  rewrite (proj2 (Nat.eqb_neq _ _) Hh) in H4. cbn in H4. revert Hw. unfold lock_rec_has_to_wait.
  rewrite !(Z.land_comm LOCK_MODE_MASK), <-H1, C6, <-H3, C4, <-H4, C2, C3, C5. change (lock_trx l) with trx in C1.
  by rewrite (proj2 (Nat.eqb_neq _ _) C1).
Qed.

End new_lock.

(** ** Adding a lock at the end of its queue *)

Definition added (l : lock_t) (s : lock_sys_t) : lock_sys_t :=
  update_trx (lock_trx l)
    (λ trx, set_trx_locks (trx_locks trx ++ [lock_id l]) (if lock_get_wait l then set_wait_lock (Some (lock_id l)) trx else trx))
    (hash_insert l s).

Definition fresh_lock (s : lock_sys_t) (id : nat) : Prop := ∀ x, has_lock s x → lock_id x ≠ id.

Lemma page_added l s sp pg :
  hash_ok s → page_locks (added l s) sp pg = page_locks s sp pg ++ (if decide (on_page sp pg l) then [l] else []).
Proof. intros Hok. apply (page_hash_insert s l sp pg), Hok. Qed.

Lemma has_added l s x : hash_ok s → has_lock (added l s) x ↔ has_lock s x ∨ x = l.
Proof. intros Hok. apply (has_hash_insert s l x), Hok. Qed.

(** The locks that were there wait for the same locks. *)
Lemma blockers_added cfg l s w : hash_ok s → has_lock s w → blockers cfg (added l s) w = blockers cfg s w.
Proof.
  intros Hok Hw. unfold blockers. rewrite page_added by done. rewrite ahead_app_in; [done|]. by apply elem_ids.
Qed.

Lemma ahead_added l s : hash_ok s → fresh_lock s (lock_id l) → ahead (lock_id l) (page_locks (added l s) (space l) (page_no l)) = page_locks s (space l) (page_no l).
Proof.
  intros Hok Hnew. rewrite page_added, decide_True by done. apply ahead_last. intros (x & Hid & Hx)%list_elem_of_fmap.
  apply elem_page in Hx as [Hx _]. by apply (Hnew x).
Qed.

Lemma update_lock_id id f s : hash_ok s → (∀ x, has_lock s x → lock_id x = id → f x = x) → update_lock id f s = s.
Proof.
  intros Hok Hf. unfold update_lock, set_rec_hash. destruct s as [h t c]. cbn in *. f_equal.
  rewrite <-(map_id h) at 2. apply map_ext_in. intros q Hq%list_elem_of_In. rewrite <-(map_id q) at 2. apply map_ext_in.
  intros x Hx%list_elem_of_In. unfold upd. case_decide; [|done]. apply Hf; [|done]. apply has_lock_concat; [done|]. cbn.
  apply list_elem_of_In, in_concat. exists q. split; by apply list_elem_of_In.
Qed.

Lemma alter_twice (f g : trx_t → trx_t) t (m : gmap nat trx_t) : alter g t (alter f t m) = alter (λ x, g (f x)) t m.
Proof.
  apply map_eq. intros k. destruct (decide (k = t)) as [->|Hk]; [|by rewrite !lookup_alter_ne].
  rewrite !lookup_alter_eq. by destruct (m !! t).
Qed.

Lemma lor_wait l : lock_get_wait l = true → set_type_mode l (Z.lor (type_mode l) LOCK_WAIT) = l.
Proof.
  intros Hw. destruct l as [i t m sp pg n b]. unfold set_type_mode. cbn in *. f_equal. unfold lock_get_wait in Hw. cbn in Hw.
  change LOCK_WAIT with (2 ^ 8)%Z in *. rewrite has_flag_testbit in Hw by done. apply Z.bits_inj'. intros k Hk. rewrite Z.lor_spec.
  destruct (decide (k = 8%Z)) as [->|Hne]; [by rewrite Hw|]. rewrite Z.pow2_bits_false by done. apply orb_false_r.
Qed.

Lemma alloc_wait r : lock_get_wait (lock_alloc r) = has_flag (m_mode r) LOCK_WAIT.
Proof.
  unfold lock_alloc, lock_get_wait. cbn [type_mode lock_rec_set_nth_bit set_bitmap]. change LOCK_WAIT with (2 ^ 8)%Z.
  rewrite !has_flag_testbit, Z.lor_spec, Z.ldiff_spec by done. change (Z.testbit LOCK_REC 8) with false.
  change (Z.testbit LOCK_TYPE_MASK 8) with false. apply andb_true_r.
Qed.

Lemma create_Ok cfg r s :
  uses_vats cfg (m_trx r) = false → hash_ok s → fresh_lock s (m_node r) → create cfg r s = Ok (lock_alloc r, added (lock_alloc r) s).
Proof.
  intros Hv Hok Hnew. set (l := lock_alloc r). assert (Hl : lock_trx l = m_trx r ∧ lock_id l = m_node r) by done. destruct Hl as [Ht Hid].
  assert (Hok1 : hash_ok (hash_insert l s)) by (by apply hash_ok_insert).
  unfold create, lock_add. fold l. rewrite Ht, Hv. cbn [andb]. erewrite bind_Ok; [done|]. erewrite bind_Ok by done.
  unfold added. rewrite <-alloc_wait. fold l. destruct (lock_get_wait l) eqn:Hw.
  - unfold lock_set_lock_and_trx_wait. erewrite bind_Ok by done. rewrite update_lock_id.
    + unfold modify, update_trx. cbn. by rewrite alter_twice.
    + destruct Hok1. by split.
    + intros x Hx Hxid. apply (has_hash_insert s l x) in Hx as [Hx| ->]; [by destruct (Hnew x Hx)|by apply lor_wait|apply Hok].
  - done.
Qed.

(** ** The invariant with a new lock *)

Section added.
  Context (cfg : config) (s : lock_sys_t) (l : lock_t).
  Context (Hinv : inv None None s) (Hnew : fresh_lock s (lock_id l)) (Hrun : running s (lock_trx l)).
  Context (Hbm : bitmap_ok l) (Hmode : lock_get_mode l = LOCK_S ∨ lock_get_mode l = LOCK_X) (Hone : one_bit l).

Definition joining_by : option nat := if lock_get_wait l then Some (lock_trx l) else None.

Lemma lookup_added t trx :
  trxs (added l s) !! t = Some trx →
  ∃ trx0, trxs s !! t = Some trx0 ∧
    (trx = trx0 ∧ t ≠ lock_trx l ∨
     t = lock_trx l ∧ trx_locks trx = trx_locks trx0 ++ [lock_id l] ∧ wait_lock trx0 = None ∧
     wait_lock trx = (if lock_get_wait l then Some (lock_id l) else None) ∧
     que_state trx = que_state trx0 ∧ deadlock_mark trx = deadlock_mark trx0 ∧ trx_thr trx = trx_thr trx0).
Proof.
  cbn. intros Ht. destruct (decide (t = lock_trx l)) as [->|Hne].
  - rewrite lookup_alter_eq in Ht. destruct Hrun as (trx0 & Ht0 & Hw0). rewrite Ht0 in Ht. simplify_eq/=. exists trx0. split; [done|right].
    by destruct (lock_get_wait l).
  - rewrite lookup_alter_ne in Ht by done. exists trx. split; [done|]. by left.
Qed.

Lemma trx_ok_added t trx : trxs (added l s) !! t = Some trx → trx_ok joining_by None (added l s) t trx.
Proof.
  intros Ht. assert (Hok := inv_hash _ _ _ Hinv). assert (Hhas := λ x, has_added l s x Hok).
  destruct (lookup_added t trx Ht) as (trx0 & Ht0 & Hcase). destruct (inv_trx _ _ _ Hinv _ _ Ht0) as [H1 H2 H3 _ H5 H6].
  assert (H4 := inv_que _ _ _ _ Hinv Ht0). rewrite decide_False in H4 by done.
  destruct Hcase as [[-> Hne]|(-> & Hl & Hw0 & Hw & Hq & Hm & Hth)].
  - split; [done| | | |done..].
    + intros id Hid. destruct (H2 id Hid) as (x & Hx & ?). exists x. rewrite Hhas. auto.
    + intros id Hid _. destruct (H3 id Hid) as (x & Hx & ?); [done|]. exists x. rewrite Hhas. auto.
    + rewrite decide_False; [by rewrite decide_False|]. unfold joining_by. destruct (lock_get_wait l); congruence.
  - rewrite Hw0 in H4. split; unfold thr_waits; rewrite ?Hl, ?Hw, ?Hq, ?Hm, ?Hth; [| | | |done..].
    + apply NoDup_app. split_and!; [done| |apply NoDup_singleton]. intros id Hid ->%list_elem_of_singleton.
      destruct (H2 _ Hid) as (x & Hx & He & _). by apply (Hnew x).
    + intros id [Hid| ->%list_elem_of_singleton]%elem_of_app.
      * destruct (H2 id Hid) as (x & Hx & ?). exists x. rewrite Hhas. auto.
      * exists l. rewrite Hhas. auto.
    + intros id Hid _. destruct (lock_get_wait l) eqn:Hlw; simplify_eq. exists l. rewrite Hhas. auto.
    + unfold joining_by. destruct (lock_get_wait l); [by rewrite decide_True|by rewrite !decide_False].
Qed.

Lemma lock_ok_added x : has_lock (added l s) x → lock_ok (added l s) x.
Proof.
  intros [Hx| ->]%(has_added l s x); [| |apply Hinv].
  - destruct (inv_lock _ _ _ Hinv x Hx) as [H1 H2 H3 (trx & Ht & Hin & Hw)]. split; [done..|]. cbn. destruct (decide (lock_trx x = lock_trx l)) as [He|Hne].
    + rewrite He in *. rewrite lookup_alter_eq, Ht. eexists. split_and!; [done|cbn; set_solver|]. intros Hxw.
      assert (Hr : running s (lock_trx x)) by (by rewrite He). by rewrite (running_granted _ _ _ _ Hinv Hx Hr) in Hxw.
    + rewrite lookup_alter_ne by done. by exists trx.
  - split; [done..|]. destruct Hrun as (trx & Ht & _). cbn. rewrite lookup_alter_eq, Ht. eexists. split_and!; [done|cbn; set_solver|].
    intros ->. done.
Qed.

Lemma inv_added :
  (lock_get_wait l = false → ∀ x h, has_lock s x → on_page (space l) (page_no l) x → h ≠ PAGE_HEAP_NO_SUPREMUM →
     lock_rec_get_nth_bit l h = true → lock_rec_get_nth_bit x h = true → ¬ rec_conflict l x) →
  inv joining_by None (added l s).
Proof.
  intros Hconf. assert (Hok := inv_hash _ _ _ Hinv). split.
  - assert (H := hash_ok_insert s l Hok Hnew). destruct H. by split.
  - apply lock_ok_added.
  - apply trx_ok_added.
  - intros w x h Hw Hx Hh Hbw Hbx Hc. apply has_added in Hw as [Hw| ->]; [| |done].
    + rewrite page_added, ahead_app_in in Hx by (done || by apply elem_ids). by eapply (inv_rule3 _ _ _ Hinv).
    + rewrite ahead_added in Hx by done. apply elem_page in Hx as [Hx Hp]. destruct (lock_get_wait l) eqn:Hlw; [done|].
      by destruct (Hconf eq_refl x h).
  - done.
Qed.

Lemma settled_added : all_settled cfg s → (lock_get_wait l = true → blockers cfg (added l s) l ≠ []) → all_settled cfg (added l s).
Proof.
  intros Hset Hb id w Hw Hid Hww. apply has_added in Hw as [Hw| ->]; [| |apply Hinv].
  - rewrite blockers_added by (done || apply Hinv). by eapply Hset.
  - by apply Hb.
Qed.

Lemma waits_for_added a b : waits_for cfg (added l s) a b → waits_for cfg s a b ∨ (a = lock_trx l ∧ lock_get_wait l = true).
Proof.
  intros (w & x & Hw & Hww & Ha & Hx & Hb). apply has_added in Hw as [Hw| ->]; [| |apply Hinv]; [left|by right].
  rewrite blockers_added in Hx by (done || apply Hinv). by exists w, x.
Qed.

End added.
