(* ===== verification/InnoJoin.v ===== *)
(** A request for a record lock of InnoDB that has to wait: [add_to_waitq] puts it in the
    queue, resolves the deadlocks it closes, and either waits, or has been granted the
    lock, or withdraws the request. *)
From stdpp Require Import functions base tactics numbers option list list_numbers gmap sets relations sorting.
From Stdlib Require Import ZArith Lia.
From S2P Require Import Prelude InnoMode InnoSys InnoQueue InnoInv InnoGrant InnoBits InnoDeadlock InnoSearch InnoResolve InnoRequest InnoLocking.

Section config.
  Context (cfg : config).

Definition acyclic (s : lock_sys_t) : Prop := ∀ t, ¬ tc (waits_for cfg s) t t.

(** The invariant of the lock system between two operations. *)
Record sys_ok (s : lock_sys_t) : Prop := mk_sys_ok {
  sys_inv : inv None None s;
  sys_settled : all_settled cfg s;
  sys_acyclic : innobase_deadlock_detect cfg = true → acyclic s;
  sys_counter : (0 ≤ s_lock_mark_counter s)%Z;
}.

(** ** Cycles *)

Lemma tc_through (R : nat → nat → Prop) j a b : tc R a b → tc (λ x y, x ≠ j ∧ R x y) a b ∨ (rtc R a j ∧ tc R j b).
Proof.
  induction 1 as [a b Hab|a y b Hay Hyb IH]; (destruct (decide (a = j)) as [->|Hne]; [right; split; [reflexivity|by econstructor]|]).
  - left. by apply tc_once.
  - destruct IH as [IH|[IH1 IH2]]; [left; by eapply tc_l|right]. split; [by eapply rtc_l|done].
Qed.

Lemma acyclic_join j s : acyclic_but cfg j s → ¬ tc (waits_for cfg s) j j → acyclic s.
Proof.
  intros Hac Hj t Ht. destruct (tc_through _ j _ _ Ht) as [H|[H1 H2]]; [by apply (Hac t)|]. apply Hj. by eapply tc_rtc_r.
Qed.

Lemma acyclic_mono s s' : (∀ a b, waits_for cfg s' a b → waits_for cfg s a b) → acyclic s → acyclic s'.
Proof. intros Hsub Hac t Htc. apply (Hac t). revert Htc. apply (tc_congruence id). intros a b. apply Hsub. Qed.

(** A transaction that waits for nothing is on no cycle. *)
Lemma acyclic_but_no_out j s : acyclic_but cfg j s → (∀ b, ¬ waits_for cfg s j b) → acyclic s.
Proof. intros Hac Hout. eapply acyclic_join; [done|]. intros Htc. inversion Htc; subst; by eapply Hout. Qed.

Lemma running_no_out jo vo s j b : inv jo vo s → running s j → ¬ waits_for cfg s j b.
Proof. intros Hinv Hr (w & x & Hw & Hww & <- & _). by rewrite (running_granted _ _ _ _ Hinv Hw Hr) in Hww. Qed.

(** ** The end of a join *)

Lemma trx_ok_unjoin j s t trx : (t = j → wait_lock trx = None) → trx_ok (Some j) None s t trx → trx_ok None None s t trx.
Proof.
  intros Hj [H1 H2 H3 H4 H5 H6]. split; [done..| |done|done]. rewrite decide_False, decide_False in * by done.
  case_decide as Hd; [|done]. rewrite H4, Hj by congruence. done.
Qed.

Lemma inv_unjoin j s : inv (Some j) None s → running s j → inv None None s.
Proof.
  intros Hinv (trx & Ht & Hw). split; [apply Hinv|apply Hinv| |apply Hinv|done].
  intros t trx' Ht'. apply (trx_ok_unjoin j); [|by apply Hinv]. intros ->. congruence.
Qed.

(** The transaction goes to wait. *)
Definition waiting_trx (t : trx_t) : trx_t :=
  set_trx_thr (set_thr_state QUE_THR_LOCK_WAIT (set_wait_thr true (trx_thr t))) (set_victim false (set_que_state TRX_QUE_LOCK_WAIT t)).

Lemma set_wait_state_Ok r s t : trxs s !! m_trx r = Some t → graph_state (trx_thr t) = QUE_FORK_ACTIVE →
  set_wait_state r s = Ok (tt, update_trx (m_trx r) waiting_trx s).
Proof.
  intros Ht Hg. unfold set_wait_state. erewrite bind_Ok by done. erewrite bind_Ok by done.
  erewrite deref_Some by (cbn; by rewrite lookup_alter_eq, Ht). unfold que_thr_stop. cbn [trx_thr que_state set_victim set_que_state].
  rewrite Hg. cbn [Z.eqb QUE_FORK_ACTIVE QUE_FORK_COMMAND_WAIT Pos.eqb]. rewrite decide_True by done. erewrite bind_Ok by done.
  unfold assert_, mret, M_ret, update_trx. cbn. do 3 f_equal. rewrite alter_alter_eq. apply map_eq. intros k.
  destruct (decide (k = m_trx r)) as [->|Hk]; [|by rewrite !lookup_alter_ne]. by rewrite !lookup_alter_eq, Ht.
Qed.

Lemma inv_wait j s trx : inv (Some j) None s → trxs s !! j = Some trx → wait_lock trx ≠ None → inv None None (update_trx j waiting_trx s).
Proof.
  intros Hinv Ht Hw. split; [destruct (inv_hash _ _ _ Hinv); by split| | |apply Hinv|done].
  - intros l Hl. destruct (inv_lock _ _ _ Hinv l Hl) as [H1 H2 H3 (x & Hx & Hin & Hwl)]. split; [done..|]. cbn.
    destruct (decide (lock_trx l = j)) as [<-|Hne]; [rewrite lookup_alter_eq, Hx; by eexists|rewrite lookup_alter_ne by done; by exists x].
  - intros t x Hx. cbn in Hx. destruct (decide (t = j)) as [->|Hne].
    + rewrite lookup_alter_eq, Ht in Hx. simplify_eq/=. destruct (inv_trx _ _ _ Hinv _ _ Ht) as [H1 H2 H3 _ [H5 _] H6]. split; [done..| |done|done].
      rewrite !decide_False by done. cbn. by destruct (wait_lock trx).
    + rewrite lookup_alter_ne in Hx by done. destruct (inv_trx _ _ _ Hinv _ _ Hx) as [H1 H2 H3 H4 H5 H6]. split; [done..| |done|done].
      rewrite decide_False in H4 by congruence. by rewrite (decide_False (P := None = Some t)).
Qed.

(** ** Withdrawing the last lock of a page *)

Section last.
  Context (s s' : lock_sys_t) (w : lock_t) (q : list lock_t) (g : lock_t → lock_t).
  Context (Hok : hash_ok s) (Hw : has_lock s w) (Hq : page_locks s (space w) (page_no w) = q ++ [w]) (Hg : keeps_place g).
  Context (Hpage : ∀ sp pg, page_locks s' sp pg = map g (page_locks s sp pg)) (Hother : ∀ x, has_lock s x → x ≠ w → g x = x).

Lemma last_not_ahead x : has_lock s x → x ≠ w → w ∉ ahead (lock_id x) (page_locks s (space x) (page_no x)).
Proof.
  intros Hx Hne Hin. assert (Hin' := Hin). apply elem_ahead in Hin' as [Hin' _]. apply elem_page in Hin' as [_ [Hsp Hpg]].
  rewrite <-Hsp, <-Hpg, Hq in Hin. assert (Hxq : x ∈ q).
  { assert (H : x ∈ q ++ [w]) by (rewrite <-Hq, Hsp, Hpg; done). set_solver. }
  rewrite ahead_app_in in Hin by (by apply elem_ids). apply elem_ahead in Hin as [Hwq _].
  assert (Hnd := page_ids s (space w) (page_no w) Hok). rewrite Hq, map_app in Hnd. apply NoDup_app in Hnd as (_ & Hd & _).
  apply (Hd (lock_id w)); [by apply elem_ids|set_solver].
Qed.

Lemma last_ahead x : has_lock s x → x ≠ w → ahead (lock_id x) (page_locks s' (space x) (page_no x)) = ahead (lock_id x) (page_locks s (space x) (page_no x)).
Proof.
  intros Hx Hne. rewrite Hpage, ahead_map by apply Hg. rewrite <-(map_id (ahead _ _)) at 2. apply map_ext_in. intros y Hy%list_elem_of_In.
  apply Hother; [apply elem_ahead in Hy as [Hy _]; by apply elem_page in Hy as []|]. intros ->. by apply (last_not_ahead x).
Qed.

Lemma last_blockers x : has_lock s x → x ≠ w → blockers cfg s' x = blockers cfg s x.
Proof. intros Hx Hne. unfold blockers. by rewrite last_ahead. Qed.

Lemma last_has x' : has_lock s' x' ↔ (has_lock s x' ∧ x' ≠ w) ∨ x' = g w.
Proof.
  unfold has_lock at 1. rewrite Hpage, list_elem_of_fmap. split.
  - intros (x & -> & Hx). apply elem_page in Hx as [Hx _]. destruct (decide (lock_id x = lock_id w)) as [He|Hne].
    + right. f_equal. by apply (lock_id_inj s).
    + left. assert (x ≠ w) by (by intros ->). by rewrite Hother.
  - intros [[Hx Hne]| ->]; [exists x'; by rewrite Hother|]. exists w. destruct (Hg w) as (_ & _ & -> & ->). done.
Qed.

End last.

Definition withdrawn (h : nat) (w : lock_t) (s : lock_sys_t) : lock_sys_t :=
  update_lock (lock_id w) (λ l, lock_rec_reset_nth_bit l h) (grant w s).

Section withdraw.
  Context (s : lock_sys_t) (j h : nat) (w : lock_t) (q : list lock_t).
  Context (Hinv : inv (Some j) None s) (Hw : has_lock s w) (Hj : lock_trx w = j) (Hq : page_locks s (space w) (page_no w) = q ++ [w]).
  Context (Hbit : lock_rec_get_nth_bit w h = true) (Honly : ∀ i, lock_rec_get_nth_bit w i = true → i = h).
  Context (Hwait : lock_get_wait w = true ∨ running s j).

Definition withdraw_lock (x : lock_t) : lock_t := upd (lock_id w) (λ l, lock_rec_reset_nth_bit l h) (upd (lock_id w) granted x).

Lemma withdraw_place : keeps_place withdraw_lock.
Proof.
  intros x. destruct (upd_keeps_place (lock_id w) granted granted_keeps_place x) as (E1 & E2 & E3 & E4).
  destruct (upd_keeps_place (lock_id w) _ (bit_change_place _ (reset_bit_change h)) (upd (lock_id w) granted x)) as (F1 & F2 & F3 & F4).
  unfold withdraw_lock. split_and!; congruence.
Qed.

Lemma withdraw_page sp pg : page_locks (withdrawn h w s) sp pg = map withdraw_lock (page_locks s sp pg).
Proof.
  unfold withdrawn, grant. rewrite !page_update_lock by (apply granted_keeps_place || apply (bit_change_place _ (reset_bit_change h))).
  rewrite map_map. done.
Qed.

Lemma withdraw_other x : has_lock s x → x ≠ w → withdraw_lock x = x.
Proof.
  intros Hx Hne. assert (lock_id x ≠ lock_id w) by (intros He; apply Hne; apply (lock_id_inj s); [apply Hinv|done..]).
  unfold withdraw_lock. unfold upd at 2. rewrite decide_False by done. unfold upd. by rewrite decide_False.
Qed.

Lemma withdraw_self : withdraw_lock w = lock_rec_reset_nth_bit (granted w) h.
Proof. unfold withdraw_lock. unfold upd at 2. rewrite decide_True by done. unfold upd. by rewrite decide_True. Qed.

Lemma withdraw_no_bit i : lock_rec_get_nth_bit (withdraw_lock w) i = false.
Proof.
  assert (Hb := lo_bitmap _ _ (inv_lock _ _ _ Hinv _ Hw)). rewrite withdraw_self.
  rewrite get_reset_nth_bit; [|done|by apply bit_lt in Hbit]. rewrite (shape_bit _ _ _ (granted_shape w)).
  destruct (Nat.eqb_spec h i) as [->|Hne]; [done|]. destruct (lock_rec_get_nth_bit w i) eqn:Hi; [|done]. apply Honly in Hi. congruence.
Qed.

Lemma withdraw_wait : lock_get_wait (withdraw_lock w) = false.
Proof.
  rewrite withdraw_self.
  rewrite (bit_change_wait (λ l, lock_rec_reset_nth_bit l h)) by apply reset_bit_change. apply granted_wait.
Qed.

Lemma rule3_withdraw : rule3 (withdrawn h w s).
Proof.
  intros x y i Hx Hy Hi Hbx Hby Hc. assert (Hok := inv_hash _ _ _ Hinv).
  apply (last_has s _ w withdraw_lock Hok Hw withdraw_place withdraw_page withdraw_other) in Hx as [[Hx Hne]| ->]; [|by rewrite withdraw_no_bit in Hbx].
  rewrite (last_ahead s _ w q withdraw_lock Hok Hw Hq withdraw_place withdraw_page withdraw_other) in Hy by done.
  by eapply (inv_rule3 _ _ _ Hinv).
Qed.

Lemma inv_withdraw : inv None None (withdrawn h w s).
Proof.
  assert (Hwt : lock_get_wait w = true ∨ running s (lock_trx w)) by (by rewrite Hj).
  assert (Hok1 : hash_ok (grant w s)).
  { apply hash_ok_update_lock; [apply granted_keeps_place|]. destruct (inv_hash _ _ _ Hinv). by split. }
  assert (Hg : has_lock (grant w s) (granted w)).
  { apply (evolves_has _ _ _ _ _ (evolves_grant s w)). exists w. split_and!; [done|set_solver|]. unfold evo. by rewrite decide_True by set_solver. }
  assert (Hlk : ∀ x, has_lock (grant w s) x → lock_ok (grant w s) x).
  { intros x (y & Hy & _ & ->)%(evolves_has _ _ _ _ _ (evolves_grant s w)). by eapply lock_ok_grant. }
  change (withdrawn h w s) with (update_lock (lock_id (granted w)) (λ l, lock_rec_reset_nth_bit l h) (grant w s)). split.
  - apply hash_ok_update_lock; [apply (bit_change_place _ (reset_bit_change h))|done].
  - by apply (lock_ok_bits _ _ _ (reset_bit_change h) Hok1 Hg (granted_wait w)).
  - intros t trx Ht. apply (trx_ok_bits _ _ _ (reset_bit_change h) Hok1 Hg (granted_wait w)). apply (trx_ok_unjoin j).
    + intros ->. cbn in Ht. rewrite Hj, lookup_alter_eq in Ht. destruct (trxs s !! j) as [trx0|]; [|done]. injection Ht as <-. apply grant_trx_spec.
    + by apply trx_ok_grant.
  - apply rule3_withdraw.
  - done.
Qed.

Lemma withdraw_sys_ok :
  all_settled cfg s → (innobase_deadlock_detect cfg = true → acyclic_but cfg j s) → (0 ≤ s_lock_mark_counter s)%Z → sys_ok (withdrawn h w s).
Proof.
  intros Hset Hac Hc. assert (Hok := inv_hash _ _ _ Hinv).
  assert (Hold : ∀ x, has_lock (withdrawn h w s) x → lock_get_wait x = true → has_lock s x ∧ x ≠ w).
  { intros x Hx Hxw. apply (last_has s _ w withdraw_lock Hok Hw withdraw_place withdraw_page withdraw_other) in Hx as [?| ->]; [done|].
    by rewrite withdraw_wait in Hxw. }
  assert (Hbl := λ x, last_blockers s _ w q withdraw_lock Hok Hw Hq withdraw_place withdraw_page withdraw_other x).
  split; [apply inv_withdraw| | |done].
  - intros id x Hx Hid Hxw. destruct (Hold x Hx Hxw) as [Hx' Hne]. rewrite Hbl by done. by eapply Hset.
  - intros Hd. apply (acyclic_but_no_out j).
    + eapply acyclic_but_mono; [|by apply Hac]. intros a b (x & y & Hx & Hxw & Ha & Hy & Hb). destruct (Hold x Hx Hxw) as [Hx' Hne].
      rewrite Hbl in Hy by done. by exists x, y.
    + intros b. eapply (running_no_out None None); [apply inv_withdraw|].
      destruct (inv_trx_of _ _ _ _ Hinv Hw) as (trx & Ht & _). exists (grant_trx trx). cbn. rewrite <-Hj, lookup_alter_eq, Ht. split; [done|apply grant_trx_spec].
Qed.

End withdraw.

Lemma granted_last_free s w q :
  hash_ok s → has_lock s w → one_bit w → page_locks s (space w) (page_no w) = q ++ [w] → blockers cfg s w = [] →
  ∀ x, x ∈ queue_of s w → lock_has_to_wait (need_ordering cfg) w x = false.
Proof.
  intros Hok Hw Hone Hq Hb x Hx. destruct (lock_has_to_wait (need_ordering cfg) w x) eqn:Hwt; [|done]. exfalso.
  assert (Hin : x ∈ blockers cfg s w); [|rewrite Hb in Hin; by apply elem_of_nil in Hin].
  apply elem_blockers_queue; [done..|]. split; [|done]. destruct (one_bit_find _ Hone) as (h & Hf & Hbit & _).
  unfold queue_of, rec_locks in *. rewrite Hf, Hq in *. assert (Hnd := page_ids s (space w) (page_no w) Hok). rewrite Hq, map_app in Hnd.
  apply NoDup_app in Hnd as (_ & Hd & _). rewrite ahead_filter.
  - rewrite ahead_last; [|intros Hin; apply (Hd _ Hin); set_solver]. apply list_elem_of_filter in Hx as [Hxb Hx]. apply list_elem_of_filter. split; [done|].
    apply elem_of_app in Hx as [Hx| ->%list_elem_of_singleton]; [done|]. by apply lock_has_to_wait_trx in Hwt.
  - intros y Hy Hid. assert (y = w) as ->; [|done]. apply (lock_id_inj s); [done| |done|done].
    rewrite <-Hq in Hy. by apply elem_page in Hy as [].
Qed.

(** ** The wait request *)

(** The searches of one request do not overflow the mark counter. *)
Definition request_room (s : lock_sys_t) : Prop :=
  (s_lock_mark_counter s + Z.of_nat ((num_locks s + 2) * size (trxs s)) < 2 ^ 64)%Z.

Lemma added_room s l : sys_ok s → request_room s → mark_room (added l s).
Proof.
  intros Hs Hr. split; [apply Hs|]. unfold request_room in Hr.
  replace (num_locks (added l s)) with (num_locks s + 1).
  - cbn. rewrite <-size_dom, dom_alter_L, size_dom. replace (num_locks s + 1 + 1) with (num_locks s + 2) by lia. done.
  - unfold num_locks. assert (H := Permutation_length (hash_insert_perm s l (hash_cells _ (inv_hash _ _ _ (sys_inv _ Hs))))).
    rewrite length_cons, !length_map in H. cbn in *. lia.
Qed.

(** The outcome of a request that had to wait. *)
Definition waitq_result (t : nat) (l : lock_t) (err : dberr_t) (s' : lock_sys_t) : Prop :=
  match err with
  | DB_LOCK_WAIT => ∃ w, has_lock s' w ∧ same_shape w l ∧ lock_get_wait w = true
  | DB_SUCCESS_LOCKED_REC => ∃ w, has_lock s' w ∧ same_shape w l ∧ lock_get_wait w = false ∧
                               ∀ x, x ∈ queue_of s' w → lock_has_to_wait (need_ordering cfg) w x = false
  | DB_DEADLOCK => running s' t
  | DB_SUCCESS | DB_DUPLICATE_KEY | DB_ERROR => False
  end.

Section waitq.
  Context (Hvats : ∀ t, uses_vats cfg t = false).
  Context (s : lock_sys_t) (t : nat) (block : buf_block_t) (heap_no : nat) (mode : Z) (node : nat).
  Context (Hs : sys_ok s) (Hrun : running s t) (Hgo : query_runs s t) (Hnew : fresh_lock s node) (Hroom : request_room s).
  Context (Hmode : mode ∈ request_modes) (Hheap : heap_no < page_dir_get_n_heap block).
  Notation l := (new_lock true t block heap_no mode node).
  Notation s1 := (added l s).

Lemma join_inv : inv (Some t) None s1.
Proof.
  assert (H := inv_added s l (sys_inv _ Hs) Hnew Hrun). destruct (new_lock_flags true t block heap_no mode node Hmode) as (_ & Hw & _ & _ & _ & Hm).
  unfold joining_by in H. rewrite Hw in H. apply H; [apply new_lock_bitmap|done|by apply new_lock_one_bit|done].
Qed.

Lemma join_settled x :
  x ∈ rec_locks s (block_space block) (block_page_no block) heap_no →
  lock_rec_has_to_wait (need_ordering cfg) t mode x (heap_no =? PAGE_HEAP_NO_SUPREMUM) = true → all_settled cfg s1.
Proof.
  intros [Hb Hx]%list_elem_of_filter Hwt. apply settled_added; [apply Hs|apply Hs|]. intros _.
  assert (Hin : x ∈ blockers cfg s1 l); [|intros Hnil; rewrite Hnil in Hin; by apply elem_of_nil in Hin].
  destruct (one_bit_find l) as (h & Hf & Hh & _); [by apply new_lock_one_bit|]. rewrite new_lock_bit in Hh by done. apply Nat.eqb_eq in Hh as <-.
  apply elem_blockers. exists heap_no. split_and!; [done| |].
  - split; [done|]. by apply new_lock_waits.
  - rewrite ahead_added; [done|apply Hs|done].
Qed.

Lemma join_acyclic : innobase_deadlock_detect cfg = true → acyclic_but cfg t s1.
Proof.
  intros Hd u Hu. apply (sys_acyclic _ Hs Hd u). revert Hu. apply (tc_congruence id). intros a b [Ha Hab].
  apply (waits_for_added cfg s l (sys_inv _ Hs)) in Hab as [?|[? _]]; done.
Qed.

Lemma join_joins : all_settled cfg s1 → joins cfg t node s1.
Proof.
  intros Hset. destruct (new_lock_flags true t block heap_no mode node Hmode) as (_ & Hw & _).
  assert (Hl : has_lock s1 l) by (apply has_added; [apply Hs|by right]).
  exists l, (page_locks s (space l) (page_no l)). split_and!; [done..|by apply new_lock_one_bit| |by left|].
  - rewrite page_added by apply Hs. by rewrite decide_True.
  - by apply (settled_ahead cfg (Some t) s1 l join_inv).
Qed.

Lemma reset_is_grant u (m : gmap nat trx_t) trx :
  que_state trx = TRX_QUE_RUNNING → m !! u = Some trx → alter (set_wait_lock None) u m = alter grant_trx u m.
Proof.
  intros Hq Hu. apply map_eq. intros k. destruct (decide (k = u)) as [->|Hk]; [|by rewrite !lookup_alter_ne].
  rewrite !lookup_alter_eq, Hu. cbn. unfold grant_trx, resume. cbn. by rewrite Hq.
Qed.

Lemma join_que s2 trx : inv (Some t) None s2 → trxs s2 !! t = Some trx → que_state trx = TRX_QUE_RUNNING.
Proof. intros Hinv Ht. assert (H := inv_que _ _ _ _ Hinv Ht). by rewrite decide_True in H. Qed.

(** The three ways in which the deadlock check ends. *)
Lemma check_result_Ok v s2 d G r :
  m_trx r = t → m_heap_no r = heap_no →
  inv (Some t) None s2 → all_settled cfg s2 → (innobase_deadlock_detect cfg = true → acyclic_but cfg t s2) → joins cfg t node s2 →
  evolves d G s1 s2 → (0 ≤ s_lock_mark_counter s2)%Z →
  (v = None → innobase_deadlock_detect cfg = true → ¬ tc (waits_for cfg s2) t t) →
  ∃ err s3, (err ← check_deadlock_result r v l; _ ← (if decide (err = DB_LOCK_WAIT) then set_wait_state r else mret tt); mret err) s2 = Ok (err, s3) ∧
    sys_ok s3 ∧ waitq_result t l err s3.
Proof.
  intros Hrt Hrh Hinv Hset Hac (w & q & Hw & Hid & Htrx & Hone & Hq & Hwait & _) Hev Hc Hv.
  assert (Hshape : same_shape w l).
  { assert (Hw' := Hw). apply (evolves_has _ _ _ _ _ Hev) in Hw' as (l0 & Hl0 & _ & ->). rewrite evo_id in Hid.
    assert (l0 = l) as ->; [|apply evo_shape]. apply (lock_id_inj s1); [apply join_inv|done| |done]. apply has_added; [apply Hs|by right]. }
  destruct (inv_trx_of _ _ _ _ Hinv Hw) as (trx & Ht & _ & Hwl). rewrite Htrx in Ht. destruct v as [v|].
  - exists DB_DEADLOCK, (withdrawn heap_no w s2). split_and!.
    + assert (Hcd : check_deadlock_result r (Some v) l s2 = Ok (DB_DEADLOCK, withdrawn heap_no w s2)).
      { unfold check_deadlock_result. rewrite Hrh. unfold lock_reset_lock_and_trx_wait, withdrawn, grant. rewrite Hid, Htrx.
        erewrite bind_Ok by done. erewrite bind_Ok by done. unfold update_trx.
        by rewrite <-(reset_is_grant _ _ trx (join_que _ _ Hinv Ht)) by done. }
      by erewrite bind_Ok by done.
    + eapply (withdraw_sys_ok s2 t heap_no w q Hinv Hw Htrx Hq); [| |tauto|done..].
      * rewrite (shape_bit _ _ _ Hshape), new_lock_bit by done. apply Nat.eqb_refl.
      * intros i. rewrite (shape_bit _ _ _ Hshape), new_lock_bit by done. intros Hi%Nat.eqb_eq. done.
    + exists (grant_trx trx). cbn. rewrite Htrx, lookup_alter_eq, Ht. split; [done|apply grant_trx_spec].
  - assert (Hcd : check_deadlock_result r None l s2 = Ok (if wait_lock trx then DB_LOCK_WAIT else DB_SUCCESS_LOCKED_REC, s2)).
    { unfold check_deadlock_result. rewrite Hrt. erewrite bind_Ok by done. by erewrite deref_Some by done. }
    erewrite bind_Ok by done. destruct (wait_lock trx) as [i|] eqn:Hi.
    + exists DB_LOCK_WAIT, (update_trx t waiting_trx s2). split_and!.
      * rewrite decide_True by done. erewrite bind_Ok by (eapply set_wait_state_Ok; [by rewrite Hrt|apply (inv_trx _ _ _ Hinv _ _ Ht)]). by rewrite Hrt.
      * split; [by eapply inv_wait; [| |rewrite Hi]|done| |done]. intros Hd. apply (acyclic_join t); [by apply Hac|by apply Hv].
      * exists w. split_and!; [done..|]. destruct Hwait as [?|[_ (trx' & Ht' & Hw')]]; [done|congruence].
    + exists DB_SUCCESS_LOCKED_REC, s2. assert (Hr : running s2 t) by (by exists trx). split_and!.
      * done.
      * split; [by apply (inv_unjoin t)|done| |done]. intros Hd. apply (acyclic_join t); [by apply Hac|by apply Hv].
      * assert (Hww : lock_get_wait w = false) by (apply (running_granted _ _ _ _ Hinv Hw); by rewrite Htrx).
        exists w. split_and!; [done..|]. eapply granted_last_free; [apply Hinv|done..|]. destruct Hwait as [?|[? _]]; congruence.
Qed.

Lemma add_to_waitq_Ok x :
  x ∈ rec_locks s (block_space block) (block_page_no block) heap_no →
  lock_rec_has_to_wait (need_ordering cfg) t mode x (heap_no =? PAGE_HEAP_NO_SUPREMUM) = true →
  ∃ err s', add_to_waitq cfg (rec_lock_init t block heap_no mode node) s = Ok (err, s') ∧ sys_ok s' ∧ waitq_result t l err s'.
Proof.
  intros Hx Hwt. assert (Hset := join_settled x Hx Hwt). assert (Hj := join_joins Hset).
  destruct (check_and_resolve_Ok cfg s1 t node) as (v & s2 & d & G & Hrun2 & Hinv2 & Hset2 & Hj2 & Hev & Hc2 & Hv2);
    [done|apply join_inv|done|apply join_acyclic|done|by apply added_room|].
  assert (Hac2 : innobase_deadlock_detect cfg = true → acyclic_but cfg t s2).
  { intros Hd. eapply acyclic_but_mono; [|by apply join_acyclic]. intros a b. eapply evolves_waits_for; [apply join_inv|done]. }
  unfold add_to_waitq. set (r := mk_rec_lock _ _ _ _ _).
  destruct (check_result_Ok v s2 d G r) as (err & s3 & Hres & Hs3 & Hw3); [done..|]. exists err, s3. split; [|done].
  destruct Hrun as (trx & Ht & Hw). assert (Hq : que_state trx = TRX_QUE_RUNNING).
  { assert (H4 := inv_que _ _ _ _ (sys_inv _ Hs) Ht). by rewrite decide_False, Hw in H4. }
  assert (Hprep : prepare r s = Ok (tt, s)).
  { unfold prepare. erewrite bind_Ok, deref_Some by done. rewrite Hq, (Hgo _ Ht). done. }
  erewrite bind_Ok by done. erewrite bind_Ok by (apply create_Ok; [apply Hvats|apply Hs|done]).
  change (lock_alloc r) with l. assert (Hdc : deadlock_check cfg r l s1 = Ok (err, s3)).
  { unfold deadlock_check. change (m_trx r) with t. change (lock_id l) with node. by erewrite bind_Ok by done. }
  erewrite bind_Ok by done. rewrite Hvats, andb_false_r. done.
Qed.

End waitq.

End config.
