(* ===== verification/InnoReach.v ===== *)
(** All operations of the InnoDB record lock manager keep the invariant of the lock system
    under first-come-first-served scheduling, and none of them fails. *)
From stdpp Require Import functions base tactics numbers option list list_numbers gmap sets relations sorting.
From Stdlib Require Import ZArith Lia.
From S2P Require Import Prelude InnoMode InnoSys InnoQueue InnoInv InnoGrant InnoBits InnoView InnoDeadlock InnoSearch InnoResolve InnoRequest InnoLocking InnoJoin.

Lemma rec_conflict_sym s w l : lock_ok s w → lock_ok s l → rec_conflict w l → rec_conflict l w.
Proof.
  intros Hw Hl (H1 & H2 & H3 & H4 & H5 & H6). split_and!; [done..|]. rewrite <-H6. apply compatible_sym; unfold lock_modes.
  - destruct (lo_mode _ _ Hl) as [-> | ->]; set_solver.
  - destruct (lo_mode _ _ Hw) as [-> | ->]; set_solver.
Qed.

Lemma find_is_Some {A} (P : A → bool) q x : x ∈ q → P x = true → is_Some (List.find P q).
Proof.
  intros Hx HP. destruct (List.find P q) as [y|] eqn:Hf; [by eexists|]. apply list_elem_of_In in Hx. apply (List.find_none _ _ Hf) in Hx. congruence.
Qed.

(** Every mode of a request, one after the other. *)
Ltac each_mode H := repeat (apply elem_of_cons in H as [->|H]; [done|]); by apply elem_of_nil in H.

Section config.
  Context (cfg : config) (Hvats : ∀ t, uses_vats cfg t = false).

(** ** A lock that is granted at once *)

Lemma sys_ok_added s t block heap_no mode node :
  let l := new_lock false t block heap_no mode node in
  sys_ok cfg s → running s t → fresh_lock s node → mode ∈ request_modes → heap_no < page_dir_get_n_heap block →
  (∀ x, x ∈ rec_locks s (block_space block) (block_page_no block) heap_no →
     lock_rec_has_to_wait (need_ordering cfg) t mode x (heap_no =? PAGE_HEAP_NO_SUPREMUM) = false) →
  sys_ok cfg (added l s).
Proof.
  intros l Hs Hrun Hnew Hmode Hheap Hconf. destruct (new_lock_flags false t block heap_no mode node Hmode) as (_ & Hw & _ & _ & _ & Hm).
  fold l in Hw, Hm. assert (Hinv : inv None None (added l s)).
  { assert (H := inv_added s l (sys_inv _ _ Hs) Hnew Hrun). unfold joining_by in H. rewrite Hw in H. apply H; [apply new_lock_bitmap|done|by apply new_lock_one_bit|].
    intros _ x h Hx Hp Hh Hbl Hbx. unfold l in Hbl. rewrite new_lock_bit in Hbl by done. apply Nat.eqb_eq in Hbl as <-.
    eapply new_lock_no_conflict; [done..|]. apply Hconf. unfold rec_locks. apply list_elem_of_filter. split; [done|]. by apply elem_page. }
  split; [done| | |apply Hs].
  - apply settled_added; [apply Hs|apply Hs|]. by rewrite Hw.
  - intros Hd. eapply acyclic_mono; [|by apply Hs]. intros a b [?|[_ ?]]%(waits_for_added cfg s l (sys_inv _ _ Hs)); [done|congruence].
Qed.

(** ** One more bit in a lock *)

Lemma sys_ok_set_bit s l h :
  sys_ok cfg s → has_lock s l → lock_get_wait l = false → h < n_bits l →
  (∀ w, has_lock s w → lock_get_wait w = true → on_page (space l) (page_no l) w → lock_rec_get_nth_bit w h = false) →
  (h ≠ PAGE_HEAP_NO_SUPREMUM → ∀ x, has_lock s x → on_page (space l) (page_no l) x → lock_rec_get_nth_bit x h = true → ¬ rec_conflict l x) →
  sys_ok cfg (update_lock (lock_id l) (λ l, lock_rec_set_nth_bit l h) s).
Proof.
  intros Hs Hl Hw Hh Hnowait Hconf. assert (Hinv := sys_inv _ _ Hs). assert (Hok := inv_hash _ _ _ Hinv).
  set (f := λ l, lock_rec_set_nth_bit l h). assert (Hf : bit_change f) by apply set_bit_change.
  assert (Hbl := lo_bitmap _ _ (inv_lock _ _ _ Hinv _ Hl)).
  assert (Hapart : ∀ w, has_lock s w → lock_get_wait w = true → bit_apart f l w).
  { intros w Hws Hww Hp i Hi. unfold f. rewrite get_set_nth_bit by done. destruct (Nat.eqb_spec h i) as [<-|]; [|done].
    destruct (one_bit_find w) as (h' & Hf' & Hb & _); [by apply (inv_lock _ _ _ Hinv)|]. rewrite Hf' in Hi. simplify_eq. by rewrite Hnowait in Hb. }
  split; [| |intros Hd; eapply acyclic_mono; [|by apply Hs]; intros a b; by apply waits_for_apart|apply Hs].
  - apply inv_bits; [done..|]. intros w' x' i Hw' Hx' Hi Hbw Hbx Hc. apply (has_bits f s l Hf) in Hw' as (w & Hws & ->).
    assert (Hk := bit_change_upd (lock_id l) f Hf). destruct (Hk w) as (Hid & _ & _ & Hsp & Hpg & _).
    rewrite Hid, Hsp, Hpg, (page_bits f s l Hf), ahead_map in Hx' by (intros y; apply Hk).
    apply list_elem_of_fmap in Hx' as (x & -> & Hx). rewrite (bit_change_wait _ _ Hk).
    apply (rec_conflict_kind _ w _ x) in Hc; [|by apply bit_change_kind..]. assert (Hxa := Hx). apply elem_ahead in Hx as [Hx Hne]. apply elem_page in Hx as [Hx [Hxs Hxp]].
    assert (Hu : ∀ y, lock_rec_get_nth_bit (upd (lock_id l) f y) i = true → has_lock s y → lock_rec_get_nth_bit y i = true ∨ (y = l ∧ i = h)).
    { intros y Hy Hys. unfold upd in Hy. case_decide as He; [|by left]. assert (y = l) as -> by (by apply (lock_id_inj s)). unfold f in Hy.
      rewrite get_set_nth_bit in Hy by done. destruct (Nat.eqb_spec h i) as [<-|]; [by right|by left]. }
    destruct (Hu w Hbw Hws) as [Hbw'|[Hwl Hih]], (Hu x Hbx Hx) as [Hbx'|[Hxl Hih']].
    + by eapply (inv_rule3 _ _ _ Hinv).
    + subst x i. exfalso. apply (Hconf Hi w); [done|by split|done|]. by apply (rec_conflict_sym s); [apply Hinv|apply Hinv|].
    + subst w i. exfalso. by apply (Hconf Hi x); [done|split|done|].
    + congruence.
  - by apply all_settled_apart; [..|apply Hs].
Qed.

(** ** Locking a record *)

(** The transaction holds a lock on the record that is strong enough for the request. *)
Definition strong_enough (s : lock_sys_t) (mode : Z) (block : buf_block_t) (heap_no t : nat) : Prop :=
  is_Some (lock_rec_has_expl s mode (block_space block) (block_page_no block) heap_no t).

(** A granted lock of the kind of one with the [type_mode] of the request, or with the one
    it gets on the supremum. *)
Lemma strong_enough_lock s l k mode block heap_no t :
  mode ∈ record_modes → has_lock s l → on_page (block_space block) (block_page_no block) l → lock_rec_get_nth_bit l heap_no = true →
  lock_trx l = t → same_kind l k → lock_get_wait l = false →
  type_mode k = Z.lor mode LOCK_REC ∨ type_mode k = supremum_mode heap_no (Z.lor mode LOCK_REC) →
  strong_enough s mode block heap_no t.
Proof.
  intros Hmode Hl Hp Hb <- (_ & E2 & E3 & E4 & E5) Hw Htm. apply (find_is_Some _ _ l).
  { unfold rec_locks. apply list_elem_of_filter. split; [done|]. by apply elem_page. }
  rewrite Nat.eqb_refl, Hw, E2, E3, E4, E5. unfold lock_get_mode, lock_rec_get_insert_intention, lock_rec_get_gap, lock_rec_get_rec_not_gap, supremum_mode in *.
  destruct (heap_no =? PAGE_HEAP_NO_SUPREMUM); destruct Htm as [Htm|Htm]; rewrite !Htm; each_mode Hmode.
Qed.

Lemma granted_type_mode mode heap_no l :
  mode ∈ record_modes → type_mode l = Z.lor mode LOCK_REC ∨ type_mode l = supremum_mode heap_no (Z.lor mode LOCK_REC) → lock_get_wait l = false.
Proof.
  intros Hm Htm. unfold lock_get_wait. unfold supremum_mode in Htm. destruct (heap_no =? PAGE_HEAP_NO_SUPREMUM); destruct Htm as [-> | ->]; each_mode Hm.
Qed.

Lemma record_request mode : mode ∈ record_modes → mode ∈ request_modes.
Proof. apply list_elem_of_further. Qed.

Lemma new_lock_type_mode t block heap_no mode node :
  mode ∈ record_modes → type_mode (new_lock false t block heap_no mode node) = supremum_mode heap_no (Z.lor mode LOCK_REC).
Proof.
  intros Hm. unfold new_lock, lock_alloc, wait_mode, supremum_mode. cbn [type_mode lock_rec_set_nth_bit set_bitmap m_mode].
  destruct (heap_no =? PAGE_HEAP_NO_SUPREMUM); each_mode Hm.
Qed.

Lemma supremum_mode_twice heap_no m : supremum_mode heap_no (supremum_mode heap_no m) = supremum_mode heap_no m.
Proof.
  unfold supremum_mode. destruct (heap_no =? PAGE_HEAP_NO_SUPREMUM); [|done]. apply Z.bits_inj'. intros n Hn. rewrite !Z.ldiff_spec.
  by destruct (Z.testbit _ _), (Z.testbit _ _).
Qed.

Lemma new_lock_kind b b' t block heap_no mode node :
  mode ∈ request_modes → same_kind (new_lock b t block heap_no mode node) (new_lock b' t block heap_no mode node).
Proof.
  intros Hm. destruct (new_lock_flags b t block heap_no mode node Hm) as (E1 & _ & E3 & E4 & E5 & _).
  destruct (new_lock_flags b' t block heap_no mode node Hm) as (F1 & _ & F3 & F4 & F5 & _). unfold same_kind. split_and!; [done|congruence..].
Qed.

Lemma new_lock_again t block heap_no mode node :
  mode ∈ record_modes → lock_alloc (rec_lock_init t block heap_no (supremum_mode heap_no (Z.lor mode LOCK_REC)) node) = new_lock false t block heap_no mode node.
Proof.
  intros Hm. unfold rec_lock_init. rewrite supremum_mode_twice. unfold new_lock, lock_alloc, wait_mode. cbn [m_mode m_block m_trx m_heap_no m_node].
  f_equal. f_equal. unfold supremum_mode.
  destruct (heap_no =? PAGE_HEAP_NO_SUPREMUM); each_mode Hm.
Qed.

Section request.
  Context (s : lock_sys_t) (t : nat) (block : buf_block_t) (heap_no : nat) (mode : Z) (node : nat).
  Context (Hs : sys_ok cfg s) (Hrun : running s t) (Hgo : query_runs s t) (Hnew : fresh_lock s node).
  Context (Hmode : mode ∈ record_modes) (Hheap : heap_no < page_dir_get_n_heap block).
  Notation sp := (block_space block).
  Notation pg := (block_page_no block).
  Notation l0 := (new_lock false t block heap_no mode node).

(** A new granted lock. *)
Lemma create_granted :
  (∀ x, x ∈ rec_locks s sp pg heap_no → lock_rec_has_to_wait (need_ordering cfg) t mode x (heap_no =? PAGE_HEAP_NO_SUPREMUM) = false) →
  sys_ok cfg (added l0 s) ∧ strong_enough (added l0 s) mode block heap_no t.
Proof.
  intros Hconf. split; [apply sys_ok_added; [done..|by apply record_request|done|done]|].
  eapply (strong_enough_lock _ l0 l0); [done|apply has_added; [apply Hs|by right]|done| |done|done| |].
  - rewrite new_lock_bit by done. apply Nat.eqb_refl.
  - by apply new_lock_flags, record_request.
  - right. by apply new_lock_type_mode.
Qed.

(** A bit in a granted lock of the same kind. *)
Lemma set_bit_granted l :
  has_lock s l → on_page sp pg l → lock_trx l = t → heap_no < n_bits l →
  type_mode l = Z.lor mode LOCK_REC ∨ type_mode l = supremum_mode heap_no (Z.lor mode LOCK_REC) →
  (∀ w, has_lock s w → lock_get_wait w = true → on_page sp pg w → lock_rec_get_nth_bit w heap_no = false) →
  (heap_no ≠ PAGE_HEAP_NO_SUPREMUM → ∀ x, has_lock s x → on_page sp pg x → lock_rec_get_nth_bit x heap_no = true → ¬ rec_conflict l x) →
  let s' := update_lock (lock_id l) (λ l, lock_rec_set_nth_bit l heap_no) s in
  sys_ok cfg s' ∧ strong_enough s' mode block heap_no t.
Proof.
  intros Hl [Hsp Hpg] Ht Hn Htm Hnowait Hconf s'. assert (Hw : lock_get_wait l = false) by (by apply (granted_type_mode mode heap_no)).
  split; [apply sys_ok_set_bit; [done..| |]; by rewrite Hsp, Hpg|].
  eapply (strong_enough_lock _ (lock_rec_set_nth_bit l heap_no) (lock_rec_set_nth_bit l heap_no)); [done| |by split| |done|done|done|done].
  - apply (has_bits (λ l, lock_rec_set_nth_bit l heap_no) s l (set_bit_change heap_no)). exists l. split; [done|]. unfold upd. by rewrite decide_True.
  - rewrite get_set_nth_bit; [by rewrite Nat.eqb_refl| |done]. by apply (inv_lock _ _ _ (sys_inv _ _ Hs)).
Qed.

Lemma rec_add_to_queue_Ok :
  (∀ x, x ∈ rec_locks s sp pg heap_no → lock_rec_has_to_wait (need_ordering cfg) t mode x (heap_no =? PAGE_HEAP_NO_SUPREMUM) = false) →
  ∃ s', lock_rec_add_to_queue cfg (Z.lor LOCK_REC mode) block heap_no t node s = Ok (tt, s') ∧ sys_ok cfg s' ∧ strong_enough s' mode block heap_no t.
Proof.
  intros Hconf. unfold lock_rec_add_to_queue. erewrite bind_Ok by done.
  assert (Htm : supremum_mode heap_no (Z.lor (Z.lor LOCK_REC mode) LOCK_REC) = supremum_mode heap_no (Z.lor mode LOCK_REC)).
  { f_equal. rewrite (Z.lor_comm LOCK_REC mode), <-Z.lor_assoc. done. }
  rewrite Htm. clear Htm. assert (Hcreate : ∃ s', (_ ← create cfg (rec_lock_init t block heap_no (supremum_mode heap_no (Z.lor mode LOCK_REC)) node); mret tt) s = Ok (tt, s') ∧
             sys_ok cfg s' ∧ strong_enough s' mode block heap_no t).
  { exists (added l0 s). split; [|by apply create_granted]. erewrite bind_Ok by (apply create_Ok; [apply Hvats|apply Hs|done]).
    by rewrite new_lock_again. }
  destruct (existsb _ (page_locks s sp pg)) eqn:Hex; cbn [negb andb]; [done|].
  destruct (has_flag _ LOCK_WAIT); cbn [negb]; [done|].
  destruct (lock_rec_find_similar_on_page _ _ _ _) as [l|] eqn:Hsim; [|done].
  apply List.find_some in Hsim as [Hl [[Ht%Nat.eqb_eq Htm%Z.eqb_eq]%andb_true_iff Hn%Nat.ltb_lt]%andb_true_iff].
  apply list_elem_of_In in Hl. apply elem_page in Hl as [Hl Hp].
  eexists. split; [done|]. apply set_bit_granted; [done..|by right| |].
  - intros w Hw Hww Hwp. destruct (lock_rec_get_nth_bit w heap_no) eqn:Hb; [|done]. exfalso.
    apply not_true_iff_false in Hex. apply Hex. apply existsb_exists. exists w. split; [|by rewrite Hww, Hb].
    apply list_elem_of_In. by apply elem_page.
  - intros Hh x Hx Hxp Hb Hc. eapply (new_lock_no_conflict false t block heap_no mode node); [by apply record_request|done| |].
    + apply Hconf. unfold rec_locks. apply list_elem_of_filter. split; [done|]. by apply elem_page.
    + eapply (rec_conflict_kind l _ x x); [|done|done]. unfold same_kind, lock_get_mode, lock_rec_get_gap, lock_rec_get_rec_not_gap, lock_rec_get_insert_intention.
      rewrite new_lock_type_mode, Htm by done. done.
Qed.

(** What the caller of [lock_rec_lock] gets. With [impl] nothing is set if there is nothing
    to wait for. *)
Definition lock_result (impl : bool) (err : dberr_t) (s' : lock_sys_t) : Prop :=
  match err with
  | DB_SUCCESS | DB_SUCCESS_LOCKED_REC => impl = false → strong_enough s' mode block heap_no t
  | DB_LOCK_WAIT => ∃ w, has_lock s' w ∧ same_shape w (new_lock true t block heap_no mode node) ∧ lock_get_wait w = true
  | DB_DEADLOCK => running s' t
  | DB_DUPLICATE_KEY | DB_ERROR => False
  end.

Lemma lock_fast_Ok impl :
  ∃ st s', lock_rec_lock_fast cfg impl mode block heap_no t node s = Ok (st, s') ∧
    match st with
    | LOCK_REC_FAIL => s' = s
    | _ => sys_ok cfg s' ∧ (impl = false → strong_enough s' mode block heap_no t)
    end.
Proof.
  unfold lock_rec_lock_fast. erewrite bind_Ok by done. destruct (page_locks s sp pg) as [|l rest] eqn:Hp.
  { destruct impl; [by exists LOCK_REC_SUCCESS_CREATED, s|]. exists LOCK_REC_SUCCESS_CREATED, (added l0 s). split.
    - erewrite bind_Ok; [done|]. by erewrite bind_Ok by (apply create_Ok; [apply Hvats|apply Hs|done]).
    - destruct create_granted; [|done]. intros x. unfold rec_locks. rewrite Hp. by intros ?%elem_of_nil. }
  destruct (bool_decide (rest ≠ []) || negb (lock_trx l =? t) || negb (type_mode l =? Z.lor mode LOCK_REC)%Z || (n_bits l <=? heap_no)) eqn:Hc.
  { by exists LOCK_REC_FAIL, s. }
  rewrite !orb_false_iff, !negb_false_iff, bool_decide_eq_false, Nat.eqb_eq, Z.eqb_eq, Nat.leb_gt in Hc.
  destruct Hc as [[[Hr Ht] Htm] Hn]. apply dec_stable in Hr as ->.
  assert (Hl : has_lock s l ∧ on_page sp pg l) by (apply elem_page; rewrite Hp; set_solver). destruct Hl as [Hl Hlp].
  assert (Honly : ∀ x, has_lock s x → on_page sp pg x → x = l).
  { intros x Hx Hxp. assert (H : x ∈ page_locks s sp pg) by (by apply elem_page). rewrite Hp in H. by apply list_elem_of_singleton in H. }
  destruct impl; cbn [negb andb]; [by exists LOCK_REC_SUCCESS, s|]. destruct (lock_rec_get_nth_bit l heap_no) eqn:Hb; cbn [negb].
  - exists LOCK_REC_SUCCESS, s. split_and!; [done..|]. intros _. eapply (strong_enough_lock _ l l); eauto; [done|]. apply (granted_type_mode mode heap_no); eauto.
  - eexists LOCK_REC_SUCCESS_CREATED, _. split; [done|]. destruct (set_bit_granted l) as [H1 H2]; eauto.
    + intros w Hw Hww Hwp. by rewrite (Honly w Hw Hwp).
    + intros _ x Hx Hxp Hxb. by rewrite (Honly x Hx Hxp), Hb in Hxb.
Qed.

Lemma lock_slow_Ok impl :
  request_room s → ∃ err s', lock_rec_lock_slow cfg impl mode block heap_no t node s = Ok (err, s') ∧ sys_ok cfg s' ∧ lock_result impl err s'.
Proof.
  intros Hroom. unfold lock_rec_lock_slow. erewrite bind_Ok by done. unfold id.
  destruct (lock_rec_has_expl s mode sp pg heap_no t) as [l|] eqn:Hex.
  { exists DB_SUCCESS, s. split_and!; [done..|]. intros _. by exists l. }
  destruct (lock_rec_other_has_conflicting cfg s mode sp pg heap_no t) as [x|] eqn:Hcf.
  { apply List.find_some in Hcf as [Hx%list_elem_of_In Hwt].
    destruct (add_to_waitq_Ok cfg Hvats s t block heap_no mode node Hs Hrun Hgo Hnew Hroom (record_request _ Hmode) Hheap x Hx Hwt) as (err & s' & Hq & Hs' & Hres).
    exists err, s'. split_and!; [done..|]. destruct err; [done| |done..].
    destruct Hres as (w & Hw & Hsh & Hww & _). intros _. eapply (strong_enough_lock _ w l0); [done|done| | | | |done|right; by apply new_lock_type_mode].
    - unfold on_page. by rewrite (shape_space _ _ Hsh), (shape_page _ _ Hsh).
    - rewrite (shape_bit _ _ _ Hsh), new_lock_bit by done. apply Nat.eqb_refl.
    - by apply Hsh.
    - etrans; [apply Hsh|]. by apply new_lock_kind, record_request. }
  assert (Hconf : ∀ x, x ∈ rec_locks s sp pg heap_no → lock_rec_has_to_wait (need_ordering cfg) t mode x (heap_no =? PAGE_HEAP_NO_SUPREMUM) = false).
  { intros x Hx%list_elem_of_In. by apply (List.find_none _ _ Hcf). }
  destruct impl; cbn [negb]; [by exists DB_SUCCESS, s|]. destruct (rec_add_to_queue_Ok Hconf) as (s' & Hq & Hs' & Hst).
  exists DB_SUCCESS_LOCKED_REC, s'. split_and!; [by erewrite bind_Ok by done|done|by intros _].
Qed.

Lemma lock_rec_lock_Ok impl :
  request_room s → ∃ err s', lock_rec_lock cfg impl mode block heap_no t node s = Ok (err, s') ∧ sys_ok cfg s' ∧ lock_result impl err s'.
Proof.
  intros Hroom. unfold lock_rec_lock. destruct (lock_fast_Ok impl) as (st & s1 & Hf & Hst). erewrite bind_Ok by done. destruct st.
  - subst s1. by apply lock_slow_Ok.
  - exists DB_SUCCESS, s1. by destruct Hst.
  - exists DB_SUCCESS_LOCKED_REC, s1. by destruct Hst.
Qed.

End request.

(** ** Checking an insert *)

(** No lock of another transaction forbids the insert before the record. *)
Definition insert_allowed (s : lock_sys_t) (block : buf_block_t) (heap_no t : nat) : Prop :=
  ∀ x, x ∈ rec_locks s (block_space block) (block_page_no block) heap_no →
    lock_rec_has_to_wait (need_ordering cfg) t insert_mode x (heap_no =? PAGE_HEAP_NO_SUPREMUM) = false.

Definition insert_result (block : buf_block_t) (heap_no t node : nat) (err : dberr_t) (s' : lock_sys_t) : Prop :=
  match err with
  | DB_SUCCESS => insert_allowed s' block heap_no t
  | DB_SUCCESS_LOCKED_REC | DB_DUPLICATE_KEY | DB_ERROR => False
  | DB_LOCK_WAIT => ∃ w, has_lock s' w ∧ same_shape w (new_lock true t block heap_no insert_mode node) ∧ lock_get_wait w = true
  | DB_DEADLOCK => running s' t
  end.

Lemma insert_check_Ok s t block heap_no node :
  sys_ok cfg s → running s t → query_runs s t → fresh_lock s node → heap_no < page_dir_get_n_heap block → request_room s →
  ∃ err s', lock_rec_insert_check_and_lock cfg block heap_no t node s = Ok (err, s') ∧ sys_ok cfg s' ∧ insert_result block heap_no t node err s'.
Proof.
  intros Hs Hrun Hgo Hnew Hheap Hroom. unfold lock_rec_insert_check_and_lock. erewrite bind_Ok by done. unfold id.
  assert (Hno : lock_rec_other_has_conflicting cfg s insert_mode (block_space block) (block_page_no block) heap_no t = None → insert_allowed s block heap_no t).
  { intros Hn x Hx%list_elem_of_In. by apply (List.find_none _ _ Hn). }
  destruct (rec_locks s _ _ heap_no) as [|l q] eqn:Hq.
  { exists DB_SUCCESS, s. split_and!; [done..|]. intros x. rewrite Hq. by intros ?%elem_of_nil. }
  change (Z.lor (Z.lor LOCK_X LOCK_GAP) LOCK_INSERT_INTENTION) with insert_mode.
  destruct (lock_rec_other_has_conflicting cfg s insert_mode _ _ heap_no t) as [x|] eqn:Hcf; [|exists DB_SUCCESS, s; split_and!; [done..|by apply Hno]].
  apply List.find_some in Hcf as [Hx%list_elem_of_In Hwt].
  destruct (add_to_waitq_Ok cfg Hvats s t block heap_no insert_mode node) with (x := x) as (err & s' & Hw & Hs' & Hres); try done.
  { apply list_elem_of_here. }
  erewrite bind_Ok by done. eexists _, s'. split_and!; [done..|]. destruct err; [done| |done..].
  destruct Hres as (w & Hws & Hsh & _ & Hfree). cbn. intros y Hy.
  destruct (lock_rec_has_to_wait (need_ordering cfg) t insert_mode y (heap_no =? PAGE_HEAP_NO_SUPREMUM)) eqn:Hyw; [|done].
  apply (new_lock_waits true t block heap_no insert_mode node) in Hyw; [|apply list_elem_of_here|done].
  rewrite <-(shape_waits _ w _ y) in Hyw by done. rewrite Hfree in Hyw; [done|]. unfold queue_of. rewrite (shape_find _ _ Hsh).
  destruct (one_bit_find (new_lock true t block heap_no insert_mode node)) as (h & Hf & Hb & _); [by apply new_lock_one_bit|].
  rewrite new_lock_bit in Hb by done. apply Nat.eqb_eq in Hb as <-. rewrite Hf, (shape_space _ _ Hsh), (shape_page _ _ Hsh). done.
Qed.

(** ** Unlocking a record *)

Section unlock.
  Context (s : lock_sys_t) (l : lock_t) (sp pg : Z) (h : nat).
  Context (Hs : sys_ok cfg s) (Hl : l ∈ rec_locks s sp pg h) (Hw : lock_get_wait l = false).
  Notation f := (λ l, lock_rec_reset_nth_bit l h).
  Notation s1 := (update_lock (lock_id l) f s).
  Notation u := (upd (lock_id l) f).
  Notation locks := (map u (rec_locks s sp pg h)).
  Notation chain := (take 1 locks ++ filter (λ l, lock_rec_get_nth_bit l h = true) (drop 1 locks)).

Lemma unlock_bit i : lock_rec_get_nth_bit (f l) i = negb (h =? i) && lock_rec_get_nth_bit l i.
Proof.
  apply elem_rec_locks in Hl as (Hls & _ & Hlb). apply get_reset_nth_bit; [|by apply bit_lt]. by apply (inv_lock _ _ _ (sys_inv _ _ Hs)).
Qed.

Lemma unlock_fewer i : lock_rec_get_nth_bit (f l) i = true → lock_rec_get_nth_bit l i = true.
Proof. rewrite unlock_bit. by intros [_ ?]%andb_true_iff. Qed.

Lemma unlock_inv : inv None None s1.
Proof.
  assert (Hl' := Hl). apply elem_rec_locks in Hl' as (Hls & _). assert (Hinv := sys_inv _ _ Hs).
  apply (inv_bits f s l (reset_bit_change h)); [apply Hinv|done..|]. apply (rule3_fewer f s l (reset_bit_change h)); [apply Hinv|done|apply unlock_fewer|apply Hinv].
Qed.

Lemma unlock_chain_sub : chain `sublist_of` locks.
Proof. rewrite <-(take_drop 1 locks) at 3. apply sublist_app; [done|]. apply sublist_filter. Qed.

Lemma unlock_chain_ids : NoDup (map lock_id chain).
Proof.
  eapply sublist_NoDup; [|apply fmap_sublist, unlock_chain_sub]. change (lock_id <$> locks) with (map lock_id locks).
  rewrite map_map. erewrite map_ext by (intros x; apply (bit_change_upd (lock_id l) f (reset_bit_change h) x)).
  eapply sublist_NoDup; [apply (page_ids s sp pg), Hs|]. apply fmap_sublist, sublist_filter.
Qed.

Lemma unlock_chain_has x : x ∈ chain → has_lock s1 x.
Proof.
  intros Hx. destruct (proj1 (list_elem_of_fmap _ _ _) (elem_of_sublist _ _ _ Hx unlock_chain_sub)) as (y & -> & [Hy _]%elem_rec_locks).
  apply (has_bits f s l (reset_bit_change h)). by exists y.
Qed.

(** Every waiting lock of the record is looked at. *)
Lemma unlock_chain_waiting w : has_lock s w → lock_get_wait w = true → on_page sp pg w → lock_rec_get_nth_bit w h = true → w ∈ chain.
Proof.
  intros Hws Hww Hp Hb. assert (Hls := Hl). apply elem_rec_locks in Hls as (Hls & _).
  assert (Hin : w ∈ locks).
  { apply list_elem_of_fmap. exists w. split; [|by apply elem_rec_locks]. symmetry. by apply (upd_wait f s l); [apply Hs|..]. }
  rewrite <-(take_drop 1 locks) in Hin. apply elem_of_app. apply elem_of_app in Hin as [?|?]; [by left|right]. by apply list_elem_of_filter.
Qed.

Lemma unlock_grants : ∃ s', grant_loop cfg chain s1 = Ok (tt, s') ∧ sys_ok cfg s'.
Proof.
  assert (Hls := Hl). apply elem_rec_locks in Hls as (Hls & [Hlsp Hlpg] & _). assert (Hinv1 := unlock_inv). assert (Hok := inv_hash _ _ _ (sys_inv _ _ Hs)).
  destruct (grant_loop_Ok cfg None None chain s1 Hinv1 unlock_chain_ids unlock_chain_has) as (s' & Hrun & Hgr & Hset). exists s'. split; [done|].
  destruct (grants_evolve cfg None None s1 s' Hinv1 Hgr) as (G & Hev & _). split.
  - by eapply (grants_inv cfg).
  - intros id w' Hw' <- Hww'. assert (Hws1 := Hw'). apply (evolves_has _ _ _ _ _ Hev) in Hws1 as (w & Hws1 & _ & ->).
    assert (Hww := Hww'). apply evo_wait in Hww as [Hww _]. assert (Hws : has_lock s w) by (by apply (has_bits_wait f s l (reset_bit_change h))).
    destruct (decide (on_page sp pg w ∧ lock_rec_get_nth_bit w h = true)) as [[Hp Hb]|Hn].
    + eapply (Hset w); [by apply unlock_chain_waiting|done|by rewrite evo_id|done].
    + eapply (settled_grants cfg None None s1 s' (lock_id w) Hinv1 Hgr); [|done|by rewrite evo_id|done].
      apply (settled_apart cfg f s l (reset_bit_change h)); [done..| |done|apply Hs]. intros Hp i Hi. rewrite unlock_bit.
      destruct (Nat.eqb_spec h i) as [->|]; [|done]. exfalso. apply Hn. unfold on_page in *. rewrite Hlsp, Hlpg in Hp. split; [done|].
      destruct (one_bit_find w) as (i' & Hf' & Hb & _); [by apply (inv_lock _ _ _ (sys_inv _ _ Hs))|]. congruence.
  - intros Hd. eapply acyclic_mono; [|by apply Hs]. intros a b Hab. apply (evolves_waits_for cfg ∅ G s1) in Hab; [|apply Hinv1|done].
    by apply (waits_for_fewer cfg f s l (reset_bit_change h)) in Hab; [..|apply unlock_fewer].
  - rewrite (grants_counter cfg _ _ Hgr). apply Hs.
Qed.

End unlock.

Lemma rec_unlock_Ok s t block heap_no mode :
  sys_ok cfg s → running s t → ∃ s', lock_rec_unlock cfg t block heap_no mode s = Ok (tt, s') ∧ sys_ok cfg s'.
Proof.
  intros Hs Hrun. unfold lock_rec_unlock. erewrite bind_Ok by done. destruct (List.find _ _) as [l|] eqn:Hfind; [|by exists s].
  apply List.find_some in Hfind as [Hl%list_elem_of_In [Ht%Nat.eqb_eq _]%andb_true_iff].
  assert (Hls := Hl). apply elem_rec_locks in Hls as (Hls & _).
  assert (Hw : lock_get_wait l = false) by (apply (running_granted _ _ _ _ (sys_inv _ _ Hs) Hls); by rewrite Ht).
  rewrite assert_true by (by rewrite Hw). erewrite bind_Ok by done. rewrite Hvats. cbn [negb]. by eapply unlock_grants.
Qed.

End config.
