(* ===== verification/InnoCarry.v ===== *)
(** The steps of which moving and inheriting record locks of InnoDB consist, and what each
    of them does to the queues of the records: a bit is taken out of a lock, a waiting
    request is withdrawn, a request is added to a queue. *)
From stdpp Require Import functions base tactics numbers option list list_numbers gmap sets relations sorting.
From Stdlib Require Import ZArith Lia.
From S2P Require Import Prelude InnoMode InnoSys InnoQueue InnoInv InnoGrant InnoBits InnoView InnoDeadlock InnoSearch InnoResolve InnoRequest InnoMove InnoLocking InnoJoin.

(** ** The locks in the queue of a record *)

(** A lock without its bitmap. *)
Definition strip (l : lock_t) : lock_t := mk_lock (lock_id l) (lock_trx l) (type_mode l) (space l) (page_no l) 0 [].

Definition queue (s : lock_sys_t) (sp pg : Z) (h : nat) : list lock_t := map strip (rec_locks s sp pg h).

Lemma queue_view s sp pg h : view s sp pg h = map entry_of (queue s sp pg h).
Proof. unfold view, queue. rewrite map_map. done. Qed.

Lemma elem_queue s sp pg h x : x ∈ queue s sp pg h ↔ ∃ l, has_lock s l ∧ on_page sp pg l ∧ lock_rec_get_nth_bit l h = true ∧ x = strip l.
Proof.
  unfold queue. rewrite list_elem_of_fmap. setoid_rewrite elem_rec_locks. split.
  - intros (l & -> & ? & ? & ?). by exists l.
  - intros (l & ? & ? & ? & ->). by exists l.
Qed.

Notation bit h := (λ l, lock_rec_get_nth_bit l h = true).

Lemma queue_map g q h :
  (∀ x, x ∈ q → lock_rec_get_nth_bit (g x) h = lock_rec_get_nth_bit x h ∧ (lock_rec_get_nth_bit x h = true → strip (g x) = strip x)) →
  map strip (filter (bit h) (map g q)) = map strip (filter (bit h) q).
Proof.
  induction q as [|x q IH]; intros Hg; [done|]. cbn [map]. rewrite !filter_cons. destruct (Hg x) as [Hb Hs]; [left|]. rewrite Hb.
  destruct (decide (lock_rec_get_nth_bit x h = true)) as [Hx|Hx]; cbn [map]; rewrite IH by set_solver; [|done]. by rewrite Hs.
Qed.

Lemma queue_map_drop g q h id :
  (∀ x, x ∈ q → if decide (lock_id x = id) then lock_rec_get_nth_bit (g x) h = false else g x = x) →
  map strip (filter (bit h) (map g q)) = filter (λ x, lock_id x ≠ id) (map strip (filter (bit h) q)).
Proof.
  induction q as [|x q IH]; intros Hg; [done|]. cbn [map]. rewrite !filter_cons. assert (Hx := Hg x ltac:(left)).
  assert (IH' := IH ltac:(set_solver)). destruct (decide (lock_id x = id)) as [He|Hne].
  - rewrite Hx, decide_False by done. rewrite IH'. destruct (decide (lock_rec_get_nth_bit x h = true)); [|done]. cbn [map].
    rewrite filter_cons, decide_False; [done|]. cbn. by intros [].
  - rewrite Hx. destruct (decide (lock_rec_get_nth_bit x h = true)); [|done]. cbn [map]. rewrite filter_cons, decide_True by done. by rewrite IH'.
Qed.

(** A lock changes in a way that does not matter for the record. *)
Lemma queue_update_same s id f sp pg h :
  keeps_place f →
  (∀ x, has_lock s x → lock_id x = id → on_page sp pg x →
     lock_rec_get_nth_bit (f x) h = lock_rec_get_nth_bit x h ∧ (lock_rec_get_nth_bit x h = true → strip (f x) = strip x)) →
  queue (update_lock id f s) sp pg h = queue s sp pg h.
Proof.
  intros Hf Hx. unfold queue, rec_locks. rewrite page_update_lock by done. apply queue_map. intros x [Hxs Hxp]%elem_page.
  unfold upd. case_decide; [|done]. by apply Hx.
Qed.

(** A lock loses its bit for the record. *)
Lemma queue_update_drop s id f sp pg h :
  keeps_place f → (∀ x, has_lock s x → lock_id x = id → on_page sp pg x → lock_rec_get_nth_bit (f x) h = false) →
  queue (update_lock id f s) sp pg h = filter (λ x, lock_id x ≠ id) (queue s sp pg h).
Proof.
  intros Hf Hx. unfold queue, rec_locks. rewrite page_update_lock by done. apply queue_map_drop. intros x [Hxs Hxp]%elem_page.
  unfold upd. case_decide; [|done]. by apply Hx.
Qed.

Lemma has_update_other s id f x : keeps_place f → has_lock s x → lock_id x ≠ id → has_lock (update_lock id f s) x.
Proof. intros Hf Hx Hne. apply has_update_lock; [done|]. exists x. split; [done|]. unfold upd. by rewrite decide_False. Qed.

Lemma queue_added s l sp pg h :
  hash_ok s → queue (added l s) sp pg h = queue s sp pg h ++ (if decide (on_page sp pg l ∧ lock_rec_get_nth_bit l h = true) then [strip l] else []).
Proof.
  intros Hok. unfold queue, rec_locks. rewrite page_added by done. rewrite filter_app, map_app. f_equal.
  destruct (decide (on_page sp pg l)) as [Hp|Hp].
  - rewrite filter_cons. destruct (decide (lock_rec_get_nth_bit l h = true)) as [Hb|Hb]; [by rewrite decide_True|].
    rewrite decide_False by tauto. done.
  - rewrite decide_False by tauto. done.
Qed.

Lemma queue_ids s sp pg h : hash_ok s → NoDup (map lock_id (queue s sp pg h)).
Proof.
  intros Hok. unfold queue. rewrite map_map. eapply sublist_NoDup; [apply (page_ids s sp pg Hok)|]. apply (fmap_sublist lock_id), sublist_filter.
Qed.

Lemma rule3_sublist v v' : v' `sublist_of` v → rule3_view v → rule3_view v'.
Proof.
  intros Hsub H3 v1' e v2' x -> Hx Hc. apply sublist_app_l in Hsub as (v1 & v2 & -> & H1 & H2).
  apply sublist_cons_l in H2 as (v3 & v4 & -> & _). apply (H3 (v1 ++ v3) e v4 x); [by rewrite <-app_assoc| |done].
  apply elem_of_app. left. by eapply elem_of_sublist.
Qed.

(** ** Taking a bit out of a lock *)

(** The queues are as before, but for one record. *)
Definition other_queues (s s' : lock_sys_t) (sp pg : Z) (h : nat) : Prop :=
  ∀ sp' pg' h', (sp', pg', h') ≠ (sp, pg, h) → queue s' sp' pg' h' = queue s sp' pg' h'.

(** All records lose some requests, if any. *)
Lemma rule3_queues s s' :
  hash_ok s → hash_ok s' → (∀ sp pg h, queue s' sp pg h `sublist_of` queue s sp pg h) → rule3 s → rule3 s'.
Proof.
  intros Hok Hok' Hsub. rewrite !rule3_views by done. intros H3 sp pg h Hh. eapply rule3_sublist; [|by apply (H3 sp pg)].
  rewrite !queue_view. apply fmap_sublist, Hsub.
Qed.

Lemma reset_bit_get l h i : bitmap_ok l → lock_rec_get_nth_bit (lock_rec_reset_nth_bit l h) i = lock_rec_get_nth_bit l i && negb (h =? i).
Proof.
  intros Hb. destruct (Nat.ltb_spec h (n_bits l)) as [Hh|Hh].
  - rewrite get_reset_nth_bit by done. apply andb_comm.
  - unfold lock_rec_reset_nth_bit. rewrite list_insert_ge.
    + replace (set_bitmap l (bitmap l)) with l by (by destruct l). destruct (Nat.eqb_spec h i) as [<-|]; [|by rewrite andb_true_r].
      rewrite andb_false_r. destruct (lock_rec_get_nth_bit l h) eqn:He; [|done]. apply bit_lt in He. lia.
    + unfold bitmap_ok in Hb. assert (H := Nat.div_mod_eq h 8). assert (H' := Nat.mod_upper_bound h 8). lia.
Qed.

Section unbit.
  Context (s : lock_sys_t) (l : lock_t) (h : nat).
  Context (Hinv : inv None None s) (Hl : has_lock s l).
  Notation f := (λ l, lock_rec_reset_nth_bit l h).
  Notation s' := (update_lock (lock_id l) f s).

Lemma reset_queue_other g :
  keeps_place g → (∀ i, lock_rec_get_nth_bit (g l) i = lock_rec_get_nth_bit l i && negb (h =? i)) →
  (∀ i, i ≠ h → lock_rec_get_nth_bit l i = true → strip (g l) = strip l) →
  queue (update_lock (lock_id l) g s) (space l) (page_no l) h = filter (λ x, lock_id x ≠ lock_id l) (queue s (space l) (page_no l) h) ∧
  other_queues s (update_lock (lock_id l) g s) (space l) (page_no l) h.
Proof.
  intros Hg Hbit Hst. assert (Hx : ∀ x, has_lock s x → lock_id x = lock_id l → x = l) by (intros; apply (lock_id_inj s); [apply Hinv|done..]). split.
  - apply queue_update_drop; [done|]. intros x Hxs Hid _. rewrite (Hx x) by done. by rewrite Hbit, Nat.eqb_refl, andb_false_r.
  - intros sp pg i Hne. apply queue_update_same; [done|]. intros x Hxs Hid [<- <-]. assert (x = l) as -> by (by apply Hx).
    assert (Hi : i ≠ h) by (by intros ->). rewrite Hbit, (proj2 (Nat.eqb_neq h i)) by done. rewrite andb_true_r. split; [done|]. by apply Hst.
Qed.

(** A granted lock. *)
Lemma unbit_Ok :
  lock_get_wait l = false →
  inv None None s' ∧ queue s' (space l) (page_no l) h = filter (λ x, lock_id x ≠ lock_id l) (queue s (space l) (page_no l) h) ∧
  other_queues s s' (space l) (page_no l) h.
Proof.
  intros Hw. assert (Hok := inv_hash _ _ _ Hinv). assert (Hb := lo_bitmap _ _ (inv_lock _ _ _ Hinv _ Hl)). split.
  - apply inv_bits; [apply reset_bit_change|done..|]. apply rule3_fewer; [apply reset_bit_change|done..| |apply Hinv].
    intros i. rewrite reset_bit_get by done. by intros [? _]%andb_true_iff.
  - apply (reset_queue_other f); [apply bit_change_place, reset_bit_change|intros i; by apply reset_bit_get|done].
Qed.

End unbit.

(** ** Withdrawing a waiting request *)

Definition unwait (w : lock_t) (h : nat) (s : lock_sys_t) : lock_sys_t :=
  update_lock (lock_id w) (λ l, granted (lock_rec_reset_nth_bit l h)) (update_trx (lock_trx w) (set_wait_lock None) s).

Lemma unwait_run w h s :
  (_ ← modify (update_lock (lock_id w) (λ l, lock_rec_reset_nth_bit l h)); lock_reset_lock_and_trx_wait w) s = Ok (tt, unwait w h s).
Proof.
  erewrite bind_Ok by done. unfold lock_reset_lock_and_trx_wait, modify, unwait, update_lock, update_trx, set_rec_hash. cbn. do 3 f_equal.
  rewrite map_map. apply map_ext. intros q. rewrite map_map. apply map_ext. intros l. unfold upd.
  destruct (decide (lock_id l = lock_id w)); [by rewrite decide_True|by rewrite decide_False].
Qed.

Section unwait.
  Context (s : lock_sys_t) (w : lock_t) (h : nat).
  Context (Hinv : inv None None s) (Hw : has_lock s w) (Hww : lock_get_wait w = true) (Hh : lock_rec_get_nth_bit w h = true).
  Notation g := (λ l, granted (lock_rec_reset_nth_bit l h)).
  Notation s' := (unwait w h s).
  Notation t := (lock_trx w).

Lemma unwait_place : keeps_place g.
Proof. by intros l. Qed.

Lemma has_unwait x' : has_lock s' x' ↔ ∃ x, has_lock s x ∧ x' = upd (lock_id w) g x.
Proof. exact (has_update_lock (update_trx t (set_wait_lock None) s) (lock_id w) g x' unwait_place). Qed.

Lemma upd_not_w x : has_lock s x → x ≠ w → upd (lock_id w) g x = x.
Proof. intros Hx Hne. unfold upd. case_decide as He; [|done]. destruct Hne. by apply (lock_id_inj s); [apply Hinv|..]. Qed.

Lemma upd_w : upd (lock_id w) g w = g w.
Proof. unfold upd. by rewrite decide_True. Qed.

Lemma unwait_wait x : has_lock s' x → lock_get_wait x = true → has_lock s x ∧ lock_trx x ≠ t.
Proof.
  intros (y & Hy & ->)%has_unwait Hxw. destruct (decide (y = w)) as [->|Hne]; [by rewrite upd_w, granted_wait in Hxw|].
  rewrite upd_not_w in * by done. split; [done|]. intros Ht. apply Hne. by eapply inv_wait_unique.
Qed.

Lemma lookup_unwait u trx :
  trxs s' !! u = Some trx → ∃ trx0, trxs s !! u = Some trx0 ∧ (u ≠ t ∧ trx = trx0 ∨ u = t ∧ trx = set_wait_lock None trx0).
Proof.
  cbn. intros Hu. destruct (decide (u = t)) as [->|Hne].
  - rewrite lookup_alter_eq in Hu. destruct (trxs s !! t) as [trx0|]; simplify_eq/=. exists trx0. by split; [|right].
  - rewrite lookup_alter_ne in Hu by done. exists trx. by split; [|left].
Qed.

Lemma unwait_lock_ok x : has_lock s' x → lock_ok s' x.
Proof.
  intros Hx'. assert (Hx := Hx'). apply has_unwait in Hx as (y & Hy & ->). destruct (inv_lock _ _ _ Hinv _ Hy) as [H1 H2 H3 (trx & Ht & Hin & Hwt)].
  destruct (unwait_place y) as (E1 & E2 & _). split.
  - unfold upd. case_decide; [|done]. unfold granted, bitmap_ok. cbn. by apply (reset_nth_bit_ok y h).
  - unfold upd. case_decide; [|done]. destruct (granted_kind (lock_rec_reset_nth_bit y h)) as (_ & E & _). by rewrite E.
  - intros Hxw. destruct (unwait_wait _ Hx' Hxw) as [Hx _]. by apply (inv_lock _ _ _ Hinv).
  - assert (E : lock_trx (upd (lock_id w) g y) = lock_trx y ∧ lock_id (upd (lock_id w) g y) = lock_id y) by (unfold upd; by case_decide).
    destruct E as [-> Ei]. rewrite Ei. cbn. destruct (decide (lock_trx y = t)) as [He|Hne].
    + rewrite He in *. rewrite lookup_alter_eq, Ht. eexists. split_and!; [done..|]. intros Hxw. destruct (unwait_wait _ Hx' Hxw) as [_ Hne].
      destruct Hne. rewrite <-He. unfold upd. by case_decide.
    + rewrite lookup_alter_ne by done. exists trx. split_and!; [done..|]. intros Hxw. apply Hwt. unfold upd in Hxw. case_decide; [|done]. by rewrite granted_wait in Hxw.
Qed.

Lemma unwait_trx_ok u trx : trxs s' !! u = Some trx → trx_ok None (Some t) s' u trx.
Proof.
  intros (trx0 & Hu & Hcase)%lookup_unwait. destruct (inv_trx _ _ _ Hinv _ _ Hu) as [H1 H2 H3 _ H5 H6].
  assert (H4 := inv_que _ _ _ _ Hinv Hu). rewrite (decide_False (P := None = Some u)) in H4 by done.
  assert (Hlocks : ∀ id, id ∈ trx_locks trx0 → ∃ l, has_lock s' l ∧ lock_id l = id ∧ lock_trx l = u).
  { intros id Hid. destruct (H2 id Hid) as (l & Hl & <- & <-). exists (upd (lock_id w) g l).
    split_and!; [apply has_unwait; by exists l|apply (upd_keeps_place (lock_id w) g unwait_place l)..]. }
  destruct Hcase as [[Hne ->]|[-> ->]]; split; try done.
  - intros id Hid _. destruct (H3 id Hid) as (l & Hl & Hlid & Hlt & Hlw); [done|]. exists l. split_and!; [|done..]. apply has_unwait. exists l.
    rewrite upd_not_w; [done|done|]. intros ->. congruence.
  - by rewrite !decide_False by congruence.
  - cbn. rewrite decide_False, decide_True by done. rewrite H4. destruct (inv_trx_of _ _ _ _ Hinv Hw) as (trx & Ht & _ & Hwt).
    assert (trx = trx0) as -> by congruence. by rewrite (Hwt Hww).
Qed.

Lemma unwait_Ok :
  inv None (Some t) s' ∧ queue s' (space w) (page_no w) h = filter (λ x, lock_id x ≠ lock_id w) (queue s (space w) (page_no w) h) ∧
  other_queues s s' (space w) (page_no w) h.
Proof.
  assert (Hok := inv_hash _ _ _ Hinv). assert (Hok' : hash_ok s').
  { assert (H := hash_ok_update_lock s (lock_id w) g unwait_place Hok). destruct H. by split. }
  destruct (inv_lock _ _ _ Hinv _ Hw) as [Hbm _ Hone _]. destruct (Hone Hww) as (h0 & Hh0 & Hu).
  assert (h0 = h) as -> by (symmetry; by apply Hu).
  assert (Hq : queue s' (space w) (page_no w) h = filter (λ x, lock_id x ≠ lock_id w) (queue s (space w) (page_no w) h) ∧
               other_queues s s' (space w) (page_no w) h).
  { apply (reset_queue_other s w h Hinv Hw g unwait_place); [|intros i Hi ?; by destruct Hi; apply Hu].
    intros i. rewrite <-reset_bit_get by done. apply shape_bit, granted_shape. }
  split; [|done]. destruct Hq as [Hq1 Hq2]. split; [done|apply unwait_lock_ok|apply unwait_trx_ok| |].
  - apply (rule3_queues s); [done..| |apply Hinv]. intros sp pg i.
    destruct (decide ((sp, pg, i) = (space w, page_no w, h))) as [E|Hne]; [simplify_eq; rewrite Hq1; apply sublist_filter|by rewrite Hq2].
  - intros x Hx Hxw [= E]. destruct (unwait_wait x Hx Hxw) as [_ []]. done.
Qed.

End unwait.

(** The thread of the transaction runs again. *)
Lemma inv_end_wait s t trx :
  inv None (Some t) s → trxs s !! t = Some trx → wait_lock trx = None → inv None None (update_trx t resume s).
Proof.
  intros Hinv Ht Hw. split; [destruct (inv_hash _ _ _ Hinv); by split| | |apply Hinv|done].
  - intros l Hl. destruct (inv_lock _ _ _ Hinv l Hl) as [H1 H2 H3 (trx' & Ht' & Hin & Hwt)]. split; [done..|]. cbn.
    destruct (decide (lock_trx l = t)) as [He|Hne]; [|rewrite lookup_alter_ne by done; by exists trx'].
    rewrite He in *. rewrite lookup_alter_eq, Ht'. exists (resume trx'). by destruct (resume_spec trx') as (_ & -> & _ & -> & _).
  - intros u trx' Hu. cbn in Hu. destruct (decide (u = t)) as [->|Hne].
    + rewrite lookup_alter_eq, Ht in Hu. injection Hu as <-. destruct (inv_trx _ _ _ Hinv _ _ Ht) as [H1 H2 _ _ [H5 _] H6].
      destruct (resume_spec trx) as (Eq & Ew & Em & El & Eg). rewrite Hw in Ew.
      split; rewrite ?Eq, ?Ew, ?Em, ?El, ?Eg; [done|done|done|by rewrite !decide_False|split; [done|by apply thr_waits_running]|done].
    + rewrite lookup_alter_ne in Hu by done. destruct (inv_trx _ _ _ Hinv _ _ Hu) as [H1 H2 H3 H4 H5 H6]. split; [done|done| | |done..].
      * intros id Hid _. apply H3; [done|congruence].
      * by rewrite H4, !decide_False by congruence.
Qed.

Lemma unwait_trx w h s trx : trxs s !! lock_trx w = Some trx → trxs (unwait w h s) !! lock_trx w = Some (set_wait_lock None trx).
Proof. intros Ht. cbn. by rewrite lookup_alter_eq, Ht. Qed.

Lemma lock_rec_cancel_Ok s w h :
  inv None None s → has_lock s w → lock_get_wait w = true → lock_rec_get_nth_bit w h = true →
  ∃ s', lock_rec_cancel w s = Ok (tt, s') ∧ inv None None s' ∧ s_lock_mark_counter s' = s_lock_mark_counter s ∧
    queue s' (space w) (page_no w) h = filter (λ x, lock_id x ≠ lock_id w) (queue s (space w) (page_no w) h) ∧
    other_queues s s' (space w) (page_no w) h ∧ ∀ x, has_lock s x → lock_id x ≠ lock_id w → has_lock s' x.
Proof.
  intros Hinv Hw Hww Hh. destruct (one_bit_at w h) as [Hf _]; [by apply (inv_lock _ _ _ Hinv)|done|].
  destruct (inv_trx_of _ _ _ _ Hinv Hw) as (trx & Ht & _). destruct (unwait_Ok s w h Hinv Hw Hww Hh) as (Hinv' & Hq).
  assert (Hk := λ x, has_update_other (update_trx (lock_trx w) (set_wait_lock None) s) (lock_id w) _ x (unwait_place h)).
  eexists. split; [|split; [eapply inv_end_wait; [exact Hinv'|by apply unwait_trx|done]|]; split; [done|]; split_and!; [apply Hq..|exact Hk]].
  unfold lock_rec_cancel. rewrite Hf. erewrite deref_Some by done. assert (H := unwait_run w h s). unfold mbind, M_bind in *.
  destruct (modify _ s) as [[[] s1]|]; [|done]. rewrite H. apply unwait_trx with (h := h) in Ht.
  destruct (inv_trx _ _ _ Hinv' _ _ Ht) as [_ _ _ Hq' [_ Hthr] _]. rewrite decide_False, decide_True in Hq' by done. by eapply end_lock_wait_Ok.
Qed.

(** ** Adding a lock *)

Section add.
  Context (s : lock_sys_t) (l : lock_t) (trx0 : trx_t).
  Notation t := (lock_trx l).
  Context (Hinv : inv None (if lock_get_wait l then Some t else None) s) (Hnew : fresh_lock s (lock_id l)).
  Context (Hbm : bitmap_ok l) (Hmode : lock_get_mode l = LOCK_S ∨ lock_get_mode l = LOCK_X) (Hone : one_bit l).
  Context (Ht : trxs s !! t = Some trx0) (Hidle : lock_get_wait l = true → wait_lock trx0 = None ∧ que_state trx0 = TRX_QUE_LOCK_WAIT).

Lemma add_lock_ok x : has_lock (added l s) x → lock_ok (added l s) x.
Proof.
  intros [Hx| ->]%(has_added l s x); [| |apply Hinv].
  - destruct (inv_lock _ _ _ Hinv x Hx) as [H1 H2 H3 (trx & Htx & Hin & Hw)]. split; [done..|]. cbn. destruct (decide (lock_trx x = t)) as [He|Hne].
    + rewrite He in *. rewrite lookup_alter_eq, Htx. eexists. split_and!; [done|cbn; set_solver|]. intros Hxw. specialize (Hw Hxw).
      destruct (lock_get_wait l) eqn:Hlw; cbn; [|done]. exfalso. apply (inv_cancelled _ _ _ Hinv x Hx Hxw). by rewrite He.
    + rewrite lookup_alter_ne by done. by exists trx.
  - split; [done..|]. cbn. rewrite lookup_alter_eq, Ht. eexists. split_and!; [done|cbn; set_solver|]. by intros ->.
Qed.

Lemma add_trx_ok u trx : trxs (added l s) !! u = Some trx → trx_ok None None (added l s) u trx.
Proof.
  intros Hu. cbn in Hu. assert (Hhas := λ x, has_added l s x (inv_hash _ _ _ Hinv)). destruct (decide (u = t)) as [->|Hne].
  - rewrite lookup_alter_eq, Ht in Hu. simplify_eq/=. destruct (inv_trx _ _ _ Hinv _ _ Ht) as [H1 H2 H3 H4 H5 H6]. split; cbn.
    + apply NoDup_app. split_and!; [by destruct (lock_get_wait l)| |apply NoDup_singleton]. intros id Hid ->%list_elem_of_singleton.
      destruct (H2 (lock_id l)) as (x & Hx & He & _); [by destruct (lock_get_wait l)|]. by apply (Hnew x).
    + intros id [Hid| ->%list_elem_of_singleton]%elem_of_app; [|exists l; rewrite Hhas; auto].
      destruct (H2 id) as (x & Hx & ?); [by destruct (lock_get_wait l)|]. exists x. rewrite Hhas. auto.
    + intros id Hid _. destruct (lock_get_wait l) eqn:Hlw; simplify_eq/=; [exists l; rewrite Hhas; auto|].
      destruct (H3 id Hid) as (x & Hx & ?); [done|]. exists x. rewrite Hhas. auto.
    + rewrite !decide_False by done. destruct (lock_get_wait l) eqn:Hlw; cbn; [by apply Hidle|]. by rewrite H4, !decide_False by done.
    + by destruct (lock_get_wait l).
    + by destruct (lock_get_wait l).
  - rewrite lookup_alter_ne in Hu by done. destruct (inv_trx _ _ _ Hinv _ _ Hu) as [H1 H2 H3 H4 H5 H6].
    assert (Hvo : (if lock_get_wait l then Some t else None) ≠ Some u) by (destruct (lock_get_wait l); congruence). split; [done| | | |done..].
    + intros id Hid. destruct (H2 id Hid) as (x & Hx & ?). exists x. rewrite Hhas. auto.
    + intros id Hid _. destruct (H3 id Hid Hvo) as (x & Hx & ?). exists x. rewrite Hhas. auto.
    + by rewrite H4, !decide_False by done.
Qed.

Lemma inv_add : rule3 (added l s) → inv None None (added l s).
Proof.
  intros H3. split; [|apply add_lock_ok|apply add_trx_ok|done|done].
  assert (H := hash_ok_insert s l (inv_hash _ _ _ Hinv) Hnew). destruct H. by split.
Qed.

End add.

(** ** [lock_rec_add_to_queue] *)

(** The request that a lock with the given [type_mode] makes. *)
Definition mode_entry (t : nat) (m : Z) : entry :=
  mk_entry t (Z.land m LOCK_MODE_MASK) (has_flag m LOCK_GAP) (has_flag m LOCK_REC_NOT_GAP) (has_flag m LOCK_INSERT_INTENTION) (has_flag m LOCK_WAIT).

Lemma mode_entry_rec t m : mode_entry t (Z.lor m LOCK_REC) = mode_entry t m.
Proof. unfold mode_entry. rewrite mode_lor by done. f_equal; by flags. Qed.

Lemma supremum_entry t h m : mode_entry t (supremum_mode h (Z.lor m LOCK_REC)) = mode_entry t (supremum_mode h m).
Proof.
  unfold supremum_mode. destruct (h =? PAGE_HEAP_NO_SUPREMUM); [|apply mode_entry_rec]. unfold mode_entry. rewrite !mode_ldiff, mode_lor by done. f_equal; by flags.
Qed.

Lemma alloc_entry r : entry_of (lock_alloc r) = mode_entry (m_trx r) (m_mode r).
Proof.
  unfold entry_of, mode_entry, lock_alloc, lock_get_mode, lock_rec_get_gap, lock_rec_get_rec_not_gap, lock_rec_get_insert_intention, lock_get_wait.
  cbn [lock_trx type_mode lock_rec_set_nth_bit set_bitmap]. rewrite (Z.lor_comm LOCK_REC), mode_lor, mode_ldiff by done. f_equal; by flags.
Qed.

Lemma supremum_again h m : supremum_mode h (supremum_mode h m) = supremum_mode h m.
Proof.
  unfold supremum_mode. destruct (h =? PAGE_HEAP_NO_SUPREMUM); [|done]. apply Z.bits_inj'. intros n Hn. rewrite !Z.ldiff_spec.
  by destruct (Z.testbit _ _), (Z.testbit _ _).
Qed.

Lemma new_address_fresh s : hash_ok s → fresh_lock s (new_address s).
Proof.
  intros Hok x Hx. apply has_lock_concat in Hx; [|done]. apply elem_ids in Hx. unfold new_address.
  assert (H := max_list_elem_of_le (lock_id x) (map lock_id (concat (rec_hash s))) Hx). lia.
Qed.

Lemma view_elem s sp pg h e : e ∈ view s sp pg h ↔ ∃ l, has_lock s l ∧ on_page sp pg l ∧ lock_rec_get_nth_bit l h = true ∧ e = entry_of l.
Proof.
  unfold view. rewrite list_elem_of_fmap. setoid_rewrite elem_rec_locks. split.
  - intros (l & -> & ? & ? & ?). by exists l.
  - intros (l & ? & ? & ? & ->). by exists l.
Qed.

Section set_bit.
  Context (s : lock_sys_t) (l : lock_t) (h : nat).
  Context (Hinv : inv None None s) (Hl : has_lock s l) (Hw : lock_get_wait l = false) (Hh : h < n_bits l).
  Context (Hno : ∀ x, has_lock s x → on_page (space l) (page_no l) x → lock_rec_get_nth_bit x h = true → lock_get_wait x = false).
  Notation f := (λ l, lock_rec_set_nth_bit l h).
  Notation s' := (update_lock (lock_id l) f s).

Lemma set_bit_get i : lock_rec_get_nth_bit (f l) i = (h =? i) || lock_rec_get_nth_bit l i.
Proof. apply get_set_nth_bit; [apply (inv_lock _ _ _ Hinv _ Hl)|done]. Qed.

Lemma set_bit_joined : joined (entry_of l) (view s (space l) (page_no l) h) (view s' (space l) (page_no l) h).
Proof.
  right. split_and!; [done|intros e (x & Hx & Hp & Hb & ->)%view_elem; by apply Hno|]. intros e. rewrite !view_elem. split.
  - intros (x' & Hx' & Hp & Hb & ->). apply (has_bits f s l (set_bit_change h)) in Hx' as (x & Hx & ->).
    assert (Hk := bit_change_upd (lock_id l) f (set_bit_change h) x). unfold upd in *. case_decide as He.
    + right. by rewrite (lock_id_inj s x l) by (done || apply Hinv).
    + left. by exists x.
  - intros [(x & Hx & Hp & Hb & ->)| ->].
    + exists (upd (lock_id l) f x). split_and!; [apply (has_bits f s l (set_bit_change h)); by exists x|unfold upd; by case_decide| |unfold upd; by case_decide].
      unfold upd. case_decide; [|done]. rewrite (lock_id_inj s x l) by (done || apply Hinv). by rewrite set_bit_get, Nat.eqb_refl.
    + exists (f l). split_and!; [apply (has_bits f s l (set_bit_change h)); exists l; split; [done|]; unfold upd; by rewrite decide_True|done| |done].
      by rewrite set_bit_get, Nat.eqb_refl.
Qed.

Lemma set_bit_other : other_queues s s' (space l) (page_no l) h.
Proof.
  intros sp pg i Hne. apply queue_update_same; [apply bit_change_place, set_bit_change|]. intros x Hxs Hid [<- <-].
  assert (x = l) as -> by (apply (lock_id_inj s); [apply Hinv|done..]). rewrite set_bit_get, (proj2 (Nat.eqb_neq h i)); [done|]. by intros ->.
Qed.

Lemma set_bit_inv : (h ≠ PAGE_HEAP_NO_SUPREMUM → rule3_view (view s' (space l) (page_no l) h)) → inv None None s'.
Proof.
  intros H3. assert (Hok := inv_hash _ _ _ Hinv). assert (Hok' : hash_ok s') by (by apply hash_ok_update_lock; [apply bit_change_place, set_bit_change|]).
  apply inv_bits; [apply set_bit_change|done..|]. apply rule3_views; [done|]. intros sp pg i Hi.
  destruct (decide ((sp, pg, i) = (space l, page_no l, h))) as [E|Hne]; [simplify_eq; by apply H3|].
  rewrite queue_view, set_bit_other, <-queue_view by done. apply rule3_views; [done|apply Hinv|done].
Qed.

End set_bit.

(** What the inheritance of locks depends on. *)
Definition trx_data (s : lock_sys_t) (t : nat) : option (Z * Z) := option_map (λ trx, (isolation_level trx, duplicates trx)) (trxs s !! t).

Lemma trx_data_added l s t : trx_data (added l s) t = trx_data s t.
Proof.
  unfold trx_data. cbn. destruct (decide (t = lock_trx l)) as [->|Hne]; [|by rewrite lookup_alter_ne].
  rewrite lookup_alter_eq. destruct (trxs s !! lock_trx l); [|done]. cbn. by destruct (lock_get_wait l).
Qed.

Section add_to_queue.
  Context (cfg : config) (s : lock_sys_t) (tm : Z) (block : buf_block_t) (h t : nat) (trx0 : trx_t).
  Notation sp := (block_space block).
  Notation pg := (block_page_no block).
  Notation e := (mode_entry t (supremum_mode h tm)).
  Context (Hv : uses_vats cfg t = false) (Hinv : inv None (if has_flag tm LOCK_WAIT then Some t else None) s) (Ht : trxs s !! t = Some trx0).
  Context (Hidle : has_flag tm LOCK_WAIT = true → wait_lock trx0 = None ∧ que_state trx0 = TRX_QUE_LOCK_WAIT).
  Context (Hmode : Z.land tm LOCK_MODE_MASK = LOCK_S ∨ Z.land tm LOCK_MODE_MASK = LOCK_X) (Hh : h < page_dir_get_n_heap block).
  Context (H3 : h ≠ PAGE_HEAP_NO_SUPREMUM → ∀ v, joined e (view s sp pg h) v → rule3_view v).

Lemma supremum_wait : has_flag (supremum_mode h tm) LOCK_WAIT = has_flag tm LOCK_WAIT.
Proof. unfold supremum_mode. destruct (h =? PAGE_HEAP_NO_SUPREMUM); [|done]. by flags. Qed.

Lemma supremum_mask : Z.land (supremum_mode h tm) LOCK_MODE_MASK = Z.land tm LOCK_MODE_MASK.
Proof. unfold supremum_mode. destruct (h =? PAGE_HEAP_NO_SUPREMUM); [|done]. by apply mode_ldiff. Qed.

(** A new lock at the end of the queue. *)
Lemma add_created l :
  entry_of l = e → lock_trx l = t → on_page sp pg l → bitmap_ok l → fresh_lock s (lock_id l) → (∀ i, lock_rec_get_nth_bit l i = (h =? i)) →
  inv None None (added l s) ∧ joined e (view s sp pg h) (view (added l s) sp pg h) ∧ other_queues s (added l s) sp pg h.
Proof.
  intros He Htl Hp Hbm Hnew Hbit. assert (Hok := inv_hash _ _ _ Hinv). assert (Hok' : hash_ok (added l s)).
  { assert (H := hash_ok_insert s l Hok Hnew). destruct H. by split. }
  assert (Hlw : lock_get_wait l = has_flag tm LOCK_WAIT) by (rewrite <-supremum_wait; exact (f_equal e_wait He)).
  assert (Hlm : lock_get_mode l = Z.land tm LOCK_MODE_MASK) by (rewrite <-supremum_mask; exact (f_equal e_mode He)).
  assert (Hj : joined e (view s sp pg h) (view (added l s) sp pg h)).
  { left. rewrite !queue_view, queue_added, decide_True by (done || by rewrite Hbit, Nat.eqb_refl). rewrite map_app. cbn. by rewrite <-He. }
  assert (Hoth : other_queues s (added l s) sp pg h).
  { intros sp' pg' i Hne. rewrite queue_added, decide_False by (done || intros [[E1 E2] Hb]; rewrite Hbit in Hb; apply Nat.eqb_eq in Hb as <-; apply Hne; destruct Hp; congruence). apply app_nil_r. }
  split; [|done]. apply (inv_add s l trx0); rewrite ?Hlw, ?Hlm, ?Htl; try done.
  - exists h. rewrite Hbit, Nat.eqb_refl. split; [done|]. intros i. rewrite Hbit. by intros ->%Nat.eqb_eq.
  - apply rule3_views; [done|]. intros sp' pg' i Hi. destruct (decide ((sp', pg', i) = (sp, pg, h))) as [E|Hne]; [simplify_eq; by apply H3|].
    rewrite queue_view, Hoth, <-queue_view by done. apply rule3_views; [done|apply Hinv|done].
Qed.

Lemma add_to_queue_Ok :
  ∃ s', add_to_queue cfg tm block h t s = Ok (tt, s') ∧ inv None None s' ∧ s_lock_mark_counter s' = s_lock_mark_counter s ∧
    joined e (view s sp pg h) (view s' sp pg h) ∧ other_queues s s' sp pg h ∧ ∀ u, trx_data s' u = trx_data s u.
Proof.
  assert (Hok := inv_hash _ _ _ Hinv). assert (Hfresh := new_address_fresh s Hok).
  unfold add_to_queue. erewrite bind_Ok by done. unfold lock_rec_add_to_queue. erewrite bind_Ok by done.
  set (m := supremum_mode h (Z.lor tm LOCK_REC)). assert (Hme : mode_entry t m = e) by apply supremum_entry.
  set (waiting := existsb _ _). destruct (if negb waiting && negb (has_flag m LOCK_WAIT) then _ else None) as [l|] eqn:Hsim.
  - destruct (negb waiting && negb (has_flag m LOCK_WAIT)) eqn:Hc; [|done]. apply andb_true_iff in Hc as [Hnw%negb_true_iff Hmw%negb_true_iff].
    apply List.find_some in Hsim as [Hl%list_elem_of_In Hlm]. rewrite !andb_true_iff, Nat.eqb_eq, Z.eqb_eq, Nat.ltb_lt in Hlm. destruct Hlm as [[Hlt Hlm] Hln].
    apply elem_page in Hl as [Hl [Hsp Hpg]]. assert (Hle : entry_of l = e) by (rewrite <-Hme, <-Hlt, <-Hlm; done).
    assert (Hlw : lock_get_wait l = false) by (unfold lock_get_wait; by rewrite Hlm).
    assert (Htw : has_flag tm LOCK_WAIT = false) by (rewrite <-supremum_wait, <-Hlw; symmetry; exact (f_equal e_wait Hle)).
    rewrite Htw in Hinv. assert (Hno : ∀ x, has_lock s x → on_page (space l) (page_no l) x → lock_rec_get_nth_bit x h = true → lock_get_wait x = false).
    { intros x Hx Hp Hb. destruct (lock_get_wait x) eqn:Hxw; [|done]. rewrite Hsp, Hpg in Hp. unfold waiting in Hnw. rewrite <-Hnw. symmetry.
      apply existsb_exists. exists x. split; [by apply list_elem_of_In, elem_page|]. by rewrite Hxw, Hb. }
    assert (Hj := set_bit_joined s l h Hinv Hl Hlw Hln Hno). assert (Hoth := set_bit_other s l h Hinv Hl Hln Hno). rewrite Hsp, Hpg in Hj, Hoth. rewrite Hle in Hj.
    eexists. split; [done|]. split; [|done]. apply set_bit_inv; try done. rewrite Hsp, Hpg. intros Hs. by apply H3.
  - set (r := rec_lock_init t block h m (new_address s)). assert (Hrun : create cfg r s = Ok (lock_alloc r, added (lock_alloc r) s)) by (by apply create_Ok).
    eexists. split; [by erewrite bind_Ok by exact Hrun|]. assert (Hd := λ u, trx_data_added (lock_alloc r) s u).
    destruct (add_created (lock_alloc r)) as (H1 & H2 & H2'); [|done|done|apply (new_lock_bitmap false t block h m (new_address s))|done| |done].
    + rewrite alloc_entry. cbn [m_trx m_mode r rec_lock_init]. unfold m. by rewrite supremum_again.
    + intros i. by apply (new_lock_bit false t block h m (new_address s)).
Qed.

End add_to_queue.
