(* ===== verification/InnoInherit.v ===== *)
(** Moving and inheriting record locks of InnoDB: the loops of [InnoMove] over the locks of
    a record or page, and that they keep what [sys_ok] says of a state. *)
From stdpp Require Import functions base tactics numbers option list list_numbers gmap sets relations sorting.
From Stdlib Require Import ZArith Lia.
From S2P Require Import Prelude InnoMode InnoSys InnoQueue InnoInv InnoGrant InnoBits InnoView InnoDeadlock InnoSearch InnoResolve InnoRequest InnoMove InnoLocking InnoJoin InnoCarry.

(** ** States that say the same about their queues *)

Notation is_sup h := (h =? PAGE_HEAP_NO_SUPREMUM).

Lemma inv_one_bit s : inv None None s → ∀ l, has_lock s l → lock_get_wait l = true → one_bit l.
Proof. intros Hinv l Hl. apply (inv_lock _ _ _ Hinv _ Hl). Qed.

Section config.
  Context (cfg : config) (Hvats : ∀ t, uses_vats cfg t = false).

Lemma sys_ok_views s s' :
  sys_ok cfg s → inv None None s' → s_lock_mark_counter s' = s_lock_mark_counter s →
  (∀ sp pg h, settled_view cfg (is_sup h) (view s' sp pg h)) →
  (∀ sp pg h a b, view_edge cfg (is_sup h) (view s' sp pg h) a b → ∃ sp' pg' h', view_edge cfg (is_sup h') (view s sp' pg' h') a b) →
  sys_ok cfg s'.
Proof.
  intros Hs Hinv Hc Hset Hedge. assert (Hinv0 := sys_inv _ _ Hs). split; [done| | |by rewrite Hc; apply Hs].
  - apply settled_views; [apply Hinv|by apply inv_one_bit|done].
  - intros Hd. eapply acyclic_mono; [|by apply Hs]. intros a b (sp & pg & h & He)%waits_for_views; [|apply Hinv|by apply inv_one_bit].
    apply waits_for_views; [apply Hinv0|by apply inv_one_bit|]. by eapply Hedge.
Qed.

(** Each record has a queue that comes from the one of some record. *)
Lemma sys_ok_requeued s s' (from : Z → Z → nat → Z * Z * nat) :
  sys_ok cfg s → inv None None s' → s_lock_mark_counter s' = s_lock_mark_counter s →
  (∀ sp pg h, view s' sp pg h = [] ∨
     let '(sp', pg', h') := from sp pg h in is_sup h' = is_sup h ∧ requeued (view s sp' pg' h') (view s' sp pg h)) →
  sys_ok cfg s'.
Proof.
  intros Hs Hinv Hc Hv. assert (Hinv0 := sys_inv _ _ Hs). apply (sys_ok_views s); [done..| |].
  - intros sp pg h. destruct (Hv sp pg h) as [->|H]; [intros v1 e v2 Hnil; by destruct v1|]. destruct (from sp pg h) as [[sp' pg'] h'], H as [<- Hr].
    eapply requeued_settled; [done|]. apply settled_views; [apply Hinv0|by apply inv_one_bit|apply Hs].
  - intros sp pg h a b. destruct (Hv sp pg h) as [->|H]; [intros (v1 & e & v2 & x & Hnil & _); by destruct v1|].
    destruct (from sp pg h) as [[sp' pg'] h'], H as [<- Hr]. intros He. exists sp', pg', h'. by eapply requeued_edge.
Qed.

Lemma view_modes s sp pg h : inv None None s → Forall e_mode_ok (view s sp pg h).
Proof. intros Hinv. apply Forall_forall. intros e (l & Hl & _ & _ & ->)%view_elem. apply (inv_lock _ _ _ Hinv _ Hl). Qed.

Lemma other_views s s' sp pg h sp' pg' h' : other_queues s s' sp pg h → (sp', pg', h') ≠ (sp, pg, h) → view s' sp' pg' h' = view s sp' pg' h'.
Proof. intros H Hne. rewrite !queue_view. by rewrite H. Qed.

(** ** Inheriting *)

(** A granted request joins the queue. *)
Lemma joined_settled sup e v v' : joined e v v' → e_wait e = false → settled_view cfg sup v → settled_view cfg sup v'.
Proof.
  intros [->|(_ & Hno & Hx)] He Hs v1 x v2 Hv Hxw.
  - apply snoc_split in Hv as [(-> & -> & ->)|(v3 & -> & ->)]; [congruence|]. by eapply Hs.
  - assert (Hin : x ∈ v') by (rewrite Hv; set_solver). apply Hx in Hin as [Hin| ->]; [by rewrite Hno in Hxw|congruence].
Qed.

Lemma joined_edge sup e v v' a b : joined e v v' → e_wait e = false → view_edge cfg sup v' a b → view_edge cfg sup v a b.
Proof.
  intros [->|(_ & Hno & Hx)] He (v1 & w & v2 & x & Hv & Hww & H).
  - apply snoc_split in Hv as [(-> & -> & ->)|(v3 & -> & ->)]; [congruence|]. by exists v1, w, v3, x.
  - assert (Hin : w ∈ v') by (rewrite Hv; set_solver). apply Hx in Hin as [Hin| ->]; [by rewrite Hno in Hww|congruence].
Qed.

Lemma joined_gap_rule3 e v v' : joined e v v' → e_wait e = false → e_gap e = true → Forall e_mode_ok v → rule3_view v → rule3_view v'.
Proof.
  intros [->|(_ & Hno & Hx)] He Hg Hm H3 v1 w v2 x Hv Hin Hc.
  - apply snoc_split in Hv as [(-> & -> & ->)|(v3 & -> & ->)]; [destruct Hc as (_ & ? & _); congruence|]. by eapply H3.
  - assert (Hw : w ∈ v') by (rewrite Hv; set_solver). assert (Hx' : x ∈ v') by (rewrite Hv; set_solver).
    apply Hx in Hw as [Hw| ->]; [|destruct Hc as (_ & ? & _); congruence]. apply Hx in Hx' as [Hx'| ->]; [|destruct Hc as (_ & _ & ? & _); congruence].
    rewrite Forall_forall in Hm. destruct (elem_order v x w) as [(u1 & u2 & Hu & Hxu)|(u1 & u2 & Hu & Hwu)]; [done..|by intros ->; destruct Hc| |].
    + by eapply H3.
    + exfalso. assert (e_wait x = true); [eapply H3; [exact Hu|exact Hwu|apply e_conflict_sym; [by apply Hm..|done]]|]. by rewrite Hno in *.
Qed.

(** The request that a record inherits from a lock in the given mode. *)
Definition gap_entry (h t : nat) (mode : Z) : entry := mk_entry t mode (negb (is_sup h)) false false false.

Definition gap_mode (mode : Z) : Z := Z.lor (Z.lor LOCK_REC LOCK_GAP) mode.

Lemma gap_mode_entry h t mode : mode = LOCK_S ∨ mode = LOCK_X → mode_entry t (supremum_mode h (gap_mode mode)) = gap_entry h t mode.
Proof. intros Hm. unfold mode_entry, gap_entry, supremum_mode, gap_mode. destruct (is_sup h), Hm as [-> | ->]; done. Qed.

Section inherit.
  Context (block : buf_block_t) (h : nat) (Hh : h < page_dir_get_n_heap block).
  Notation sp := (block_space block).
  Notation pg := (block_page_no block).

Lemma inherit_one s t mode :
  sys_ok cfg s → is_Some (trxs s !! t) → mode = LOCK_S ∨ mode = LOCK_X →
  ∃ s', add_to_queue cfg (gap_mode mode) block h t s = Ok (tt, s') ∧ sys_ok cfg s' ∧
    joined (gap_entry h t mode) (view s sp pg h) (view s' sp pg h) ∧ other_queues s s' sp pg h ∧ ∀ u, trx_data s' u = trx_data s u.
Proof.
  intros Hs [trx Ht] Hm. assert (Hinv := sys_inv _ _ Hs). assert (He := gap_mode_entry h t mode Hm).
  assert (Hw : has_flag (gap_mode mode) LOCK_WAIT = false) by (by destruct Hm as [-> | ->]).
  destruct (add_to_queue_Ok cfg s (gap_mode mode) block h t trx) as (s' & Hrun & Hinv' & Hc & Hj & Hoth & Hd); rewrite ?Hw; try done.
  - destruct Hm as [-> | ->]; [by left|by right].
  - rewrite He. intros Hsup v Hj. eapply joined_gap_rule3; [exact Hj|done| |by apply view_modes|].
    + cbn. by rewrite (proj2 (Nat.eqb_neq _ _) Hsup).
    + apply rule3_views; [apply Hinv|apply Hinv|done].
  - rewrite He in Hj. exists s'. split_and!; try done. apply (sys_ok_views s); [done..| |].
    + intros sp' pg' h'. assert (Hset : settled_view cfg (is_sup h') (view s sp' pg' h')) by (apply settled_views; [apply Hinv|by apply inv_one_bit|apply Hs]).
      destruct (decide ((sp', pg', h') = (sp, pg, h))) as [E|Hne]; [simplify_eq; by eapply joined_settled|by erewrite other_views].
    + intros sp' pg' h' a b. exists sp', pg', h'. destruct (decide ((sp', pg', h') = (sp, pg, h))) as [E|Hne]; [simplify_eq; by eapply joined_edge|by erewrite <-other_views].
Qed.

(** A loop that lets the record inherit some of the requests of [q]. *)
Lemma inherit_loop (body : lock_t → LS unit) q s :
  sys_ok cfg s → (∀ l, l ∈ q → is_Some (trx_data s (lock_trx l)) ∧ (lock_get_mode l = LOCK_S ∨ lock_get_mode l = LOCK_X)) →
  (∀ l s1, l ∈ q → body l s1 = add_to_queue cfg (gap_mode (lock_get_mode l)) block h (lock_trx l) s1 ∨ body l s1 = Ok (tt, s1)) →
  ∃ s', for_each body q s = Ok (tt, s') ∧ sys_ok cfg s' ∧ other_queues s s' sp pg h ∧ (∀ u, trx_data s' u = trx_data s u) ∧
    (∀ e, e ∈ view s sp pg h → e ∈ view s' sp pg h) ∧
    ∀ l, l ∈ q → (∀ s1, trx_data s1 (lock_trx l) = trx_data s (lock_trx l) → body l s1 = add_to_queue cfg (gap_mode (lock_get_mode l)) block h (lock_trx l) s1) →
      gap_entry h (lock_trx l) (lock_get_mode l) ∈ view s' sp pg h.
Proof.
  revert s. induction q as [|l q IH]; intros s Hs Hq Hbody.
  { exists s. split_and!; try done. by intros l ?%elem_of_nil. }
  assert (Hstep : ∃ s1, body l s = Ok (tt, s1) ∧ sys_ok cfg s1 ∧ other_queues s s1 sp pg h ∧ (∀ u, trx_data s1 u = trx_data s u) ∧
            (∀ e, e ∈ view s sp pg h → e ∈ view s1 sp pg h) ∧
            (body l s = add_to_queue cfg (gap_mode (lock_get_mode l)) block h (lock_trx l) s → gap_entry h (lock_trx l) (lock_get_mode l) ∈ view s1 sp pg h)).
  { destruct (Hq l) as [Ht Hm]; [left|]. destruct (inherit_one s (lock_trx l) (lock_get_mode l)) as (s1 & Hrun & Hs1 & Hj & Hoth & Hd);
      [done|unfold trx_data in Ht; destruct (trxs s !! lock_trx l); [done|by destruct Ht]|done|].
    destruct (Hbody l s) as [E|E]; [left| |].
    - exists s1. rewrite E. split_and!; try done.
      + intros e He. destruct Hj as [->|(_ & _ & Hx)]; [set_solver|apply Hx; by left].
      + intros _. destruct Hj as [->|(_ & _ & Hx)]; [set_solver|apply Hx; by right].
    - exists s. split_and!; try done. rewrite E, Hrun. intros [= <-]. destruct Hj as [Hj|(_ & _ & Hx)]; [|apply Hx; by right].
      apply (f_equal length) in Hj. rewrite length_app in Hj. simpl in Hj. lia. }
  destruct Hstep as (s1 & Hrun & Hs1 & Hoth & Hd & Hkeep & Hnew). destruct (IH s1) as (s' & Hrun' & Hs' & Hoth' & Hd' & Hkeep' & Hnew'); [done| | |].
  { intros x Hx. rewrite Hd. apply Hq. by right. } { intros x s2 Hx. apply Hbody. by right. }
  exists s'. split_and!; [by cbn [for_each]; erewrite bind_Ok by exact Hrun|done| |intros u; by rewrite Hd'|intros e He; by apply Hkeep', Hkeep|].
  - intros sp' pg' h' Hne. by rewrite Hoth', Hoth.
  - intros x [->|Hx]%elem_of_cons Hb; [apply Hkeep', Hnew; by apply Hb|]. apply Hnew'; [done|]. intros s2 E. apply Hb. by rewrite E, Hd.
Qed.

End inherit.

Lemma rec_lock_ok s sp pg h l : inv None None s → l ∈ rec_locks s sp pg h → is_Some (trx_data s (lock_trx l)) ∧ (lock_get_mode l = LOCK_S ∨ lock_get_mode l = LOCK_X).
Proof.
  intros Hinv (Hl & _)%elem_rec_locks. destruct (inv_lock _ _ _ Hinv _ Hl) as [_ Hm _ (trx & Ht & _)]. split; [|done]. unfold trx_data. by rewrite Ht.
Qed.

Lemma not_inherited_data s s1 l : trx_data s1 (lock_trx l) = trx_data s (lock_trx l) → not_inherited cfg s1 l = not_inherited cfg s l.
Proof. unfold trx_data, not_inherited. destruct (trxs s1 !! _), (trxs s !! _); simpl; try done. by intros [= -> ->]. Qed.

Lemma lock_rec_inherit_to_gap_Ok heir block hh h s :
  sys_ok cfg s → hh < page_dir_get_n_heap heir →
  ∃ s', lock_rec_inherit_to_gap cfg heir block hh h s = Ok (tt, s') ∧ sys_ok cfg s' ∧
    other_queues s s' (block_space heir) (block_page_no heir) hh ∧ (∀ u, trx_data s' u = trx_data s u) ∧
    (∀ e, e ∈ view s (block_space heir) (block_page_no heir) hh → e ∈ view s' (block_space heir) (block_page_no heir) hh) ∧
    ∀ l, l ∈ rec_locks s (block_space block) (block_page_no block) h → lock_rec_get_insert_intention l = false → not_inherited cfg s l = false →
      gap_entry hh (lock_trx l) (lock_get_mode l) ∈ view s' (block_space heir) (block_page_no heir) hh.
Proof.
  intros Hs Hh. unfold lock_rec_inherit_to_gap. erewrite bind_Ok by done. match goal with |- context [for_each ?b _ _] => set (body := b) end.
  destruct (inherit_loop heir hh Hh body (rec_locks s (block_space block) (block_page_no block) h) s) as (s' & Hrun & Hs' & H1 & H2 & H3 & H4);
    [done|intros l Hl; by eapply rec_lock_ok, Hl; apply Hs| |].
  - intros l s1 _. unfold body. erewrite bind_Ok by done. destruct (_ && _); [by left|by right].
  - exists s'. split_and!; try done. intros l Hl Hi Hn. apply H4; [done|]. intros s1 Hd. unfold body. erewrite bind_Ok by done.
    by rewrite (not_inherited_data s), Hi, Hn.
Qed.

Lemma lock_rec_inherit_to_gap_if_gap_lock_Ok block hh h s :
  sys_ok cfg s → hh < page_dir_get_n_heap block →
  ∃ s', lock_rec_inherit_to_gap_if_gap_lock cfg block hh h s = Ok (tt, s') ∧ sys_ok cfg s' ∧
    other_queues s s' (block_space block) (block_page_no block) hh ∧
    (∀ e, e ∈ view s (block_space block) (block_page_no block) hh → e ∈ view s' (block_space block) (block_page_no block) hh) ∧
    ∀ l, l ∈ rec_locks s (block_space block) (block_page_no block) h → lock_rec_get_insert_intention l = false →
      h = PAGE_HEAP_NO_SUPREMUM ∨ lock_rec_get_rec_not_gap l = false →
      gap_entry hh (lock_trx l) (lock_get_mode l) ∈ view s' (block_space block) (block_page_no block) hh.
Proof.
  intros Hs Hh. unfold lock_rec_inherit_to_gap_if_gap_lock. erewrite bind_Ok by done. match goal with |- context [for_each ?b _ _] => set (body := b) end.
  destruct (inherit_loop block hh Hh body (rec_locks s (block_space block) (block_page_no block) h) s) as (s' & Hrun & Hs' & H1 & H2 & H3 & H4);
    [done|intros l Hl; by eapply rec_lock_ok, Hl; apply Hs| |].
  - intros l s1 _. unfold body. destruct (_ && _); [by left|by right].
  - exists s'. split_and!; try done. intros l Hl Hi Hn. apply H4; [done|]. intros s1 Hd. unfold body. rewrite Hi.
    destruct Hn as [-> | ->]; [done|]. by rewrite orb_true_r.
Qed.

(** ** Ending all requests for a record *)

Lemma filter_head (l : lock_t) q : NoDup (map lock_id (l :: q)) → filter (λ x, lock_id x ≠ lock_id l) (l :: q) = q.
Proof.
  cbn [map]. intros [Hl Hnd]%NoDup_cons. rewrite filter_cons, decide_False by (by intros []). apply filter_all. intros x Hx He.
  apply Hl. rewrite <-He. by apply elem_ids.
Qed.

Lemma lock_rec_reset_and_release_wait_Ok block h s :
  sys_ok cfg s →
  ∃ s', lock_rec_reset_and_release_wait block h s = Ok (tt, s') ∧ sys_ok cfg s' ∧ view s' (block_space block) (block_page_no block) h = [] ∧
    other_queues s s' (block_space block) (block_page_no block) h.
Proof.
  intros Hs. set (sp := block_space block). set (pg := block_page_no block). unfold lock_rec_reset_and_release_wait. erewrite bind_Ok by done. fold sp pg. match goal with |- context [for_each ?b _ _] => set (body := b) end.
  assert (Hloop : ∀ q s1, inv None None s1 → queue s1 sp pg h = map strip q → (∀ l, l ∈ q → l ∈ rec_locks s1 sp pg h) →
            ∃ s', for_each body q s1 = Ok (tt, s') ∧ inv None None s' ∧ s_lock_mark_counter s' = s_lock_mark_counter s1 ∧
              queue s' sp pg h = [] ∧ other_queues s1 s' sp pg h).
  { intros q. induction q as [|l q IH]; intros s1 Hinv Hq Hin; [by exists s1|]. assert (Hl := Hin l ltac:(left)). apply elem_rec_locks in Hl as (Hl & [Hsp Hpg] & Hb).
    assert (Hnd := queue_ids s1 sp pg h (inv_hash _ _ _ Hinv)). rewrite Hq in Hnd. cbn [map] in Hnd.
    assert (Hstep : ∃ s2, body l s1 = Ok (tt, s2) ∧ inv None None s2 ∧ s_lock_mark_counter s2 = s_lock_mark_counter s1 ∧
              queue s2 sp pg h = filter (λ x, lock_id x ≠ lock_id l) (queue s1 sp pg h) ∧ other_queues s1 s2 sp pg h ∧
              ∀ x, has_lock s1 x → lock_id x ≠ lock_id l → has_lock s2 x).
    { unfold body. destruct (lock_get_wait l) eqn:Hw.
      - destruct (lock_rec_cancel_Ok s1 l h) as (s2 & H); [done..|]. exists s2. by rewrite Hsp, Hpg in H.
      - eexists. split; [done|]. destruct (unbit_Ok s1 l h Hinv Hl Hw) as (H1 & H2 & H3). rewrite Hsp, Hpg in H2, H3. split_and!; try done.
        intros x Hx Hne. apply has_update_other; [apply bit_change_place, reset_bit_change|done..]. }
    destruct Hstep as (s2 & Hrun & Hinv2 & Hc & Hq2 & Hoth & Hk). rewrite Hq in Hq2. cbn [map] in Hq2.
    change (lock_id l) with (lock_id (strip l)) in Hq2. rewrite (filter_head (strip l)) in Hq2 by done.
    destruct (IH s2) as (s' & Hrun' & Hinv' & Hc' & Hq' & Hoth'); [done..| |].
    - intros x Hx. destruct (proj1 (elem_rec_locks s1 sp pg h x)) as (H1 & H2 & H3); [apply Hin; by right|]. apply elem_rec_locks. split_and!; try done.
      apply Hk; [done|]. intros He. apply NoDup_cons in Hnd as [Hnin _]. apply Hnin. rewrite map_map. cbn. rewrite <-He. by apply elem_ids.
    - exists s'. split_and!; [cbn [for_each]; by erewrite bind_Ok by exact Hrun|done|by rewrite Hc'|done|]. intros sp' pg' h' Hne. by rewrite Hoth', Hoth. }
  destruct (Hloop (rec_locks s sp pg h) s) as (s' & Hrun & Hinv' & Hc & Hq & Hoth); [apply Hs|done|done|].
  exists s'. assert (Hv : view s' sp pg h = []) by (by rewrite queue_view, Hq). split_and!; try done.
  apply (sys_ok_requeued s s' (λ sp pg h, (sp, pg, h))); try done. intros sp' pg' h'.
  destruct (decide ((sp', pg', h') = (sp, pg, h))) as [E|Hne]; [left; by simplify_eq|right]. split; [done|]. rewrite (other_views s s' _ _ _ _ _ _ Hoth Hne). apply requeued_refl.
Qed.

(** ** Discarding a page *)

Lemma queue_remove s l sp pg h :
  hash_ok s → has_lock s l → lock_rec_get_nth_bit l h = false → queue (remove l s) sp pg h = queue s sp pg h.
Proof.
  intros Hok Hl Hb. unfold queue, rec_locks. change (page_locks (remove l s) sp pg) with (page_locks (hash_remove l s) sp pg).
  rewrite page_hash_remove by done. f_equal. rewrite list_filter_filter.
  assert (Hx : ∀ x, x ∈ page_locks s sp pg → lock_rec_get_nth_bit x h = true → lock_id x ≠ lock_id l).
  { intros x [Hx _]%elem_page Hxb Hid. rewrite (lock_id_inj s x l) in Hxb by done. congruence. }
  induction (page_locks s sp pg) as [|x q IH]; [done|]. rewrite !filter_cons, IH by set_solver.
  destruct (decide (lock_rec_get_nth_bit x h = true)) as [Hxb|Hxb]; [rewrite decide_True; [done|split; [done|apply Hx; [left|done]]]|rewrite decide_False; tauto].
Qed.

Lemma lock_rec_discard_Ok s l :
  inv None None s → has_lock s l → (∀ i, lock_rec_get_nth_bit l i = false) →
  lock_rec_discard l s = Ok (tt, remove l s) ∧ inv None None (remove l s).
Proof.
  intros Hinv Hl Hb. split; [unfold lock_rec_discard; by rewrite (bind_Ok _ _ _ _ _ (hash_delete_Ok s l Hl))|].
  assert (Hw : lock_get_wait l = false). { destruct (lock_get_wait l) eqn:Hw; [|done]. destruct (inv_one_bit s Hinv l Hl Hw) as (h & Hh & _). congruence. }
  assert (H := inv_remove cfg None s l Hinv Hl). unfold cancelled_by in H. by rewrite Hw in H.
Qed.

Lemma lock_rec_free_all_from_discard_page_Ok block s :
  sys_ok cfg s → (∀ l i, l ∈ page_locks s (block_space block) (block_page_no block) → lock_rec_get_nth_bit l i = false) →
  ∃ s', lock_rec_free_all_from_discard_page block s = Ok (tt, s') ∧ sys_ok cfg s' ∧ (∀ sp pg h, queue s' sp pg h = queue s sp pg h).
Proof.
  intros Hs Hb. unfold lock_rec_free_all_from_discard_page. erewrite bind_Ok by done.
  assert (Hloop : ∀ q s1, inv None None s1 → NoDup (map lock_id q) → (∀ l, l ∈ q → has_lock s1 l ∧ ∀ i, lock_rec_get_nth_bit l i = false) →
            ∃ s', for_each lock_rec_discard q s1 = Ok (tt, s') ∧ inv None None s' ∧ s_lock_mark_counter s' = s_lock_mark_counter s1 ∧
              ∀ sp pg h, queue s' sp pg h = queue s1 sp pg h).
  { intros q. induction q as [|l q IH]; intros s1 Hinv Hnd Hq; [by exists s1|]. destruct (Hq l) as [Hl Hlb]; [left|].
    destruct (lock_rec_discard_Ok s1 l Hinv Hl Hlb) as [Hrun Hinv1]. cbn [map] in Hnd. apply NoDup_cons in Hnd as [Hnin Hnd].
    destruct (IH (remove l s1)) as (s' & Hrun' & Hinv' & Hc & Hqs); [done..| |].
    - intros x Hx. split; [|apply Hq; by right]. apply (has_remove None None s1 l); [done..|]. split; [apply Hq; by right|]. intros He. apply Hnin. rewrite <-He. by apply elem_ids.
    - exists s'. split_and!; [cbn [for_each]; by erewrite bind_Ok by exact Hrun|done..|]. intros sp pg h. rewrite Hqs. apply queue_remove; [apply Hinv|done|apply Hlb]. }
  destruct (Hloop (page_locks s (block_space block) (block_page_no block)) s) as (s' & Hrun & Hinv' & Hc & Hq);
    [apply Hs|apply page_ids, Hs|intros l Hl; split; [by apply elem_page in Hl as []|intros i; by apply Hb]|].
  exists s'. split_and!; try done. apply (sys_ok_requeued s s' (λ sp pg h, (sp, pg, h))); try done. intros sp pg h. right. split; [done|].
  rewrite !queue_view, Hq. apply requeued_refl.
Qed.

(** ** Moving *)

(** The flags that a lock loses on the supremum are not set. *)
Definition plain_on (s : lock_sys_t) (sp pg : Z) (h : nat) : Prop :=
  h = PAGE_HEAP_NO_SUPREMUM → ∀ l, l ∈ rec_locks s sp pg h → lock_rec_get_gap l = false ∧ lock_rec_get_rec_not_gap l = false.

Lemma plain_entry h l :
  (h = PAGE_HEAP_NO_SUPREMUM → lock_rec_get_gap l = false ∧ lock_rec_get_rec_not_gap l = false) →
  mode_entry (lock_trx l) (supremum_mode h (type_mode l)) = entry_of l.
Proof.
  unfold supremum_mode. destruct (Nat.eqb_spec h PAGE_HEAP_NO_SUPREMUM) as [Hh|]; [|done]. intros Hp. destruct (Hp Hh) as [Hg Hr].
  unfold mode_entry, entry_of. rewrite Hg, Hr, mode_ldiff by done. unfold lock_get_mode, lock_rec_get_insert_intention, lock_get_wait. f_equal; by flags.
Qed.

Lemma move_bit_strip l l' h receiver rh : strip l = strip l' → move_bit cfg l h receiver rh = move_bit cfg l' h receiver rh.
Proof. intros [= E1 E2 E3 _ _]. unfold move_bit, lock_reset_lock_and_trx_wait. by rewrite E1, E2, E3. Qed.

(** The first part of [move_bit]. *)
Lemma take_bit_Ok s l h :
  inv None None s → has_lock s l → lock_rec_get_nth_bit l h = true →
  ∃ s1 trx, (_ ← modify (update_lock (lock_id l) (λ l, lock_rec_reset_nth_bit l h));
             if has_flag (type_mode l) LOCK_WAIT then lock_reset_lock_and_trx_wait l else mret tt) s = Ok (tt, s1) ∧
    inv None (if has_flag (type_mode l) LOCK_WAIT then Some (lock_trx l) else None) s1 ∧ s_lock_mark_counter s1 = s_lock_mark_counter s ∧
    trxs s1 !! lock_trx l = Some trx ∧ (has_flag (type_mode l) LOCK_WAIT = true → wait_lock trx = None ∧ que_state trx = TRX_QUE_LOCK_WAIT) ∧
    queue s1 (space l) (page_no l) h = filter (λ x, lock_id x ≠ lock_id l) (queue s (space l) (page_no l) h) ∧
    other_queues s s1 (space l) (page_no l) h.
Proof.
  intros Hinv Hl Hh. destruct (inv_trx_of _ _ _ _ Hinv Hl) as (trx & Ht & _ & Hwt). change (has_flag (type_mode l) LOCK_WAIT) with (lock_get_wait l).
  destruct (lock_get_wait l) eqn:Hw.
  - destruct (unwait_Ok s l h Hinv Hl Hw Hh) as (H1 & H2 & H3). exists (unwait l h s), (set_wait_lock None trx).
    split_and!; [apply unwait_run|done|done|by apply unwait_trx| |done|done]. intros _. split; [done|]. cbn.
    rewrite (inv_que _ _ _ _ Hinv Ht), decide_False, (Hwt eq_refl) by done. done.
  - destruct (unbit_Ok s l h Hinv Hl Hw) as (H1 & H2 & H3). eexists _, trx. split; [by erewrite bind_Ok by done|]. split_and!; done.
Qed.

Lemma move_bit_Ok s l h receiver rh :
  let rsp := block_space receiver in let rpg := block_page_no receiver in
  inv None None s → has_lock s l → lock_rec_get_nth_bit l h = true → rh < page_dir_get_n_heap receiver →
  (rsp, rpg, rh) ≠ (space l, page_no l, h) → mode_entry (lock_trx l) (supremum_mode rh (type_mode l)) = entry_of l →
  (rh ≠ PAGE_HEAP_NO_SUPREMUM → ∀ v, joined (entry_of l) (view s rsp rpg rh) v → rule3_view v) →
  ∃ s', move_bit cfg l h receiver rh s = Ok (tt, s') ∧ inv None None s' ∧ s_lock_mark_counter s' = s_lock_mark_counter s ∧
    queue s' (space l) (page_no l) h = filter (λ x, lock_id x ≠ lock_id l) (queue s (space l) (page_no l) h) ∧
    joined (entry_of l) (view s rsp rpg rh) (view s' rsp rpg rh) ∧
    ∀ sp pg h', (sp, pg, h') ≠ (space l, page_no l, h) → (sp, pg, h') ≠ (rsp, rpg, rh) → queue s' sp pg h' = queue s sp pg h'.
Proof.
  intros rsp rpg Hinv Hl Hh Hrh Hne Hplain H3. destruct (take_bit_Ok s l h Hinv Hl Hh) as (s1 & trx & Hrun & Hinv1 & Hc & Ht & Hidle & Hq & Hoth).
  assert (Hv : view s1 rsp rpg rh = view s rsp rpg rh) by (by apply (other_views s s1 _ _ _ _ _ _ Hoth)).
  destruct (add_to_queue_Ok cfg s1 (type_mode l) receiver rh (lock_trx l) trx) as (s' & Hrun' & Hinv' & Hc' & Hj & Hoth' & _); try done.
  - apply (inv_lock _ _ _ Hinv _ Hl).
  - rewrite Hplain. fold rsp rpg. by rewrite Hv.
  - fold rsp rpg in Hj, Hoth'. rewrite Hv, Hplain in Hj. exists s'. split_and!; [|done|congruence| |done|].
    + unfold move_bit. unfold mbind, M_bind in Hrun |- *. destruct (modify _ s) as [[[] s0]|]; [|done]. by rewrite Hrun.
    + by rewrite Hoth'.
    + intros sp pg h' H1 H2. by rewrite Hoth', Hoth.
Qed.

(** A lock of the queue, with the bitmap that it has now. *)
Lemma queue_head s sp pg h l q :
  hash_ok s → queue s sp pg h = strip l :: q →
  ∃ l', has_lock s l' ∧ on_page sp pg l' ∧ lock_rec_get_nth_bit l' h = true ∧ strip l = strip l' ∧
    filter (λ x, lock_id x ≠ lock_id l') (queue s sp pg h) = q.
Proof.
  intros Hok Hq. assert (Hin : strip l ∈ queue s sp pg h) by (rewrite Hq; left). apply elem_queue in Hin as (l' & Hl' & Hp & Hb & He).
  exists l'. split_and!; try done. assert (Hnd := queue_ids s sp pg h Hok). rewrite Hq, He in *.
  change (lock_id l') with (lock_id (strip l')). by apply filter_head.
Qed.

(** One more request of a queue [v] is moved. *)
Lemma requeued_join_rule3 v0 v e v1 v' v'' :
  v0 = v ++ e :: v1 → Forall e_mode_ok v0 → rule3_view v0 → requeued v v' → joined e v' v'' → rule3_view v''.
Proof.
  intros -> Hm H3 Hr Hj. assert (Hsub : v ++ [e] `sublist_of` v ++ e :: v1) by (apply sublist_app; [done|]; apply sublist_skip, sublist_nil_l).
  eapply requeued_rule3; [|by eapply requeued_join|by eapply rule3_sublist]. rewrite Forall_forall in *. intros x Hx. apply Hm. by eapply elem_of_sublist.
Qed.

Section move.
  Context (s : lock_sys_t) (receiver donator : buf_block_t) (rh dh : nat).
  Notation rsp := (block_space receiver).
  Notation rpg := (block_page_no receiver).
  Notation dsp := (block_space donator).
  Notation dpg := (block_page_no donator).
  Context (Hs : sys_ok cfg s) (Hrh : rh < page_dir_get_n_heap receiver) (Hne : (rsp, rpg, rh) ≠ (dsp, dpg, dh)).
  Context (Hsup : is_sup rh = is_sup dh) (Hplain : plain_on s dsp dpg dh).

Lemma move_loop q q1 s1 :
  rec_locks s dsp dpg dh = q1 ++ q → inv None None s1 → queue s1 dsp dpg dh = map strip q → requeued (map entry_of q1) (view s1 rsp rpg rh) →
  ∃ s', for_each (λ lock, move_bit cfg lock dh receiver rh) q s1 = Ok (tt, s') ∧ inv None None s' ∧ s_lock_mark_counter s' = s_lock_mark_counter s1 ∧
    queue s' dsp dpg dh = [] ∧ requeued (map entry_of (q1 ++ q)) (view s' rsp rpg rh) ∧
    ∀ sp pg h, (sp, pg, h) ≠ (dsp, dpg, dh) → (sp, pg, h) ≠ (rsp, rpg, rh) → queue s' sp pg h = queue s1 sp pg h.
Proof.
  revert q1 s1. induction q as [|l q IH]; intros q1 s1 Hq Hinv Hdq Hr; [exists s1; rewrite app_nil_r; done|].
  destruct (queue_head s1 dsp dpg dh l (map strip q)) as (l' & Hl' & [Hsp Hpg] & Hb & Hst & Hf); [apply Hinv|done|].
  assert (He : entry_of l' = entry_of l) by (assert (E := f_equal entry_of Hst); done).
  assert (Hin : l ∈ rec_locks s dsp dpg dh) by (rewrite Hq; set_solver).
  assert (Hdh : rh = PAGE_HEAP_NO_SUPREMUM → dh = PAGE_HEAP_NO_SUPREMUM) by (intros ->; by apply Nat.eqb_eq; rewrite <-Hsup).
  destruct (move_bit_Ok s1 l' dh receiver rh) as (s2 & Hrun & Hinv2 & Hc & Hdq2 & Hj & Hoth); [done..|by rewrite Hsp, Hpg| | |].
  - apply plain_entry. intros Hs'. destruct (Hplain (Hdh Hs') l Hin) as [Hg Hg'].
    assert (E1 := f_equal e_gap He). assert (E2 := f_equal e_rec_not_gap He). cbn in E1, E2. by rewrite E1, E2.
  - intros Hns v Hj. eapply (requeued_join_rule3 (view s dsp dpg dh)); [|by apply view_modes, Hs| |exact Hr|exact Hj].
    + unfold view. by rewrite Hq, map_app, He.
    + apply rule3_views; [apply Hs|apply Hs|]. intros Hds. apply Hns. apply Nat.eqb_eq. rewrite Hsup. by apply Nat.eqb_eq.
  - rewrite Hsp, Hpg, Hf in *. destruct (IH (q1 ++ [l]) s2) as (s' & Hrun' & Hinv' & Hc' & Hdq' & Hr' & Hoth'); [by rewrite <-app_assoc|done|done| |].
    + rewrite map_app. cbn. rewrite <-He. by eapply requeued_join.
    + exists s'. rewrite <-app_assoc in Hr'. split_and!; [|done|by rewrite Hc'|done|done|].
      * cbn [for_each]. rewrite (move_bit_strip l l') by done. by erewrite bind_Ok by exact Hrun.
      * intros sp pg h H1 H2. rewrite Hoth' by done. by apply Hoth.
Qed.

Lemma lock_rec_move_Ok :
  view s rsp rpg rh = [] →
  ∃ s', lock_rec_move cfg receiver donator rh dh s = Ok (tt, s') ∧ sys_ok cfg s' ∧ view s' dsp dpg dh = [] ∧
    requeued (view s dsp dpg dh) (view s' rsp rpg rh) ∧
    ∀ sp pg h, (sp, pg, h) ≠ (dsp, dpg, dh) → (sp, pg, h) ≠ (rsp, rpg, rh) → queue s' sp pg h = queue s sp pg h.
Proof.
  intros Hnil. destruct (move_loop (rec_locks s dsp dpg dh) [] s) as (s' & Hrun & Hinv' & Hc & Hdq & Hr & Hoth); [done|apply Hs|done|rewrite Hnil; apply requeued_refl|].
  assert (Hdv : view s' dsp dpg dh = []) by (by rewrite queue_view, Hdq). exists s'. split_and!; [by unfold lock_rec_move; erewrite bind_Ok by done| |done..].
  apply (sys_ok_requeued s s' (λ sp pg h, if decide ((sp, pg, h) = (rsp, rpg, rh)) then (dsp, dpg, dh) else (sp, pg, h))); try done. intros sp pg h.
  destruct (decide ((sp, pg, h) = (dsp, dpg, dh))) as [E|H1]; [left; by simplify_eq|right]. case_decide as H2; [by simplify_eq|].
  split; [done|]. rewrite !queue_view, Hoth by done. apply requeued_refl.
Qed.

End move.

End config.
