(* ===== verification/InnoPages.v ===== *)
(** Moving the locks of several records of InnoDB to another page, and the updates of the
    lock table when pages change: all of them keep [sys_ok]. *)
From stdpp Require Import functions base tactics numbers option list list_numbers gmap sets relations sorting.
From Stdlib Require Import ZArith Lia.
From S2P Require Import Prelude InnoMode InnoSys InnoQueue InnoInv InnoGrant InnoBits InnoView InnoDeadlock InnoSearch InnoResolve InnoRequest InnoMove InnoLocking InnoJoin InnoCarry InnoInherit.

Notation has_bit h := (λ l, lock_rec_get_nth_bit l h = true).

Section config.
  Context (cfg : config) (Hvats : ∀ t, uses_vats cfg t = false).

(** ** Moving a list of records *)

Section records.
  Context (s : lock_sys_t) (new_block block : buf_block_t).
  Notation nsp := (block_space new_block).
  Notation npg := (block_page_no new_block).
  Notation bsp := (block_space block).
  Notation bpg := (block_page_no block).
  Context (Hs : sys_ok cfg s) (Hpages : (nsp, npg) ≠ (bsp, bpg)).

(** The locks [q1] of the page have been moved for the pair of records, [q2] have not. *)
Definition carried (s1 : lock_sys_t) (q1 q2 : list lock_t) (p : nat * nat) : Prop :=
  queue s1 bsp bpg p.1 = map strip (filter (has_bit p.1) q2) ∧ requeued (map entry_of (filter (has_bit p.1) q1)) (view s1 nsp npg p.2).

(** Queues of records that are not among the pairs. *)
Definition others (recs : list (nat * nat)) (s1 s2 : lock_sys_t) : Prop :=
  ∀ sp pg h, (∀ p, p ∈ recs → (sp, pg, h) ≠ (bsp, bpg, p.1) ∧ (sp, pg, h) ≠ (nsp, npg, p.2)) → queue s2 sp pg h = queue s1 sp pg h.

(** Pairs of different user records, the second on the new page. *)
Record moved_records (recs : list (nat * nat)) : Prop := mk_moved_records {
  mr_old : NoDup recs.*1;
  mr_new : NoDup recs.*2;
  mr_user : ∀ p, p ∈ recs → p.1 ≠ PAGE_HEAP_NO_SUPREMUM ∧ p.2 ≠ PAGE_HEAP_NO_SUPREMUM ∧ p.2 < page_dir_get_n_heap new_block;
}.

Lemma carried_others recs s1 s2 q1 q2 p :
  others recs s1 s2 → p.1 ∉ recs.*1 → p.2 ∉ recs.*2 → carried s1 q1 q2 p → carried s2 q1 q2 p.
Proof.
  intros Ho H1 H2 [Hq Hr]. split.
  - rewrite Ho; [done|]. intros p' Hp'. split; [|congruence]. intros [= E]. apply H1. rewrite E. by apply list_elem_of_fmap_2.
  - rewrite queue_view, Ho, <-queue_view; [done|]. intros p' Hp'. split; [congruence|]. intros [= E]. apply H2. rewrite E. by apply list_elem_of_fmap_2.
Qed.

(** One record and one lock. *)
Lemma carry_one s1 q1 l q2 p :
  page_locks s bsp bpg = q1 ++ l :: q2 → inv None None s1 → p.1 ≠ PAGE_HEAP_NO_SUPREMUM → p.2 ≠ PAGE_HEAP_NO_SUPREMUM →
  p.2 < page_dir_get_n_heap new_block → carried s1 q1 (l :: q2) p → lock_rec_get_nth_bit l p.1 = true →
  ∃ s', move_bit cfg l p.1 new_block p.2 s1 = Ok (tt, s') ∧ inv None None s' ∧ s_lock_mark_counter s' = s_lock_mark_counter s1 ∧
    carried s' (q1 ++ [l]) q2 p ∧ others [p] s1 s'.
Proof.
  intros Hpl Hinv Hu1 Hu2 Hn [Hq Hr] Hb. rewrite filter_cons, decide_True in Hq by done.
  destruct (queue_head s1 bsp bpg p.1 l (map strip (filter (has_bit p.1) q2))) as (l' & Hl' & [Hsp Hpg] & Hb' & Hst & Hf); [apply Hinv|done|].
  assert (He : entry_of l' = entry_of l) by (assert (E := f_equal entry_of Hst); done).
  destruct (move_bit_Ok cfg Hvats s1 l' p.1 new_block p.2) as (s2 & Hrun & Hinv2 & Hc & Hdq & Hj & Hoth); [done..|rewrite Hsp, Hpg; congruence|by apply plain_entry| |].
  - intros _ v Hj. eapply (requeued_join_rule3 (view s bsp bpg p.1)); [|by apply view_modes, Hs|by apply rule3_views; [apply Hs|apply Hs|]|exact Hr|exact Hj].
    unfold view, rec_locks. rewrite Hpl, filter_app, filter_cons, decide_True, map_app by done. cbn. by rewrite He.
  - rewrite Hsp, Hpg, Hf in *. exists s2. rewrite (move_bit_strip cfg l l') by done. split_and!; try done.
    + split; [done|]. rewrite filter_app, filter_cons, decide_True, map_app by done. cbn. rewrite <-He. by eapply requeued_join.
    + intros sp pg h Hp. apply Hoth; apply (Hp p); left.
Qed.

Lemma others_app r1 r2 s1 s2 s3 : others r1 s1 s2 → others r2 s2 s3 → others (r1 ++ r2) s1 s3.
Proof. intros H1 H2 sp pg h Hp. rewrite H2, H1; [done|intros p Hin; apply Hp; set_solver..]. Qed.

(** All records for one lock. *)
Lemma move_records_Ok q1 l q2 recs lk s1 :
  page_locks s bsp bpg = q1 ++ l :: q2 → inv None None s1 → moved_records recs →
  strip lk = strip l → (∀ p, p ∈ recs → lock_rec_get_nth_bit lk p.1 = lock_rec_get_nth_bit l p.1) → bitmap_ok lk →
  (∀ p, p ∈ recs → carried s1 q1 (l :: q2) p) →
  ∃ s', move_records cfg new_block lk recs s1 = Ok (tt, s') ∧ inv None None s' ∧ s_lock_mark_counter s' = s_lock_mark_counter s1 ∧
    (∀ p, p ∈ recs → carried s' (q1 ++ [l]) q2 p) ∧ others recs s1 s'.
Proof.
  intros Hpl. revert lk s1. induction recs as [|p recs IH]; intros lk s1 Hinv [Hd1 Hd2 Hu] Hst Hbits Hbm Hca.
  { exists s1. split_and!; try done. by intros p ?%elem_of_nil. }
  cbn [fmap list_fmap] in Hd1, Hd2. apply NoDup_cons in Hd1 as [Hn1 Hd1], Hd2 as [Hn2 Hd2].
  assert (Hmr : moved_records recs) by (split; [done..|intros p' Hp'; apply Hu; by right]).
  assert (Hp := Hca p ltac:(left)). assert (Hbp := Hbits p ltac:(left)).
  assert (Hstep : ∃ s2 lk2, move_records cfg new_block lk (p :: recs) s1 = move_records cfg new_block lk2 recs s2 ∧ inv None None s2 ∧
            s_lock_mark_counter s2 = s_lock_mark_counter s1 ∧ carried s2 (q1 ++ [l]) q2 p ∧ others [p] s1 s2 ∧ strip lk2 = strip l ∧ bitmap_ok lk2 ∧
            ∀ p', p' ∈ recs → lock_rec_get_nth_bit lk2 p'.1 = lock_rec_get_nth_bit l p'.1).
  { destruct p as [h1 h2]. cbn [move_records fst snd] in *. destruct (lock_rec_get_nth_bit lk h1) eqn:Hb.
    - destruct (Hu (h1, h2)) as (Hu1 & Hu2 & Hn); [left|]. destruct (carry_one s1 q1 l q2 (h1, h2)) as (s2 & Hrun & Hinv2 & Hc & Hca2 & Ho); [done..|].
      exists s2, (lock_rec_reset_nth_bit lk h1). rewrite (proj2 (Nat.ltb_lt _ _)) by (by apply bit_lt in Hb). cbn [andb].
      rewrite (move_bit_strip cfg lk l) by done. erewrite bind_Ok by exact Hrun. split_and!; try done; [by apply reset_nth_bit_ok|].
      intros p' Hp'. rewrite reset_bit_get by done. rewrite Hbits by (by right). rewrite (proj2 (Nat.eqb_neq _ _)), andb_true_r; [done|].
      intros ->. apply Hn1. by apply list_elem_of_fmap_2.
    - exists s1, lk. rewrite andb_false_r. split_and!; try done; [|intros p' Hp'; apply Hbits; by right]. destruct Hp as [Hq Hr]. cbn [fst] in *. split; cbn [fst].
      + by rewrite filter_cons, decide_False in Hq by congruence.
      + rewrite filter_app, filter_cons, decide_False by congruence. by rewrite app_nil_r. }
  destruct Hstep as (s2 & lk2 & Hrun & Hinv2 & Hc & Hca2 & Ho & Hst2 & Hbm2 & Hbits2).
  destruct (IH lk2 s2) as (s' & Hrun' & Hinv' & Hc' & Hca' & Ho'); [done..| |].
  - intros p' Hp'. eapply carried_others; [exact Ho| | |apply Hca; by right].
    + intros [=E]%list_elem_of_singleton. apply Hn1. cbn in E. rewrite <-E. by apply list_elem_of_fmap_2.
    + intros [=E]%list_elem_of_singleton. apply Hn2. cbn in E. rewrite <-E. by apply list_elem_of_fmap_2.
  - exists s'. split_and!; [by rewrite Hrun|done|congruence| |by apply (others_app [p] recs s1 s2)].
    intros p' [->|Hp']%elem_of_cons; [by apply (carried_others recs s2)|by apply Hca'].
Qed.

(** All locks of the page. *)
Lemma move_list_loop recs q2 q1 s1 :
  page_locks s bsp bpg = q1 ++ q2 → inv None None s1 → moved_records recs → (∀ p, p ∈ recs → carried s1 q1 q2 p) →
  ∃ s', for_each (λ lock, move_records cfg new_block lock recs) q2 s1 = Ok (tt, s') ∧ inv None None s' ∧ s_lock_mark_counter s' = s_lock_mark_counter s1 ∧
    (∀ p, p ∈ recs → carried s' (q1 ++ q2) [] p) ∧ others recs s1 s'.
Proof.
  revert q1 s1. induction q2 as [|l q2 IH]; intros q1 s1 Hpl Hinv Hmr Hca; [exists s1; by rewrite app_nil_r|].
  assert (Hl : has_lock s l). { assert (Hin : l ∈ page_locks s bsp bpg) by (rewrite Hpl; set_solver). by apply elem_page in Hin as []. }
  destruct (move_records_Ok q1 l q2 recs l s1) as (s2 & Hrun & Hinv2 & Hc & Hca2 & Ho); try done; [by apply (inv_lock _ _ _ (sys_inv _ _ Hs))|].
  destruct (IH (q1 ++ [l]) s2) as (s' & Hrun' & Hinv' & Hc' & Hca' & Ho'); [by rewrite <-app_assoc|done..|].
  rewrite <-app_assoc in Hca'. exists s'. split_and!; [cbn [for_each]; by erewrite bind_Ok by exact Hrun|done|congruence|done|].
  intros sp pg h Hp. by rewrite Ho', Ho.
Qed.

Definition moves (recs : list (nat * nat)) (s' : lock_sys_t) : Prop :=
  (∀ p, p ∈ recs → view s' bsp bpg p.1 = [] ∧ requeued (view s bsp bpg p.1) (view s' nsp npg p.2)) ∧ others recs s s'.

Lemma move_list_Ok recs :
  moved_records recs → (∀ p, p ∈ recs → view s nsp npg p.2 = []) →
  ∃ s', for_each (λ lock, move_records cfg new_block lock recs) (page_locks s bsp bpg) s = Ok (tt, s') ∧ sys_ok cfg s' ∧ moves recs s'.
Proof.
  intros Hmr Hnil. destruct (move_list_loop recs (page_locks s bsp bpg) [] s) as (s' & Hrun & Hinv' & Hc & Hca & Ho); [done|apply Hs|done| |].
  { intros p Hp. split; [done|]. rewrite Hnil by done. apply requeued_refl. }
  assert (Hm : moves recs s'). { split; [|done]. intros p Hp. destruct (Hca p Hp) as [Hq Hr]. split; [by rewrite queue_view, Hq|done]. }
  exists s'. split_and!; [done| |done]. destruct Hm as [Hm _].
  set (from := λ sp pg h, match List.find (λ p, bool_decide ((sp, pg, h) = (nsp, npg, p.2))) recs with Some p => (bsp, bpg, p.1) | None => (sp, pg, h) end).
  apply (sys_ok_requeued cfg s s' from); [done..|]. intros sp pg h. unfold from.
  destruct (List.find _ recs) as [p|] eqn:Hf.
  - apply List.find_some in Hf as [Hp%list_elem_of_In E%bool_decide_eq_true]. simplify_eq. right. destruct (mr_user _ Hmr p Hp) as (H1 & H2 & _). split.
    + by rewrite !(proj2 (Nat.eqb_neq _ _)).
    + by apply Hm.
  - destruct (decide ((sp, pg) = (bsp, bpg) ∧ h ∈ recs.*1)) as [[E Hin]|Hne].
    + left. simplify_eq. apply list_elem_of_fmap in Hin as (p & -> & Hp). by apply Hm.
    + right. split; [done|]. rewrite !queue_view, Ho; [apply requeued_refl|]. intros p Hp. split.
      * intros [= -> -> ->]. apply Hne. split; [done|]. by apply list_elem_of_fmap_2.
      * intros E. apply list_elem_of_In in Hp. apply (List.find_none _ _ Hf) in Hp. by apply bool_decide_eq_false in Hp.
Qed.

End records.

(** ** Updates of the lock table *)

Inductive page_op : Type :=
| UpdateInsert (block : buf_block_t) (rec next : nat)
| UpdateDelete (block : buf_block_t) (rec next : nat)
| SplitRight (rb lb : buf_block_t) (min_heap_no : nat)
| SplitLeft (rb lb : buf_block_t) (min_heap_no : nat)
| MergeRight (rb : buf_block_t) (orig_succ : nat) (lb : buf_block_t)
| MergeLeft (lb : buf_block_t) (left_next : nat) (rb : buf_block_t)
| SplitAndMerge (lb : buf_block_t) (left_next : nat) (rb : buf_block_t) (min_heap_no : nat)
| RootRaise (block root : buf_block_t)
| CopyAndDiscard (new_block block : buf_block_t)
| Discard (heir_block : buf_block_t) (heir : nat) (block : buf_block_t) (recs : list nat)
| ResetAndInherit (heir_block block : buf_block_t) (heir rec : nat)
| StoreOnInfimum (block : buf_block_t) (rec : nat)
| RestoreFromInfimum (block : buf_block_t) (rec : nat) (donator : buf_block_t)
| MoveListEnd (new_block block : buf_block_t) (recs1 recs2 : list nat)
| MoveListStart (new_block block : buf_block_t) (recs1 recs2 : list nat).

Definition run_page_op (op : page_op) : LS unit :=
  match op with
  | UpdateInsert block rec next => lock_update_insert cfg block rec next
  | UpdateDelete block rec next => lock_update_delete cfg block rec next
  | SplitRight rb lb min => lock_update_split_right cfg rb lb min
  | SplitLeft rb lb min => lock_update_split_left cfg rb lb min
  | MergeRight rb succ lb => lock_update_merge_right cfg rb succ lb
  | MergeLeft lb next rb => lock_update_merge_left cfg lb next rb
  | SplitAndMerge lb next rb min => lock_update_split_and_merge cfg lb next rb min
  | RootRaise block root => lock_update_root_raise cfg block root
  | CopyAndDiscard new block => lock_update_copy_and_discard cfg new block
  | Discard heir_block heir block recs => lock_update_discard cfg heir_block heir block recs
  | ResetAndInherit heir_block block heir rec => lock_rec_reset_and_inherit_gap_locks cfg heir_block block heir rec
  | StoreOnInfimum block rec => lock_rec_store_on_page_infimum cfg block rec
  | RestoreFromInfimum block rec donator => lock_rec_restore_from_page_infimum cfg block rec donator
  | MoveListEnd new block recs1 recs2 => lock_move_rec_list_end cfg new block recs1 recs2
  | MoveListStart new block recs1 recs2 => lock_move_rec_list_start cfg new block recs1 recs2
  end.

Definition place (b : buf_block_t) : Z * Z := (block_space b, block_page_no b).

Definition on_rec (s : lock_sys_t) (b : buf_block_t) (h : nat) : list entry := view s (block_space b) (block_page_no b) h.

(** What the code relies on: heap numbers are those of records, pages are different,
    nothing is locked on a record that gets locks ("there must be no lock requests on
    it!"), and a page that is discarded has locks only on the records that are dealt
    with. *)
Definition page_op_ok (s : lock_sys_t) (op : page_op) : Prop :=
  match op with
  | UpdateInsert block rec next => rec < page_dir_get_n_heap block ∧ rec ≠ next
  | UpdateDelete block rec next => next < page_dir_get_n_heap block ∧ rec ≠ next
  | SplitRight rb lb min =>
      place rb ≠ place lb ∧ PAGE_HEAP_NO_SUPREMUM < page_dir_get_n_heap rb ∧ PAGE_HEAP_NO_SUPREMUM < page_dir_get_n_heap lb ∧
      plain_on s (block_space lb) (block_page_no lb) PAGE_HEAP_NO_SUPREMUM ∧ on_rec s rb PAGE_HEAP_NO_SUPREMUM = []
  | SplitLeft rb lb min => place rb ≠ place lb ∧ PAGE_HEAP_NO_SUPREMUM < page_dir_get_n_heap lb
  | MergeRight rb succ lb =>
      place rb ≠ place lb ∧ succ < page_dir_get_n_heap rb ∧ ∀ h, h ≠ PAGE_HEAP_NO_SUPREMUM → on_rec s lb h = []
  | MergeLeft lb next rb =>
      place rb ≠ place lb ∧ next < page_dir_get_n_heap lb ∧ PAGE_HEAP_NO_SUPREMUM < page_dir_get_n_heap lb ∧
      plain_on s (block_space rb) (block_page_no rb) PAGE_HEAP_NO_SUPREMUM ∧
      (next = PAGE_HEAP_NO_SUPREMUM → on_rec s lb PAGE_HEAP_NO_SUPREMUM = []) ∧ ∀ h, h ≠ PAGE_HEAP_NO_SUPREMUM → on_rec s rb h = []
  | SplitAndMerge lb next rb min =>
      place rb ≠ place lb ∧ next < page_dir_get_n_heap lb ∧ next ≠ PAGE_HEAP_NO_SUPREMUM ∧ PAGE_HEAP_NO_SUPREMUM < page_dir_get_n_heap lb
  | RootRaise block root =>
      place block ≠ place root ∧ PAGE_HEAP_NO_SUPREMUM < page_dir_get_n_heap block ∧
      plain_on s (block_space root) (block_page_no root) PAGE_HEAP_NO_SUPREMUM ∧ on_rec s block PAGE_HEAP_NO_SUPREMUM = []
  | CopyAndDiscard new block =>
      place new ≠ place block ∧ PAGE_HEAP_NO_SUPREMUM < page_dir_get_n_heap new ∧
      plain_on s (block_space block) (block_page_no block) PAGE_HEAP_NO_SUPREMUM ∧ on_rec s new PAGE_HEAP_NO_SUPREMUM = [] ∧
      ∀ h, h ≠ PAGE_HEAP_NO_SUPREMUM → on_rec s block h = []
  | Discard heir_block heir block recs =>
      place heir_block ≠ place block ∧ heir < page_dir_get_n_heap heir_block ∧ ∀ h, h ∉ recs → on_rec s block h = []
  | ResetAndInherit heir_block block heir rec => heir < page_dir_get_n_heap heir_block ∧ (place heir_block, heir) ≠ (place block, rec)
  | StoreOnInfimum block rec =>
      rec ≠ PAGE_HEAP_NO_SUPREMUM ∧ rec ≠ PAGE_HEAP_NO_INFIMUM ∧ PAGE_HEAP_NO_INFIMUM < page_dir_get_n_heap block ∧ on_rec s block PAGE_HEAP_NO_INFIMUM = []
  | RestoreFromInfimum block rec donator =>
      rec ≠ PAGE_HEAP_NO_SUPREMUM ∧ rec ≠ PAGE_HEAP_NO_INFIMUM ∧ rec < page_dir_get_n_heap block ∧ on_rec s block rec = []
  | MoveListEnd new block recs1 recs2 | MoveListStart new block recs1 recs2 =>
      place new ≠ place block ∧ moved_records new (zip recs1 recs2) ∧ ∀ p, p ∈ zip recs1 recs2 → on_rec s new p.2 = []
  end.

(** *** Each of them *)

Lemma update_delete_ok s block rec next :
  sys_ok cfg s → next < page_dir_get_n_heap block → ∃ s', lock_update_delete cfg block rec next s = Ok (tt, s') ∧ sys_ok cfg s'.
Proof.
  intros Hs Hn. destruct (lock_rec_inherit_to_gap_Ok cfg Hvats block block next rec s) as (s1 & Hrun & Hs1 & _); [done..|].
  destruct (lock_rec_reset_and_release_wait_Ok cfg block rec s1 Hs1) as (s2 & Hrun2 & Hs2 & _). exists s2. split; [|done].
  unfold lock_update_delete. by erewrite bind_Ok by exact Hrun.
Qed.

(** A page without requests can be discarded. *)
Lemma discard_ok s block :
  sys_ok cfg s → (∀ h, on_rec s block h = []) → ∃ s', lock_rec_free_all_from_discard_page block s = Ok (tt, s') ∧ sys_ok cfg s'.
Proof.
  intros Hs Hnil. destruct (lock_rec_free_all_from_discard_page_Ok cfg Hvats block s Hs) as (s' & Hrun & Hs' & _); [|by exists s'].
  intros l i [Hl Hp]%elem_page. destruct (lock_rec_get_nth_bit l i) eqn:Hb; [|done].
  assert (Hin : entry_of l ∈ on_rec s block i) by (apply view_elem; by exists l). rewrite Hnil in Hin. by apply elem_of_nil in Hin.
Qed.

Lemma place_ne b b' (h h' : nat) : place b ≠ place b' → (block_space b, block_page_no b, h) ≠ (block_space b', block_page_no b', h').
Proof. unfold place. congruence. Qed.

Lemma on_rec_other s s' b h b' h' :
  other_queues s s' (block_space b') (block_page_no b') h' → (place b, h) ≠ (place b', h') → on_rec s' b h = on_rec s b h.
Proof. intros Ho Hne. unfold on_rec. eapply (other_views s s'); [exact Ho|]. exact Hne. Qed.

Lemma supremum_move_ok s receiver donator :
  sys_ok cfg s → place receiver ≠ place donator → PAGE_HEAP_NO_SUPREMUM < page_dir_get_n_heap receiver →
  plain_on s (block_space donator) (block_page_no donator) PAGE_HEAP_NO_SUPREMUM → on_rec s receiver PAGE_HEAP_NO_SUPREMUM = [] →
  ∃ s', lock_rec_move cfg receiver donator PAGE_HEAP_NO_SUPREMUM PAGE_HEAP_NO_SUPREMUM s = Ok (tt, s') ∧ sys_ok cfg s' ∧
    on_rec s' donator PAGE_HEAP_NO_SUPREMUM = [] ∧ ∀ h, h ≠ PAGE_HEAP_NO_SUPREMUM → on_rec s' donator h = on_rec s donator h.
Proof.
  intros Hs Hne Hn Hp Hnil. destruct (lock_rec_move_Ok cfg Hvats s receiver donator PAGE_HEAP_NO_SUPREMUM PAGE_HEAP_NO_SUPREMUM) as (s' & Hrun & Hs' & Hd & _ & Ho);
    [done|done|by apply place_ne|done..|]. exists s'. split_and!; try done. intros h Hh. unfold on_rec. rewrite !queue_view, Ho; [done|congruence|].
  unfold place in Hne. congruence.
Qed.

Lemma split_right_ok s rb lb min :
  sys_ok cfg s → page_op_ok s (SplitRight rb lb min) → ∃ s', lock_update_split_right cfg rb lb min s = Ok (tt, s') ∧ sys_ok cfg s'.
Proof.
  intros Hs (Hne & Hr & Hl & Hp & Hnil). destruct (supremum_move_ok s rb lb) as (s1 & Hrun & Hs1 & _); [done..|].
  destruct (lock_rec_inherit_to_gap_Ok cfg Hvats lb rb PAGE_HEAP_NO_SUPREMUM min s1) as (s2 & Hrun2 & Hs2 & _); [done..|].
  exists s2. split; [|done]. unfold lock_update_split_right. by erewrite bind_Ok by exact Hrun.
Qed.

Lemma merge_right_ok s rb succ lb :
  sys_ok cfg s → page_op_ok s (MergeRight rb succ lb) → ∃ s', lock_update_merge_right cfg rb succ lb s = Ok (tt, s') ∧ sys_ok cfg s'.
Proof.
  intros Hs (Hne & Hn & Hnil). destruct (lock_rec_inherit_to_gap_Ok cfg Hvats rb lb succ PAGE_HEAP_NO_SUPREMUM s) as (s1 & Hrun & Hs1 & Ho1 & _); [done..|].
  destruct (lock_rec_reset_and_release_wait_Ok cfg lb PAGE_HEAP_NO_SUPREMUM s1 Hs1) as (s2 & Hrun2 & Hs2 & Hv2 & Ho2).
  destruct (discard_ok s2 lb Hs2) as (s3 & Hrun3 & Hs3).
  - intros h. destruct (decide (h = PAGE_HEAP_NO_SUPREMUM)) as [->|Hh]; [done|]. rewrite (on_rec_other s1 s2 lb h lb _ Ho2) by congruence.
    rewrite (on_rec_other s s1 lb h rb _ Ho1) by congruence. by apply Hnil.
  - exists s3. split; [|done]. unfold lock_update_merge_right. erewrite bind_Ok by exact Hrun. by erewrite bind_Ok by exact Hrun2.
Qed.

(** The left page before the locks of the right one come to its supremum. *)
Lemma merge_left_first_ok s lb next rb :
  sys_ok cfg s → place rb ≠ place lb → next < page_dir_get_n_heap lb → (next = PAGE_HEAP_NO_SUPREMUM → on_rec s lb PAGE_HEAP_NO_SUPREMUM = []) →
  ∃ s', (if next =? PAGE_HEAP_NO_SUPREMUM then mret tt
         else _ ← lock_rec_inherit_to_gap cfg lb lb next PAGE_HEAP_NO_SUPREMUM; lock_rec_reset_and_release_wait lb PAGE_HEAP_NO_SUPREMUM) s = Ok (tt, s') ∧
    sys_ok cfg s' ∧ on_rec s' lb PAGE_HEAP_NO_SUPREMUM = [] ∧ ∀ h, queue s' (block_space rb) (block_page_no rb) h = queue s (block_space rb) (block_page_no rb) h.
Proof.
  intros Hs Hne Hn Hnil. destruct (Nat.eqb_spec next PAGE_HEAP_NO_SUPREMUM) as [->|Hnext]; [exists s; split_and!; try done; by apply Hnil|].
  destruct (lock_rec_inherit_to_gap_Ok cfg Hvats lb lb next PAGE_HEAP_NO_SUPREMUM s) as (s1 & Hrun & Hs1 & Ho1 & _); [done..|].
  destruct (lock_rec_reset_and_release_wait_Ok cfg lb PAGE_HEAP_NO_SUPREMUM s1 Hs1) as (s2 & Hrun2 & Hs2 & Hv2 & Ho2).
  exists s2. split_and!; [by erewrite bind_Ok by exact Hrun|done|done|]. intros h. rewrite Ho2, Ho1; [done|by apply place_ne..].
Qed.

Lemma merge_left_ok s lb next rb :
  sys_ok cfg s → page_op_ok s (MergeLeft lb next rb) → ∃ s', lock_update_merge_left cfg lb next rb s = Ok (tt, s') ∧ sys_ok cfg s'.
Proof.
  intros Hs (Hne & Hn & Hl & Hp & Hempty & Hnil). destruct (merge_left_first_ok s lb next rb) as (s1 & Hrun & Hs1 & Hv1 & Hq1); [done..|].
  destruct (supremum_move_ok s1 lb rb) as (s2 & Hrun2 & Hs2 & Hv2 & Ho2); [done|congruence|done| |done|].
  - intros _ l (Hlk & Hlp & Hb)%elem_rec_locks. assert (Hin : strip l ∈ queue s1 (block_space rb) (block_page_no rb) PAGE_HEAP_NO_SUPREMUM) by (apply elem_queue; by exists l).
    rewrite Hq1 in Hin. apply elem_queue in Hin as (l' & Hl' & Hlp' & Hb' & E). assert (E' := f_equal entry_of E).
    destruct (Hp eq_refl l') as [H1 H2]; [by apply elem_rec_locks|]. assert (G1 := f_equal e_gap E'). assert (G2 := f_equal e_rec_not_gap E').
    cbn in G1, G2. unfold lock_rec_get_gap, lock_rec_get_rec_not_gap in *. cbn in *. split; congruence.
  - destruct (discard_ok s2 rb Hs2) as (s3 & Hrun3 & Hs3).
    + intros h. destruct (decide (h = PAGE_HEAP_NO_SUPREMUM)) as [->|Hh]; [done|]. rewrite Ho2 by done. unfold on_rec. rewrite queue_view, Hq1, <-queue_view. by apply Hnil.
    + exists s3. split; [|done]. unfold lock_update_merge_left. erewrite bind_Ok by exact Hrun. by erewrite bind_Ok by exact Hrun2.
Qed.

Lemma split_and_merge_ok s lb next rb min :
  sys_ok cfg s → page_op_ok s (SplitAndMerge lb next rb min) → ∃ s', lock_update_split_and_merge cfg lb next rb min s = Ok (tt, s') ∧ sys_ok cfg s'.
Proof.
  intros Hs (Hne & Hn & Hns & Hl). destruct (lock_rec_inherit_to_gap_Ok cfg Hvats lb lb next PAGE_HEAP_NO_SUPREMUM s) as (s1 & Hrun & Hs1 & _); [done..|].
  destruct (lock_rec_reset_and_release_wait_Ok cfg lb PAGE_HEAP_NO_SUPREMUM s1 Hs1) as (s2 & Hrun2 & Hs2 & _).
  destruct (lock_rec_inherit_to_gap_Ok cfg Hvats lb rb PAGE_HEAP_NO_SUPREMUM min s2) as (s3 & Hrun3 & Hs3 & _); [done..|].
  exists s3. split; [|done]. unfold lock_update_split_and_merge. erewrite bind_Ok by exact Hrun. by erewrite bind_Ok by exact Hrun2.
Qed.

Lemma copy_and_discard_ok s new block :
  sys_ok cfg s → page_op_ok s (CopyAndDiscard new block) → ∃ s', lock_update_copy_and_discard cfg new block s = Ok (tt, s') ∧ sys_ok cfg s'.
Proof.
  intros Hs (Hne & Hn & Hp & Hnil & Hnil'). destruct (supremum_move_ok s new block) as (s1 & Hrun & Hs1 & Hv & Ho); [done..|].
  destruct (discard_ok s1 block Hs1) as (s2 & Hrun2 & Hs2).
  - intros h. destruct (decide (h = PAGE_HEAP_NO_SUPREMUM)) as [->|Hh]; [done|]. rewrite Ho by done. by apply Hnil'.
  - exists s2. split; [|done]. unfold lock_update_copy_and_discard. by erewrite bind_Ok by exact Hrun.
Qed.

Lemma discard_loop_ok heir_block heir block recs s :
  sys_ok cfg s → place heir_block ≠ place block → heir < page_dir_get_n_heap heir_block →
  ∃ s', for_each (λ h, _ ← lock_rec_inherit_to_gap cfg heir_block block heir h; lock_rec_reset_and_release_wait block h) recs s = Ok (tt, s') ∧
    sys_ok cfg s' ∧ ∀ h, h ∈ recs ∨ on_rec s block h = [] → on_rec s' block h = [].
Proof.
  intros Hs Hne Hn. revert s Hs. induction recs as [|h recs IH]; intros s Hs.
  { exists s. split_and!; try done. by intros h [?%elem_of_nil|?]. }
  destruct (lock_rec_inherit_to_gap_Ok cfg Hvats heir_block block heir h s) as (s1 & Hrun & Hs1 & Ho1 & _); [done..|].
  destruct (lock_rec_reset_and_release_wait_Ok cfg block h s1 Hs1) as (s2 & Hrun2 & Hs2 & Hv2 & Ho2).
  destruct (IH s2 Hs2) as (s' & Hrun' & Hs' & Hnil). exists s'. split_and!; [|done|].
  - cbn [for_each]. erewrite bind_Ok; [exact Hrun'|]. by erewrite bind_Ok by exact Hrun.
  - intros i Hi. apply Hnil. destruct (decide (i = h)) as [->|Hih]; [by right|]. destruct Hi as [[?|Hi]%elem_of_cons|Hi]; [done|by left|right].
    rewrite (on_rec_other s1 s2 block i block h Ho2) by congruence. by rewrite (on_rec_other s s1 block i heir_block heir Ho1) by congruence.
Qed.

Lemma update_discard_ok s heir_block heir block recs :
  sys_ok cfg s → page_op_ok s (Discard heir_block heir block recs) → ∃ s', lock_update_discard cfg heir_block heir block recs s = Ok (tt, s') ∧ sys_ok cfg s'.
Proof.
  intros Hs (Hne & Hn & Hnil). unfold lock_update_discard. erewrite bind_Ok by done. destruct (page_locks s _ _); [by exists s|].
  destruct (discard_loop_ok heir_block heir block recs s) as (s1 & Hrun & Hs1 & Hv); [done..|]. destruct (discard_ok s1 block Hs1) as (s2 & Hrun2 & Hs2).
  - intros h. apply Hv. destruct (decide (h ∈ recs)); [by left|right]. by apply Hnil.
  - exists s2. split; [|done]. by erewrite bind_Ok by exact Hrun.
Qed.

Lemma reset_and_inherit_ok s heir_block block heir rec :
  sys_ok cfg s → heir < page_dir_get_n_heap heir_block → ∃ s', lock_rec_reset_and_inherit_gap_locks cfg heir_block block heir rec s = Ok (tt, s') ∧ sys_ok cfg s'.
Proof.
  intros Hs Hn. destruct (lock_rec_reset_and_release_wait_Ok cfg heir_block heir s Hs) as (s1 & Hrun & Hs1 & _).
  destruct (lock_rec_inherit_to_gap_Ok cfg Hvats heir_block block heir rec s1) as (s2 & Hrun2 & Hs2 & _); [done..|].
  exists s2. split; [|done]. unfold lock_rec_reset_and_inherit_gap_locks. by erewrite bind_Ok by exact Hrun.
Qed.

(** A record keeps its locks on the infimum and gets them back. *)
Lemma infimum_move_ok s receiver donator rh dh :
  sys_ok cfg s → rh ≠ PAGE_HEAP_NO_SUPREMUM → dh ≠ PAGE_HEAP_NO_SUPREMUM → rh ≠ dh → rh < page_dir_get_n_heap receiver → on_rec s receiver rh = [] →
  ∃ s', lock_rec_move cfg receiver donator rh dh s = Ok (tt, s') ∧ sys_ok cfg s'.
Proof.
  intros Hs Hr Hd Hne Hn Hnil. destruct (lock_rec_move_Ok cfg Hvats s receiver donator rh dh) as (s' & Hrun & Hs' & _); try done; [congruence| |by exists s'].
  by rewrite !(proj2 (Nat.eqb_neq _ _)).
Qed.

Lemma run_page_op_ok s op : sys_ok cfg s → page_op_ok s op → ∃ s', run_page_op op s = Ok (tt, s') ∧ sys_ok cfg s'.
Proof.
  intros Hs Hop. destruct op; cbn [run_page_op].
  - destruct Hop as [Hn _]. destruct (lock_rec_inherit_to_gap_if_gap_lock_Ok cfg Hvats block rec next s) as (s' & Hrun & Hs' & _); [done..|]. by exists s'.
  - destruct Hop. by apply update_delete_ok.
  - by apply split_right_ok.
  - destruct Hop as [_ Hn]. destruct (lock_rec_inherit_to_gap_Ok cfg Hvats lb rb PAGE_HEAP_NO_SUPREMUM min_heap_no s) as (s' & Hrun & Hs' & _); [done..|]. by exists s'.
  - by apply merge_right_ok.
  - by apply merge_left_ok.
  - by apply split_and_merge_ok.
  - destruct Hop as (Hne & Hn & Hp & Hnil). destruct (supremum_move_ok s block root) as (s' & Hrun & Hs' & _); [done..|]. by exists s'.
  - by apply copy_and_discard_ok.
  - by apply update_discard_ok.
  - destruct Hop. by apply reset_and_inherit_ok.
  - destruct Hop as (H1 & H2 & H3 & H4). apply (infimum_move_ok s block block PAGE_HEAP_NO_INFIMUM rec); [exact Hs|discriminate|exact H1|congruence|exact H3|exact H4].
  - destruct Hop as (H1 & H2 & H3 & H4). apply (infimum_move_ok s block donator rec PAGE_HEAP_NO_INFIMUM); [exact Hs|exact H1|discriminate|exact H2|exact H3|exact H4].
  - destruct Hop as (Hne & Hm & Hnil). destruct (move_list_Ok s new_block block Hs Hne (zip recs1 recs2) Hm Hnil) as (s' & Hrun & Hs' & _). by exists s'.
  - destruct Hop as (Hne & Hm & Hnil). destruct (move_list_Ok s new_block block Hs Hne (zip recs1 recs2) Hm Hnil) as (s' & Hrun & Hs' & _). by exists s'.
Qed.

End config.
