(* ===== verification/InnoMain.v ===== *)
(** The record lock manager of InnoDB as a whole (project 4): any sequence of requests,
    releases and cancelled waits. Under first-come-first-served scheduling no operation
    fails, granted locks do not conflict, every lock that can be granted is, and there is
    no deadlock. Under variance-aware transaction scheduling (VATS, the default of this
    server) a deadlock can go undetected. *)
From stdpp Require Import functions base tactics numbers option list list_numbers gmap sets relations sorting.
From Stdlib Require Import ZArith Lia.
From S2P Require Import Prelude InnoMode InnoSys InnoQueue InnoInv InnoGrant InnoBits InnoDeadlock InnoSearch InnoResolve InnoRequest InnoMove InnoLocking InnoJoin InnoReach InnoPages.

(** ** Operations *)

(** What sessions and the background threads do with the lock system. [Page] is a change of
    an index page that the locks have to follow; [TrxWork] is the work of a transaction on
    rows, which only changes what the choice of a victim, inheritance and [que_thr_stop]
    look at. The query graph of a transaction is active. *)
Inductive lock_op : Type :=
| Begin (t : nat) (start isolation : Z)
| LockRec (impl : bool) (mode : Z) (block : buf_block_t) (heap_no t node : nat)
| InsertCheck (block : buf_block_t) (heap_no t node : nat)
| Unlock (t : nat) (block : buf_block_t) (heap_no : nat) (mode : Z)
| ReleaseLast (t : nat)
| HandleWait (t : nat)
| CheckWait (expired : bool) (t : nat)
| Page (op : page_op)
| TrxWork (t : nat) (undo : Z) (notrans async : bool) (dup fork : Z) (err : dberr_t).

Definition new_trx (start isolation : Z) : trx_t :=
  mk_trx TRX_QUE_RUNNING None 0 false [] 0 start false false isolation 0 (mk_que_thr false QUE_THR_RUNNING QUE_FORK_ACTIVE QUE_FORK_MYSQL_INTERFACE DB_SUCCESS).

Definition set_work (undo : Z) (notrans async : bool) (dup fork : Z) (err : dberr_t) (t : trx_t) : trx_t :=
  mk_trx (que_state t) (wait_lock t) (deadlock_mark t) (was_chosen_as_deadlock_victim t) (trx_locks t) undo (start_time_micro t) notrans async (isolation_level t) dup
    (mk_que_thr (wait_thr (trx_thr t)) (thr_state (trx_thr t)) (graph_state (trx_thr t)) fork err).

Definition no_locks (n_cells : nat) : lock_sys_t := mk_lock_sys (replicate n_cells []) ∅ 0.

Section config.
  Context (cfg : config).

Definition run_op (op : lock_op) : LS unit :=
  match op with
  | Begin t start isolation => modify (λ s, mk_lock_sys (rec_hash s) (<[t := new_trx start isolation]> (trxs s)) (s_lock_mark_counter s))
  | LockRec impl mode block heap_no t node => _ ← lock_rec_lock cfg impl mode block heap_no t node; mret tt
  | InsertCheck block heap_no t node => _ ← lock_rec_insert_check_and_lock cfg block heap_no t node; mret tt
  | Unlock t block heap_no mode => lock_rec_unlock cfg t block heap_no mode
  | ReleaseLast t => _ ← lock_release_last cfg t; mret tt
  | HandleWait t => _ ← lock_trx_handle_wait cfg t; mret tt
  | CheckWait expired t => lock_wait_check_and_cancel cfg expired t
  | Page op => run_page_op cfg op
  | TrxWork t undo notrans async dup fork err => modify (update_trx t (set_work undo notrans async dup fork err))
  end.

(** When an operation can happen: requests come from running transactions whose query
    nothing stops (no error, not a rollback), for a record of the page, with a lock struct
    that is not in use, and while the 64-bit mark counter has room ("it would take 10^3
    years"). *)
Definition enabled (s : lock_sys_t) (op : lock_op) : Prop :=
  match op with
  | Begin t _ _ => trxs s !! t = None
  | LockRec _ mode block heap_no t node =>
      mode ∈ record_modes ∧ heap_no < page_dir_get_n_heap block ∧ running s t ∧ query_runs s t ∧ fresh_lock s node ∧ request_room s
  | InsertCheck block heap_no t node => heap_no < page_dir_get_n_heap block ∧ running s t ∧ query_runs s t ∧ fresh_lock s node ∧ request_room s
  | Unlock t _ _ _ => running s t
  | ReleaseLast t => running s t
  | HandleWait t => is_Some (trxs s !! t)
  | CheckWait _ t => is_Some (trxs s !! t)
  | Page op => page_op_ok s op
  | TrxWork _ _ _ _ _ _ _ => True
  end.

Definition lock_step (s s' : lock_sys_t) : Prop := ∃ op, enabled s op ∧ run_op op s = Ok (tt, s').

Definition lock_reachable (s : lock_sys_t) : Prop := ∃ n, n ≠ 0 ∧ rtc lock_step (no_locks n) s.

(** ** The invariant holds *)

Lemma initial_page n sp pg : page_locks (no_locks n) sp pg = [].
Proof.
  unfold page_locks, cell. cbn. destruct (replicate n [] !! _) as [c|] eqn:Hc; [|done]. by apply lookup_replicate in Hc as [-> _].
Qed.

Lemma sys_ok_initial n : n ≠ 0 → sys_ok cfg (no_locks n).
Proof.
  intros Hn. assert (Hno : ∀ l, ¬ has_lock (no_locks n) l) by (intros l; unfold has_lock; rewrite initial_page; by intros ?%elem_of_nil).
  split; [|by intros id w ?%Hno| |done].
  - split; [|by intros l ?%Hno|done|by intros w l h ?%Hno|done]. split.
    + cbn. by destruct n.
    + intros i c l Hi Hl. cbn in Hi. apply lookup_replicate in Hi as [-> _]. by apply elem_of_nil in Hl.
    + cbn. replace (concat (replicate n [])) with (@nil lock_t); [constructor|]. clear. by induction n.
  - intros _ t Ht. assert (∃ b, waits_for cfg (no_locks n) t b) as (b & w & l & ?%Hno & _) by (inversion Ht; eauto). done.
Qed.

Section fcfs.
  Context (Hvats : ∀ t, uses_vats cfg t = false).

Lemma begin_ok s t start isolation :
  sys_ok cfg s → trxs s !! t = None → sys_ok cfg (mk_lock_sys (rec_hash s) (<[t := new_trx start isolation]> (trxs s)) (s_lock_mark_counter s)).
Proof.
  intros Hs Ht. assert (Hinv := sys_inv _ _ Hs). split; [|apply (sys_settled _ _ Hs)|apply (sys_acyclic _ _ Hs)|apply Hs].
  split; [destruct (inv_hash _ _ _ Hinv); by split| | |apply Hinv|done].
  - intros l Hl. destruct (inv_lock _ _ _ Hinv l Hl) as [H1 H2 H3 (trx & Htr & ?)]. split; [done..|]. exists trx. cbn.
    rewrite lookup_insert_ne by congruence. done.
  - intros u trx. cbn. destruct (decide (u = t)) as [->|Hne].
    + rewrite lookup_insert_eq. intros [= <-]. split; [constructor|by intros ? ?%elem_of_nil|done|by rewrite !decide_False|done|apply Hs].
    + rewrite lookup_insert_ne by done. intros Hu. destruct (inv_trx _ _ _ Hinv _ _ Hu). by split.
Qed.

Lemma work_ok s t undo notrans async dup fork err : sys_ok cfg s → sys_ok cfg (update_trx t (set_work undo notrans async dup fork err) s).
Proof.
  intros Hs. split; [|apply (sys_settled _ _ Hs)|apply (sys_acyclic _ _ Hs)|apply Hs]. apply inv_session; [by intros u|apply Hs].
Qed.

Lemma cancel_ok s l :
  sys_ok cfg s → has_lock s l → lock_get_wait l = true → ∃ s', lock_cancel_waiting_and_release cfg l s = Ok (tt, s') ∧ sys_ok cfg s'.
Proof.
  intros Hs Hl Hw. destruct (cancel_Ok cfg None s l) as (s' & G & Hrun & Hinv & Hset & Hev & Hc & _); [done|done|apply Hs|apply Hs|done..|].
  exists s'. split; [done|]. split; [done..| |by rewrite Hc; apply Hs]. intros Hd. eapply acyclic_mono; [|by apply Hs].
  intros a b. eapply evolves_waits_for; [apply Hs|done].
Qed.

(** The lock that a transaction waits for, and that it is suspended. *)
Lemma waiting_lock s t trx id :
  sys_ok cfg s → trxs s !! t = Some trx → wait_lock trx = Some id →
  ∃ l, get_lock s id = Some l ∧ has_lock s l ∧ lock_get_wait l = true ∧ que_state trx = TRX_QUE_LOCK_WAIT.
Proof.
  intros Hs Ht Hw. assert (Hinv := sys_inv _ _ Hs). destruct (inv_trx _ _ _ Hinv _ _ Ht) as [_ _ H3 _ _ _].
  destruct (H3 id Hw) as (l & Hl & <- & _ & Hlw); [done|]. exists l. split_and!; [by apply get_lock_Some; [apply Hinv|]|done..|].
  by rewrite (inv_que _ _ _ _ Hinv Ht), decide_False, Hw by done.
Qed.

Lemma handle_wait_ok s t : sys_ok cfg s → is_Some (trxs s !! t) → ∃ e s', lock_trx_handle_wait cfg t s = Ok (e, s') ∧ sys_ok cfg s'.
Proof.
  intros Hs [trx Ht]. unfold lock_trx_handle_wait. erewrite bind_Ok, deref_Some by done.
  destruct (was_chosen_as_deadlock_victim trx); [by exists DB_DEADLOCK, s|]. destruct (wait_lock trx) as [id|] eqn:Hw; [|by exists DB_SUCCESS, s].
  destruct (waiting_lock s t trx id) as (l & Hget & Hl & Hlw & _); [done..|]. destruct (cancel_ok s l) as (s' & Hrun & Hs'); [done..|].
  exists DB_LOCK_WAIT, s'. split; [|done]. erewrite bind_Ok, deref_Some by done. by erewrite bind_Ok by done.
Qed.

Lemma check_wait_ok s e t : sys_ok cfg s → is_Some (trxs s !! t) → ∃ s', lock_wait_check_and_cancel cfg e t s = Ok (tt, s') ∧ sys_ok cfg s'.
Proof.
  intros Hs [trx Ht]. unfold lock_wait_check_and_cancel. destruct e; [|by exists s]. erewrite bind_Ok, deref_Some by done.
  destruct (wait_lock trx) as [id|] eqn:Hw; [|by exists s]. destruct (waiting_lock s t trx id) as (l & Hget & Hl & Hlw & Hq); [done..|].
  destruct (cancel_ok s l) as (s' & Hrun & Hs'); [done..|]. exists s'. split; [|done].
  rewrite assert_true by (by apply bool_decide_eq_true). by erewrite bind_Ok, deref_Some by done.
Qed.

Lemma release_last_ok s t : sys_ok cfg s → running s t → ∃ b s', lock_release_last cfg t s = Ok (b, s') ∧ sys_ok cfg s'.
Proof.
  intros Hs Hr. assert (H := lock_release_last_Ok cfg s t (Hvats t) (sys_inv _ _ Hs) (sys_settled _ _ Hs) Hr).
  destruct (last (locks_of s t)) as [id|]; [|by exists false, s]. destruct H as (s' & G & Hrun & Hinv & Hset & _ & Hev & Hc).
  exists true, s'. split; [done|]. split; [done..| |by rewrite Hc; apply Hs]. intros Hd. eapply acyclic_mono; [|by apply Hs].
  intros a b. eapply evolves_waits_for; [apply Hs|done].
Qed.

Lemma run_op_ok s op : sys_ok cfg s → enabled s op → ∃ s', run_op op s = Ok (tt, s') ∧ sys_ok cfg s'.
Proof.
  intros Hs Hen. destruct op as [t start iso|impl mode block h t node|block h t node|t block h mode|t|t|e t|op|t undo nt async dup fork err]; cbn [run_op enabled] in *.
  - eexists. split; [done|]. by apply begin_ok.
  - destruct Hen as (Hm & Hh & Hr & Hgo & Hn & Hroom). destruct (lock_rec_lock_Ok cfg Hvats s t block h mode node Hs Hr Hgo Hn Hm Hh impl Hroom) as (e & s' & Hrun & Hs' & _).
    exists s'. split; [|done]. by erewrite bind_Ok by done.
  - destruct Hen as (Hh & Hr & Hgo & Hn & Hroom). destruct (insert_check_Ok cfg Hvats s t block h node Hs Hr Hgo Hn Hh Hroom) as (e & s' & Hrun & Hs' & _).
    exists s'. split; [|done]. by erewrite bind_Ok by done.
  - by apply rec_unlock_Ok.
  - destruct (release_last_ok s t Hs Hen) as (b & s' & Hrun & Hs'). exists s'. split; [|done]. by erewrite bind_Ok by done.
  - destruct (handle_wait_ok s t Hs Hen) as (e & s' & Hrun & Hs'). exists s'. split; [|done]. by erewrite bind_Ok by done.
  - by apply check_wait_ok.
  - by apply run_page_op_ok.
  - eexists. split; [done|]. by apply work_ok.
Qed.

Lemma lock_reachable_ok s : lock_reachable s → sys_ok cfg s.
Proof.
  intros (n & Hn & Hrtc). revert s Hrtc. apply rtc_ind_r; [by apply sys_ok_initial|].
  intros s1 s2 _ (op & Hen & Hrun) IH. destruct (run_op_ok s1 op) as (s' & Hrun' & Hs'); [done..|]. rewrite Hrun in Hrun'. by simplify_eq.
Qed.

End fcfs.

(** ** Progress of waiting transactions *)

Definition suspended (s : lock_sys_t) (t : nat) : Prop := ∃ trx, trxs s !! t = Some trx ∧ que_state trx = TRX_QUE_LOCK_WAIT.

Lemma suspended_waits s t : sys_ok cfg s → suspended s t → ∃ b, waits_for cfg s t b.
Proof.
  intros Hs (trx & Ht & Hq). assert (Hinv := sys_inv _ _ Hs). destruct (inv_trx _ _ _ Hinv _ _ Ht) as [_ _ H3 _ _ _].
  assert (H4 := inv_que _ _ _ _ Hinv Ht). rewrite decide_False, Hq in H4 by done. destruct (wait_lock trx) as [id|]; [|done].
  destruct (H3 id) as (w & Hw & _ & <- & Hww); [done..|]. assert (Hb := sys_settled _ _ Hs (lock_id w) w Hw eq_refl Hww).
  destruct (blockers cfg s w) as [|l bs] eqn:Hl; [done|]. exists (lock_trx l), w, l. rewrite Hl. split_and!; [done..|apply list_elem_of_here|done].
Qed.

Lemma suspended_lock s w : sys_ok cfg s → has_lock s w → lock_get_wait w = true → suspended s (lock_trx w).
Proof.
  intros Hs Hw Hww. assert (Hinv := sys_inv _ _ Hs). destruct (inv_trx_of _ _ _ _ Hinv Hw) as (trx & Ht & _ & Hwl). exists trx. split; [done|].
  by rewrite (inv_que _ _ _ _ Hinv Ht), decide_False, Hwl by done.
Qed.

Lemma waits_for_trx s a b : sys_ok cfg s → waits_for cfg s a b → b ∈ dom (trxs s).
Proof.
  intros Hs (w & l & _ & _ & _ & Hl & <-). apply blockers_has in Hl as [Hl _].
  destruct (inv_trx_of _ _ _ _ (sys_inv _ _ Hs) Hl) as (trx & Ht & _). by eapply elem_of_dom_2.
Qed.

Lemma running_or_suspended s t : sys_ok cfg s → t ∈ dom (trxs s) → running s t ∨ suspended s t.
Proof.
  intros Hs [trx Ht]%elem_of_dom. assert (H4 := inv_que _ _ _ _ (sys_inv _ _ Hs) Ht).
  rewrite decide_False in H4 by done. destruct (wait_lock trx) eqn:Hw; [right|left]; by exists trx.
Qed.

Lemma waits_end s t : sys_ok cfg s → acyclic cfg s → suspended s t → ∃ u, tc (waits_for cfg s) t u ∧ running s u.
Proof.
  intros Hs Hac. assert (Hsn : sn (waits_for cfg s) t).
  { apply tc_finite_sn; [exact Hac|]. apply (pred_finite_set (C := gset nat)). exists (dom (trxs s)). intros u Hu.
    apply (tc_ind_r (λ u, u ∈ dom (trxs s)) t) in Hu; [done|..]; intros; by eapply waits_for_trx. }
  induction Hsn as [t _ IH]. intros Hsus. destruct (suspended_waits s t Hs Hsus) as [b Hb].
  destruct (running_or_suspended s b Hs (waits_for_trx _ _ _ Hs Hb)) as [Hr|Hsb].
  - exists b. split; [by apply tc_once|done].
  - destruct (IH b Hb Hsb) as (u & Hu & Hr). exists u. split; [by eapply tc_l|done].
Qed.

End config.

(** ** Runs of concrete operations *)

Definition runningb (s : lock_sys_t) (t : nat) : bool :=
  match trxs s !! t with Some trx => match wait_lock trx with None => true | Some _ => false end | None => false end.

Definition query_runsb (s : lock_sys_t) (t : nat) : bool :=
  match trxs s !! t with Some trx => negb (fst (que_thr_stop TRX_QUE_RUNNING (duplicates trx) (trx_thr trx))) | None => true end.

Definition freshb (s : lock_sys_t) (id : nat) : bool := forallb (λ x, negb (lock_id x =? id)) (concat (rec_hash s)).

Definition roomb (s : lock_sys_t) : bool := (s_lock_mark_counter s + Z.of_nat ((num_locks s + 2) * size (trxs s)) <? 2 ^ 64)%Z.

(** Of the operations on pages only the two on single records are decided. *)
Definition enabledb (s : lock_sys_t) (op : lock_op) : bool :=
  match op with
  | Begin t _ _ => match trxs s !! t with None => true | Some _ => false end
  | LockRec _ mode block heap_no t node =>
      bool_decide (mode ∈ record_modes) && (heap_no <? page_dir_get_n_heap block) && runningb s t && query_runsb s t && freshb s node && roomb s
  | InsertCheck block heap_no t node => (heap_no <? page_dir_get_n_heap block) && runningb s t && query_runsb s t && freshb s node && roomb s
  | Unlock t _ _ _ | ReleaseLast t => runningb s t
  | HandleWait t | CheckWait _ t => match trxs s !! t with Some _ => true | None => false end
  | Page (UpdateInsert block rec next) => (rec <? page_dir_get_n_heap block) && negb (rec =? next)
  | Page (UpdateDelete block rec next) => (next <? page_dir_get_n_heap block) && negb (rec =? next)
  | Page _ => false
  | TrxWork _ _ _ _ _ _ _ => true
  end.

Fixpoint run_checked (cfg : config) (ops : list lock_op) (s : lock_sys_t) : option lock_sys_t :=
  match ops with
  | [] => Some s
  | op :: ops => if enabledb s op then match run_op cfg op s with Ok (_, s') => run_checked cfg ops s' | Err _ => None end else None
  end.

Lemma runningb_spec s t : runningb s t = true → running s t.
Proof. unfold runningb, running. destruct (trxs s !! t) as [trx|]; [|done]. destruct (wait_lock trx) eqn:Hw; [done|]. by exists trx. Qed.

Lemma query_runsb_spec s t : query_runsb s t = true → query_runs s t.
Proof. unfold query_runsb. intros H trx Ht. rewrite Ht in H. by apply negb_true_iff. Qed.

Lemma freshb_spec s id : freshb s id = true → fresh_lock s id.
Proof.
  unfold freshb. rewrite forallb_forall. intros Hf x Hx. apply elem_page_locks in Hx as [_ Hx]. unfold cell in Hx.
  destruct (rec_hash s !! _) as [c|] eqn:Hc; [|by apply elem_of_nil in Hx]. simpl in Hx.
  assert (Hin : In x (concat (rec_hash s))).
  { apply in_concat. exists c. split; [|by apply list_elem_of_In]. apply list_elem_of_In. by eapply list_elem_of_lookup_2. }
  apply Hf in Hin. apply negb_true_iff, Nat.eqb_neq in Hin. done.
Qed.

Lemma enabledb_spec s op : enabledb s op = true → enabled s op.
Proof.
  destruct op as [t start iso|impl mode block h t node|block h t node|t block h mode|t|t|e t|op|t undo nt async dup fork err]; cbn [enabledb enabled]; intros H.
  - by destruct (trxs s !! t).
  - rewrite !andb_true_iff, bool_decide_eq_true, Nat.ltb_lt in H. destruct H as (((((? & ?) & ?%runningb_spec) & ?%query_runsb_spec) & ?%freshb_spec) & ?%Z.ltb_lt). done.
  - rewrite !andb_true_iff, Nat.ltb_lt in H. destruct H as ((((? & ?%runningb_spec) & ?%query_runsb_spec) & ?%freshb_spec) & ?%Z.ltb_lt). done.
  - by apply runningb_spec.
  - by apply runningb_spec.
  - destruct (trxs s !! t); [by eexists|done].
  - destruct (trxs s !! t); [by eexists|done].
  - destruct op; try done; cbn; by rewrite andb_true_iff, Nat.ltb_lt, negb_true_iff, Nat.eqb_neq in H.
  - done.
Qed.

Lemma run_checked_reach cfg ops s s' : run_checked cfg ops s = Some s' → rtc (lock_step cfg) s s'.
Proof.
  revert s. induction ops as [|op ops IH]; intros s; cbn [run_checked]; [intros [= ->]; reflexivity|].
  destruct (enabledb s op) eqn:Hen; [|done]. destruct (run_op cfg op s) as [[[] s1]|] eqn:Hrun; [|done].
  intros H. eapply rtc_l; [|by apply IH]. exists op. split; [by apply enabledb_spec|done].
Qed.

Lemma run_checked_reachable cfg n ops s : n ≠ 0 → run_checked cfg ops (no_locks n) = Some s → lock_reachable cfg s.
Proof. intros Hn Hrun. exists n. split; [done|]. by eapply run_checked_reach. Qed.

(** Two transactions want the same record exclusively; the second waits, and a third shares
    another one. *)
Definition fcfs_config : config := mk_config (λ _ _, true) (λ _, false) FCFS true false.
Definition vats_config : config := mk_config (λ _ _, true) (λ _, false) VATS true false.

Definition demo_block : buf_block_t := mk_block 0 4 10.

Definition demo_ops : list lock_op :=
  [Begin 1 10 2; Begin 2 20 2; Begin 3 30 2;
   LockRec false (Z.lor LOCK_X LOCK_REC_NOT_GAP) demo_block 2 1 100;
   LockRec false LOCK_S demo_block 3 2 101;
   LockRec false LOCK_S demo_block 3 3 102;
   LockRec false LOCK_X demo_block 2 2 103].

Definition demo_state : lock_sys_t := Eval vm_compute in default (no_locks 1) (run_checked fcfs_config demo_ops (no_locks 3)).

Lemma demo_reachable : lock_reachable fcfs_config demo_state.
Proof. apply (run_checked_reachable fcfs_config 3 demo_ops); [done|]. vm_compute. reflexivity. Qed.

(** A lock of the demo state. *)
Definition demo_lock (id : nat) : lock_t := default (mk_lock 0 0 0 0 0 0 []) (get_lock demo_state id).

Lemma has_lockb s l : bool_decide (l ∈ page_locks s (space l) (page_no l)) = true → has_lock s l.
Proof. by intros ?%bool_decide_eq_true. Qed.

(** ** Theorems *)

(** C3. In every state that the lock system can reach under first-come-first-served
    scheduling and without a page reorganization, every operation of [lock_op] that can
    happen returns, and its state is such a state again: no [ut_a] fails (the thread of a
    transaction that is granted a lock or whose wait is cancelled is in [QUE_THR_LOCK_WAIT],
    and [que_thr_stop] stops the thread of a request exactly when it has to wait), no null
    or dangling pointer is followed and every loop ends, the deadlock search and its
    resolution included. *)
Theorem lock_manager_no_failure cfg s op :
  (∀ t, uses_vats cfg t = false) → lock_reachable cfg s → enabled s op → ∃ s', run_op cfg op s = Ok (tt, s') ∧ lock_reachable cfg s'.
Proof.
  intros Hv Hs Hen. destruct (run_op_ok cfg Hv s op) as (s' & Hrun & _); [by apply lock_reachable_ok|done|]. exists s'. split; [done|].
  destruct Hs as (n & Hn & Hrtc). exists n. split; [done|]. eapply rtc_r; [done|]. by exists op.
Qed.

Lemma lock_manager_no_failure_witness :
  ∃ s', run_op fcfs_config (LockRec false LOCK_X demo_block 3 1 104) demo_state = Ok (tt, s') ∧ lock_reachable fcfs_config s'.
Proof. apply lock_manager_no_failure; [done|apply demo_reachable|]. apply enabledb_spec. vm_compute. reflexivity. Defined.

(** C5. Rule 3 of [lock0priv.h], under first-come-first-served scheduling: in every state
    reachable without a page reorganization, granted locks of different transactions on the
    same record (and not only on the gap before it) have compatible modes. *)
Theorem granted_locks_compatible cfg s l1 l2 h :
  (∀ t, uses_vats cfg t = false) → lock_reachable cfg s →
  has_lock s l1 → has_lock s l2 → lock_trx l1 ≠ lock_trx l2 → space l1 = space l2 → page_no l1 = page_no l2 →
  lock_rec_get_nth_bit l1 h = true → lock_rec_get_nth_bit l2 h = true → h ≠ PAGE_HEAP_NO_SUPREMUM →
  lock_get_wait l1 = false → lock_get_wait l2 = false →
  lock_rec_get_gap l1 = false → lock_rec_get_gap l2 = false →
  lock_rec_get_insert_intention l1 = false → lock_rec_get_insert_intention l2 = false →
  lock_mode_compatible (lock_get_mode l1) (lock_get_mode l2) = true.
Proof.
  intros Hv Hs H1 H2 Ht Hsp Hpg Hb1 Hb2 Hh Hw1 Hw2 Hg1 Hg2 Hi1 Hi2. apply lock_reachable_ok in Hs; [|done]. assert (Hinv := sys_inv _ _ Hs).
  destruct (lock_mode_compatible (lock_get_mode l1) (lock_get_mode l2)) eqn:Hc; [done|]. exfalso.
  assert (Hc1 : rec_conflict l1 l2) by (by split_and!). assert (Hc2 : rec_conflict l2 l1) by (by eapply rec_conflict_sym; [apply Hinv|apply Hinv|]).
  assert (Hne : lock_id l1 ≠ lock_id l2) by (intros He; apply Ht; f_equal; by apply (lock_id_inj s); [apply Hinv|..]).
  destruct (ahead_total (page_locks s (space l1) (page_no l1)) l1 l2) as [Ha|Ha];
    [apply page_ids, Hinv|done|apply elem_page; by split|done| |].
  - rewrite Hsp, Hpg in Ha. assert (lock_get_wait l2 = true) by (by eapply (inv_rule3 _ _ _ Hinv)). congruence.
  - assert (lock_get_wait l1 = true) by (by eapply (inv_rule3 _ _ _ Hinv)). congruence.
Qed.

Lemma granted_locks_compatible_witness : lock_mode_compatible (lock_get_mode (demo_lock 101)) (lock_get_mode (demo_lock 102)) = true.
Proof.
  apply (granted_locks_compatible fcfs_config demo_state _ _ 3); [done|apply demo_reachable|apply has_lockb; by vm_compute|apply has_lockb; by vm_compute|by vm_compute..].
Defined.

(** C17. No missed grant, under first-come-first-served scheduling: in every state reachable
    without a page reorganization, a lock that waits has a lock ahead of it in the queue of
    its record that it has to wait for, and its transaction is suspended. *)
Theorem waiting_locks_blocked cfg s w :
  (∀ t, uses_vats cfg t = false) → lock_reachable cfg s → has_lock s w → lock_get_wait w = true →
  suspended s (lock_trx w) ∧
  ∃ l, lock_rec_has_to_wait_in_queue cfg w s = Ok (Some l, s) ∧ has_lock s l ∧ lock_has_to_wait (need_ordering cfg) w l = true.
Proof.
  intros Hv Hs Hw Hww. apply lock_reachable_ok in Hs; [|done]. split; [by eapply suspended_lock|].
  assert (Hb := sys_settled _ _ Hs (lock_id w) w Hw eq_refl Hww). rewrite has_to_wait_in_queue_Ok by done.
  destruct (blockers cfg s w) as [|l bs] eqn:Hl; [done|]. assert (Hin : l ∈ blockers cfg s w) by (rewrite Hl; apply list_elem_of_here).
  exists l. split_and!; [done|by apply blockers_has in Hin as []|]. by apply elem_blockers in Hin as (h & _ & [_ ?] & _).
Qed.

Lemma waiting_locks_blocked_witness :
  suspended demo_state 2 ∧
  ∃ l, lock_rec_has_to_wait_in_queue fcfs_config (demo_lock 103) demo_state = Ok (Some l, demo_state) ∧ has_lock demo_state l ∧
       lock_has_to_wait (need_ordering fcfs_config) (demo_lock 103) l = true.
Proof. apply (waiting_locks_blocked fcfs_config demo_state (demo_lock 103)); [done|apply demo_reachable|apply has_lockb; by vm_compute|by vm_compute]. Defined.

(** C4. No deadlock, under first-come-first-served scheduling with deadlock detection on: the
    waits-for graph of the record locks of every state reachable without a page
    reorganization has no cycle, and every suspended transaction waits, directly or through
    others, for a transaction that runs. *)
Theorem no_lock_deadlock cfg s :
  (∀ t, uses_vats cfg t = false) → innobase_deadlock_detect cfg = true → lock_reachable cfg s →
  (∀ t, ¬ tc (waits_for cfg s) t t) ∧ ∀ t, suspended s t → ∃ u, tc (waits_for cfg s) t u ∧ running s u.
Proof.
  intros Hv Hd Hs. apply lock_reachable_ok in Hs; [|done]. assert (Hac := sys_acyclic _ _ Hs Hd). split; [done|]. intros t. by apply waits_end.
Qed.

Lemma no_lock_deadlock_witness : (∀ t, ¬ tc (waits_for fcfs_config demo_state) t t) ∧ ∃ u, tc (waits_for fcfs_config demo_state) 2 u ∧ running demo_state u.
Proof.
  destruct (no_lock_deadlock fcfs_config demo_state) as [Hac Hw]; [done|done|apply demo_reachable|]. split; [exact Hac|]. apply Hw.
  eexists. split; vm_compute; reflexivity.
Defined.

Lemma waits_for_hash cfg s s' a b : rec_hash s' = rec_hash s → waits_for cfg s' a b ↔ waits_for cfg s a b.
Proof. destruct s, s'. cbn. by intros ->. Qed.

Lemma tc_waits_for_hash cfg s s' a b : rec_hash s' = rec_hash s → tc (waits_for cfg s') a b ↔ tc (waits_for cfg s) a b.
Proof. intros He. split; apply (tc_congruence id); intros x y; by rewrite (waits_for_hash cfg s s'). Qed.

(** The states in which [check_and_resolve] searches, for the lock at [id] of transaction
    [j] that was put into its queue in state [s]: this one, and each state after the
    rollback of a victim that a search has found. *)
Inductive search_state (cfg : config) (j id : nat) (s : lock_sys_t) : lock_sys_t → Prop :=
| search_first : search_state cfg j id s s
| search_again s1 w v c s2 s3 :
    search_state cfg j id s s1 → get_lock s1 id = Some w →
    search cfg (mk_checker 0 j false w (s_lock_mark_counter s1) []) s1 = Ok ((Some v, c), s2) → is_too_deep c = false → v ≠ j →
    trx_rollback cfg c s2 = Ok (tt, s3) → search_state cfg j id s s3.

Lemma search_state_ok cfg j id s s' : (∀ t, uses_vats cfg t = false) → searchable cfg j id s → search_state cfg j id s s' → searchable cfg j id s'.
Proof.
  intros Hv Hs. induction 1 as [|s1 w v c s2 s3 _ IH Hget Hrun Hdeep Hvj Hrb]; [done|].
  destruct (rollback_searchable cfg s1 j id w v c s2) as (s3' & G & Hrb' & Hsr & _); [done..|]. rewrite Hrb in Hrb'. by injection Hrb' as <-.
Qed.

Lemma search_exact cfg j id s :
  searchable cfg j id s → ∃ w v c s', get_lock s id = Some w ∧
    search cfg (mk_checker 0 j false w (s_lock_mark_counter s) []) s = Ok ((v, c), s') ∧
    (is_too_deep c = false → (v ≠ None ↔ tc (waits_for cfg s) j j) ∧ ∀ u, v = Some u → tc (waits_for cfg s) u u).
Proof.
  intros [Hinv Hset Hac Hj Hroom]. destruct (search_joins cfg s j id) as (w & [v c] & s' & Hget & Hrun & Hres & _ & _ & _ & _ & Hhash & _); [done..|].
  exists w, v, c, s'. split_and!; [done..|]. intros Hdeep. assert (Htc := λ a b, tc_waits_for_hash cfg s s' a b Hhash). destruct v as [v|]; cbn in Hres.
  - destruct Hres as [?|(_ & _ & Hreach & Hedge & Hvic)]; [congruence|].
    assert (Hcyc : tc (waits_for cfg s') j j) by (eapply tc_rtc_l; [done|by apply tc_once]).
    split; [rewrite <-Htc; done|]. intros u [= <-]. rewrite <-Htc. destruct Hvic as [-> | ->]; [done|].
    eapply tc_rtc_r; [by apply tc_once|done].
  - rewrite <-Htc. done.
Qed.

(** C10. The deadlock search is exact, under first-come-first-served scheduling and for
    states reachable without a page reorganization. When a request for a record lock or
    for an insert intention lock has to wait and its lock is in the queue, every search
    that [check_and_resolve] makes for it (the first one, and the one after each rollback
    of another victim) ends, and unless it gave up because of its depth or cost, it returns
    a victim if and only if the transaction is on a cycle of the waits-for graph of the
    record locks, and the victim is on a cycle. *)
Theorem deadlock_search_exact cfg s t block heap_no mode node x s2 :
  (∀ t, uses_vats cfg t = false) → innobase_deadlock_detect cfg = true → lock_reachable cfg s →
  enabled s (LockRec false mode block heap_no t node) ∨ mode = insert_mode ∧ enabled s (InsertCheck block heap_no t node) →
  lock_rec_other_has_conflicting cfg s mode (block_space block) (block_page_no block) heap_no t = Some x →
  search_state cfg t node (added (new_lock true t block heap_no mode node) s) s2 →
  ∃ w v c s', get_lock s2 node = Some w ∧ search cfg (mk_checker 0 t false w (s_lock_mark_counter s2) []) s2 = Ok ((v, c), s') ∧
    (is_too_deep c = false → (v ≠ None ↔ tc (waits_for cfg s2) t t) ∧ ∀ u, v = Some u → tc (waits_for cfg s2) u u).
Proof.
  intros Hv Hd Hs Hen Hcf Hst. apply lock_reachable_ok in Hs; [|done]. apply List.find_some in Hcf as [Hx%list_elem_of_In Hwt].
  assert (Hen' : mode ∈ request_modes ∧ heap_no < page_dir_get_n_heap block ∧ running s t ∧ query_runs s t ∧ fresh_lock s node ∧ request_room s).
  { destruct Hen as [(Hm & H)|(-> & H)]; (split; [|exact H]); [by apply record_request|apply list_elem_of_here]. }
  destruct Hen' as (Hm & Hh & Hr & _ & Hn & Hroom). apply search_exact. eapply search_state_ok; [done| |done].
  assert (Hset := join_settled cfg s t block heap_no mode node Hs Hn Hm Hh x Hx Hwt).
  split; [by apply (join_inv cfg)|done|by apply join_acyclic|by apply join_joins|by apply (added_room cfg)].
Qed.

Lemma deadlock_search_exact_witness :
  let s2 := added (new_lock true 1 demo_block 3 LOCK_X 104) demo_state in
  ∃ w v c s', get_lock s2 104 = Some w ∧ search fcfs_config (mk_checker 0 1 false w (s_lock_mark_counter s2) []) s2 = Ok ((v, c), s') ∧
    (is_too_deep c = false → (v ≠ None ↔ tc (waits_for fcfs_config s2) 1 1) ∧ ∀ u, v = Some u → tc (waits_for fcfs_config s2) u u).
Proof.
  apply (deadlock_search_exact fcfs_config demo_state 1 demo_block 3 LOCK_X 104 (demo_lock 101)); [done|done|apply demo_reachable| |by vm_compute|constructor].
  left. apply enabledb_spec. by vm_compute.
Defined.

(** C22. The outcome of a lock request under first-come-first-served scheduling, in a state
    reachable without a page reorganization: with success and [impl] false the transaction
    holds a granted lock on the record that is strong enough (with [impl] true success does
    not mean that a lock was set); with [DB_LOCK_WAIT] it is suspended and its waiting lock
    is in the queue; with [DB_DEADLOCK] it still runs; there is no other outcome. *)
Theorem lock_request_outcome cfg s impl mode block heap_no t node :
  (∀ t, uses_vats cfg t = false) → lock_reachable cfg s → enabled s (LockRec impl mode block heap_no t node) →
  ∃ err s', lock_rec_lock cfg impl mode block heap_no t node s = Ok (err, s') ∧
    match err with
    | DB_SUCCESS | DB_SUCCESS_LOCKED_REC =>
        impl = false → is_Some (lock_rec_has_expl s' mode (block_space block) (block_page_no block) heap_no t)
    | DB_LOCK_WAIT => suspended s' t ∧ ∃ w, has_lock s' w ∧ same_shape w (new_lock true t block heap_no mode node) ∧ lock_get_wait w = true
    | DB_DEADLOCK => running s' t
    | DB_DUPLICATE_KEY | DB_ERROR => False
    end.
Proof.
  intros Hv Hs (Hm & Hh & Hr & Hgo & Hn & Hroom). apply lock_reachable_ok in Hs; [|done].
  destruct (lock_rec_lock_Ok cfg Hv s t block heap_no mode node Hs Hr Hgo Hn Hm Hh impl Hroom) as (err & s' & Hrun & Hs' & Hres).
  exists err, s'. split; [done|]. destruct err; [done|done| |done..]. split; [|exact Hres]. destruct Hres as (w & Hw & Hsh & Hww).
  replace t with (lock_trx w) by apply Hsh. by eapply suspended_lock.
Qed.

Lemma lock_request_outcome_witness :
  ∃ err s', lock_rec_lock fcfs_config false LOCK_X demo_block 3 1 104 demo_state = Ok (err, s') ∧
    match err with
    | DB_SUCCESS | DB_SUCCESS_LOCKED_REC => false = false → is_Some (lock_rec_has_expl s' LOCK_X 0 4 3 1)
    | DB_LOCK_WAIT => suspended s' 1 ∧ ∃ w, has_lock s' w ∧ same_shape w (new_lock true 1 demo_block 3 LOCK_X 104) ∧ lock_get_wait w = true
    | DB_DEADLOCK => running s' 1
    | DB_DUPLICATE_KEY | DB_ERROR => False
    end.
Proof.
  apply (lock_request_outcome fcfs_config demo_state false LOCK_X demo_block 3 1 104); [done|apply demo_reachable|].
  apply enabledb_spec. by vm_compute.
Defined.

(** C25. The outcome of the check before an insert under first-come-first-served scheduling,
    in a state reachable without a page reorganization: with success no lock of another
    transaction on the next record forbids it; otherwise the transaction is suspended with
    a waiting insert intention lock in the queue, or is the victim of a deadlock and runs. *)
Theorem insert_check_outcome cfg s block heap_no t node :
  (∀ t, uses_vats cfg t = false) → lock_reachable cfg s → enabled s (InsertCheck block heap_no t node) →
  ∃ err s', lock_rec_insert_check_and_lock cfg block heap_no t node s = Ok (err, s') ∧
    match err with
    | DB_SUCCESS => lock_rec_other_has_conflicting cfg s' insert_mode (block_space block) (block_page_no block) heap_no t = None
    | DB_SUCCESS_LOCKED_REC => False
    | DB_LOCK_WAIT => suspended s' t ∧ ∃ w, has_lock s' w ∧ same_shape w (new_lock true t block heap_no insert_mode node) ∧ lock_get_wait w = true
    | DB_DEADLOCK => running s' t
    | DB_DUPLICATE_KEY | DB_ERROR => False
    end.
Proof.
  intros Hv Hs (Hh & Hr & Hgo & Hn & Hroom). apply lock_reachable_ok in Hs; [|done].
  destruct (insert_check_Ok cfg Hv s t block heap_no node Hs Hr Hgo Hn Hh Hroom) as (err & s' & Hrun & Hs' & Hres).
  exists err, s'. split; [done|]. destruct err; [|done| |done..].
  - unfold lock_rec_other_has_conflicting. destruct (List.find _ _) as [x|] eqn:Hx; [|done]. apply List.find_some in Hx as [Hx%list_elem_of_In Hwt].
    by rewrite Hres in Hwt.
  - split; [|exact Hres]. destruct Hres as (w & Hw & Hsh & Hww). replace t with (lock_trx w) by apply Hsh. by eapply suspended_lock.
Qed.

Lemma insert_check_outcome_witness :
  ∃ err s', lock_rec_insert_check_and_lock fcfs_config demo_block 3 1 104 demo_state = Ok (err, s') ∧
    match err with
    | DB_SUCCESS => lock_rec_other_has_conflicting fcfs_config s' insert_mode 0 4 3 1 = None
    | DB_SUCCESS_LOCKED_REC => False
    | DB_LOCK_WAIT => suspended s' 1 ∧ ∃ w, has_lock s' w ∧ same_shape w (new_lock true 1 demo_block 3 insert_mode 104) ∧ lock_get_wait w = true
    | DB_DEADLOCK => running s' 1
    | DB_DUPLICATE_KEY | DB_ERROR => False
    end.
Proof.
  apply (insert_check_outcome fcfs_config demo_state demo_block 3 1 104); [done|apply demo_reachable|]. apply enabledb_spec. by vm_compute.
Defined.

(** C35. Under first-come-first-served scheduling and in a state reachable without a page
    reorganization, [lock_release] ends; afterwards the transaction has no lock, the locks of all other
    transactions are still there, and no lock that could now be granted still waits. *)
Theorem lock_release_frees cfg s t :
  (∀ t, uses_vats cfg t = false) → lock_reachable cfg s → running s t →
  ∃ s', lock_release cfg t s = Ok (tt, s') ∧ (∀ l, has_lock s' l → lock_trx l ≠ t) ∧
    (∀ l, has_lock s l → lock_trx l ≠ t → ∃ l', has_lock s' l' ∧ same_shape l' l) ∧
    ∀ w, has_lock s' w → lock_get_wait w = true → blockers cfg s' w ≠ [].
Proof.
  intros Hv Hs Hr. apply lock_reachable_ok in Hs; [|done]. assert (Hinv := sys_inv _ _ Hs).
  destruct (lock_release_Ok cfg s t (Hv t) Hinv (sys_settled _ _ Hs) Hr) as (s' & d & G & Hrun & Hinv' & Hset & _ & Hnil & Hev & _ & Hd).
  exists s'. split_and!; [done| | |].
  - intros l Hl <-. destruct (inv_trx_of _ _ _ _ Hinv' Hl) as (trx & Ht & Hin & _). unfold locks_of in Hnil. rewrite Ht in Hnil. cbn in Hnil.
    rewrite Hnil in Hin. by apply elem_of_nil in Hin.
  - intros l Hl Hne. exists (evo G l). split; [|apply evo_shape]. apply (evolves_has _ _ _ _ _ Hev). exists l. split_and!; [done| |done].
    intros Hin%Hd. destruct Hr as (trx & Ht & _). unfold locks_of in Hin. rewrite Ht in Hin. apply Hne.
    destruct (inv_trx _ _ _ Hinv _ _ Ht) as [_ Hown _ _ _ _]. destruct (Hown _ Hin) as (l' & Hl' & Hid & <-).
    by rewrite (lock_id_inj s l l') by (done || apply Hinv).
  - intros w Hw Hww. by eapply (Hset (lock_id w) w).
Qed.

Lemma lock_release_frees_witness :
  ∃ s', lock_release fcfs_config 1 demo_state = Ok (tt, s') ∧ (∀ l, has_lock s' l → lock_trx l ≠ 1) ∧
    (∀ l, has_lock demo_state l → lock_trx l ≠ 1 → ∃ l', has_lock s' l' ∧ same_shape l' l) ∧
    ∀ w, has_lock s' w → lock_get_wait w = true → blockers fcfs_config s' w ≠ [].
Proof. apply lock_release_frees; [done|apply demo_reachable|]. apply runningb_spec. by vm_compute. Defined.

(** C34. Under first-come-first-served scheduling every state reachable without a page
    reorganization is well formed: each lock is in the hash chain of its page,
    has a bitmap of its size, a record lock mode and an owner that lists it, and waits
    exactly if its owner waits for it; a transaction lists only its own locks, each once,
    is suspended exactly if it waits for a lock, and then its query thread is stopped in
    [QUE_THR_LOCK_WAIT] and [wait_thr] points to it. *)
Theorem lock_system_well_formed cfg s :
  (∀ t, uses_vats cfg t = false) → lock_reachable cfg s →
  hash_ok s ∧ (∀ l, has_lock s l → lock_ok s l) ∧ ∀ t trx, trxs s !! t = Some trx → trx_ok None None s t trx.
Proof. intros Hv Hs. apply lock_reachable_ok in Hs; [|done]. destruct (sys_inv _ _ Hs) as [H1 H2 H3 _ _]. done. Qed.

Lemma lock_system_well_formed_witness : hash_ok demo_state ∧ (∀ l, has_lock demo_state l → lock_ok demo_state l) ∧
  ∀ t trx, trxs demo_state !! t = Some trx → trx_ok None None demo_state t trx.
Proof. apply (lock_system_well_formed fcfs_config); [done|apply demo_reachable]. Defined.

(** ** Variance-aware scheduling *)

(** Transaction 2 holds record 3; 3 holds the gap before record 2 and 4 the record itself.
    2 wants to insert before record 2 and waits for 3; 4 wants record 3 and waits for 2;
    the older transaction 1 wants record 2 and waits for 4 only. *)
Definition vats_ops : list lock_op :=
  [Begin 1 10 2; Begin 2 20 2; Begin 3 30 2; Begin 4 40 2;
   LockRec false (Z.lor LOCK_X LOCK_REC_NOT_GAP) demo_block 3 2 100;
   LockRec false (Z.lor LOCK_S LOCK_GAP) demo_block 2 3 101;
   LockRec false (Z.lor LOCK_S LOCK_REC_NOT_GAP) demo_block 2 4 102;
   InsertCheck demo_block 2 2 103;
   LockRec false LOCK_X demo_block 3 4 104;
   LockRec false LOCK_X demo_block 2 1 105;
   ReleaseLast 3].

Definition vats_state : lock_sys_t := Eval vm_compute in default (no_locks 1) (run_checked vats_config vats_ops (no_locks 3)).

Definition wait_of (s : lock_sys_t) (t : nat) : option lock_t :=
  match trxs s !! t with Some trx => match wait_lock trx with Some id => get_lock s id | None => None end | None => None end.

(** The lock at [b] blocks the lock that the transaction waits for. *)
Definition blocked_by (cfg : config) (s : lock_sys_t) (t b : nat) : bool :=
  match wait_of s t with
  | Some w => bool_decide (w ∈ page_locks s (space w) (page_no w)) && lock_get_wait w && (lock_trx w =? t) && existsb (λ l, lock_trx l =? b) (blockers cfg s w)
  | None => false
  end.

Lemma blocked_by_spec cfg s a b : blocked_by cfg s a b = true → waits_for cfg s a b.
Proof.
  unfold blocked_by. destruct (wait_of s a) as [w|]; [|done]. rewrite !andb_true_iff, bool_decide_eq_true, existsb_exists, Nat.eqb_eq.
  intros [[[? ?] ?] (l & Hl%list_elem_of_In & Hb%Nat.eqb_eq)]. by exists w, l.
Qed.

(** C26. Under VATS a deadlock can go undetected: an older transaction is put ahead of a
    waiting one, which rule 4 of [lock0priv.h] forbids, and no search is made from the
    latter. In the end three transactions wait for one another in a cycle, none of them is
    a victim, and no other one holds a lock. The same requests under first-come-first-served
    scheduling let transaction 2 go on. *)
Theorem vats_undetected_deadlock :
  lock_reachable vats_config vats_state ∧
  waits_for vats_config vats_state 2 1 ∧ waits_for vats_config vats_state 1 4 ∧ waits_for vats_config vats_state 4 2 ∧
  (∀ t trx, trxs vats_state !! t = Some trx → was_chosen_as_deadlock_victim trx = false ∧ (que_state trx = TRX_QUE_LOCK_WAIT ∨ trx_locks trx = [])) ∧
  ∃ s, run_checked fcfs_config vats_ops (no_locks 3) = Some s ∧ running s 2.
Proof.
  split_and!; [|by apply blocked_by_spec; vm_compute..| |].
  - apply (run_checked_reachable vats_config 3 vats_ops); [done|]. by vm_compute.
  - assert (H : map_Forall (λ _ trx, was_chosen_as_deadlock_victim trx = false ∧ (que_state trx = TRX_QUE_LOCK_WAIT ∨ trx_locks trx = [])) (trxs vats_state)).
    { apply (bool_decide_eq_true_1 _). by vm_compute. }
    intros t trx Ht. by apply (H t).
  - eexists. split; [by vm_compute|]. apply runningb_spec. by vm_compute.
Qed.

(** Transaction 2 holds records 2 and 3; 4 waits for record 2 and 3 for record 3. Record 3 is
    removed, which ends the wait of 3 and leaves its lock struct, without a record, behind
    the waiting lock of 4. 3 locks record 4 with this struct. Then the older transaction 1
    wants record 4: its request is put ahead of that of 4, where nothing stops it. *)
Definition conflict_ops : list lock_op :=
  [Begin 1 10 2; Begin 2 20 2; Begin 4 30 2; Begin 3 40 2;
   LockRec false LOCK_X demo_block 2 2 100;
   LockRec false LOCK_X demo_block 3 2 101;
   LockRec false LOCK_X demo_block 2 4 102;
   LockRec false LOCK_X demo_block 3 3 103;
   Page (UpdateDelete demo_block 3 5);
   LockRec false LOCK_X demo_block 4 3 110;
   LockRec false LOCK_X demo_block 4 1 111].

Definition conflict_state : lock_sys_t := Eval vm_compute in default (no_locks 1) (run_checked vats_config conflict_ops (no_locks 3)).

(** Under VATS two transactions can hold the same record exclusively, against rule 3 of
    [lock0priv.h]: a request that is put into the queue by the age of its transaction is only
    checked against the locks ahead of that place, and granted although a granted lock
    behind it conflicts. The same requests under first-come-first-served scheduling let
    transaction 1 wait. *)
Theorem vats_conflicting_grants :
  lock_reachable vats_config conflict_state ∧
  (∃ l1 l3, has_lock conflict_state l1 ∧ has_lock conflict_state l3 ∧ lock_trx l1 = 1 ∧ lock_trx l3 = 3 ∧
     l1 ∈ rec_locks conflict_state 0 4 4 ∧ l3 ∈ rec_locks conflict_state 0 4 4 ∧ lock_get_wait l1 = false ∧ lock_get_wait l3 = false ∧
     lock_rec_get_gap l1 = false ∧ lock_rec_get_gap l3 = false ∧ lock_get_mode l1 = LOCK_X ∧ lock_get_mode l3 = LOCK_X ∧
     lock_mode_compatible (lock_get_mode l1) (lock_get_mode l3) = false) ∧
  running conflict_state 1 ∧ running conflict_state 3 ∧
  ∃ s, run_checked fcfs_config conflict_ops (no_locks 3) = Some s ∧ suspended s 1.
Proof.
  split_and!.
  - apply (run_checked_reachable vats_config 3 conflict_ops); [done|]. by vm_compute.
  - set (lk := λ id, default (mk_lock 0 0 0 0 0 0 []) (get_lock conflict_state id)). exists (lk 111), (lk 103).
    assert (Hin : ∀ id, bool_decide (lk id ∈ rec_locks conflict_state 0 4 4) = true → lk id ∈ rec_locks conflict_state 0 4 4)
      by (intros id; apply bool_decide_eq_true_1).
    split_and!; [apply has_lockb; by vm_compute|apply has_lockb; by vm_compute|by vm_compute|by vm_compute|apply Hin; by vm_compute|apply Hin; by vm_compute|by vm_compute..].
  - apply runningb_spec. by vm_compute.
  - apply runningb_spec. by vm_compute.
  - eexists. split; [by vm_compute|]. eexists. split; vm_compute; reflexivity.
Qed.

(** ** Locks that make a request superfluous *)

(** [lock_rec_lock_slow] asks for nothing if [lock_rec_has_expl] finds a lock: rightly
    so, because that lock is granted on the record and stops every request of another
    transaction that a lock in the requested mode would stop. *)
Theorem expl_lock_covers cfg s mode sp pg heap_no t l :
  lock_rec_has_expl s mode sp pg heap_no t = Some l → heap_no ≠ PAGE_HEAP_NO_SUPREMUM →
  lock_trx l = t ∧ lock_get_wait l = false ∧ l ∈ rec_locks s sp pg heap_no ∧
  ∀ u r p, lock_trx p = t → type_mode p = mode →
    lock_rec_has_to_wait (need_ordering cfg) u r p false = true → lock_rec_has_to_wait (need_ordering cfg) u r l false = true.
Proof.
  intros [Hl Hf]%List.find_some Hh. rewrite !andb_true_iff, Nat.eqb_eq, (proj2 (Nat.eqb_neq _ _) Hh), !orb_false_r, !negb_true_iff in Hf.
  destruct Hf as (((((<- & Hii) & Hst) & Hw) & Hrng) & Hgap). split_and!; [done..|by apply list_elem_of_In|].
  intros u r p Htp <- Hwait. unfold lock_rec_has_to_wait in *. rewrite Htp in Hwait. destruct (u =? lock_trx l); [done|]. cbn [negb andb] in *.
  destruct (lock_mode_compatible _ (lock_get_mode l)) eqn:Hc.
  - assert (Hge : ∀ x, (0 ≤ Z.land x LOCK_MODE_MASK)%Z) by (intros x; apply Z.land_nonneg; by right).
    rewrite Z.land_comm in Hc, Hwait. eapply compatible_weaker in Hc; [|by apply Hge..|exact Hst]. unfold lock_get_mode in Hwait. by rewrite Hc in Hwait.
  - destruct (lock_mode_compatible _ (lock_get_mode p)); [done|]. rewrite Hii. unfold lock_rec_get_gap, lock_rec_get_rec_not_gap in *. cbn [negb] in *.
    destruct (has_flag r LOCK_GAP), (has_flag r LOCK_INSERT_INTENTION), (has_flag (type_mode l) LOCK_GAP), (has_flag (type_mode p) LOCK_GAP),
      (has_flag (type_mode l) LOCK_REC_NOT_GAP), (has_flag (type_mode p) LOCK_REC_NOT_GAP), (lock_rec_get_insert_intention p), (need_ordering cfg u (lock_trx l)); done.
Qed.

Lemma expl_lock_covers_witness :
  lock_trx (demo_lock 101) = 2 ∧ lock_get_wait (demo_lock 101) = false ∧ demo_lock 101 ∈ rec_locks demo_state 0 4 3 ∧
  ∀ u r p, lock_trx p = 2 → type_mode p = Z.lor LOCK_S LOCK_REC_NOT_GAP →
    lock_rec_has_to_wait (need_ordering fcfs_config) u r p false = true →
    lock_rec_has_to_wait (need_ordering fcfs_config) u r (demo_lock 101) false = true.
Proof. by apply (expl_lock_covers fcfs_config demo_state (Z.lor LOCK_S LOCK_REC_NOT_GAP) 0 4 3 2 (demo_lock 101)); [vm_compute|]. Defined.
