(* ===== verification/InnoPhantom.v ===== *)
(** What becomes of record locks of InnoDB (project 4) when records come and go: requests
    follow their record to another page, a gap that was closed to inserts stays closed when
    a record in it is inserted or removed, and the reorganization of a page can leave a
    deadlock undetected. *)
From stdpp Require Import functions base tactics numbers option list list_numbers gmap sets relations sorting.
From Stdlib Require Import ZArith Lia.
From S2P Require Import Prelude InnoMode InnoSys InnoQueue InnoInv InnoGrant InnoBits InnoView InnoDeadlock InnoSearch InnoResolve InnoRequest InnoMove InnoLocking InnoJoin InnoCarry InnoInherit InnoPages InnoMain.

(** ** Moving records *)

(** C13. Under first-come-first-served scheduling, and in a state reachable without a page
    reorganization: when a list of records moves to another page, their requests move along:
    the queue of each record is empty on the old page, and on the new one it has the same requests,
    with the same ones ahead of each that waits. All other queues stay as they are, and the
    state is one that requests could have led to. *)
Theorem locks_follow_records cfg s new_block block recs1 recs2 :
  (∀ t, uses_vats cfg t = false) → lock_reachable cfg s → enabled s (Page (MoveListEnd new_block block recs1 recs2)) →
  ∃ s', lock_move_rec_list_end cfg new_block block recs1 recs2 s = Ok (tt, s') ∧ lock_reachable cfg s' ∧
    (∀ h1 h2, (h1, h2) ∈ zip recs1 recs2 → on_rec s' block h1 = [] ∧ requeued (on_rec s block h1) (on_rec s' new_block h2)) ∧
    ∀ b h, (place b = place block → h ∉ recs1) → (place b = place new_block → h ∉ recs2) → on_rec s' b h = on_rec s b h.
Proof.
  intros Hv Hr Hen. assert (Hs := lock_reachable_ok _ Hv _ Hr). assert (Hen' := Hen). destruct Hen as (Hne & Hm & Hnil).
  destruct (move_list_Ok cfg Hv s new_block block Hs Hne (zip recs1 recs2) Hm Hnil) as (s' & Hrun & Hs' & Hmv & Ho).
  exists s'. split_and!; [done| |intros h1 h2 Hp; apply (Hmv (h1, h2) Hp)|].
  - destruct Hr as (n & Hn & Hrtc). exists n. split; [done|]. eapply rtc_r; [exact Hrtc|]. by exists (Page (MoveListEnd new_block block recs1 recs2)).
  - intros b h H1 H2. unfold on_rec. rewrite !queue_view, Ho; [done|]. intros [h1 h2] Hp. apply elem_of_zip_with in Hp as (x & y & [= <- <-] & Hx & Hy). split.
    + intros E. apply H1; [unfold place; congruence|]. simplify_eq/=. done.
    + intros E. apply H2; [unfold place; congruence|]. simplify_eq/=. done.
Qed.

(** A second page. *)
Definition other_block : buf_block_t := mk_block 0 5 10.

Lemma locks_follow_records_witness :
  ∃ s', lock_move_rec_list_end fcfs_config other_block demo_block [2; 3] [5; 6] demo_state = Ok (tt, s') ∧ lock_reachable fcfs_config s' ∧
    (∀ h1 h2, (h1, h2) ∈ zip [2; 3] [5; 6] → on_rec s' demo_block h1 = [] ∧ requeued (on_rec demo_state demo_block h1) (on_rec s' other_block h2)) ∧
    ∀ b h, (place b = place demo_block → h ∉ [2; 3]) → (place b = place other_block → h ∉ [5; 6]) → on_rec s' b h = on_rec demo_state b h.
Proof.
  apply (locks_follow_records fcfs_config demo_state other_block demo_block [2; 3] [5; 6]); [done|apply demo_reachable|].
  split_and!; [done| |]; cbn [zip zip_with].
  - split; [by repeat constructor; set_solver..|]. intros p. rewrite !elem_of_cons. intros [-> | [-> | []%elem_of_nil]]; cbn; split_and!; [done|done|lia|done|done|lia].
  - intros p. rewrite !elem_of_cons. intros [-> | [-> | []%elem_of_nil]]; by vm_compute.
Defined.

(** ** Phantoms *)

(** The locks that stop an insert of transaction [u]. *)
Lemma insert_waits need u l sup :
  lock_get_mode l = LOCK_S ∨ lock_get_mode l = LOCK_X →
  lock_rec_has_to_wait need u insert_mode l sup = true ↔
  u ≠ lock_trx l ∧ lock_rec_get_insert_intention l = false ∧ lock_rec_get_rec_not_gap l = false ∧ need u (lock_trx l) = true.
Proof.
  intros Hm. unfold lock_rec_has_to_wait. assert (lock_mode_compatible (Z.land LOCK_MODE_MASK insert_mode) (lock_get_mode l) = false) as -> by (by destruct Hm as [-> | ->]).
  change (has_flag insert_mode LOCK_GAP) with true. change (has_flag insert_mode LOCK_INSERT_INTENTION) with true.
  destruct (Nat.eqb_spec u (lock_trx l)), (lock_rec_get_insert_intention l), (lock_rec_get_rec_not_gap l), (need u (lock_trx l)), sup; cbn; naive_solver.
Qed.

Lemma conflicting_elem cfg s mode sp pg h u l :
  l ∈ rec_locks s sp pg h → lock_rec_has_to_wait (need_ordering cfg) u mode l (h =? PAGE_HEAP_NO_SUPREMUM) = true →
  is_Some (lock_rec_other_has_conflicting cfg s mode sp pg h u).
Proof.
  intros Hl Hw. unfold lock_rec_other_has_conflicting. destruct (List.find _ _) as [x|] eqn:Hf; [by eexists|].
  eapply List.find_none in Hf; [|by apply list_elem_of_In]. congruence.
Qed.

(** An inherited lock stops the inserts that the original one stops. *)
Lemma gap_entry_stops cfg s sp pg h u l sup :
  gap_entry h (lock_trx l) (lock_get_mode l) ∈ view s sp pg h → lock_get_mode l = LOCK_S ∨ lock_get_mode l = LOCK_X →
  lock_rec_has_to_wait (need_ordering cfg) u insert_mode l sup = true →
  is_Some (lock_rec_other_has_conflicting cfg s insert_mode sp pg h u).
Proof.
  intros Hin Hm Hw. apply list_elem_of_fmap in Hin as (x & E & Hx). unfold gap_entry, entry_of in E. injection E as Et Em Eg Er Ei Ew.
  apply insert_waits in Hw as (? & ? & ? & ?); [|done]. eapply conflicting_elem; [exact Hx|]. apply insert_waits; [congruence|]. rewrite <-Et. done.
Qed.

(** Requests that stay in the queue stop what they stopped. *)
Lemma kept_entry_stops cfg s s' sp pg h u l :
  (∀ e, e ∈ view s sp pg h → e ∈ view s' sp pg h) → l ∈ rec_locks s sp pg h → lock_get_mode l = LOCK_S ∨ lock_get_mode l = LOCK_X →
  lock_rec_has_to_wait (need_ordering cfg) u insert_mode l (h =? PAGE_HEAP_NO_SUPREMUM) = true →
  is_Some (lock_rec_other_has_conflicting cfg s' insert_mode sp pg h u).
Proof.
  intros Hk Hl Hm Hw. assert (Hin : entry_of l ∈ view s' sp pg h) by (apply Hk, list_elem_of_fmap; by exists l).
  apply list_elem_of_fmap in Hin as (x & E & Hx). unfold entry_of in E. injection E as Et Em Eg Er Ei Ew.
  apply insert_waits in Hw as (? & ? & ? & ?); [|done]. eapply conflicting_elem; [exact Hx|]. apply insert_waits; [congruence|]. rewrite <-Et, <-Ei, <-Er. done.
Qed.

(** C19. Under first-come-first-served scheduling, and in a state reachable without a page
    reorganization: a gap that is closed stays closed when somebody inserts into it: if an insert of a
    transaction before the record [next] has to wait, then after [lock_update_insert] for
    the new record [rec] its inserts on both sides of [rec] have to wait. *)
Theorem insert_splits_gap cfg s block rec next u :
  (∀ t, uses_vats cfg t = false) → lock_reachable cfg s → enabled s (Page (UpdateInsert block rec next)) →
  is_Some (lock_rec_other_has_conflicting cfg s insert_mode (block_space block) (block_page_no block) next u) →
  ∃ s', lock_update_insert cfg block rec next s = Ok (tt, s') ∧
    is_Some (lock_rec_other_has_conflicting cfg s' insert_mode (block_space block) (block_page_no block) rec u) ∧
    is_Some (lock_rec_other_has_conflicting cfg s' insert_mode (block_space block) (block_page_no block) next u).
Proof.
  intros Hv Hr [Hrec Hne] [l [Hl%list_elem_of_In Hw]%List.find_some]. assert (Hs := lock_reachable_ok _ Hv _ Hr).
  destruct (rec_lock_ok s _ _ _ l ltac:(apply Hs) Hl) as [_ Hm].
  destruct (lock_rec_inherit_to_gap_if_gap_lock_Ok cfg Hv block rec next s Hs Hrec) as (s' & Hrun & _ & Ho & _ & Hg).
  exists s'. split_and!; [done| |].
  - eapply gap_entry_stops; [|exact Hm|exact Hw]. apply insert_waits in Hw as (? & ? & ? & ?); [|done]. apply Hg; [done..|by right].
  - eapply kept_entry_stops; [|exact Hl|exact Hm|exact Hw]. intros e. rewrite !queue_view, Ho; [done|congruence].
Qed.

Lemma insert_splits_gap_witness :
  ∃ s', lock_update_insert fcfs_config demo_block 5 3 demo_state = Ok (tt, s') ∧
    is_Some (lock_rec_other_has_conflicting fcfs_config s' insert_mode 0 4 5 1) ∧
    is_Some (lock_rec_other_has_conflicting fcfs_config s' insert_mode 0 4 3 1).
Proof.
  apply (insert_splits_gap fcfs_config demo_state demo_block 5 3 1); [done|apply demo_reachable|split; cbn; lia|]. vm_compute. by eexists.
Defined.

(** C18. Under first-come-first-served scheduling, and in a state reachable without a page
    reorganization: a gap that is closed stays closed when the record at its end is removed: the inserts
    that had to wait for a lock on the record [rec] or on its successor [next] have to
    wait after [lock_update_delete], when both gaps are one. The exception is written in the
    code: transactions of a low isolation level do not leave some of their locks behind. *)
Theorem delete_joins_gaps cfg s block rec next u :
  (∀ t, uses_vats cfg t = false) → lock_reachable cfg s → enabled s (Page (UpdateDelete block rec next)) →
  is_Some (lock_rec_other_has_conflicting cfg s insert_mode (block_space block) (block_page_no block) next u) ∨
  (∃ l, l ∈ rec_locks s (block_space block) (block_page_no block) rec ∧ not_inherited cfg s l = false ∧
        lock_rec_has_to_wait (need_ordering cfg) u insert_mode l (rec =? PAGE_HEAP_NO_SUPREMUM) = true) →
  ∃ s', lock_update_delete cfg block rec next s = Ok (tt, s') ∧ on_rec s' block rec = [] ∧
    is_Some (lock_rec_other_has_conflicting cfg s' insert_mode (block_space block) (block_page_no block) next u).
Proof.
  intros Hv Hr [Hnext Hne] Hl. assert (Hs := lock_reachable_ok _ Hv _ Hr).
  destruct (lock_rec_inherit_to_gap_Ok cfg Hv block block next rec s Hs Hnext) as (s1 & Hrun & Hs1 & Ho & _ & Hk & Hg).
  destruct (lock_rec_reset_and_release_wait_Ok cfg block rec s1 Hs1) as (s2 & Hrun2 & Hs2 & Hnil & Ho2).
  assert (Hsame : view s2 (block_space block) (block_page_no block) next = view s1 (block_space block) (block_page_no block) next).
  { rewrite !queue_view, Ho2; [done|congruence]. }
  exists s2. split_and!; [unfold lock_update_delete; by erewrite bind_Ok by exact Hrun|done|].
  destruct Hl as [[l [Hl%list_elem_of_In Hw]%List.find_some]|(l & Hl & Hi & Hw)]; destruct (rec_lock_ok s _ _ _ l ltac:(apply Hs) Hl) as [_ Hm].
  - eapply kept_entry_stops; [|exact Hl|exact Hm|exact Hw]. intros e He. rewrite Hsame. by apply Hk.
  - eapply gap_entry_stops; [|exact Hm|exact Hw]. rewrite Hsame. apply insert_waits in Hw as (? & ? & ? & ?); [|done]. by apply Hg.
Qed.

Lemma delete_joins_gaps_witness :
  ∃ s', lock_update_delete fcfs_config demo_block 3 5 demo_state = Ok (tt, s') ∧ on_rec s' demo_block 3 = [] ∧
    is_Some (lock_rec_other_has_conflicting fcfs_config s' insert_mode 0 4 5 1).
Proof.
  apply (delete_joins_gaps fcfs_config demo_state demo_block 3 5 1); [done|apply demo_reachable|split; cbn; lia|]. right. exists (demo_lock 101).
  split_and!; [|by vm_compute..]. apply (bool_decide_eq_true_1 _). by vm_compute.
Defined.

(** ** Reorganizing a page *)

(** Transaction 2 holds record 3, and wants to insert before record 2, where 1 holds the
    gap; 3 takes a shared lock on that gap, which nothing stops, and waits for record 3. *)
Definition reorganize_ops : list lock_op :=
  [Begin 1 10 2; Begin 2 20 2; Begin 3 30 2;
   LockRec false (Z.lor LOCK_X LOCK_REC_NOT_GAP) demo_block 3 2 100;
   LockRec false (Z.lor LOCK_S LOCK_GAP) demo_block 2 1 101;
   InsertCheck demo_block 2 2 102;
   LockRec false (Z.lor LOCK_S LOCK_GAP) demo_block 2 3 103;
   LockRec false LOCK_X demo_block 3 3 104].

Definition reorganize_before : lock_sys_t := Eval vm_compute in default (no_locks 1) (run_checked fcfs_config reorganize_ops (no_locks 3)).

(** The records of the page, each with its heap number before and after. *)
Definition reorganize_recs : list (nat * nat) := [(0, 0); (2, 2); (3, 3); (1, 1)].

(** The page is reorganized and transaction 1 ends. *)
Definition reorganize_then_end : LS unit :=
  _ ← lock_move_reorganize_page fcfs_config demo_block reorganize_recs;
  lock_release fcfs_config 1.

(** C27. Reorganizing a page can leave a deadlock undetected. The granted locks are put
    ahead of the waiting ones, so transaction 2 comes to wait for the gap lock of 3, which
    was granted after its own request, while 3 waits for 2; no search is made. When
    transaction 1 ends, 2 and 3 wait for each other for good, and neither is a victim.
    Without the reorganization transaction 2 goes on when 1 ends. *)
Theorem reorganize_undetected_deadlock :
  lock_reachable fcfs_config reorganize_before ∧
  (∃ s', lock_release fcfs_config 1 reorganize_before = Ok (tt, s') ∧ running s' 2) ∧
  ∃ s', reorganize_then_end reorganize_before = Ok (tt, s') ∧ waits_for fcfs_config s' 2 3 ∧ waits_for fcfs_config s' 3 2 ∧
    ∀ t trx, trxs s' !! t = Some trx → was_chosen_as_deadlock_victim trx = false ∧ (que_state trx = TRX_QUE_LOCK_WAIT ∨ trx_locks trx = []).
Proof.
  split_and!.
  - apply (run_checked_reachable fcfs_config 3 reorganize_ops); [done|]. by vm_compute.
  - eexists. split; [by vm_compute|]. apply runningb_spec. by vm_compute.
  - eexists. split_and!; [by vm_compute|by apply blocked_by_spec; vm_compute..|].
    match goal with |- ∀ t trx, trxs ?s !! t = Some trx → _ =>
      assert (H : map_Forall (λ _ trx, was_chosen_as_deadlock_victim trx = false ∧ (que_state trx = TRX_QUE_LOCK_WAIT ∨ trx_locks trx = [])) (trxs s))
        by (apply (bool_decide_eq_true_1 _); by vm_compute) end.
    intros t trx Ht. by apply (H t).
Qed.
