(* ===== verification/InnoTable.v ===== *)
(** Table locks of InnoDB (project 4), from [lock0lock.cc] and [lock0priv.ic]: intention
    locks, shared and exclusive locks on tables, and the AUTO-INC locks, which end with the
    statement instead of the transaction.

    A lock struct is an address in [heap]; the AUTO-INC lock of a table has a struct of its
    own, which is used again and again. [table_locks] and [autoinc_locks] are vectors of
    pointers, null where an element has been removed. Transactions have and wait for table
    locks only; locks on records are the subject of [InnoSys] and the files after it. The
    functions from [tab_resolve_loop] to [lock_table] take the search for a deadlock as an
    argument, so that what does not depend on its choice of victims is shown for any; the
    search of the code is in [InnoTableDeadlock]. *)
From stdpp Require Import functions base tactics numbers option list list_numbers gmap sets relations sorting.
From Stdlib Require Import ZArith Lia.
From S2P Require Import Prelude InnoMode InnoSys InnoRequest.

Definition LOCK_TABLE : Z := 16.

(** ** State *)

(** A [lock_t] whose union is a [lock_table_t]. *)
Record tab_lock_t : Type := mk_tab_lock {
  tl_type_mode : Z;
  tl_trx : nat;
  tl_table : nat;
}.

Record dict_table_t : Type := mk_dict_table {
  locks : list nat;
  autoinc_lock : nat;
  n_waiting_or_granted_auto_inc_locks : nat;
  autoinc_trx : option nat;
}.

Inductive trx_state_t : Type := TRX_STATE_ACTIVE | TRX_STATE_COMMITTED_IN_MEMORY.

#[global] Instance trx_state_eq_dec : EqDecision trx_state_t.
Proof. solve_decision. Defined.

(** What the choice of a victim, [check_and_resolve], [que_thr_stop] and the removal of the
    locks of recovered transactions look at. *)
Record trx_work_t : Type := mk_work {
  w_undo_no : Z;
  w_notrans_edit : bool;
  w_force_rollback_async : bool;
  w_duplicates : Z;
  w_is_recovered : bool;
}.

(** The part of [trx_t] and [trx_lock_t] that table locks use. *)
Record tab_trx_t : Type := mk_tab_trx {
  tt_state : trx_state_t;
  tt_que_state : trx_que_t;
  tt_wait_lock : option nat;
  tt_victim : bool;
  tt_locks : list nat;
  table_locks : list (option nat);
  autoinc_locks : list (option nat);
  tt_thr : que_thr_t;
  tt_work : trx_work_t;
}.

Record tab_sys_t : Type := mk_tab_sys {
  heap : gmap nat tab_lock_t;
  tables : gmap nat dict_table_t;
  tab_trxs : gmap nat tab_trx_t;
}.

Notation TS := (M tab_sys_t).

Definition tl_mode (l : tab_lock_t) : Z := Z.land (tl_type_mode l) LOCK_MODE_MASK.
Definition tl_wait (l : tab_lock_t) : bool := has_flag (tl_type_mode l) LOCK_WAIT.
Definition tl_is_table (l : tab_lock_t) : bool := has_flag (Z.land (tl_type_mode l) LOCK_TYPE_MASK) LOCK_TABLE.
Definition is_autoinc (l : tab_lock_t) : bool := (tl_mode l =? LOCK_AUTO_INC)%Z.

Definition set_tl_type_mode (m : Z) (l : tab_lock_t) : tab_lock_t := mk_tab_lock m (tl_trx l) (tl_table l).

Definition set_locks (q : list nat) (tb : dict_table_t) : dict_table_t :=
  mk_dict_table q (autoinc_lock tb) (n_waiting_or_granted_auto_inc_locks tb) (autoinc_trx tb).
Definition set_n_autoinc (n : nat) (tb : dict_table_t) : dict_table_t :=
  mk_dict_table (locks tb) (autoinc_lock tb) n (autoinc_trx tb).
Definition set_autoinc_trx (t : option nat) (tb : dict_table_t) : dict_table_t :=
  mk_dict_table (locks tb) (autoinc_lock tb) (n_waiting_or_granted_auto_inc_locks tb) t.

Definition set_tt_state (x : trx_state_t) (t : tab_trx_t) : tab_trx_t :=
  mk_tab_trx x (tt_que_state t) (tt_wait_lock t) (tt_victim t) (tt_locks t) (table_locks t) (autoinc_locks t) (tt_thr t) (tt_work t).
Definition set_tt_que_state (q : trx_que_t) (t : tab_trx_t) : tab_trx_t :=
  mk_tab_trx (tt_state t) q (tt_wait_lock t) (tt_victim t) (tt_locks t) (table_locks t) (autoinc_locks t) (tt_thr t) (tt_work t).
Definition set_tt_wait_lock (w : option nat) (t : tab_trx_t) : tab_trx_t :=
  mk_tab_trx (tt_state t) (tt_que_state t) w (tt_victim t) (tt_locks t) (table_locks t) (autoinc_locks t) (tt_thr t) (tt_work t).
Definition set_tt_victim (b : bool) (t : tab_trx_t) : tab_trx_t :=
  mk_tab_trx (tt_state t) (tt_que_state t) (tt_wait_lock t) b (tt_locks t) (table_locks t) (autoinc_locks t) (tt_thr t) (tt_work t).
Definition set_tt_locks (q : list nat) (t : tab_trx_t) : tab_trx_t :=
  mk_tab_trx (tt_state t) (tt_que_state t) (tt_wait_lock t) (tt_victim t) q (table_locks t) (autoinc_locks t) (tt_thr t) (tt_work t).
Definition set_table_locks (v : list (option nat)) (t : tab_trx_t) : tab_trx_t :=
  mk_tab_trx (tt_state t) (tt_que_state t) (tt_wait_lock t) (tt_victim t) (tt_locks t) v (autoinc_locks t) (tt_thr t) (tt_work t).
Definition set_autoinc_locks (v : list (option nat)) (t : tab_trx_t) : tab_trx_t :=
  mk_tab_trx (tt_state t) (tt_que_state t) (tt_wait_lock t) (tt_victim t) (tt_locks t) (table_locks t) v (tt_thr t) (tt_work t).

Definition set_tt_thr (q : que_thr_t) (t : tab_trx_t) : tab_trx_t :=
  mk_tab_trx (tt_state t) (tt_que_state t) (tt_wait_lock t) (tt_victim t) (tt_locks t) (table_locks t) (autoinc_locks t) q (tt_work t).
Definition set_tt_work (w : trx_work_t) (t : tab_trx_t) : tab_trx_t :=
  mk_tab_trx (tt_state t) (tt_que_state t) (tt_wait_lock t) (tt_victim t) (tt_locks t) (table_locks t) (autoinc_locks t) (tt_thr t) w.

Definition update_heap (f : gmap nat tab_lock_t → gmap nat tab_lock_t) (s : tab_sys_t) : tab_sys_t :=
  mk_tab_sys (f (heap s)) (tables s) (tab_trxs s).
Definition update_table (n : nat) (f : dict_table_t → dict_table_t) (s : tab_sys_t) : tab_sys_t :=
  mk_tab_sys (heap s) (alter f n (tables s)) (tab_trxs s).
Definition update_tab_trx (t : nat) (f : tab_trx_t → tab_trx_t) (s : tab_sys_t) : tab_sys_t :=
  mk_tab_sys (heap s) (tables s) (alter f t (tab_trxs s)).

(** Following a pointer. *)
Definition the_lock (id : nat) : TS tab_lock_t := o ← gets (λ s, heap s !! id); deref o.
Definition the_table (n : nat) : TS dict_table_t := o ← gets (λ s, tables s !! n); deref o.
Definition the_trx (t : nat) : TS tab_trx_t := o ← gets (λ s, tab_trxs s !! t); deref o.

(** [UT_LIST_REMOVE] of an element that is not in the list is undefined. *)
Definition ut_list_remove (id : nat) (q : list nat) : TS (list nat) :=
  if decide (id ∈ q) then mret (filter (λ x, x ≠ id) q) else fail UndefinedBehaviour.

(** ** Creating *)

Definition tab_set_lock_and_trx_wait (id trx : nat) : TS unit :=
  _ ← modify (update_tab_trx trx (set_tt_wait_lock (Some id)));
  modify (update_heap (alter (λ l, set_tl_type_mode (Z.lor (tl_type_mode l) LOCK_WAIT) l) id)).

Definition tab_reset_lock_and_trx_wait (id : nat) : TS unit :=
  l ← the_lock id;
  _ ← modify (update_tab_trx (tl_trx l) (set_tt_wait_lock None));
  modify (update_heap (alter (λ l, set_tl_type_mode (Z.ldiff (tl_type_mode l) LOCK_WAIT) l) id)).

(** [node] is the address of memory from the pool or the heap of the transaction. *)
Definition lock_table_create (table : nat) (type_mode : Z) (trx node : nat) : TS nat :=
  tb ← the_table table;
  _ ← (if (Z.land type_mode LOCK_MODE_MASK =? LOCK_AUTO_INC)%Z
       then modify (update_table table (λ tb, set_n_autoinc (S (n_waiting_or_granted_auto_inc_locks tb)) tb)) else mret tt);
  let lock := if (type_mode =? LOCK_AUTO_INC)%Z then autoinc_lock tb else node in
  _ ← (if (type_mode =? LOCK_AUTO_INC)%Z then
         _ ← modify (update_table table (set_autoinc_trx (Some trx)));
         modify (update_tab_trx trx (λ t, set_autoinc_locks (autoinc_locks t ++ [Some lock]) t))
       else mret tt);
  _ ← modify (update_heap (insert lock (mk_tab_lock (Z.lor type_mode LOCK_TABLE) trx table)));
  _ ← modify (update_tab_trx trx (λ t, set_tt_locks (tt_locks t ++ [lock]) t));
  _ ← modify (update_table table (λ tb, set_locks (locks tb ++ [lock]) tb));
  _ ← (if has_flag type_mode LOCK_WAIT then tab_set_lock_and_trx_wait lock trx else mret tt);
  _ ← modify (update_tab_trx trx (λ t, set_table_locks (table_locks t ++ [Some lock]) t));
  mret lock.

(** ** Removing *)

(** The vectors are used from their end: these functions take them reversed. *)
Fixpoint pop_gaps (v : list (option nat)) : list (option nat) :=
  match v with
  | None :: v => pop_gaps v
  | _ => v
  end.

Definition lock_table_pop_autoinc_locks (v : list (option nat)) : list (option nat) := reverse (pop_gaps (tail (reverse v))).

Fixpoint clear_entry (id : nat) (v : list (option nat)) : option (list (option nat)) :=
  match v with
  | [] => None
  | x :: v => if decide (x = Some id) then Some (None :: v) else cons x <$> clear_entry id v
  end.

Definition lock_table_remove_autoinc_lock (id trx : nat) : TS unit :=
  t ← the_trx trx;
  match reverse (autoinc_locks t) with
  | [] => fail UndefinedBehaviour
  | x :: v =>
      if decide (x = Some id) then modify (update_tab_trx trx (set_autoinc_locks (lock_table_pop_autoinc_locks (autoinc_locks t))))
      else
        _ ← assert_ (bool_decide (is_Some x));
        match clear_entry id v with
        | Some v => modify (update_tab_trx trx (set_autoinc_locks (reverse (x :: v))))
        | None => fail AssertFail
        end
  end.

Definition lock_table_remove_low (id : nat) : TS unit :=
  lock ← the_lock id;
  let trx := tl_trx lock in
  let table := tl_table lock in
  _ ← (if is_autoinc lock then
         tb ← the_table table;
         _ ← (if decide (autoinc_trx tb = Some trx) then modify (update_table table (set_autoinc_trx None)) else mret tt);
         t ← the_trx trx;
         _ ← (if negb (tl_wait lock) && negb (bool_decide (autoinc_locks t = [])) then lock_table_remove_autoinc_lock id trx else mret tt);
         tb ← the_table table;
         _ ← assert_ (0 <? n_waiting_or_granted_auto_inc_locks tb);
         modify (update_table table (set_n_autoinc (pred (n_waiting_or_granted_auto_inc_locks tb))))
       else mret tt);
  t ← the_trx trx;
  q ← ut_list_remove id (tt_locks t);
  _ ← modify (update_tab_trx trx (set_tt_locks q));
  tb ← the_table table;
  q ← ut_list_remove id (locks tb);
  modify (update_table table (set_locks q)).

(** ** Waiting and granting *)

(** [lock_has_to_wait] on table locks. *)
Definition tl_has_to_wait (lock1 lock2 : tab_lock_t) : bool :=
  negb (tl_trx lock1 =? tl_trx lock2) && negb (lock_mode_compatible (tl_mode lock1) (tl_mode lock2)).

Fixpoint table_wait_loop (q : list nat) (id : nat) (wait_lock : tab_lock_t) : TS bool :=
  match q with
  | [] => fail UndefinedBehaviour
  | x :: q =>
      if decide (x = id) then mret false
      else
        lock ← the_lock x;
        if tl_has_to_wait wait_lock lock then mret true else table_wait_loop q id wait_lock
  end.

Definition lock_table_has_to_wait_in_queue (id : nat) : TS bool :=
  wait_lock ← the_lock id;
  tb ← the_table (tl_table wait_lock);
  table_wait_loop (locks tb) id wait_lock.

(** [que_thr_end_lock_wait]. *)
Definition tab_end_lock_wait (trx : nat) : TS unit :=
  t ← the_trx trx;
  thr ← deref (if wait_thr (tt_thr t) then Some (tt_thr t) else None);
  _ ← assert_ (bool_decide (thr_state thr = QUE_THR_LOCK_WAIT));
  modify (update_tab_trx trx (λ t, set_tt_thr (thr_run (tt_thr t)) (set_tt_que_state TRX_QUE_RUNNING t))).

(** [que_thr_stop]. *)
Definition tab_que_thr_stop (trx : nat) : TS bool :=
  t ← the_trx trx;
  let '(stopped, thr) := que_thr_stop (tt_que_state t) (w_duplicates (tt_work t)) (tt_thr t) in
  _ ← modify (update_tab_trx trx (set_tt_thr thr));
  mret stopped.

(** [lock_grant] for a table lock. *)
Definition tab_lock_grant (id : nat) : TS unit :=
  _ ← tab_reset_lock_and_trx_wait id;
  lock ← the_lock id;
  let trx := tl_trx lock in
  _ ← (if is_autoinc lock then
         tb ← the_table (tl_table lock);
         if decide (autoinc_trx tb = Some trx) then mret tt
         else
           _ ← modify (update_table (tl_table lock) (set_autoinc_trx (Some trx)));
           modify (update_tab_trx trx (λ t, set_autoinc_locks (autoinc_locks t ++ [Some id]) t))
       else mret tt);
  t ← the_trx trx;
  if decide (tt_que_state t = TRX_QUE_LOCK_WAIT) then tab_end_lock_wait trx else mret tt.

Fixpoint table_grant_loop (q : list nat) : TS unit :=
  match q with
  | [] => mret tt
  | id :: q =>
      lock ← the_lock id;
      _ ← (if tl_wait lock then
             w ← lock_table_has_to_wait_in_queue id;
             if w : bool then mret tt else tab_lock_grant id
           else mret tt);
      table_grant_loop q
  end.

(** The elements behind one of them. *)
Fixpoint behind (id : nat) (q : list nat) : list nat :=
  match q with
  | [] => []
  | x :: q => if decide (x = id) then q else behind id q
  end.

Definition lock_table_dequeue (id : nat) : TS unit :=
  lock ← the_lock id;
  _ ← assert_ (Z.land (tl_type_mode lock) LOCK_TYPE_MASK =? LOCK_TABLE)%Z;
  tb ← the_table (tl_table lock);
  _ ← lock_table_remove_low id;
  table_grant_loop (behind id (locks tb)).

(** ** AUTO-INC locks *)

(** From the end of the vector. *)
Fixpoint remove_entry (id trx : nat) (v : list (option nat)) : TS (list (option nat)) :=
  match v with
  | [] => fail AssertFail
  | None :: v => v ← remove_entry id trx v; mret (None :: v)
  | Some x :: v =>
      lock ← the_lock x;
      _ ← assert_ (trx =? tl_trx lock);
      _ ← assert_ (tl_is_table lock);
      if decide (x = id) then mret (None :: v)
      else v ← remove_entry id trx v; mret (Some x :: v)
  end.

Definition lock_trx_table_locks_remove (id : nat) : TS unit :=
  lock ← the_lock id;
  t ← the_trx (tl_trx lock);
  v ← remove_entry id (tl_trx lock) (reverse (table_locks t));
  modify (update_tab_trx (tl_trx lock) (set_table_locks (reverse v))).

Definition lock_release_autoinc_last_lock (trx : nat) : TS unit :=
  t ← the_trx trx;
  x ← deref (last (autoinc_locks t));
  id ← deref x;
  lock ← the_lock id;
  _ ← assert_ (is_autoinc lock);
  _ ← assert_ (Z.land (tl_type_mode lock) LOCK_TYPE_MASK =? LOCK_TABLE)%Z;
  _ ← lock_table_dequeue id;
  lock_trx_table_locks_remove id.

(** The loop, with the length of the vector as fuel. *)
Fixpoint release_autoinc_loop (fuel : nat) (trx : nat) : TS unit :=
  t ← the_trx trx;
  if decide (autoinc_locks t = []) then mret tt
  else
    match fuel with
    | 0 => fail OutOfFuel
    | S fuel =>
        _ ← lock_release_autoinc_last_lock trx;
        release_autoinc_loop fuel trx
    end.

Definition lock_release_autoinc_locks (trx : nat) : TS unit :=
  t ← the_trx trx;
  release_autoinc_loop (length (autoinc_locks t)) trx.

Definition lock_unlock_table_autoinc (trx : nat) : TS unit :=
  t ← the_trx trx;
  if decide (autoinc_locks t = []) then mret tt else lock_release_autoinc_locks trx.

(** [lock_cancel_waiting_and_release] for a table lock. *)
Definition tab_cancel_waiting_and_release (id : nat) : TS unit :=
  lock ← the_lock id;
  _ ← lock_release_autoinc_locks (tl_trx lock);
  _ ← lock_table_dequeue id;
  _ ← tab_reset_lock_and_trx_wait id;
  tab_end_lock_wait (tl_trx lock).

(** ** Requests *)

Fixpoint table_has_loop (v : list (option nat)) (table : nat) (in_mode : Z) : TS bool :=
  match v with
  | [] => mret false
  | None :: v => table_has_loop v table in_mode
  | Some x :: v =>
      lock ← the_lock x;
      if (table =? tl_table lock) && lock_mode_stronger_or_eq (tl_mode lock) in_mode then mret true
      else table_has_loop v table in_mode
  end.

Definition lock_table_has (trx table : nat) (in_mode : Z) : TS bool :=
  t ← the_trx trx;
  table_has_loop (reverse (table_locks t)) table in_mode.

(** The queue from its end. *)
Fixpoint incompatible_loop (q : list nat) (trx : nat) (wait : bool) (mode : Z) : TS bool :=
  match q with
  | [] => mret false
  | x :: q =>
      lock ← the_lock x;
      if negb (tl_trx lock =? trx) && negb (lock_mode_compatible (tl_mode lock) mode) && (wait || negb (tl_wait lock)) then mret true
      else incompatible_loop q trx wait mode
  end.

Definition lock_table_other_has_incompatible (trx : nat) (wait : bool) (table : nat) (mode : Z) : TS bool :=
  tb ← the_table table;
  incompatible_loop (reverse (locks tb)) trx wait mode.

(** [DeadlockChecker::trx_rollback]. *)
Definition tab_trx_rollback (trx : nat) : TS unit :=
  _ ← modify (update_tab_trx trx (set_tt_victim true));
  t ← the_trx trx;
  id ← deref (tt_wait_lock t);
  tab_cancel_waiting_and_release id.

Section search.
  Context (cfg : config) (search : nat → nat → TS (option nat * bool)).

(** The loop of [DeadlockChecker::check_and_resolve]. [search] gives the victim, if any, for
    the lock at an address and its transaction, and whether the search went too deep. Each
    turn but the last ends the wait of a transaction; their number is the fuel. *)
Fixpoint tab_resolve_loop (fuel : nat) (id trx : nat) : TS (option nat) :=
  '(victim_trx, deep) ← search id trx;
  if deep : bool then mret victim_trx
  else
    match victim_trx with
    | None => mret None
    | Some v =>
        if decide (v = trx) then mret victim_trx
        else
          match fuel with
          | 0 => fail OutOfFuel
          | S fuel =>
              _ ← tab_trx_rollback v;
              tab_resolve_loop fuel id trx
          end
    end.

Definition tab_check_and_resolve (id trx : nat) : TS (option nat) :=
  t ← the_trx trx;
  if w_force_rollback_async (tt_work t) then mret (Some trx)
  else if negb (innobase_deadlock_detect cfg) then mret None
  else
    n ← gets (λ s, size (tab_trxs s));
    tab_resolve_loop n id trx.

Definition lock_table_enqueue_waiting (mode : Z) (table trx node : nat) : TS dberr_t :=
  stop ← tab_que_thr_stop trx;
  _ ← assert_ (negb stop);
  id ← lock_table_create table (Z.lor mode LOCK_WAIT) trx node;
  victim_trx ← tab_check_and_resolve id trx;
  match victim_trx with
  | Some _ =>
      _ ← lock_table_remove_low id;
      _ ← tab_reset_lock_and_trx_wait id;
      mret DB_DEADLOCK
  | None =>
      t ← the_trx trx;
      match tt_wait_lock t with
      | None => mret DB_SUCCESS
      | Some _ =>
          _ ← modify (update_tab_trx trx (λ t, set_tt_victim false (set_tt_que_state TRX_QUE_LOCK_WAIT t)));
          stop ← tab_que_thr_stop trx;
          _ ← assert_ stop;
          mret DB_LOCK_WAIT
      end
  end.

Definition lock_table (table : nat) (mode : Z) (trx node : nat) : TS dberr_t :=
  has ← lock_table_has trx table mode;
  if has : bool then mret DB_SUCCESS
  else
    wait_for ← lock_table_other_has_incompatible trx true table mode;
    if wait_for : bool then lock_table_enqueue_waiting mode table trx node
    else
      _ ← lock_table_create table mode trx node;
      mret DB_SUCCESS.

End search.

Definition lock_table_ix_resurrect (table trx node : nat) : TS unit :=
  has ← lock_table_has trx table LOCK_IX;
  if has : bool then mret tt
  else
    _ ← lock_table_create table LOCK_IX trx node;
    mret tt.

(** ** Dropped and truncated tables *)

Definition IS_LOCK_S_OR_X (l : tab_lock_t) : bool := (tl_mode l =? LOCK_S)%Z || (tl_mode l =? LOCK_X)%Z.

(** The locks of a transaction from the last one on; the one before is read first. *)
Fixpoint remove_for_trx_loop (q : list nat) (table : nat) (sx : bool) : TS unit :=
  match q with
  | [] => mret tt
  | id :: q =>
      lock ← the_lock id;
      _ ← (if tl_is_table lock && (tl_table lock =? table) && (sx || negb (IS_LOCK_S_OR_X lock)) then
             _ ← assert_ (negb (tl_wait lock));
             _ ← lock_trx_table_locks_remove id;
             lock_table_remove_low id
           else mret tt);
      remove_for_trx_loop q table sx
  end.

Definition lock_remove_all_on_table_for_trx (table trx : nat) (sx : bool) : TS unit :=
  t ← the_trx trx;
  remove_for_trx_loop (reverse (tt_locks t)) table sx.

(** The elements ahead of one of them. *)
Fixpoint ahead (id : nat) (q : list nat) : list nat :=
  match q with
  | [] => []
  | x :: q => if decide (x = id) then [] else x :: ahead id q
  end.

(** The next lock to look at, after the one with address [id]. *)
Definition next_lock (prev_lock : option nat) (id : nat) (q : list nat) : option nat :=
  match prev_lock with
  | None => if decide (head q = Some id) then head (behind id q) else head q
  | Some p => if decide (head (behind p q) = Some id) then head (behind id q) else head (behind p q)
  end.

Fixpoint remove_all_loop (fuel : nat) (lock : option nat) (table : nat) (sx : bool) : TS unit :=
  match lock, fuel with
  | None, _ => mret tt
  | Some _, 0 => fail OutOfFuel
  | Some id, S fuel =>
      tb ← the_table table;
      l ← the_lock id;
      _ ← assert_ (if sx || negb (IS_LOCK_S_OR_X l) then negb (tl_wait l) else true);
      _ ← lock_remove_all_on_table_for_trx table (tl_trx l) sx;
      tb' ← the_table table;
      remove_all_loop fuel (next_lock (last (ahead id (locks tb))) id (locks tb')) table sx
  end.

(** [lock_remove_recovered_trx_record_locks], without its locks on records: the locks of a
    transaction from the first one on, the next one being read first. *)
Fixpoint remove_recovered_loop (q : list nat) (table trx : nat) : TS unit :=
  match q with
  | [] => mret tt
  | id :: q =>
      lock ← the_lock id;
      _ ← assert_ (tl_trx lock =? trx);
      _ ← assert_ (negb (tl_wait lock));
      _ ← assert_ (Z.land (tl_type_mode lock) LOCK_TYPE_MASK =? LOCK_TABLE)%Z;
      _ ← (if tl_table lock =? table then
             _ ← lock_trx_table_locks_remove id;
             lock_table_remove_low id
           else mret tt);
      remove_recovered_loop q table trx
  end.

(** The transactions in the order of [rw_trx_list], the one with the biggest id first. *)
Definition rw_trx_list (s : tab_sys_t) : list nat := reverse (merge_sort (≤) (elements (dom (tab_trxs s)))).

Fixpoint remove_recovered_trxs (trxs : list nat) (table n_recovered_trx : nat) : TS nat :=
  match trxs with
  | [] => mret n_recovered_trx
  | trx :: trxs =>
      t ← the_trx trx;
      if negb (w_is_recovered (tt_work t)) then remove_recovered_trxs trxs table n_recovered_trx
      else
        _ ← remove_recovered_loop (tt_locks t) table trx;
        remove_recovered_trxs trxs table (S n_recovered_trx)
  end.

Definition lock_remove_recovered_trx_record_locks (table : nat) : TS nat :=
  trxs ← gets rw_trx_list;
  remove_recovered_trxs trxs table 0.

(** The result is [lock_sys->rollback_complete] afterwards. *)
Definition lock_remove_all_on_table (table : nat) (sx rollback_complete : bool) : TS bool :=
  tb ← the_table table;
  _ ← remove_all_loop (length (locks tb)) (head (locks tb)) table sx;
  if negb rollback_complete then
    n ← lock_remove_recovered_trx_record_locks table;
    mret (n =? 0)
  else mret rollback_complete.

(** ** Ending *)

(** [lock_wait_check_and_cancel] when the wait has timed out. *)
Definition tab_wait_check_and_cancel (trx : nat) : TS unit :=
  t ← the_trx trx;
  match tt_wait_lock t with
  | Some id =>
      _ ← assert_ (bool_decide (tt_que_state t = TRX_QUE_LOCK_WAIT));
      tab_cancel_waiting_and_release id
  | None => mret tt
  end.

(** [lock_trx_release_locks]: the transaction becomes committed, [lock_release] takes its
    locks from the last one on, and the vector of its locks is cleared. [lock_release] gives
    up the mutex at intervals, so its turns are steps of their own. *)
Definition tab_commit (trx : nat) : TS unit := modify (update_tab_trx trx (set_tt_state TRX_STATE_COMMITTED_IN_MEMORY)).

Definition tab_release_last (trx : nat) : TS bool :=
  t ← the_trx trx;
  match last (tt_locks t) with
  | None => mret false
  | Some id =>
      _ ← lock_table_dequeue id;
      mret true
  end.

(** A struct from the heap of the transaction, not the AUTO-INC lock of a table. *)
Definition in_lock_heap (s : tab_sys_t) (trx : nat) (kl : nat * tab_lock_t) : Prop :=
  tl_trx kl.2 = trx ∧ map_Forall (λ _ tb, autoinc_lock tb ≠ kl.1) (tables s).

#[global] Instance in_lock_heap_dec s trx kl : Decision (in_lock_heap s trx kl).
Proof. unfold in_lock_heap. apply _. Defined.

(** [mem_heap_empty]: the structs can be handed out again. *)
Definition empty_lock_heap (trx : nat) (s : tab_sys_t) : tab_sys_t :=
  update_heap (filter (λ kl, ¬ in_lock_heap s trx kl)) s.

Definition tab_release_end (trx : nat) : TS unit :=
  _ ← modify (update_tab_trx trx (set_table_locks []));
  t ← the_trx trx;
  _ ← assert_ (bool_decide (tt_locks t = []));
  _ ← assert_ (bool_decide (autoinc_locks t = []));
  modify (empty_lock_heap trx).

Fixpoint tab_release_loop (fuel : nat) (trx : nat) : TS unit :=
  more ← tab_release_last trx;
  if more : bool then
    match fuel with
    | 0 => fail OutOfFuel
    | S fuel => tab_release_loop fuel trx
    end
  else mret tt.

Definition lock_trx_release_locks (trx : nat) : TS unit :=
  _ ← tab_commit trx;
  t ← the_trx trx;
  _ ← tab_release_loop (length (tt_locks t)) trx;
  tab_release_end trx.
