(* ===== verification/InnoTableInv.v ===== *)
(** The invariant of the table locks of InnoDB (project 4), and lemmas on their queues and
    vectors. *)
From stdpp Require Import functions base tactics numbers option list list_numbers gmap sets relations sorting.
From Stdlib Require Import ZArith Lia.
From S2P Require Import Prelude InnoMode InnoSys InnoRequest InnoTable.

(** ** Vectors of pointers *)

(** The pointers that are not null. *)
Definition entries (v : list (option nat)) : list nat := omap id v.

Lemma elem_entries v x : x ∈ entries v ↔ Some x ∈ v.
Proof. unfold entries. rewrite list_elem_of_omap. split; [|intros H; by exists (Some x)].
  intros (y & Hy & E). unfold id in E. by subst y.
Qed.

Lemma entries_app v w : entries (v ++ w) = entries v ++ entries w.
Proof. unfold entries. by rewrite omap_app. Qed.

Lemma entries_cons x v : entries (x :: v) = match x with Some y => y :: entries v | None => entries v end.
Proof. by destruct x. Qed.

Lemma entries_reverse v : entries (reverse v) = reverse (entries v).
Proof.
  induction v as [|x v IH]; [done|]. rewrite reverse_cons, entries_app, IH, !entries_cons. destruct x as [x|]; [by rewrite reverse_cons|]. apply app_nil_r.
Qed.

Lemma filter_absent (q : list nat) id : id ∉ q → filter (λ x, x ≠ id) q = q.
Proof.
  induction q as [|x q IH]; [done|]. rewrite not_elem_of_cons, filter_cons. intros [Hx Hq]. rewrite decide_True by done. by rewrite IH.
Qed.

Lemma clear_entry_Some id v :
  NoDup (entries v) → id ∈ entries v → ∃ v', clear_entry id v = Some v' ∧ entries v' = filter (λ x, x ≠ id) (entries v).
Proof.
  induction v as [|x v IH]; intros Hnd Hin; [by apply elem_of_nil in Hin|]. rewrite entries_cons in Hnd, Hin |- *. cbn [clear_entry].
  destruct (decide (x = Some id)) as [->|Hx].
  - exists (None :: v). split; [done|]. apply NoDup_cons in Hnd as [Hn _]. rewrite filter_cons, decide_False by (intros H; by apply H). by rewrite filter_absent.
  - destruct x as [y|].
    + apply NoDup_cons in Hnd as [_ Hnd]. apply elem_of_cons in Hin as [->|Hin]; [done|]. destruct (IH Hnd Hin) as (v' & -> & Hv').
      exists (Some y :: v'). split; [done|]. rewrite entries_cons, filter_cons, decide_True by congruence. by rewrite Hv'.
    + destruct (IH Hnd Hin) as (v' & -> & Hv'). by exists (None :: v').
Qed.

(** The last element of a vector is not null. *)
Definition last_set (v : list (option nat)) : Prop := v = [] ∨ ∃ x, last v = Some (Some x).

Lemma last_set_head v : last_set v ↔ reverse v = [] ∨ ∃ x w, reverse v = Some x :: w.
Proof.
  unfold last_set. rewrite <-head_reverse. split.
  - intros [->|[x Hx]]; [by left|]. right. destruct (reverse v) as [|y w]; [done|]. injection Hx as ->. by exists x, w.
  - intros [Hv|(x & w & ->)]; [left|right; by exists x]. apply (f_equal reverse) in Hv. by rewrite reverse_involutive in Hv.
Qed.

Lemma pop_gaps_spec v : entries (pop_gaps v) = entries v ∧ (pop_gaps v = [] ∨ ∃ x w, pop_gaps v = Some x :: w).
Proof. induction v as [|[x|] v IH]; cbn [pop_gaps]; [by split; [|left]|split; [done|right; by exists x, v]|done]. Qed.

Lemma pop_autoinc_spec v id w :
  reverse v = Some id :: w → NoDup (entries v) →
  entries (lock_table_pop_autoinc_locks v) = filter (λ x, x ≠ id) (entries v) ∧ last_set (lock_table_pop_autoinc_locks v).
Proof.
  intros Hv Hnd. unfold lock_table_pop_autoinc_locks. rewrite Hv. cbn [tail]. destruct (pop_gaps_spec w) as [He Hl]. split.
  - rewrite entries_reverse, He. assert (E : entries v = reverse (entries w) ++ [id]).
    { rewrite <-(reverse_involutive v), Hv, entries_reverse, entries_cons. apply reverse_cons. }
    rewrite E in Hnd |- *. apply NoDup_app in Hnd as (_ & Hn & _). rewrite filter_app, filter_cons, decide_False by (intros H; by apply H).
    rewrite filter_nil, app_nil_r, filter_absent; [done|]. intros H. apply (Hn id H). left.
  - rewrite last_set_head, reverse_involutive. done.
Qed.

(** ** Queues *)

Lemma queue_ahead_filter id x q : x ≠ id → ahead x (filter (λ y, y ≠ id) q) = filter (λ y, y ≠ id) (ahead x q).
Proof.
  intros Hx. induction q as [|y q IH]; [done|]. rewrite filter_cons. cbn [ahead]. destruct (decide (y = id)) as [->|Hy].
  - rewrite (decide_False (P := id ≠ id)) by (intros H; by apply H). rewrite decide_False by congruence.
    by rewrite filter_cons, (decide_False (P := id ≠ id)) by (intros H; by apply H).
  - rewrite decide_True by done. cbn [ahead]. destruct (decide (y = x)); [by rewrite filter_nil|]. by rewrite filter_cons, decide_True, IH.
Qed.

Lemma ahead_snoc id q : id ∉ q → ahead id (q ++ [id]) = q.
Proof.
  induction q as [|x q IH]; cbn [ahead app]; [by rewrite decide_True|]. rewrite not_elem_of_cons. intros [Hx Hq].
  rewrite decide_False by done. by rewrite IH.
Qed.

Lemma ahead_app id q r : id ∈ q → ahead id (q ++ r) = ahead id q.
Proof.
  induction q as [|x q IH]; cbn [ahead app]; [by intros H%elem_of_nil|]. destruct (decide (x = id)); [done|]. rewrite elem_of_cons. intros [->|Hq]; [done|].
  by rewrite IH.
Qed.

Lemma ahead_elem id x q : x ∈ ahead id q → x ∈ q ∧ x ≠ id.
Proof.
  induction q as [|y q IH]; cbn [ahead]; [by intros H%elem_of_nil|]. destruct (decide (y = id)); [by intros H%elem_of_nil|].
  rewrite !elem_of_cons. intros [->|H]; [by split; [left|]|]. destruct (IH H). tauto.
Qed.

(** An element is ahead of those behind it only. *)
Lemma ahead_behind id x q : NoDup q → id ∈ ahead x q → x ∈ q → x ∈ behind id q.
Proof.
  induction q as [|y q IH]; cbn [ahead behind]; [by intros _ H%elem_of_nil|]. intros [Hy Hnd]%NoDup_cons.
  destruct (decide (y = x)) as [|Hyx]; [by intros H%elem_of_nil|]. rewrite !elem_of_cons. intros [->|H] [->|Hx]; try done.
  - by rewrite decide_True.
  - destruct (decide (y = id)) as [->|]; [done|]. by apply IH.
Qed.

Lemma queue_ahead_total id x q : id ∈ q → x ∈ q → id ≠ x → id ∈ ahead x q ∨ x ∈ ahead id q.
Proof.
  induction q as [|y q IH]; [by intros H%elem_of_nil|]. cbn [ahead]. rewrite !elem_of_cons. intros [->|Hi] [->|Hx] Hne; try done.
  - left. rewrite decide_False by congruence. left.
  - right. rewrite decide_False by congruence. left.
  - destruct (decide (y = x)) as [->|]; [right; rewrite decide_False by congruence; left|].
    destruct (decide (y = id)) as [->|]; [left; left|]. destruct (IH Hi Hx Hne); [left|right]; by right.
Qed.

Lemma behind_sublist id q : behind id q `sublist_of` q.
Proof. induction q as [|x q IH]; cbn [behind]; [done|]. destruct (decide (x = id)); by constructor. Qed.

(** ** The invariant *)

Definition tl_ok (l : tab_lock_t) : Prop := tl_mode l ∈ lock_modes ∧ Z.land (tl_type_mode l) LOCK_TYPE_MASK = LOCK_TABLE.

Definition queued (s : tab_sys_t) (id : nat) (l : tab_lock_t) : Prop :=
  heap s !! id = Some l ∧ ∃ tb, tables s !! tl_table l = Some tb ∧ id ∈ locks tb.

(** A lock ahead of it conflicts with the lock. *)
Definition blocked (s : tab_sys_t) (id : nat) (l : tab_lock_t) : Prop :=
  ∃ tb x lx, tables s !! tl_table l = Some tb ∧ x ∈ ahead id (locks tb) ∧ heap s !! x = Some lx ∧ tl_has_to_wait l lx = true.

(** The addresses of the AUTO-INC locks of the tables. *)
Definition is_struct (s : tab_sys_t) (id : nat) : Prop := ∃ n tb, tables s !! n = Some tb ∧ autoinc_lock tb = id.

(** The thread of a transaction in the state of a wait is stopped for it. *)
Definition tt_thr_waits (trx : tab_trx_t) : Prop :=
  tt_que_state trx = TRX_QUE_LOCK_WAIT → wait_thr (tt_thr trx) = true ∧ thr_state (tt_thr trx) = QUE_THR_LOCK_WAIT.

(** [j] is a transaction whose request is checked for deadlocks, [c] one whose waiting lock
    has just been removed, and [e] the address of an AUTO-INC lock that has left the queue,
    but not the vector of its transaction. *)
Record tab_trx_ok (j c e : option nat) (s : tab_sys_t) (t : nat) (trx : tab_trx_t) : Prop := mk_tab_trx_ok {
  to_nodup : NoDup (tt_locks trx);
  to_locks : ∀ id, id ∈ tt_locks trx → ∃ l, queued s id l ∧ tl_trx l = t;
  to_wait : ∀ id, tt_wait_lock trx = Some id → c ≠ Some t → id ∈ tt_locks trx ∧ ∃ l, heap s !! id = Some l ∧ tl_wait l = true;
  to_waits : ∀ id l, id ∈ tt_locks trx → heap s !! id = Some l → tl_wait l = true → tt_wait_lock trx = Some id;
  to_que : j ≠ Some t → tt_que_state trx = TRX_QUE_LOCK_WAIT ↔ is_Some (tt_wait_lock trx);
  to_joining : j = Some t → tt_que_state trx = TRX_QUE_RUNNING;
  to_active : is_Some (tt_wait_lock trx) → tt_state trx = TRX_STATE_ACTIVE;
  to_auto : ∀ id, id ∈ entries (autoinc_locks trx) ↔ id ∈ tt_locks trx ∧ ∃ l, heap s !! id = Some l ∧ is_autoinc l = true ∧ tl_wait l = false;
  to_auto_nodup : NoDup (entries (autoinc_locks trx));
  to_auto_last : last_set (autoinc_locks trx);
  to_tables : tt_state trx = TRX_STATE_ACTIVE → NoDup (entries (table_locks trx)) ∧ (∀ id, id ∈ tt_locks trx → id ∈ entries (table_locks trx)) ∧
    ∀ id, id ∈ entries (table_locks trx) → ∃ l, heap s !! id = Some l ∧ tl_trx l = t ∧ tl_ok l ∧ (is_struct s id → e = Some id ∨ id ∈ tt_locks trx);
  to_thr : graph_state (tt_thr trx) = QUE_FORK_ACTIVE ∧ tt_thr_waits trx;
}.

Record auto_ok (s : tab_sys_t) (n : nat) (tb : dict_table_t) : Prop := mk_auto_ok {
  ao_trx : ∀ t, autoinc_trx tb = Some t ↔ ∃ id l, id ∈ locks tb ∧ heap s !! id = Some l ∧ tl_trx l = t ∧ is_autoinc l = true ∧ tl_wait l = false;
  ao_count : n_waiting_or_granted_auto_inc_locks tb = length (filter (λ id, from_option is_autoinc false (heap s !! id) = true) (locks tb));
  ao_one : ∀ id1 id2 l1 l2, id1 ∈ locks tb → id2 ∈ locks tb → heap s !! id1 = Some l1 → heap s !! id2 = Some l2 →
           is_autoinc l1 = true → is_autoinc l2 = true → tl_trx l1 = tl_trx l2 → id1 = id2;
  ao_struct : ∀ l, heap s !! autoinc_lock tb = Some l → tl_table l = n ∧ is_autoinc l = true ∧ tl_wait l = false;
}.

Record tab_inv (j c e : option nat) (s : tab_sys_t) : Prop := mk_tab_inv {
  ti_nodup : ∀ n tb, tables s !! n = Some tb → NoDup (locks tb);
  ti_queue : ∀ n tb id, tables s !! n = Some tb → id ∈ locks tb →
             ∃ l trx, heap s !! id = Some l ∧ tl_table l = n ∧ tl_ok l ∧ tab_trxs s !! tl_trx l = Some trx ∧ id ∈ tt_locks trx;
  ti_order : ∀ id l, queued s id l → tl_wait l = false → ¬ blocked s id l;
  ti_trx : ∀ t trx, tab_trxs s !! t = Some trx → tab_trx_ok j c e s t trx;
  ti_auto : ∀ n tb, tables s !! n = Some tb → auto_ok s n tb;
  ti_struct : ∀ n1 n2 tb1 tb2, tables s !! n1 = Some tb1 → tables s !! n2 = Some tb2 → autoinc_lock tb1 = autoinc_lock tb2 → n1 = n2;
}.

(** Every waiting lock is blocked. *)
Definition tab_settled (s : tab_sys_t) : Prop := ∀ id l, queued s id l → tl_wait l = true → blocked s id l.

Lemma has_to_wait_sym a b : tl_ok a → tl_ok b → tl_has_to_wait a b = tl_has_to_wait b a.
Proof. intros [Ha _] [Hb _]. unfold tl_has_to_wait. by rewrite Nat.eqb_sym, compatible_sym. Qed.

Lemma autoinc_conflict a b : is_autoinc a = true → is_autoinc b = true → tl_trx a ≠ tl_trx b → tl_has_to_wait a b = true.
Proof. unfold is_autoinc, tl_has_to_wait. intros ->%Z.eqb_eq ->%Z.eqb_eq H. by rewrite (proj2 (Nat.eqb_neq _ _) H). Qed.

Section inv.
  Context (j c e : option nat) (s : tab_sys_t) (Hinv : tab_inv j c e s).

Lemma queued_ok id l : queued s id l →
  tl_ok l ∧ ∃ tb trx, tables s !! tl_table l = Some tb ∧ id ∈ locks tb ∧ tab_trxs s !! tl_trx l = Some trx ∧ id ∈ tt_locks trx.
Proof.
  intros (Hl & tb & Htb & Hid). destruct (ti_queue _ _ _ _ Hinv _ _ _ Htb Hid) as (l' & trx & Hl' & _ & Hok & Ht & Hin). simplify_eq.
  split; [done|]. by exists tb, trx.
Qed.

Lemma queued_elem n tb id : tables s !! n = Some tb → id ∈ locks tb → ∃ l, queued s id l ∧ tl_table l = n.
Proof.
  intros Htb Hid. destruct (ti_queue _ _ _ _ Hinv _ _ _ Htb Hid) as (l & trx & Hl & <- & _). exists l. split; [|done]. split; [done|]. by exists tb.
Qed.

(** Two granted locks of different transactions on a table are compatible. *)
Lemma granted_compatible id1 id2 l1 l2 :
  queued s id1 l1 → queued s id2 l2 → tl_wait l1 = false → tl_wait l2 = false → tl_table l1 = tl_table l2 → tl_has_to_wait l1 l2 = false.
Proof.
  intros Q1 Q2 W1 W2 Htb. destruct (decide (id1 = id2)) as [->|Hne].
  { destruct Q1 as [H1 _], Q2 as [H2 _]. simplify_eq. unfold tl_has_to_wait. by rewrite Nat.eqb_refl. }
  destruct (queued_ok _ _ Q1) as (K1 & tb & trx1 & Ht1 & I1 & _), (queued_ok _ _ Q2) as (K2 & tb2 & trx2 & Ht2 & I2 & _).
  rewrite <-Htb in Ht2. simplify_eq. apply not_true_is_false. intros Hw.
  destruct (queue_ahead_total id1 id2 (locks tb)) as [H|H]; [done..| |].
  - apply (ti_order _ _ _ _ Hinv id2 l2 Q2 W2). exists tb, id1, l1. rewrite <-Htb. split_and!; [done..|by apply Q1|]. by rewrite has_to_wait_sym.
  - apply (ti_order _ _ _ _ Hinv id1 l1 Q1 W1). exists tb, id2, l2. split_and!; [done..|by apply Q2|done].
Qed.

(** The waiting lock of a transaction. *)
Lemma tab_waiting_lock id l trx : queued s id l → tl_wait l = true → tab_trxs s !! tl_trx l = Some trx → tt_wait_lock trx = Some id ∧ tt_state trx = TRX_STATE_ACTIVE.
Proof.
  intros Q W Ht. destruct (queued_ok _ _ Q) as (_ & tb & trx' & _ & _ & Ht' & Hin). simplify_eq. assert (Hok := ti_trx _ _ _ _ Hinv _ _ Ht).
  assert (E : tt_wait_lock trx = Some id) by (eapply to_waits; [done..|apply Q|done]). split; [done|]. eapply to_active; [done|]. by rewrite E.
Qed.

End inv.

(** What a transaction refers to. *)
Definition refers (trx : tab_trx_t) (id : nat) : Prop := id ∈ tt_locks trx ∨ (tt_state trx = TRX_STATE_ACTIVE ∧ id ∈ entries (table_locks trx)).

(** A transaction whose locks stay as they are. *)
Lemma trx_frame j c e s s' t trx :
  tab_trx_ok j c e s t trx →
  (∀ id l, refers trx id → heap s !! id = Some l → tl_trx l = t → heap s' !! id = Some l) →
  (∀ id l, queued s id l → id ∈ tt_locks trx → tl_trx l = t → queued s' id l) → (∀ id, is_struct s' id → is_struct s id) → tab_trx_ok j c e s' t trx.
Proof.
  intros Hok Hh Hq Hst.
  assert (Hl : ∀ id, id ∈ tt_locks trx → ∃ l, heap s !! id = Some l ∧ heap s' !! id = Some l).
  { intros id Hid. destruct (to_locks _ _ _ _ _ _ Hok id Hid) as (l & [Hl _] & Ht). exists l. split; [done|]. apply Hh; [by left|done..]. }
  split.
  - apply Hok.
  - intros id Hid. destruct (to_locks _ _ _ _ _ _ Hok id Hid) as (l & Q & Ht). exists l. split; [by apply Hq|done].
  - intros id Hw Hc. destruct (to_wait _ _ _ _ _ _ Hok id Hw Hc) as [Hid (l & Hlk & Hwt)]. split; [done|]. destruct (Hl id Hid) as (l' & H1 & H2). exists l'. by simplify_eq.
  - intros id l Hid Hlk Hwt. destruct (Hl id Hid) as (l' & H1 & H2). simplify_eq. by eapply to_waits.
  - apply Hok.
  - apply Hok.
  - apply Hok.
  - intros id. rewrite (to_auto _ _ _ _ _ _ Hok). split; intros [Hid (l & Hlk & Ha)]; (split; [done|]); destruct (Hl id Hid) as (l' & H1 & H2); simplify_eq; by exists l.
  - apply Hok.
  - apply Hok.
  - intros Hact. destruct (to_tables _ _ _ _ _ _ Hok Hact) as (H1 & H2 & H3). split_and!; [done..|]. intros id Hid. destruct (H3 id Hid) as (l & Hlk & Ht & Hk & He).
    exists l. split_and!; [|done..|by intros ?%Hst%He]. apply Hh; [right; done|done..].
  - apply Hok.
Qed.
