(* ===== verification/InnoTableStep.v ===== *)
(** Granting, removing and creating table locks of InnoDB (project 4) keep the invariant,
    and no assertion fails. *)
From stdpp Require Import functions base tactics numbers option list list_numbers gmap sets relations sorting.
From Stdlib Require Import ZArith Lia.
From S2P Require Import Prelude InnoMode InnoSys InnoRequest InnoTable InnoTableInv.

Lemma alter_Some {A} (m : gmap nat A) k f x : m !! k = Some x → alter f k m = <[k := f x]> m.
Proof. intros H. rewrite <-(insert_id m k x H) at 1. by rewrite alter_insert_eq. Qed.

Lemma the_lock_Ok {B} id l (f : tab_lock_t → TS B) s : heap s !! id = Some l → (the_lock id ≫= f) s = f l s.
Proof. intros H. unfold the_lock, gets, deref, mbind, M_bind. by rewrite H. Qed.

Lemma the_table_Ok {B} n tb (f : dict_table_t → TS B) s : tables s !! n = Some tb → (the_table n ≫= f) s = f tb s.
Proof. intros H. unfold the_table, gets, deref, mbind, M_bind. by rewrite H. Qed.

Lemma the_trx_Ok {B} t trx (f : tab_trx_t → TS B) s : tab_trxs s !! t = Some trx → (the_trx t ≫= f) s = f trx s.
Proof. intros H. unfold the_trx, gets, deref, mbind, M_bind. by rewrite H. Qed.

(** ** Granting *)

Definition clear_wait (l : tab_lock_t) : tab_lock_t := set_tl_type_mode (Z.ldiff (tl_type_mode l) LOCK_WAIT) l.

Lemma clear_wait_mode l : tl_mode (clear_wait l) = tl_mode l.
Proof. unfold tl_mode, clear_wait. cbn. by rewrite mode_ldiff. Qed.

Lemma clear_wait_wait l : tl_wait (clear_wait l) = false.
Proof. unfold tl_wait, clear_wait. cbn [tl_type_mode set_tl_type_mode]. change LOCK_WAIT with (2 ^ 8)%Z. rewrite has_flag_ldiff by done. apply andb_false_r. Qed.

Lemma clear_wait_ok l : tl_ok l → tl_ok (clear_wait l).
Proof.
  intros [H1 H2]. split; [by rewrite clear_wait_mode|]. rewrite <-H2. unfold clear_wait. cbn [tl_type_mode set_tl_type_mode].
  apply Z.bits_inj'. intros n Hn. rewrite !Z.land_spec, Z.ldiff_spec. destruct (Z.testbit LOCK_TYPE_MASK n) eqn:Hb; [|by rewrite !andb_false_r].
  assert (Z.testbit LOCK_WAIT n = false) as ->; [|by rewrite andb_true_r].
  apply not_true_is_false. intros Hw. assert (Hz : Z.testbit (Z.land LOCK_TYPE_MASK LOCK_WAIT) n = true) by (by rewrite Z.land_spec, Hb, Hw).
  change (Z.land LOCK_TYPE_MASK LOCK_WAIT) with 0%Z in Hz. by rewrite Z.bits_0 in Hz.
Qed.

Lemma clear_wait_conflict a b : tl_has_to_wait (clear_wait a) b = tl_has_to_wait a b.
Proof. unfold tl_has_to_wait. by rewrite clear_wait_mode. Qed.

Lemma conflict_clear_wait a b : tl_has_to_wait a (clear_wait b) = tl_has_to_wait a b.
Proof. unfold tl_has_to_wait. by rewrite clear_wait_mode. Qed.

Lemma clear_wait_autoinc l : is_autoinc (clear_wait l) = is_autoinc l.
Proof. unfold is_autoinc. by rewrite clear_wait_mode. Qed.

Definition grant_trx (id : nat) (l : tab_lock_t) (trx : tab_trx_t) : tab_trx_t :=
  mk_tab_trx (tt_state trx) TRX_QUE_RUNNING None (tt_victim trx) (tt_locks trx) (table_locks trx)
    (if is_autoinc l then autoinc_locks trx ++ [Some id] else autoinc_locks trx)
    (match tt_que_state trx with TRX_QUE_LOCK_WAIT => thr_run (tt_thr trx) | TRX_QUE_RUNNING => tt_thr trx end) (tt_work trx).

Definition grant_state (s : tab_sys_t) (id : nat) (l : tab_lock_t) (tb : dict_table_t) (trx : tab_trx_t) : tab_sys_t :=
  mk_tab_sys (<[id := clear_wait l]> (heap s))
    (<[tl_table l := if is_autoinc l then set_autoinc_trx (Some (tl_trx l)) tb else tb]> (tables s))
    (<[tl_trx l := grant_trx id l trx]> (tab_trxs s)).

Lemma tab_end_lock_wait_run s t trx :
  tab_trxs s !! t = Some trx → tt_que_state trx = TRX_QUE_LOCK_WAIT → tt_thr_waits trx →
  tab_end_lock_wait t s = Ok (tt, mk_tab_sys (heap s) (tables s) (<[t := set_tt_thr (thr_run (tt_thr trx)) (set_tt_que_state TRX_QUE_RUNNING trx)]> (tab_trxs s))).
Proof.
  intros Ht Hq [Hw Hs]; [done|]. unfold tab_end_lock_wait. erewrite the_trx_Ok by done. rewrite Hw. erewrite deref_Some by done.
  rewrite assert_true by (by rewrite Hs). unfold modify, update_tab_trx. by rewrite (alter_Some _ _ _ _ Ht).
Qed.

Lemma tab_lock_grant_run s id l tb trx :
  heap s !! id = Some l → tables s !! tl_table l = Some tb → tab_trxs s !! tl_trx l = Some trx → (is_autoinc l = true → autoinc_trx tb ≠ Some (tl_trx l)) → tt_thr_waits trx →
  tab_lock_grant id s = Ok (tt, grant_state s id l tb trx).
Proof.
  intros Hl Htb Ht Ha Hthr. unfold tab_lock_grant. erewrite bind_Ok.
  2:{ unfold tab_reset_lock_and_trx_wait. erewrite the_lock_Ok by done. erewrite bind_Ok by done. reflexivity. }
  unfold update_heap, update_tab_trx. cbn [heap tables tab_trxs]. rewrite (alter_Some _ _ _ _ Hl), (alter_Some _ _ _ _ Ht).
  erewrite the_lock_Ok by apply lookup_insert_eq. fold (clear_wait l). cbn [tl_trx set_tl_type_mode]. rewrite clear_wait_autoinc.
  destruct (is_autoinc l) eqn:Hai.
  - erewrite bind_Ok.
    2:{ erewrite the_table_Ok by exact Htb. rewrite decide_False by auto. erewrite bind_Ok by done. reflexivity. }
    unfold update_table, update_tab_trx. cbn [heap tables tab_trxs clear_wait tl_table tl_trx set_tl_type_mode]. rewrite (alter_Some _ _ _ _ Htb), alter_insert_eq.
    erewrite the_trx_Ok by apply lookup_insert_eq. unfold grant_state, grant_trx. rewrite Hai. cbn.
    destruct trx as [st q w v lk tls als thr wk]; cbn. destruct q; [done|]. rewrite decide_True by done.
    erewrite tab_end_lock_wait_run by (apply lookup_insert_eq || exact Hthr || done). cbn. by rewrite insert_insert_eq.
  - erewrite bind_Ok by done. erewrite the_trx_Ok by apply lookup_insert_eq. unfold grant_state, grant_trx. rewrite Hai, (insert_id (tables s)) by done. cbn.
    destruct trx as [st q w v lk tls als thr wk]; cbn. destruct q; [done|]. rewrite decide_True by done.
    erewrite tab_end_lock_wait_run by (apply lookup_insert_eq || exact Hthr || done). cbn. by rewrite insert_insert_eq.
Qed.

(** The same locks in the same queues, up to their wait flags. *)
Definition shape (l : tab_lock_t) : nat * nat * Z := (tl_trx l, tl_table l, tl_mode l).

Definition same_queues (s s' : tab_sys_t) : Prop :=
  (∀ n, locks <$> tables s' !! n = locks <$> tables s !! n) ∧ ∀ x, shape <$> heap s' !! x = shape <$> heap s !! x.

Lemma same_queues_sym s s' : same_queues s s' → same_queues s' s.
Proof. intros [H1 H2]. split; intros x; [by rewrite H1|by rewrite H2]. Qed.

Lemma tl_shape_waits a a' b b' : shape a' = shape a → shape b' = shape b → tl_has_to_wait a' b' = tl_has_to_wait a b.
Proof. unfold shape, tl_has_to_wait. intros [= -> _ ->] [= -> _ ->]. done. Qed.

Lemma blocked_shape s s' x l l' : same_queues s s' → shape l' = shape l → blocked s' x l' → blocked s x l.
Proof.
  intros [H1 H2] Hsh (tb' & y & ly' & Htb & Hy & Hly & Hw). assert (Hn : tl_table l' = tl_table l) by (by injection Hsh).
  assert (E1 := H1 (tl_table l')). assert (E2 := H2 y). rewrite Htb, Hn in E1. rewrite Hly in E2.
  symmetry in E1, E2. apply fmap_Some in E1 as (tb & Htb' & E1), E2 as (ly & Hly' & E2).
  exists tb, y, ly. rewrite <-E1. split_and!; [done..|]. rewrite <-Hw. symmetry. by apply tl_shape_waits.
Qed.

Section grant.
  Context (j c e : option nat) (s : tab_sys_t) (id : nat) (l : tab_lock_t) (tb : dict_table_t) (trx : tab_trx_t).
  Context (Hinv : tab_inv j c e s) (Hl : heap s !! id = Some l) (Htb : tables s !! tl_table l = Some tb) (Hid : id ∈ locks tb).
  Context (Ht : tab_trxs s !! tl_trx l = Some trx) (Hw : tl_wait l = true) (Hb : ¬ blocked s id l).
  Notation s' := (grant_state s id l tb trx).

Lemma grant_queued : queued s id l.
Proof. split; [done|]. by exists tb. Qed.

Lemma grant_no_autoinc : is_autoinc l = true → autoinc_trx tb ≠ Some (tl_trx l).
Proof.
  intros Ha [x (lx & Hx & Hlx & Htx & Hax & Hwx)]%(ao_trx _ _ _ (ti_auto _ _ _ _ Hinv _ _ Htb)).
  assert (x = id) as -> by (by eapply ao_one; [eapply ti_auto|..]). simplify_eq. congruence.
Qed.

Lemma grant_same_queues : same_queues s s'.
Proof.
  split.
  - intros n. cbn [tables grant_state]. destruct (decide (n = tl_table l)) as [->|Hn]; [|by rewrite lookup_insert_ne]. rewrite lookup_insert_eq, Htb. cbn. by destruct (is_autoinc l).
  - intros x. cbn [heap grant_state]. destruct (decide (x = id)) as [->|Hx]; [|by rewrite lookup_insert_ne]. rewrite lookup_insert_eq, Hl. cbn. unfold shape. by rewrite clear_wait_mode.
Qed.

(** Locks of the new state. *)
Lemma grant_heap x lx' : heap s' !! x = Some lx' → ∃ lx, heap s !! x = Some lx ∧ shape lx' = shape lx ∧ (tl_wait lx' = true → x ≠ id ∧ lx' = lx) ∧ (x ≠ id → lx' = lx) ∧ (tl_ok lx → tl_ok lx').
Proof.
  cbn [heap grant_state]. destruct (decide (x = id)) as [->|Hx].
  - rewrite lookup_insert_eq. intros [= <-]. exists l. split_and!; [done|unfold shape; by rewrite clear_wait_mode|by rewrite clear_wait_wait|done|apply clear_wait_ok].
  - rewrite lookup_insert_ne by done. intros Hlx. by exists lx'.
Qed.

Lemma grant_table n tb' : tables s' !! n = Some tb' → ∃ tb0, tables s !! n = Some tb0 ∧ locks tb' = locks tb0 ∧ autoinc_lock tb' = autoinc_lock tb0 ∧
  n_waiting_or_granted_auto_inc_locks tb' = n_waiting_or_granted_auto_inc_locks tb0 ∧
  autoinc_trx tb' = if decide (n = tl_table l ∧ is_autoinc l = true) then Some (tl_trx l) else autoinc_trx tb0.
Proof.
  cbn [tables grant_state]. destruct (decide (n = tl_table l)) as [->|Hn].
  - rewrite lookup_insert_eq. intros [= <-]. exists tb. destruct (is_autoinc l).
    + by rewrite decide_True.
    + rewrite decide_False; [done|]. by intros [_ ?].
  - rewrite lookup_insert_ne by done. intros Hlx. exists tb'. rewrite decide_False; [done|]. by intros [? _].
Qed.

Lemma grant_struct x : is_struct s' x → is_struct s x.
Proof. intros (n & tb' & (tb0 & H0 & _ & Ha & _)%grant_table & <-). by exists n, tb0. Qed.

Lemma grant_queued_inv x lx' : queued s' x lx' → ∃ lx, queued s x lx ∧ shape lx' = shape lx ∧ (tl_wait lx' = true → x ≠ id ∧ lx' = lx) ∧ (x ≠ id → lx' = lx).
Proof.
  intros [(lx & H1 & H2 & H3 & H4 & _)%grant_heap (tb' & (tb0 & H0 & Hlk & _)%grant_table & Hx)]. exists lx. split_and!; [|done..]. split; [done|].
  injection H2 as _ Hn _. rewrite <-Hn. exists tb0. by rewrite <-Hlk.
Qed.

Lemma grant_queued_mono x lx : queued s x lx → x ≠ id → queued s' x lx.
Proof.
  intros [Hx (tb0 & Htb0 & Hin)] Hne. split; [cbn [heap grant_state]; by rewrite lookup_insert_ne|]. cbn [tables grant_state].
  destruct (decide (tl_table lx = tl_table l)) as [E|Hn]; [|rewrite lookup_insert_ne by done; by exists tb0].
  rewrite E, lookup_insert_eq. rewrite E in Htb0. simplify_eq. eexists. split; [done|]. by destruct (is_autoinc l).
Qed.

Lemma grant_queued_id : queued s' id (clear_wait l).
Proof.
  split; [apply lookup_insert_eq|]. cbn [tables grant_state clear_wait tl_table set_tl_type_mode]. rewrite lookup_insert_eq. eexists. split; [done|]. by destruct (is_autoinc l).
Qed.

Lemma grant_autoinc_at x : from_option is_autoinc false (heap s' !! x) = from_option is_autoinc false (heap s !! x).
Proof.
  cbn [heap grant_state]. destruct (decide (x = id)) as [->|Hx]; [|by rewrite lookup_insert_ne]. rewrite lookup_insert_eq, Hl. cbn. apply clear_wait_autoinc.
Qed.

(** No AUTO-INC lock of another transaction is granted at the same time. *)
Lemma grant_autoinc_only x lx : is_autoinc l = true → x ∈ locks tb → heap s !! x = Some lx → is_autoinc lx = true → tl_wait lx = false → tl_trx lx = tl_trx l.
Proof.
  intros Ha Hx Hlx Hax Hwx. destruct (decide (tl_trx lx = tl_trx l)) as [|Hne]; [done|]. exfalso.
  destruct (ti_queue _ _ _ _ Hinv _ _ _ Htb Hx) as (l1 & _ & Hl1 & Htb1 & _). simplify_eq.
  destruct (queue_ahead_total x id (locks tb)) as [Hah|Hah]; [done|done|congruence| |].
  - apply Hb. exists tb, x, lx. split_and!; [done..|]. by apply autoinc_conflict.
  - apply (ti_order _ _ _ _ Hinv x lx); [split; [done|]; rewrite Htb1; by exists tb|done|]. exists tb, id, l. rewrite Htb1. split_and!; [done..|]. by apply autoinc_conflict.
Qed.

Lemma grant_auto_trx n tb' tb0 t :
  tables s !! n = Some tb0 → locks tb' = locks tb0 → autoinc_trx tb' = (if decide (n = tl_table l ∧ is_autoinc l = true) then Some (tl_trx l) else autoinc_trx tb0) →
  autoinc_trx tb' = Some t ↔ ∃ id l, id ∈ locks tb' ∧ heap s' !! id = Some l ∧ tl_trx l = t ∧ is_autoinc l = true ∧ tl_wait l = false.
Proof.
  intros H0 Hlk ->. rewrite Hlk. assert (Hok := ti_auto _ _ _ _ Hinv _ _ H0). destruct (decide _) as [[-> Ha]|Hna].
  - simplify_eq. split.
    + intros [= <-]. exists id, (clear_wait l). rewrite clear_wait_autoinc, clear_wait_wait. split_and!; [done|apply lookup_insert_eq|done..].
    + intros (x & lx & Hx & (lx0 & H1 & [= E1 _ E3] & _ & Hne & _)%grant_heap & <- & Hax & Hwx). f_equal. destruct (decide (x = id)) as [->|Hxid]; [congruence|].
      rewrite (Hne Hxid) in *. symmetry. by apply (grant_autoinc_only x).
  - rewrite (ao_trx _ _ _ Hok). split.
    + intros (x & lx & Hx & Hlx & Htx & Hax & Hwx). exists x, lx. split_and!; [done| |done..]. cbn [heap grant_state].
      rewrite lookup_insert_ne; [done|]. intros <-. congruence.
    + intros (x & lx & Hx & (lx0 & H1 & [= E1 _ E3] & _ & Hne & _)%grant_heap & Htx & Hax & Hwx). destruct (decide (x = id)) as [->|Hxid].
      * exfalso. apply Hna. destruct (ti_queue _ _ _ _ Hinv _ _ _ H0 Hx) as (l1 & _ & Hl1 & <- & _). simplify_eq. unfold is_autoinc in *. by rewrite <-E3.
      * rewrite (Hne Hxid) in *. by exists x, lx0.
Qed.

Lemma grant_auto_ok n tb' : tables s' !! n = Some tb' → auto_ok s' n tb'.
Proof.
  intros (tb0 & H0 & Hlk & Hst & Hcnt & Htrx)%grant_table. assert (Hok := ti_auto _ _ _ _ Hinv _ _ H0). split.
  - intros t. by apply (grant_auto_trx n tb' tb0).
  - rewrite Hcnt, (ao_count _ _ _ Hok), Hlk. f_equal. apply list_filter_iff. intros x. by rewrite grant_autoinc_at.
  - rewrite Hlk. intros x1 x2 l1 l2 Hx1 Hx2 (l1' & K1 & [= E1 _ M1] & _)%grant_heap (l2' & K2 & [= E2 _ M2] & _)%grant_heap A1 A2 Htt.
    unfold is_autoinc in *. apply (ao_one _ _ _ Hok x1 x2 l1' l2'); unfold is_autoinc; congruence.
  - rewrite Hst. intros l1 (l1' & K1 & [= E1 E2 E3] & W & Hne & _)%grant_heap. destruct (ao_struct _ _ _ Hok _ K1) as (F1 & F2 & F3).
    unfold is_autoinc in *. split_and!; [congruence..|]. apply not_true_is_false. intros Hwt. destruct (W Hwt) as [_ ->]. congruence.
Qed.

(** The transaction that gets the lock. *)
Lemma grant_trx_ok : tab_trx_ok j c e s' (tl_trx l) (grant_trx id l trx).
Proof.
  assert (Hok := ti_trx _ _ _ _ Hinv _ _ Ht). destruct (queued_ok _ _ _ _ Hinv _ _ grant_queued) as (_ & _ & trx0 & _ & _ & Ht0 & Hin). simplify_eq.
  destruct (tab_waiting_lock _ _ _ _ Hinv _ _ _ grant_queued Hw Ht) as [Hwl Hact].
  assert (Hno : id ∉ entries (autoinc_locks trx)). { intros [_ (l0 & H1 & _ & H2)]%(to_auto _ _ _ _ _ _ Hok). simplify_eq. congruence. }
  assert (Hent : entries (autoinc_locks (grant_trx id l trx)) = entries (autoinc_locks trx) ++ if is_autoinc l then [id] else []).
  { unfold grant_trx. cbn. destruct (is_autoinc l); [by rewrite entries_app|by rewrite app_nil_r]. }
  split; cbn [tt_locks tt_wait_lock tt_que_state tt_state grant_trx table_locks].
  - apply Hok.
  - intros x Hx. destruct (to_locks _ _ _ _ _ _ Hok x Hx) as (lx & Q & Htx). destruct (decide (x = id)) as [->|Hne]; [by exists (clear_wait l); split; [apply grant_queued_id|]|].
    exists lx. split; [by apply grant_queued_mono|done].
  - done.
  - intros x lx Hx (lx0 & H1 & _ & H3 & _)%grant_heap Hwx. destruct (H3 Hwx) as [Hne ->]. assert (tt_wait_lock trx = Some x) by (by eapply to_waits). congruence.
  - intros _. split; [done|]. intros [? ?]. done.
  - done.
  - intros [? ?]. done.
  - intros x. rewrite Hent, elem_of_app, (to_auto _ _ _ _ _ _ Hok). split.
    + intros [[Hx (lx & Hlx & Ha & Hwx)]|Hx].
      * split; [done|]. exists lx. split; [|done]. cbn [heap grant_state]. rewrite lookup_insert_ne; [done|]. intros <-. congruence.
      * destruct (is_autoinc l) eqn:Ha; [|by apply elem_of_nil in Hx]. apply list_elem_of_singleton in Hx as ->. split; [done|]. exists (clear_wait l).
        rewrite clear_wait_autoinc, clear_wait_wait. split; [apply lookup_insert_eq|done].
    + intros [Hx (lx & (lx0 & H1 & [= E1 E2 E3] & _ & Hne & _)%grant_heap & Ha & Hwx)]. destruct (decide (x = id)) as [->|Hxid].
      * right. simplify_eq. unfold is_autoinc in *. rewrite E3 in Ha. rewrite Ha. by left.
      * left. rewrite (Hne Hxid) in *. split; [done|]. by exists lx0.
  - rewrite Hent. apply NoDup_app. split_and!; [apply Hok|..].
    + intros x Hx Hx'. destruct (is_autoinc l); [|by apply elem_of_nil in Hx']. apply list_elem_of_singleton in Hx' as ->. done.
    + destruct (is_autoinc l); [apply NoDup_singleton|constructor].
  - unfold grant_trx. cbn. destruct (is_autoinc l); [|apply Hok]. right. exists id. apply last_snoc.
  - intros _. destruct (to_tables _ _ _ _ _ _ Hok Hact) as (H1 & H2 & H3). split_and!; [done..|]. intros x Hx. destruct (H3 x Hx) as (lx & Hlx & Htx & Hokx & Hst).
    destruct (decide (x = id)) as [->|Hne].
    + simplify_eq. exists (clear_wait l). split_and!; [apply lookup_insert_eq|done|by apply clear_wait_ok|]. intros Hs%grant_struct. auto.
    + exists lx. split_and!; [cbn [heap grant_state]; by rewrite lookup_insert_ne|done..|]. intros Hs%grant_struct. auto.
  - destruct (to_thr _ _ _ _ _ _ Hok) as [Hg _]. split; [cbn; by destruct (tt_que_state trx)|done].
Qed.

Lemma grant_inv : tab_inv j c e s'.
Proof.
  split.
  - intros n tb' (tb0 & H0 & -> & _)%grant_table. by eapply ti_nodup.
  - intros n tb' x (tb0 & H0 & -> & _)%grant_table Hx. destruct (ti_queue _ _ _ _ Hinv _ _ _ H0 Hx) as (lx & tx & Hlx & Hn & Hokx & Htx & Hin).
    assert (Hsome : ∃ lx', heap s' !! x = Some lx').
    { cbn [heap grant_state]. destruct (decide (x = id)) as [->|]; [rewrite lookup_insert_eq|rewrite lookup_insert_ne by done]; by eexists. }
    destruct Hsome as [lx' Hlx']. destruct (grant_heap _ _ Hlx') as (lx0 & H1 & [= E1 E2 E3] & _ & _ & Hk). assert (lx0 = lx) as -> by congruence.
    exists lx'. cbn [tab_trxs grant_state]. rewrite E1. destruct (decide (tl_trx lx = tl_trx l)) as [Heq|Hne].
    + rewrite Heq, lookup_insert_eq. eexists. split_and!; [done|congruence|by apply Hk|done|]. cbn. destruct (queued_ok _ _ _ _ Hinv _ _ grant_queued) as (_ & _ & trx0 & _ & _ & Ht0 & _). congruence.
    + rewrite lookup_insert_ne by done. exists tx. split_and!; [done|congruence|by apply Hk|done..].
  - intros x lx' Q Hwx Hbl. destruct (grant_queued_inv _ _ Q) as (lx & Q0 & Hsh & _ & Hne). apply (blocked_shape s s' x lx lx' grant_same_queues Hsh) in Hbl.
    destruct (decide (x = id)) as [->|Hxid]; [destruct Q0 as [? _]; simplify_eq; done|]. rewrite (Hne Hxid) in *. by apply (ti_order _ _ _ _ Hinv x lx).
  - intros t tx. cbn [tab_trxs grant_state]. destruct (decide (t = tl_trx l)) as [->|Hne]; [rewrite lookup_insert_eq; intros [= <-]; apply grant_trx_ok|].
    rewrite lookup_insert_ne by done. intros Htx. assert (Hx : ∀ x lx, heap s !! x = Some lx → tl_trx lx = t → x ≠ id) by (intros x lx Hlx Hlt ->; congruence).
    apply (trx_frame _ _ _ s); [by eapply ti_trx| | |apply grant_struct].
    + intros x lx _ Hlx Hlt. cbn [heap grant_state]. rewrite lookup_insert_ne; [done|]. intros <-. by eapply Hx.
    + intros x lx Q _ Hlt. apply grant_queued_mono; [done|]. destruct Q as [Hlx _]. by eapply Hx.
  - apply grant_auto_ok.
  - intros n1 n2 t1 t2 (t1' & H1 & _ & -> & _)%grant_table (t2' & H2 & _ & -> & _)%grant_table. by eapply ti_struct.
Qed.

End grant.

(** ** How states evolve *)

(** Transactions outside of [T] lose no locks; waiting locks may be granted. *)
Record tab_evolves (T : nat → Prop) (s s' : tab_sys_t) : Prop := mk_tab_evolves {
  te_heap : ∀ x lx, heap s !! x = Some lx → ∃ lx', heap s' !! x = Some lx' ∧ (lx' = lx ∨ lx' = clear_wait lx);
  te_fresh : ∀ x, heap s !! x = None → heap s' !! x = None;
  te_table : ∀ n tb', tables s' !! n = Some tb' → ∃ tb, tables s !! n = Some tb ∧ autoinc_lock tb' = autoinc_lock tb ∧
             ∀ y, y ∈ locks tb' → y ∈ locks tb ∧ ∀ x, x ∈ ahead y (locks tb') → x ∈ ahead y (locks tb);
  te_tables : ∀ n, is_Some (tables s !! n) → is_Some (tables s' !! n);
  te_trx : ∀ t trx', tab_trxs s' !! t = Some trx' → ∃ trx, tab_trxs s !! t = Some trx ∧ tt_state trx' = tt_state trx ∧
           (tt_wait_lock trx' = None ∨ tt_wait_lock trx' = tt_wait_lock trx) ∧ (tt_que_state trx = TRX_QUE_RUNNING → tt_que_state trx' = TRX_QUE_RUNNING) ∧
           (¬ T t → tt_locks trx' = tt_locks trx ∧ table_locks trx' = table_locks trx);
  te_trxs : ∀ t, is_Some (tab_trxs s !! t) → is_Some (tab_trxs s' !! t);
}.

Lemma clear_wait_idem l : clear_wait (clear_wait l) = clear_wait l.
Proof.
  unfold clear_wait, set_tl_type_mode. cbn. f_equal. apply Z.bits_inj'. intros n Hn. rewrite !Z.ldiff_spec.
  by destruct (Z.testbit (tl_type_mode l) n), (Z.testbit LOCK_WAIT n).
Qed.

Lemma tab_evolves_refl T s : tab_evolves T s s.
Proof. split; try done. - intros x lx ?. exists lx. by split; [|left]. - intros n tb ?. by exists tb. - intros t trx ?. exists trx. split_and!; auto. Qed.

Lemma tab_evolves_trans T s1 s2 s3 : tab_evolves T s1 s2 → tab_evolves T s2 s3 → tab_evolves T s1 s3.
Proof.
  intros H1 H2. split.
  - intros x lx Hx. destruct (te_heap _ _ _ H1 x lx Hx) as (l2 & Hl2 & E2). destruct (te_heap _ _ _ H2 x l2 Hl2) as (l3 & Hl3 & E3). exists l3. split; [done|].
    destruct E2 as [-> | ->], E3 as [-> | ->]; auto. right. apply clear_wait_idem.
  - intros x Hx. by apply (te_fresh _ _ _ H2), (te_fresh _ _ _ H1).
  - intros n tb3 H3. destruct (te_table _ _ _ H2 _ _ H3) as (tb2 & Htb2 & E2 & A2). destruct (te_table _ _ _ H1 _ _ Htb2) as (tb1 & Htb1 & E1 & A1).
    exists tb1. split_and!; [done|congruence|]. intros y Hy. destruct (A2 y Hy) as [Hy2 B2]. destruct (A1 y Hy2). auto.
  - intros n Hn. by apply (te_tables _ _ _ H2), (te_tables _ _ _ H1).
  - intros t trx3 H3. destruct (te_trx _ _ _ H2 _ _ H3) as (trx2 & Ht2 & E2 & W2 & Q2 & L2). destruct (te_trx _ _ _ H1 _ _ Ht2) as (trx1 & Ht1 & E1 & W1 & Q1 & L1).
    exists trx1. split_and!; [done|congruence| |auto|].
    + destruct W2 as [|W2]; [by left|]. rewrite W2. done.
    + intros HT. destruct (L2 HT), (L1 HT). split; congruence.
  - intros t Ht. by apply (te_trxs _ _ _ H2), (te_trxs _ _ _ H1).
Qed.

Lemma tab_evolves_weaken (T T' : nat → Prop) s s' : (∀ t, T t → T' t) → tab_evolves T s s' → tab_evolves T' s s'.
Proof.
  intros HT H. split; try apply H. intros t trx' Ht. destruct (te_trx _ _ _ H _ _ Ht) as (trx & ? & ? & ? & ? & L). exists trx. split_and!; [done..|]. auto.
Qed.

Lemma grant_evolves T s id l tb trx :
  heap s !! id = Some l → tables s !! tl_table l = Some tb → tab_trxs s !! tl_trx l = Some trx → tab_evolves T s (grant_state s id l tb trx).
Proof.
  intros Hl Htb Ht. split; cbn [heap tables tab_trxs grant_state].
  - intros x lx Hx. destruct (decide (x = id)) as [->|]; [rewrite lookup_insert_eq|rewrite lookup_insert_ne by done; by exists lx; auto]. simplify_eq. eexists. by split; [|right].
  - intros x Hx. rewrite lookup_insert_ne; [done|]. intros <-. congruence.
  - intros n tb'. destruct (decide (n = tl_table l)) as [->|]; [rewrite lookup_insert_eq|rewrite lookup_insert_ne by done; by exists tb']. intros [= <-]. exists tb. by destruct (is_autoinc l).
  - intros n Hn. destruct (decide (n = tl_table l)) as [->|]; [by rewrite lookup_insert_eq|by rewrite lookup_insert_ne].
  - intros t trx'. destruct (decide (t = tl_trx l)) as [->|]; [rewrite lookup_insert_eq|rewrite lookup_insert_ne by done].
    + intros [= <-]. exists trx. split_and!; [done..|by left|done|done].
    + intros H. exists trx'. split_and!; auto.
  - intros t Hn. destruct (decide (t = tl_trx l)) as [->|]; [by rewrite lookup_insert_eq|by rewrite lookup_insert_ne].
Qed.

(** ** The loop that grants *)

Lemma wait_loop_Ok s q id l :
  (∀ x, x ∈ q → is_Some (heap s !! x)) → id ∈ q →
  ∃ b, table_wait_loop q id l s = Ok (b, s) ∧ (b = true ↔ ∃ x lx, x ∈ ahead id q ∧ heap s !! x = Some lx ∧ tl_has_to_wait l lx = true).
Proof.
  induction q as [|y q IH]; intros Hq Hid; [by apply elem_of_nil in Hid|]. cbn [table_wait_loop ahead].
  destruct (decide (y = id)) as [->|Hy].
  - exists false. split; [done|]. split; [done|]. by intros (x & lx & ?%elem_of_nil & _).
  - destruct (Hq y) as [ly Hly]; [left|]. erewrite the_lock_Ok by done. destruct (tl_has_to_wait l ly) eqn:Hw.
    + exists true. split; [done|]. split; [|done]. intros _. exists y, ly. by split; [left|].
    + apply elem_of_cons in Hid as [->|Hid]; [done|]. destruct IH as (b & Hb & Hiff); [intros x Hx; apply Hq; by right|done|]. exists b. split; [done|]. rewrite Hiff. split.
      * intros (x & lx & Hx & ?). exists x, lx. by split; [right|].
      * intros (x & lx & [->|Hx]%elem_of_cons & Hlx & Hwx); [congruence|]. by exists x, lx.
Qed.

Lemma table_wait_in_queue_Ok j c e s id l :
  tab_inv j c e s → queued s id l → ∃ b, lock_table_has_to_wait_in_queue id s = Ok (b, s) ∧ (b = true ↔ blocked s id l).
Proof.
  intros Hinv [Hl (tb & Htb & Hid)]. destruct (wait_loop_Ok s (locks tb) id l) as (b & Hb & Hiff); [|done|].
  { intros x Hx. destruct (ti_queue _ _ _ _ Hinv _ _ _ Htb Hx) as (lx & _ & -> & _). by eexists. }
  exists b. split; [unfold lock_table_has_to_wait_in_queue; erewrite the_lock_Ok by done; by erewrite the_table_Ok|]. rewrite Hiff. split.
  - intros (x & lx & ? & ? & ?). by exists tb, x, lx.
  - intros (tb' & x & lx & ? & ? & ? & ?). simplify_eq. by exists x, lx.
Qed.

(** A transaction whose waiting lock, if any, cannot be granted. *)
Definition steady (s : tab_sys_t) (trx : tab_trx_t) : Prop := ∀ x lx, tt_wait_lock trx = Some x → queued s x lx → blocked s x lx.

Lemma table_grant_loop_Ok T j c e q s :
  tab_inv j c e s → (∀ x, x ∈ q → ∃ l, queued s x l) → (∀ x l, queued s x l → tl_wait l = true → x ∉ q → blocked s x l) →
  ∃ s', table_grant_loop q s = Ok (tt, s') ∧ tab_inv j c e s' ∧ tab_settled s' ∧ tab_evolves T s s' ∧
    ∀ t trx, tab_trxs s !! t = Some trx → steady s trx → tab_trxs s' !! t = Some trx.
Proof.
  revert s. induction q as [|id q IH]; intros s Hinv Hq Hset.
  { exists s. split_and!; [done..| |apply tab_evolves_refl|done]. intros x l Q W. apply Hset; [done..|apply not_elem_of_nil]. }
  destruct (Hq id) as [l Q]; [left|]. cbn [table_grant_loop]. erewrite the_lock_Ok by apply Q.
  assert (Hskip : tl_wait l = false ∨ blocked s id l → ∃ s', table_grant_loop q s = Ok (tt, s') ∧ tab_inv j c e s' ∧ tab_settled s' ∧ tab_evolves T s s' ∧
    ∀ t trx, tab_trxs s !! t = Some trx → steady s trx → tab_trxs s' !! t = Some trx).
  { intros Hor. apply IH; [done|intros x Hx; apply Hq; by right|]. intros x lx Qx Wx Hx. destruct (decide (x = id)) as [->|Hne].
    - destruct Q as [Hl _], Qx as [Hlx _]. simplify_eq. destruct Hor; [congruence|done].
    - apply Hset; [done..|]. rewrite not_elem_of_cons. done. }
  destruct (tl_wait l) eqn:Hw; [|erewrite bind_Ok by done; apply Hskip; by left].
  destruct (table_wait_in_queue_Ok j c e s id l Hinv Q) as (b & Hb & Hiff). destruct b.
  { erewrite bind_Ok by (erewrite bind_Ok by exact Hb; done). apply Hskip. right. by apply Hiff. }
  assert (Hnb : ¬ blocked s id l) by (intros H; by apply Hiff in H).
  destruct (queued_ok _ _ _ _ Hinv _ _ Q) as (_ & tb & trx & Htb & Hid & Ht & _). assert (Hl : heap s !! id = Some l) by apply Q.
  assert (Hg := grant_inv j c e s id l tb trx Hinv Hl Htb Hid Ht Hw Hnb). set (s1 := grant_state s id l tb trx) in *.
  destruct (IH s1) as (s' & Hrun & Hinv' & Hset' & Hev & Hst); [done| | |].
  - intros x Hx. destruct (Hq x) as [lx Qx]; [by right|]. destruct (decide (x = id)) as [->|Hne].
    + exists (clear_wait l). by apply grant_queued_id.
    + exists lx. by apply grant_queued_mono.
  - intros x lx' Qx Wx Hx. destruct (grant_queued_inv s id l tb trx Hl Htb x lx' Qx) as (lx & Q0 & Hsh & Hn & _). destruct (Hn Wx) as [Hne ->].
    apply (blocked_shape s1 s x lx lx); [apply same_queues_sym; by apply grant_same_queues|done|]. apply Hset; [done..|]. rewrite not_elem_of_cons. done.
  - exists s'. split_and!; [|done|done| |].
    + erewrite bind_Ok; [exact Hrun|]. erewrite bind_Ok by exact Hb. apply tab_lock_grant_run; [done..|by apply (grant_no_autoinc j c e s id)|]. apply (to_thr _ _ _ _ _ _ (ti_trx _ _ _ _ Hinv _ _ Ht)).
    + eapply tab_evolves_trans; [by apply grant_evolves|done].
    + intros t tx Htx Hs. assert (Hne : ∀ x, tt_wait_lock tx = Some x → x ≠ id) by (intros x Hx ->; by apply Hnb, Hs).
      apply Hst.
      * cbn [s1 tab_trxs grant_state]. rewrite lookup_insert_ne; [done|]. intros <-. destruct (tab_waiting_lock _ _ _ _ Hinv _ _ _ Q Hw Htx) as [Hwl _]. by eapply Hne.
      * intros x lx' Hx Qx. destruct (grant_queued_inv s id l tb trx Hl Htb x lx' Qx) as (lx & Q0 & Hsh & _ & Hsame). rewrite (Hsame (Hne x Hx)) in *.
        apply (blocked_shape s1 s x lx lx); [apply same_queues_sym; by apply grant_same_queues|done|]. by apply Hs.
Qed.
