(* ===== verification/InnoTableRemove.v ===== *)
(** Removing table locks of InnoDB (project 4) from their queues and vectors. *)
From stdpp Require Import functions base tactics numbers option list list_numbers gmap sets relations sorting.
From Stdlib Require Import ZArith Lia.
From S2P Require Import Prelude InnoMode InnoSys InnoRequest InnoTable InnoTableInv InnoTableStep.

(** ** What is done *)

Lemma remove_autoinc_run v0 id :
  id ∈ entries v0 → NoDup (entries v0) → last_set v0 →
  ∃ v, entries v = filter (λ x, x ≠ id) (entries v0) ∧ last_set v ∧ (last v0 = Some (Some id) → length v < length v0) ∧
    ∀ s t trx, tab_trxs s !! t = Some trx → autoinc_locks trx = v0 → lock_table_remove_autoinc_lock id t s = Ok (tt, update_tab_trx t (set_autoinc_locks v) s).
Proof.
  intros Hid Hnd [Hnil|(x & w & Hrev)]%last_set_head.
  { apply (f_equal reverse) in Hnil. rewrite reverse_involutive in Hnil. rewrite Hnil in Hid. by apply elem_of_nil in Hid. }
  destruct (decide (Some x = Some id)) as [[= ->]|Hx].
  - exists (lock_table_pop_autoinc_locks v0). split_and!; [by eapply pop_autoinc_spec..| |].
    { intros _. unfold lock_table_pop_autoinc_locks. rewrite length_reverse, Hrev. cbn [tail]. rewrite <-(length_reverse v0), Hrev. cbn [length].
      assert (Hlen : ∀ u, length (pop_gaps u) ≤ length u) by (intros u; induction u as [|[]]; cbn; lia). specialize (Hlen w). lia. }
    intros s t trx Ht Hv. unfold lock_table_remove_autoinc_lock.
    erewrite the_trx_Ok by done. by rewrite Hv, Hrev, decide_True.
  - assert (Hent : entries v0 = reverse (entries w) ++ [x]). { rewrite <-(reverse_involutive v0), Hrev, entries_reverse, entries_cons. apply reverse_cons. }
    rewrite Hent in Hid, Hnd |- *. apply NoDup_app in Hnd as (Hnd & _). rewrite elem_of_app, elem_of_reverse, list_elem_of_singleton in Hid. rewrite reverse_Permutation in Hnd.
    destruct (clear_entry_Some id w Hnd) as (w' & Hc & Hw'); [by destruct Hid as [|[= ->]]|].
    exists (reverse (Some x :: w')). split_and!.
    + rewrite entries_reverse, entries_cons, reverse_cons, Hw', filter_app, filter_cons, decide_True by congruence. rewrite filter_nil. f_equal. by rewrite filter_reverse.
    + rewrite last_set_head, reverse_involutive. right. by eexists _, _.
    + rewrite <-head_reverse, Hrev. intros [= ->]. done.
    + intros s t trx Ht Hv. unfold lock_table_remove_autoinc_lock. erewrite the_trx_Ok by done. rewrite Hv, Hrev, decide_False by done. rewrite assert_true by done. by rewrite Hc.
Qed.

Definition remove_table (id : nat) (l : tab_lock_t) (tb : dict_table_t) : dict_table_t :=
  mk_dict_table (filter (λ x, x ≠ id) (locks tb)) (autoinc_lock tb)
    (if is_autoinc l then pred (n_waiting_or_granted_auto_inc_locks tb) else n_waiting_or_granted_auto_inc_locks tb)
    (if is_autoinc l && bool_decide (autoinc_trx tb = Some (tl_trx l)) then None else autoinc_trx tb).

Definition remove_trx (id : nat) (v : list (option nat)) (trx : tab_trx_t) : tab_trx_t :=
  set_tt_locks (filter (λ x, x ≠ id) (tt_locks trx)) (set_autoinc_locks v trx).

Definition remove_state (s : tab_sys_t) (id : nat) (l : tab_lock_t) (tb : dict_table_t) (trx : tab_trx_t) (v : list (option nat)) : tab_sys_t :=
  mk_tab_sys (heap s) (<[tl_table l := remove_table id l tb]> (tables s)) (<[tl_trx l := remove_trx id v trx]> (tab_trxs s)).

Section run.
  Context (s : tab_sys_t) (id : nat) (l : tab_lock_t) (tb : dict_table_t) (trx : tab_trx_t).
  Context (Hauto : auto_ok s (tl_table l) tb) (Hva : id ∈ entries (autoinc_locks trx) ↔ is_autoinc l = true ∧ tl_wait l = false).
  Context (Hvn : NoDup (entries (autoinc_locks trx))) (Hvl : last_set (autoinc_locks trx)).
  Context (Hl : heap s !! id = Some l) (Htb : tables s !! tl_table l = Some tb) (Hid : id ∈ locks tb).
  Context (Ht : tab_trxs s !! tl_trx l = Some trx) (Hin : id ∈ tt_locks trx).

Lemma remove_autoinc_count : is_autoinc l = true → 0 < n_waiting_or_granted_auto_inc_locks tb.
Proof.
  intros Ha. rewrite (ao_count _ _ _ Hauto). assert (Hf : id ∈ filter (λ x, from_option is_autoinc false (heap s !! x) = true) (locks tb)).
  { apply list_elem_of_filter. rewrite Hl. done. }
  destruct (filter _ _); [by apply elem_of_nil in Hf|cbn; lia].
Qed.

Lemma ut_list_remove_Ok {B} q (f : list nat → TS B) s1 : id ∈ q → (ut_list_remove id q ≫= f) s1 = f (filter (λ x, x ≠ id) q) s1.
Proof. intros H. unfold ut_list_remove. by rewrite decide_True. Qed.

(** The last part. *)
Lemma remove_lists_run s1 tb1 trx1 :
  tables s1 = <[tl_table l := tb1]> (tables s) → tab_trxs s1 = <[tl_trx l := trx1]> (tab_trxs s) → locks tb1 = locks tb → tt_locks trx1 = tt_locks trx →
  (t ← the_trx (tl_trx l); q ← ut_list_remove id (tt_locks t); _ ← modify (update_tab_trx (tl_trx l) (set_tt_locks q));
   tb ← the_table (tl_table l); q ← ut_list_remove id (locks tb); modify (update_table (tl_table l) (set_locks q))) s1 =
  Ok (tt, mk_tab_sys (heap s1) (<[tl_table l := set_locks (filter (λ x, x ≠ id) (locks tb)) tb1]> (tables s))
            (<[tl_trx l := set_tt_locks (filter (λ x, x ≠ id) (tt_locks trx)) trx1]> (tab_trxs s))).
Proof.
  intros E1 E2 E3 E4. erewrite the_trx_Ok by (rewrite E2; apply lookup_insert_eq). rewrite E4, ut_list_remove_Ok by done. erewrite bind_Ok by done. unfold update_tab_trx. erewrite the_table_Ok by (cbn; rewrite E1; apply lookup_insert_eq). rewrite E3, ut_list_remove_Ok by done. unfold modify, update_table. cbn. by rewrite E1, E2, !alter_insert_eq.
Qed.

Lemma remove_vector :
  is_autoinc l = true → ∃ v, entries v = filter (λ x, x ≠ id) (entries (autoinc_locks trx)) ∧ last_set v ∧ (last (autoinc_locks trx) = Some (Some id) → length v < length (autoinc_locks trx)) ∧ ∀ s1, tab_trxs s1 = tab_trxs s →
    (if negb (tl_wait l) && negb (bool_decide (autoinc_locks trx = [])) then lock_table_remove_autoinc_lock id (tl_trx l) else mret tt) s1 =
    Ok (tt, mk_tab_sys (heap s1) (tables s1) (<[tl_trx l := set_autoinc_locks v trx]> (tab_trxs s))).
Proof.
  intros Ha. destruct (tl_wait l) eqn:Hw; cbn [negb andb].
  - assert (Hno : id ∉ entries (autoinc_locks trx)) by (intros [_ H1]%Hva; congruence).
    exists (autoinc_locks trx). split_and!; [symmetry; by apply filter_absent|done| |].
    + intros Hlast%last_Some_elem_of. by apply elem_entries in Hlast.
    + intros s1 E1. rewrite insert_id by (rewrite Ht; by destruct trx). rewrite <-E1. by destruct s1.
  - assert (He : id ∈ entries (autoinc_locks trx)) by (by apply Hva).
    rewrite bool_decide_eq_false_2 by (intros E; rewrite E in He; by apply elem_of_nil in He). cbn [negb].
    destruct (remove_autoinc_run (autoinc_locks trx) id) as (v & Hv1 & Hv2 & Hv4 & Hv3); [done..|]. exists v. split_and!; [done..|].
    intros s1 E1. rewrite (Hv3 s1 (tl_trx l) trx) by (rewrite ?E1; done). unfold update_tab_trx. by rewrite (alter_Some _ _ _ trx), E1 by (by rewrite E1).
Qed.

Lemma remove_low_run :
  ∃ v, lock_table_remove_low id s = Ok (tt, remove_state s id l tb trx v) ∧ entries v = filter (λ x, x ≠ id) (entries (autoinc_locks trx)) ∧ last_set v ∧
    (last (autoinc_locks trx) = Some (Some id) → length v < length (autoinc_locks trx)).
Proof.
  assert (Hcount := remove_autoinc_count). assert (Hvec := remove_vector). unfold lock_table_remove_low. erewrite the_lock_Ok by done. cbn zeta. destruct (is_autoinc l) eqn:Ha.
  2:{ assert (Hno : id ∉ entries (autoinc_locks trx)) by (intros [H1 _]%Hva; congruence).
      exists (autoinc_locks trx). split_and!; [|symmetry; by apply filter_absent|done|intros Hlast%last_Some_elem_of; by apply elem_entries in Hlast].
      erewrite bind_Ok by done. rewrite (remove_lists_run s tb trx) by (rewrite ?insert_id; done). unfold remove_state, remove_table, remove_trx. rewrite Ha. by destruct tb, trx. }
  assert (Hpos := Hcount eq_refl). destruct (Hvec eq_refl) as (v & Hv1 & Hv2 & Hv4 & Hv3). exists v. split; [|done].
  set (tb1 := set_autoinc_trx (if bool_decide (autoinc_trx tb = Some (tl_trx l)) then None else autoinc_trx tb) tb).
  set (s1 := mk_tab_sys (heap s) (<[tl_table l := tb1]> (tables s)) (tab_trxs s)).
  erewrite bind_Ok.
  2:{ erewrite the_table_Ok by done. erewrite (bind_Ok _ _ s tt s1).
      2:{ unfold s1, tb1. destruct (decide (autoinc_trx tb = Some (tl_trx l))) as [E|E]; [rewrite bool_decide_eq_true_2 by done|rewrite bool_decide_eq_false_2 by done].
          - unfold modify, update_table. by rewrite (alter_Some _ _ _ tb).
          - rewrite insert_id; [by destruct s|]. rewrite Htb. by destruct tb. }
      erewrite the_trx_Ok by exact Ht. erewrite bind_Ok by (by apply Hv3). erewrite the_table_Ok by apply lookup_insert_eq.
      rewrite assert_true by (apply Nat.ltb_lt; exact Hpos). reflexivity. }
  unfold update_table. cbn [heap tables tab_trxs]. unfold s1 at 2. cbn [tables]. rewrite alter_insert_eq.
  erewrite remove_lists_run; [|done..]. cbn [heap]. unfold remove_state, remove_table, remove_trx, s1, tb1. rewrite Ha. by destruct tb, trx.
Qed.

End run.

Lemma lock_table_remove_low_run j c e s id l tb trx :
  tab_inv j c e s → heap s !! id = Some l → tables s !! tl_table l = Some tb → id ∈ locks tb → tab_trxs s !! tl_trx l = Some trx → id ∈ tt_locks trx →
  ∃ v, lock_table_remove_low id s = Ok (tt, remove_state s id l tb trx v) ∧ entries v = filter (λ x, x ≠ id) (entries (autoinc_locks trx)) ∧ last_set v ∧
    (last (autoinc_locks trx) = Some (Some id) → length v < length (autoinc_locks trx)).
Proof.
  intros Hinv Hl Htb Hid Ht Hin. assert (Hok := ti_trx _ _ _ _ Hinv _ _ Ht). apply remove_low_run; try done; [exact (ti_auto _ _ _ _ Hinv _ _ Htb)| |apply Hok|apply Hok].
  rewrite (to_auto _ _ _ _ _ _ Hok). split; [intros (_ & l0 & H0 & ?); by simplify_eq|]. intros ?. split; [done|]. by exists l.
Qed.

(** ** What it leaves *)

Lemma length_filter_remove (P : nat → Prop) `{!∀ x, Decision (P x)} (q : list nat) id :
  NoDup q → id ∈ q → length (filter P (filter (λ x, x ≠ id) q)) = if decide (P id) then pred (length (filter P q)) else length (filter P q).
Proof.
  induction q as [|x q IH]; intros Hnd Hin; [by apply elem_of_nil in Hin|]. apply NoDup_cons in Hnd as [Hx Hnd]. destruct (decide (x = id)) as [->|Hne].
  - rewrite filter_cons, decide_False, filter_absent by (done || intros Hf; by apply Hf). rewrite (filter_cons P). destruct (decide (P id)); done.
  - apply elem_of_cons in Hin as [->|Hin]; [done|]. rewrite filter_cons, decide_True by done. rewrite !(filter_cons P). specialize (IH Hnd Hin).
    destruct (decide (P x)); cbn [length]; rewrite IH; destruct (decide (P id)); [|done..].
    assert (0 < length (filter P q)); [|lia]. destruct (filter P q) eqn:E; [|cbn; lia]. assert (Hf : id ∈ filter P q) by (by apply list_elem_of_filter). rewrite E in Hf. by apply elem_of_nil in Hf.
Qed.

Section remove.
  Context (j : option nat) (s : tab_sys_t) (id : nat) (l : tab_lock_t) (tb : dict_table_t) (trx : tab_trx_t) (v : list (option nat)).
  Context (Hinv : tab_inv j None None s) (Hl : heap s !! id = Some l) (Htb : tables s !! tl_table l = Some tb) (Hid : id ∈ locks tb).
  Context (Ht : tab_trxs s !! tl_trx l = Some trx) (Hin : id ∈ tt_locks trx).
  Context (Hv : entries v = filter (λ x, x ≠ id) (entries (autoinc_locks trx))) (Hlast : last_set v).
  Notation s' := (remove_state s id l tb trx v).
  Notation c' := (if tl_wait l then Some (tl_trx l) else None).

Lemma removed_table n tb' : tables s' !! n = Some tb' → ∃ tb0, tables s !! n = Some tb0 ∧ autoinc_lock tb' = autoinc_lock tb0 ∧ locks tb' = filter (λ x, x ≠ id) (locks tb0).
Proof.
  cbn [tables remove_state]. destruct (decide (n = tl_table l)) as [->|Hn].
  - rewrite lookup_insert_eq. intros [= <-]. by exists tb.
  - rewrite lookup_insert_ne by done. intros Htb'. exists tb'. split_and!; [done..|]. symmetry. apply filter_absent. intros Hx.
    destruct (ti_queue _ _ _ _ Hinv _ _ _ Htb' Hx) as (l0 & _ & Hl0 & <- & _). simplify_eq.
Qed.

Lemma removed_tables n tb0 : tables s !! n = Some tb0 → ∃ tb', tables s' !! n = Some tb' ∧ locks tb' = filter (λ x, x ≠ id) (locks tb0).
Proof.
  intros H0. assert (is_Some (tables s' !! n)) as [tb' Htb'].
  { cbn [tables remove_state]. destruct (decide (n = tl_table l)) as [->|]; [by rewrite lookup_insert_eq|by rewrite lookup_insert_ne]. }
  exists tb'. split; [done|]. destruct (removed_table _ _ Htb') as (tb1 & H1 & _ & Hq). by simplify_eq.
Qed.

Lemma removed_queued x lx : queued s' x lx ↔ queued s x lx ∧ x ≠ id.
Proof.
  split.
  - intros [Hlx (tb' & (tb0 & H0 & _ & Hq)%removed_table & Hx)]. rewrite Hq, list_elem_of_filter in Hx. destruct Hx as [Hne Hx]. split; [|done]. split; [done|]. by exists tb0.
  - intros [[Hlx (tb0 & H0 & Hx)] Hne]. split; [done|]. destruct (removed_tables _ _ H0) as (tb' & H1 & Hq). exists tb'. split; [done|]. rewrite Hq. by apply list_elem_of_filter.
Qed.

Lemma removed_blocked x lx : x ≠ id → blocked s' x lx → blocked s x lx.
Proof.
  intros Hne (tb' & y & ly & (tb0 & H0 & _ & Hq)%removed_table & Hy & Hly & Hw). exists tb0, y, ly. rewrite Hq, queue_ahead_filter, list_elem_of_filter in Hy by done. by destruct Hy.
Qed.

(** A lock that the removed one is not ahead of stays blocked. *)
Lemma removed_blocked_keep x lx : x ≠ id → (∀ tb0, tables s !! tl_table lx = Some tb0 → id ∉ ahead x (locks tb0)) → blocked s x lx → blocked s' x lx.
Proof.
  intros Hne Hah (tb0 & y & ly & H0 & Hy & Hly & Hw). destruct (removed_tables _ _ H0) as (tb' & H1 & Hq). exists tb', y, ly. split_and!; [done| |done..].
  rewrite Hq, queue_ahead_filter, list_elem_of_filter by done. split; [|done]. intros ->. by apply (Hah tb0).
Qed.

(** The locks that are not behind the removed one stay blocked. *)
Lemma removed_still_blocked x lx : queued s x lx → x ≠ id → x ∉ behind id (locks tb) → blocked s x lx → blocked s' x lx.
Proof.
  intros [Hx (tbx & Htbx & Hinx)] Hne Hnb. apply removed_blocked_keep; [done|]. intros tb0 H0 Hy. assert (tb0 = tbx) as -> by congruence.
  destruct (ahead_elem _ _ _ Hy) as [Hyq _]. destruct (ti_queue _ _ _ _ Hinv _ _ _ H0 Hyq) as (l0 & _ & Hl0 & Hn & _).
  assert (tbx = tb) as -> by congruence. apply Hnb. apply ahead_behind; [by eapply ti_nodup|done|done].
Qed.

Lemma removed_struct x : is_struct s' x → is_struct s x.
Proof. intros (n & tb' & (tb0 & H0 & Ha & _)%removed_table & <-). by exists n, tb0. Qed.

Lemma removed_auto_trx n tb' tb0 t :
  tables s' !! n = Some tb' → tables s !! n = Some tb0 →
  autoinc_trx tb' = Some t ↔ ∃ x lx, x ∈ filter (λ x, x ≠ id) (locks tb0) ∧ heap s !! x = Some lx ∧ tl_trx lx = t ∧ is_autoinc lx = true ∧ tl_wait lx = false.
Proof.
  intros H1 H0. assert (Hok := ti_auto _ _ _ _ Hinv _ _ H0). setoid_rewrite list_elem_of_filter.
  assert (Hsame : autoinc_trx tb' = autoinc_trx tb0 → (∀ lx, id ∈ locks tb0 → heap s !! id = Some lx → is_autoinc lx = true → tl_wait lx = false → False) →
    autoinc_trx tb' = Some t ↔ ∃ x lx, (x ≠ id ∧ x ∈ locks tb0) ∧ heap s !! x = Some lx ∧ tl_trx lx = t ∧ is_autoinc lx = true ∧ tl_wait lx = false).
  { intros -> Hno. rewrite (ao_trx _ _ _ Hok). split; intros (x & lx & Hx & Hlx & Htx & Ha & Hw); exists x, lx; split_and!; try done; [|by apply Hx].
    intros ->. by eapply Hno. }
  cbn [tables remove_state] in H1. destruct (decide (n = tl_table l)) as [->|Hn].
  - rewrite lookup_insert_eq in H1. simplify_eq. cbn [autoinc_trx remove_table] in *. destruct (is_autoinc l) eqn:Ha; [|apply Hsame; [done|intros; congruence]].
    case_bool_decide as E; cbn [andb] in *.
    + split; [done|]. intros (x & lx & [Hne Hx] & Hlx & Htx & Hax & Hwx). exfalso. apply Hne.
      assert (autoinc_trx tb = Some (tl_trx lx)) by (apply (ao_trx _ _ _ Hok); by exists x, lx). eapply (ao_one _ _ _ Hok x id lx l); try done. congruence.
    + apply Hsame; [done|]. intros lx _ Hlx Hax Hwx. simplify_eq. apply E, (ao_trx _ _ _ Hok). by exists id, l.
  - rewrite lookup_insert_ne in H1 by done. apply Hsame; [congruence|]. intros lx Hx Hlx _ _. apply Hn. destruct (ti_queue _ _ _ _ Hinv _ _ _ H0 Hx) as (l0 & _ & Hl0 & <- & _). by simplify_eq.
Qed.

Lemma removed_auto_ok n tb' : tables s' !! n = Some tb' → auto_ok s' n tb'.
Proof.
  intros H1. destruct (removed_table _ _ H1) as (tb0 & H0 & Hst & Hq). assert (Hok := ti_auto _ _ _ _ Hinv _ _ H0). split; cbn [heap remove_state].
  - intros t. rewrite Hq. by apply (removed_auto_trx n).
  - cbn [tables remove_state] in H1. destruct (decide (n = tl_table l)) as [->|Hn].
    + rewrite lookup_insert_eq in H1. simplify_eq. cbn [n_waiting_or_granted_auto_inc_locks locks remove_table].
      rewrite length_filter_remove by (done || by eapply ti_nodup). rewrite Hl, (ao_count _ _ _ Hok). cbn. destruct (is_autoinc l); [by rewrite decide_True|by rewrite decide_False].
    + rewrite lookup_insert_ne in H1 by done. simplify_eq. apply Hok.
  - intros x1 x2 l1 l2. rewrite Hq, !list_elem_of_filter. intros [_ X1] [_ X2]. by apply (ao_one _ _ _ Hok).
  - rewrite Hst. apply Hok.
Qed.

Lemma removed_trx_ok : tab_trx_ok j c' (Some id) s' (tl_trx l) (remove_trx id v trx).
Proof.
  assert (Hok := ti_trx _ _ _ _ Hinv _ _ Ht). split; cbn [tt_locks tt_wait_lock tt_que_state tt_state table_locks autoinc_locks remove_trx set_tt_locks set_autoinc_locks heap remove_state].
  - apply NoDup_filter, Hok.
  - intros x [Hne Hx]%list_elem_of_filter. destruct (to_locks _ _ _ _ _ _ Hok x Hx) as (lx & Q & Htx). exists lx. split; [by apply removed_queued|done].
  - intros x Hx Hc. destruct (tl_wait l) eqn:Hw; [done|]. destruct (to_wait _ _ _ _ _ _ Hok x Hx) as [Hinx (lx & Hlx & Hwx)]; [done|]. split; [|by exists lx].
    apply list_elem_of_filter. split; [|done]. intros ->. congruence.
  - intros x lx [Hne Hx]%list_elem_of_filter. by apply (to_waits _ _ _ _ _ _ Hok).
  - apply Hok.
  - apply Hok.
  - apply Hok.
  - intros x. rewrite Hv, !list_elem_of_filter, (to_auto _ _ _ _ _ _ Hok). tauto.
  - rewrite Hv. apply NoDup_filter, Hok.
  - done.
  - intros Hact. destruct (to_tables _ _ _ _ _ _ Hok Hact) as (H1 & H2 & H3). split_and!; [done|intros x [_ Hx]%list_elem_of_filter; auto|].
    intros x Hx. destruct (H3 x Hx) as (lx & Hlx & Htx & Hokx & Hst). exists lx. split_and!; [done..|]. intros [?|Hxl]%removed_struct%Hst; [done|].
    destruct (decide (x = id)) as [->|Hne]; [by left|]. right. by apply list_elem_of_filter.
  - apply Hok.
Qed.

Lemma removed_inv : tab_inv j c' (Some id) s'.
Proof.
  split.
  - intros n tb' (tb0 & H0 & _ & ->)%removed_table. apply NoDup_filter. by eapply ti_nodup.
  - intros n tb' x (tb0 & H0 & _ & ->)%removed_table [Hne Hx]%list_elem_of_filter. destruct (ti_queue _ _ _ _ Hinv _ _ _ H0 Hx) as (lx & tx & Hlx & Hn & Hokx & Htx & Hinx).
    exists lx. cbn [tab_trxs heap remove_state]. destruct (decide (tl_trx lx = tl_trx l)) as [E|Hd].
    + rewrite E, lookup_insert_eq. eexists. split_and!; [done..|]. cbn. apply list_elem_of_filter. rewrite E in Htx. by simplify_eq.
    + rewrite lookup_insert_ne by done. by exists tx.
  - intros x lx [Q Hne]%removed_queued Hw Hb%removed_blocked; [|done]. by apply (ti_order _ _ _ _ Hinv x lx).
  - intros t tx. cbn [tab_trxs remove_state]. destruct (decide (t = tl_trx l)) as [->|Hne]; [rewrite lookup_insert_eq; intros [= <-]; apply removed_trx_ok|].
    rewrite lookup_insert_ne by done. intros Htx. assert (Hok := ti_trx _ _ _ _ Hinv _ _ Htx).
    assert (Hok' : tab_trx_ok j None None s' t tx).
    { apply (trx_frame _ _ _ s); [done|done| |apply removed_struct]. intros x lx Q Hx Hlt. apply removed_queued. split; [done|]. intros ->. destruct Q as [? _]. congruence. }
    destruct Hok'. split; try done; [..|].
    + intros x Hx _. auto.
    + intros Hact. destruct (to_tables Hact) as (H1 & H2 & H3). split_and!; [done..|]. intros x Hx. destruct (H3 x Hx) as (lx & ? & ? & ? & Hs). exists lx. split_and!; [done..|].
      intros [?|?]%Hs; [done|by right].
  - apply removed_auto_ok.
  - intros n1 n2 t1 t2 (t1' & H1 & -> & _)%removed_table (t2' & H2 & -> & _)%removed_table. by eapply ti_struct.
Qed.

Lemma removed_evolves (T : nat → Prop) : T (tl_trx l) → tab_evolves T s s'.
Proof.
  intros HT. split; cbn [heap tab_trxs remove_state].
  - intros x lx Hx. exists lx. by split; [|left].
  - done.
  - intros n tb' (tb0 & H0 & Ha & Hq)%removed_table. exists tb0. split_and!; [done..|]. intros y. rewrite Hq, list_elem_of_filter. intros [Hne Hy]. split; [done|].
    intros x. rewrite queue_ahead_filter, list_elem_of_filter by done. tauto.
  - intros n [tb0 H0]. destruct (removed_tables _ _ H0) as (tb' & H1 & _). by eexists.
  - intros t tx. destruct (decide (t = tl_trx l)) as [->|Hne]; [rewrite lookup_insert_eq|rewrite lookup_insert_ne by done].
    + intros [= <-]. exists trx. split_and!; [done..|by right|done|done].
    + intros Htx. exists tx. split_and!; auto.
  - intros t Hn. destruct (decide (t = tl_trx l)) as [->|]; [by rewrite lookup_insert_eq|by rewrite lookup_insert_ne].
Qed.

End remove.
