(* ===== verification/InnoTableEnd.v ===== *)
(** Releasing table locks of InnoDB (project 4): [lock_table_dequeue], the end of AUTO-INC
    locks, and cancelled waits. *)
From stdpp Require Import functions base tactics numbers option list list_numbers gmap sets relations sorting.
From Stdlib Require Import ZArith Lia.
From S2P Require Import Prelude InnoMode InnoSys InnoRequest InnoTable InnoTableInv InnoTableStep InnoTableRemove.

(** ** Leaving the queue *)

Lemma removed_own_blocked j s id l tb trx v x lx :
  tab_inv j None None s → heap s !! id = Some l → tables s !! tl_table l = Some tb → x ≠ id → tl_trx lx = tl_trx l → blocked s x lx →
  blocked (remove_state s id l tb trx v) x lx.
Proof.
  intros Hinv Hl Htb Hne Htx (tb0 & y & ly & H0 & Hy & Hly & Hw). destruct (removed_tables j s id l tb trx v Hinv Hl Htb _ _ H0) as (tb' & H1 & Hq).
  exists tb', y, ly. split_and!; [done| |done..]. rewrite Hq, queue_ahead_filter, list_elem_of_filter by done. split; [|done]. intros ->. simplify_eq.
  unfold tl_has_to_wait in Hw. by rewrite Htx, Nat.eqb_refl in Hw.
Qed.

(** In a settled state no transaction has a waiting lock that could be granted. *)
Lemma settled_steady j e s t trx : tab_inv j None e s → tab_settled s → tab_trxs s !! t = Some trx → steady s trx.
Proof.
  intros Hinv Hset Ht x lx Hx Q. apply Hset; [done|]. destruct (to_wait _ _ _ _ _ _ (ti_trx _ _ _ _ Hinv _ _ Ht) x Hx) as [_ (l & Hl & Hw)]; [done|].
  destruct Q as [Hlx _]. congruence.
Qed.

Lemma lock_table_dequeue_Ok (T : nat → Prop) j s id l trx :
  tab_inv j None None s → tab_settled s → queued s id l → tab_trxs s !! tl_trx l = Some trx → T (tl_trx l) →
  ∃ s' v, lock_table_dequeue id s = Ok (tt, s') ∧ tab_inv j (if tl_wait l then Some (tl_trx l) else None) (Some id) s' ∧ tab_settled s' ∧ tab_evolves T s s' ∧
    tab_trxs s' !! tl_trx l = Some (remove_trx id v trx) ∧ entries v = filter (λ x, x ≠ id) (entries (autoinc_locks trx)) ∧
    (last (autoinc_locks trx) = Some (Some id) → length v < length (autoinc_locks trx)).
Proof.
  intros Hinv Hset Q Ht HT. destruct (queued_ok _ _ _ _ Hinv _ _ Q) as ([_ Hty] & tb & trx0 & Htb & Hid & Ht0 & Hin). assert (trx0 = trx) as -> by congruence. assert (Hl : heap s !! id = Some l) by apply Q.
  destruct (lock_table_remove_low_run j None None s id l tb trx Hinv Hl Htb Hid Ht Hin) as (v & Hrun & Hv1 & Hv2 & Hv3).
  assert (Hinv1 := removed_inv j s id l tb trx v Hinv Hl Htb Hid Ht Hv1 Hv2). assert (Hq := removed_queued j s id l tb trx v Hinv Hl Htb).
  set (s1 := remove_state s id l tb trx v) in *.
  destruct (table_grant_loop_Ok T _ _ _ (behind id (locks tb)) s1 Hinv1) as (s' & Hrun' & Hinv' & Hset' & Hev & Hst).
  - intros x Hx. assert (Hxl : x ∈ locks tb) by (eapply elem_of_sublist; [exact Hx|apply behind_sublist]).
    destruct (queued_elem _ _ _ _ Hinv _ _ _ Htb Hxl) as (lx & Qx & _). exists lx. apply Hq. split; [done|]. intros ->.
    assert (Hb : ∀ q, NoDup q → id ∉ behind id q).
    { intros q. induction q as [|y q IH]; cbn [behind]; [intros _; apply not_elem_of_nil|]. intros [Hy Hnd]%NoDup_cons. destruct (decide (y = id)) as [->|]; auto. }
    eapply Hb; [|exact Hx]. exact (ti_nodup _ _ _ _ Hinv _ _ Htb).
  - intros x lx [Qx Hne]%Hq Hw Hx. apply (removed_still_blocked j); try done. by apply Hset.
  - exists s', v. split_and!; try done.
    + unfold lock_table_dequeue. erewrite the_lock_Ok by done. rewrite assert_true by (by rewrite Hty). erewrite the_table_Ok by done. by erewrite bind_Ok.
    + eapply tab_evolves_trans; [by eapply removed_evolves|done].
    + apply Hst; [apply lookup_insert_eq|]. intros x lx Hx [Qx Hne]%Hq. cbn in Hx. destruct (to_wait _ _ _ _ _ _ (ti_trx _ _ _ _ Hinv _ _ Ht) x Hx) as [Hxin _]; [done|].
      destruct (to_locks _ _ _ _ _ _ (ti_trx _ _ _ _ Hinv _ _ Ht) x Hxin) as (lx' & Qx' & Htx). assert (lx' = lx) as -> by (destruct Qx, Qx'; congruence).
      apply (removed_own_blocked j); try done. by apply (settled_steady j None s _ _ Hinv Hset Ht).
Qed.

(** The AUTO-INC lock of a table that has left the vector, or was not there. *)
Lemma forget_struct j c id s :
  tab_inv j c (Some id) s →
  (∀ t trx, tab_trxs s !! t = Some trx → tt_state trx = TRX_STATE_ACTIVE → is_struct s id → id ∉ entries (table_locks trx)) → tab_inv j c None s.
Proof.
  intros Hinv Hno. destruct Hinv as [H1 H2 H3 H4 H5 H6]. split; try done. intros t trx Ht. assert (Hok := H4 t trx Ht).
  destruct Hok as [K1 K2 K3 K4 K5 K6 K7 K8 K9 K10 K11 K12]. split; try done. intros Hact. destruct (K11 Hact) as (L1 & L2 & L3). split_and!; [done..|]. intros x Hx.
  destruct (L3 x Hx) as (l & ? & ? & ? & Hs). exists l. split_and!; [done..|]. intros Hst. destruct (Hs Hst) as [[= ->]|]; [|by right]. by destruct (Hno t trx Ht Hact Hst).
Qed.

(** ** The end of a wait *)

Lemma filter_ext_in (P P' : nat → Prop) `{!∀ x, Decision (P x), !∀ x, Decision (P' x)} (q : list nat) :
  (∀ x, x ∈ q → P x ↔ P' x) → filter P q = filter P' q.
Proof.
  induction q as [|x q IH]; intros Hq; [done|]. rewrite !filter_cons, IH by (intros y Hy; apply Hq; by right). assert (Hx := Hq x ltac:(left)).
  destruct (decide (P x)), (decide (P' x)); tauto.
Qed.

(** The transaction runs, and its thread if it was stopped. *)
Definition tt_resume (trx : tab_trx_t) : tab_trx_t :=
  set_tt_thr (match tt_que_state trx with TRX_QUE_LOCK_WAIT => thr_run (tt_thr trx) | TRX_QUE_RUNNING => tt_thr trx end) (set_tt_que_state TRX_QUE_RUNNING trx).

(** The wait of transaction [t] ends after its lock has left the queue. *)
Section end_wait.
  Context (j : option nat) (s : tab_sys_t) (t : nat) (trx : tab_trx_t) (id : nat) (l : tab_lock_t).
  Context (Hinv : tab_inv j (Some t) None s) (Ht : tab_trxs s !! t = Some trx) (Hwl : tt_wait_lock trx = Some id).
  Context (Hl : heap s !! id = Some l) (Hlt : tl_trx l = t) (Hin : id ∉ tt_locks trx) (Hst : ¬ is_struct s id).

Definition end_wait_state : tab_sys_t :=
  mk_tab_sys (<[id := clear_wait l]> (heap s)) (tables s) (<[t := tt_resume (set_tt_wait_lock None trx)]> (tab_trxs s)).

Lemma end_wait_unqueued n tb : tables s !! n = Some tb → id ∉ locks tb.
Proof. intros Htb Hx. destruct (ti_queue _ _ _ _ Hinv _ _ _ Htb Hx) as (l0 & trx0 & Hl0 & _ & _ & Ht0 & Hin0). congruence. Qed.

Lemma end_wait_heap x : x ≠ id → heap end_wait_state !! x = heap s !! x.
Proof. intros Hx. cbn. by rewrite lookup_insert_ne. Qed.

Lemma end_wait_heap_queued n tb x : tables s !! n = Some tb → x ∈ locks tb → heap end_wait_state !! x = heap s !! x.
Proof. intros Htb Hx. apply end_wait_heap. intros ->. by eapply end_wait_unqueued. Qed.

Lemma end_wait_queued x lx : queued end_wait_state x lx ↔ queued s x lx.
Proof.
  split; intros [Hlx (tb & Htb & Hx)]; (split; [|by exists tb]); [by erewrite <-end_wait_heap_queued|by erewrite end_wait_heap_queued].
Qed.

Lemma end_wait_blocked x lx : blocked end_wait_state x lx → blocked s x lx.
Proof.
  intros (tb & y & ly & Htb & Hy & Hly & Hc). exists tb, y, ly. split_and!; try done. apply ahead_elem in Hy as [Hy _]. by erewrite <-end_wait_heap_queued.
Qed.

Lemma end_wait_still_blocked x lx : blocked s x lx → blocked end_wait_state x lx.
Proof.
  intros (tb & y & ly & Htb & Hy & Hly & Hc). exists tb, y, ly. split_and!; try done. apply ahead_elem in Hy as [Hy _]. by erewrite end_wait_heap_queued.
Qed.

Lemma end_wait_trx_ok : tab_trx_ok j None None end_wait_state t (tt_resume (set_tt_wait_lock None trx)).
Proof.
  destruct (ti_trx _ _ _ _ Hinv _ _ Ht) as [K1 K2 K3 K4 K5 K6 K7 K8 K9 K10 K11 K12].
  assert (Hh : ∀ x, x ∈ tt_locks trx → heap end_wait_state !! x = heap s !! x) by (intros x Hx; apply end_wait_heap; by intros ->).
  split; cbn [tt_locks tt_wait_lock tt_que_state tt_state table_locks autoinc_locks set_tt_que_state set_tt_wait_lock tt_resume set_tt_thr]; try done.
  - intros x Hx. destruct (K2 x Hx) as (lx & ? & ?). exists lx. by rewrite end_wait_queued.
  - intros x lx Hx. rewrite Hh by done. intros Hlx Hwx. assert (tt_wait_lock trx = Some x) by (by eapply K4). congruence.
  - intros x. rewrite K8. split; intros [Hx (lx & Hlx & ?)]; (split; [done|]); exists lx; [by rewrite Hh|by rewrite <-Hh].
  - intros Hact. destruct (K11 Hact) as (L1 & L2 & L3). split_and!; [done..|]. intros x Hx. destruct (L3 x Hx) as (lx & Hlx & Htx & Hokx & Hs).
    destruct (decide (x = id)) as [->|Hxid]; [|exists lx; by rewrite end_wait_heap].
    exists (clear_wait l). simplify_eq. split_and!; [apply lookup_insert_eq|done|by apply clear_wait_ok|done].
  - split; [|done]. cbn. destruct K12 as [Hg _]. by destruct (tt_que_state trx).
Qed.

Lemma end_wait_auto_ok n tb : tables s !! n = Some tb → auto_ok end_wait_state n tb.
Proof.
  intros Htb. destruct (ti_auto _ _ _ _ Hinv _ _ Htb) as [A1 A2 A3 A4]. assert (Hh := end_wait_heap_queued n tb). split.
  - intros u. rewrite A1. split; intros (x & lx & Hx & Hlx & ?); exists x, lx; (split; [done|]); [by rewrite Hh|by rewrite <-Hh].
  - rewrite A2. f_equal. apply filter_ext_in. intros x Hx. by rewrite Hh.
  - intros x1 x2 l1 l2 H1 H2. rewrite !Hh by done. by apply A3.
  - intros l0 Hl0. destruct (decide (autoinc_lock tb = id)) as [<-|Hne]; [|rewrite end_wait_heap in Hl0 by done; by apply A4].
    destruct Hst. by exists n, tb.
Qed.

Lemma end_wait_inv : tab_inv j None None end_wait_state.
Proof.
  split.
  - apply Hinv.
  - intros n tb x Htb Hx. destruct (ti_queue _ _ _ _ Hinv _ _ _ Htb Hx) as (lx & tx & Hlx & Hn & Hok & Htx & Hinx). exists lx.
    rewrite (end_wait_heap_queued n tb) by done. cbn. destruct (decide (tl_trx lx = t)) as [E|]; [|rewrite lookup_insert_ne by done; by exists tx].
    rewrite E, lookup_insert_eq. eexists. split_and!; try done. cbn. congruence.
  - intros x lx Q%end_wait_queued Hwx Hbl%end_wait_blocked. by apply (ti_order _ _ _ _ Hinv x lx).
  - intros u tu. cbn [tab_trxs end_wait_state]. destruct (decide (u = t)) as [->|Hne]; [rewrite lookup_insert_eq; intros [= <-]; apply end_wait_trx_ok|].
    rewrite lookup_insert_ne by done. intros Hu.
    assert (Hok : tab_trx_ok j (Some t) None end_wait_state u tu).
    { apply (trx_frame _ _ _ s); [by eapply ti_trx| |by intros; apply end_wait_queued|done]. intros x lx _ Hlx Hxu. rewrite end_wait_heap; [done|]. intros ->. congruence. }
    destruct Hok as [K1 K2 K3 K4 K5 K6 K7 K8 K9 K10 K11 K12]. split; try done. intros x Hx _. apply K3; [done|congruence].
  - apply end_wait_auto_ok.
  - apply Hinv.
Qed.

Lemma end_wait_settled : tab_settled s → tab_settled end_wait_state.
Proof. intros Hset x lx Q%end_wait_queued Hwx. by apply end_wait_still_blocked, Hset. Qed.

Lemma end_wait_evolves T : tab_evolves T s end_wait_state.
Proof.
  split; cbn [heap tables tab_trxs end_wait_state].
  - intros x lx Hx. destruct (decide (x = id)) as [->|]; [rewrite lookup_insert_eq; simplify_eq; eexists; by split; [|right]|rewrite lookup_insert_ne by done; exists lx; auto].
  - intros x Hx. rewrite lookup_insert_ne; [done|]. intros <-. congruence.
  - intros n tb Htb. exists tb. auto.
  - done.
  - intros u tu. destruct (decide (u = t)) as [->|]; [rewrite lookup_insert_eq|rewrite lookup_insert_ne by done].
    + intros [= <-]. exists trx. split_and!; auto.
    + intros Hu. exists tu. split_and!; auto.
  - intros u Hu. destruct (decide (u = t)) as [->|]; [by rewrite lookup_insert_eq|by rewrite lookup_insert_ne].
Qed.

End end_wait.

(** ** Changes of one transaction *)

Definition set_trx (t : nat) (trx : tab_trx_t) (s : tab_sys_t) : tab_sys_t := mk_tab_sys (heap s) (tables s) (<[t := trx]> (tab_trxs s)).

Lemma set_trx_trx_ok j c e s t trx u tu : tab_trx_ok j c e s u tu → tab_trx_ok j c e (set_trx t trx s) u tu.
Proof. intros Hok. by apply (trx_frame _ _ _ s). Qed.

Lemma set_trx_inv j c e s t trx trx' :
  tab_inv j c e s → tab_trxs s !! t = Some trx → tt_locks trx' = tt_locks trx → tab_trx_ok j c e s t trx' → tab_inv j c e (set_trx t trx' s).
Proof.
  intros Hinv Ht Hlk Hok. split; try apply Hinv.
  - intros n tb x Htb Hx. destruct (ti_queue _ _ _ _ Hinv _ _ _ Htb Hx) as (lx & tx & Hlx & Hn & Hk & Htx & Hinx). exists lx. cbn [tab_trxs set_trx].
    destruct (decide (tl_trx lx = t)) as [E|]; [|rewrite lookup_insert_ne by done; by exists tx]. rewrite E, lookup_insert_eq. exists trx'. split_and!; try done.
    rewrite Hlk. congruence.
  - intros u tu. cbn [tab_trxs set_trx]. destruct (decide (u = t)) as [->|]; [rewrite lookup_insert_eq; intros [= <-]; by apply set_trx_trx_ok|rewrite lookup_insert_ne by done].
    intros Hu. apply set_trx_trx_ok. by apply Hinv.
  - intros n tb Htb. by destruct (ti_auto _ _ _ _ Hinv n tb Htb).
Qed.

Lemma set_trx_settled s t trx : tab_settled s → tab_settled (set_trx t trx s).
Proof. done. Qed.

Lemma set_trx_evolves (T : nat → Prop) s t trx trx' :
  tab_trxs s !! t = Some trx → tt_state trx' = tt_state trx → tt_wait_lock trx' = None ∨ tt_wait_lock trx' = tt_wait_lock trx →
  (tt_que_state trx = TRX_QUE_RUNNING → tt_que_state trx' = TRX_QUE_RUNNING) → (¬ T t → tt_locks trx' = tt_locks trx ∧ table_locks trx' = table_locks trx) →
  tab_evolves T s (set_trx t trx' s).
Proof.
  intros Ht H1 H2 H3 H4. split; cbn [heap tables tab_trxs set_trx].
  - intros x lx Hx. exists lx. auto.
  - done.
  - intros n tb Htb. exists tb. auto.
  - done.
  - intros u tu. destruct (decide (u = t)) as [->|]; [rewrite lookup_insert_eq; intros [= <-]; by exists trx|rewrite lookup_insert_ne by done].
    intros Hu. exists tu. split_and!; auto.
  - intros u Hu. destruct (decide (u = t)) as [->|]; [by rewrite lookup_insert_eq|by rewrite lookup_insert_ne].
Qed.

Lemma update_tab_trx_set s t trx f : tab_trxs s !! t = Some trx → update_tab_trx t f s = set_trx t (f trx) s.
Proof. intros Ht. unfold update_tab_trx, set_trx. by rewrite (alter_Some _ _ _ trx). Qed.

(** ** AUTO-INC locks *)

Lemma remove_entry_Ok s id t w :
  (∀ x, x ∈ entries w → ∃ l, heap s !! x = Some l ∧ tl_trx l = t ∧ tl_ok l) → NoDup (entries w) → id ∈ entries w →
  ∃ w', remove_entry id t w s = Ok (w', s) ∧ entries w' = filter (λ x, x ≠ id) (entries w).
Proof.
  induction w as [|[x|] w IH]; intros Hw Hnd Hid; [by apply elem_of_nil in Hid| |]; rewrite entries_cons in *; cbn [remove_entry].
  - destruct (Hw x) as (l & Hl & <- & [_ Hty]); [left|]. apply NoDup_cons in Hnd as [Hx Hnd]. erewrite the_lock_Ok by done. rewrite assert_true by apply Nat.eqb_refl.
    rewrite assert_true by (unfold tl_is_table; by rewrite Hty). rewrite filter_cons. destruct (decide (x = id)) as [->|Hne].
    + exists (None :: w). rewrite decide_False by (intros H; by apply H). by rewrite filter_absent.
    + apply elem_of_cons in Hid as [->|Hid]; [done|]. destruct IH as (w' & Hrun & Hw'); [intros y Hy; apply Hw; by right|done..|].
      exists (Some x :: w'). rewrite (bind_Ok _ _ _ _ _ Hrun), decide_True by done. by rewrite entries_cons, Hw'.
  - destruct (IH Hw Hnd Hid) as (w' & Hrun & Hw'). exists (None :: w'). by rewrite (bind_Ok _ _ _ _ _ Hrun).
Qed.

Lemma lock_trx_table_locks_remove_run s id l trx :
  heap s !! id = Some l → tab_trxs s !! tl_trx l = Some trx → NoDup (entries (table_locks trx)) → id ∈ entries (table_locks trx) →
  (∀ x, x ∈ entries (table_locks trx) → ∃ lx, heap s !! x = Some lx ∧ tl_trx lx = tl_trx l ∧ tl_ok lx) →
  ∃ v, lock_trx_table_locks_remove id s = Ok (tt, set_trx (tl_trx l) (set_table_locks v trx) s) ∧ entries v = filter (λ x, x ≠ id) (entries (table_locks trx)).
Proof.
  intros Hl Ht L1 Hid L3. destruct (remove_entry_Ok s id (tl_trx l) (reverse (table_locks trx))) as (w & Hrun & Hw).
  { intros x. rewrite entries_reverse, elem_of_reverse. apply L3. }
  { rewrite entries_reverse. by rewrite reverse_Permutation. }
  { by rewrite entries_reverse, elem_of_reverse. }
  exists (reverse w). split.
  - unfold lock_trx_table_locks_remove. erewrite the_lock_Ok by done. erewrite the_trx_Ok by done. erewrite bind_Ok by exact Hrun. unfold modify. by rewrite (update_tab_trx_set _ _ trx).
  - rewrite entries_reverse, Hw, entries_reverse, filter_reverse. apply reverse_involutive.
Qed.

(** The lock has left the queue and leaves the vector. *)
Lemma vector_removed_inv j c s id l trx v :
  tab_inv j c (Some id) s → heap s !! id = Some l → tab_trxs s !! tl_trx l = Some trx → tt_state trx = TRX_STATE_ACTIVE → id ∉ tt_locks trx →
  entries v = filter (λ x, x ≠ id) (entries (table_locks trx)) → tab_inv j c None (set_trx (tl_trx l) (set_table_locks v trx) s).
Proof.
  intros Hinv Hl Ht Hact Hin He. assert (Hok := ti_trx _ _ _ _ Hinv _ _ Ht). destruct (to_tables _ _ _ _ _ _ Hok Hact) as (L1 & L2 & L3). apply (forget_struct _ _ id).
  - apply (set_trx_inv _ _ _ s _ trx); [done..|]. destruct Hok as [K1 K2 K3 K4 K5 K6 K7 K8 K9 K10 K11 K12]. split; try done. intros _. cbn [table_locks set_table_locks tt_locks]. rewrite He.
    split_and!; [by apply NoDup_filter| |].
    + intros x Hx. apply list_elem_of_filter. split; [by intros ->|auto].
    + intros x [Hne Hx]%list_elem_of_filter. destruct (L3 x Hx) as (lx & ? & ? & ? & Hs). by exists lx.
  - intros u tu. cbn [tab_trxs set_trx]. destruct (decide (u = tl_trx l)) as [->|Hne].
    + rewrite lookup_insert_eq. intros [= <-] _ _. cbn [table_locks set_table_locks]. rewrite He, list_elem_of_filter. by intros [? _].
    + rewrite lookup_insert_ne by done. intros Hu Hau _ Hx. destruct (to_tables _ _ _ _ _ _ (ti_trx _ _ _ _ Hinv _ _ Hu) Hau) as (_ & _ & K). destruct (K id Hx) as (lx & ? & ? & _). congruence.
Qed.

Lemma lock_trx_table_locks_remove_Ok j c s id l trx :
  tab_inv j c (Some id) s → heap s !! id = Some l → tab_trxs s !! tl_trx l = Some trx → tt_state trx = TRX_STATE_ACTIVE → id ∈ entries (table_locks trx) → id ∉ tt_locks trx →
  ∃ v, lock_trx_table_locks_remove id s = Ok (tt, set_trx (tl_trx l) (set_table_locks v trx) s) ∧ entries v = filter (λ x, x ≠ id) (entries (table_locks trx)) ∧
    tab_inv j c None (set_trx (tl_trx l) (set_table_locks v trx) s).
Proof.
  intros Hinv Hl Ht Hact Hid Hin. destruct (to_tables _ _ _ _ _ _ (ti_trx _ _ _ _ Hinv _ _ Ht) Hact) as (L1 & _ & L3).
  destruct (lock_trx_table_locks_remove_run s id l trx Hl Ht L1 Hid) as (v & Hrun & He).
  { intros x Hx. destruct (L3 x Hx) as (lx & ? & ? & ? & _). by exists lx. }
  exists v. split_and!; [done..|]. by apply (vector_removed_inv j c s id l trx).
Qed.

(** Whatever the state: the invariant between operations. *)
Definition tab_ok (j : option nat) (s : tab_sys_t) : Prop := tab_inv j None None s ∧ tab_settled s.

Definition is_trx (t : nat) : nat → Prop := λ u, u = t.

(** The vector has no entry for a lock that is gone. *)
Definition tt_tidy (trx : tab_trx_t) : Prop := ∀ x, x ∈ entries (table_locks trx) → x ∈ tt_locks trx.

Lemma release_autoinc_last_Ok j s t trx id :
  tab_ok j s → tab_trxs s !! t = Some trx → tt_state trx = TRX_STATE_ACTIVE → last (autoinc_locks trx) = Some (Some id) →
  ∃ s' trx', lock_release_autoinc_last_lock t s = Ok (tt, s') ∧ tab_ok j s' ∧ tab_evolves (is_trx t) s s' ∧
    tab_trxs s' !! t = Some trx' ∧ length (autoinc_locks trx') < length (autoinc_locks trx) ∧ tt_wait_lock trx' = tt_wait_lock trx ∧ tt_que_state trx' = tt_que_state trx ∧
    tt_state trx' = TRX_STATE_ACTIVE ∧ (tt_tidy trx → tt_tidy trx').
Proof.
  intros [Hinv Hset] Ht Hact Hlast. assert (Hok := ti_trx _ _ _ _ Hinv _ _ Ht).
  assert (He : id ∈ entries (autoinc_locks trx)) by (apply elem_entries; by apply last_Some_elem_of in Hlast).
  apply (to_auto _ _ _ _ _ _ Hok) in He as [Hin (l & Hl & Ha & Hw)]. destruct (to_locks _ _ _ _ _ _ Hok id Hin) as (l0 & Q & Htl). assert (l0 = l) as -> by (destruct Q; congruence). subst t.
  destruct (lock_table_dequeue_Ok (is_trx (tl_trx l)) j s id l trx Hinv Hset Q Ht eq_refl) as (s1 & v & Hrun & Hinv1 & Hset1 & Hev1 & Ht1 & Hv & Hlen). rewrite Hw in Hinv1.
  destruct (te_heap _ _ _ Hev1 _ _ Hl) as (l1 & Hl1 & Hcl). assert (Htr : tl_trx l1 = tl_trx l) by (by destruct Hcl as [-> | ->]).
  destruct (to_tables _ _ _ _ _ _ Hok Hact) as (_ & L2 & _). rewrite <-Htr in Ht1.
  destruct (lock_trx_table_locks_remove_Ok j None s1 id l1 _ Hinv1 Hl1 Ht1) as (w & Hrun2 & Hw2 & Hinv2).
  - done.
  - by apply L2.
  - cbn. rewrite list_elem_of_filter. by intros [? _].
  - rewrite Htr in *. eexists _, _. split; [|split; [split; [exact Hinv2|by apply set_trx_settled]|split; [|split; [apply lookup_insert_eq|]]]].
    + unfold lock_release_autoinc_last_lock. erewrite the_trx_Ok by done. rewrite (deref_Some _ _ _ _ Hlast), (deref_Some _ _ _ _ eq_refl). erewrite the_lock_Ok by done.
      destruct (queued_ok _ _ _ _ Hinv _ _ Q) as ([_ Hty] & _). rewrite assert_true by done. rewrite assert_true by (by rewrite Hty). by erewrite bind_Ok by exact Hrun.
    + eapply tab_evolves_trans; [exact Hev1|]. apply (set_trx_evolves _ _ _ _ _ Ht1); cbn; auto. intros H. by destruct H.
    + split_and!; cbn; auto. intros Htidy x Hx. change (x ∈ entries w) in Hx. rewrite Hw2, list_elem_of_filter in Hx. apply list_elem_of_filter. destruct Hx as [Hne Hx]. split; [exact Hne|exact (Htidy x Hx)].
Qed.

Lemma release_autoinc_loop_Ok j fuel s t trx :
  tab_ok j s → tab_trxs s !! t = Some trx → tt_state trx = TRX_STATE_ACTIVE → length (autoinc_locks trx) ≤ fuel →
  ∃ s' trx', release_autoinc_loop fuel t s = Ok (tt, s') ∧ tab_ok j s' ∧ tab_evolves (is_trx t) s s' ∧ tab_trxs s' !! t = Some trx' ∧
    autoinc_locks trx' = [] ∧ tt_wait_lock trx' = tt_wait_lock trx ∧ tt_que_state trx' = tt_que_state trx ∧ (tt_tidy trx → tt_tidy trx').
Proof.
  revert s trx. induction fuel as [|fuel IH]; intros s trx Hok Ht Hact Hf; cbn [release_autoinc_loop]; erewrite the_trx_Ok by done.
  - destruct (autoinc_locks trx) as [|x v] eqn:E; [|cbn in Hf; lia]. exists s, trx. rewrite decide_True by done. split_and!; try done. apply tab_evolves_refl.
  - destruct (decide (autoinc_locks trx = [])) as [E|Hne]; [exists s, trx; split_and!; try done; apply tab_evolves_refl|].
    destruct (to_auto_last _ _ _ _ _ _ (ti_trx _ _ _ _ (proj1 Hok) _ _ Ht)) as [|[id Hlast]]; [done|].
    destruct (release_autoinc_last_Ok j s t trx id Hok Ht Hact Hlast) as (s1 & trx1 & Hrun & Hok1 & Hev & Ht1 & Hlen & Hw1 & Hq1 & Hact1 & Htd1).
    destruct (IH s1 trx1 Hok1 Ht1 Hact1) as (s2 & trx2 & Hrun2 & Hok2 & Hev2 & Ht2 & Hnil & Hw2 & Hq2 & Htd2); [lia|].
    exists s2, trx2. split_and!; [by erewrite bind_Ok by exact Hrun|done| |done|done|congruence|congruence|auto]. by eapply tab_evolves_trans.
Qed.

(** ** Cancelled waits *)

Lemma evolves_struct T s s' x : tab_evolves T s s' → is_struct s' x → is_struct s x.
Proof. intros Hev (n & tb' & Htb & <-). destruct (te_table _ _ _ Hev _ _ Htb) as (tb & ? & -> & _). by exists n, tb. Qed.

Lemma tab_reset_run s id l trx :
  heap s !! id = Some l → tab_trxs s !! tl_trx l = Some trx →
  tab_reset_lock_and_trx_wait id s = Ok (tt, mk_tab_sys (<[id := clear_wait l]> (heap s)) (tables s) (<[tl_trx l := set_tt_wait_lock None trx]> (tab_trxs s))).
Proof.
  intros Hl Ht. unfold tab_reset_lock_and_trx_wait. erewrite the_lock_Ok by done. erewrite bind_Ok by done. unfold modify, update_heap, update_tab_trx. cbn [heap tables tab_trxs].
  by rewrite (alter_Some _ _ _ l), (alter_Some _ _ _ trx).
Qed.

Lemma wait_lock_queued j s t trx id :
  tab_ok j s → tab_trxs s !! t = Some trx → tt_wait_lock trx = Some id → ∃ l, queued s id l ∧ tl_trx l = t ∧ tl_wait l = true ∧ ¬ is_struct s id.
Proof.
  intros [Hinv _] Ht Hw. assert (Hk := ti_trx _ _ _ _ Hinv _ _ Ht). destruct (to_wait _ _ _ _ _ _ Hk id Hw) as [Hin (l & Hl & Hwt)]; [done|].
  destruct (to_locks _ _ _ _ _ _ Hk id Hin) as (l' & Q & Htl). exists l'. assert (l' = l) as -> by (destruct Q; congruence). split_and!; [done..|].
  intros (n & tb & Htb & Ha). rewrite <-Ha in Hl. destruct (ao_struct _ _ _ (ti_auto _ _ _ _ Hinv _ _ Htb) _ Hl) as (_ & _ & ?). congruence.
Qed.

Lemma tab_cancel_Ok j s t trx id :
  j ≠ Some t → tab_ok j s → tab_trxs s !! t = Some trx → tt_wait_lock trx = Some id →
  ∃ s' trx', tab_cancel_waiting_and_release id s = Ok (tt, s') ∧ tab_ok j s' ∧ tab_evolves (is_trx t) s s' ∧ tab_trxs s' !! t = Some trx' ∧
    tt_wait_lock trx' = None ∧ tt_que_state trx' = TRX_QUE_RUNNING ∧ id ∉ tt_locks trx' ∧ (autoinc_locks trx = [] → tt_locks trx' = filter (λ x, x ≠ id) (tt_locks trx)).
Proof.
  intros Hj Hok Ht Hwl. assert (Hact : tt_state trx = TRX_STATE_ACTIVE) by (eapply to_active; [by eapply ti_trx; [apply Hok|]|by rewrite Hwl]).
  destruct (wait_lock_queued j s t trx id Hok Ht Hwl) as (l & Q & Htl & _).
  destruct (release_autoinc_loop_Ok j (length (autoinc_locks trx)) s t trx Hok Ht Hact) as (s1 & trx1 & Hrun1 & Hok1 & Hev1 & Ht1 & _ & Hw1 & _); [done|].
  assert (Hnil : autoinc_locks trx = [] → trx1 = trx).
  { intros E. rewrite E in Hrun1. cbn [length release_autoinc_loop] in Hrun1. erewrite the_trx_Ok in Hrun1 by done. rewrite decide_True in Hrun1 by done.
    injection Hrun1 as <-. congruence. }
  rewrite Hwl in Hw1. destruct (wait_lock_queued j s1 t trx1 id Hok1 Ht1 Hw1) as (l1 & Q1 & Htl1 & Hwt1 & Hns1). destruct Hok1 as [Hinv1 Hset1].
  destruct (lock_table_dequeue_Ok (is_trx t) j s1 id l1 trx1) as (s2 & v & Hrun2 & Hinv2 & Hset2 & Hev2 & Ht2 & _); [done|done|done|congruence|done|].
  rewrite Hwt1, Htl1 in Hinv2. rewrite Htl1 in Ht2. destruct (te_heap _ _ _ Hev2 id l1 (proj1 Q1)) as (l2 & Hl2 & Hcl). assert (Htl2 : tl_trx l2 = t) by (by destruct Hcl as [-> | ->]).
  assert (Hns : ¬ is_struct s2 id) by (by intros H%(evolves_struct _ _ _ _ Hev2)).
  assert (Hinv3 : tab_inv j (Some t) None s2) by (by eapply forget_struct; [exact Hinv2|]).
  assert (Hni : id ∉ tt_locks (remove_trx id v trx1)) by (cbn; rewrite list_elem_of_filter; by intros [? _]).
  exists (end_wait_state s2 t (remove_trx id v trx1) id l2). eexists. split_and!.
  - unfold tab_cancel_waiting_and_release. erewrite the_lock_Ok by apply Q. rewrite Htl. unfold lock_release_autoinc_locks.
    erewrite bind_Ok by (erewrite the_trx_Ok by exact Ht; exact Hrun1). erewrite bind_Ok by exact Hrun2. erewrite bind_Ok by (apply tab_reset_run; [done|by rewrite Htl2]).
    rewrite Htl2. destruct (ti_trx _ _ _ _ Hinv3 _ _ Ht2) as [_ _ _ _ Hq _ _ _ _ _ _ [_ Hthr]].
    assert (Hq2 : tt_que_state trx1 = TRX_QUE_LOCK_WAIT) by (apply Hq; [done|]; cbn; by rewrite Hw1).
    erewrite tab_end_lock_wait_run by (apply lookup_insert_eq || exact Hq2 || exact Hthr). cbn [heap tables tab_trxs]. rewrite insert_insert_eq.
    unfold end_wait_state, tt_resume. cbn. by rewrite Hq2.
  - split; [by apply end_wait_inv|by eapply end_wait_settled].
  - eapply tab_evolves_trans; [exact Hev1|]. eapply tab_evolves_trans; [exact Hev2|]. by eapply end_wait_evolves.
  - apply lookup_insert_eq.
  - done.
  - done.
  - exact Hni.
  - intros E. by rewrite (Hnil E).
Qed.
