(* ===== verification/InnoTableRequest.v ===== *)
(** Requests for table locks of InnoDB (project 4): creating a lock, resolving deadlocks and
    [lock_table]. *)
From stdpp Require Import functions base tactics numbers option list list_numbers gmap sets relations sorting.
From Stdlib Require Import ZArith Lia.
From S2P Require Import Prelude InnoMode InnoSys InnoRequest InnoTable InnoTableInv InnoTableStep InnoTableRemove InnoTableEnd.

(** ** Creating *)

(** An AUTO-INC lock that does not wait. *)
Definition holds_autoinc (l : tab_lock_t) : bool := is_autoinc l && negb (tl_wait l).

Definition create_table (a : nat) (l : tab_lock_t) (tb : dict_table_t) : dict_table_t :=
  mk_dict_table (locks tb ++ [a]) (autoinc_lock tb)
    (if is_autoinc l then S (n_waiting_or_granted_auto_inc_locks tb) else n_waiting_or_granted_auto_inc_locks tb)
    (if holds_autoinc l then Some (tl_trx l) else autoinc_trx tb).

Definition create_trx (a : nat) (l : tab_lock_t) (trx : tab_trx_t) : tab_trx_t :=
  mk_tab_trx (tt_state trx) (tt_que_state trx) (if tl_wait l then Some a else tt_wait_lock trx) (tt_victim trx)
    (tt_locks trx ++ [a]) (table_locks trx ++ [Some a]) (if holds_autoinc l then autoinc_locks trx ++ [Some a] else autoinc_locks trx)
    (tt_thr trx) (tt_work trx).

Definition create_state (s : tab_sys_t) (a : nat) (l : tab_lock_t) (tb : dict_table_t) (trx : tab_trx_t) : tab_sys_t :=
  mk_tab_sys (<[a := l]> (heap s)) (<[tl_table l := create_table a l tb]> (tables s)) (<[tl_trx l := create_trx a l trx]> (tab_trxs s)).

Definition new_type_mode (type_mode : Z) : Z :=
  let m := Z.lor type_mode LOCK_TABLE in if has_flag type_mode LOCK_WAIT then Z.lor m LOCK_WAIT else m.

(** The struct of a new lock and its address. *)
Definition new_tab_lock (table : nat) (type_mode : Z) (trx : nat) : tab_lock_t := mk_tab_lock (new_type_mode type_mode) trx table.

Definition new_address (tb : dict_table_t) (type_mode : Z) (node : nat) : nat := if (type_mode =? LOCK_AUTO_INC)%Z then autoinc_lock tb else node.

Definition requested (mode type_mode : Z) : Prop := mode ∈ lock_modes ∧ (type_mode = mode ∨ type_mode = Z.lor mode LOCK_WAIT).

Lemma requested_lock mode type_mode table trx :
  requested mode type_mode → let l := new_tab_lock table type_mode trx in
  tl_ok l ∧ tl_mode l = mode ∧ tl_wait l = negb (type_mode =? mode)%Z ∧ has_flag type_mode LOCK_WAIT = tl_wait l ∧
  is_autoinc l = (Z.land type_mode LOCK_MODE_MASK =? LOCK_AUTO_INC)%Z ∧ holds_autoinc l = (type_mode =? LOCK_AUTO_INC)%Z.
Proof. intros [Hm Ht]. unfold lock_modes in Hm. set_unfold. destruct_or!; subst; (split; [split; [unfold lock_modes; set_unfold; auto 10|done]|done]). Qed.

Lemma lock_table_create_run s table tb trx t mode type_mode node :
  tables s !! table = Some tb → tab_trxs s !! t = Some trx → requested mode type_mode →
  lock_table_create table type_mode t node s =
    Ok (new_address tb type_mode node, create_state s (new_address tb type_mode node) (new_tab_lock table type_mode t) tb trx).
Proof.
  intros Htb Ht Hreq. destruct (requested_lock mode type_mode table t Hreq) as (_ & _ & _ & Hw & Ha & Hh). unfold lock_table_create. erewrite the_table_Ok by done.
  unfold create_state, create_table, create_trx. rewrite Hh, <-Hw, Ha. unfold new_address. set (a := if (type_mode =? LOCK_AUTO_INC)%Z then autoinc_lock tb else node).
  unfold new_tab_lock, new_type_mode, tab_set_lock_and_trx_wait.
  destruct (Z.land type_mode LOCK_MODE_MASK =? LOCK_AUTO_INC)%Z, (type_mode =? LOCK_AUTO_INC)%Z, (has_flag type_mode LOCK_WAIT); unfold a;
    unfold modify, mbind, M_bind, mret, M_ret, update_table, update_tab_trx, update_heap; cbn [heap tables tab_trxs tl_trx tl_table];
    rewrite ?(alter_Some (tables s) _ _ tb Htb), ?(alter_Some (tab_trxs s) _ _ trx Ht); repeat rewrite alter_insert_eq; by destruct tb, trx.
Qed.

Section create.
  Context (s : tab_sys_t) (a : nat) (l : tab_lock_t) (tb : dict_table_t) (trx : tab_trx_t).
  Context (Hinv : tab_inv None None None s) (Htb : tables s !! tl_table l = Some tb) (Ht : tab_trxs s !! tl_trx l = Some trx).
  Context (Hact : tt_state trx = TRX_STATE_ACTIVE) (Hwl : tt_wait_lock trx = None) (Hok : tl_ok l).
  Context (Hfree : ∀ u tu, tab_trxs s !! u = Some tu → ¬ refers tu a).
  Context (Hauto : is_autoinc l = true → ∀ x lx, x ∈ locks tb → heap s !! x = Some lx → is_autoinc lx = true → tl_trx lx ≠ tl_trx l).
  Context (Hord : tl_wait l = false → ∀ x lx, x ∈ locks tb → heap s !! x = Some lx → tl_has_to_wait l lx = false).
  Context (Hstr : ∀ n tb', tables s !! n = Some tb' → autoinc_lock tb' = a → n = tl_table l ∧ holds_autoinc l = true).
  Notation s' := (create_state s a l tb trx).
  Notation j' := (if tl_wait l then Some (tl_trx l) else None).

Lemma create_unqueued n tb0 : tables s !! n = Some tb0 → a ∉ locks tb0.
Proof.
  intros H0 Ha. destruct (ti_queue _ _ _ _ Hinv _ _ _ H0 Ha) as (l0 & t0 & _ & _ & _ & Ht0 & Hin). apply (Hfree _ _ Ht0). by left.
Qed.

Lemma create_heap x : x ≠ a → heap s' !! x = heap s !! x.
Proof. intros Hx. cbn. by rewrite lookup_insert_ne. Qed.

Lemma create_heap_queued n tb0 x : tables s !! n = Some tb0 → x ∈ locks tb0 → heap s' !! x = heap s !! x.
Proof. intros H0 Hx. apply create_heap. intros ->. by eapply create_unqueued. Qed.

Lemma created_table n tb' : tables s' !! n = Some tb' →
  ∃ tb0, tables s !! n = Some tb0 ∧ autoinc_lock tb' = autoinc_lock tb0 ∧ locks tb' = locks tb0 ++ (if decide (n = tl_table l) then [a] else []).
Proof.
  cbn [tables create_state]. destruct (decide (n = tl_table l)) as [->|Hn].
  - rewrite lookup_insert_eq. intros [= <-]. by exists tb.
  - rewrite lookup_insert_ne by done. intros H. exists tb'. by rewrite app_nil_r.
Qed.

Lemma created_struct x : is_struct s' x → is_struct s x.
Proof. intros (n & tb' & (tb0 & H0 & -> & _)%created_table & <-). by exists n, tb0. Qed.

Lemma created_queued_inv x lx : queued s' x lx → (x = a ∧ lx = l) ∨ (x ≠ a ∧ queued s x lx).
Proof.
  intros [Hx (tb' & (tb0 & H0 & _ & Hq)%created_table & Hin)]. destruct (decide (x = a)) as [->|Hne].
  - left. cbn in Hx. rewrite lookup_insert_eq in Hx. by simplify_eq.
  - right. rewrite create_heap in Hx by done. split; [done|]. split; [done|]. exists tb0. split; [done|]. rewrite Hq, elem_of_app in Hin.
    destruct Hin as [|Hin]; [done|]. destruct (decide _); [by apply list_elem_of_singleton in Hin|by apply elem_of_nil in Hin].
Qed.

Lemma created_queued_mono x lx : queued s x lx → queued s' x lx.
Proof.
  intros [Hx (tb0 & H0 & Hin)]. split; [by erewrite create_heap_queued|]. cbn [tables create_state]. destruct (decide (tl_table lx = tl_table l)) as [E|Hn].
  - rewrite E, lookup_insert_eq. eexists. split; [done|]. cbn. rewrite E in H0. simplify_eq. apply elem_of_app. by left.
  - rewrite lookup_insert_ne by done. by exists tb0.
Qed.

Lemma created_queued : queued s' a l.
Proof.
  split; [apply lookup_insert_eq|]. cbn [tables create_state]. rewrite lookup_insert_eq. eexists. split; [done|]. cbn. apply elem_of_app. right. by left.
Qed.

Lemma created_blocked_old x lx : queued s x lx → blocked s' x lx ↔ blocked s x lx.
Proof.
  intros [Hx (tbx & Htbx & Hin)]. assert (Hahead : ∀ tb', tables s' !! tl_table lx = Some tb' → ahead x (locks tb') = ahead x (locks tbx)).
  { intros tb' (tb0 & H0 & _ & ->)%created_table. simplify_eq. by rewrite ahead_app. }
  split.
  - intros (tb' & y & ly & H1 & Hy & Hly & Hw). rewrite (Hahead _ H1) in Hy. exists tbx, y, ly. split_and!; [done..| |done].
    destruct (ahead_elem _ _ _ Hy) as [Hyq _]. by erewrite <-create_heap_queued.
  - intros (tb0 & y & ly & H0 & Hy & Hly & Hw). simplify_eq. assert (is_Some (tables s' !! tl_table lx)) as [tb' H1].
    { cbn. destruct (decide (tl_table l = tl_table lx)) as [->|]; [by rewrite lookup_insert_eq|by rewrite lookup_insert_ne]. }
    exists tb', y, ly. rewrite (Hahead _ H1). split_and!; [done..| |done]. destruct (ahead_elem _ _ _ Hy) as [Hyq _]. by erewrite create_heap_queued.
Qed.

Lemma created_blocked_new : blocked s' a l ↔ ∃ x lx, x ∈ locks tb ∧ heap s !! x = Some lx ∧ tl_has_to_wait l lx = true.
Proof.
  assert (Ha : ahead a (locks tb ++ [a]) = locks tb) by (apply ahead_snoc; by eapply create_unqueued). split.
  - intros (tb' & x & lx & H1 & Hx & Hlx & Hw). cbn [tables create_state] in H1. rewrite lookup_insert_eq in H1. simplify_eq. cbn [locks create_table] in Hx. rewrite Ha in Hx.
    exists x, lx. erewrite create_heap_queued in Hlx by done. done.
  - intros (x & lx & Hx & Hlx & Hw). exists (create_table a l tb), x, lx. cbn [locks create_table]. rewrite Ha. split_and!; [apply lookup_insert_eq|done| |done].
    by erewrite create_heap_queued.
Qed.

Lemma created_auto_trx t :
  autoinc_trx (create_table a l tb) = Some t ↔ ∃ x lx, x ∈ locks tb ++ [a] ∧ heap s' !! x = Some lx ∧ tl_trx lx = t ∧ is_autoinc lx = true ∧ tl_wait lx = false.
Proof.
  assert (A := ti_auto _ _ _ _ Hinv _ _ Htb). cbn [autoinc_trx create_table]. assert (Hnew : heap s' !! a = Some l) by apply lookup_insert_eq.
  unfold holds_autoinc. destruct (is_autoinc l && negb (tl_wait l)) eqn:Hh.
  - apply andb_true_iff in Hh as [Ha Hw%negb_true_iff]. split.
    + intros [= <-]. exists a, l. split_and!; [apply elem_of_app; right; by left|done..].
    + intros (x & lx & [Hx|Hx%list_elem_of_singleton]%elem_of_app & Hlx & <- & Hax & Hwx); [|by simplify_eq]. exfalso. erewrite create_heap_queued in Hlx by done.
      assert (Hc := Hord Hw x lx Hx Hlx). rewrite autoinc_conflict in Hc; [done..|]. intros E. by apply (Hauto Ha x lx).
  - rewrite (ao_trx _ _ _ A). split.
    + intros (x & lx & Hx & Hlx & ?). exists x, lx. split_and!; [apply elem_of_app; by left| |tauto..]. by erewrite create_heap_queued.
    + intros (x & lx & [Hx|Hx%list_elem_of_singleton]%elem_of_app & Hlx & Htx & Hax & Hwx).
      * exists x, lx. by erewrite <-create_heap_queued.
      * exfalso. simplify_eq. by rewrite Hax, Hwx in Hh.
Qed.

Lemma created_auto_ok n tb' : tables s' !! n = Some tb' → auto_ok s' n tb'.
Proof.
  intros H1. destruct (created_table _ _ H1) as (tb0 & H0 & Hst & Hq). assert (A := ti_auto _ _ _ _ Hinv _ _ H0). assert (Hh := create_heap_queued n tb0).
  assert (Hnew : heap s' !! a = Some l) by apply lookup_insert_eq. assert (Hstruct : ∀ l0, heap s' !! autoinc_lock tb' = Some l0 → tl_table l0 = n ∧ is_autoinc l0 = true ∧ tl_wait l0 = false).
  { intros l0. rewrite Hst. destruct (decide (autoinc_lock tb0 = a)) as [E|Hne]; [|rewrite create_heap by done; apply A]. rewrite E, Hnew. intros [= <-].
    destruct (Hstr _ _ H0 E) as [-> Hb]. apply andb_true_iff in Hb as [? ?%negb_true_iff]. done. }
  cbn [tables create_state] in H1. destruct (decide (n = tl_table l)) as [->|Hn].
  - rewrite lookup_insert_eq in H1. simplify_eq. split; [apply created_auto_trx| | |done].
    + cbn [locks create_table n_waiting_or_granted_auto_inc_locks]. rewrite filter_app, length_app, (filter_ext_in _ (λ x, from_option is_autoinc false (heap s !! x) = true)).
      2:{ intros x Hx. by rewrite Hh. }
      rewrite <-(ao_count _ _ _ A), filter_cons, Hnew. cbn. destruct (is_autoinc l); [rewrite decide_True by done|rewrite decide_False by done]; cbn; lia.
    + cbn [locks create_table]. intros x1 x2 l1 l2 [X1|X1%list_elem_of_singleton]%elem_of_app [X2|X2%list_elem_of_singleton]%elem_of_app; subst; rewrite ?Hnew, ?Hh by done; intros L1 L2 A1 A2 Htt; simplify_eq.
      * by apply (ao_one _ _ _ A x1 x2 l1 l2).
      * exfalso. by apply (Hauto A2 x1 l1).
      * exfalso. by apply (Hauto A1 x2 l2).
      * done.
  - rewrite lookup_insert_ne in H1 by done. simplify_eq. destruct A as [A1 A2 A3 A4]. split; [| | |done].
    + intros t. rewrite A1. split; intros (x & lx & Hx & Hlx & ?); exists x, lx; (split; [done|]); [by rewrite Hh|by rewrite <-Hh].
    + rewrite A2. f_equal. apply filter_ext_in. intros x Hx. by rewrite Hh.
    + intros x1 x2 l1 l2 X1 X2. rewrite !Hh by done. by apply A3.
Qed.

Lemma create_running : tt_que_state trx = TRX_QUE_RUNNING.
Proof.
  assert (Hq := to_que _ _ _ _ _ _ (ti_trx _ _ _ _ Hinv _ _ Ht)). rewrite Hwl in Hq. destruct (tt_que_state trx); [done|].
  destruct Hq as [Hq _]; [done..|]. by destruct (Hq eq_refl).
Qed.

Lemma created_trx_ok : tab_trx_ok j' None None s' (tl_trx l) (create_trx a l trx).
Proof.
  assert (Ha : a ∉ tt_locks trx) by (intros H; apply (Hfree _ _ Ht); by left). assert (Hta : a ∉ entries (table_locks trx)) by (intros H; apply (Hfree _ _ Ht); by right).
  assert (Hnew : heap s' !! a = Some l) by apply lookup_insert_eq.
  destruct (ti_trx _ _ _ _ Hinv _ _ Ht) as [K1 K2 K3 K4 K5 K6 K7 K8 K9 K10 K11 K12]. destruct (K11 Hact) as (L1 & L2 & L3).
  assert (Hh : ∀ x, x ∈ tt_locks trx → heap s' !! x = heap s !! x) by (intros x Hx; apply create_heap; by intros ->).
  assert (Hent : entries (autoinc_locks (create_trx a l trx)) = entries (autoinc_locks trx) ++ if holds_autoinc l then [a] else []).
  { cbn [autoinc_locks create_trx]. destruct (holds_autoinc l); [by rewrite entries_app|by rewrite app_nil_r]. }
  split; cbn [tt_locks tt_wait_lock tt_que_state tt_state create_trx]; try rewrite Hent.
  - apply NoDup_app. split_and!; [done| |apply NoDup_singleton]. by intros x Hx ->%list_elem_of_singleton.
  - intros x [Hx|Hx%list_elem_of_singleton]%elem_of_app; [|subst; exists l; split; [apply created_queued|done]].
    destruct (K2 x Hx) as (lx & Q & ?). exists lx. split; [by apply created_queued_mono|done].
  - intros x. destruct (tl_wait l) eqn:Hw; [|by rewrite Hwl]. intros [= <-] _. split; [apply elem_of_app; right; by left|]. by exists l.
  - intros x lx [Hx|Hx%list_elem_of_singleton]%elem_of_app; [rewrite Hh by done|subst; rewrite Hnew]; intros Hlx Hwx.
    + assert (tt_wait_lock trx = Some x) by (by eapply K4). congruence.
    + simplify_eq. by rewrite Hwx.
  - intros Hj. destruct (tl_wait l); [done|]. by apply K5.
  - intros _. apply create_running.
  - done.
  - intros x. rewrite !elem_of_app, K8. split.
    + intros [[Hx (lx & Hlx & ?)]|Hx]; [split; [by left|]; exists lx; by rewrite Hh|]. destruct (holds_autoinc l) eqn:Hb; [|by apply elem_of_nil in Hx].
      apply list_elem_of_singleton in Hx as ->. split; [right; by left|]. exists l. apply andb_true_iff in Hb as [? ?%negb_true_iff]. done.
    + intros [[Hx|Hx%list_elem_of_singleton] (lx & Hlx & H1 & H2)]; [left; split; [done|]; exists lx; by rewrite <-Hh|]. subst. right. simplify_eq.
      unfold holds_autoinc. rewrite H1, H2. by left.
  - apply NoDup_app. split_and!; [done| |destruct (holds_autoinc l); [apply NoDup_singleton|constructor]].
    intros x [Hx _]%K8 Hx'. destruct (holds_autoinc l); [|by apply elem_of_nil in Hx']. apply list_elem_of_singleton in Hx' as ->. done.
  - cbn [autoinc_locks create_trx]. destruct (holds_autoinc l); [|done]. right. exists a. apply last_snoc.
  - intros _. cbn [table_locks create_trx]. rewrite entries_app. change (entries [Some a]) with [a]. split_and!.
    + apply NoDup_app. split_and!; [done| |apply NoDup_singleton]. by intros x Hx ->%list_elem_of_singleton.
    + intros x. rewrite !elem_of_app. intros [Hx|Hx]; [left; by apply L2|by right].
    + intros x [Hx|Hx%list_elem_of_singleton]%elem_of_app.
      * destruct (L3 x Hx) as (lx & ? & ? & ? & Hs). exists lx. rewrite create_heap by (by intros ->). split_and!; [done..|].
        intros [?|?]%created_struct%Hs; [done|]. right. apply elem_of_app. by left.
      * subst. exists l. split_and!; [done..|]. intros _. right. apply elem_of_app. right. by left.
  - done.
Qed.

Lemma created_inv : tab_inv j' None None s'.
Proof.
  split.
  - intros n tb' (tb0 & H0 & _ & ->)%created_table. assert (Hnd := ti_nodup _ _ _ _ Hinv _ _ H0). destruct (decide _); [|by rewrite app_nil_r].
    apply NoDup_app. split_and!; [done| |apply NoDup_singleton]. intros x Hx ->%list_elem_of_singleton. by eapply create_unqueued.
  - intros n tb' x H1 Hx. destruct (decide (x = a)) as [->|Hne].
    + assert (n = tl_table l) as ->.
      { destruct (created_table _ _ H1) as (tb0 & H0 & _ & Hq). rewrite Hq, elem_of_app in Hx. destruct Hx as [Hx|Hx]; [by destruct (create_unqueued _ _ H0)|].
        by destruct (decide _); [|apply elem_of_nil in Hx]. }
      exists l. eexists. cbn [heap tab_trxs create_state]. rewrite !lookup_insert_eq. split_and!; [done..|]. cbn. apply elem_of_app. right. by left.
    + destruct (created_table _ _ H1) as (tb0 & H0 & _ & Hq). rewrite Hq, elem_of_app in Hx.
      assert (Hx0 : x ∈ locks tb0) by (destruct Hx as [|Hx]; [done|]; destruct (decide _); [by apply list_elem_of_singleton in Hx|by apply elem_of_nil in Hx]).
      destruct (ti_queue _ _ _ _ Hinv _ _ _ H0 Hx0) as (lx & tx & Hlx & Hn & Hk & Htx & Hinx). exists lx. rewrite create_heap by done. cbn [tab_trxs create_state].
      destruct (decide (tl_trx lx = tl_trx l)) as [E|]; [|rewrite lookup_insert_ne by done; by exists tx]. rewrite E, lookup_insert_eq. eexists. split_and!; [done..|].
      cbn. apply elem_of_app. left. congruence.
  - intros x lx Q Hw. destruct (created_queued_inv _ _ Q) as [[-> ->]|[Hne Q0]].
    + rewrite created_blocked_new. intros (y & ly & Hy & Hly & Hc). rewrite (Hord Hw y ly Hy Hly) in Hc. done.
    + rewrite created_blocked_old by done. by apply (ti_order _ _ _ _ Hinv).
  - intros u tu. cbn [tab_trxs create_state]. destruct (decide (u = tl_trx l)) as [->|Hne]; [rewrite lookup_insert_eq; intros [= <-]; apply created_trx_ok|].
    rewrite lookup_insert_ne by done. intros Hu. assert (Hou : tab_trx_ok None None None s' u tu).
    { apply (trx_frame _ _ _ s); [by eapply ti_trx| |by intros; apply created_queued_mono|apply created_struct].
      intros x lx Hr Hlx _. rewrite create_heap; [done|]. intros ->. by apply (Hfree _ _ Hu). }
    destruct Hou as [K1 K2 K3 K4 K5 K6 K7 K8 K9 K10 K11 K12]. split; try done.
    + intros _. by apply K5.
    + destruct (tl_wait l); [congruence|done].
  - apply created_auto_ok.
  - intros n1 n2 t1 t2 (t1' & H1 & -> & _)%created_table (t2' & H2 & -> & _)%created_table. by eapply ti_struct.
Qed.

Lemma created_settled : tab_settled s → (tl_wait l = true → ∃ x lx, x ∈ locks tb ∧ heap s !! x = Some lx ∧ tl_has_to_wait l lx = true) → tab_settled s'.
Proof.
  intros Hset Hblk x lx Q Hw. destruct (created_queued_inv _ _ Q) as [[-> ->]|[Hne Q0]].
  - apply created_blocked_new. by apply Hblk.
  - apply created_blocked_old; [done|]. by apply Hset.
Qed.

End create.

(** ** Looking for locks *)

Lemma table_has_loop_Ok s table mode w :
  (∀ x, x ∈ entries w → is_Some (heap s !! x)) →
  ∃ b, table_has_loop w table mode s = Ok (b, s) ∧
    (b = true ↔ ∃ x lx, x ∈ entries w ∧ heap s !! x = Some lx ∧ tl_table lx = table ∧ lock_mode_stronger_or_eq (tl_mode lx) mode = true).
Proof.
  induction w as [|[y|] w IH]; intros Hw; cbn [table_has_loop]; rewrite ?entries_cons in *.
  - exists false. split; [done|]. split; [done|]. by intros (x & lx & ?%elem_of_nil & _).
  - destruct (Hw y) as [ly Hly]; [left|]. erewrite the_lock_Ok by done. destruct (_ && _) eqn:E.
    + apply andb_true_iff in E as [E1%Nat.eqb_eq E2]. exists true. split; [done|]. split; [|done]. intros _. exists y, ly. by split; [left|].
    + destruct IH as (b & Hb & Hiff); [intros x Hx; apply Hw; by right|]. exists b. split; [done|]. rewrite Hiff. split.
      * intros (x & lx & Hx & ?). exists x, lx. by split; [right|].
      * intros (x & lx & [->|Hx]%elem_of_cons & Hlx & Ht & Hs); [|by exists x, lx]. simplify_eq. by rewrite Nat.eqb_refl, Hs in E.
  - by apply IH.
Qed.

(** [t] holds, or once asked for, a lock of this strength. *)
Definition has_entry (s : tab_sys_t) (trx : tab_trx_t) (table : nat) (mode : Z) : Prop :=
  ∃ x lx, x ∈ entries (table_locks trx) ∧ heap s !! x = Some lx ∧ tl_table lx = table ∧ lock_mode_stronger_or_eq (tl_mode lx) mode = true.

Lemma lock_table_has_Ok j s t trx table mode :
  tab_inv j None None s → tab_trxs s !! t = Some trx → tt_state trx = TRX_STATE_ACTIVE →
  ∃ b, lock_table_has t table mode s = Ok (b, s) ∧ (b = true ↔ has_entry s trx table mode).
Proof.
  intros Hinv Ht Hact. destruct (to_tables _ _ _ _ _ _ (ti_trx _ _ _ _ Hinv _ _ Ht) Hact) as (_ & _ & L).
  destruct (table_has_loop_Ok s table mode (reverse (table_locks trx))) as (b & Hb & Hiff).
  { intros x. rewrite entries_reverse, elem_of_reverse. intros Hx. destruct (L x Hx) as (lx & -> & _). by eexists. }
  exists b. split; [unfold lock_table_has; by erewrite the_trx_Ok by done|]. rewrite Hiff. unfold has_entry. split; intros (x & lx & Hx & ?); exists x, lx; (split; [|done]); revert Hx;
    by rewrite entries_reverse, elem_of_reverse.
Qed.

Lemma incompatible_loop_Ok s t mode q :
  (∀ x, x ∈ q → is_Some (heap s !! x)) →
  ∃ b, incompatible_loop q t true mode s = Ok (b, s) ∧
    (b = true ↔ ∃ x lx, x ∈ q ∧ heap s !! x = Some lx ∧ tl_trx lx ≠ t ∧ lock_mode_compatible (tl_mode lx) mode = false).
Proof.
  induction q as [|y q IH]; intros Hq; cbn [incompatible_loop].
  - exists false. split; [done|]. split; [done|]. by intros (x & lx & ?%elem_of_nil & _).
  - destruct (Hq y) as [ly Hly]; [left|]. erewrite the_lock_Ok by done. cbn [orb]. rewrite andb_true_r. destruct (_ && _) eqn:E.
    + apply andb_true_iff in E as [E1%negb_true_iff%Nat.eqb_neq E2%negb_true_iff]. exists true. split; [done|]. split; [|done]. intros _. exists y, ly. by split; [left|].
    + destruct IH as (b & Hb & Hiff); [intros x Hx; apply Hq; by right|]. exists b. split; [done|]. rewrite Hiff. split.
      * intros (x & lx & Hx & ?). exists x, lx. by split; [right|].
      * intros (x & lx & [->|Hx]%elem_of_cons & Hlx & Ht & Hc); [|by exists x, lx]. simplify_eq. by rewrite Hc, (proj2 (Nat.eqb_neq _ _) Ht) in E.
Qed.

Lemma other_incompatible_Ok j s t table tb mode l :
  tab_inv j None None s → tables s !! table = Some tb → tl_ok l → tl_mode l = mode → tl_trx l = t →
  ∃ b, lock_table_other_has_incompatible t true table mode s = Ok (b, s) ∧ (b = true ↔ ∃ x lx, x ∈ locks tb ∧ heap s !! x = Some lx ∧ tl_has_to_wait l lx = true).
Proof.
  intros Hinv Htb [Hm _] <- <-. destruct (incompatible_loop_Ok s (tl_trx l) (tl_mode l) (reverse (locks tb))) as (b & Hb & Hiff).
  { intros x. rewrite elem_of_reverse. intros Hx. destruct (ti_queue _ _ _ _ Hinv _ _ _ Htb Hx) as (lx & _ & -> & _). by eexists. }
  exists b. split; [unfold lock_table_other_has_incompatible; by erewrite the_table_Ok by done|]. rewrite Hiff. split.
  - intros (x & lx & Hx & Hlx & Ht & Hc). rewrite elem_of_reverse in Hx. exists x, lx. split_and!; [done..|].
    destruct (ti_queue _ _ _ _ Hinv _ _ _ Htb Hx) as (l0 & _ & Hl0 & _ & [Hm0 _] & _). assert (l0 = lx) as -> by congruence.
    unfold tl_has_to_wait. rewrite compatible_sym, Hc by done. by rewrite (proj2 (Nat.eqb_neq _ _)) by congruence.
  - intros (x & lx & Hx & Hlx & Hw). exists x, lx. split_and!; [by rewrite elem_of_reverse|done|..].
    + intros E. unfold tl_has_to_wait in Hw. by rewrite E, Nat.eqb_refl in Hw.
    + destruct (ti_queue _ _ _ _ Hinv _ _ _ Htb Hx) as (l0 & _ & Hl0 & _ & [Hm0 _] & _). simplify_eq. unfold tl_has_to_wait in Hw.
      rewrite compatible_sym by done. by apply andb_true_iff in Hw as [_ ?%negb_true_iff].
Qed.

(** ** Deadlocks *)

(** The end of the check: the requesting transaction waits, or not. *)
Lemma join_end s t trx trx' :
  tab_ok (Some t) s → tab_trxs s !! t = Some trx →
  tt_state trx' = tt_state trx → tt_locks trx' = tt_locks trx → table_locks trx' = table_locks trx → autoinc_locks trx' = autoinc_locks trx → tt_wait_lock trx' = tt_wait_lock trx →
  (tt_que_state trx' = TRX_QUE_LOCK_WAIT ↔ is_Some (tt_wait_lock trx)) → graph_state (tt_thr trx') = QUE_FORK_ACTIVE → tt_thr_waits trx' → tab_ok None (set_trx t trx' s).
Proof.
  intros [Hinv Hset] Ht E1 E2 E3 E4 E5 Hq Hg Hthr. split; [|by apply set_trx_settled].
  assert (Hweak : ∀ u tu, u ≠ t → tab_trxs s !! u = Some tu → tab_trx_ok None None None s u tu).
  { intros u tu Hne Hu. destruct (ti_trx _ _ _ _ Hinv _ _ Hu) as [K1 K2 K3 K4 K5 K6 K7 K8 K9 K10 K11 K12]. split; try done. intros _. apply K5. congruence. }
  assert (Hok : tab_trx_ok None None None s t trx').
  { destruct (ti_trx _ _ _ _ Hinv _ _ Ht) as [K1 K2 K3 K4 K5 K6 K7 K8 K9 K10 K11 K12]. split; rewrite ?E1, ?E2, ?E3, ?E4, ?E5; try done. }
  destruct Hinv as [H1 H2 H3 H4 H5 H6]. split; try done.
  - intros n tb x Htb Hx. destruct (H2 _ _ _ Htb Hx) as (lx & tx & Hlx & Hn & Hk & Htx & Hinx). exists lx. cbn [tab_trxs set_trx].
    destruct (decide (tl_trx lx = t)) as [E|]; [|rewrite lookup_insert_ne by done; by exists tx]. rewrite E, lookup_insert_eq. exists trx'. split_and!; try done. rewrite E2. congruence.
  - intros u tu. cbn [tab_trxs set_trx]. destruct (decide (u = t)) as [->|Hne]; [rewrite lookup_insert_eq; intros [= <-]; by apply set_trx_trx_ok|].
    rewrite lookup_insert_ne by done. intros Hu. apply set_trx_trx_ok. by apply Hweak.
  - intros n tb Htb. by destruct (H5 n tb Htb).
Qed.

Lemma join_end_none s t trx : tab_ok (Some t) s → tab_trxs s !! t = Some trx → tt_wait_lock trx = None → tt_que_state trx = TRX_QUE_RUNNING → tab_ok None s.
Proof.
  intros Hok Ht Hw Hq. assert (Hend := join_end s t _ _ Hok Ht eq_refl eq_refl eq_refl eq_refl eq_refl). unfold set_trx in Hend. rewrite insert_id in Hend by done.
  assert (E : mk_tab_sys (heap s) (tables s) (tab_trxs s) = s) by (by destruct s). rewrite E in Hend.
  apply Hend; [rewrite Hw, Hq; split; [done|]; by intros [? ?]|apply (ti_trx _ _ _ _ (proj1 Hok) _ _ Ht)..].
Qed.

Definition tt_waits (kx : nat * tab_trx_t) : Prop := is_Some (tt_wait_lock kx.2).

#[global] Instance tt_waits_dec kx : Decision (tt_waits kx).
Proof. unfold tt_waits. apply _. Defined.

(** The transactions that wait. *)
Definition waiters (s : tab_sys_t) : gset nat := dom (filter tt_waits (tab_trxs s)).

Lemma elem_waiters s t : t ∈ waiters s ↔ ∃ trx, tab_trxs s !! t = Some trx ∧ is_Some (tt_wait_lock trx).
Proof. unfold waiters. rewrite elem_of_dom. unfold is_Some at 1. by setoid_rewrite map_lookup_filter_Some. Qed.

Lemma waiters_size s : size (waiters s) ≤ size (tab_trxs s).
Proof. unfold waiters. rewrite size_dom, <-(size_dom (D := gset nat) (tab_trxs s)), <-(size_dom (D := gset nat)). apply subseteq_size. apply dom_filter_subseteq. Qed.

Lemma waiters_evolve T s s' : tab_evolves T s s' → waiters s' ⊆ waiters s.
Proof.
  intros Hev t. rewrite !elem_waiters. intros (trx' & Ht & [id Hw]). destruct (te_trx _ _ _ Hev _ _ Ht) as (trx & Ht0 & _ & Hor & _). exists trx. split; [done|].
  destruct Hor as [E|E]; [congruence|]. rewrite <-E. by eexists.
Qed.

(** The wait of [u] has been cancelled between two states. *)
Definition wait_cancelled (s s' : tab_sys_t) (u : nat) : Prop :=
  ∃ trx w, tab_trxs s !! u = Some trx ∧ tt_wait_lock trx = Some w ∧ ∀ lw, ¬ queued s' w lw.

(** What a rollback does to the victim; without AUTO-INC locks it only takes the waiting
    lock away. *)
Definition rolled_back (u : nat) (s s' : tab_sys_t) : Prop :=
  tab_evolves (is_trx u) s s' ∧ wait_cancelled s s' u ∧
  ∀ trx w, tab_trxs s !! u = Some trx → tt_wait_lock trx = Some w →
    ∃ trx', tab_trxs s' !! u = Some trx' ∧ tt_wait_lock trx' = None ∧ (autoinc_locks trx = [] → tt_locks trx' = filter (λ x, x ≠ w) (tt_locks trx)).

Lemma queued_em s w : (∃ l, queued s w l) ∨ (∀ l, ¬ queued s w l).
Proof.
  destruct (heap s !! w) as [l|] eqn:Hl; [|right; intros l [? _]; congruence].
  destruct (tables s !! tl_table l) as [tb|] eqn:Htb; [|right; intros l' [? (tb & ? & _)]; assert (l' = l) by congruence; congruence].
  destruct (decide (w ∈ locks tb)) as [Hw|Hw]; [left; exists l; split; [done|]; by exists tb|].
  right. intros l' [? (tb' & ? & ?)]. assert (l' = l) as -> by congruence. assert (tb' = tb) as -> by congruence. done.
Qed.

Lemma wait_cancelled_em s s' u : wait_cancelled s s' u ∨ ¬ wait_cancelled s s' u.
Proof.
  destruct (tab_trxs s !! u) as [trx|] eqn:Hu; [|right; intros (? & ? & ? & _); congruence].
  destruct (tt_wait_lock trx) as [w|] eqn:Hw; [|right; intros (? & ? & ? & ? & _); congruence].
  destruct (queued_em s' w) as [[l Hl]|Hno]; [right|left; by exists trx, w]. intros (? & ? & ? & ? & Hno). apply (Hno l). congruence.
Qed.

Lemma evolves_unqueued T s s' w : tab_evolves T s s' → (∀ lw, ¬ queued s w lw) → ∀ lw, ¬ queued s' w lw.
Proof.
  intros Hev Hno lw' [Hlw' (tb' & Htb' & Hin)]. destruct (te_table _ _ _ Hev _ _ Htb') as (tb & Htb & _ & Hq). destruct (Hq w Hin) as [Hin0 _].
  destruct (heap s !! w) as [lw|] eqn:Hlw; [|by rewrite (te_fresh _ _ _ Hev _ Hlw) in Hlw']. destruct (te_heap _ _ _ Hev _ _ Hlw) as (l2 & Hl2 & Hcl).
  apply (Hno lw). split; [done|]. exists tb.
  assert (Hn : tl_table l2 = tl_table lw) by (by destruct Hcl as [-> | ->]). assert (l2 = lw') as -> by congruence. by rewrite <-Hn.
Qed.

Lemma tab_trx_rollback_Ok j s v trx :
  j ≠ Some v → tab_ok j s → tab_trxs s !! v = Some trx → is_Some (tt_wait_lock trx) →
  ∃ s', tab_trx_rollback v s = Ok (tt, s') ∧ tab_ok j s' ∧ rolled_back v s s' ∧ size (waiters s') < size (waiters s).
Proof.
  intros Hj [Hinv Hset] Hv [id Hw]. set (s1 := set_trx v (set_tt_victim true trx) s). assert (Hv1 : tab_trxs s1 !! v = Some (set_tt_victim true trx)) by apply lookup_insert_eq.
  assert (Hok1 : tab_ok j s1).
  { split; [|done]. apply (set_trx_inv _ _ _ _ _ trx); [done..|]. by destruct (ti_trx _ _ _ _ Hinv _ _ Hv). }
  assert (Hev1 : tab_evolves (is_trx v) s s1) by (apply (set_trx_evolves _ _ _ _ _ Hv); auto).
  destruct (tab_cancel_Ok j s1 v _ id Hj Hok1 Hv1 Hw) as (s2 & trx2 & Hrun & Hok2 & Hev2 & Hv2 & Hnone & _ & Hni & Hlk). exists s2. split_and!; [|done| |].
  - unfold tab_trx_rollback. erewrite bind_Ok by done. rewrite (update_tab_trx_set _ _ trx) by done. erewrite the_trx_Ok by exact Hv1. by rewrite (deref_Some _ _ _ _ Hw).
  - split; [by eapply tab_evolves_trans|]. split.
    + exists trx, id. split_and!; [done..|]. intros lw Q. destruct (queued_ok _ _ _ _ (proj1 Hok2) _ _ Q) as (_ & _ & tx & _ & _ & Htx & Hin).
      destruct (wait_lock_queued j s1 v _ id Hok1 Hv1 Hw) as (l1 & Q1 & Hl1 & Hwl1 & _). destruct (te_heap _ _ _ Hev2 _ _ (proj1 Q1)) as (l2 & Hl2 & Hcl).
      assert (lw = l2) as -> by (destruct Q; congruence). assert (tl_trx l2 = v) as E by (by destruct Hcl as [-> | ->]). rewrite E in Htx. assert (tx = trx2) as -> by congruence.
      done.
    + intros trx' w Ht' Hw'. assert (trx' = trx) as -> by congruence. assert (w = id) as -> by congruence. exists trx2. split_and!; done.
  - apply subset_size. split; [by eapply waiters_evolve, tab_evolves_trans|]. intros Hsub. assert (Hin : v ∈ waiters s) by (apply elem_waiters; exists trx; by rewrite Hw).
    apply Hsub, elem_waiters in Hin as (trx' & Hv' & [? ?]). congruence.
Qed.

(** *** The loop *)

(** The state of a search for the lock at [id] of [t]: [t] waits for this lock or has been
    granted it. *)
Definition checking (id t : nat) (s : tab_sys_t) : Prop :=
  tab_ok (Some t) s ∧ ∃ l trx, queued s id l ∧ tl_trx l = t ∧ tab_trxs s !! t = Some trx ∧
    (tt_wait_lock trx = None ∨ tt_wait_lock trx = Some id).

Definition tab_waits (s : tab_sys_t) (t : nat) : Prop := ∃ trx, tab_trxs s !! t = Some trx ∧ is_Some (tt_wait_lock trx).

(** The answers of a search for the lock of [t] that a request can use: a victim waits, and
    a search that went too deep has a victim only if [t] itself still waits. *)
Definition usable (t : nat) (v : option nat) (deep : bool) (s : tab_sys_t) : Prop := ∀ u, v = Some u → tab_waits s (if deep then t else u).

(** What a request needs of the search, in states for which [I] holds: it returns a usable
    answer and changes nothing. [I] holds again when a victim other than the transaction has
    been rolled back. *)
Record search_ok (I : nat → nat → tab_sys_t → Prop) (search : nat → nat → TS (option nat * bool)) : Prop := mk_search_ok {
  so_run : ∀ id t s, checking id t s → I id t s → ∃ v deep, search id t s = Ok ((v, deep), s) ∧ usable t v deep s;
  so_keep : ∀ id t u s s', checking id t s → I id t s → u ≠ t → tab_waits s u → rolled_back u s s' → checking id t s' → I id t s';
}.

Lemma rolled_back_checking id t u s s' : u ≠ t → checking id t s → rolled_back u s s' → tab_ok (Some t) s' → checking id t s'.
Proof.
  intros Hne (Hok & l & trx & Q & Hlt & Ht & Hw) (Hev & _) Hok'. split; [done|]. destruct (te_trxs _ _ _ Hev t) as [trx' Ht']; [by eexists|].
  destruct (te_trx _ _ _ Hev _ _ Ht') as (trx0 & Ht0 & _ & Hwor & _ & Hlk). assert (trx0 = trx) as -> by congruence. destruct Hlk as [Hlk _]; [unfold is_trx; congruence|].
  destruct (queued_ok _ _ _ _ (proj1 Hok) _ _ Q) as (_ & _ & tx & _ & _ & Htx & Hin). assert (tx = trx) as -> by congruence. rewrite <-Hlk in Hin.
  destruct (to_locks _ _ _ _ _ _ (ti_trx _ _ _ _ (proj1 Hok') _ _ Ht') _ Hin) as (l' & Q' & Hl'). exists l', trx'. split_and!; [done..|].
  destruct Hwor as [?| ->]; [by left|done].
Qed.

(** [s'] follows from [s] while [t] is checked. *)
Definition resolves (t : nat) (s s' : tab_sys_t) : Prop := tab_evolves (λ u, u ≠ t ∧ wait_cancelled s s' u) s s'.

Lemma resolves_trans t u s1 s2 s3 : u ≠ t → rolled_back u s1 s2 → resolves t s2 s3 → resolves t s1 s3.
Proof.
  intros Hne (Hev1 & (trx & w & Hu & Hw & Hno) & _) Hev2. assert (Hc : wait_cancelled s1 s3 u) by (exists trx, w; split_and!; [done..|]; by eapply evolves_unqueued).
  eapply tab_evolves_trans; (eapply tab_evolves_weaken; [|done]); [by intros x ->|]. intros x [Hx (tx & wx & Htx & Hwx & Hnx)]. split; [done|].
  destruct (te_trx _ _ _ Hev1 _ _ Htx) as (tx0 & Htx0 & _ & [?|E] & _); [congruence|]. exists tx0, wx. by rewrite <-E.
Qed.

Section resolve.
  Context (cfg : config) (search : nat → nat → TS (option nat * bool)) (I : nat → nat → tab_sys_t → Prop) (Hsearch : search_ok I search).

Lemma tab_resolve_loop_Ok fuel s id t :
  checking id t s → I id t s → size (waiters s) ≤ fuel →
  ∃ v s', tab_resolve_loop search fuel id t s = Ok (v, s') ∧ checking id t s' ∧ resolves t s s' ∧ (is_Some v → tab_waits s' t).
Proof.
  revert s. induction fuel as [|fuel IH]; intros s Hck HI Hf; cbn [tab_resolve_loop]; destruct (so_run _ _ Hsearch id t s Hck HI) as (v & deep & Hv & Hvic);
    setoid_rewrite (bind_Ok _ _ _ _ _ Hv).
  all: assert (Hend : ∀ v' : option nat, (is_Some v' → tab_waits s t) → ∃ v s', Ok (v', s) = Ok (v, s') ∧ checking id t s' ∧ resolves t s s' ∧ (is_Some v → tab_waits s' t))
    by (intros v' Hv'; exists v', s; split_and!; [done..|apply tab_evolves_refl|done]).
  all: destruct deep; [apply Hend; intros [u ->]; by apply (Hvic u)|]; destruct v as [u|]; [|apply Hend; by intros []];
    assert (Hwu := Hvic u eq_refl); (destruct (decide (u = t)) as [->|Hne]; [by apply Hend|]).
  - assert (Hin : u ∈ waiters s) by (by apply elem_waiters). assert (size (waiters s) ≠ 0) by (intros E%size_empty_inv; by apply E in Hin). lia.
  - destruct Hwu as (trx & Hu & Hw). destruct (tab_trx_rollback_Ok (Some t) s u trx) as (s1 & Hrun & Hok1 & Hrb & Hlt); [congruence|apply Hck|done..|].
    assert (Hck1 := rolled_back_checking _ _ _ _ _ Hne Hck Hrb Hok1). destruct (IH s1) as (v & s2 & Hrun2 & Hck2 & Hres & Hb); [done| |lia|].
    { eapply (so_keep _ _ Hsearch id t u s); try done. by exists trx. }
    exists v, s2. split_and!; [by erewrite bind_Ok by exact Hrun|done| |done]. by eapply resolves_trans.
Qed.

Lemma tab_check_and_resolve_Ok s id t :
  checking id t s → tab_waits s t → (innobase_deadlock_detect cfg = true → I id t s) →
  ∃ v s', tab_check_and_resolve cfg search id t s = Ok (v, s') ∧ checking id t s' ∧ resolves t s s' ∧ (is_Some v → tab_waits s' t).
Proof.
  intros Hck Hwt HI. destruct Hwt as (trx & Ht & Hw). unfold tab_check_and_resolve. setoid_rewrite (the_trx_Ok _ _ _ _ Ht).
  destruct (w_force_rollback_async (tt_work trx)); [exists (Some t), s; split_and!; [done..|apply tab_evolves_refl|by exists trx]|].
  destruct (innobase_deadlock_detect cfg); cbn [negb]; [|exists None, s; split_and!; [done..|apply tab_evolves_refl|by intros []]].
  apply tab_resolve_loop_Ok; [done|by apply HI|apply waiters_size].
Qed.

End resolve.

(** The request of a victim is withdrawn; nobody waits behind it. *)
Lemma withdraw_Ok {B} s t trx a (r : B) :
  tab_ok (Some t) s → tab_trxs s !! t = Some trx → tt_wait_lock trx = Some a → (∀ n tb x, tables s !! n = Some tb → x ∈ locks tb → a ∉ ahead x (locks tb)) →
  ∃ s' trx', (_ ← lock_table_remove_low a; _ ← tab_reset_lock_and_trx_wait a; mret r) s = Ok (r, s') ∧ tab_ok None s' ∧ tab_trxs s' !! t = Some trx' ∧
    tt_wait_lock trx' = None ∧ tt_que_state trx' = TRX_QUE_RUNNING ∧ tt_locks trx' = filter (λ x, x ≠ a) (tt_locks trx) ∧
    tab_evolves (is_trx t) s s'.
Proof.
  intros Hok Ht Hw Hlast. destruct (wait_lock_queued _ s t trx a Hok Ht Hw) as (l & Q & Htl & Hwt & Hns). destruct Hok as [Hinv Hset]. assert (Hl := proj1 Q).
  destruct (queued_ok _ _ _ _ Hinv _ _ Q) as (_ & tb & trx0 & Htb & Hid & Ht0 & Hin). assert (trx0 = trx) as -> by congruence.
  destruct (lock_table_remove_low_run _ None None s a l tb trx Hinv Hl Htb Hid Ht0 Hin) as (v & Hrun & Hv1 & Hv2 & _).
  assert (Hinv1 := removed_inv _ s a l tb trx v Hinv Hl Htb Hid Ht0 Hv1 Hv2). rewrite Hwt in Hinv1.
  assert (Hq := removed_queued _ s a l tb trx v Hinv Hl Htb). set (s1 := remove_state s a l tb trx v) in *.
  assert (Hns1 : ¬ is_struct s1 a) by (intros H; apply Hns; by apply (removed_struct (Some t) s a l tb trx v)).
  assert (Hset1 : tab_settled s1).
  { intros x lx [Qx Hne]%Hq Hwx. eapply removed_blocked_keep; [done..| |by apply Hset]. intros tb0 H0. destruct Qx as [_ (tbx & H1 & Hx)]. simplify_eq. by eapply Hlast. }
  assert (Hinv2 : tab_inv (Some t) (Some t) None s1) by (rewrite Htl in Hinv1; by eapply forget_struct; [exact Hinv1|]).
  assert (Ht1 : tab_trxs s1 !! t = Some (remove_trx a v trx)) by (rewrite <-Htl; apply lookup_insert_eq).
  assert (Hni : a ∉ tt_locks (remove_trx a v trx)) by (cbn; rewrite list_elem_of_filter; by intros [? _]).
  assert (Hque : tt_que_state trx = TRX_QUE_RUNNING) by (exact (to_joining _ _ _ _ _ _ (ti_trx _ _ _ _ Hinv _ _ Ht) eq_refl)).
  set (s2 := end_wait_state s1 t (remove_trx a v trx) a l). assert (Hok2 : tab_ok (Some t) s2) by (split; [by apply end_wait_inv|by eapply end_wait_settled]).
  assert (Ht2 : tab_trxs s2 !! t = Some (tt_resume (set_tt_wait_lock None (remove_trx a v trx)))) by apply lookup_insert_eq.
  exists s2. eexists. split_and!; [| |exact Ht2|done..|].
  - erewrite bind_Ok by exact Hrun. erewrite bind_Ok by (apply tab_reset_run; [exact Hl|by rewrite Htl]). unfold mret, M_ret. do 2 f_equal. unfold s2, end_wait_state. rewrite Htl. f_equal.
    f_equal. unfold tt_resume, set_tt_thr, set_tt_que_state, set_tt_wait_lock, remove_trx. cbn. by rewrite Hque.
  - by apply (join_end_none s2 t _ Hok2 Ht2).
  - eapply tab_evolves_trans; [by eapply (removed_evolves (Some t))|by eapply end_wait_evolves].
Qed.

(** ** Requests *)

Definition tab_running (s : tab_sys_t) (t : nat) : Prop := ∃ trx, tab_trxs s !! t = Some trx ∧ tt_state trx = TRX_STATE_ACTIVE ∧ tt_wait_lock trx = None.

(** An address that is not in use. *)
Definition tab_fresh (s : tab_sys_t) (node : nat) : Prop := heap s !! node = None ∧ ¬ is_struct s node.

Lemma fresh_free s node u tu : tab_inv None None None s → tab_fresh s node → tab_trxs s !! u = Some tu → ¬ refers tu node.
Proof.
  intros Hinv [Hn _] Hu [Hx|[Hact Hx]]; assert (Hk := ti_trx _ _ _ _ Hinv _ _ Hu).
  - destruct (to_locks _ _ _ _ _ _ Hk node Hx) as (l & [Hl _] & _). congruence.
  - destruct (to_tables _ _ _ _ _ _ Hk Hact) as (_ & _ & L). destruct (L node Hx) as (l & Hl & _). congruence.
Qed.

(** The struct of the AUTO-INC lock is free when it is used again. *)
Lemma struct_free s t trx table tb l :
  tab_inv None None None s → tables s !! table = Some tb → tab_trxs s !! t = Some trx → tt_state trx = TRX_STATE_ACTIVE → ¬ has_entry s trx table LOCK_AUTO_INC →
  is_autoinc l = true → tl_trx l = t → (∀ x lx, x ∈ locks tb → heap s !! x = Some lx → tl_has_to_wait l lx = false) →
  ∀ u tu, tab_trxs s !! u = Some tu → ¬ refers tu (autoinc_lock tb).
Proof.
  intros Hinv Htb Ht Hact Hno Ha Htl Hord u tu Hu Hr. assert (Hk := ti_trx _ _ _ _ Hinv _ _ Hu).
  assert (Hin : autoinc_lock tb ∈ tt_locks tu).
  { destruct Hr as [|[Hau Hx]]; [done|]. destruct (to_tables _ _ _ _ _ _ Hk Hau) as (_ & _ & L). destruct (L _ Hx) as (l0 & _ & _ & _ & Hs). destruct Hs as [|]; [by exists table, tb|done|done]. }
  destruct (to_locks _ _ _ _ _ _ Hk _ Hin) as (l0 & [Hl0 (tb0 & H0 & Hx)] & Htu). destruct (ao_struct _ _ _ (ti_auto _ _ _ _ Hinv _ _ Htb) _ Hl0) as (Hn & Ha0 & _). rewrite Hn in H0. simplify_eq.
  destruct (decide (tl_trx l0 = tl_trx l)) as [E|Hne].
  - apply Hno. rewrite E in Hu. simplify_eq. destruct (to_tables _ _ _ _ _ _ Hk Hact) as (_ & L2 & _). exists (autoinc_lock tb), l0. split_and!; [by apply L2|done..|].
    unfold is_autoinc in Ha0. by apply Z.eqb_eq in Ha0 as ->.
  - assert (Hc := Hord _ _ Hx Hl0). rewrite autoinc_conflict in Hc; [done..|congruence].
Qed.

(** A transaction that has no AUTO-INC lock in its vector has none in the queue. *)
Lemma no_own_autoinc s t trx table tb mode l :
  tab_inv None None None s → tables s !! table = Some tb → tab_trxs s !! t = Some trx → tt_state trx = TRX_STATE_ACTIVE → ¬ has_entry s trx table mode →
  tl_mode l = mode → tl_trx l = t → is_autoinc l = true → ∀ x lx, x ∈ locks tb → heap s !! x = Some lx → is_autoinc lx = true → tl_trx lx ≠ tl_trx l.
Proof.
  intros Hinv Htb Ht Hact Hno <- Htl Ha%Z.eqb_eq x lx Hx Hlx Hax%Z.eqb_eq E. destruct (ti_queue _ _ _ _ Hinv _ _ _ Htb Hx) as (l0 & tx & Hl0 & Hn & _ & Htx & Hin). simplify_eq.
  rewrite E in Htx. simplify_eq. destruct (to_tables _ _ _ _ _ _ (ti_trx _ _ _ _ Hinv _ _ Ht) Hact) as (_ & L2 & _). apply Hno. exists x, lx. rewrite Ha, Hax. split_and!; [by apply L2|done..].
Qed.

(** Nothing stops the thread of the transaction while it does not wait. *)
Definition tab_query_runs (trx : tab_trx_t) : Prop := fst (que_thr_stop TRX_QUE_RUNNING (w_duplicates (tt_work trx)) (tt_thr trx)) = false.

(** A transaction that keeps its locks and its vector of table locks. *)
Definition keeps_locks (u : nat) (s s' : tab_sys_t) : Prop :=
  (∀ tu, tab_trxs s !! u = Some tu → ∃ tu', tab_trxs s' !! u = Some tu' ∧ tt_locks tu' = tt_locks tu ∧ table_locks tu' = table_locks tu ∧ tt_state tu' = tt_state tu) ∧
  (tab_trxs s !! u = None → tab_trxs s' !! u = None).

Lemma evolves_keeps T s s' u : tab_evolves T s s' → ¬ T u → keeps_locks u s s'.
Proof.
  intros Hev HT. split.
  2:{ intros Hn. destruct (tab_trxs s' !! u) as [tu'|] eqn:Hu'; [|done]. destruct (te_trx _ _ _ Hev _ _ Hu') as (? & ? & _). congruence. }
  intros tu Hu. destruct (te_trxs _ _ _ Hev u) as [tu' Hu']; [by eexists|]. destruct (te_trx _ _ _ Hev _ _ Hu') as (tu0 & Hu0 & Hst & _ & _ & Hlk).
  assert (tu0 = tu) as -> by congruence. exists tu'. destruct (Hlk HT). done.
Qed.

Lemma keeps_locks_trans u s1 s2 s3 : keeps_locks u s1 s2 → keeps_locks u s2 s3 → keeps_locks u s1 s3.
Proof.
  intros [H1 N1] [H2 N2]. split; [|auto]. intros tu Hu. destruct (H1 tu Hu) as (t2 & Hu2 & A1 & A2 & A3). destruct (H2 t2 Hu2) as (t3 & Hu3 & B1 & B2 & B3). exists t3. split_and!; congruence.
Qed.

Section requests.
  Context (cfg : config) (search : nat → nat → TS (option nat * bool)) (I : nat → nat → tab_sys_t → Prop) (Hsearch : search_ok I search).
  Context (s : tab_sys_t) (t : nat) (trx : tab_trx_t) (table : nat) (tb : dict_table_t) (mode : Z) (node : nat).
  Context (Hok : tab_ok None s) (Ht : tab_trxs s !! t = Some trx) (Hact : tt_state trx = TRX_STATE_ACTIVE) (Hwl : tt_wait_lock trx = None).
  Context (Htb : tables s !! table = Some tb) (Hmode : mode ∈ lock_modes) (Hfresh : tab_fresh s node) (Hgo : tab_query_runs trx).

(** What a request comes to. *)
Definition tab_outcome (err : dberr_t) (s' : tab_sys_t) : Prop :=
  match err with
  | DB_SUCCESS => tab_running s' t ∧ ∃ x lx, queued s' x lx ∧ tl_trx lx = t ∧ tl_table lx = table ∧ tl_mode lx = mode ∧ tl_wait lx = false
  | DB_LOCK_WAIT => ∃ trx' x lx, tab_trxs s' !! t = Some trx' ∧ tt_que_state trx' = TRX_QUE_LOCK_WAIT ∧ tt_wait_lock trx' = Some x ∧
      queued s' x lx ∧ tl_trx lx = t ∧ tl_table lx = table ∧ tl_mode lx = mode ∧ tl_wait lx = true
  | DB_DEADLOCK => ∃ trx', tab_trxs s' !! t = Some trx' ∧ tt_wait_lock trx' = None ∧ tt_que_state trx' = TRX_QUE_RUNNING ∧ tt_locks trx' = tt_locks trx
  | DB_SUCCESS_LOCKED_REC | DB_DUPLICATE_KEY | DB_ERROR => False
  end.

(** What becomes of the vectors: the other transactions keep theirs unless their wait is
    cancelled, and the lock of the request is added to that of [t]. *)
Definition vectors_after (err : dberr_t) (s' : tab_sys_t) : Prop :=
  (∀ u, u ≠ t → keeps_locks u s s' ∨ wait_cancelled s s' u) ∧
  (err = DB_DEADLOCK ∨ ∃ trx' a, tab_trxs s' !! t = Some trx' ∧ tt_state trx' = tt_state trx ∧ tt_locks trx' = tt_locks trx ++ [a] ∧ table_locks trx' = table_locks trx ++ [Some a]).

(** The lock a request creates, with the address [a] it gets. *)
Lemma created_ok a l :
  tl_table l = table → tl_trx l = t → tl_mode l = mode → tl_ok l → ¬ has_entry s trx table mode → (∀ u tu, tab_trxs s !! u = Some tu → ¬ refers tu a) →
  (tl_wait l = true ↔ ∃ x lx, x ∈ locks tb ∧ heap s !! x = Some lx ∧ tl_has_to_wait l lx = true) →
  (∀ n tb', tables s !! n = Some tb' → autoinc_lock tb' = a → n = tl_table l ∧ holds_autoinc l = true) →
  tab_ok (if tl_wait l then Some t else None) (create_state s a l tb trx).
Proof.
  intros En Et Em Hlok Hno Hfree Hblk Hstr. destruct Hok as [Hinv Hset].
  assert (Hauto : is_autoinc l = true → ∀ x lx, x ∈ locks tb → heap s !! x = Some lx → is_autoinc lx = true → tl_trx lx ≠ tl_trx l) by (by eapply no_own_autoinc).
  assert (Hord : tl_wait l = false → ∀ x lx, x ∈ locks tb → heap s !! x = Some lx → tl_has_to_wait l lx = false).
  { intros Hw x lx Hx Hlx. apply not_true_is_false. intros Hc. assert (tl_wait l = true) by (apply Hblk; eauto). congruence. }
  split; [rewrite <-Et; apply created_inv; congruence || done|]. apply created_settled; try done; [congruence..|]. by apply Hblk.
Qed.

(** It is behind every other lock. *)
Lemma created_last a l : tl_table l = table → (∀ u tu, tab_trxs s !! u = Some tu → ¬ refers tu a) →
  ∀ n tb' x, tables (create_state s a l tb trx) !! n = Some tb' → x ∈ locks tb' → a ∉ ahead x (locks tb').
Proof.
  intros En Hfree n tb' x Htb' Hx Ha. assert (Hunq := create_unqueued s a (proj1 Hok) Hfree). cbn in Htb'. rewrite En in Htb'.
  destruct (decide (n = table)) as [->|Hne].
  - rewrite lookup_insert_eq in Htb'. injection Htb' as <-. cbn [create_table locks] in *. apply elem_of_app in Hx as [Hx|Hx%list_elem_of_singleton].
    + rewrite ahead_app in Ha by done. apply ahead_elem in Ha as [Ha _]. by apply (Hunq _ _ Htb).
    + subst x. by apply ahead_elem in Ha as [_ ?].
  - rewrite lookup_insert_ne in Htb' by done. apply ahead_elem in Ha as [Ha _]. by apply (Hunq _ _ Htb').
Qed.

(** The new lock after deadlocks have been resolved. *)
Lemma resolved_lock a l s2 :
  tl_trx l = t → tl_wait l = true → tab_ok (Some t) s2 → resolves t (create_state s a l tb trx) s2 →
  ∃ trx2 l2, tab_trxs s2 !! t = Some trx2 ∧ tt_state trx2 = tt_state trx ∧ tt_locks trx2 = tt_locks trx ++ [a] ∧ table_locks trx2 = table_locks trx ++ [Some a] ∧ queued s2 a l2 ∧ shape l2 = shape l ∧
    (tt_wait_lock trx2 = None ∧ tl_wait l2 = false ∨ tt_wait_lock trx2 = Some a ∧ tl_wait l2 = true).
Proof.
  intros Et Hw Hok2 Hev. set (s1 := create_state s a l tb trx) in *. assert (Ht1 : tab_trxs s1 !! t = Some (create_trx a l trx)) by (rewrite <-Et; apply lookup_insert_eq).
  destruct (te_trxs _ _ _ Hev t) as [trx2 Ht2]; [by eexists|]. destruct (te_trx _ _ _ Hev _ _ Ht2) as (trx1 & Ht1' & Hst2 & Hwor & _ & Hlk2). assert (trx1 = create_trx a l trx) as -> by congruence.
  destruct Hlk2 as [Hlk2 Htl2']; [by intros [? _]|]. cbn [create_trx tt_wait_lock tt_locks tt_state table_locks] in Hwor, Hlk2, Hst2, Htl2'. rewrite Hw in Hwor.
  assert (Hin2 : a ∈ tt_locks trx2) by (rewrite Hlk2; apply elem_of_app; right; by left).
  destruct (to_locks _ _ _ _ _ _ (ti_trx _ _ _ _ (proj1 Hok2) _ _ Ht2) a Hin2) as (l2 & Q2 & Htl2). destruct (te_heap _ _ _ Hev a l) as (l2' & Hl2' & Hcl); [apply lookup_insert_eq|].
  assert (l2' = l2) as -> by (destruct Q2; congruence). exists trx2, l2. split_and!; try done.
  - destruct Hcl as [-> | ->]; [done|]. unfold shape. by rewrite ?clear_wait_mode.
  - assert (Hk := ti_trx _ _ _ _ (proj1 Hok2) _ _ Ht2). destruct Hwor as [E|E]; [left|right]; (split; [done|]).
    + apply not_true_is_false. intros Hw2. rewrite (to_waits _ _ _ _ _ _ Hk a l2 Hin2 Hl2' Hw2) in E. done.
    + destruct (to_wait _ _ _ _ _ _ Hk a E) as (_ & l3 & Hl3 & Hw3); [done|]. congruence.
Qed.

(** Other transactions do not see that a lock is created. *)
Lemma created_keeps a l u : tl_trx l = t → u ≠ t → keeps_locks u s (create_state s a l tb trx).
Proof. intros Et Hne. split; intros tu; cbn; rewrite Et, lookup_insert_ne by done; [by exists tu|done]. Qed.

Lemma created_cancelled a l s2 u :
  tl_trx l = t → u ≠ t → resolves t (create_state s a l tb trx) s2 → keeps_locks u (create_state s a l tb trx) s2 ∨ wait_cancelled s s2 u.
Proof.
  intros Et Hne Hres. destruct (wait_cancelled_em (create_state s a l tb trx) s2 u) as [Hc|Hc].
  - right. destruct Hc as (tu & w & Hu & Hw & Hno). cbn in Hu. rewrite Et, lookup_insert_ne in Hu by done. by exists tu, w.
  - left. eapply evolves_keeps; [done|]. tauto.
Qed.

Lemma no_stop_Ok {B} (f : unit → TS B) : (stop ← tab_que_thr_stop t; _ ← assert_ (negb stop); f tt) s = f tt s.
Proof.
  assert (Hq : tt_que_state trx = TRX_QUE_RUNNING).
  { assert (H := to_que _ _ _ _ _ _ (ti_trx _ _ _ _ (proj1 Hok) _ _ Ht)). rewrite Hwl in H. destruct (tt_que_state trx); [done|]. destruct H as [H _]; [done|]. by destruct H. }
  assert (Hrun : tab_que_thr_stop t s = Ok (false, s)).
  { unfold tab_que_thr_stop. erewrite the_trx_Ok by done. rewrite Hq. unfold tab_query_runs, que_thr_stop in *. clear Hq.
    repeat case_match; simplify_eq/=; try done; erewrite bind_Ok by done; unfold mret, M_ret, update_tab_trx; do 2 f_equal; destruct s as [h tbs tx]; cbn in *; f_equal;
      apply alter_id; intros x Hx; assert (x = trx) as -> by congruence; by destruct trx. }
  erewrite bind_Ok by exact Hrun. done.
Qed.

Lemma stop_Ok s2 trx2 : tab_trxs s2 !! t = Some trx2 → graph_state (tt_thr trx2) = QUE_FORK_ACTIVE →
  let trx3 := set_tt_thr (set_thr_state QUE_THR_LOCK_WAIT (set_wait_thr true (tt_thr trx2))) (set_tt_victim false (set_tt_que_state TRX_QUE_LOCK_WAIT trx2)) in
  (_ ← modify (update_tab_trx t (λ t, set_tt_victim false (set_tt_que_state TRX_QUE_LOCK_WAIT t))); stop ← tab_que_thr_stop t; _ ← assert_ stop; mret DB_LOCK_WAIT) s2 =
  Ok (DB_LOCK_WAIT, set_trx t trx3 s2).
Proof.
  intros Ht2 Hg trx3. erewrite bind_Ok by done. rewrite (update_tab_trx_set _ _ trx2) by done. set (trx' := set_tt_victim false _).
  assert (Hrun : tab_que_thr_stop t (set_trx t trx' s2) = Ok (true, set_trx t trx3 s2)).
  { unfold tab_que_thr_stop. erewrite the_trx_Ok by apply lookup_insert_eq. unfold que_thr_stop. cbn [tt_thr tt_que_state trx' set_tt_victim set_tt_que_state]. rewrite Hg.
    cbn [Z.eqb QUE_FORK_ACTIVE QUE_FORK_COMMAND_WAIT Pos.eqb]. rewrite decide_True by done. erewrite bind_Ok by done. unfold mret, M_ret, update_tab_trx, set_trx. cbn [heap tables tab_trxs].
    by rewrite alter_insert_eq. }
  by erewrite bind_Ok by exact Hrun.
Qed.

Notation wait_lock_of := (new_tab_lock table (Z.lor mode LOCK_WAIT) t).

(** The state in which deadlocks are looked for. *)
Lemma enqueued_Ok :
  ¬ has_entry s trx table mode → (∃ x lx, x ∈ locks tb ∧ heap s !! x = Some lx ∧ tl_has_to_wait wait_lock_of lx = true) →
  let s1 := create_state s node wait_lock_of tb trx in
  lock_table_create table (Z.lor mode LOCK_WAIT) t node s = Ok (node, s1) ∧ tl_wait wait_lock_of = true ∧ tl_mode wait_lock_of = mode ∧ checking node t s1 ∧ tab_waits s1 t ∧
  ∀ n tb' x, tables s1 !! n = Some tb' → x ∈ locks tb' → node ∉ ahead x (locks tb').
Proof.
  intros Hno Hblk s1. assert (Hreq : requested mode (Z.lor mode LOCK_WAIT)) by (split; [done|by right]).
  destruct (requested_lock mode _ table t Hreq) as (Hlok & Hlm & Hlw & Hfw & _ & Hh). set (l := wait_lock_of) in *.
  assert (Hw : tl_wait l = true) by (rewrite <-Hfw; clear -Hmode; unfold lock_modes in Hmode; set_unfold; by destruct_or!; subst).
  assert (Hna : new_address tb (Z.lor mode LOCK_WAIT) node = node) by (unfold new_address; rewrite <-Hh; unfold holds_autoinc; by rewrite Hw, andb_false_r).
  assert (Hrun := lock_table_create_run s table tb trx t mode _ node Htb Ht Hreq). rewrite Hna in Hrun. fold l in Hrun.
  assert (Hfree : ∀ u tu, tab_trxs s !! u = Some tu → ¬ refers tu node) by (intros u tu; apply fresh_free; [apply Hok|done]).
  assert (Hok1 := created_ok node l eq_refl eq_refl Hlm Hlok Hno Hfree). rewrite Hw in Hok1.
  assert (Hok1' : tab_ok (Some t) s1) by (apply Hok1; [by split|]; intros n tb' Hn Ha; destruct (proj2 Hfresh); by exists n, tb').
  assert (Ht1 : tab_trxs s1 !! t = Some (create_trx node l trx)) by apply lookup_insert_eq.
  split_and!; [done..| | |by apply created_last].
  - split; [done|]. exists l, (create_trx node l trx). split_and!; [apply created_queued|done|done|]. cbn. rewrite Hw. by right.
  - exists (create_trx node l trx). split; [done|]. cbn. by rewrite Hw.
Qed.

Lemma lock_table_enqueue_waiting_Ok :
  ¬ has_entry s trx table mode → (∃ x lx, x ∈ locks tb ∧ heap s !! x = Some lx ∧ tl_has_to_wait wait_lock_of lx = true) →
  (innobase_deadlock_detect cfg = true → I node t (create_state s node wait_lock_of tb trx)) →
  ∃ err s', lock_table_enqueue_waiting cfg search mode table t node s = Ok (err, s') ∧ tab_ok None s' ∧ tab_outcome err s' ∧ vectors_after err s'.
Proof.
  intros Hno Hblk HI. destruct (enqueued_Ok Hno Hblk) as (Hrun & Hw & Hlm & Hck & Hwt & Hlast). set (l := wait_lock_of) in *. set (s1 := create_state s node l tb trx) in *.
  destruct (tab_check_and_resolve_Ok cfg search I Hsearch s1 node t Hck Hwt HI) as (v & s2 & Hrun2 & Hck2 & Hev & Hb). assert (Hok2 := proj1 Hck2).
  destruct (resolved_lock node l s2 eq_refl Hw Hok2 Hev) as (trx2 & l2 & Ht2 & Hst2 & Hlk2 & Htl2 & Q2 & Hsh & Hcase). injection Hsh as Hs1 Hs2 Hs3.
  assert (Hq2 := to_joining _ _ _ _ _ _ (ti_trx _ _ _ _ (proj1 Hok2) _ _ Ht2) eq_refl).
  assert (Hoth : ∀ u, u ≠ t → keeps_locks u s s2 ∨ wait_cancelled s s2 u).
  { intros u Hne. destruct (created_cancelled node l s2 u) as [Hk|]; [done..|left|by right]. apply (keeps_locks_trans u s s1 s2); [by apply created_keeps|done]. }
  unfold lock_table_enqueue_waiting. rewrite (no_stop_Ok (λ _, _)). setoid_rewrite (bind_Ok _ _ _ _ _ Hrun). setoid_rewrite (bind_Ok _ _ _ _ _ Hrun2). destruct v as [v|].
  - destruct Hb as (trx3 & Ht3 & [y Hw3]); [done|]. assert (Hw2 : tt_wait_lock trx2 = Some node) by (destruct Hcase as [[? _]|[? _]]; congruence).
    destruct (withdraw_Ok s2 t trx2 node DB_DEADLOCK Hok2 Ht2 Hw2) as (s3 & trx4 & Hrun3 & Hok3 & Ht4 & H1 & H2 & H3 & Hev3).
    { intros n tb' x Hn Hx Ha. destruct (te_table _ _ _ Hev _ _ Hn) as (tb1 & Hn1 & _ & Hback). destruct (Hback x Hx) as [Hx1 Ha1]. by apply (Hlast _ _ _ Hn1 Hx1), Ha1. }
    exists DB_DEADLOCK, s3. split_and!; [done..| |].
    + exists trx4. split_and!; [done..|]. rewrite H3, Hlk2, filter_app, filter_absent.
      * rewrite filter_cons, decide_False by (intros H; by apply H). by rewrite filter_nil, app_nil_r.
      * intros Hin. eapply (fresh_free s node); [apply Hok|done..|by left].
    + split; [|by left]. intros u Hne. destruct (Hoth u Hne) as [Hk|(tu & w & Hu & Hwu & Hnq)].
      * left. eapply keeps_locks_trans; [done|]. by eapply evolves_keeps.
      * right. exists tu, w. split_and!; [done..|]. by eapply evolves_unqueued.
  - setoid_rewrite (the_trx_Ok _ _ _ _ Ht2). destruct Hcase as [[Hw2 Hl2]|[Hw2 Hl2]]; rewrite Hw2.
    + exists DB_SUCCESS, s2. split_and!; [done|by eapply join_end_none| |].
      * split; [exists trx2; by rewrite Hst2|]. exists node, l2. split_and!; congruence || done.
      * split; [done|right]. by exists trx2, node.
    + assert (Hg : graph_state (tt_thr trx2) = QUE_FORK_ACTIVE) by apply (ti_trx _ _ _ _ (proj1 Hok2) _ _ Ht2). rewrite (stop_Ok s2 trx2 Ht2 Hg).
      eexists DB_LOCK_WAIT, _. split; [done|]. split_and!.
      * by apply (join_end _ _ trx2).
      * eexists _, node, l2. split; [apply lookup_insert_eq|]. split_and!; congruence || done.
      * split; [|right; eexists _, node; split; [apply lookup_insert_eq|done]]. intros u Hne. destruct (Hoth u Hne) as [Hk|Hc]; [left|by right].
        eapply keeps_locks_trans; [done|]. split; intros tu; cbn; rewrite lookup_insert_ne by done; [by exists tu|done].
Qed.

(** A request that nothing stands against. *)
Lemma granted_create_Ok :
  ¬ has_entry s trx table mode → (∀ x lx, x ∈ locks tb → heap s !! x = Some lx → tl_has_to_wait (new_tab_lock table mode t) lx = false) →
  ∃ a s', lock_table_create table mode t node s = Ok (a, s') ∧ tab_ok None s' ∧ tab_outcome DB_SUCCESS s' ∧ vectors_after DB_SUCCESS s'.
Proof.
  intros Hno Hfree0. assert (Hreq : requested mode mode) by (split; [done|by left]). assert (Hrun := lock_table_create_run s table tb trx t mode _ node Htb Ht Hreq).
  destruct (requested_lock mode _ table t Hreq) as (Hlok & Hlm & Hlw & _ & _ & Hh). set (l := new_tab_lock table mode t) in *. set (a := new_address tb mode node) in *. rewrite Z.eqb_refl in Hlw.
  assert (Ha : a = if holds_autoinc l then autoinc_lock tb else node) by (unfold a, new_address; by rewrite Hh). clearbody a.
  assert (Hok' : tab_ok (if tl_wait l then Some t else None) (create_state s a l tb trx)).
  { apply created_ok; try done; subst a.
    - destruct (holds_autoinc l) eqn:Hha; [|intros u tu; apply fresh_free; [apply Hok|done]].
      symmetry in Hh. apply Z.eqb_eq in Hh. eapply (struct_free s t trx table tb l); try done; [apply Hok|by rewrite <-Hh|]. by apply andb_true_iff in Hha as [? _].
    - rewrite Hlw. split; [done|]. intros (x & lx & Hx & Hlx & Hc). by rewrite (Hfree0 x lx) in Hc.
    - intros n tb' Hn Ha. destruct (holds_autoinc l); [split; [|done]; by eapply (ti_struct _ _ _ _ (proj1 Hok))|]. destruct (proj2 Hfresh). by exists n, tb'. }
  rewrite Hlw in Hok'. exists a, (create_state s a l tb trx). split_and!; [done..| |].
  2:{ split; [intros u Hne; left; by apply created_keeps|right]. exists (create_trx a l trx), a. split; [apply lookup_insert_eq|done]. }
  split.
  - exists (create_trx a l trx). split; [apply lookup_insert_eq|]. split; [done|]. cbn. by rewrite Hlw.
  - exists a, l. split; [apply created_queued|]. by rewrite Hlw.
Qed.

Lemma lock_table_Ok :
  (innobase_deadlock_detect cfg = true → (∃ x lx, x ∈ locks tb ∧ heap s !! x = Some lx ∧ tl_has_to_wait wait_lock_of lx = true) →
     I node t (create_state s node wait_lock_of tb trx)) →
  ∃ err s', lock_table cfg search table mode t node s = Ok (err, s') ∧ tab_ok None s' ∧
    ((err = DB_SUCCESS ∧ s' = s ∧ has_entry s trx table mode) ∨ (¬ has_entry s trx table mode ∧ tab_outcome err s' ∧ vectors_after err s')).
Proof.
  intros HI.
  destruct (lock_table_has_Ok None s t trx table mode (proj1 Hok) Ht Hact) as (b & Hrun & Hb). unfold lock_table. setoid_rewrite (bind_Ok _ _ _ _ _ Hrun). destruct b.
  { exists DB_SUCCESS, s. split_and!; [done..|]. left. split_and!; [done..|by apply Hb]. }
  assert (Hno : ¬ has_entry s trx table mode) by (by intros H%Hb).
  assert (Hreq : requested mode (Z.lor mode LOCK_WAIT)) by (split; [done|by right]). destruct (requested_lock mode _ table t Hreq) as (Hlok & Hlm & _).
  assert (Hlm' := proj1 (proj2 (requested_lock mode mode table t (conj Hmode (or_introl eq_refl))))).
  destruct (other_incompatible_Ok None s t table tb mode (new_tab_lock table (Z.lor mode LOCK_WAIT) t)) as (b & Hrun2 & Hb2); [apply Hok|done..|].
  setoid_rewrite (bind_Ok _ _ _ _ _ Hrun2). destruct b.
  - assert (Hblk := proj1 Hb2 eq_refl). destruct (lock_table_enqueue_waiting_Ok Hno Hblk) as (err & s' & ? & ? & ? & ?); [auto|]. exists err, s'. auto 6.
  - destruct (granted_create_Ok Hno) as (a & s' & Hrun3 & ? & ? & ?).
    + intros x lx Hx Hlx. apply not_true_is_false. intros Hc. enough (false = true) by done. apply Hb2. exists x, lx. split_and!; try done. rewrite <-Hc. apply tl_shape_waits; [|done].
      unfold shape. by rewrite Hlm, Hlm'.
    + exists DB_SUCCESS, s'. split_and!; [by erewrite bind_Ok by exact Hrun3|done|]. by right.
Qed.

(** A transaction found by recovery gets its intention lock. *)
Lemma lock_table_ix_resurrect_Ok :
  mode = LOCK_IX → (∀ x lx, x ∈ locks tb → heap s !! x = Some lx → tl_trx lx ≠ t → lock_mode_compatible (tl_mode lx) LOCK_IX = true) →
  ∃ s', lock_table_ix_resurrect table t node s = Ok (tt, s') ∧ tab_ok None s' ∧ ((s' = s ∧ has_entry s trx table LOCK_IX) ∨ (¬ has_entry s trx table LOCK_IX ∧ tab_outcome DB_SUCCESS s' ∧ vectors_after DB_SUCCESS s')).
Proof.
  intros Hm Hcomp. destruct (lock_table_has_Ok None s t trx table mode (proj1 Hok) Ht Hact) as (b & Hrun & Hb). unfold lock_table_ix_resurrect. rewrite Hm in Hrun, Hb.
  setoid_rewrite (bind_Ok _ _ _ _ _ Hrun). destruct b.
  { exists s. split_and!; [done..|]. left. split; [done|by apply Hb]. }
  assert (Hno : ¬ has_entry s trx table LOCK_IX) by (by intros H%Hb). destruct granted_create_Ok as (a & s' & Hrun3 & ? & ? & ?).
  - by rewrite Hm.
  - intros x lx Hx Hlx. unfold tl_has_to_wait. destruct (tl_trx _ =? tl_trx lx) eqn:E; [done|]. apply Nat.eqb_neq in E. destruct (ti_queue _ _ _ _ (proj1 Hok) _ _ _ Htb Hx) as (l0 & _ & Hl0 & _ & [Hk _] & _).
    simplify_eq. rewrite compatible_sym by (done || set_solver). cbn [negb andb]. apply negb_false_iff. apply (Hcomp x); [done..|]. by apply not_eq_sym.
  - exists s'. rewrite Hm in Hrun3. split_and!; [by erewrite bind_Ok by exact Hrun3|done|]. by right.
Qed.

End requests.
