(* ===== verification/InnoTableDeadlock.v ===== *)
(** The deadlock detection of InnoDB (project 4): [DeadlockChecker::search] of [lock0lock.cc]
    for table locks. It answers what a request for a table lock can use, unless the search
    starts at a granted lock that is the first one of its table. *)
From stdpp Require Import functions base tactics numbers option list list_numbers gmap sets relations sorting.
From Stdlib Require Import ZArith Lia.
From S2P Require Import Prelude InnoMode InnoSys InnoDeadlock InnoRequest InnoTable InnoTableInv InnoTableStep InnoTableRemove InnoTableEnd InnoTableRequest.

(** ** The search *)

(** A pointer to a lock in the queue of a table is the list of the addresses from there on. *)
Record tab_state_t : Type := mk_tab_state { ts_lock : list nat; ts_wait_lock : nat }.

(** [DeadlockChecker]. A transaction is in [tc_visited] when its [deadlock_mark] is above
    [m_mark_start]: the search itself has marked it. *)
Record tab_checker_t : Type := mk_tab_checker {
  tc_cost : N;
  tc_start : nat;
  tc_too_deep : bool;
  tc_wait_lock : nat;
  tc_visited : list nat;
  tc_states : list tab_state_t;
}.

Definition tab_is_too_deep (c : tab_checker_t) : bool :=
  (LOCK_MAX_DEPTH_IN_DEADLOCK_CHECK <? length (tc_states c)) || (LOCK_MAX_N_STEPS_IN_DEADLOCK_CHECK <? tc_cost c)%N.

Definition tab_push (lock : list nat) (c : tab_checker_t) : option tab_checker_t :=
  if MAX_STACK_SIZE <=? length (tc_states c) then None
  else Some (mk_tab_checker (tc_cost c) (tc_start c) (tc_too_deep c) (tc_wait_lock c) (tc_visited c) (mk_tab_state lock (tc_wait_lock c) :: tc_states c)).

Definition tab_is_visited (c : tab_checker_t) (lock : tab_lock_t) : bool := bool_decide (tl_trx lock ∈ tc_visited c).

Fixpoint tab_skip_visited (c : tab_checker_t) (lock : list nat) : TS (list nat) :=
  match lock with
  | [] => mret []
  | x :: rest =>
      l ← the_lock x;
      if tab_is_visited c l then tab_skip_visited c rest else mret lock
  end.

Definition tab_get_next_lock (c : tab_checker_t) (lock : list nat) : TS (list nat) := tab_skip_visited c (tail lock).

Section config.
  Context (cfg : config).

Definition tab_get_first_lock (c : tab_checker_t) : TS (list nat) :=
  w ← the_lock (tc_wait_lock c);
  tb ← the_table (tl_table w);
  match locks tb with
  | [] => fail AssertFail
  | x :: _ =>
      first ← the_lock x;
      _ ← assert_ (negb (x =? tc_wait_lock c) || uses_vats cfg (tl_trx first));
      mret (locks tb)
  end.

Definition tab_TRX_WEIGHT (t : tab_trx_t) : Z := w_undo_no (tt_work t) + Z.of_nat (length (tt_locks t)).

Definition tab_trx_weight_ge (a b : tab_trx_t) : bool :=
  if negb (eqb (w_notrans_edit (tt_work a)) (w_notrans_edit (tt_work b))) then w_notrans_edit (tt_work a)
  else (tab_TRX_WEIGHT b <=? tab_TRX_WEIGHT a)%Z.

Definition tab_select_victim (c : tab_checker_t) : TS nat :=
  w ← the_lock (tc_wait_lock c);
  a ← the_trx (tl_trx w);
  b ← the_trx (tc_start c);
  mret (if tab_trx_weight_ge a b then tc_start c else tl_trx w).

Definition tab_too_deep (c : tab_checker_t) : tab_checker_t :=
  mk_tab_checker (tc_cost c) (tc_start c) true (tc_wait_lock c) (tc_visited c) (tc_states c).

(** The inner loop of [search]: back to the last state with a lock left. *)
Fixpoint tab_pop_loop (c : tab_checker_t) (stack : list tab_state_t) (lock : list nat) : TS (tab_checker_t * list nat) :=
  match lock, stack with
  | [], st :: stack =>
      let c := mk_tab_checker (tc_cost c) (tc_start c) (tc_too_deep c) (ts_wait_lock st) (tc_visited c) stack in
      lock ← tab_get_next_lock c (ts_lock st);
      tab_pop_loop c stack lock
  | _, _ => mret (c, lock)
  end.

(** A transaction ahead waits as well: the search goes on with its waiting lock. *)
Definition tab_search_deeper (c : tab_checker_t) (lock : list nat) (t : tab_trx_t) : TS (option nat * tab_checker_t + tab_checker_t * list nat) :=
  let c := mk_tab_checker (tc_cost c + 1) (tc_start c) (tc_too_deep c) (tc_wait_lock c) (tc_visited c) (tc_states c) in
  match tab_push lock c with
  | None => mret (inl (Some (tc_start c), tab_too_deep c))
  | Some c =>
      w ← deref (tt_wait_lock t);
      let c := mk_tab_checker (tc_cost c) (tc_start c) (tc_too_deep c) w (tc_visited c) (tc_states c) in
      lock ← tab_get_first_lock c;
      lock ← tab_skip_visited c lock;
      mret (inr (c, lock))
  end.

(** The cases of the outer loop: the result, or the checker and the current lock for the
    next turn. *)
Definition tab_search_case (c : tab_checker_t) (lock : list nat) : TS (option nat * tab_checker_t + tab_checker_t * list nat) :=
  match lock with
  | [] => _ ← assert_ (bool_decide (tc_states c = [])); mret (inl (None, c))
  | x :: _ =>
      l ← the_lock x;
      w ← the_lock (tc_wait_lock c);
      if x =? tc_wait_lock c then
        mret (inr (mk_tab_checker (tc_cost c) (tc_start c) (tc_too_deep c) (tc_wait_lock c) (tl_trx l :: tc_visited c) (tc_states c), []))
      else if negb (tl_has_to_wait w l) then
        lock ← tab_get_next_lock c lock;
        mret (inr (c, lock))
      else if tl_trx l =? tc_start c then
        victim ← tab_select_victim c;
        mret (inl (Some victim, c))
      else if tab_is_too_deep c then mret (inl (Some (tc_start c), tab_too_deep c))
      else
        t ← the_trx (tl_trx l);
        if decide (tt_que_state t = TRX_QUE_LOCK_WAIT) then tab_search_deeper c lock t
        else
          lock ← tab_get_next_lock c lock;
          mret (inr (c, lock))
  end.

Definition tab_search_turn (c : tab_checker_t) (lock : list nat) : TS (option nat * tab_checker_t + tab_checker_t * list nat) :=
  '(c, lock) ← tab_pop_loop c (tc_states c) lock;
  tab_search_case c lock.

(** Up to 2^[n] turns of the outer loop. *)
Fixpoint tab_search_turns (n : nat) (c : tab_checker_t) (lock : list nat) : TS (option nat * tab_checker_t + tab_checker_t * list nat) :=
  match n with
  | 0 => tab_search_turn c lock
  | S n =>
      r ← tab_search_turns n c lock;
      match r with
      | inl r => mret (inl r)
      | inr (c, lock) => tab_search_turns n c lock
      end
  end.

(** The number of steps is limited, and between two steps the search looks at each lock of
    a table at most once. *)
Definition tab_search_fuel (s : tab_sys_t) : nat := 20 + size (heap s).

(** The search for the lock at [id] of [trx]: the victim, and whether it is too deep. *)
Definition tab_search (id trx : nat) : TS (option nat * bool) :=
  let c := mk_tab_checker 0 trx false id [] [] in
  lock ← tab_get_first_lock c;
  n ← gets tab_search_fuel;
  r ← tab_search_turns n c lock;
  match r with
  | inl (victim, c) => mret (victim, tab_is_too_deep c)
  | inr _ => fail OutOfFuel
  end.

End config.

(** ** Turns *)

(** What a loop of turns comes to: [P] holds before each of them, [R] of the result, and the
    measure goes down. *)
Section turns.
  Context (cfg : config) (s : tab_sys_t) (P : tab_checker_t → list nat → Prop) (R : option nat → tab_checker_t → Prop) (mu : tab_checker_t → list nat → Z).
  Context (Hturn : ∀ c lock, P c lock → ∃ r, tab_search_turn cfg c lock s = Ok (r, s) ∧
    match r with inl (v, c') => R v c' | inr (c', lock') => P c' lock' ∧ (mu c' lock' < mu c lock)%Z end).

Lemma tab_search_turns_Ok n c lock : P c lock →
  ∃ r, tab_search_turns cfg n c lock s = Ok (r, s) ∧
    match r with inl (v, c') => R v c' | inr (c', lock') => P c' lock' ∧ (mu c' lock' + 2 ^ Z.of_nat n ≤ mu c lock)%Z end.
Proof.
  revert c lock. induction n as [|n IH]; intros c lock HP; cbn [tab_search_turns].
  { destruct (Hturn c lock HP) as (r & -> & Hr). exists r. split; [done|]. destruct r as [[]|[]]; [done|]. cbn. split; [apply Hr|lia]. }
  destruct (IH c lock HP) as (r & Hrun & Hr). setoid_rewrite (bind_Ok _ _ _ _ _ Hrun). destruct r as [[v c']|[c' lock']]; [by eexists|].
  destruct Hr as [HP' Hmu]. destruct (IH c' lock' HP') as (r & -> & Hr). exists r. split; [done|]. destruct r as [[]|[]]; [done|].
  rewrite Nat2Z.inj_succ, Z.pow_succ_r by lia. split; [apply Hr|lia].
Qed.

(** Enough turns give a result. *)
Lemma tab_search_result n c lock : P c lock → (∀ c lock, P c lock → 0 ≤ mu c lock)%Z → (mu c lock < 2 ^ Z.of_nat n)%Z →
  ∃ v c', tab_search_turns cfg n c lock s = Ok (inl (v, c'), s) ∧ R v c'.
Proof.
  intros HP Hpos Hlt. destruct (tab_search_turns_Ok n c lock HP) as (r & Hrun & Hr). destruct r as [[v c']|[c' lock']]; [by exists v, c'|].
  destruct Hr as [HP' Hmu]. specialize (Hpos _ _ HP'). lia.
Qed.

End turns.

(** ** Answers *)

Lemma tab_skip_visited_Ok s c lock : (∀ x, x ∈ lock → is_Some (heap s !! x)) → ∃ lock', tab_skip_visited c lock s = Ok (lock', s) ∧ lock' `suffix_of` lock.
Proof.
  induction lock as [|x lock IH]; intros Hh; cbn [tab_skip_visited]; [by exists []|]. destruct (Hh x) as [l Hl]; [left|]. setoid_rewrite (the_lock_Ok _ _ _ _ Hl).
  destruct (tab_is_visited c l); [|by exists (x :: lock)]. destruct IH as (lock' & Hrun & Hsuf); [intros y Hy; apply Hh; by right|]. exists lock'. split; [done|]. by apply suffix_cons_r.
Qed.

(** The steps that are left, and the locks in the lists. *)
Definition search_measure (s : tab_sys_t) (c : tab_checker_t) (lock : list nat) : Z :=
  (1000001 - Z.of_N (tc_cost c)) * (Z.of_nat (size (heap s)) + 1) + Z.of_nat (length lock) + Z.of_nat (sum_list (length ∘ ts_lock <$> tc_states c)).

Lemma fuel_enough s c lock : tc_cost c = 0%N → tc_states c = [] → length lock ≤ size (heap s) → (search_measure s c lock < 2 ^ Z.of_nat (tab_search_fuel s))%Z.
Proof.
  intros Hc Hst Hl. unfold search_measure, tab_search_fuel. rewrite Hc, Hst. cbn [fmap list_fmap sum_list]. rewrite Nat2Z.inj_add, Z.pow_add_r by lia.
  assert (Z.of_nat (size (heap s)) + 1 ≤ 2 ^ Z.of_nat (size (heap s)))%Z by (pose proof (Z.pow_gt_lin_r 2 (Z.of_nat (size (heap s)))); lia). change (2 ^ Z.of_nat 20)%Z with 1048576%Z. lia.
Qed.

Section answers.
  Context (cfg : config) (s : tab_sys_t) (id t : nat) (Hok : tab_ok (Some t) s).

(** Locks in queues, and one that its transaction waits for. *)
Definition known (lock : list nat) : Prop := ∀ x, x ∈ lock → ∃ l, queued s x l.

Definition waits_at (w : nat) : Prop := ∃ lw trx, queued s w lw ∧ tab_trxs s !! tl_trx lw = Some trx ∧ tt_wait_lock trx = Some w.

Lemma known_heap lock x : known lock → x ∈ lock → is_Some (heap s !! x).
Proof. intros Hk Hx. destruct (Hk x Hx) as (l & [Hl _]). by eexists. Qed.

Lemma known_suffix lock lock' : known lock → lock' `suffix_of` lock → known lock'.
Proof. intros Hk [pre ->] x Hx. apply Hk, elem_of_app. by right. Qed.

Lemma queue_known n tb : tables s !! n = Some tb → known (locks tb).
Proof. intros Htb x Hx. destruct (queued_elem _ _ _ _ (proj1 Hok) n tb x Htb Hx) as (l & Q & _). by exists l. Qed.

Lemma queue_length n tb : tables s !! n = Some tb → length (locks tb) ≤ size (heap s).
Proof.
  intros Htb. rewrite <-(size_dom (D := gset nat)), <-(size_list_to_set (C := gset nat) (locks tb)) by (by eapply (ti_nodup _ _ _ _ (proj1 Hok))).
  apply subseteq_size. intros x Hx%elem_of_list_to_set. apply elem_of_dom. by apply (known_heap (locks tb)); [eapply queue_known|].
Qed.

(** The first lock, unless the wait is over and it is the lock itself. *)
Lemma tab_get_first_lock_Ok c lw tb : queued s (tc_wait_lock c) lw → tables s !! tl_table lw = Some tb → head (locks tb) ≠ Some (tc_wait_lock c) ∨ uses_vats cfg (tl_trx lw) = true →
  tab_get_first_lock cfg c s = Ok (locks tb, s).
Proof.
  intros Q Htb Hfirst. unfold tab_get_first_lock. setoid_rewrite (the_lock_Ok _ _ _ _ (proj1 Q)). setoid_rewrite (the_table_Ok _ _ _ _ Htb).
  destruct Q as [Hl (tb' & Htb' & Hin)]. assert (tb' = tb) as -> by congruence. assert (Hk := queue_known _ _ Htb). destruct (locks tb) as [|x q] eqn:E; [by apply elem_of_nil in Hin|].
  destruct (Hk x) as (l & [Hx _]); [left|]. setoid_rewrite (the_lock_Ok _ _ _ _ Hx). rewrite assert_true; [done|]. apply orb_true_iff. destruct (Nat.eqb_spec x (tc_wait_lock c)) as [->|]; [right|by left].
  destruct Hfirst as [H|H]; [by destruct H|]. congruence.
Qed.

(** A lock that waits is not the first one. *)
Lemma waiting_not_first w lw tb : queued s w lw → tl_wait lw = true → tables s !! tl_table lw = Some tb → head (locks tb) ≠ Some w.
Proof.
  intros Q Hw Htb Hh. destruct (proj2 Hok w lw Q Hw) as (tb' & y & ly & Htb' & Hy & _). assert (tb' = tb) as -> by congruence.
  destruct (locks tb) as [|x q]; [done|]. injection Hh as ->. cbn [ahead] in Hy. rewrite decide_True in Hy by done. by apply elem_of_nil in Hy.
Qed.

Lemma waits_at_first c : waits_at (tc_wait_lock c) → ∃ q, tab_get_first_lock cfg c s = Ok (q, s) ∧ known q ∧ length q ≤ size (heap s).
Proof.
  intros (lw & trx & Q & Ht & Hw). destruct (queued_ok _ _ _ _ (proj1 Hok) _ _ Q) as (_ & tb & _ & Htb & _). destruct (wait_lock_queued _ s _ trx _ Hok Ht Hw) as (l & [Hl _] & _ & Hwl & _).
  assert (l = lw) as -> by (destruct Q; congruence). exists (locks tb). split_and!; [|by eapply queue_known|by eapply queue_length].
  eapply tab_get_first_lock_Ok; [done..|left]. by apply (waiting_not_first _ lw).
Qed.

(** *** A transaction that waits *)

Definition searching (c : tab_checker_t) (lock : list nat) : Prop :=
  tc_start c = t ∧ (tc_cost c ≤ 1000001)%N ∧ waits_at (tc_wait_lock c) ∧ known lock ∧
  Forall (λ st, waits_at (ts_wait_lock st) ∧ known (ts_lock st) ∧ ts_lock st ≠ []) (tc_states c).

Lemma searching_pos c lock : searching c lock → (0 ≤ search_measure s c lock)%Z.
Proof. intros (_ & Hc & _). unfold search_measure. nia. Qed.

Lemma tab_get_next_lock_Ok c lock : known lock → lock ≠ [] → ∃ lock', tab_get_next_lock c lock s = Ok (lock', s) ∧ known lock' ∧ length lock' < length lock.
Proof.
  intros Hk Hne. destruct lock as [|x lock]; [done|]. assert (Hk' : known lock) by (intros y Hy; apply Hk; by right).
  destruct (tab_skip_visited_Ok s c lock) as (lock' & Hrun & Hsuf); [intros y; by apply known_heap|]. exists lock'. split_and!; [done|by eapply known_suffix|]. apply suffix_length in Hsuf. cbn. lia.
Qed.

Lemma tab_pop_loop_Ok stack c lock : searching c lock → tc_states c = stack →
  ∃ c' lock', tab_pop_loop c stack lock s = Ok ((c', lock'), s) ∧ searching c' lock' ∧ (search_measure s c' lock' ≤ search_measure s c lock)%Z ∧ (lock' = [] → tc_states c' = []).
Proof.
  revert c lock. induction stack as [|st stack IH]; intros c lock Hs Hst; destruct lock as [|x lock]; cbn [tab_pop_loop]; try (by eexists _, _; split_and!; [done..|]).
  assert (Hs' := Hs). destruct Hs' as (H1 & H2 & H3 & H4 & H5). rewrite Hst in H5. apply Forall_cons in H5 as [(W & K & Hne) H5].
  set (c1 := mk_tab_checker _ _ _ _ _ stack). destruct (tab_get_next_lock_Ok c1 (ts_lock st) K Hne) as (lock' & Hrun & K' & Hlen). setoid_rewrite (bind_Ok _ _ _ _ _ Hrun).
  destruct (IH c1 lock') as (c2 & lock2 & Hrun2 & Hs2 & Hmu & Hend); [done..|]. exists c2, lock2. split_and!; [done..| |done]. etrans; [exact Hmu|].
  unfold search_measure. rewrite Hst. cbn. lia.
Qed.

Lemma tab_search_deeper_Ok c x lock l trx : searching c (x :: lock) → queued s x l → tl_trx l ≠ t → tab_is_too_deep c = false → tab_trxs s !! tl_trx l = Some trx → tt_que_state trx = TRX_QUE_LOCK_WAIT →
  ∃ c' lock', tab_search_deeper cfg c (x :: lock) trx s = Ok (inr (c', lock'), s) ∧ searching c' lock' ∧ (search_measure s c' lock' < search_measure s c (x :: lock))%Z.
Proof.
  intros (H1 & H2 & H3 & H4 & H5) Q Hne Hdeep Ht Hq. apply orb_false_iff in Hdeep as [Hd1%Nat.ltb_ge Hd2%N.ltb_ge]. unfold LOCK_MAX_DEPTH_IN_DEADLOCK_CHECK, LOCK_MAX_N_STEPS_IN_DEADLOCK_CHECK in *.
  destruct (proj1 (to_que _ _ _ _ _ _ (ti_trx _ _ _ _ (proj1 Hok) _ _ Ht) (λ E, Hne (eq_sym (f_equal (default 0) E)))) Hq) as [w Hw].
  unfold tab_search_deeper, tab_push. cbn [tc_cost tc_start tc_too_deep tc_wait_lock tc_visited tc_states]. rewrite (proj2 (Nat.leb_gt _ _)) by (unfold MAX_STACK_SIZE; lia).
  rewrite (deref_Some _ _ _ _ Hw). set (c' := mk_tab_checker _ _ _ w _ _).
  destruct (wait_lock_queued _ s _ trx _ Hok Ht Hw) as (lw & Qw & Hlw & _). assert (W : waits_at w) by (exists lw, trx; by rewrite Hlw).
  destruct (waits_at_first c' W) as (q & Hrun & Kq & Hlen). setoid_rewrite (bind_Ok _ _ _ _ _ Hrun).
  destruct (tab_skip_visited_Ok s c' q) as (lock' & Hrun2 & Hsuf); [intros y; by apply known_heap|]. setoid_rewrite (bind_Ok _ _ _ _ _ Hrun2).
  exists c', lock'. apply suffix_length in Hsuf as Hl. split_and!; [done| |].
  - split_and!; [done|cbn; lia|done|by eapply known_suffix|]. by constructor.
  - unfold search_measure. cbn [c' tc_cost tc_states fmap list_fmap sum_list compose ts_lock length]. rewrite N2Z.inj_add. unfold Datatypes.id. cbn [length] in *. lia.
Qed.

Lemma tab_select_victim_Ok c : waits_at (tc_wait_lock c) → tab_waits s (tc_start c) → ∃ v, tab_select_victim c s = Ok (v, s) ∧ tab_waits s v.
Proof.
  intros (lw & trx & Q & Ht & Hw) Hwt. assert (Hwt' := Hwt). destruct Hwt' as (tt & Htt & _). unfold tab_select_victim. setoid_rewrite (the_lock_Ok _ _ _ _ (proj1 Q)).
  setoid_rewrite (the_trx_Ok _ _ _ _ Ht). setoid_rewrite (the_trx_Ok _ _ _ _ Htt). eexists. split; [done|]. destruct (tab_trx_weight_ge trx tt); [done|]. exists trx. by rewrite Hw.
Qed.

(** What a turn comes to. *)
Definition turned (c : tab_checker_t) (lock : list nat) (r : option nat * tab_checker_t + tab_checker_t * list nat) : Prop :=
  match r with
  | inl (v, _) => ∀ u, v = Some u → tab_waits s u
  | inr (c', lock') => searching c' lock' ∧ (search_measure s c' lock' < search_measure s c lock)%Z
  end.

Lemma tab_search_case_Ok c lock : tab_waits s t → searching c lock → (lock = [] → tc_states c = []) →
  ∃ r, tab_search_case cfg c lock s = Ok (r, s) ∧ turned c lock r.
Proof.
  intros Hwt Hs Hend. assert (Hs' := Hs). destruct Hs' as (H1 & H2 & H3 & H4 & H5). destruct lock as [|x lock]; cbn [tab_search_case].
  { rewrite assert_true by (by apply bool_decide_eq_true, Hend). by eexists. }
  destruct (H4 x) as (l & Q); [left|]. setoid_rewrite (the_lock_Ok _ _ _ _ (proj1 Q)). assert (H3' := H3). destruct H3' as (lw & trxw & Qw & Htw & Hww). setoid_rewrite (the_lock_Ok _ _ _ _ (proj1 Qw)).
  assert (Hnext : ∃ r, (lock' ← tab_get_next_lock c (x :: lock); mret (inr (c, lock'))) s = Ok (r, s) ∧ turned c (x :: lock) r).
  { destruct (tab_get_next_lock_Ok c (x :: lock)) as (lock' & Hrun & K & Hlen); [done..|]. setoid_rewrite (bind_Ok _ _ _ _ _ Hrun). eexists. split; [done|]. split; [by split_and!|]. unfold search_measure. lia. }
  destruct (x =? tc_wait_lock c). { eexists. split; [done|]. split; [split_and!; try done; by intros y ?%elem_of_nil|]. unfold search_measure. cbn [tc_cost tc_states length]. lia. }
  destruct (tl_has_to_wait lw l); cbn [negb]; [|exact Hnext]. rewrite H1. destruct (Nat.eqb_spec (tl_trx l) t) as [E|Hne].
  { destruct (tab_select_victim_Ok c H3) as (v & Hrun & Hv); [by rewrite H1|]. setoid_rewrite (bind_Ok _ _ _ _ _ Hrun). eexists. split; [done|]. by intros u [= <-]. }
  destruct (tab_is_too_deep c) eqn:Hdeep. { eexists. split; [done|]. by intros u [= <-]. }
  destruct (queued_ok _ _ _ _ (proj1 Hok) _ _ Q) as (_ & _ & trx & _ & _ & Ht & _). setoid_rewrite (the_trx_Ok _ _ _ _ Ht). destruct (decide (tt_que_state trx = TRX_QUE_LOCK_WAIT)) as [Hq|_]; [|exact Hnext].
  destruct (tab_search_deeper_Ok c x lock l trx) as (c' & lock' & -> & ? & ?); [done..|]. eexists. split; [done|]. done.
Qed.

Lemma tab_search_waiting lw : tab_waits s t → waits_at id → queued s id lw → tl_trx lw = t → ∃ v deep, tab_search cfg id t s = Ok ((v, deep), s) ∧ usable t v deep s.
Proof.
  intros Hwt Hat Q Hlt. unfold tab_search. set (c := mk_tab_checker 0 t false id [] []). destruct (waits_at_first c Hat) as (q & Hrun & Kq & Hlen). setoid_rewrite (bind_Ok _ _ _ _ _ Hrun).
  setoid_rewrite (bind_Ok _ _ s _ s); [|done].
  destruct (tab_search_result cfg s searching (λ v _, ∀ u, v = Some u → tab_waits s u) (search_measure s)) with (n := tab_search_fuel s) (c := c) (lock := q) as (v & c' & Hrun2 & Hv).
  - intros c1 lock1 Hs. unfold tab_search_turn. destruct (tab_pop_loop_Ok (tc_states c1) c1 lock1 Hs eq_refl) as (c2 & lock2 & Hrun2 & Hs2 & Hmu & Hend). setoid_rewrite (bind_Ok _ _ _ _ _ Hrun2).
    destruct (tab_search_case_Ok c2 lock2 Hwt Hs2 Hend) as (r & -> & Hr). exists r. split; [done|]. destruct r as [[]|[]]; [done|]. split; [apply Hr|]. destruct Hr. lia.
  - split_and!; [done|cbn; lia|done..|]. constructor.
  - apply searching_pos.
  - by apply fuel_enough.
  - setoid_rewrite (bind_Ok _ _ _ _ _ Hrun2). exists v, (tab_is_too_deep c'). split; [done|]. intros u ->. destruct (tab_is_too_deep c'); [done|by apply Hv].
Qed.

(** *** A transaction whose lock has been granted *)

Definition passing (tb : dict_table_t) (c : tab_checker_t) (lock : list nat) : Prop :=
  tc_states c = [] ∧ tc_wait_lock c = id ∧ tc_cost c = 0%N ∧
  (lock = [] ∨ tc_visited c = [] ∧ ∃ pre, locks tb = pre ++ lock ∧ id ∈ lock ∧ id ∉ pre).

Lemma ahead_mid (pre lock : list nat) x : id ∉ pre → x ≠ id → x ∈ ahead id (pre ++ x :: lock).
Proof.
  induction pre as [|y pre IH]; intros Hpre Hx; cbn [app ahead].
  - rewrite decide_False by done. left.
  - apply not_elem_of_cons in Hpre as [Hy Hpre]. rewrite decide_False by done. right. by apply IH.
Qed.

Lemma passing_turn l tb c lock : queued s id l → tl_wait l = false → tables s !! tl_table l = Some tb → passing tb c lock →
  ∃ r, tab_search_turn cfg c lock s = Ok (r, s) ∧
    match r with inl (v, _) => v = None | inr (c', lock') => passing tb c' lock' ∧ (search_measure s c' lock' < search_measure s c lock)%Z end.
Proof.
  intros Q Hw Htb (H1 & H2 & H3 & Hl). unfold tab_search_turn. rewrite H1. setoid_rewrite (bind_Ok _ _ s (c, lock) s); [|by destruct lock].
  destruct lock as [|x lock]; cbn [tab_search_case]. { rewrite assert_true by (by apply bool_decide_eq_true). by eexists. }
  destruct Hl as [|(Hv & pre & Hq & Hin & Hpre)]; [done|]. destruct (queue_known _ _ Htb x) as (lx & Qx); [rewrite Hq; apply elem_of_app; right; left|].
  setoid_rewrite (the_lock_Ok _ _ _ _ (proj1 Qx)). rewrite H2. setoid_rewrite (the_lock_Ok _ _ _ _ (proj1 Q)). destruct (Nat.eqb_spec x id) as [->|Hne].
  - eexists. split; [done|]. split; [split_and!; [done..|by left]|]. unfold search_measure. cbn [tc_cost tc_states length]. lia.
  - destruct (tl_has_to_wait l lx) eqn:Hc; cbn [negb].
    { destruct (ti_order _ _ _ _ (proj1 Hok) id l Q Hw). exists tb, x, lx. split_and!; [done| |apply Qx|done]. rewrite Hq. by apply ahead_mid. }
    assert (Hrun : tab_get_next_lock c (x :: lock) s = Ok (lock, s)).
    { unfold tab_get_next_lock. cbn [tail]. destruct lock as [|y lock]; [done|]. cbn [tab_skip_visited]. destruct (queue_known _ _ Htb y) as (ly & Qy); [rewrite Hq; apply elem_of_app; right; right; left|].
      setoid_rewrite (the_lock_Ok _ _ _ _ (proj1 Qy)). unfold tab_is_visited. by rewrite Hv. }
    setoid_rewrite (bind_Ok _ _ _ _ _ Hrun). eexists. split; [done|]. split; [|unfold search_measure; cbn [length]; lia]. split_and!; [done..|right]. split; [done|]. exists (pre ++ [x]).
    apply elem_of_cons in Hin as [->|Hin]; [done|]. split_and!; [by rewrite <-app_assoc|done|]. rewrite not_elem_of_app, list_elem_of_singleton. naive_solver.
Qed.

Lemma tab_search_granted l tb : queued s id l → tl_trx l = t → tl_wait l = false → tables s !! tl_table l = Some tb → head (locks tb) ≠ Some id ∨ uses_vats cfg t = true →
  ∃ deep, tab_search cfg id t s = Ok ((None, deep), s).
Proof.
  intros Q Hlt Hw Htb Hfirst. unfold tab_search. set (c := mk_tab_checker 0 t false id [] []).
  setoid_rewrite (bind_Ok _ _ _ _ _ (tab_get_first_lock_Ok c l tb Q Htb ltac:(by rewrite Hlt))). setoid_rewrite (bind_Ok _ _ s _ s); [|done].
  destruct (tab_search_result cfg s (passing tb) (λ v _, v = None) (search_measure s)) with (n := tab_search_fuel s) (c := c) (lock := locks tb) as (v & c' & Hrun & ->).
  - intros c1 lock1 Hp. destruct (passing_turn l tb c1 lock1 Q Hw Htb Hp) as (r & -> & Hr). exists r. split; [done|]. by destruct r as [[]|[]].
  - split_and!; [done..|right]. split; [done|]. exists []. split_and!; [done| |apply not_elem_of_nil]. destruct Q as [_ (tb' & Htb' & ?)]. by assert (tb' = tb) as -> by congruence.
  - intros c1 lock1 (_ & _ & Hc & _). unfold search_measure. rewrite Hc. lia.
  - apply fuel_enough; [done..|by eapply queue_length].
  - setoid_rewrite (bind_Ok _ _ _ _ _ Hrun). by eexists.
Qed.

End answers.

(** ** What a request can rely on *)

(** The search for the lock at [id] does not start at the first lock of the queue. *)
Definition not_first (id : nat) (s : tab_sys_t) : Prop := ∀ l tb, heap s !! id = Some l → tables s !! tl_table l = Some tb → head (locks tb) ≠ Some id.

(** No transaction other than [t] waits while it has AUTO-INC locks. *)
Definition no_autoinc_waiter (t : nat) (s : tab_sys_t) : Prop :=
  ∀ u trx, u ≠ t → tab_trxs s !! u = Some trx → is_Some (tt_wait_lock trx) → autoinc_locks trx = [].

Section config.
  Context (cfg : config).

Lemma tab_search_Ok id t s : checking id t s → uses_vats cfg t = true ∨ not_first id s → ∃ v deep, tab_search cfg id t s = Ok ((v, deep), s) ∧ usable t v deep s.
Proof.
  intros (Hok & l & trx & Q & Hlt & Ht & Hcase) Hfirst. destruct (queued_ok _ _ _ _ (proj1 Hok) _ _ Q) as (_ & tb & trx' & Htb & _ & Ht' & Hin). assert (trx' = trx) as -> by congruence. destruct Hcase as [Hn|Hw].
  - assert (Hnw : tl_wait l = false). { apply not_true_is_false. intros Hw. rewrite (to_waits _ _ _ _ _ _ (ti_trx _ _ _ _ (proj1 Hok) _ _ Ht) id l Hin (proj1 Q) Hw) in Hn. done. }
    destruct (tab_search_granted cfg s id t Hok l tb Q Hlt Hnw Htb) as (deep & ->); [|by exists None, deep]. destruct Hfirst as [|H]; [by right|left]. apply (H l); [apply Q|done].
  - apply (tab_search_waiting cfg s id t Hok l); [|exists l, trx; by rewrite Hlt|done..]. exists trx. by rewrite Hw.
Qed.

(** A granted lock that is the first one of its queue. *)
Lemma tab_search_first id t s : checking id t s → uses_vats cfg t = false → ¬ not_first id s → tab_search cfg id t s = Err AssertFail.
Proof.
  intros (Hok & l & trx & Q & Hlt & Ht & Hcase) Hv Hfirst. destruct (queued_ok _ _ _ _ (proj1 Hok) _ _ Q) as (_ & tb & _ & Htb & _).
  destruct (locks tb) as [|x q] eqn:E.
  { destruct Hfirst. intros l' tb' Hl' Htb'. assert (l' = l) as -> by (destruct Q; congruence). assert (tb' = tb) as -> by congruence. by rewrite E. }
  assert (x = id) as ->.
  { destruct (decide (x = id)) as [|Hne]; [done|]. destruct Hfirst. intros l' tb' Hl' Htb'. assert (l' = l) as -> by (destruct Q; congruence). assert (tb' = tb) as -> by congruence. rewrite E. cbn. congruence. }
  unfold tab_search. set (c := mk_tab_checker 0 t false id [] []). assert (Hrun : tab_get_first_lock cfg c s = Err AssertFail).
  { unfold tab_get_first_lock. cbn [c tc_wait_lock]. erewrite the_lock_Ok by apply Q. erewrite the_table_Ok by exact Htb. rewrite E. erewrite the_lock_Ok by apply Q. by rewrite Nat.eqb_refl, Hlt, Hv. }
  unfold mbind at 1, M_bind at 1. by rewrite Hrun.
Qed.

(** The search that the request of [t] can use from its first turn to the last one. *)
Definition search_safe (id t : nat) (s : tab_sys_t) : Prop := uses_vats cfg t = true ∨ not_first id s ∧ no_autoinc_waiter t s.

(** The first lock stays the first one when a victim without AUTO-INC locks is rolled back. *)
Lemma rolled_back_first id t u s s' : checking id t s → no_autoinc_waiter t s → not_first id s → u ≠ t → tab_waits s u → rolled_back u s s' → checking id t s' → not_first id s'.
Proof.
  intros Hck Hna Hnf Hne (tu & Hu & [w Hw]) (Hev & _ & Hrb) [Hok' _] l' tb' Hl' Htb' Hhead. destruct Hck as [Hok (l & trx & Q & _)].
  destruct (te_heap _ _ _ Hev _ _ (proj1 Q)) as (l2 & Hl2 & Hcl). assert (l2 = l') as -> by congruence. assert (Hn : tl_table l' = tl_table l) by (by destruct Hcl as [-> | ->]).
  rewrite Hn in Htb'. destruct (te_table _ _ _ Hev _ _ Htb') as (tb & Htb & _ & Hq). destruct (locks tb) as [|h q] eqn:E.
  { destruct Q as [_ (tb0 & Htb0 & Hin)]. assert (tb0 = tb) as -> by congruence. rewrite E in Hin. by apply elem_of_nil in Hin. }
  assert (Hh : h ≠ id) by (intros ->; apply (Hnf l tb); [apply Q|done|by rewrite E]).
  destruct (ti_queue _ _ _ _ (proj1 Hok) _ _ h Htb) as (lh & th & Hlh & Hnh & _ & Hth & Hin); [rewrite E; left|].
  assert (Qh : queued s h lh) by (split; [done|]; exists tb; rewrite Hnh, E; split; [done|left]).
  destruct (te_trxs _ _ _ Hev (tl_trx lh)) as [th' Hth']; [by eexists|].
  assert (Hin' : h ∈ tt_locks th').
  { destruct (decide (tl_trx lh = u)) as [Eu|Hnu].
    - rewrite Eu in Hth, Hth'. assert (th = tu) as -> by congruence. destruct (Hrb tu w Hu Hw) as (tu' & Hu' & _ & Hlk). assert (tu' = th') as -> by congruence.
      rewrite Hlk by (apply (Hna u); [done..|by rewrite Hw]). apply list_elem_of_filter. split; [|done]. intros ->.
      destruct (wait_lock_queued _ s u tu w Hok Hu Hw) as (lw & Qw & _ & Hwt & _). assert (lw = lh) as -> by (destruct Qw; congruence).
      apply (waiting_not_first s t Hok w lh tb Qh Hwt); [by rewrite Hnh|by rewrite E].
    - destruct (te_trx _ _ _ Hev _ _ Hth') as (th0 & Hth0 & _ & _ & _ & Hlk). assert (th0 = th) as -> by congruence. destruct Hlk as [-> _]; [done|]. done. }
  destruct (to_locks _ _ _ _ _ _ (ti_trx _ _ _ _ (proj1 Hok') _ _ Hth') h Hin') as (lh' & [Hlh' (tb2 & Htb2 & Hx)] & _). destruct (te_heap _ _ _ Hev _ _ Hlh) as (lh2 & Hlh2 & Hclh).
  assert (lh2 = lh') as -> by congruence. assert (tl_table lh' = tl_table lh) as E2 by (by destruct Hclh as [-> | ->]). rewrite E2, Hnh in Htb2. assert (tb2 = tb') as -> by congruence.
  destruct (Hq h Hx) as [_ Ha]. destruct (locks tb') as [|y q']; [done|]. injection Hhead as ->. apply elem_of_nil with id. specialize (Ha id). cbn [ahead] in Ha.
  rewrite (decide_False (P := id = h)) in Ha by done. rewrite (decide_True (P := h = h)) in Ha by done. apply Ha. left.
Qed.

(** Who still waits has the AUTO-INC locks it had. *)
Lemma rolled_back_no_autoinc id t u s s' : checking id t s → no_autoinc_waiter t s → u ≠ t → rolled_back u s s' → checking id t s' → no_autoinc_waiter t s'.
Proof.
  intros [Hok _] Hna Hne (Hev & (tu & w & Hu & Hw & Hnq) & Hrb) [Hok' _] v tv' Hv Htv' [y Hy]. destruct (te_trx _ _ _ Hev _ _ Htv') as (tv & Htv & _ & Hor & _ & Hlk).
  destruct Hor as [|E]; [congruence|]. assert (Hnil : autoinc_locks tv = []) by (apply (Hna v); [done..|by rewrite <-E, Hy]). assert (Hk := ti_trx _ _ _ _ (proj1 Hok) _ _ Htv).
  assert (Hvu : v ≠ u). { intros ->. destruct (Hrb tu w Hu Hw) as (tu' & Hu' & Hn & _). congruence. }
  destruct (Hlk Hvu) as [El _]. assert (Hk' := ti_trx _ _ _ _ (proj1 Hok') _ _ Htv').
  destruct (to_auto_last _ _ _ _ _ _ Hk') as [|[x Hx]]; [done|]. assert (Hin : x ∈ entries (autoinc_locks tv')) by (apply elem_entries; by apply last_Some_elem_of).
  apply (to_auto _ _ _ _ _ _ Hk') in Hin as (Hin & l' & Hl' & Ha & Hwl'). rewrite El in Hin. destruct (to_locks _ _ _ _ _ _ Hk x Hin) as (l & Q & _).
  destruct (te_heap _ _ _ Hev _ _ (proj1 Q)) as (l2 & Hl2 & Hcl). assert (l2 = l') as -> by congruence. destruct (tl_wait l) eqn:Hwl.
  - assert (E2 := to_waits _ _ _ _ _ _ Hk x l Hin (proj1 Q) Hwl). destruct (to_wait _ _ _ _ _ _ Hk' y Hy) as (_ & ly & Hly & Hwy); [done|]. assert (y = x) as -> by congruence. congruence.
  - assert (Hin2 : x ∈ entries (autoinc_locks tv)); [|by rewrite Hnil in Hin2; apply elem_of_nil in Hin2]. apply (to_auto _ _ _ _ _ _ Hk). split; [done|]. exists l. split_and!; [apply Q| |done].
    rewrite <-Ha. destruct Hcl as [-> | ->]; [done|]. unfold is_autoinc. by rewrite clear_wait_mode.
Qed.

Lemma tab_search_search_ok : search_ok search_safe (tab_search cfg).
Proof.
  split.
  - intros id t s Hck [Hv|[Hnf _]]; apply tab_search_Ok; auto.
  - intros id t u s s' Hck [Hv|[Hnf Hna]] Hne Hw Hrb Hck'; [by left|right]. split; [by apply (rolled_back_first id t u s)|by apply (rolled_back_no_autoinc id t u s)].
Qed.

End config.

(** ** Searches that may fail *)

(** Every answer of the search is one a request can use; it need not answer. *)
Definition answers_usable (search : nat → nat → TS (option nat * bool)) : Prop :=
  ∀ id t s v deep s', checking id t s → search id t s = Ok ((v, deep), s') → s' = s ∧ usable t v deep s.

Lemma tab_search_usable cfg : answers_usable (tab_search cfg).
Proof.
  intros id t s v deep s' Hck. destruct (decide (uses_vats cfg t = true)) as [Hv|Hv].
  { destruct (tab_search_Ok cfg id t s Hck (or_introl Hv)) as (v' & deep' & -> & Hu). by intros [= <- <- <-]. }
  assert (Hem : not_first id s ∨ ¬ not_first id s).
  { destruct Hck as [Hok (l & trx & Q & _)]. destruct (queued_ok _ _ _ _ (proj1 Hok) _ _ Q) as (_ & tb & _ & Htb & _). destruct (decide (head (locks tb) = Some id)) as [E|E].
    - right. intros H. by apply (H l tb (proj1 Q) Htb).
    - left. intros l' tb' Hl' Htb'. assert (l' = l) as -> by (destruct Q; congruence). by assert (tb' = tb) as -> by congruence. }
  destruct Hem as [Hf|Hf].
  - destruct (tab_search_Ok cfg id t s Hck (or_intror Hf)) as (v' & deep' & -> & Hu). by intros [= <- <- <-].
  - apply not_true_is_false in Hv. by rewrite tab_search_first.
Qed.

(** The search with an answer where it fails. *)
Definition complete (search : nat → nat → TS (option nat * bool)) (id t : nat) : TS (option nat * bool) := λ s,
  match search id t s with Ok r => Ok r | Err _ => Ok ((None, false), s) end.

Lemma complete_ok search : answers_usable search → search_ok (λ _ _ _, True) (complete search).
Proof.
  intros Ha. split; [|done]. intros id t s Hck _. unfold complete. destruct (search id t s) as [[[v deep] s']|] eqn:E; [|by exists None, false].
  destruct (Ha _ _ _ _ _ _ Hck E) as [-> Hu]. by exists v, deep.
Qed.

(** What returns with a search returns the same with its completion. *)
Definition agrees {A} (m m' : TS A) : Prop := ∀ s r, m s = Ok r → m' s = Ok r.

Lemma agrees_bind {A B} (m m' : TS A) (f f' : A → TS B) : agrees m m' → (∀ a, agrees (f a) (f' a)) → agrees (m ≫= f) (m' ≫= f').
Proof. intros Hm Hf s r. unfold mbind, M_bind. destruct (m s) as [[a s1]|] eqn:E; [|done]. rewrite (Hm _ _ E). apply Hf. Qed.

Lemma agrees_refl {A} (m : TS A) : agrees m m.
Proof. by intros s r. Qed.

Lemma tab_resolve_loop_agrees search fuel id t : agrees (tab_resolve_loop search fuel id t) (tab_resolve_loop (complete search) fuel id t).
Proof.
  induction fuel as [|fuel IH]; cbn [tab_resolve_loop]; (apply agrees_bind; [intros s r E; unfold complete; by rewrite E|]); intros [v deep]; repeat case_match; try apply agrees_refl.
  apply agrees_bind; [apply agrees_refl|done].
Qed.

Lemma lock_table_agrees cfg search table mode t node : agrees (lock_table cfg search table mode t node) (lock_table cfg (complete search) table mode t node).
Proof.
  unfold lock_table, lock_table_enqueue_waiting, tab_check_and_resolve.
  repeat first [apply agrees_refl | apply tab_resolve_loop_agrees | apply agrees_bind; [|intros ?] | case_match].
Qed.
