(* ===== verification/InnoTableDrop.v ===== *)
(** Removing the locks of a table of InnoDB (project 4) that is dropped or truncated, with
    the gaps it leaves in the vectors of the transactions. *)
From stdpp Require Import functions base tactics numbers option list list_numbers gmap sets relations sorting.
From Stdlib Require Import ZArith Lia.
From S2P Require Import Prelude InnoMode InnoSys InnoRequest InnoTable InnoTableInv InnoTableStep InnoTableRemove InnoTableEnd.

(** The locks that go. *)
Definition drops (s : tab_sys_t) (sx : bool) (x : nat) : bool :=
  match heap s !! x with Some l => sx || negb (IS_LOCK_S_OR_X l) | None => false end.

(** The addresses in [G] may be taken from the queue of the table: the locks on it are those
    of active transactions, the ones in [G] are granted, and a lock that waits has to wait
    for one that stays. *)
Definition quiet_for (G : nat → Prop) (s : tab_sys_t) (table : nat) : Prop :=
  ∀ x l, queued s x l → tl_table l = table →
    (∃ trx, tab_trxs s !! tl_trx l = Some trx ∧ tt_state trx = TRX_STATE_ACTIVE) ∧ (G x → tl_wait l = false) ∧
    (tl_wait l = true → ∃ tb y ly, tables s !! table = Some tb ∧ y ∈ ahead x (locks tb) ∧ heap s !! y = Some ly ∧ tl_has_to_wait l ly = true ∧ ¬ G y).

(** What stays as it is when locks in [G] are removed. *)
Definition keeps (G : nat → Prop) (s s' : tab_sys_t) : Prop :=
  heap s' = heap s ∧
  (∀ n tb, tables s !! n = Some tb → ∃ tb' (R : list nat), tables s' !! n = Some tb' ∧ locks tb' = filter (λ x, x ∉ R) (locks tb) ∧ ∀ x, x ∈ R → G x) ∧
  (∀ n, tables s !! n = None → tables s' !! n = None) ∧
  (∀ t trx, tab_trxs s !! t = Some trx → ∃ trx', tab_trxs s' !! t = Some trx' ∧ tt_state trx' = tt_state trx ∧ tt_wait_lock trx' = tt_wait_lock trx ∧
     tt_que_state trx' = tt_que_state trx ∧ tt_work trx' = tt_work trx) ∧
  ∀ t trx', tab_trxs s' !! t = Some trx' → ∃ trx, tab_trxs s !! t = Some trx ∧ tt_state trx' = tt_state trx ∧ tt_wait_lock trx' = tt_wait_lock trx ∧
     tt_work trx' = tt_work trx ∧ (tt_tidy trx → tt_tidy trx').

Lemma filter_all_in (P : nat → Prop) `{!∀ x, Decision (P x)} (q : list nat) : (∀ x, x ∈ q → P x) → filter P q = q.
Proof.
  induction q as [|x q IH]; intros Hq; [done|]. rewrite filter_cons, decide_True by (apply Hq; left). f_equal. apply IH. intros y Hy. apply Hq. by right.
Qed.

Lemma filter_not_nil (q : list nat) : filter (λ x, x ∉ ([] : list nat)) q = q.
Proof. apply filter_all_in. intros x _. apply not_elem_of_nil. Qed.

Lemma tab_ahead_filter (P : nat → Prop) `{!∀ x, Decision (P x)} x q : P x → ahead x (filter P q) = filter P (ahead x q).
Proof.
  intros Hx. induction q as [|y q IH]; [done|]. rewrite filter_cons. cbn [ahead]. destruct (decide (y = x)) as [->|Hy].
  - rewrite decide_True by done. cbn [ahead]. by rewrite decide_True.
  - rewrite filter_cons. destruct (decide (P y)); [|done]. cbn [ahead]. by rewrite decide_False, IH.
Qed.

Lemma keeps_refl G s : keeps G s s.
Proof.
  split_and!; try done; [intros n tb ?; exists tb, []|intros t trx ?; by exists trx..]. split_and!; [done|by rewrite filter_not_nil|by intros x ?%elem_of_nil].
Qed.

Lemma keeps_trans G s1 s2 s3 : keeps G s1 s2 → keeps G s2 s3 → keeps G s1 s3.
Proof.
  intros (A1 & A2 & A3 & A4 & A5) (B1 & B2 & B3 & B4 & B5). split_and!; [congruence| |auto|..].
  - intros n tb Hn. destruct (A2 n tb Hn) as (tb1 & R1 & Hn1 & E1 & G1). destruct (B2 n tb1 Hn1) as (tb2 & R2 & Hn2 & E2 & G2). exists tb2, (R1 ++ R2).
    split_and!; [done| |intros x [?|?]%elem_of_app; auto]. rewrite E2, E1, list_filter_filter. apply filter_ext_in. intros x _. rewrite not_elem_of_app. tauto.
  - intros t trx Ht. destruct (A4 t trx Ht) as (trx1 & Ht1 & E1 & E2 & E3 & E4). destruct (B4 t trx1 Ht1) as (trx2 & Ht2 & F1 & F2 & F3 & F4). exists trx2. split_and!; congruence.
  - intros t trx Ht. destruct (B5 t trx Ht) as (trx1 & Ht1 & E1 & E2 & E3 & E4). destruct (A5 t trx1 Ht1) as (trx2 & Ht2 & F1 & F2 & F3 & F4). exists trx2. split_and!; [congruence..|auto].
Qed.

Lemma keeps_queued G s s' x l : keeps G s s' → queued s' x l → queued s x l.
Proof.
  intros (A1 & A2 & A3 & _) [Hl (tb' & Htb' & Hx)]. split; [congruence|]. destruct (tables s !! tl_table l) as [tb|] eqn:Htb; [|by rewrite (A3 _ Htb) in Htb'].
  exists tb. split; [done|]. destruct (A2 _ _ Htb) as (tb2 & R & Hn & E & _). assert (tb2 = tb') as -> by congruence. rewrite E in Hx. by apply list_elem_of_filter in Hx as [_ ?].
Qed.

Lemma keeps_quiet G s s' table : keeps G s s' → quiet_for G s table → quiet_for G s' table.
Proof.
  intros Hk Hs x l Q Hn. assert (Hq := keeps_queued _ _ _ _ _ Hk Q). destruct (Hs x l Hq Hn) as ((trx & Htrx & Hact) & Hg & Hb). destruct Hk as (A1 & A2 & _ & A4 & _).
  destruct (A4 _ _ Htrx) as (trx' & ? & ? & _). split_and!; [exists trx'; split; congruence|done|]. intros Hw. destruct (Hb Hw) as (tb & y & ly & Htb & Hy & Hly & Hc & Hng).
  destruct (A2 _ _ Htb) as (tb' & R & Htb' & E & HR). exists tb', y, ly. rewrite E, A1. split_and!; [done| |done..].
  destruct Q as [_ (tb2 & Htb2 & Hx)]. rewrite Hn in Htb2. assert (tb2 = tb') as -> by congruence. rewrite E in Hx. apply list_elem_of_filter in Hx as [Hx _].
  rewrite tab_ahead_filter by done. apply list_elem_of_filter. split; [by intros ?%HR|done].
Qed.

Lemma keeps_drops G s s' sx x : keeps G s s' → drops s' sx x = drops s sx x.
Proof. intros [E _]. unfold drops. by rewrite E. Qed.

(** ** One lock *)

Lemma drop_one_Ok G s id l tb trx :
  tab_ok None s → quiet_for G s (tl_table l) → G id → queued s id l → tables s !! tl_table l = Some tb → tab_trxs s !! tl_trx l = Some trx →
  ∃ s' w v, (_ ← lock_trx_table_locks_remove id; lock_table_remove_low id) s = Ok (tt, s') ∧ tab_ok None s' ∧ keeps G s s' ∧
    tables s' = <[tl_table l := remove_table id l tb]> (tables s) ∧ tab_trxs s' = <[tl_trx l := set_table_locks w (remove_trx id v trx)]> (tab_trxs s).
Proof.
  intros [Hinv Hset] Hqt HG Q Htb Ht. destruct (Hqt id l Q eq_refl) as ((trx0 & Ht0 & Hact) & Hw & _). specialize (Hw HG). assert (trx0 = trx) as -> by congruence.
  destruct (queued_ok _ _ _ _ Hinv _ _ Q) as (_ & tb0 & trx0 & Htb0 & Hid & Ht1 & Hin). assert (trx0 = trx) as -> by congruence. assert (tb0 = tb) as -> by congruence.
  assert (Hl := proj1 Q). assert (Hk := ti_trx _ _ _ _ Hinv _ _ Ht). destruct (to_tables _ _ _ _ _ _ Hk Hact) as (L1 & L2 & L3).
  destruct (lock_trx_table_locks_remove_run s id l trx Hl Ht L1 (L2 id Hin)) as (w & Hrun & He).
  { intros x Hx. destruct (L3 x Hx) as (lx & ? & ? & ? & _). by exists lx. }
  set (trx1 := set_table_locks w trx) in *. set (s1 := set_trx (tl_trx l) trx1 s) in *.
  assert (Ht1' : tab_trxs s1 !! tl_trx l = Some trx1) by apply lookup_insert_eq.
  destruct (remove_low_run s1 id l tb trx1) as (v & Hrun2 & Hv1 & Hv2 & _); [by destruct (ti_auto _ _ _ _ Hinv _ _ Htb)| |apply Hk|apply Hk|done..|].
  { cbn. rewrite (to_auto _ _ _ _ _ _ Hk). split; [intros (_ & l0 & H0 & ?); by simplify_eq|]. intros ?. split; [done|]. by exists l. }
  assert (Hinv1 := removed_inv None s id l tb trx v Hinv Hl Htb Hid Ht Hv1 Hv2). rewrite Hw in Hinv1. assert (Hq := removed_queued None s id l tb trx v Hinv Hl Htb).
  set (s2 := remove_state s id l tb trx v) in *. assert (Ht2 : tab_trxs s2 !! tl_trx l = Some (remove_trx id v trx)) by apply lookup_insert_eq.
  set (s3 := set_trx (tl_trx l) (set_table_locks w (remove_trx id v trx)) s2).
  assert (E3 : remove_state s1 id l tb trx1 v = s3) by (unfold s3, s2, s1, trx1, remove_state, set_trx; cbn; by rewrite !insert_insert_eq).
  exists s3, w, v. split_and!.
  - erewrite bind_Ok by exact Hrun. by rewrite Hrun2, E3.
  - split.
    + apply (vector_removed_inv None None s2 id l (remove_trx id v trx) w); try done. cbn. rewrite list_elem_of_filter. by intros [? _].
    + apply set_trx_settled. intros x lx [Qx Hne]%Hq Hwx. destruct (decide (tl_table lx = tl_table l)) as [En|Hn].
      * destruct (Hqt x lx Qx En) as (_ & _ & (tb0 & y & ly & H0 & Hy & Hly & Hc & Hng)); [done|]. assert (tb0 = tb) as -> by congruence.
        exists (remove_table id l tb), y, ly. split_and!; [cbn; rewrite En; apply lookup_insert_eq| |done..]. cbn [locks remove_table]. rewrite queue_ahead_filter by done.
        apply list_elem_of_filter. split; [by intros ->|done].
      * eapply (removed_blocked_keep None); try done; [|by apply Hset]. intros tb0 H0 Ha. apply ahead_elem in Ha as [Ha _].
        destruct (queued_elem _ _ _ _ Hinv _ _ _ H0 Ha) as (l0 & Q0 & Hn0). assert (l0 = l) as -> by (destruct Q0; congruence). congruence.
  - split_and!; [done|..].
    + intros n tb0 Hn. cbn. destruct (decide (n = tl_table l)) as [->|]; [rewrite lookup_insert_eq|rewrite lookup_insert_ne by done].
      * exists (remove_table id l tb), [id]. split_and!; [done| |by intros x ->%list_elem_of_singleton]. assert (tb0 = tb) as -> by congruence. cbn. apply filter_ext_in.
        intros x _. by rewrite list_elem_of_singleton.
      * exists tb0, []. split_and!; [done|by rewrite filter_not_nil|by intros x ?%elem_of_nil].
    + intros n Hn. cbn. rewrite lookup_insert_ne; [done|]. intros <-. congruence.
    + intros t tx Htx. cbn. rewrite insert_insert_eq. destruct (decide (t = tl_trx l)) as [->|]; [rewrite lookup_insert_eq|rewrite lookup_insert_ne by done; by exists tx].
      eexists. split; [done|]. by simplify_eq.
    + intros t tx. cbn. rewrite insert_insert_eq. destruct (decide (t = tl_trx l)) as [->|]; [rewrite lookup_insert_eq; intros [= <-]|rewrite lookup_insert_ne by done; by exists tx].
      exists trx. split_and!; [done..|]. intros Htd x Hx. change (x ∈ entries w) in Hx. rewrite He in Hx. apply list_elem_of_filter in Hx as [? Hx]. cbn. apply list_elem_of_filter. split; [done|by apply Htd].
  - done.
  - unfold s3, s2. cbn. by rewrite insert_insert_eq.
Qed.

(** ** The locks of a transaction *)

(** The locks that go are in [G]. *)
Definition covers (G : nat → Prop) (s : tab_sys_t) (table : nat) (sx : bool) : Prop :=
  ∀ x l, queued s x l → tl_table l = table → drops s sx x = true → G x.

Lemma keeps_covers G s s' table sx : keeps G s s' → covers G s table sx → covers G s' table sx.
Proof. intros Hk Hc x l Q Hn. rewrite (keeps_drops G s s') by done. eapply Hc; [by eapply keeps_queued|done]. Qed.

Lemma remove_for_trx_loop_Ok G q s table sx t trx tb :
  tab_ok None s → quiet_for G s table → covers G s table sx → tab_trxs s !! t = Some trx → tables s !! table = Some tb → NoDup q → (∀ x, x ∈ q → x ∈ tt_locks trx) →
  ∃ s' tb', remove_for_trx_loop q table sx s = Ok (tt, s') ∧ tab_ok None s' ∧ keeps G s s' ∧ tables s' !! table = Some tb' ∧
    locks tb' = filter (λ x, ¬ (x ∈ q ∧ drops s sx x = true)) (locks tb).
Proof.
  revert s trx tb. induction q as [|id q IH]; intros s trx tb Hok Hqt Hcv Ht Htb Hnd Hsub; cbn [remove_for_trx_loop].
  { exists s, tb. split_and!; [done|done|apply keeps_refl|done|]. symmetry. apply filter_all_in. by intros x _ [?%elem_of_nil _]. }
  apply NoDup_cons in Hnd as [Hid Hnd]. destruct (to_locks _ _ _ _ _ _ (ti_trx _ _ _ _ (proj1 Hok) _ _ Ht) id) as (l & Q & Htl); [by apply Hsub; left|].
  erewrite the_lock_Ok by apply Q. destruct (queued_ok _ _ _ _ (proj1 Hok) _ _ Q) as ([_ Hty] & _). assert (Hdr : drops s sx id = sx || negb (IS_LOCK_S_OR_X l)) by (unfold drops; by rewrite (proj1 Q)).
  unfold tl_is_table. rewrite Hty. cbn [has_flag]. rewrite <-Hdr. change (has_flag LOCK_TABLE LOCK_TABLE) with true. cbn [andb].
  destruct ((tl_table l =? table) && drops s sx id) eqn:Hc.
  - apply andb_true_iff in Hc as [<-%Nat.eqb_eq Hd]. rewrite <-Htl in Ht. assert (HG : G id) by (by apply (Hcv id l)). destruct (drop_one_Ok G s id l tb trx Hok Hqt HG Q Htb Ht) as (s1 & w & v & Hrun & Hok1 & Hks & E1 & E2).
    destruct (Hqt id l Q eq_refl) as (_ & Hw & _). erewrite bind_Ok by (rewrite assert_true by (by rewrite (Hw HG)); exact Hrun).
    destruct (IH s1 (set_table_locks w (remove_trx id v trx)) (remove_table id l tb)) as (s' & tb' & Hrun' & Hok' & Hks' & Htb' & Hq').
    + done.
    + by eapply keeps_quiet.
    + by eapply keeps_covers.
    + rewrite E2, Htl. apply lookup_insert_eq.
    + rewrite E1. apply lookup_insert_eq.
    + done.
    + intros x Hx. cbn. apply list_elem_of_filter. split; [by intros ->|]. apply Hsub. by right.
    + exists s', tb'. split_and!; [done..|by eapply keeps_trans|done|]. rewrite Hq'. cbn [locks remove_table]. rewrite list_filter_filter. apply filter_ext_in. intros x _.
      rewrite (keeps_drops G s s1) by done. rewrite elem_of_cons. naive_solver.
  - erewrite bind_Ok by done. destruct (IH s trx tb Hok Hqt Hcv Ht Htb Hnd) as (s' & tb' & Hrun' & Hok' & Hks' & Htb' & Hq'); [intros x Hx; apply Hsub; by right|].
    exists s', tb'. split_and!; [done..|]. rewrite Hq'. apply filter_ext_in. intros x Hx. rewrite elem_of_cons. split; [|intros H [? ?]; apply H; auto]. intros H [[->|?] Hd]; [|by apply H].
    destruct (queued_elem _ _ _ _ (proj1 Hok) _ _ _ Htb Hx) as (l0 & Q0 & Hn). assert (l0 = l) as -> by (destruct Q, Q0; congruence). by rewrite Hd, Hn, Nat.eqb_refl in Hc.
Qed.

(** ** The queue of the table *)

Lemma ahead_middle pre id r : id ∉ pre → ahead id (pre ++ id :: r) = pre.
Proof. intros H. change (id :: r) with ([id] ++ r). rewrite app_assoc, ahead_app by (apply elem_of_app; right; by left). by apply ahead_snoc. Qed.

Lemma behind_middle pre id r : id ∉ pre → behind id (pre ++ id :: r) = r.
Proof.
  induction pre as [|x pre IH]; cbn [behind app]; [by rewrite decide_True|]. rewrite not_elem_of_cons. intros [Hx Hp]. rewrite decide_False by congruence. by apply IH.
Qed.

(** The loop goes on behind the lock, or where it was. *)
Lemma next_lock_spec pre id r (b : bool) :
  NoDup (pre ++ id :: r) → next_lock (last pre) id (pre ++ if b then r else id :: r) = head r.
Proof.
  intros Hnd. apply NoDup_app in Hnd as (Hp & Hd & [Hr _]%NoDup_cons). assert (Hid : id ∉ pre) by (intros H; apply (Hd id H); left).
  assert (Hne : head r ≠ Some id) by (intros E; destruct r; simplify_eq/=; apply Hr; left).
  destruct (last pre) as [p|] eqn:Hl; cbn [next_lock].
  - apply last_Some in Hl as [pre' ->]. assert (Hpp : p ∉ pre') by (apply NoDup_app in Hp as (_ & Hp & _); intros H; apply (Hp p H); left). rewrite <-app_assoc. cbn [app]. rewrite behind_middle by done.
    destruct b; [by rewrite decide_False|]. cbn [head]. rewrite decide_True by done. change (p :: id :: r) with ([p] ++ id :: r). rewrite app_assoc. by rewrite behind_middle.
  - apply last_None in Hl as ->. cbn [app]. destruct b; [by rewrite decide_False|]. cbn [head]. rewrite decide_True by done. cbn [behind]. by rewrite decide_True.
Qed.

Lemma remove_all_loop_Ok G fuel s table sx tb pre r :
  tab_ok None s → quiet_for G s table → covers G s table sx → tables s !! table = Some tb → locks tb = pre ++ r → (∀ x, x ∈ pre → drops s sx x = false) → length r ≤ fuel →
  ∃ s' tb', remove_all_loop fuel (head r) table sx s = Ok (tt, s') ∧ tab_ok None s' ∧ keeps G s s' ∧ tables s' !! table = Some tb' ∧
    locks tb' = filter (λ x, drops s sx x = false) (locks tb).
Proof.
  revert s tb pre r. induction fuel as [|fuel IH]; intros s tb pre r Hok Hqt Hcv Htb Hq Hpre Hf.
  { destruct r; [|cbn in Hf; lia]. exists s, tb. split_and!; [done|done|apply keeps_refl|done|]. rewrite Hq, app_nil_r. symmetry. by apply filter_all_in. }
  destruct r as [|id r]; cbn [head remove_all_loop].
  { exists s, tb. split_and!; [done|done|apply keeps_refl|done|]. rewrite Hq, app_nil_r. symmetry. by apply filter_all_in. }
  assert (Hid : id ∈ locks tb) by (rewrite Hq; apply elem_of_app; right; left). destruct (queued_elem _ _ _ _ (proj1 Hok) _ _ _ Htb Hid) as (l & Q & Hn).
  assert (Hnd := ti_nodup _ _ _ _ (proj1 Hok) _ _ Htb). rewrite Hq in Hnd. destruct (Hqt id l Q Hn) as ((trx & Ht & Hact) & Hw & _).
  erewrite the_table_Ok by done. erewrite the_lock_Ok by apply Q. rewrite assert_true.
  2:{ destruct (sx || negb (IS_LOCK_S_OR_X l)) eqn:Hd; [|done]. apply negb_true_iff, Hw, (Hcv id l Q Hn). unfold drops. by rewrite (proj1 Q). }
  destruct (remove_for_trx_loop_Ok G (reverse (tt_locks trx)) s table sx (tl_trx l) trx tb Hok Hqt Hcv Ht Htb) as (s1 & tb1 & Hrun1 & Hok1 & Hks1 & Htb1 & Hq1).
  { rewrite reverse_Permutation. by destruct (ti_trx _ _ _ _ (proj1 Hok) _ _ Ht). }
  { intros x. by rewrite elem_of_reverse. }
  erewrite bind_Ok by (unfold lock_remove_all_on_table_for_trx; erewrite the_trx_Ok by done; exact Hrun1). erewrite the_table_Ok by done.
  set (P := λ x, ¬ (x ∈ reverse (tt_locks trx) ∧ drops s sx x = true)) in Hq1. assert (HP : ∀ x, drops s sx x = false → P x) by (intros x E [_ ?]; congruence).
  rewrite Hq, filter_app in Hq1. rewrite (filter_all_in P pre) in Hq1 by (intros x Hx; by apply HP, Hpre). rewrite filter_cons in Hq1.
  assert (Hown : id ∈ reverse (tt_locks trx)) by (rewrite elem_of_reverse; destruct (queued_ok _ _ _ _ (proj1 Hok) _ _ Q) as (_ & tb0 & trx0 & _ & _ & ? & ?); congruence).
  assert (Hdec : (if decide (P id) then id :: filter P r else filter P r) = if drops s sx id then filter P r else id :: filter P r).
  { assert (HPd : P id ↔ drops s sx id = false) by (split; [intros H; apply not_true_is_false; intros Hd; by apply H|apply HP]). destruct (decide (P id)) as [H|H], (drops s sx id); naive_solver. }
  rewrite Hdec in Hq1. assert (Hnd' : NoDup (pre ++ id :: filter P r)).
  { apply NoDup_app in Hnd as (N1 & N2 & [N3 N4]%NoDup_cons). apply NoDup_app. split_and!; [done| |].
    - intros x Hx [E|[_ ?]%list_elem_of_filter]%elem_of_cons; apply (N2 x Hx); apply elem_of_cons; auto.
    - apply NoDup_cons. split; [by intros [_ ?]%list_elem_of_filter|by apply NoDup_filter]. }
  rewrite Hq, ahead_middle by (apply NoDup_app in Hnd as (_ & H & _); intros Hx; apply (H id Hx); left). rewrite Hq1, next_lock_spec by done.
  destruct (IH s1 tb1 (if drops s sx id then pre else pre ++ [id]) (filter P r)) as (s2 & tb2 & Hrun2 & Hok2 & Hks2 & Htb2 & Hq2).
  - done.
  - by eapply keeps_quiet.
  - by eapply keeps_covers.
  - done.
  - rewrite Hq1. clear. case (drops s sx id); [done|]. by rewrite <-app_assoc.
  - intros x Hx. rewrite (keeps_drops G s s1) by done. clear -Hx Hpre. destruct (drops s sx id) eqn:Hd; [by apply Hpre|]. apply elem_of_app in Hx as [Hx| ->%list_elem_of_singleton]; [by apply Hpre|done].
  - assert (Hlen := length_filter P r). cbn in Hf. lia.
  - exists s2, tb2. split_and!; [done|done|by eapply keeps_trans|done|]. assert (E : locks tb1 = filter P (pre ++ id :: r)).
    { by rewrite Hq1, <-Hdec, filter_app, filter_cons, (filter_all_in P pre) by (intros x Hx; by apply HP, Hpre). }
    rewrite Hq2, E, list_filter_filter. apply filter_ext_in. intros x _. rewrite (keeps_drops G s s1) by done. split; [by intros [? _]|]. auto.
Qed.

(** ** Recovered transactions *)

Definition recovered (s : tab_sys_t) (t : nat) : Prop := ∃ trx, tab_trxs s !! t = Some trx ∧ w_is_recovered (tt_work trx) = true.

(** They do not wait, and their locks on the table are in [G]. *)
Definition recovered_ok (G : nat → Prop) (s : tab_sys_t) (table : nat) : Prop :=
  (∀ t trx, tab_trxs s !! t = Some trx → w_is_recovered (tt_work trx) = true → tt_wait_lock trx = None) ∧
  ∀ x l, queued s x l → tl_table l = table → recovered s (tl_trx l) → G x.

Lemma keeps_recovered G s s' table : keeps G s s' → recovered_ok G s table → recovered_ok G s' table.
Proof.
  intros Hk [H1 H2]. assert (Hq := keeps_queued G s s'). destruct Hk as (K1 & K2 & K3 & K4 & K5). split.
  - intros t trx' Ht' Hr. destruct (K5 _ _ Ht') as (trx & Ht & _ & -> & E & _). rewrite E in Hr. by eapply H1.
  - intros x l Q Hn (trx' & Ht' & Hr). destruct (K5 _ _ Ht') as (trx & Ht & _ & _ & E & _). apply (H2 x l); [by apply Hq|done|]. exists trx. by rewrite <-E.
Qed.

Lemma remove_recovered_loop_Ok G q s table t trx :
  tab_ok None s → quiet_for G s table → recovered_ok G s table → tab_trxs s !! t = Some trx → w_is_recovered (tt_work trx) = true → NoDup q → (∀ x, x ∈ q → x ∈ tt_locks trx) →
  ∃ s', remove_recovered_loop q table t s = Ok (tt, s') ∧ tab_ok None s' ∧ keeps G s s'.
Proof.
  revert s trx. induction q as [|id q IH]; intros s trx Hok Hqt Hrc Ht Hr Hnd Hsub; cbn [remove_recovered_loop].
  { exists s. split_and!; [done..|apply keeps_refl]. }
  apply NoDup_cons in Hnd as [Hid Hnd]. assert (Hin : id ∈ tt_locks trx) by (apply Hsub; left). assert (Hk := ti_trx _ _ _ _ (proj1 Hok) _ _ Ht).
  destruct (to_locks _ _ _ _ _ _ Hk id Hin) as (l & Q & Htl). erewrite the_lock_Ok by apply Q. rewrite assert_true by (by apply Nat.eqb_eq).
  destruct (queued_ok _ _ _ _ (proj1 Hok) _ _ Q) as ([_ Hty] & tb & _ & Htb & _).
  assert (Hw : tl_wait l = false).
  { apply not_true_is_false. intros Hw. assert (E := to_waits _ _ _ _ _ _ Hk id l Hin (proj1 Q) Hw). by rewrite (proj1 Hrc _ _ Ht Hr) in E. }
  rewrite assert_true by (by rewrite Hw). rewrite assert_true by (by rewrite Hty). destruct (Nat.eqb_spec (tl_table l) table) as [<-|Hn].
  - rewrite <-Htl in Ht. assert (HG : G id) by (apply (proj2 Hrc id l); [done..|by exists trx]).
    destruct (drop_one_Ok G s id l tb trx Hok Hqt HG Q Htb Ht) as (s1 & w & v & Hrun & Hok1 & Hks & E1 & E2). erewrite bind_Ok by exact Hrun.
    destruct (IH s1 (set_table_locks w (remove_trx id v trx))) as (s' & Hrun' & Hok' & Hks').
    + done.
    + by eapply keeps_quiet.
    + by eapply keeps_recovered.
    + rewrite E2, Htl. apply lookup_insert_eq.
    + done.
    + done.
    + intros x Hx. cbn. apply list_elem_of_filter. split; [by intros ->|]. apply Hsub. by right.
    + exists s'. split_and!; [done..|by eapply keeps_trans].
  - erewrite bind_Ok by done. apply (IH s trx); try done. intros x Hx. apply Hsub. by right.
Qed.

Lemma remove_recovered_trxs_Ok G ts s table n :
  tab_ok None s → quiet_for G s table → recovered_ok G s table → (∀ t, t ∈ ts → is_Some (tab_trxs s !! t)) →
  ∃ m s', remove_recovered_trxs ts table n s = Ok (m, s') ∧ tab_ok None s' ∧ keeps G s s'.
Proof.
  revert s n. induction ts as [|t ts IH]; intros s n Hok Hqt Hrc Hts; cbn [remove_recovered_trxs].
  { exists n, s. split_and!; [done..|apply keeps_refl]. }
  destruct (Hts t) as [trx Ht]; [left|]. setoid_rewrite (the_trx_Ok _ _ _ _ Ht). destruct (w_is_recovered (tt_work trx)) eqn:Hr; cbn [negb].
  - destruct (remove_recovered_loop_Ok G (tt_locks trx) s table t trx) as (s1 & Hrun & Hok1 & Hks); [done..|by destruct (ti_trx _ _ _ _ (proj1 Hok) _ _ Ht)|done|].
    setoid_rewrite (bind_Ok _ _ _ _ _ Hrun). destruct (IH s1 (S n)) as (m & s' & Hrun' & Hok' & Hks'); [done|by eapply keeps_quiet|by eapply keeps_recovered| |].
    { intros u Hu. destruct (Hts u) as [tu Htu]; [by right|]. destruct Hks as (_ & _ & _ & K4 & _). destruct (K4 _ _ Htu) as (tu' & ? & _). by exists tu'. }
    exists m, s'. split_and!; [done..|by eapply keeps_trans].
  - apply IH; try done. intros u Hu. apply Hts. by right.
Qed.

(** ** All locks *)

(** The lock at [x] is removed. *)
Definition removes (s : tab_sys_t) (sx rollback_complete : bool) (x : nat) : Prop :=
  drops s sx x = true ∨ rollback_complete = false ∧ ∃ l, heap s !! x = Some l ∧ recovered s (tl_trx l).

(** When a table can be dropped or truncated: its locks are those of active transactions,
    the ones that go are granted, one that waits (a table lock S or X, if these stay) has to
    wait for one that stays too, and recovered transactions do not wait. *)
Definition quiet (s : tab_sys_t) (table : nat) (sx rollback_complete : bool) : Prop :=
  quiet_for (removes s sx rollback_complete) s table ∧
  (rollback_complete = false → ∀ t trx, tab_trxs s !! t = Some trx → w_is_recovered (tt_work trx) = true → tt_wait_lock trx = None).

Lemma lock_remove_all_on_table_Ok s table sx rc tb :
  tab_ok None s → quiet s table sx rc → tables s !! table = Some tb →
  ∃ b s' tb', lock_remove_all_on_table table sx rc s = Ok (b, s') ∧ tab_ok None s' ∧ keeps (removes s sx rc) s s' ∧ tables s' !! table = Some tb' ∧
    ∀ x, x ∈ locks tb' → drops s sx x = false.
Proof.
  intros Hok [Hqt Hrc] Htb. set (G := removes s sx rc) in *. assert (Hcv : covers G s table sx) by (intros x l _ _ Hd; by left).
  destruct (remove_all_loop_Ok G (length (locks tb)) s table sx tb [] (locks tb)) as (s1 & tb1 & Hrun & Hok1 & Hks & Htb1 & Hq1); try done; [by intros x ?%elem_of_nil|].
  unfold lock_remove_all_on_table. setoid_rewrite (the_table_Ok _ _ _ _ Htb). setoid_rewrite (bind_Ok _ _ _ _ _ Hrun).
  assert (Hd : ∀ x, x ∈ locks tb1 → drops s sx x = false) by (intros x; rewrite Hq1; by intros [? _]%list_elem_of_filter).
  destruct rc; cbn [negb]; [by exists true, s1, tb1|].
  destruct (remove_recovered_trxs_Ok G (rw_trx_list s1) s1 table 0) as (m & s2 & Hrun2 & Hok2 & Hks2); [done|by eapply keeps_quiet| | |].
  - eapply keeps_recovered; [done|]. split; [by apply Hrc|]. intros x l Q _ Hr. right. split; [done|]. exists l. split; [apply Q|done].
  - intros t. unfold rw_trx_list. rewrite elem_of_reverse, merge_sort_Permutation, elem_of_elements, elem_of_dom. done.
  - assert (Hk2 := Hks2). destruct Hk2 as (_ & K2 & _). destruct (K2 _ _ Htb1) as (tb2 & R & Htb2 & E & _). exists (m =? 0), s2, tb2. split_and!; [|done| |done|].
    + erewrite bind_Ok; [done|]. exact Hrun2.
    + by eapply keeps_trans.
    + intros x. rewrite E. intros [_ ?]%list_elem_of_filter. by apply Hd.
Qed.
