(* ===== verification/InnoTableMain.v ===== *)
(** The table locks of InnoDB (project 4) as a whole: the operations in any order, what holds
    in every state they reach, and what a request and the end of a transaction come to. *)
From stdpp Require Import functions base tactics numbers option list list_numbers gmap sets relations sorting.
From Stdlib Require Import ZArith Lia.
From S2P Require Import Prelude InnoMode InnoSys InnoRequest InnoTable InnoTableInv InnoTableStep InnoTableRemove InnoTableEnd InnoTableRequest InnoTableDeadlock InnoTableDrop.

(** ** Operations *)

(** The entry of a transaction that starts. *)
Definition new_tab_trx : tab_trx_t :=
  mk_tab_trx TRX_STATE_ACTIVE TRX_QUE_RUNNING None false [] [] [] (mk_que_thr false QUE_THR_RUNNING QUE_FORK_ACTIVE QUE_FORK_MYSQL_INTERFACE DB_SUCCESS)
    (mk_work 0 false false 0 false).

(** [TWork] is the work of a transaction on rows, which only changes what the choice of a
    victim, [que_thr_stop] and the removal of the locks of recovered transactions look at.
    [rollback_complete] is that of [lock_sys]. *)
Inductive tab_op : Type :=
  | TBegin (trx : nat)
  | TLock (table : nat) (mode : Z) (trx node : nat)
  | TResurrect (table trx node : nat)
  | TUnlockAutoinc (trx : nat)
  | TTimeout (trx : nat)
  | TRemoveAll (table : nat) (sx rollback_complete : bool)
  | TWork (trx : nat) (work : trx_work_t) (fork : Z) (err : dberr_t)
  | TCommit (trx : nat)
  | TRelease (trx : nat)
  | TEnd (trx : nat).

Definition add_tab_trx (t : nat) (s : tab_sys_t) : tab_sys_t := set_trx t new_tab_trx s.
Definition drop_tab_trx (t : nat) (s : tab_sys_t) : tab_sys_t := mk_tab_sys (heap s) (tables s) (delete t (tab_trxs s)).

Definition set_tab_work (work : trx_work_t) (fork : Z) (err : dberr_t) (trx : tab_trx_t) : tab_trx_t :=
  set_tt_work work (set_tt_thr (mk_que_thr (wait_thr (tt_thr trx)) (thr_state (tt_thr trx)) (graph_state (tt_thr trx)) fork err) trx).

Definition tab_committed (s : tab_sys_t) (t : nat) : Prop := ∃ trx, tab_trxs s !! t = Some trx ∧ tt_state trx = TRX_STATE_COMMITTED_IN_MEMORY.

(** When an operation can happen. Only a running transaction asks for locks, gives up its
    AUTO-INC locks or commits, and for a request nothing stops its query; [node] is memory
    that the lock heap has not handed out; recovery, which takes its locks without a test,
    finds no lock against them; and the locks of a table are removed when those that go are
    granted and of active transactions, and a request that stays also has to wait for one
    that stays ([quiet]). *)
Definition tab_pre (op : tab_op) (s : tab_sys_t) : Prop :=
  match op with
  | TBegin t => tab_trxs s !! t = None
  | TLock table mode t node => tab_running s t ∧ is_Some (tables s !! table) ∧ mode ∈ lock_modes ∧ tab_fresh s node ∧
      ∀ trx, tab_trxs s !! t = Some trx → tab_query_runs trx
  | TResurrect table t node => tab_running s t ∧ tab_fresh s node ∧
      ∃ tb, tables s !! table = Some tb ∧ ∀ x lx, x ∈ locks tb → heap s !! x = Some lx → tl_trx lx ≠ t → lock_mode_compatible (tl_mode lx) LOCK_IX = true
  | TUnlockAutoinc t | TCommit t => tab_running s t
  | TTimeout t | TWork t _ _ _ => is_Some (tab_trxs s !! t)
  | TRemoveAll table sx rc => is_Some (tables s !! table) ∧ quiet s table sx rc
  | TRelease t => tab_committed s t
  | TEnd t => tab_committed s t ∧ tt_locks <$> tab_trxs s !! t = Some []
  end.

Section system.
  Context (cfg : config) (search : nat → nat → TS (option nat * bool)).

Definition tab_exec (op : tab_op) : TS unit :=
  match op with
  | TBegin t => modify (add_tab_trx t)
  | TLock table mode t node => _ ← lock_table cfg search table mode t node; mret tt
  | TResurrect table t node => lock_table_ix_resurrect table t node
  | TUnlockAutoinc t => lock_unlock_table_autoinc t
  | TTimeout t => tab_wait_check_and_cancel t
  | TRemoveAll table sx rc => _ ← lock_remove_all_on_table table sx rc; mret tt
  | TWork t work fork err => modify (update_tab_trx t (set_tab_work work fork err))
  | TCommit t => tab_commit t
  | TRelease t => _ ← tab_release_last t; mret tt
  | TEnd t => _ ← tab_release_end t; modify (drop_tab_trx t)
  end.

(** Tables without locks, each with a struct for its AUTO-INC lock, and no transactions. *)
Definition tab_init (s : tab_sys_t) : Prop :=
  heap s = ∅ ∧ tab_trxs s = ∅ ∧ (∀ n tb, tables s !! n = Some tb → ∃ a, tb = mk_dict_table [] a 0 None) ∧
  ∀ n1 n2 tb1 tb2, tables s !! n1 = Some tb1 → tables s !! n2 = Some tb2 → autoinc_lock tb1 = autoinc_lock tb2 → n1 = n2.

Inductive tab_reach : tab_sys_t → Prop :=
  | tab_reach_init s : tab_init s → tab_reach s
  | tab_reach_step s op s' : tab_reach s → tab_pre op s → tab_exec op s = Ok (tt, s') → tab_reach s'.

End system.

(** ** The end of a transaction *)

Lemma tab_init_ok s : tab_init s → tab_ok None s.
Proof.
  intros (Hh & Ht & Htb & Hst). split.
  - split; try done.
    + intros n tb Hn. destruct (Htb _ _ Hn) as (a & ->). apply NoDup_nil_2.
    + intros n tb x Hn Hx. destruct (Htb _ _ Hn) as (a & ->). by apply elem_of_nil in Hx.
    + intros x l [Hl _]. by rewrite Hh in Hl.
    + intros t trx H. by rewrite Ht in H.
    + intros n tb Hn. destruct (Htb _ _ Hn) as (a & ->). split; cbn.
      * intros t. split; [done|]. by intros (x & l & ?%elem_of_nil & _).
      * done.
      * by intros x1 x2 l1 l2 ?%elem_of_nil.
      * intros l H. by rewrite Hh in H.
  - intros x l [Hl _]. by rewrite Hh in Hl.
Qed.

Lemma tab_begin_Ok s t : tab_ok None s → tab_trxs s !! t = None → tab_ok None (add_tab_trx t s).
Proof.
  intros [Hinv Hset] Hn. split; [|done]. destruct Hinv as [H1 H2 H3 H4 H5 H6]. split; try done.
  - intros n tb x Htb Hx. destruct (H2 _ _ _ Htb Hx) as (lx & tx & Hlx & Hnn & Hk & Htx & Hinx). exists lx, tx. cbn. rewrite lookup_insert_ne by congruence. done.
  - intros u tu. cbn. destruct (decide (u = t)) as [->|Hne]; [rewrite lookup_insert_eq; intros [= <-]|rewrite lookup_insert_ne by done; intros Hu; by apply set_trx_trx_ok, H4].
    split; cbn; try done.
    + apply NoDup_nil_2.
    + by intros x ?%elem_of_nil.
    + by intros x l ?%elem_of_nil.
    + intros x. rewrite elem_of_nil. split; [done|]. by intros [? _].
    + apply NoDup_nil_2.
    + by left.
    + intros _. split_and!; [apply NoDup_nil_2|by intros x ?%elem_of_nil..].
  - intros n tb Htb. by destruct (H5 n tb Htb).
Qed.

Lemma tab_commit_Ok s t trx :
  tab_ok None s → tab_trxs s !! t = Some trx → tt_wait_lock trx = None →
  tab_commit t s = Ok (tt, set_trx t (set_tt_state TRX_STATE_COMMITTED_IN_MEMORY trx) s) ∧ tab_ok None (set_trx t (set_tt_state TRX_STATE_COMMITTED_IN_MEMORY trx) s).
Proof.
  intros [Hinv Hset] Ht Hw. split; [unfold tab_commit, modify; by rewrite (update_tab_trx_set _ _ trx)|]. split; [|done]. apply (set_trx_inv _ _ _ _ _ trx); [done..|].
  destruct (ti_trx _ _ _ _ Hinv _ _ Ht) as [K1 K2 K3 K4 K5 K6 K7 K8 K9 K10 K11 K12]. split; try done. cbn. rewrite Hw. by intros [? ?].
Qed.

(** The locks of a committed transaction are granted. *)
Lemma committed_granted s t trx id :
  tab_ok None s → tab_trxs s !! t = Some trx → tt_state trx = TRX_STATE_COMMITTED_IN_MEMORY → id ∈ tt_locks trx → ∃ l, queued s id l ∧ tl_trx l = t ∧ tl_wait l = false.
Proof.
  intros [Hinv _] Ht Hst Hid. assert (Hk := ti_trx _ _ _ _ Hinv _ _ Ht). destruct (to_locks _ _ _ _ _ _ Hk id Hid) as (l & Q & Htl). exists l. split_and!; try done.
  apply not_true_is_false. intros Hw. assert (E := to_waits _ _ _ _ _ _ Hk id l Hid (proj1 Q) Hw). assert (tt_state trx = TRX_STATE_ACTIVE) by (eapply to_active; [done|by rewrite E]). congruence.
Qed.

Lemma tab_release_last_Ok s t trx :
  tab_ok None s → tab_trxs s !! t = Some trx → tt_state trx = TRX_STATE_COMMITTED_IN_MEMORY →
  (tt_locks trx = [] ∧ tab_release_last t s = Ok (false, s)) ∨
  ∃ s' trx', tab_release_last t s = Ok (true, s') ∧ tab_ok None s' ∧ tab_evolves (is_trx t) s s' ∧ tab_trxs s' !! t = Some trx' ∧
    tt_state trx' = TRX_STATE_COMMITTED_IN_MEMORY ∧ length (tt_locks trx') < length (tt_locks trx).
Proof.
  intros Hok Ht Hst. unfold tab_release_last. setoid_rewrite (the_trx_Ok _ _ _ _ Ht). destruct (last (tt_locks trx)) as [id|] eqn:Hlast.
  2:{ left. split; [by apply last_None|done]. }
  right. assert (Hid : id ∈ tt_locks trx) by (apply last_Some_elem_of in Hlast; done).
  destruct (committed_granted s t trx id Hok Ht Hst Hid) as (l & Q & Htl & Hw). subst t.
  destruct (lock_table_dequeue_Ok (is_trx (tl_trx l)) None s id l trx (proj1 Hok) (proj2 Hok) Q Ht eq_refl) as (s' & v & Hrun & Hinv & Hset & Hev & Ht' & _).
  exists s', (remove_trx id v trx). rewrite Hw in Hinv. split_and!; try done.
  - by erewrite bind_Ok by exact Hrun.
  - split; [|done]. eapply forget_struct; [exact Hinv|]. intros u tu Hu Hact _ Hin. destruct (to_tables _ _ _ _ _ _ (ti_trx _ _ _ _ Hinv _ _ Hu) Hact) as (_ & _ & L3).
    destruct (L3 id Hin) as (l' & Hl' & Htl' & _). destruct (te_heap _ _ _ Hev id l (proj1 Q)) as (l2 & Hl2 & Hcl). assert (Hul : u = tl_trx l).
    { rewrite <-Htl'. assert (l' = l2) as -> by congruence. by destruct Hcl as [-> | ->]. }
    rewrite Hul, Ht' in Hu. injection Hu as <-. cbn in Hact. congruence.
  - cbn. apply (length_filter_lt _ _ id); [done|]. by intros H.
Qed.

Lemma tab_release_loop_Ok fuel s t trx :
  tab_ok None s → tab_trxs s !! t = Some trx → tt_state trx = TRX_STATE_COMMITTED_IN_MEMORY → length (tt_locks trx) ≤ fuel →
  ∃ s' trx', tab_release_loop fuel t s = Ok (tt, s') ∧ tab_ok None s' ∧ tab_evolves (is_trx t) s s' ∧ tab_trxs s' !! t = Some trx' ∧ tt_locks trx' = [] ∧
    tt_state trx' = TRX_STATE_COMMITTED_IN_MEMORY.
Proof.
  revert s trx. induction fuel as [|fuel IH]; intros s trx Hok Ht Hst Hf; cbn [tab_release_loop];
    (destruct (tab_release_last_Ok s t trx Hok Ht Hst) as [[Hnil Hrun]|(s1 & trx1 & Hrun & Hok1 & Hev1 & Ht1 & Hst1 & Hlt)]; setoid_rewrite (bind_Ok _ _ _ _ _ Hrun)).
  1, 3: exists s, trx; split_and!; try done; apply tab_evolves_refl.
  - lia.
  - destruct (IH s1 trx1 Hok1 Ht1 Hst1) as (s2 & trx2 & Hrun2 & Hok2 & Hev2 & ?); [lia|]. exists s2, trx2. split_and!; try apply H; try done. by eapply tab_evolves_trans.
Qed.

(** Structs that nothing refers to can go. *)
Section forget.
  Context (s : tab_sys_t) (h : gmap nat tab_lock_t) (Hok : tab_ok None s).
  Context (Hsub : ∀ x l, h !! x = Some l → heap s !! x = Some l).
  Context (Hkeep : ∀ x l u tu, heap s !! x = Some l → tab_trxs s !! u = Some tu → refers tu x → tl_trx l = u → h !! x = Some l).
  Notation s' := (mk_tab_sys h (tables s) (tab_trxs s)).

Lemma forget_heap n tb x : tables s !! n = Some tb → x ∈ locks tb → h !! x = heap s !! x.
Proof.
  intros Htb Hx. destruct (ti_queue _ _ _ _ (proj1 Hok) _ _ _ Htb Hx) as (l & trx & Hl & _ & _ & Ht & Hin). rewrite Hl. eapply Hkeep; [done..|by left|done].
Qed.

Lemma forget_queued x l : queued s' x l ↔ queued s x l.
Proof. split; intros [Hl (tb & Htb & Hx)]; (split; [|by exists tb]); [by apply Hsub|]. cbn. by erewrite forget_heap. Qed.

Lemma forget_blocked x l : blocked s' x l ↔ blocked s x l.
Proof.
  split; intros (tb & y & ly & Htb & Hy & Hly & Hc); exists tb, y, ly; split_and!; try done; [by apply Hsub|]. cbn. erewrite forget_heap; [done..|]. by apply ahead_elem in Hy as [? _].
Qed.

Lemma forget_ok : tab_ok None s'.
Proof.
  assert (Hok' := Hok). destruct Hok' as [[H1 H2 H3 H4 H5 H6] Hset]. split; [split; try done|].
  - intros n tb x Htb Hx. cbn. rewrite (forget_heap n tb) by done. by apply (H2 n tb).
  - intros x l Q%forget_queued Hw Hb%forget_blocked. by apply (H3 x l).
  - intros u tu Hu. apply (trx_frame _ _ _ s); [by apply H4| | |done].
    + intros x l Hr Hl Htl. cbn. by eapply Hkeep.
    + intros x l Q _ _. by apply forget_queued.
  - intros n tb Htb. assert (Hh : ∀ x, x ∈ locks tb → h !! x = heap s !! x) by (intros x; by apply (forget_heap n)). destruct (H5 n tb Htb) as [A1 A2 A3 A4]. split; cbn.
    + intros u. rewrite A1. split; intros (x & lx & Hx & Hlx & ?); exists x, lx; (split; [done|]); [by rewrite Hh|by rewrite <-Hh].
    + rewrite A2. f_equal. apply filter_ext_in. intros x Hx. by rewrite Hh.
    + intros x1 x2 l1 l2 X1 X2. rewrite !Hh by done. by apply A3.
    + intros l Hl. by apply A4, Hsub.
  - intros x l Q%forget_queued Hw. apply forget_blocked. by apply Hset.
Qed.

End forget.

Lemma tab_release_end_Ok s t trx :
  tab_ok None s → tab_trxs s !! t = Some trx → tt_state trx = TRX_STATE_COMMITTED_IN_MEMORY → tt_locks trx = [] →
  let s' := empty_lock_heap t (set_trx t (set_table_locks [] trx) s) in tab_release_end t s = Ok (tt, s') ∧ tab_ok None s'.
Proof.
  intros [Hinv Hset] Ht Hst Hnil s'. assert (Hk := ti_trx _ _ _ _ Hinv _ _ Ht). destruct Hk as [K1 K2 K3 K4 K5 K6 K7 K8 K9 K10 K11 K12].
  assert (Ha : autoinc_locks trx = []).
  { destruct K10 as [|[x Hx]]; [done|]. assert (Hin : x ∈ entries (autoinc_locks trx)) by (apply elem_entries; by apply last_Some_elem_of).
    apply K8 in Hin as [Hin _]. rewrite Hnil in Hin. by apply elem_of_nil in Hin. }
  split.
  - unfold tab_release_end. erewrite bind_Ok by done. rewrite (update_tab_trx_set _ _ trx) by done. erewrite the_trx_Ok by apply lookup_insert_eq.
    rewrite assert_true by (by rewrite bool_decide_eq_true). by rewrite assert_true by (by rewrite bool_decide_eq_true).
  - assert (Hok1 : tab_ok None (set_trx t (set_table_locks [] trx) s)).
    { split; [|done]. apply (set_trx_inv _ _ _ _ _ trx); [done..|]. split; try done. cbn. by rewrite Hst. }
    apply (forget_ok _ _ Hok1).
    + intros x l Hx. by apply map_lookup_filter_Some in Hx as [? _].
    + intros x l u tu Hl Hu Hr Htl. apply map_lookup_filter_Some. split; [done|]. intros [E _]. cbn in E. assert (u = t) as -> by congruence.
      cbn in Hu. rewrite lookup_insert_eq in Hu. injection Hu as <-. destruct Hr as [Hx|[Hact _]]; [|cbn in Hact; congruence]. cbn in Hx. rewrite Hnil in Hx. by apply elem_of_nil in Hx.
Qed.

Lemma tab_drop_Ok s t trx : tab_ok None s → tab_trxs s !! t = Some trx → tt_locks trx = [] → tab_ok None (drop_tab_trx t s).
Proof.
  intros [Hinv Hset] Ht Hnil. split; [|done]. destruct Hinv as [H1 H2 H3 H4 H5 H6]. split; try done.
  - intros n tb x Htb Hx. destruct (H2 _ _ _ Htb Hx) as (lx & tx & Hlx & Hnn & Hk & Htx & Hinx). exists lx, tx. cbn. rewrite lookup_delete_ne; [done|].
    intros E. rewrite <-E, Ht in Htx. injection Htx as <-. rewrite Hnil in Hinx. by apply elem_of_nil in Hinx.
  - intros u tu. cbn. intros [_ Hu]%lookup_delete_Some. by destruct (H4 u tu Hu).
  - intros n tb Htb. by destruct (H5 n tb Htb).
Qed.

(** ** Every operation *)

Lemma lock_unlock_table_autoinc_Ok s t trx :
  tab_ok None s → tab_trxs s !! t = Some trx → tt_state trx = TRX_STATE_ACTIVE →
  ∃ s' trx', lock_unlock_table_autoinc t s = Ok (tt, s') ∧ tab_ok None s' ∧ tab_evolves (is_trx t) s s' ∧ tab_trxs s' !! t = Some trx' ∧ autoinc_locks trx' = [] ∧
    (tt_tidy trx → tt_tidy trx').
Proof.
  intros Hok Ht Hact. unfold lock_unlock_table_autoinc. setoid_rewrite (the_trx_Ok _ _ _ _ Ht). destruct (decide (autoinc_locks trx = [])) as [E|_].
  { exists s, trx. split_and!; try done. apply tab_evolves_refl. }
  unfold lock_release_autoinc_locks. setoid_rewrite (the_trx_Ok _ _ _ _ Ht). destruct (release_autoinc_loop_Ok None _ s t trx Hok Ht Hact (le_n _)) as (s' & trx' & ? & ? & ? & ? & ? & _ & _ & ?).
  by exists s', trx'.
Qed.

Lemma tab_timeout_Ok s t trx :
  tab_ok None s → tab_trxs s !! t = Some trx →
  ∃ s' trx', tab_wait_check_and_cancel t s = Ok (tt, s') ∧ tab_ok None s' ∧ tab_trxs s' !! t = Some trx' ∧ tt_wait_lock trx' = None ∧ tt_que_state trx' = TRX_QUE_RUNNING ∧
    tab_evolves (is_trx t) s s' ∧ (s' = s ∨ wait_cancelled s s' t).
Proof.
  intros Hok Ht. assert (Hq := to_que _ _ _ _ _ _ (ti_trx _ _ _ _ (proj1 Hok) _ _ Ht)). unfold tab_wait_check_and_cancel. setoid_rewrite (the_trx_Ok _ _ _ _ Ht).
  destruct (tt_wait_lock trx) as [id|] eqn:Hw.
  - setoid_rewrite assert_true; [|by apply bool_decide_eq_true, Hq]. destruct (tab_cancel_Ok None s t trx id) as (s' & trx' & Hrun & Hok' & Hev & Ht' & H1 & H2 & Hni & _); [done..|].
    exists s', trx'. split_and!; try done. right. exists trx, id. split_and!; [done..|]. intros lw Q. destruct (queued_ok _ _ _ _ (proj1 Hok') _ _ Q) as (_ & _ & tx & _ & _ & Htx & Hin).
    destruct (wait_lock_queued None s t trx id Hok Ht Hw) as (l & [Hl _] & Hlt & _). destruct (te_heap _ _ _ Hev _ _ Hl) as (l2 & Hl2 & Hcl). assert (l2 = lw) as -> by (destruct Q; congruence).
    assert (E : tl_trx lw = t) by (by destruct Hcl as [-> | ->]). rewrite E in Htx. by assert (tx = trx') as -> by congruence.
  - exists s, trx. split_and!; try done; [|apply tab_evolves_refl|by left]. destruct (tt_que_state trx); [done|]. destruct Hq as [H _]; [done..|]. by destruct H.
Qed.

Lemma tab_work_Ok s t trx work fork err : tab_ok None s → tab_trxs s !! t = Some trx → tab_ok None (set_trx t (set_tab_work work fork err trx) s).
Proof. intros [Hinv Hset] Ht. split; [|done]. apply (set_trx_inv _ _ _ _ _ trx); [done..|]. by destruct (ti_trx _ _ _ _ Hinv _ _ Ht). Qed.

(** With a search that answers where it has to. *)
Section exec.
  Context (cfg : config) (search : nat → nat → TS (option nat * bool)) (I : nat → nat → tab_sys_t → Prop) (Hsearch : search_ok I search).

(** The search of a request that has to wait answers. *)
Definition request_safe (op : tab_op) (s : tab_sys_t) : Prop :=
  match op with
  | TLock table mode t node => ∀ trx tb, let l := new_tab_lock table (Z.lor mode LOCK_WAIT) t in
      tab_trxs s !! t = Some trx → tables s !! table = Some tb → innobase_deadlock_detect cfg = true →
      (∃ x lx, x ∈ locks tb ∧ heap s !! x = Some lx ∧ tl_has_to_wait l lx = true) → I node t (create_state s node l tb trx)
  | _ => True
  end.

Lemma tab_exec_Ok op s : tab_ok None s → tab_pre op s → request_safe op s → ∃ s', tab_exec cfg search op s = Ok (tt, s') ∧ tab_ok None s'.
Proof.
  intros Hok. destruct op as [t|table mode t node|table t node|t|t|table sx rc|t w f e|t|t|t]; cbn [tab_pre tab_exec request_safe].
  - intros Hn _. eexists. split; [done|]. by apply tab_begin_Ok.
  - intros ((trx & Ht & Hact & Hw) & [tb Htb] & Hm & Hf & Hgo) HI. destruct (lock_table_Ok cfg search I Hsearch s t trx table tb mode node) as (err & s' & Hrun & Hok' & _); try done; [by apply Hgo|by apply HI|].
    exists s'. split; [|done]. by erewrite bind_Ok by exact Hrun.
  - intros ((trx & Ht & Hact & Hw) & Hf & tb & Htb & Hc) _. destruct (lock_table_ix_resurrect_Ok s t trx table tb LOCK_IX node) as (s' & Hrun & Hok' & _); try done; [|by exists s'].
    unfold lock_modes. set_solver.
  - intros (trx & Ht & Hact & Hw) _. destruct (lock_unlock_table_autoinc_Ok s t trx Hok Ht Hact) as (s' & _ & ? & ? & _). by exists s'.
  - intros [trx Ht] _. destruct (tab_timeout_Ok s t trx Hok Ht) as (s' & _ & ? & ? & _). by exists s'.
  - intros [[tb Htb] Hqt] _. destruct (lock_remove_all_on_table_Ok s table sx rc tb Hok Hqt Htb) as (b & s' & _ & Hrun & ? & _). exists s'. split; [|done]. by erewrite bind_Ok by exact Hrun.
  - intros [trx Ht] _. eexists. split; [unfold modify; by rewrite (update_tab_trx_set _ _ trx)|]. by apply tab_work_Ok.
  - intros (trx & Ht & Hact & Hw) _. destruct (tab_commit_Ok s t trx Hok Ht Hw). eauto.
  - intros (trx & Ht & Hst) _. destruct (tab_release_last_Ok s t trx Hok Ht Hst) as [[_ Hrun]|(s' & _ & Hrun & Hok' & _)]; eexists; (split; [by erewrite bind_Ok by exact Hrun|done]).
  - intros [(trx & Ht & Hst) Hnil] _. rewrite Ht in Hnil. injection Hnil as Hnil. destruct (tab_release_end_Ok s t trx Hok Ht Hst Hnil) as [Hrun Hok1].
    eexists. split; [by erewrite bind_Ok by exact Hrun|]. eapply tab_drop_Ok; [exact Hok1|apply lookup_insert_eq|done].
Qed.

End exec.

Lemma tab_exec_agrees cfg search op : agrees (tab_exec cfg search op) (tab_exec cfg (complete search) op).
Proof. destruct op; try apply agrees_refl. apply agrees_bind; [apply lock_table_agrees|intros a; apply agrees_refl]. Qed.

(** ** Invariants *)

Section reachable.
  Context (cfg : config) (search : nat → nat → TS (option nat * bool)) (Hsearch : answers_usable search).

Lemma tab_step_ok op s s' : tab_ok None s → tab_pre op s → tab_exec cfg search op s = Ok (tt, s') → tab_ok None s'.
Proof.
  intros Hok Hpre Hrun%tab_exec_agrees. destruct (tab_exec_Ok cfg _ _ (complete_ok search Hsearch) op s Hok Hpre) as (s2 & Hrun2 & Hok2); [|congruence].
  by destruct op.
Qed.

Lemma tab_reach_ok s : tab_reach cfg search s → tab_ok None s.
Proof. induction 1 as [s Hi|s op s' Hr IH Hpre Hrun]; [by apply tab_init_ok|by eapply tab_step_ok]. Qed.

(** C12. In every reachable state a table lock waits exactly if a lock ahead of it in the
    queue of its table conflicts with it. So the granted locks of different transactions on
    a table are compatible, no grant is forgotten, and a transaction is suspended exactly
    while it has a waiting lock. *)
Theorem table_locks_exact s : tab_reach cfg search s →
  (∀ id l, queued s id l → tl_wait l = true ↔ blocked s id l) ∧
  (∀ id1 id2 l1 l2, queued s id1 l1 → queued s id2 l2 → tl_table l1 = tl_table l2 → tl_trx l1 ≠ tl_trx l2 → tl_wait l1 = false → tl_wait l2 = false →
    lock_mode_compatible (tl_mode l1) (tl_mode l2) = true) ∧
  (∀ t trx, tab_trxs s !! t = Some trx → tt_que_state trx = TRX_QUE_LOCK_WAIT ↔ ∃ id l, queued s id l ∧ tl_trx l = t ∧ tl_wait l = true).
Proof.
  intros Hr. destruct (tab_reach_ok s Hr) as [Hinv Hset]. split_and!.
  - intros id l Q. split; [by apply Hset|]. intros Hb. apply not_false_iff_true. intros Hw. by apply (ti_order _ _ _ _ Hinv id l Q Hw).
  - intros id1 id2 l1 l2 Q1 Q2 Htb Hne W1 W2. assert (H := granted_compatible _ _ _ _ Hinv id1 id2 l1 l2 Q1 Q2 W1 W2 Htb). unfold tl_has_to_wait in H.
    rewrite (proj2 (Nat.eqb_neq _ _) Hne) in H. by apply negb_false_iff in H.
  - intros t trx Ht. rewrite (to_que _ _ _ _ _ _ (ti_trx _ _ _ _ Hinv _ _ Ht)) by done. split.
    + intros [id Hw]. destruct (wait_lock_queued None s t trx id (conj Hinv Hset) Ht Hw) as (l & ? & ? & ? & _). by exists id, l.
    + intros (id & l & Q & <- & Hw). destruct (tab_waiting_lock _ _ _ _ Hinv id l trx Q Hw Ht) as [-> _]. by eexists.
Qed.

(** C30. The records kept about AUTO-INC locks are exact in every reachable state: the
    transaction a table names as the holder has the only granted AUTO-INC lock of the table,
    the counter of the table is the number of its waiting and granted AUTO-INC locks, and
    the vector of a transaction has exactly its granted AUTO-INC locks. *)
Theorem autoinc_exact s : tab_reach cfg search s →
  (∀ n tb, tables s !! n = Some tb →
    (∀ t, autoinc_trx tb = Some t ↔ ∃ id l, id ∈ locks tb ∧ heap s !! id = Some l ∧ tl_trx l = t ∧ is_autoinc l = true ∧ tl_wait l = false) ∧
    n_waiting_or_granted_auto_inc_locks tb = length (filter (λ id, from_option is_autoinc false (heap s !! id) = true) (locks tb))) ∧
  (∀ t trx, tab_trxs s !! t = Some trx → NoDup (entries (autoinc_locks trx)) ∧
    ∀ id, id ∈ entries (autoinc_locks trx) ↔ ∃ l, queued s id l ∧ tl_trx l = t ∧ is_autoinc l = true ∧ tl_wait l = false).
Proof.
  intros Hr. destruct (tab_reach_ok s Hr) as [Hinv _]. split.
  - intros n tb Htb. destruct (ti_auto _ _ _ _ Hinv _ _ Htb). done.
  - intros t trx Ht. assert (Hk := ti_trx _ _ _ _ Hinv _ _ Ht). split; [by eapply to_auto_nodup|]. intros id. rewrite (to_auto _ _ _ _ _ _ Hk). split.
    + intros (Hid & l & Hl & ?). destruct (to_locks _ _ _ _ _ _ Hk id Hid) as (l' & Q & ?). exists l'. assert (l' = l) as -> by (destruct Q; congruence). done.
    + intros (l & Q & <- & ?). destruct (queued_ok _ _ _ _ Hinv _ _ Q) as (_ & tb & trx' & _ & _ & Ht' & Hin). assert (trx' = trx) as -> by congruence. split; [done|]. exists l. by split; [apply Q|].
Qed.

(** lock_trx_release_locks ends for a running transaction of a reachable state, with
    its assertions. No table has a lock of it any more, the other transactions have the
    locks they had, and every lock that nothing stands against any more has been granted. *)
Theorem table_release_frees s t : tab_reach cfg search s → tab_running s t →
  ∃ s', lock_trx_release_locks t s = Ok (tt, s') ∧ (∀ id l, queued s' id l → tl_trx l ≠ t ∧ (tl_wait l = true ↔ blocked s' id l)) ∧
    (∀ u tu, u ≠ t → tab_trxs s !! u = Some tu → ∃ tu', tab_trxs s' !! u = Some tu' ∧ tt_locks tu' = tt_locks tu).
Proof.
  intros Hr (trx & Ht & Hact & Hw). assert (Hok := tab_reach_ok s Hr). destruct (tab_commit_Ok s t trx Hok Ht Hw) as [Hrun1 Hok1].
  set (s1 := set_trx _ _ s) in *. assert (Ht1 : tab_trxs s1 !! t = Some (set_tt_state TRX_STATE_COMMITTED_IN_MEMORY trx)) by apply lookup_insert_eq.
  destruct (tab_release_loop_Ok _ s1 t _ Hok1 Ht1 eq_refl (le_n _)) as (s2 & trx2 & Hrun2 & Hok2 & Hev & Ht2 & Hnil & Hst).
  destruct (tab_release_end_Ok s2 t trx2 Hok2 Ht2 Hst Hnil) as [Hrun3 Hok3]. eexists. split_and!.
  - unfold lock_trx_release_locks. erewrite bind_Ok by exact Hrun1. erewrite the_trx_Ok by exact Ht1. by erewrite bind_Ok by exact Hrun2.
  - intros id l Q. split.
    + intros <-. destruct (queued_ok _ _ _ _ (proj1 Hok3) _ _ Q) as (_ & tb & trx3 & _ & _ & Ht3 & Hin). cbn in Ht3. rewrite lookup_insert_eq in Ht3. injection Ht3 as <-. cbn in Hin.
      rewrite Hnil in Hin. by apply elem_of_nil in Hin.
    + split; [by apply (proj2 Hok3)|]. intros Hb. apply not_false_iff_true. intros Hwt. by apply (ti_order _ _ _ _ (proj1 Hok3) id l Q Hwt).
  - intros u tu Hne Hu. assert (Hu1 : tab_trxs s1 !! u = Some tu) by (cbn; by rewrite lookup_insert_ne). destruct (te_trxs _ _ _ Hev u) as [tu2 Hu2]; [by eexists|].
    destruct (te_trx _ _ _ Hev _ _ Hu2) as (tu1 & Hu1' & _ & _ & _ & Hlk). assert (tu1 = tu) as -> by congruence. exists tu2. split; [cbn; by rewrite lookup_insert_ne|by apply Hlk].
Qed.

End reachable.

(** ** Requests and the search for deadlocks *)

Section resolvable.
  Context (cfg : config).

(** No deadlock that a request resolves can free an AUTO-INC lock; otherwise the request may
    become the first lock of its queue, which the search takes for an error unless its
    transaction is scheduled by VATS. *)
Definition resolvable (op : tab_op) (s : tab_sys_t) : Prop :=
  match op with
  | TLock _ _ t _ => innobase_deadlock_detect cfg = false ∨ uses_vats cfg t = true ∨ no_autoinc_waiter t s
  | _ => True
  end.

Lemma resolvable_safe op s : tab_ok None s → tab_pre op s → resolvable op s → request_safe cfg (search_safe cfg) op s.
Proof.
  intros Hok Hpre Hres. destruct op as [|table mode t node| | | | | | | |]; try done. intros trx tb l Ht Htb Hd Hblk. destruct Hres as [?|[Hv|Hna]]; [congruence|by left|right]. split.
  - intros l' tb' Hl' Htb' Hhead. cbn in Hl'. rewrite lookup_insert_eq in Hl'. injection Hl' as <-. cbn in Htb'. rewrite lookup_insert_eq in Htb'. injection Htb' as <-.
    destruct Hblk as (x & lx & Hx & Hlx & _). destruct Hpre as (_ & _ & _ & [Hf _] & _). cbn in Hhead. destruct (locks tb) as [|y q] eqn:E; [by apply elem_of_nil in Hx|]. injection Hhead as ->.
    destruct (ti_queue _ _ _ _ (proj1 Hok) _ _ node Htb) as (ln & _ & Hln & _); [rewrite E; left|congruence].
  - intros u tu Hne. cbn. rewrite lookup_insert_ne by done. by apply Hna.
Qed.

Lemma search_reach_ok s : tab_reach cfg (tab_search cfg) s → tab_ok None s.
Proof. apply tab_reach_ok, tab_search_usable. Qed.

(** C11. No operation on table locks that can happen in a reachable state fails an assertion,
    dereferences a null pointer or loops, and it leads to a reachable state: a request with
    the deadlocks it resolves, the IX lock of a recovered transaction, the end of AUTO-INC
    locks with a statement, a timeout, the removal of all locks on a table, and the turns
    that release the locks of a committed transaction. The request has to be of a transaction
    that VATS schedules, or no other transaction waits while it has AUTO-INC locks, or
    deadlocks are not looked for. *)
Theorem table_lock_no_failure op s : tab_reach cfg (tab_search cfg) s → tab_pre op s → resolvable op s →
  ∃ s', tab_exec cfg (tab_search cfg) op s = Ok (tt, s') ∧ tab_reach cfg (tab_search cfg) s'.
Proof.
  intros Hr Hpre Hres. assert (Hok := search_reach_ok s Hr). destruct (tab_exec_Ok cfg _ _ (tab_search_search_ok cfg) op s Hok Hpre) as (s' & Hrun & _); [by apply resolvable_safe|].
  exists s'. split; [done|]. by eapply tab_reach_step.
Qed.

Lemma request_Ok s t trx table mode node :
  tab_ok None s → tab_trxs s !! t = Some trx → tab_pre (TLock table mode t node) s → resolvable (TLock table mode t node) s →
  ∃ err s', lock_table cfg (tab_search cfg) table mode t node s = Ok (err, s') ∧ tab_ok None s' ∧
    ((err = DB_SUCCESS ∧ s' = s ∧ has_entry s trx table mode) ∨ tab_outcome t trx table mode err s').
Proof.
  intros Hok Ht Hpre Hres. assert (Hs := resolvable_safe _ s Hok Hpre Hres). destruct Hpre as ((trx' & Ht' & Hact & Hw) & [tb Htb] & Hm & Hf & Hgo). assert (trx' = trx) as -> by congruence.
  destruct (lock_table_Ok cfg _ _ (tab_search_search_ok cfg) s t trx table tb mode node) as (err & s' & Hrun & Hok' & Hout); try done; [by apply Hgo|by apply Hs|].
  exists err, s'. split_and!; [done..|]. destruct Hout as [?|(_ & ? & _)]; [by left|by right].
Qed.

(** An entry of the vector is for a granted lock or for one that is gone. *)
Lemma entry_granted s t trx table mode : tab_ok None s → tab_trxs s !! t = Some trx → tt_state trx = TRX_STATE_ACTIVE → tt_wait_lock trx = None → has_entry s trx table mode →
  ∃ id l, id ∈ entries (table_locks trx) ∧ heap s !! id = Some l ∧ tl_trx l = t ∧ tl_table l = table ∧ lock_mode_stronger_or_eq (tl_mode l) mode = true ∧
    (queued s id l ∧ tl_wait l = false ∨ id ∉ tt_locks trx).
Proof.
  intros Hok Ht Hact Hw (id & l & Hid & Hl & Hn & Hs). exists id, l. assert (Hk := ti_trx _ _ _ _ (proj1 Hok) _ _ Ht).
  destruct (to_tables _ _ _ _ _ _ Hk Hact) as (_ & _ & L3). destruct (L3 id Hid) as (l' & Hl' & Htl & _). assert (l' = l) as -> by congruence. split_and!; try done.
  destruct (decide (id ∈ tt_locks trx)) as [Hin|]; [left|by right]. destruct (to_locks _ _ _ _ _ _ Hk id Hin) as (l'' & Q & _). assert (l'' = l) as -> by (destruct Q; congruence).
  split; [done|]. apply not_true_is_false. intros Hwt. rewrite (to_waits _ _ _ _ _ _ Hk id l Hin Hl Hwt) in Hw. done.
Qed.

(** C23. A request for a table lock returns. With success the transaction has a granted lock
    of the mode; or its vector of table locks has an entry that is as strong, for a granted
    lock or for one that is in the queue no longer. With DB_LOCK_WAIT it is suspended with a
    waiting lock of the mode, and with DB_DEADLOCK it has the locks it had before. As for
    C11, a deadlock that is resolved must not free an AUTO-INC lock. *)
Theorem table_request_outcome s t trx table mode node :
  tab_reach cfg (tab_search cfg) s → tab_trxs s !! t = Some trx → tab_pre (TLock table mode t node) s → resolvable (TLock table mode t node) s →
  ∃ err s', lock_table cfg (tab_search cfg) table mode t node s = Ok (err, s') ∧
    ((err = DB_SUCCESS ∧ s' = s ∧ ∃ id l, id ∈ entries (table_locks trx) ∧ heap s !! id = Some l ∧ tl_trx l = t ∧ tl_table l = table ∧
        lock_mode_stronger_or_eq (tl_mode l) mode = true ∧ (queued s id l ∧ tl_wait l = false ∨ id ∉ tt_locks trx)) ∨
     tab_outcome t trx table mode err s').
Proof.
  intros Hr Ht Hpre Hres. assert (Hok := search_reach_ok s Hr). destruct (request_Ok s t trx table mode node Hok Ht Hpre Hres) as (err & s' & Hrun & _ & Hout). exists err, s'. split; [done|].
  destruct Hout as [(-> & -> & He)|Hout]; [left|by right]. split_and!; [done..|]. destruct Hpre as ((trx' & Ht' & Hact & Hw) & _). assert (trx' = trx) as -> by congruence. by apply entry_granted.
Qed.

(** ** A transaction whose waits are not cancelled *)

(** The states in which no wait of [t] has been cancelled, by a timeout or for a deadlock, and
    no request of it has been sent back. *)
Inductive tab_undisturbed (t : nat) : tab_sys_t → Prop :=
  | tab_undisturbed_init s : tab_init s → tab_undisturbed t s
  | tab_undisturbed_step s op s' : tab_undisturbed t s → tab_pre op s → tab_exec cfg (tab_search cfg) op s = Ok (tt, s') → ¬ wait_cancelled s s' t →
      (∀ table mode node, op = TLock table mode t node → lock_table cfg (tab_search cfg) table mode t node s ≠ Ok (DB_DEADLOCK, s')) → tab_undisturbed t s'.

Lemma undisturbed_reach t s : tab_undisturbed t s → tab_reach cfg (tab_search cfg) s.
Proof. induction 1; [by apply tab_reach_init|by eapply tab_reach_step]. Qed.

(** The vector of [t] has no entries for locks that are gone. *)
Definition tidy_in (t : nat) (s : tab_sys_t) : Prop := ∀ trx, tab_trxs s !! t = Some trx → tt_state trx = TRX_STATE_ACTIVE → tt_tidy trx.

Lemma tidy_keeps t s s' : tidy_in t s → keeps_locks t s s' → tidy_in t s'.
Proof.
  intros Hs [Hk Hn] trx' Ht' Hact. destruct (tab_trxs s !! t) as [trx|] eqn:Ht; [|by rewrite Hn in Ht']. destruct (Hk trx eq_refl) as (trx2 & Ht2 & E1 & E2 & E3).
  assert (trx2 = trx') as -> by congruence. unfold tt_tidy. rewrite E1, E2. apply (Hs trx Ht). congruence.
Qed.

Lemma tidy_vectors s t u trx err s' : tab_trxs s !! u = Some trx → tt_state trx = TRX_STATE_ACTIVE → vectors_after s u trx err s' → (u = t → err ≠ DB_DEADLOCK) → ¬ wait_cancelled s s' t →
  tidy_in t s → tidy_in t s'.
Proof.
  intros Hu Hact [Hoth Hown] Herr Hc Hs. destruct (decide (t = u)) as [->|Hne].
  - destruct Hown as [?|(trx' & a & Hu' & Hst & E1 & E2)]; [by destruct Herr|]. intros trx2 Hu2 _ x. assert (trx2 = trx') as -> by congruence. rewrite E1, E2, entries_app, !elem_of_app.
    intros [Hx|Hx]; [left; by apply (Hs trx Hu Hact)|by right].
  - destruct (Hoth t Hne) as [Hk|?]; [|done]. by apply (tidy_keeps t s).
Qed.

(** A transaction changes: the others keep their vectors. *)
Lemma tidy_other s s' t u trx' : tab_evolves (is_trx u) s s' → tab_trxs s' !! u = Some trx' → (u = t → tt_state trx' = TRX_STATE_ACTIVE → tt_tidy trx') → tidy_in t s → tidy_in t s'.
Proof.
  intros Hev Hu' Hown Hs. destruct (decide (t = u)) as [->|Hne]; [|apply (tidy_keeps t s); [done|]; by eapply evolves_keeps]. intros trx2 H2 Hact. assert (trx2 = trx') as -> by congruence. by apply Hown.
Qed.

Lemma tidy_set s t u trx' : (u = t → tt_state trx' = TRX_STATE_ACTIVE → tt_tidy trx') → tidy_in t s → tidy_in t (set_trx u trx' s).
Proof.
  intros Hown Hs trx. cbn. destruct (decide (t = u)) as [->|Hne]; [rewrite lookup_insert_eq; intros [= <-]; by apply Hown|rewrite lookup_insert_ne by done; by apply Hs].
Qed.

Lemma tab_exec_tidy op s s' t : tab_ok None s → tidy_in t s → tab_pre op s → tab_exec cfg (tab_search cfg) op s = Ok (tt, s') → ¬ wait_cancelled s s' t →
  (∀ table mode node, op = TLock table mode t node → lock_table cfg (tab_search cfg) table mode t node s ≠ Ok (DB_DEADLOCK, s')) → tidy_in t s'.
Proof.
  intros Hok Hs. destruct op as [u|table mode u node|table u node|u|u|table sx rc|u w f e|u|u|u]; cbn [tab_pre tab_exec].
  - intros _ [= <-] _ _. apply tidy_set; [|done]. by intros _ _ x ?%elem_of_nil.
  - intros ((trx & Hu & Hact & Hw) & [tb Htb] & Hm & Hf & Hgo). unfold mbind at 1, M_bind at 1. destruct (lock_table cfg (tab_search cfg) table mode u node s) as [[err s1]|] eqn:Hrun; [|done]. intros [= <-] Hc Hd.
    assert (Hrun' := lock_table_agrees _ _ _ _ _ _ _ _ Hrun). destruct (lock_table_Ok cfg _ _ (complete_ok _ (tab_search_usable cfg)) s u trx table tb mode node) as (err2 & s2 & Hrun2 & _ & Hout); try done; [by apply Hgo|].
    assert (err2 = err) as -> by congruence. assert (s2 = s1) as -> by congruence. destruct Hout as [(_ & -> & _)|(_ & _ & Hv)]; [done|]. apply (tidy_vectors s t u trx err); try done.
    intros -> ->. by destruct (Hd table mode node eq_refl).
  - intros ((trx & Hu & Hact & Hw) & Hf & tb & Htb & Hcp) Hrun Hc _. destruct (lock_table_ix_resurrect_Ok s u trx table tb LOCK_IX node) as (s1 & Hrun1 & _ & Hout); try done; [unfold lock_modes; set_solver|].
    assert (s1 = s') as -> by congruence. destruct Hout as [[-> _]|(_ & _ & Hv)]; [done|]. by apply (tidy_vectors s t u trx DB_SUCCESS).
  - intros (trx & Hu & Hact & _). destruct (lock_unlock_table_autoinc_Ok s u trx Hok Hu Hact) as (s1 & trx1 & -> & _ & Hev & Hu1 & _ & Htd). intros [= <-] _ _.
    eapply tidy_other; [done..| |done]. intros -> _. by apply Htd, Hs.
  - intros [trx Hu]. destruct (tab_timeout_Ok s u trx Hok Hu) as (s1 & trx1 & -> & _ & Hu1 & _ & _ & Hev & Hor). intros [= <-] Hc _. destruct (decide (t = u)) as [->|Hne].
    + by destruct Hor as [->|?].
    + eapply tidy_other; [done..| |done]. by intros ->.
  - intros [[tb Htb] Hqt]. destruct (lock_remove_all_on_table_Ok s table sx rc tb Hok Hqt Htb) as (b & s1 & _ & Hrun & _ & (_ & _ & _ & _ & Hback) & _). rewrite (bind_Ok _ _ _ _ _ Hrun). intros [= <-] _ _.
    intros trx Ht Hact. destruct (Hback t trx Ht) as (trx0 & Ht0 & E & _ & _ & Htd). apply Htd, (Hs trx0 Ht0). congruence.
  - intros [trx Hu]. unfold modify. rewrite (update_tab_trx_set _ _ trx) by done. intros [= <-] _ _. apply tidy_set; [|done]. intros -> Hact. by apply (Hs trx Hu).
  - intros (trx & Hu & _ & Hw). destruct (tab_commit_Ok s u trx Hok Hu Hw) as [-> _]. intros [= <-] _ _. by apply tidy_set.
  - intros (trx & Hu & Hst). destruct (tab_release_last_Ok s u trx Hok Hu Hst) as [[_ Hrun]|(s1 & trx1 & Hrun & _ & Hev & Hu1 & Hst1 & _)]; rewrite (bind_Ok _ _ _ _ _ Hrun); intros [= <-] _ _; [done|].
    eapply tidy_other; [done..| |done]. congruence.
  - intros [(trx & Hu & Hst) Hnil]. rewrite Hu in Hnil. injection Hnil as Hnil. destruct (tab_release_end_Ok s u trx Hok Hu Hst Hnil) as [Hrun _]. rewrite (bind_Ok _ _ _ _ _ Hrun). intros [= <-] _ _.
    intros tt. cbn. rewrite delete_insert_eq. intros [_ Ht]%lookup_delete_Some. by apply Hs.
Qed.

Lemma undisturbed_tidy t s : tab_undisturbed t s → tidy_in t s.
Proof.
  induction 1 as [s (_ & Ht & _)|s op s' Hr IH Hpre Hrun Hc Hd]; [intros trx H; by rewrite Ht in H|]. eapply tab_exec_tidy; try done. by apply search_reach_ok, (undisturbed_reach t).
Qed.

(** C24. While no wait of a transaction is cancelled and no request of it is sent back for a
    deadlock, a request of it that returns success leaves it with a granted lock on the table
    that is at least as strong. Otherwise it is suspended with a waiting lock of the mode, or
    it is sent back with DB_DEADLOCK and has the locks it had before. As for C11, a deadlock
    that is resolved must not free an AUTO-INC lock. *)
Theorem undisturbed_request_granted s t table mode node :
  tab_undisturbed t s → tab_pre (TLock table mode t node) s → resolvable (TLock table mode t node) s →
  ∃ err s', lock_table cfg (tab_search cfg) table mode t node s = Ok (err, s') ∧
    (err = DB_SUCCESS ∧ (∃ id l, queued s' id l ∧ tl_trx l = t ∧ tl_table l = table ∧ lock_mode_stronger_or_eq (tl_mode l) mode = true ∧ tl_wait l = false) ∨
     err = DB_LOCK_WAIT ∧ (∃ trx' id l, tab_trxs s' !! t = Some trx' ∧ tt_que_state trx' = TRX_QUE_LOCK_WAIT ∧ tt_wait_lock trx' = Some id ∧
       queued s' id l ∧ tl_trx l = t ∧ tl_table l = table ∧ tl_mode l = mode ∧ tl_wait l = true) ∨
     err = DB_DEADLOCK ∧ ∃ trx trx', tab_trxs s !! t = Some trx ∧ tab_trxs s' !! t = Some trx' ∧ tt_wait_lock trx' = None ∧ tt_locks trx' = tt_locks trx).
Proof.
  intros Hr Hpre Hres. assert (Hok := search_reach_ok s (undisturbed_reach t s Hr)). assert (Hpre' := Hpre). destruct Hpre' as ((trx & Ht & Hact & Hw) & _ & Hm & _).
  destruct (request_Ok s t trx table mode node Hok Ht Hpre Hres) as (err & s' & Hrun & _ & Hout). exists err, s'. split; [done|]. destruct Hout as [(-> & -> & He)|Hout].
  - left. split; [done|]. destruct (entry_granted s t trx table mode Hok Ht Hact Hw He) as (id & l & Hid & _ & Htl & Hn & Hs & Hor). exists id, l.
    destruct Hor as [[Q Hwt]|Hno]; [done|]. by apply (undisturbed_tidy t s Hr trx Ht Hact) in Hid.
  - destruct err; cbn in Hout; try done; [left|right; left|right; right]; (split; [done|]); [|done|].
    + destruct Hout as (_ & id & l & ? & ? & ? & E & ?). exists id, l. split_and!; try done. rewrite E. clear -Hm. unfold lock_modes in Hm. set_unfold. by destruct_or!; subst.
    + destruct Hout as (trx' & ? & ? & _ & ?). by exists trx, trx'.
Qed.

End resolvable.

(** ** Runs *)

(** Two tables, the structs of their AUTO-INC locks at addresses of their own. *)
Definition two_tables : tab_sys_t := mk_tab_sys ∅ {[7 := mk_dict_table [] 1007 0 None; 8 := mk_dict_table [] 1008 0 None]} ∅.

Lemma two_tables_init : tab_init two_tables.
Proof.
  split_and!; try done.
  - intros n tb. cbn. rewrite lookup_insert_Some, lookup_singleton_Some. intros [[_ <-]|[_ [_ <-]]]; by eexists.
  - intros n1 n2 tb1 tb2. cbn. rewrite !lookup_insert_Some, !lookup_singleton_Some. naive_solver.
Qed.

Definition tab_runningb (s : tab_sys_t) (t : nat) : bool :=
  match tab_trxs s !! t with Some trx => bool_decide (tt_state trx = TRX_STATE_ACTIVE) && bool_decide (tt_wait_lock trx = None) | None => false end.

Definition tab_committedb (s : tab_sys_t) (t : nat) : bool :=
  match tab_trxs s !! t with Some trx => bool_decide (tt_state trx = TRX_STATE_COMMITTED_IN_MEMORY) | None => false end.

Definition tab_freshb (s : tab_sys_t) (node : nat) : bool := bool_decide (heap s !! node = None) && bool_decide (map_Forall (λ _ tb, autoinc_lock tb ≠ node) (tables s)).

Definition tab_query_runsb (s : tab_sys_t) (t : nat) : bool :=
  match tab_trxs s !! t with Some trx => negb (fst (que_thr_stop TRX_QUE_RUNNING (w_duplicates (tt_work trx)) (tt_thr trx))) | None => true end.

(** Nothing waits on the table, and recovered transactions do not wait. *)
Definition tab_quietb (s : tab_sys_t) (table : nat) : bool :=
  bool_decide (map_Forall (λ _ trx, w_is_recovered (tt_work trx) = false ∨ tt_wait_lock trx = None) (tab_trxs s)) &&
  match tables s !! table with
  | Some tb => forallb (λ x, match heap s !! x with Some l => negb (tl_wait l) && bool_decide (tt_state <$> tab_trxs s !! tl_trx l = Some TRX_STATE_ACTIVE) | None => true end) (locks tb)
  | None => true
  end.

(** The test of [tab_pre] for a run; recovery has to come before any other lock. *)
Definition tab_preb (op : tab_op) (s : tab_sys_t) : bool :=
  match op with
  | TBegin t => bool_decide (tab_trxs s !! t = None)
  | TLock table mode t node => tab_runningb s t && bool_decide (is_Some (tables s !! table)) && bool_decide (mode ∈ lock_modes) && tab_freshb s node && tab_query_runsb s t
  | TResurrect table t node => tab_runningb s t && tab_freshb s node && bool_decide (locks <$> tables s !! table = Some [])
  | TUnlockAutoinc t | TCommit t => tab_runningb s t
  | TTimeout t | TWork t _ _ _ => bool_decide (is_Some (tab_trxs s !! t))
  | TRemoveAll table _ _ => bool_decide (is_Some (tables s !! table)) && tab_quietb s table
  | TRelease t => tab_committedb s t
  | TEnd t => tab_committedb s t && bool_decide (tt_locks <$> tab_trxs s !! t = Some [])
  end.

Lemma tab_runningb_sound s t : tab_runningb s t = true → tab_running s t.
Proof. unfold tab_runningb. destruct (tab_trxs s !! t) as [trx|] eqn:E; [|done]. intros [H1%bool_decide_eq_true H2%bool_decide_eq_true]%andb_true_iff. by exists trx. Qed.

Lemma tab_committedb_sound s t : tab_committedb s t = true → tab_committed s t.
Proof. unfold tab_committedb. destruct (tab_trxs s !! t) as [trx|] eqn:E; [|done]. intros H%bool_decide_eq_true. by exists trx. Qed.

Lemma tab_freshb_sound s node : tab_freshb s node = true → tab_fresh s node.
Proof. intros [H1%bool_decide_eq_true H2%bool_decide_eq_true]%andb_true_iff. split; [done|]. intros (n & tb & Htb & Ha). by apply (H2 n tb Htb). Qed.

Lemma tab_query_runsb_sound s t trx : tab_query_runsb s t = true → tab_trxs s !! t = Some trx → tab_query_runs trx.
Proof. unfold tab_query_runsb. intros H Ht. rewrite Ht in H. by apply negb_true_iff. Qed.

Lemma tab_quietb_sound s table sx rc : tab_quietb s table = true → quiet s table sx rc.
Proof.
  intros [Hrc%bool_decide_eq_true Hq]%andb_true_iff. split; [|intros _ t trx Ht Hr; destruct (Hrc t trx Ht); congruence].
  intros x l [Hl (tb & Htb & Hx)] <-. rewrite Htb in Hq. apply forallb_forall with (x := x) in Hq; [|by apply list_elem_of_In]. rewrite Hl in Hq.
  apply andb_true_iff in Hq as [Hw%negb_true_iff Ht%bool_decide_eq_true]. split_and!; [|done|congruence]. destruct (tab_trxs s !! tl_trx l) as [trx|]; [|done]. exists trx. split; [done|]. by injection Ht.
Qed.

Lemma tab_preb_sound op s : tab_preb op s = true → tab_pre op s.
Proof.
  destruct op; cbn [tab_preb tab_pre]; rewrite ?andb_true_iff, ?bool_decide_eq_true.
  - done.
  - intros [[[[H1 H2] H3] H4] H5]. split_and!; [by apply tab_runningb_sound|done..|by apply tab_freshb_sound|]. intros tx. by apply tab_query_runsb_sound.
  - intros [[H1 H2] H3]. split_and!; [by apply tab_runningb_sound|by apply tab_freshb_sound|]. destruct (tables s !! table) as [tb|]; [|done]. injection H3 as H3.
    exists tb. split; [done|]. rewrite H3. by intros x lx ?%elem_of_nil.
  - apply tab_runningb_sound.
  - done.
  - intros [H1 H2]. split; [done|by apply tab_quietb_sound].
  - done.
  - apply tab_runningb_sound.
  - apply tab_committedb_sound.
  - intros [H1 H2]. split; [by apply tab_committedb_sound|done].
Qed.

Definition tab_script_step (cfg : config) (r : option tab_sys_t) (op : tab_op) : option tab_sys_t :=
  s ← r; guard (tab_preb op s = true);; match tab_exec cfg (tab_search cfg) op s with Ok (_, s) => Some s | Err _ => None end.

Definition tab_script (cfg : config) (ops : list tab_op) : tab_sys_t := default two_tables (foldl (tab_script_step cfg) (Some two_tables) ops).

Lemma tab_script_reach cfg ops : tab_reach cfg (tab_search cfg) (tab_script cfg ops).
Proof.
  assert (Hgo : ∀ r, (∀ s, r = Some s → tab_reach cfg (tab_search cfg) s) → ∀ s, foldl (tab_script_step cfg) r ops = Some s → tab_reach cfg (tab_search cfg) s).
  { induction ops as [|op ops IH]; intros r Hr s; [by apply Hr|]. cbn [foldl]. apply IH. intros s1. unfold tab_script_step. destruct r as [s0|]; [|done]. cbn. case_guard as Hg; [|done]. cbn.
    destruct (tab_exec cfg (tab_search cfg) op s0) as [[[] s2]|] eqn:E; [|done]. intros [= <-]. eapply tab_reach_step; [by apply Hr|by apply tab_preb_sound|done]. }
  unfold tab_script. destruct (foldl _ _ ops) as [s|] eqn:E; cbn; [|by apply tab_reach_init, two_tables_init]. eapply Hgo; [|done]. intros s0 [= <-]. by apply tab_reach_init, two_tables_init.
Qed.

(** A run in which [t] never starts to wait and is not sent back. *)
Definition smooth (t : nat) (s : tab_sys_t) : bool := match tab_trxs s !! t with Some trx => bool_decide (tt_wait_lock trx = None) | None => true end.

Definition sent_back (cfg : config) (t : nat) (op : tab_op) (s : tab_sys_t) : bool :=
  match op with
  | TLock table mode u node => bool_decide (u = t) && match lock_table cfg (tab_search cfg) table mode u node s with Ok (DB_DEADLOCK, _) => true | _ => false end
  | _ => false
  end.

Fixpoint tab_smooth (cfg : config) (t : nat) (ops : list tab_op) (s : tab_sys_t) : option tab_sys_t :=
  match ops with
  | [] => Some s
  | op :: ops =>
      if tab_preb op s && smooth t s && negb (sent_back cfg t op s) then match tab_exec cfg (tab_search cfg) op s with Ok (_, s) => tab_smooth cfg t ops s | Err _ => None end else None
  end.

Lemma tab_smooth_undisturbed cfg t ops s s' : tab_undisturbed cfg t s → tab_smooth cfg t ops s = Some s' → tab_undisturbed cfg t s'.
Proof.
  revert s. induction ops as [|op ops IH]; intros s Hs; cbn [tab_smooth]; [by intros [= <-]|]. destruct (tab_preb op s && smooth t s && negb (sent_back cfg t op s)) eqn:Hb; [|done].
  apply andb_true_iff in Hb as [[Hp Hm]%andb_true_iff Hsb%negb_true_iff]. destruct (tab_exec cfg (tab_search cfg) op s) as [[[] s1]|] eqn:E; [|done]. apply IH.
  apply (tab_undisturbed_step cfg t s op); [done|by apply tab_preb_sound|done|..].
  - intros (trx & w & Ht & Hw & _). unfold smooth in Hm. rewrite Ht in Hm. apply bool_decide_eq_true in Hm. congruence.
  - intros table mode node -> Hrun. cbn in Hsb. rewrite Hrun in Hsb. by rewrite bool_decide_true in Hsb.
Qed.

Definition answer {S A} (r : res (A * S)) : option A := match r with Ok (a, _) => Some a | Err _ => None end.

Definition fcfs_tables : config := mk_config (λ _ _, true) (λ _, false) FCFS true false.

(** Transaction 1 holds table 7 exclusively and the AUTO-INC lock of table 8, for which
    transaction 3 waits; transaction 2 waits for table 7, and transaction 4 has no
    locks. *)
Definition busy_ops : list tab_op :=
  [TBegin 1; TBegin 2; TBegin 3; TBegin 4; TLock 7 LOCK_X 1 10; TLock 8 LOCK_AUTO_INC 1 11; TLock 8 LOCK_AUTO_INC 3 12; TLock 7 LOCK_IX 2 13].

Definition busy_tables : tab_sys_t := tab_script fcfs_tables busy_ops.

(** Transaction 1 has AUTO-INC locks on both tables; the first one is removed with the locks
    of its table and leaves a gap in the vector. *)
Definition gap_tables : tab_sys_t := tab_script fcfs_tables [TBegin 1; TLock 7 LOCK_AUTO_INC 1 10; TLock 8 LOCK_AUTO_INC 1 11; TRemoveAll 7 true false].

Lemma gap_tables_gap : autoinc_locks <$> tab_trxs gap_tables !! 1 = Some [None; Some 1008].
Proof. by vm_compute. Qed.

(** Transaction 2 has a lock on table 7 and waits for table 8, which transaction 1 has;
    transaction 1 has changed more rows. *)
Definition cycle_ops (mode : Z) : list tab_op :=
  [TBegin 1; TBegin 2; TLock 8 LOCK_X 1 10; TLock 7 mode 2 11; TLock 8 LOCK_IX 2 12; TWork 1 (mk_work 5 false false 0 false) QUE_FORK_MYSQL_INTERFACE DB_SUCCESS].

Definition autoinc_free (t : nat) (s : tab_sys_t) : bool := bool_decide (map_Forall (λ u trx, u = t ∨ tt_wait_lock trx = None ∨ autoinc_locks trx = []) (tab_trxs s)).

Lemma autoinc_free_sound t s : autoinc_free t s = true → no_autoinc_waiter t s.
Proof. intros H%bool_decide_eq_true u trx Hne Hu [w Hw]. destruct (H u trx Hu) as [|[|]]; congruence. Qed.

Lemma table_lock_no_failure_witness :
  (∃ s', tab_exec fcfs_tables (tab_search fcfs_tables) (TLock 7 LOCK_S 1 13) (tab_script fcfs_tables (cycle_ops LOCK_X)) = Ok (tt, s') ∧
     tab_reach fcfs_tables (tab_search fcfs_tables) s') ∧
  (∃ s', tab_exec fcfs_tables (tab_search fcfs_tables) (TTimeout 2) busy_tables = Ok (tt, s') ∧ tab_reach fcfs_tables (tab_search fcfs_tables) s') ∧
  ∃ s', tab_exec fcfs_tables (tab_search fcfs_tables) (TUnlockAutoinc 1) gap_tables = Ok (tt, s') ∧ tab_reach fcfs_tables (tab_search fcfs_tables) s'.
Proof.
  split_and!; (apply table_lock_no_failure; [apply tab_script_reach|apply tab_preb_sound; by vm_compute|]); [|done..]. right. right. apply autoinc_free_sound. by vm_compute.
Defined.

Lemma table_locks_exact_witness :
  (∃ l, heap busy_tables !! 13 = Some l ∧ tl_wait l = true) ∧ (∀ id l, queued busy_tables id l → tl_wait l = true ↔ blocked busy_tables id l).
Proof. split; [eexists; by split; vm_compute|]. apply (table_locks_exact fcfs_tables _ (tab_search_usable fcfs_tables) busy_tables). apply tab_script_reach. Defined.

Lemma autoinc_exact_witness :
  (∃ tb, tables busy_tables !! 8 = Some tb ∧ autoinc_trx tb = Some 1 ∧ n_waiting_or_granted_auto_inc_locks tb = 2) ∧
  ∃ id l, queued busy_tables id l ∧ tl_trx l = 1 ∧ is_autoinc l = true ∧ tl_wait l = false.
Proof.
  split; [eexists; by split_and!; vm_compute|]. exists 1008. destruct (autoinc_exact fcfs_tables _ (tab_search_usable fcfs_tables) busy_tables (tab_script_reach _ _)) as [_ H].
  destruct (tab_trxs busy_tables !! 1) as [trx|] eqn:E; [|by vm_compute in E]. apply (H 1 trx E). vm_compute in E. injection E as <-. by left.
Defined.

Lemma table_request_outcome_witness :
  ∃ s', lock_table fcfs_tables (tab_search fcfs_tables) 7 LOCK_S 4 30 busy_tables = Ok (DB_LOCK_WAIT, s') ∧
    ∃ id l, queued s' id l ∧ tl_trx l = 4 ∧ tl_table l = 7 ∧ tl_mode l = LOCK_S ∧ tl_wait l = true.
Proof.
  destruct (tab_trxs busy_tables !! 4) as [trx|] eqn:E; [|by vm_compute in E].
  destruct (table_request_outcome fcfs_tables busy_tables 4 trx 7 LOCK_S 30 (tab_script_reach _ _) E) as (err & s' & Hrun & Hout);
    [apply tab_preb_sound; by vm_compute|right; right; apply autoinc_free_sound; by vm_compute|].
  assert (Hw : answer (lock_table fcfs_tables (tab_search fcfs_tables) 7 LOCK_S 4 30 busy_tables) = Some DB_LOCK_WAIT) by (by vm_compute). rewrite Hrun in Hw. injection Hw as ->.
  exists s'. split; [exact Hrun|]. clear -Hout. destruct Hout as [(? & _)|(_ & id & l & _ & _ & _ & ?)]; [done|by exists id, l].
Defined.

Lemma table_release_frees_witness : ∃ s', lock_trx_release_locks 1 busy_tables = Ok (tt, s') ∧ ∀ id l, queued s' id l → tl_trx l ≠ 1.
Proof.
  destruct (table_release_frees fcfs_tables _ (tab_search_usable fcfs_tables) busy_tables 1 (tab_script_reach _ _)) as (s' & Hrun & Hq & _); [apply tab_runningb_sound; by vm_compute|].
  exists s'. split; [done|]. intros id l Q. by apply (Hq id l Q).
Defined.

Lemma undisturbed_request_granted_witness :
  ∃ s', lock_table fcfs_tables (tab_search fcfs_tables) 7 LOCK_IS 1 30 busy_tables = Ok (DB_SUCCESS, s') ∧ ∃ id l, queued s' id l ∧ tl_trx l = 1 ∧ tl_table l = 7 ∧ tl_wait l = false.
Proof.
  destruct (undisturbed_request_granted fcfs_tables busy_tables 1 7 LOCK_IS 30) as (err & s' & Hrun & Hout).
  - apply (tab_smooth_undisturbed fcfs_tables 1 busy_ops two_tables); [by apply tab_undisturbed_init, two_tables_init|by vm_compute].
  - apply tab_preb_sound. by vm_compute.
  - right. right. apply autoinc_free_sound. by vm_compute.
  - assert (E : answer (lock_table fcfs_tables (tab_search fcfs_tables) 7 LOCK_IS 1 30 busy_tables) = Some DB_SUCCESS) by (by vm_compute). rewrite Hrun in E. injection E as ->.
    exists s'. split; [exact Hrun|]. clear -Hout. destruct Hout as [(_ & id & l & ? & ? & ? & _ & ?)|[[? _]|[? _]]]; [by exists id, l|done..].
Defined.

(** C29. A request can return success without any lock. A timeout takes the waiting lock of
    a transaction from the queue of the table and leaves it in the vector of its table locks,
    where its next request finds it: transaction 2 is told that it has an IX lock on table 7
    while transaction 1 has the only lock there, an exclusive one. *)
Theorem stale_table_lock :
  let s := tab_script fcfs_tables [TBegin 1; TBegin 2; TLock 7 LOCK_X 1 10; TLock 7 LOCK_IX 2 13; TTimeout 2] in
  tab_reach fcfs_tables (tab_search fcfs_tables) s ∧ tab_running s 2 ∧ lock_table fcfs_tables (tab_search fcfs_tables) 7 LOCK_IX 2 14 s = Ok (DB_SUCCESS, s) ∧
  (∃ l, queued s 10 l ∧ tl_table l = 7 ∧ tl_trx l = 1 ∧ tl_mode l = LOCK_X ∧ tl_wait l = false) ∧ (∀ id l, queued s id l → id = 10).
Proof.
  intros s. split_and!; [apply tab_script_reach|apply tab_runningb_sound; by vm_compute|by vm_compute|..].
  - eexists. split_and!; [split; [by vm_compute|eexists; split; [by vm_compute|by left]]|by vm_compute..].
  - intros id l (_ & tb & Htb & Hid).
    assert (Hall : map_Forall (λ _ tb, Forall (λ x, x = 10) (locks tb)) (tables s)) by (apply (bool_decide_unpack _); by vm_compute). by apply (proj1 (Forall_forall _ _) (Hall _ _ Htb)).
Qed.

(** C28. Under FCFS scheduling resolving a deadlock can stop the server. Transaction 2 has the
    AUTO-INC lock of table 7 and waits for table 8; transaction 1 holds table 8 and asks for
    table 7. Transaction 2 is the victim. Rolling back its wait releases its AUTO-INC lock
    as well, so that the lock of transaction 1 is granted as the first one on table 7; the
    next search starts there, and its assertion that the first lock of the queue is not the
    one that waits fails. *)
Theorem autoinc_victim_assertion :
  let s := tab_script fcfs_tables (cycle_ops LOCK_AUTO_INC) in
  tab_reach fcfs_tables (tab_search fcfs_tables) s ∧ tab_pre (TLock 7 LOCK_S 1 13) s ∧
  (∃ l, queued s 1007 l ∧ tl_trx l = 2 ∧ is_autoinc l = true ∧ tl_wait l = false) ∧
  lock_table fcfs_tables (tab_search fcfs_tables) 7 LOCK_S 1 13 s = Err AssertFail.
Proof.
  intros s. split_and!; [apply tab_script_reach|apply tab_preb_sound; by vm_compute| |by vm_compute].
  eexists. split_and!; [split; [by vm_compute|eexists; split; [by vm_compute|by left]]|by vm_compute..].
Qed.
